(* ===== verification/_CoqProject ===== *)
-Q . S2P
Prelude.v
Types.v
Telemetry.v
Values.v
Ids.v
Origin.v
Queue.v
Wasm.v
FuzzCorpus.v
BridgeMaps.v
GrafeoTx.v
GraphSpec.v
EdgeKeys.v
Translate.v
MemGraph.v
Batcher.v
BatcherSpec.v
SyncEngine.v
EngineSpec.v
Lifecycle.v
Pipeline.v
Outbound.v
Settle.v
Graph.v
CycleGuard.v
Acyclic.v
Observability.v
TreeMove.v
Storage.v
Compression.v
Fuzz.v
Hydration.v
Mirror.v
MirrorOut.v
Vector.v
App.v
AppRuntime.v
Shadow.v
Fts.v
Sab.v
Merge.v
Ffi.v
Memory.v
MemoryThreads.v
Mailbox.v
Presence.v
TreeAdapter.v
FuzzOracles.v
FuzzTarget.v
Demo.v
Features.v
SuiteTree.v
SuiteBridge.v
SuiteRuntime.v
SuiteServices.v
