(* ===== verification/Prelude.v ===== *)
(** * grafeo-loro: a verification development

    [grafeo-loro] keeps a property graph (grafeo) and a CRDT document (Loro) in
    step.  A local or remote commit of the document reaches the graph through
    the inbound half (subscriber, bounded channel, batcher, translator); a
    commit of the graph reaches the document through the outbound half (change
    poller, bounded channel, outbound worker).  Two filters keep the halves from
    feeding each other: origin tags on document commits, and a side channel of
    the epochs the batcher committed.  Around this core stand the tree
    discipline, the offline queue, storage and compression, the application's
    checkpoint and cold boot, hydration and embeddings, shadow commits, full-text
    search, presence, the layout buffer, the FFI and wasm surfaces, the runtime's
    mailbox and memory ceiling, telemetry, the runtime checks and the consistency
    fuzzer.  Paths below are under [src/src/], those of the fuzzer and of the examples under [src/].

    ** Foreign code

    Loro, grafeo, tokio, serde_json, bincode, js-sys, opentelemetry and the
    codecs are not in the repository.  They appear as classes ([GrafeoSession],
    [GrafeoDB], [LoroDoc], [Codecs], [LoroSnapshot], [LoroHydrate],
    [LoroSubscribe], [TokioMpsc], [JsSys], [Probed], [Meter], [Tracer],
    [MergeableDoc], [GrafeoRead], [GrafeoTimeTravel], [FloatLn], ...) whose
    operations the translated code calls, with classes of laws ([GrafeoLaws],
    [GrafeoDBLaws], [GrafeoFreshIds], [LoroMapLaws], [CodecLaws],
    [TokioMpscLaws], [JsSysLaws], [StorageLaws], [SerdeJsonLaws], ...) that state
    what they document.  They promise no more than that: every operation of a
    storage backend may fail ([StorageLaws] says what a success means and what a
    failure leaves), a number that JSON printed is read back as [json_reread] of
    it, and the bit pattern of a NaN the hardware produces is a parameter
    ([F32Nan]).  Each class has an instance in the development, so no theorem is
    vacuous: [MemGraph] is a property graph with tombstones and a change log, the
    others are small instances beside the witnesses.  The order
    in which a Rust hash map is iterated is an argument ([HashOrder],
    [SetOrder]) of which only the contents are known, and so is the order in
    which rayon runs the closures of the parallel pass ([ParOrder]).

    ** Files

    - [Prelude]: results with [?], state-and-error monads, fixed-width integer
      operations, iteration orders, byte and option lemmas.
    - [Types]: [error.rs], [config.rs], [constants.rs], [types/events.rs],
      [types/presence.rs].  [Values]: [types/values.rs], the three value types
      and their conversions.  [Ids]: [types/ids.rs], the interning table.
    - [Origin]: [bridge/origin.rs], commit origins and the thread-local stash.
    - [Queue]: [bridge/queue.rs], the offline queue and the lineage epoch, with
      the engine's [wipe_cache] and [drain_offline_queue].
    - [BridgeMaps]: the four id maps of [bridge/grafeo_tx.rs] and invariant I11.
      [GrafeoTx]: [apply_loro_op] of the same file.  [GraphSpec]: the abstract
      [KeyedGraph], its [spec_apply], and the refinement.  [MemGraph]: the
      reference session.
    - [EdgeKeys], [Translate], [SyncEngine]: [bridge/sync_engine.rs]: the edge
      key encoding, the two event translations, and the engine's tasks.
      [EngineSpec]: the tasks as a transition system.  [Lifecycle]: each task as
      a program counter with a poll, from [spawn_all] to the joins of
      [GrafeoLoroApp::shutdown], and who has subscribed to the broadcast when.
      [Pipeline]: the inbound tasks of [Lifecycle] together, from the
      subscriber's channel to the committed graph.  [Outbound]: the outbound
      tasks together, from grafeo's log to the document.  [Settle]: both halves
      against each other.  [Mirror]: what the graph holds of the document's
      history, two replicas, live sync against hydration.  [MirrorOut]: what the
      document holds of the graph.
    - [Batcher]: [bridge/batcher.rs].  [BatcherSpec]: its contract.
    - [Graph]: relations, three-colour search, breadth-first search, shared by
      [Acyclic] ([schema/edge.rs] and the search of [observability/mod.rs]),
      [CycleGuard] ([schema/tree.rs], [schema/mod.rs]), [TreeMove]
      ([schema/tree.rs]) and [TreeAdapter] ([tree_adapter/mod.rs]).
    - [Observability]: [observability/mod.rs].  [Storage]: [storage/*.rs].
      [Compression]: [compression/wrapper.rs].  [Presence]: [presence/*.rs].
    - [runtime/mod.rs]: [Memory] is the ceiling as one thread runs it,
      [MemoryThreads] its calls as atomic accesses and critical sections of any
      number of threads, [Mailbox] the tokio mailbox with its futures in flight.
    - [Wasm]: [wasm/*.rs], the error codes and the two classes a page calls.
      [Telemetry]: [telemetry/*.rs], the health probe, instruments and spans.
    - [Hydration]: [hydration/*.rs], the serial and the parallel passes over the
      document's vertices.  [Vector]: the embedding and the text
      update of [hydration/vector.rs].  [App]: the builder, [checkpoint] and
      [hydrate] of [app.rs], over [Storage] and [Compression].  [AppRuntime]: the
      setters and constructors, [build] with the tasks it spawns, the accessors,
      [subscribe] and [shutdown].
    - [Shadow]: [shadow/mod.rs], content-addressed commits, the reference store
      and its undo.  [Fts]: [fts/mod.rs], the inverted index and its BM25 score.
      [Sab]: [sab/mod.rs], the buffer of row layouts.
    - [Merge], [Ffi]: [ffi/mod.rs], the text merge and the entry points.
    - [FuzzCorpus]: [fuzz/fuzz_targets/lib.rs] and [gen_corpus.rs], the fuzz
      operations and the encoder of the seeds.  [Fuzz]: the apply loop of
      [consistency.rs] and the oracles on what it left.  [FuzzOracles]: the
      oracles that run a component again.  [FuzzTarget]: the entry point, the
      schedule by which it picks the oracles, and I3b.
    - [Features]: [lib.rs] and [Cargo.toml], the features, the gates of the
      modules and what each module refers to.
    - [Demo]: [examples/], the log of the demo page and the edit of the outliner.
    - [SuiteTree], [SuiteBridge], [SuiteRuntime], [SuiteServices]: the unit tests
      of the modules, run on the definitions.  They check the translation: a test
      that passes on the code passes on the model, and where the code meets the
      order of a hash map it passes for every order.

    ** How the code is rendered

    A struct is a [Record], an enum an [Inductive] with its constructors, a
    method a definition of its name (prefixed with the type where names clash)
    that returns the new state beside its result.  [Result] is [result] with the
    error of [error.rs], messages included.  Machine integers are [Z] with the
    checked, saturating or wrapping operation the source uses; lengths and
    indices that cannot overflow are [nat].  A lock held for a whole operation
    disappears into the atomicity of the definition; where the code releases it
    between two effects, or awaits, the definition is cut there and [EngineSpec]
    and [Lifecycle] let other tasks run in between.  A flush is the closure on its
    thread ([Blocking]): its transaction from [begin_transaction] to [commit] is
    one step, the insertion of the epoch another, and the end of the batcher's
    await a third; a closure whose await timed out stays in [mb_background] and
    goes on.  The thread of the awaited flush is the task [TFlush].  The poller
    looks an event up in the epoch set once ([poll_event]) and then waits for room
    with the event in its hand ([poll_send]).  [run] is the loop on a machine where
    nothing else runs; [run_iteration_pieces] shows it to be these pieces put
    together.  Asynchronous choices (which branch of a
    [select!] is ready, how a blocking task ends, which iteration order a hash
    map has) are arguments, and the theorems quantify over them.

    ** What the theorems show

    - Bridge: the inbound path implements the keyed graph and batching is
      transparent ([apply_loro_ops_refines], [batching_transparent]); nothing is
      lost, duplicated or reordered on the way ([batcher_conserves_ops],
      [subscriber_backpressure], and for the whole paths under every interleaving
      [inbound_pipeline_delivers] and [outbound_pipeline_delivers]); left to
      itself the bridge comes to rest under every schedule, with nothing on its
      way in either direction ([bridge_settles]); no change of the bridge is echoed
      to Loro unless it is polled between the commit of its flush and the recording
      of the epoch ([no_outbound_echo]; [poll_between_commit_and_record] is such a
      run), and the subscriber drops the worker's own commits
      ([no_inbound_echo]); entries survive the round trip
      through both translations ([inbound_outbound_roundtrip],
      [change_event_effect]); the id maps stay bijective.
    - Consistency of the two stores: where the flushes succeed, nothing is dropped
      and the history is admissible (vertices deleted after their edges, no
      operation refused), the graph a replica commits holds what the
      updates of each entry add up to, and mirrors the document as long
      as updates only add and overwrite ([bridge_mirrors_document]); then replicas
      with equal documents have graphs of equal content ([replicas_converge]).  A
      change of the graph restores the mirror exactly when its values survive the
      way to the document and back ([outbound_keeps_mirror]).  Outside these
      conditions the stores drift: [draft_outlives_its_removal],
      [crossing_edits_swap].  Live sync and hydration read disjoint sets of
      vertices ([live_and_cold_disjoint]).
    - Trees: the searches terminate and decide acyclicity or reachability, the
      guard and the move refuse exactly the cycles (the move also refuses paths
      of other edge labels), the traversals list exactly what is reachable, [descendants] in depth-first
      pre-order.
    - Lifecycle: a shutdown terminates once the batcher has been polled
      ([shutdown_terminates]) and never does before ([early_shutdown_hangs]); the
      poller misses what is committed before its own first poll.
    - Bounded resources: the offline queue is a FIFO within its cap; the memory
      ceiling accounts for every byte and evicts oldest first, and [n] threads
      keep it within [n] budgets ([overcommit_bounded]); the mailbox is a bounded
      FIFO that never loses its receiver and closes as documented.
    - Surfaces: a page can call the wasm classes in any order without a trap and
      gets the documented answer to each call ([page_run_safe]); a chain of setters builds what it says ([builder_exact]).
    - The fuzzer: the entry point returns on any bytes, and which oracles can
      never fire where the database, the codecs, the JSON library and tokio do what
      they are asked to ([fuzz_target_sound] and the lemmas of
      [FuzzOracles]); what the tree oracle decides ([i14_oracle_correct]), and
      inputs on which two of them are wrong.
    - The build: which selections of features compile, given the features of tokio
      that other packages of the build enable ([build_resolves_iff]).
    - Cold boot: a checkpoint leaves the base that decodes to the document and
      removes what its name covers, save keys whose deletion failed
      ([checkpoint_correct]); an application hydrated from it holds that
      document and the graph of its container vertices, unless the storage, such an
      entry or the database fails ([checkpoint_hydrate_roundtrip],
      [hydrate_grafeo_correct]); a vertex the outbound half wrote or live sync
      brought stops hydration ([live_and_cold_disjoint]).
    - History and search: undo reaches exactly the n-th ancestor of the head
      ([shadow_undo_correct]); the index is the one built from the live documents
      and a search lists the documents that match, by score
      ([fts_index_exact], [fts_search_exact]).
    - Formats: the compression and presence envelopes parse exactly what they
      print and reject the rest; edge keys, values and ids round-trip where
      stated.
    - The rest: the layout buffer is a packed array whose recomputed offsets are the
      bottoms of the entries before ([sab_layout_exact]); the text merge is total, adopts the side that changed and is
      symmetric; the diff it rests on is a longest common subsequence; storage is
      a map; the invariant checker decides its five invariants.

    ** Fuel

    Loops the source does not bound run on fuel and give [None] when it is
    spent; each has a theorem that a stated amount is enough.  A breadth-first
    search needs a step per reachable node and one to see the queue empty; the
    three-colour searches a step per edge and two per node; a walk up a parent
    map a step per entry, when the map is acyclic ([unchecked_cycle_diverges]
    is the other case); the eviction loop a step per idle document; the merge
    and LCS loops a step per line of the inputs; the walk to a commit's ancestor
    one step more than there are commits; the tree oracle a pop per vertex and
    one to meet a vertex again ([i14_fuel]).  [quit_fuel] bounds the polls of a
    shutdown, [pipe_fuel] the turns that empty the inbound path and [out_fuel]
    those that empty the outbound one: a constant number for each operation or
    event that waits, by the place where it waits; [thread_fuel] the steps a flush
    closure has left.  How many turns the whole
    bridge takes to settle depends on what grafeo reports of the last commits, so
    [bridge_settles] rests on a lexicographic order instead of a number.

    ** Not modelled

    The estimate [memory_usage_bytes] of [fts/mod.rs], which reads allocator
    capacities; [init_panic_hook] and the flush of the global tracer provider,
    which are foreign calls; the calls the [main] of the outliner makes around
    its edit, and the files of [tests/] and [benches/]; the unit tests of [RefCell], of the memory layout of
    Rust types and of bincode's bytes, which exercise no code of the crate.  Spans have names and
    no contents.  Tokio's cooperative budget, under which a ready future may
    report pending once in a while, is one of the schedules: a poll that makes
    progress later.  Inside the transaction of a flush nothing else runs, although
    the code takes the lock of the id maps for each operation anew; grafeo isolates
    its own state until the commit.  A period of zero for the ticker, on which
    tokio panics, is rejected by the builder; [spawn_run] has the panic. *)

From stdpp Require Export prelude gmap strings pretty list sorting.
From Stdlib Require String.
From Stdlib Require Export ZArith Lia Strings.Byte.

#[global] Unset Program Cases.
#[global] Set Default Goal Selector "!".

(** ** Results

    [result E A] is Rust's [Result<A, E>]: every fallible operation of the
    source returns one, and [?] is the bind of the monad below. *)

Inductive result (E A : Type) : Type :=
| Ok (a : A)
| Err (e : E).
Arguments Ok {E A} a.
Arguments Err {E A} e.

#[export] Instance result_eq_dec {E A} `{EqDecision E, EqDecision A} :
  EqDecision (result E A).
Proof. solve_decision. Defined.

#[export] Instance Ok_inj {E A} : Inj (=) (=) (@Ok E A).
Proof. by intros ?? [= ->]. Qed.
#[export] Instance Err_inj {E A} : Inj (=) (=) (@Err E A).
Proof. by intros ?? [= ->]. Qed.

#[export] Instance result_ret E : MRet (result E) := @Ok E.
#[export] Instance result_bind E : MBind (result E) := λ A B f r,
  match r with Ok a => f a | Err e => Err e end.
#[export] Instance result_fmap E : FMap (result E) := λ A B f r,
  match r with Ok a => Ok (f a) | Err e => Err e end.

(** [Option::ok_or_else]. *)
Definition ok_or {E A} (o : option A) (e : E) : result E A :=
  match o with Some a => Ok a | None => Err e end.

(** [Result::map_err]. *)
Definition map_err {E F A} (f : E → F) (r : result E A) : result F A :=
  match r with Ok a => Ok a | Err e => Err (f e) end.

Definition is_ok {E A} (r : result E A) : bool :=
  match r with Ok _ => true | Err _ => false end.

(** [assert_eq!(r.unwrap(), a)] and [assert!(r.is_err())]. *)
Definition returns {E A} `{EqDecision A} (r : result E A) (a : A) : bool :=
  match r with Ok x => bool_decide (x = a) | Err _ => false end.
Definition is_err {E A} (r : result E A) : bool := negb (is_ok r).

(** ** Stateful fallible code

    A function that mutates shared state and may fail is a [SE S E A]: the
    state survives an error, as it does in Rust when [?] returns early after
    earlier statements have already written through a lock or a [&mut]. *)

Definition SE (S E A : Type) : Type := S → result E A * S.

#[export] Instance SE_ret S E : MRet (SE S E) := λ A a s, (Ok a, s).
#[export] Instance SE_bind S E : MBind (SE S E) := λ A B f m s,
  match m s with
  | (Ok a, s') => f a s'
  | (Err e, s') => (Err e, s')
  end.

Definition SE_get {S E} : SE S E S := λ s, (Ok s, s).
Definition SE_put {S E} (s' : S) : SE S E unit := λ _, (Ok tt, s').
Definition SE_modify {S E} (f : S → S) : SE S E unit := λ s, (Ok tt, f s).
Definition SE_throw {S E A} (e : E) : SE S E A := λ s, (Err e, s).
Definition SE_lift {S E A} (r : result E A) : SE S E A := λ s, (r, s).

(** A [for] loop whose body may leave by [?]. *)
Fixpoint SE_for {S E A} (l : list A) (body : A → SE S E unit) : SE S E unit :=
  match l with
  | [] => mret tt
  | x :: l' => body x ≫= λ _, SE_for l' body
  end.

Lemma SE_for_app {S E A} (l1 l2 : list A) (body : A → SE S E unit) (s : S) :
  SE_for (l1 ++ l2) body s = (SE_for l1 body ≫= λ _, SE_for l2 body) s.
Proof.
  revert s; induction l1 as [|x l1 IH]; intros s; [done|].
  cbn. unfold mbind, SE_bind. destruct (body x s) as [[[]|e] s']; [|done].
  rewrite IH. done.
Qed.

Lemma SE_bind_assoc {S E A B C} (m : SE S E A) (f : A → SE S E B) (g : B → SE S E C) (s : S) :
  (m ≫= λ a, f a ≫= g) s = ((m ≫= f) ≫= g) s.
Proof. unfold mbind, SE_bind. destruct (m s) as [[a|e] s']; done. Qed.

Lemma SE_bind_Ok {S E A B} (m : SE S E A) (f : A → SE S E B) (s : S) a :
  (m s).1 = Ok a → (m ≫= f) s = f a (m s).2.
Proof. unfold mbind, SE_bind. destruct (m s) as [[a'|e] s']; cbn; naive_solver. Qed.

(** Rule of the loop: an invariant every iteration keeps, whether it ends
    normally or by an error, holds when the loop is left. *)
Lemma SE_for_inv {S E A} (I : S → Prop) (l : list A) (body : A → SE S E unit) (s : S) :
  (∀ x s, x ∈ l → I s → I (snd (body x s))) →
  I s → I (snd (SE_for l body s)).
Proof.
  revert s; induction l as [|x l IH]; intros s Hb Hs; [done|].
  cbn. unfold mbind, SE_bind.
  pose proof (Hb x s ltac:(set_solver) Hs) as H1.
  destruct (body x s) as [[[]|e] s'] eqn:Hx; cbn in *; [|done].
  apply IH; [|done]. intros y t Hy; apply Hb; set_solver.
Qed.

(** ** Machine integers

    Values of [u32], [u64] and [usize] (64-bit targets) are integers below
    [2^32] and [2^64]; the operations are those of a build without overflow
    checks, where [+] and [-] wrap. *)

Declare Scope mach_scope.
Delimit Scope mach_scope with mach.

Definition U32_MAX : Z := 2 ^ 32 - 1.
Definition U64_MAX : Z := 2 ^ 64 - 1.
Definition USIZE_MAX : Z := 2 ^ 64 - 1.

Definition u32_wrap (z : Z) : Z := z mod 2 ^ 32.
Definition u64_wrap (z : Z) : Z := z mod 2 ^ 64.

Definition u64_add (a b : Z) : Z := u64_wrap (a + b).
Definition u64_sub (a b : Z) : Z := u64_wrap (a - b).
Definition u64_mul (a b : Z) : Z := u64_wrap (a * b).
Notation "a +64 b" := (u64_add a b) (at level 50, left associativity) : mach_scope.
Notation "a -64 b" := (u64_sub a b) (at level 50, left associativity) : mach_scope.
Notation "a *64 b" := (u64_mul a b) (at level 40, left associativity) : mach_scope.

(** [checked_add] of an unsigned integer whose largest value is [max]. *)
Definition checked_add (max a b : Z) : option Z :=
  if (a + b <=? max)%Z then Some (a + b)%Z else None.

(** [u32::saturating_add] and [u64::saturating_sub]. *)
Definition u32_saturating_add (a b : Z) : Z := Z.min (a + b) U32_MAX.
Definition u64_saturating_sub (a b : Z) : Z := Z.max (a - b) 0.

Definition is_u32 (z : Z) : Prop := (0 ≤ z ≤ U32_MAX)%Z.
Definition is_u64 (z : Z) : Prop := (0 ≤ z ≤ U64_MAX)%Z.

Lemma u64_wrap_range z : is_u64 (u64_wrap z).
Proof.
  unfold is_u64, u64_wrap, U64_MAX.
  pose proof (Z.mod_pos_bound z (2 ^ 64) ltac:(lia)). lia.
Qed.

Lemma u64_wrap_small z : is_u64 z → u64_wrap z = z.
Proof. unfold is_u64, u64_wrap, U64_MAX. intros. apply Z.mod_small. lia. Qed.

Lemma u32_wrap_small z : is_u32 z → u32_wrap z = z.
Proof. unfold is_u32, u32_wrap, U32_MAX. intros. apply Z.mod_small. lia. Qed.

Lemma u64_add_small a b : is_u64 (a + b) → u64_add a b = (a + b)%Z.
Proof. apply u64_wrap_small. Qed.

Lemma u64_sub_small a b : is_u64 (a - b) → u64_sub a b = (a - b)%Z.
Proof. apply u64_wrap_small. Qed.

Create HintDb mach.
#[export] Hint Resolve u64_wrap_range : mach.
#[export] Hint Rewrite u64_add_small u64_sub_small u64_wrap_small u32_wrap_small
  using (unfold is_u64, is_u32, U64_MAX, U32_MAX in *; lia) : mach.

(** ** Bytes *)

Definition byte_of_Z (z : Z) : byte :=
  match Byte.of_N (Z.to_N (z mod 256)) with Some b => b | None => x00 end.
Definition Z_of_byte (b : byte) : Z := Z.of_N (Byte.to_N b).

Lemma Z_of_byte_range b : (0 ≤ Z_of_byte b < 256)%Z.
Proof. unfold Z_of_byte. pose proof (Byte.to_N_bounded b). lia. Qed.

Lemma byte_of_Z_of_byte b : byte_of_Z (Z_of_byte b) = b.
Proof.
  unfold byte_of_Z. rewrite Z.mod_small by apply Z_of_byte_range.
  unfold Z_of_byte. rewrite N2Z.id, Byte.of_to_N. done.
Qed.

Lemma Z_of_byte_of_Z z : Z_of_byte (byte_of_Z z) = (z mod 256)%Z.
Proof.
  unfold byte_of_Z, Z_of_byte.
  pose proof (Z.mod_pos_bound z 256 ltac:(lia)) as Hb.
  destruct (Byte.of_N (Z.to_N (z mod 256))) as [b|] eqn:E.
  - apply Byte.to_of_N in E. rewrite E. lia.
  - apply Byte.of_N_None_iff in E. lia.
Qed.

#[export] Instance byte_eq_dec : EqDecision byte := Byte.byte_eq_dec.

(** [to_le_bytes] and [from_le_bytes] of an [n]-byte unsigned integer. *)
Fixpoint to_le_bytes (n : nat) (z : Z) : list byte :=
  match n with
  | O => []
  | S n => byte_of_Z z :: to_le_bytes n (z / 256)
  end.

Fixpoint from_le_bytes (l : list byte) : Z :=
  match l with
  | [] => 0
  | b :: l => Z_of_byte b + 256 * from_le_bytes l
  end.

Definition to_be_bytes (n : nat) (z : Z) : list byte := reverse (to_le_bytes n z).
Definition from_be_bytes (l : list byte) : Z := from_le_bytes (reverse l).

Lemma length_to_le_bytes n z : length (to_le_bytes n z) = n.
Proof. revert z; induction n as [|n IH]; intros z; cbn; [done|]. by rewrite IH. Qed.

Lemma from_to_le_bytes n z :
  from_le_bytes (to_le_bytes n z) = (z mod 256 ^ Z.of_nat n)%Z.
Proof.
  revert z; induction n as [|n IH]; intros z; cbn -[Z.pow Z.of_nat].
  - change (Z.of_nat 0) with 0%Z. rewrite Z.pow_0_r, Z.mod_1_r. done.
  - rewrite IH, Z_of_byte_of_Z, Nat2Z.inj_succ, Z.pow_succ_r by lia.
    rewrite Z.rem_mul_r by lia. done.
Qed.

Lemma from_to_le_bytes_id n z :
  (0 ≤ z < 256 ^ Z.of_nat n)%Z → from_le_bytes (to_le_bytes n z) = z.
Proof. intros. rewrite from_to_le_bytes. apply Z.mod_small. lia. Qed.

Lemma to_from_le_bytes l : to_le_bytes (length l) (from_le_bytes l) = l.
Proof.
  induction l as [|b l IH]; cbn -[Z.div Z.mul]; [done|].
  pose proof (Z_of_byte_range b) as Hb. f_equal.
  - rewrite <-(byte_of_Z_of_byte b) at 2. unfold byte_of_Z.
    by rewrite Z.mul_comm, Z.mod_add by lia.
  - rewrite Z.mul_comm, Z.div_add, Z.div_small, Z.add_0_l by lia. done.
Qed.

Lemma from_be_to_be_bytes n z :
  (0 ≤ z < 256 ^ Z.of_nat n)%Z → from_be_bytes (to_be_bytes n z) = z.
Proof.
  intros. unfold from_be_bytes, to_be_bytes. rewrite reverse_involutive.
  by apply from_to_le_bytes_id.
Qed.

(** ** Strings

    A Rust [String] or [&str] is its sequence of bytes. [dquote s] is [{:?}]
    on a string, without the escapes of non-printable characters. *)

(** One lowercase hexadecimal digit. *)
Definition hex_digit (n : Z) : string :=
  match n with
  | 0 => "0" | 1 => "1" | 2 => "2" | 3 => "3" | 4 => "4" | 5 => "5" | 6 => "6" | 7 => "7"
  | 8 => "8" | 9 => "9" | 10 => "a" | 11 => "b" | 12 => "c" | 13 => "d" | 14 => "e" | _ => "f"
  end%Z%string.

Lemma hex_digit_inj m n : (0 ≤ m < 16)%Z → (0 ≤ n < 16)%Z → hex_digit m = hex_digit n → m = n.
Proof.
  intros Hm Hn. assert (Hd : ∀ k, (0 ≤ k < 16)%Z → k ∈ Z.of_nat <$> seq 0 16).
  { intros k Hk. apply list_elem_of_fmap. exists (Z.to_nat k). rewrite elem_of_seq. lia. }
  apply Hd in Hm, Hn. cbn in Hm, Hn. rewrite !elem_of_cons, elem_of_nil in Hm, Hn.
  intuition subst; by cbn.
Qed.

Definition dquote (s : string) : string :=
  let q := String (Ascii.ascii_of_nat 34) EmptyString in (q +:+ s +:+ q)%string.

Definition string_bytes (s : string) : list byte := String.list_byte_of_string s.
Definition string_of_bytes (l : list byte) : string := String.string_of_list_byte l.

Lemma string_of_string_bytes s : string_of_bytes (string_bytes s) = s.
Proof. apply String.string_of_list_byte_of_string. Qed.

Lemma string_bytes_of_bytes l : string_bytes (string_of_bytes l) = l.
Proof. apply String.list_byte_of_string_of_list_byte. Qed.

(** ** Iteration order of hash containers

    [HashMap] and [HashSet] iterate in an unspecified order. A definition that
    depends on it takes the enumeration as an argument, and [enumerates] is what
    the standard library promises of it: every entry once. *)

Class enumerates {K V} `{Countable K} (l : list (K * V)) (m : gmap K V) : Prop :=
  enumerates_perm : l ≡ₚ map_to_list m.

Lemma enumerates_lookup {K V} `{Countable K} (l : list (K * V)) (m : gmap K V) k v :
  enumerates l m → (k, v) ∈ l ↔ m !! k = Some v.
Proof. intros Hl. rewrite Hl. apply elem_of_map_to_list. Qed.

Lemma enumerates_NoDup {K V} `{Countable K} (l : list (K * V)) (m : gmap K V) :
  enumerates l m → NoDup l.*1.
Proof. intros Hl. rewrite Hl. apply NoDup_fst_map_to_list. Qed.

(** The same for a [HashSet], when the order is only a nuisance: one function
    gives the order of every set, and only membership may be used. *)
Class SetOrder : Type := {
  set_iter {A} `{Countable A} : gset A → list A;
  set_iter_elements {A} `{Countable A} (X : gset A) : set_iter X ≡ₚ elements X
}.

#[export] Instance elements_order : SetOrder :=
  {| set_iter A _ _ X := elements X; set_iter_elements A _ _ X := reflexivity _ |}.

Lemma set_iter_elem `{SetOrder} {A} `{Countable A} (X : gset A) x : x ∈ set_iter X ↔ x ∈ X.
Proof. by rewrite set_iter_elements, elem_of_elements. Qed.

(** A boolean about an unknown order of [X] holds if it does for them all. *)
Lemma all_orders `{SetOrder} {A} `{Countable A} (X : gset A) (P : list A → bool) :
  forallb P (permutations (elements X)) = true → P (set_iter X) = true.
Proof.
  rewrite forallb_forall. intros Hall. apply Hall. apply list_elem_of_In, permutations_Permutation.
  symmetry. apply set_iter_elements.
Qed.

(** Abstracts the order [x] of the goal's test and runs it on all of them. *)
Ltac by_order x lem :=
  match goal with
  | |- ?t = true =>
      let f := eval pattern x in t in
      match f with ?P _ => refine (lem P _); vm_compute; reflexivity end
  end.

Lemma filter_none {A} (P : A → Prop) `{∀ x, Decision (P x)} (l : list A) :
  (∀ x, x ∈ l → ¬ P x) → base.filter P l = [].
Proof.
  induction l as [|x l IH]; intros Hn; [done|]. rewrite filter_cons, decide_False by (apply Hn; left).
  apply IH. intros y Hy. apply Hn. by right.
Qed.

(** Pigeonhole: distinct keys of a finite map are at most its size. *)
Lemma NoDup_dom_size {K V} `{Countable K} (l : list K) (m : gmap K V) :
  NoDup l → (∀ k, k ∈ l → is_Some (m !! k)) → length l ≤ size m.
Proof.
  intros Hl Hin. rewrite <-size_dom, <-(size_list_to_set (C:=gset K)) by done.
  apply subseteq_size. intros k Hk. apply elem_of_dom, Hin. by apply elem_of_list_to_set in Hk.
Qed.

(** ** Tactics of the development *)

(** Case analysis on the first [match] of the goal or a hypothesis, with the
    equations kept and used. *)
Ltac split_match :=
  first [ case_match | case_decide ]; simplify_eq/=.

Ltac by_cases := repeat split_match; try done; try lia; eauto.

(** Solve a concrete goal by evaluation. *)
Ltac eval_done := vm_compute; repeat split; try reflexivity; try discriminate.
