(* ===== verification/Types.v ===== *)
(** * Shared vocabulary

    The types every component of the crate exchanges: [src/error.rs],
    [src/config.rs], [src/constants.rs], the id newtypes of [src/types/ids.rs],
    the operations of [src/types/events.rs] and the presence records of
    [src/types/presence.rs].  The values of [src/types/values.rs] and their
    conversions are in [Values.v]. *)

From S2P Require Import Prelude.
From Stdlib Require Import SpecFloat.

(** ** Identifiers ([src/types/ids.rs])

    The fallback newtypes over [u64]; the [grafeo] ones have the same content. *)

Record NodeId : Type := mkNodeId { NodeId_0 : Z }.
Record EdgeId : Type := mkEdgeId { EdgeId_0 : Z }.
Record PeerId : Type := mkPeerId { PeerId_0 : Z }.

#[export] Instance NodeId_eq_dec : EqDecision NodeId.
Proof. solve_decision. Defined.
#[export] Instance NodeId_countable : Countable NodeId.
Proof. apply (inj_countable' NodeId_0 mkNodeId). by intros []. Defined.
#[export] Instance EdgeId_eq_dec : EqDecision EdgeId.
Proof. solve_decision. Defined.
#[export] Instance EdgeId_countable : Countable EdgeId.
Proof. apply (inj_countable' EdgeId_0 mkEdgeId). by intros []. Defined.
#[export] Instance PeerId_eq_dec : EqDecision PeerId.
Proof. solve_decision. Defined.

(** [EpochId] of grafeo, ordered by its [u64]. *)
Notation EpochId := Z (only parsing).

(** [{:?}] of an id. *)
Definition NodeId_debug (n : NodeId) : string := ("NodeId(" +:+ pretty (NodeId_0 n) +:+ ")")%string.

(** ** Configuration ([src/config.rs]) *)

Inductive SsotMode : Type := SsotMode_Loro | SsotMode_Grafeo.
Inductive CompressionType : Type := CompressionType_None | Lz4 | Zstd.

Definition SsotMode_default : SsotMode := SsotMode_Loro.
Definition CompressionType_default : CompressionType := Zstd.

#[export] Instance SsotMode_eq_dec : EqDecision SsotMode.
Proof. solve_decision. Defined.
#[export] Instance CompressionType_eq_dec : EqDecision CompressionType.
Proof. solve_decision. Defined.

(** ** Constants ([src/constants.rs]) *)

Definition ORIGIN_GRAFEO_BRIDGE : string := "grafeo-bridge".
Definition ORIGIN_LORO_BRIDGE : string := "loro-bridge".
Definition ROOT_VERTICES : string := "V".
Definition ROOT_EDGES : string := "E".
Definition TREE_EDGE_LABEL : string := "CHILD".
Definition EPH_MAGIC : list byte := string_bytes "%EPH".
Definition DEFAULT_BATCH_MS : Z := 100.
Definition DEFAULT_BATCH_SIZE : Z := 256.
Definition DEFAULT_CHUNK_SIZE : nat := 256.
Definition DEFAULT_BROTLI_QUALITY : Z := 5.
Definition DEFAULT_EMBEDDING_DIM : nat := 384.
Definition EMBEDDING_PROPERTY : string := "embedding".
Definition EPOCH_RETENTION : Z := 10000.
Definition STORAGE_KEY_BASE_LORO : string := "base.loro".
Definition STORAGE_KEY_DELTA_PREFIX : string := "delta-".

(** ** Errors ([src/error.rs])

    A payload that wraps an error of another crate is that error's rendered
    text, the only thing the crate does with it. *)

Inductive IoErrorKind : Type := NotFound | OtherIo.

#[export] Instance IoErrorKind_eq_dec : EqDecision IoErrorKind.
Proof. solve_decision. Defined.

Record IoError : Type := mkIoError { io_kind : IoErrorKind; io_message : string }.

#[export] Instance IoError_eq_dec : EqDecision IoError.
Proof. solve_decision. Defined.

Inductive GrafeoLoroError : Type :=
| ELoro (e : string)
| EGrafeo (e : string)
| EStorageIo (e : IoError)
| ECompression (msg : string)
| EChannelClosed (msg : string)
| EConfig (msg : string)
| EUnsupportedLoroType (msg : string)
| EBridge (msg : string)
| EHydrate (e : string)
| ETreeMoveCreatesCycle (node_id new_parent : NodeId)
| ENotYetImplemented (msg : string)
| EInvalidEnvelope (msg : string).

#[export] Instance GrafeoLoroError_eq_dec : EqDecision GrafeoLoroError.
Proof. solve_decision. Defined.

Notation Result := (result GrafeoLoroError).

(** [Display], from the [#[error(...)]] attributes. *)
Definition GrafeoLoroError_to_string (e : GrafeoLoroError) : string :=
  match e with
  | ELoro e => "Loro CRDT error: " +:+ e
  | EGrafeo e => "Grafeo DB error: " +:+ e
  | EStorageIo e => "Storage backend I/O error: " +:+ io_message e
  | ECompression m => "Compression codec failure: " +:+ m
  | EChannelClosed m => "Channel closed: " +:+ m
  | EConfig m => "Configuration invalid: " +:+ m
  | EUnsupportedLoroType m => "Unsupported LoroValue type: " +:+ m
  | EBridge m => "Bridge error: " +:+ m
  | EHydrate e => "Hydrate error: " +:+ e
  | ETreeMoveCreatesCycle n p =>
      "Tree move cycle: node " +:+ NodeId_debug n +:+ " cannot be reparented under "
        +:+ NodeId_debug p
  | ENotYetImplemented m => "not yet implemented: " +:+ m
  | EInvalidEnvelope m => "invalid presence envelope: " +:+ m
  end%string.

(** ** Floating point

    [f32] and [f64] are IEEE-754 binary32 and binary64 values, without the
    payload of a NaN. *)

Notation f32 := spec_float (only parsing).
Notation f64 := spec_float (only parsing).

#[export] Instance spec_float_eq_dec : EqDecision spec_float.
Proof. solve_decision. Defined.

(** [f64::from(f32)]: the same number, its mantissa shifted to 53 bits. *)
Definition f64_from_f32 (f : f32) : f64 :=
  match f with
  | S754_finite s m e => binary_normalize 53 1024 (cond_Zopp s (Zpos m)) e s
  | other => other
  end.

(** ** Merge outcome ([src/types/events.rs]) *)

Inductive ConflictResolution : Type := OursWins | TheirsWins | Merged | ManualRequired.

#[export] Instance ConflictResolution_eq_dec : EqDecision ConflictResolution.
Proof. solve_decision. Defined.

Record ConflictDetected : Type := mkConflictDetected {
  cd_node_key : string;
  cd_field : string;
  cd_base : string;
  cd_ours : string;
  cd_theirs : string;
  cd_resolution : ConflictResolution
}.

(** ** Presence ([src/types/presence.rs]) *)

Record PresencePayload : Type := mkPresencePayload {
  pp_peer_id : PeerId;
  pp_active_node : option string;
  pp_cursor_x : f32;
  pp_cursor_y : f32;
  pp_last_active_ts : Z
}.

#[export] Instance PresencePayload_eq_dec : EqDecision PresencePayload.
Proof. solve_decision. Defined.

Record CursorPos : Type := mkCursorPos { cp_offset : Z; cp_line : Z; cp_col : Z }.
Record SelectionRange : Type := mkSelectionRange { sr_start : Z; sr_end : Z }.

Record NodePresence : Type := mkNodePresence {
  np_peer_id : string;
  np_vertex_id : string;
  np_cursor : option CursorPos;
  np_selection : option SelectionRange;
  np_last_seen_ms : Z
}.
