(* ===== verification/Telemetry.v ===== *)
(** * Telemetry ([src/telemetry/])

    The health probe of [health.rs] with its three checks and its clock, the
    instruments of [metrics.rs] and the span names of [traces.rs].  The document
    lock, the dummy query, the meter and the tracer belong to other crates: they
    are parameters. *)

From S2P Require Import Prelude Types.

(** ** The health probe ([health.rs]) *)

(** [SystemTime::now()] as nanoseconds since the epoch, negative before it; the
    cast keeps the low 64 bits. *)
Definition unix_timestamp_ms (now_ns : Z) : Z :=
  if (now_ns <? 0)%Z then 0 else u64_wrap (now_ns / 1000000).

(** [Arc]s of the document and the database, named by what they point to. *)
Record HealthProbe (Doc Db : Type) : Type := mkHealthProbe {
  hp_doc : Doc; hp_db : Db; last_sync_ts : Z
}.
Arguments mkHealthProbe {Doc Db}.
Arguments hp_doc {Doc Db}.
Arguments hp_db {Doc Db}.
Arguments last_sync_ts {Doc Db}.

Record HealthStatus : Type := mkHealthStatus { overall : bool; components : list (string * bool) }.

(** The state of the world a probe looks at: whether the document's lock can be
    read without waiting, and whether the database answers a query. *)
Class Probed (Doc Db W : Type) : Type := {
  try_read : W → Doc → bool;
  execute : W → Db → string → result string unit
}.

Section health.
  Context {Doc Db W : Type} `{Probed Doc Db W}.
  Implicit Types p : HealthProbe Doc Db.

Definition HealthProbe_new (doc : Doc) (db : Db) (now_ns : Z) : HealthProbe Doc Db :=
  mkHealthProbe doc db (unix_timestamp_ms now_ns).

Definition update_sync_ts (now_ns : Z) p : HealthProbe Doc Db :=
  mkHealthProbe (hp_doc p) (hp_db p) (unix_timestamp_ms now_ns).

Definition health_check (w : W) (now_ns max_staleness_ms : Z) p : HealthStatus :=
  let loro_ok := try_read w (hp_doc p) in
  let grafeo_ok := is_ok (execute w (hp_db p) "MATCH (n) RETURN count(n) LIMIT 1") in
  let now := unix_timestamp_ms now_ns in
  let last := last_sync_ts p in
  let sync_ok := (u64_saturating_sub now last <=? max_staleness_ms)%Z in
  mkHealthStatus (loro_ok && grafeo_ok && sync_ok)
    [("loro_doc", loro_ok); ("grafeo_db", grafeo_ok); ("sync_freshness", sync_ok)].

Lemma unix_timestamp_ms_range now_ns : is_u64 (unix_timestamp_ms now_ns).
Proof.
  unfold unix_timestamp_ms. destruct (_ <? _)%Z; [|apply u64_wrap_range]. unfold is_u64, U64_MAX. lia.
Qed.

(** Before the year 584 million the clock is read exactly. *)
Lemma unix_timestamp_ms_exact now_ns :
  (0 ≤ now_ns < 2 ^ 64 * 1000000)%Z → unix_timestamp_ms now_ns = (now_ns / 1000000)%Z.
Proof.
  intros Hn. unfold unix_timestamp_ms. rewrite (proj2 (Z.ltb_ge _ _)) by lia.
  apply u64_wrap_small. unfold is_u64, U64_MAX.
  assert (0 ≤ now_ns / 1000000)%Z by (apply Z.div_pos; lia).
  assert (now_ns / 1000000 < 2 ^ 64)%Z by (apply Z.div_lt_upper_bound; lia). lia.
Qed.

(** Whatever the successful syncs and whatever the clock did in between, a
    check reports the three components in their order and their conjunction; the
    document and the database are those the probe was made with; freshness means
    that the last sync, or the construction when there was none, is at most the
    given number of milliseconds old on the wall clock, inclusively, and a clock
    that went back counts as fresh. *)
Lemma health_check_exact (w : W) (doc : Doc) (db : Db) (born_ns : Z) (syncs : list Z) (now_ns max : Z)
  (Hclock : Forall (λ t, 0 ≤ t < 2 ^ 64 * 1000000)%Z (born_ns :: now_ns :: syncs)) :
  let p := foldl (λ p t, update_sync_ts t p) (HealthProbe_new doc db born_ns) syncs in
  let last_ns := default born_ns (last syncs) in
  let s := health_check w now_ns max p in
  (components s).*1 = ["loro_doc"; "grafeo_db"; "sync_freshness"] ∧
  (overall s = true ↔ Forall (λ c, c.2 = true) (components s)) ∧
  (("loro_doc", true) ∈ components s ↔ try_read w doc = true) ∧
  (("grafeo_db", true) ∈ components s ↔
     execute w db "MATCH (n) RETURN count(n) LIMIT 1" = Ok tt) ∧
  (("sync_freshness", true) ∈ components s ↔
     (0 ≤ max ∧ now_ns / 1000000 - last_ns / 1000000 ≤ max)%Z).
Proof.
  assert (Hp : foldl (λ p t, update_sync_ts t p) (HealthProbe_new doc db born_ns) syncs
    = mkHealthProbe doc db (default born_ns (last syncs) / 1000000)%Z).
  { apply Forall_cons in Hclock as [Hb [_ Hs]%Forall_cons]. induction syncs as [|t syncs IH] using rev_ind.
    - cbn. unfold HealthProbe_new. by rewrite unix_timestamp_ms_exact.
    - rewrite foldl_app, last_snoc. apply Forall_app in Hs as [Hs [Ht _]%Forall_cons]. cbn.
      rewrite (IH Hs). unfold update_sync_ts. cbn. by rewrite unix_timestamp_ms_exact. }
  cbn zeta. rewrite Hp. unfold health_check. cbn [hp_doc hp_db last_sync_ts components overall].
  apply Forall_cons in Hclock as [_ [Hn _]%Forall_cons]. rewrite (unix_timestamp_ms_exact now_ns Hn).
  split; [done|]. split.
  { rewrite !andb_true_iff, !Forall_cons, Forall_nil. cbn. tauto. }
  assert (Hin : ∀ (n : string) (a b c : bool), (n, true) ∈ [("loro_doc", a); ("grafeo_db", b); ("sync_freshness", c)]%string ↔
    n = "loro_doc"%string ∧ a = true ∨ n = "grafeo_db"%string ∧ b = true ∨ n = "sync_freshness"%string ∧ c = true).
  { intros n a b c. rewrite !elem_of_cons, elem_of_nil. split.
    - intros [Heq|[Heq|[Heq|[]]]]; injection Heq as -> <-; auto.
    - intros [[-> ->]|[[-> ->]|[-> ->]]]; auto. }
  rewrite !Hin. split; [|split].
  - split; [intros [[_ ?]|[[? _]|[? _]]]; done|by left].
  - destruct (execute _ _ _) as [[]|e]; cbn; (split; [intros [[? _]|[[_ ?]|[? _]]]; done|]); [auto|done].
  - split; [intros [[? _]|[[? _]|[_ Hle]]]; [done..|]|intros Hle; right; right; split; [done|]];
      unfold u64_saturating_sub in *; [apply Z.leb_le in Hle|apply Z.leb_le]; lia.
Qed.
End health.

(** A free lock and a database that answers; a lock that is held. *)
#[export] Instance bool_probed : Probed bool bool unit := {|
  try_read (_ : unit) (d : bool) := d;
  execute (_ : unit) (d : bool) (_ : string) := if d then Ok tt else Err "storage"%string
|}.

(** A check exactly [max_staleness_ms] after the last sync is still fresh, one
    millisecond later it is not. *)
Lemma health_check_exact_witness :
  let p := update_sync_ts 5000000000 (HealthProbe_new true true 0) in
  health_check tt 6000000000 1000 p =
    mkHealthStatus true [("loro_doc", true); ("grafeo_db", true); ("sync_freshness", true)] ∧
  overall (health_check tt 6001000000 1000 p) = false.
Proof.
  intros p. pose proof (health_check_exact tt true true 0 [5000000000]%Z 6000000000 1000
    ltac:(repeat constructor; lia)) as (_ & Hall & _). cbn zeta in Hall.
  change (foldl _ _ _) with p in Hall.
  assert (Hc : components (health_check tt 6000000000 1000 p) =
    [("loro_doc", true); ("grafeo_db", true); ("sync_freshness", true)]) by (vm_compute; reflexivity).
  split; [|vm_compute; reflexivity]. rewrite Hc in Hall.
  destruct (health_check tt 6000000000 1000 p) as [o c]. cbn in *. subst c. f_equal.
  apply Hall. repeat constructor.
Defined.

(** ** The instruments ([metrics.rs]) *)

Inductive HydrationMode : Type := HydrationMode_Loro | HydrationMode_Grafeo.

Definition HydrationMode_to_string (m : HydrationMode) : string :=
  match m with HydrationMode_Loro => "loro" | HydrationMode_Grafeo => "grafeo" end.

(** [opentelemetry::Value], as far as it is used. *)
Inductive AttrValue : Type := Attr_I64 (n : Z) | Attr_String (s : string).

(** [Meter] and its builders; [W] is where the recordings go. *)
Class Meter (W : Type) : Type := {
  meter : Type;
  counter : Type;
  histogram : Type;
  u64_counter : meter → string → counter;
  f64_histogram : meter → string → histogram;
  histogram_record : histogram → f64 → list (string * AttrValue) → W → W
}.

Section metrics.
  Context `{Meter W}.

Record MetricsRegistry : Type := mkMetrics {
  inbound_events : counter;
  outbound_events : counter;
  echo_filtered : counter;
  batch_flush_duration : histogram;
  hydration_duration : histogram
}.

Definition MetricsRegistry_init (m : meter) : MetricsRegistry :=
  mkMetrics (u64_counter m "inbound_events_total") (u64_counter m "outbound_events_total")
    (u64_counter m "echo_filtered_total") (f64_histogram m "batch_flush_duration_ms")
    (f64_histogram m "hydration_duration_ms").

(** [as i64]. *)
Definition u64_as_i64 (z : Z) : Z := if (z <? 2 ^ 63)%Z then z else z - 2 ^ 64.

Definition record_batch_flush (duration_ms : f64) (batch_size : Z) (r : MetricsRegistry) : W → W :=
  histogram_record (batch_flush_duration r) duration_ms [("batch_size", Attr_I64 (u64_as_i64 batch_size))].

Definition record_hydration (duration_ms : f64) (mode : HydrationMode) (r : MetricsRegistry) : W → W :=
  histogram_record (hydration_duration r) duration_ms [("mode", Attr_String (HydrationMode_to_string mode))].
End metrics.
Arguments MetricsRegistry W {_}.

(** ** Span names ([traces.rs]) *)

Class Tracer (T : Type) : Type := { BoxedSpan : Type; span_start : string → T → BoxedSpan }.

Section traces.
  Context `{Tracer T}.
Definition create_cold_start_span (tracer : T) : BoxedSpan := span_start "cold_start_hydration" tracer.
Definition create_inbound_sync_span (tracer : T) : BoxedSpan := span_start "inbound_sync_loop" tracer.
Definition create_outbound_sync_span (tracer : T) : BoxedSpan := span_start "outbound_sync_loop" tracer.
Definition create_hybrid_query_span (tracer : T) : BoxedSpan := span_start "hybrid_query" tracer.
End traces.
