(* ===== verification/Values.v ===== *)
(** * Property values and graph operations

    [src/types/values.rs] (the three value types and their conversions) and the
    [LoroOp] of [src/types/events.rs].  [LoroValue] and [grafeo::Value] are the
    enums of the two stores, with the variants the conversions match on; a
    Rust [HashMap<String, V>] or [BTreeMap] is a [gmap string V]. *)

From S2P Require Import Prelude Types.
From Stdlib Require Import SpecFloat.

Inductive LoroProperty : Type :=
| LP_Null
| LP_Bool (b : bool)
| LP_Integer (i : Z)
| LP_Float (f : f64)
| LP_String (s : string).

#[export] Instance LoroProperty_eq_dec : EqDecision LoroProperty.
Proof. solve_decision. Defined.

Inductive GraphValue : Type :=
| GraphValue_Null
| GraphValue_Bool (b : bool)
| GraphValue_Integer (i : Z)
| GraphValue_Float (f : f64)
| GraphValue_String (s : string)
| GraphValue_Vector (v : list f32)
| GraphValue_Map (m : gmap string GraphValue)
| GraphValue_List (l : list GraphValue).

(** [loro::ContainerID], as far as the crate looks at it. *)
Inductive ContainerID : Type :=
| CID_Root (name : string)
| CID_Normal (id : string).

(** [loro::LoroValue]. *)
Inductive LoroValue : Type :=
| LV_Null
| LV_Bool (b : bool)
| LV_I64 (i : Z)
| LV_Double (f : f64)
| LV_String (s : string)
| LV_List (l : list LoroValue)
| LV_Map (m : gmap string LoroValue)
| LV_Binary (b : list byte)
| LV_Container (c : ContainerID).

(** [grafeo::Value]; [GV_Exotic] stands for the variants the outbound
    conversion only catches with a wildcard. *)
Inductive GrafeoValue : Type :=
| GV_Null
| GV_Bool (b : bool)
| GV_Int64 (i : Z)
| GV_Float64 (f : f64)
| GV_String (s : string)
| GV_Vector (v : list f32)
| GV_List (l : list GrafeoValue)
| GV_Map (m : gmap string GrafeoValue)
| GV_Exotic (ty : string).

(** ** Conversions *)

(** [impl From<LoroProperty> for GraphValue]. *)
Definition GraphValue_from_LoroProperty (p : LoroProperty) : GraphValue :=
  match p with
  | LP_Null => GraphValue_Null
  | LP_Bool b => GraphValue_Bool b
  | LP_Integer i => GraphValue_Integer i
  | LP_Float f => GraphValue_Float f
  | LP_String s => GraphValue_String s
  end.

(** [{v:?}] of a graph-only value: the variant's name. *)
Definition GraphValue_debug (v : GraphValue) : string :=
  match v with
  | GraphValue_Vector _ => "Vector"
  | GraphValue_Map _ => "Map"
  | GraphValue_List _ => "List"
  | _ => "scalar"
  end.

(** [impl TryFrom<GraphValue> for LoroProperty]. *)
Definition LoroProperty_try_from (v : GraphValue) : Result LoroProperty :=
  match v with
  | GraphValue_Null => Ok LP_Null
  | GraphValue_Bool b => Ok (LP_Bool b)
  | GraphValue_Integer i => Ok (LP_Integer i)
  | GraphValue_Float f => Ok (LP_Float f)
  | GraphValue_String s => Ok (LP_String s)
  | GraphValue_Vector _ | GraphValue_Map _ | GraphValue_List _ =>
      Err (EUnsupportedLoroType
        (GraphValue_debug v +:+
         " has no LoroProperty representation (Vector/Map/List are graph-only)"))
  end%string.

(** [lorosurgeon]'s [Reconciler]: the scalar writers [reconcile] calls. *)
Class Reconciler (R : Type) : Type := {
  r_null : R;
  r_boolean : bool → R;
  r_i64 : Z → R;
  r_f64 : f64 → R;
  r_str : string → R
}.

(** [impl Reconcile for LoroProperty]. *)
Definition LoroProperty_reconcile {R} `{Reconciler R} (p : LoroProperty) : R :=
  match p with
  | LP_Null => r_null
  | LP_Bool b => r_boolean b
  | LP_Integer i => r_i64 i
  | LP_Float f => r_f64 f
  | LP_String s => r_str s
  end.

(** [impl Hydrate for LoroProperty]: the scalar readers. *)
Definition LoroProperty_hydrate_null : result string LoroProperty := Ok LP_Null.
Definition LoroProperty_hydrate_bool (b : bool) : result string LoroProperty := Ok (LP_Bool b).
Definition LoroProperty_hydrate_i64 (i : Z) : result string LoroProperty := Ok (LP_Integer i).
Definition LoroProperty_hydrate_f64 (f : f64) : result string LoroProperty := Ok (LP_Float f).
Definition LoroProperty_hydrate_string (s : string) : result string LoroProperty := Ok (LP_String s).

(** [collect] of an iterator of [Result]s: the first error in order. *)
Fixpoint collect_result {E A} (l : list (result E A)) : result E (list A) :=
  match l with
  | [] => Ok []
  | Err e :: _ => Err e
  | Ok a :: l => match collect_result l with Ok l' => Ok (a :: l') | Err e => Err e end
  end.

(** A loop over the entries of a map that converts each value with [?] and
    inserts it into a fresh map. *)
Definition collect_map {E A} (m : gmap string (result E A)) : result E (gmap string A) :=
  map_fold (λ k r acc,
    match acc with
    | Ok out => match r with Ok a => Ok (<[k:=a]> out) | Err e => Err e end
    | Err e => Err e
    end) (Ok ∅) m.

(** [lval_to_gval]. *)
Fixpoint lval_to_gval (val : LoroValue) : Result GraphValue :=
  match val with
  | LV_Null => Ok GraphValue_Null
  | LV_Bool b => Ok (GraphValue_Bool b)
  | LV_I64 i => Ok (GraphValue_Integer i)
  | LV_Double f => Ok (GraphValue_Float f)
  | LV_String s => Ok (GraphValue_String s)
  | LV_List items =>
      match collect_result (lval_to_gval <$> items) with
      | Ok v => Ok (GraphValue_List v)
      | Err e => Err e
      end
  | LV_Map m =>
      match collect_map (lval_to_gval <$> m) with
      | Ok out => Ok (GraphValue_Map out)
      | Err e => Err e
      end
  | LV_Binary _ => Err (EUnsupportedLoroType "Binary")
  | LV_Container _ => Err (EUnsupportedLoroType "Container")
  end.

(** [gval_to_grafeo_value]. *)
Fixpoint gval_to_grafeo_value (val : GraphValue) : GrafeoValue :=
  match val with
  | GraphValue_Null => GV_Null
  | GraphValue_Bool b => GV_Bool b
  | GraphValue_Integer i => GV_Int64 i
  | GraphValue_Float f => GV_Float64 f
  | GraphValue_String s => GV_String s
  | GraphValue_Vector v => GV_Vector v
  | GraphValue_List items => GV_List (gval_to_grafeo_value <$> items)
  | GraphValue_Map m => GV_Map (gval_to_grafeo_value <$> m)
  end.

(** [grafeo_value_to_lval]. *)
Fixpoint grafeo_value_to_lval (val : GrafeoValue) : LoroValue :=
  match val with
  | GV_Null => LV_Null
  | GV_Bool b => LV_Bool b
  | GV_Int64 i => LV_I64 i
  | GV_Float64 f => LV_Double f
  | GV_String s => LV_String s
  | GV_List items => LV_List (grafeo_value_to_lval <$> items)
  | GV_Map m => LV_Map (grafeo_value_to_lval <$> m)
  | GV_Vector v => LV_List ((λ f, LV_Double (f64_from_f32 f)) <$> v)
  | GV_Exotic _ => LV_Null
  end.

(** ** Graph operations ([src/types/events.rs]) *)

Inductive LoroOp : Type :=
| UpsertNode (loro_key : string) (labels : list string) (properties : gmap string GraphValue)
| UpsertEdge (src_key dst_key label : string) (properties : gmap string GraphValue)
| DeleteNode (loro_key : string)
| DeleteEdge (src_key dst_key label : string)
| TreeMove (node_key old_parent_key new_parent_key : string).

(** ** Nested induction

    The two recursive value types nest lists and maps; the principles below
    give the induction hypothesis for every element and every entry. *)

Definition map_sum (m : gmap string nat) : nat := map_fold (λ _ n acc, n + acc) 0 m.

Lemma map_sum_elem (m : gmap string nat) k n : m !! k = Some n → n ≤ map_sum m.
Proof.
  intros Hk. unfold map_sum. rewrite <-(insert_delete_id m k n Hk).
  rewrite map_fold_insert_L; [lia| |apply lookup_delete_eq].
  intros; lia.
Qed.

Fixpoint lv_size (v : LoroValue) : nat :=
  match v with
  | LV_List l => S (sum_list_with id (lv_size <$> l))
  | LV_Map m => S (map_sum (lv_size <$> m))
  | _ => 1
  end.

Lemma sum_list_elem (l : list nat) n : n ∈ l → n ≤ sum_list_with id l.
Proof. induction 1; cbn; unfold id in *; lia. Qed.

Lemma LoroValue_nested_ind (P : LoroValue → Prop) :
  P LV_Null → (∀ b, P (LV_Bool b)) → (∀ i, P (LV_I64 i)) → (∀ f, P (LV_Double f)) →
  (∀ s, P (LV_String s)) →
  (∀ l, Forall P l → P (LV_List l)) →
  (∀ m, map_Forall (λ _, P) m → P (LV_Map m)) →
  (∀ b, P (LV_Binary b)) → (∀ c, P (LV_Container c)) → ∀ v, P v.
Proof.
  intros ????? Hl Hm ?? v.
  induction v as [v IH] using (induction_ltof1 _ lv_size); unfold ltof in IH.
  destruct v; eauto.
  - apply Hl, Forall_forall. intros x Hx. apply IH. cbn.
    pose proof (sum_list_elem (lv_size <$> l) (lv_size x)
      ltac:(apply list_elem_of_fmap_2; done)). lia.
  - apply Hm. intros k x Hx. apply IH. cbn.
    pose proof (map_sum_elem (lv_size <$> m) k (lv_size x)
      ltac:(rewrite lookup_fmap, Hx; done)). lia.
Qed.

(** ** Laws of the collecting loops *)

Lemma collect_result_Ok {E A} (l : list (result E A)) out :
  collect_result l = Ok out ↔ l = Ok <$> out.
Proof.
  revert out; induction l as [|[a|e] l IH]; intros out; cbn.
  - destruct out; naive_solver.
  - destruct (collect_result l) as [l'|e] eqn:Hl.
    + destruct (IH l') as [H1 _]. specialize (H1 eq_refl) as ->.
      split; [by intros [= <-]|]. destruct out; [done|]. cbn. intros [= -> H].
      apply (inj (fmap Ok)) in H. by subst.
    + split; [done|]. destruct out as [|b out]; [done|]. cbn. intros [= -> H].
      apply IH in H. done.
  - destruct out; naive_solver.
Qed.

Lemma collect_map_Ok {E A} (m : gmap string (result E A)) out :
  collect_map m = Ok out ↔ m = Ok <$> out.
Proof.
  unfold collect_map. revert out.
  induction m as [|k r m Hk Hfresh IH] using map_first_key_ind; intros out.
  - cbn. rewrite map_fold_empty. split.
    + intros [= <-]. by rewrite fmap_empty.
    + intros H. symmetry in H. apply fmap_empty_inv in H. by subst.
  - rewrite map_fold_insert_first_key by done.
    destruct (map_fold _ (Ok ∅) m) as [out'|e] eqn:Hm.
    + destruct (IH out') as [H1 _]. specialize (H1 eq_refl).
      destruct r as [a|e]; split.
      * intros [= <-]. by rewrite fmap_insert, <-H1.
      * intros H. f_equal. apply map_eq; intros i.
        assert (Hi := f_equal (lookup i) H). rewrite H1 in Hi.
        destruct (decide (k = i)) as [->|Hne].
        { rewrite lookup_insert_eq, lookup_fmap in Hi. rewrite lookup_insert_eq.
          destruct (out !! i); by simplify_eq/=. }
        rewrite lookup_insert_ne, !lookup_fmap in Hi by done.
        rewrite lookup_insert_ne by done.
        destruct (out' !! i), (out !! i); by simplify_eq/=.
      * done.
      * intros H. assert (Hi := f_equal (lookup k) H).
        rewrite lookup_insert_eq, lookup_fmap in Hi.
        destruct (out !! k); by simplify_eq/=.
    + split; [done|]. intros H.
      destruct (IH (delete k out)) as [_ H2]. ospecialize (H2 _); [|done].
      rewrite fmap_delete, <-H, delete_insert_id; done.
Qed.

(** ** Correctness of the conversions *)

(** The values both stores can represent: no [Binary] or [Container] at any
    depth. *)
Inductive json_shaped : LoroValue → Prop :=
| json_null : json_shaped LV_Null
| json_bool b : json_shaped (LV_Bool b)
| json_i64 i : json_shaped (LV_I64 i)
| json_double f : json_shaped (LV_Double f)
| json_string s : json_shaped (LV_String s)
| json_list l : Forall json_shaped l → json_shaped (LV_List l)
| json_map m : map_Forall (λ _, json_shaped) m → json_shaped (LV_Map m).
#[export] Hint Constructors json_shaped : core.

Lemma collect_result_is_ok {E A B} (f : A → result E B) (l : list A) :
  (∃ out, collect_result (f <$> l) = Ok out) ↔ Forall (λ x, ∃ b, f x = Ok b) l.
Proof.
  induction l as [|x l IH]; cbn; [naive_solver|]. rewrite Forall_cons, <-IH.
  destruct (f x), (collect_result (f <$> l)); naive_solver.
Qed.

Lemma collect_map_is_ok {E A B} (f : A → result E B) (m : gmap string A) :
  (∃ out, collect_map (f <$> m) = Ok out) ↔ map_Forall (λ _ x, ∃ b, f x = Ok b) m.
Proof.
  split.
  - intros [out Hout%collect_map_Ok] k x Hx.
    assert (Hk := f_equal (lookup k) Hout). rewrite !lookup_fmap, Hx in Hk.
    destruct (out !! k) as [b|]; simplify_eq/=; eauto.
  - intros H.
    exists (omap (λ x, match f x with Ok b => Some b | Err _ => None end) m).
    apply collect_map_Ok, map_eq; intros k. rewrite !lookup_fmap, lookup_omap.
    destruct (m !! k) as [x|] eqn:Hx; [|done]. cbn.
    destruct (H k x Hx) as [b ->]. done.
Qed.

(** [lval_to_gval] succeeds exactly on the values without [Binary] or
    [Container] at any depth; every other value is rejected. *)
Lemma lval_to_gval_total_on_json (v : LoroValue) :
  is_ok (lval_to_gval v) = true ↔ json_shaped v.
Proof.
  assert (Hok : ∀ r : Result GraphValue, is_ok r = true ↔ ∃ g, r = Ok g).
  { intros [g|e]; naive_solver. }
  rewrite Hok. induction v as [| | | | |l IH|m IH| |] using LoroValue_nested_ind; cbn;
    try (split; [intros; by constructor|eauto]).
  - transitivity (∃ out, collect_result (lval_to_gval <$> l) = Ok out).
    { destruct (collect_result _); naive_solver. }
    rewrite collect_result_is_ok. split.
    + intros H. constructor. apply Forall_forall. intros x Hx.
      rewrite Forall_forall in IH, H. by apply IH, H.
    + inversion 1 as [| | | | |? H'|]; subst. apply Forall_forall. intros x Hx.
      rewrite Forall_forall in IH, H'. by apply IH, H'.
  - transitivity (∃ out, collect_map (lval_to_gval <$> m) = Ok out).
    { destruct (collect_map _); naive_solver. }
    rewrite collect_map_is_ok. split.
    + intros H. constructor. intros k x Hx. by eapply IH, H.
    + inversion 1 as [| | | | | |? H']; subst. intros k x Hx. eapply IH, H'; eauto.
  - split; [intros [? [=]]|inversion 1].
  - split; [intros [? [=]]|inversion 1].
Qed.

Lemma value_roundtrip_aux (v : LoroValue) (g : GraphValue) :
  lval_to_gval v = Ok g → grafeo_value_to_lval (gval_to_grafeo_value g) = v.
Proof.
  revert g; induction v as [| | | | |l IH|m IH| |] using LoroValue_nested_ind;
    intros g; cbn; try (intros [= <-]; done).
  - destruct (collect_result _) as [out|] eqn:Hout; [|done]. intros [= <-]. cbn.
    f_equal. apply collect_result_Ok in Hout.
    revert out Hout. induction IH as [|x l Hx _ IHl]; intros [|g out]; try done.
    cbn. intros [= H1 H2]. rewrite (Hx _ H1). f_equal. by apply IHl.
  - destruct (collect_map _) as [out|] eqn:Hout; [|done]. intros [= <-]. cbn.
    f_equal. apply collect_map_Ok in Hout. apply map_eq; intros k.
    assert (Hk := f_equal (lookup k) Hout). rewrite !lookup_fmap in *.
    destruct (m !! k) as [x|] eqn:Hx, (out !! k) as [g|]; simplify_eq/=; [|done].
    f_equal. by eapply IH.
Qed.

(** A value that enters through the inbound path ([lval_to_gval], then
    [gval_to_grafeo_value]) leaves through the outbound path
    ([grafeo_value_to_lval]) as the value it was. *)
Lemma value_roundtrip (v : LoroValue) (g : GraphValue) (H : lval_to_gval v = Ok g) :
  grafeo_value_to_lval (gval_to_grafeo_value g) = v.
Proof. by apply value_roundtrip_aux. Qed.

Lemma value_roundtrip_witness :
  let v := LV_Map {["a" := LV_List [LV_I64 1; LV_Null]; "b" := LV_String "x"]} in
  ∃ g, lval_to_gval v = Ok g ∧ grafeo_value_to_lval (gval_to_grafeo_value g) = v.
Proof. eexists; split; [vm_compute; reflexivity|apply value_roundtrip; vm_compute; reflexivity]. Defined.

(** [TryFrom<GraphValue> for LoroProperty] is a left inverse of
    [From<LoroProperty> for GraphValue], and whatever it accepts is the image
    of the property it returns: the strict conversion loses nothing. *)
Lemma LoroProperty_conversion_iso (p : LoroProperty) (v : GraphValue) :
  LoroProperty_try_from (GraphValue_from_LoroProperty p) = Ok p ∧
  (LoroProperty_try_from v = Ok p ↔ v = GraphValue_from_LoroProperty p).
Proof. by split; [destruct p|destruct p, v; split; intros; simplify_eq/=]. Qed.
