(* ===== verification/Ids.v ===== *)
(** * Interning table of string keys ([src/types/ids.rs]) *)

From S2P Require Import Prelude.

Record NodeIdTable : Type := mkNodeIdTable {
  str_to_id : gmap string Z;
  id_to_str : gmap Z string;
  next_id : Z
}.

Definition NodeIdTable_new : NodeIdTable := mkNodeIdTable ∅ ∅ 0.

Definition NodeIdTable_intern (t : NodeIdTable) (key : string) : Z * NodeIdTable :=
  match str_to_id t !! key with
  | Some id => (id, t)
  | None =>
      let id := next_id t in
      (id, {| str_to_id := <[key:=id]> (str_to_id t);
              id_to_str := <[id:=key]> (id_to_str t);
              next_id := u64_add (next_id t) 1 |})
  end.

Definition NodeIdTable_lookup (t : NodeIdTable) (id : Z) : option string := id_to_str t !! id.
Definition NodeIdTable_lookup_by_str (t : NodeIdTable) (key : string) : option Z :=
  str_to_id t !! key.
Definition NodeIdTable_len (t : NodeIdTable) : nat := size (str_to_id t).
Definition NodeIdTable_is_empty (t : NodeIdTable) : bool := bool_decide (str_to_id t = ∅).
Definition NodeIdTable_next_id (t : NodeIdTable) : Z := next_id t.

(** Interning a sequence of keys, as a caller does. *)
Fixpoint intern_all (t : NodeIdTable) (keys : list string) : list Z * NodeIdTable :=
  match keys with
  | [] => ([], t)
  | k :: keys =>
      let '(id, t1) := NodeIdTable_intern t k in
      let '(ids, t2) := intern_all t1 keys in (id :: ids, t2)
  end.

(** ** Well-formedness

    The two maps are inverse bijections onto [0, next_id), and fewer than
    [2^64] keys have been interned. *)
Record NodeIdTable_wf (t : NodeIdTable) : Prop := {
  wf_inv k i : str_to_id t !! k = Some i ↔ id_to_str t !! i = Some k;
  wf_dense i : is_Some (id_to_str t !! i) ↔ (0 ≤ i < next_id t)%Z;
  wf_len : Z.of_nat (NodeIdTable_len t) = next_id t;
  wf_bound : (next_id t < 2 ^ 64)%Z
}.

Lemma NodeIdTable_new_wf : NodeIdTable_wf NodeIdTable_new.
Proof.
  split; cbn; [by intros; rewrite !lookup_empty| |done|lia].
  intros i. rewrite lookup_empty. split; [by intros []|lia].
Qed.

Lemma intern_wf t k :
  NodeIdTable_wf t → (next_id t + 1 < 2 ^ 64)%Z → NodeIdTable_wf (snd (NodeIdTable_intern t k)).
Proof.
  intros [Hinv Hdense Hlen Hb] Hroom. unfold NodeIdTable_intern.
  destruct (str_to_id t !! k) as [i|] eqn:Hk; [done|].
  assert (Hfresh : id_to_str t !! next_id t = None).
  { apply eq_None_not_Some. rewrite Hdense. lia. }
  assert (0 ≤ next_id t)%Z by lia.
  cbn. rewrite u64_add_small by (unfold is_u64, U64_MAX; lia).
  split; cbn; [| | |lia].
  - intros k' i. rewrite !lookup_insert. specialize (Hinv k' i).
    repeat case_decide; simplify_eq; [done| | |done]; rewrite ?Hinv; naive_solver.
  - intros i. rewrite lookup_insert. case_decide; subst.
    + split; [lia|eauto].
    + rewrite Hdense. lia.
  - unfold NodeIdTable_len in *; cbn. rewrite map_size_insert_None by done. lia.
Qed.

Lemma intern_extends t k :
  str_to_id t ⊆ str_to_id (snd (NodeIdTable_intern t k)).
Proof.
  unfold NodeIdTable_intern. destruct (str_to_id t !! k) eqn:Hk; [done|].
  cbn. by apply insert_subseteq.
Qed.

Lemma intern_all_wf t keys :
  NodeIdTable_wf t → (next_id t + Z.of_nat (length keys) < 2 ^ 64)%Z →
  NodeIdTable_wf (snd (intern_all t keys)).
Proof.
  revert t; induction keys as [|k keys IH]; intros t Hwf Hroom; [done|]. cbn in *.
  destruct (NodeIdTable_intern t k) as [i t1] eqn:Hi.
  assert (t1 = snd (NodeIdTable_intern t k)) as -> by by rewrite Hi.
  specialize (IH (snd (NodeIdTable_intern t k))).
  destruct (intern_all _ keys). cbn in *. apply IH.
  - apply intern_wf; [done|lia].
  - assert (next_id (snd (NodeIdTable_intern t k)) ≤ next_id t + 1)%Z; [|lia].
    unfold NodeIdTable_intern. destruct (str_to_id t !! k); cbn; [lia|].
    pose proof (wf_len _ Hwf). rewrite u64_add_small; [lia|].
    unfold is_u64, U64_MAX. lia.
Qed.

Lemma intern_all_extends t keys : str_to_id t ⊆ str_to_id (snd (intern_all t keys)).
Proof.
  revert t; induction keys as [|k keys IH]; intros t; cbn; [done|].
  pose proof (intern_extends t k) as H1. destruct (NodeIdTable_intern t k) as [i t1].
  specialize (IH t1). destruct (intern_all t1 keys). cbn in *. by etrans.
Qed.

Lemma intern_all_spec t keys n k i :
  keys !! n = Some k → (intern_all t keys).1 !! n = Some i →
  str_to_id (intern_all t keys).2 !! k = Some i.
Proof.
  revert t n; induction keys as [|k' keys IH]; intros t n; [done|]. cbn.
  destruct (NodeIdTable_intern t k') as [i' t1] eqn:Hi.
  pose proof (intern_all_extends t1 keys) as Hext.
  specialize (IH t1). destruct (intern_all t1 keys) as [ids t2]. cbn in *.
  destruct n as [|n]; cbn.
  - intros [= ->] [= ->]. eapply lookup_weaken; [|done].
    unfold NodeIdTable_intern in Hi. destruct (str_to_id t !! k) eqn:Hk; simplify_eq/=; [done|].
    apply lookup_insert_eq.
  - apply IH.
Qed.

(** Two keys of any sequence interned into a fresh table of fewer than
    [2^64] keys get the same id exactly when they are the same key, ids are
    found back from both directions, and [next_id] stays the number of keys. *)
Lemma NodeIdTable_bijective (keys : list string) (n m : nat) (k1 k2 : string) (i1 i2 : Z)
  (Hlen : (Z.of_nat (length keys) < 2 ^ 64)%Z)
  (H1 : keys !! n = Some k1) (H2 : keys !! m = Some k2)
  (Hi1 : (intern_all NodeIdTable_new keys).1 !! n = Some i1)
  (Hi2 : (intern_all NodeIdTable_new keys).1 !! m = Some i2) :
  let t := (intern_all NodeIdTable_new keys).2 in
  (i1 = i2 ↔ k1 = k2) ∧
  NodeIdTable_lookup t i1 = Some k1 ∧ NodeIdTable_lookup_by_str t k1 = Some i1 ∧
  Z.of_nat (NodeIdTable_len t) = NodeIdTable_next_id t.
Proof.
  intros t.
  assert (Hwf : NodeIdTable_wf t).
  { apply intern_all_wf; [apply NodeIdTable_new_wf|cbn; lia]. }
  pose proof (intern_all_spec _ _ _ _ _ H1 Hi1) as Hs1.
  pose proof (intern_all_spec _ _ _ _ _ H2 Hi2) as Hs2. fold t in Hs1, Hs2.
  assert (Ht1 := proj1 (wf_inv _ Hwf _ _) Hs1). assert (Ht2 := proj1 (wf_inv _ Hwf _ _) Hs2).
  repeat split; [|by intros ->; congruence|done|done|by apply wf_len].
  intros ->. congruence.
Qed.

Lemma NodeIdTable_bijective_witness :
  let keys := ["a"; "b"; "a"] in
  ((0%Z = 0%Z ↔ "a" = "a") ∧
   NodeIdTable_lookup (intern_all NodeIdTable_new keys).2 0 = Some "a" ∧
   NodeIdTable_lookup_by_str (intern_all NodeIdTable_new keys).2 "a" = Some 0%Z ∧
   Z.of_nat (NodeIdTable_len (intern_all NodeIdTable_new keys).2)
     = NodeIdTable_next_id (intern_all NodeIdTable_new keys).2)%string.
Proof. apply (NodeIdTable_bijective ["a"; "b"; "a"]%string 0 2); vm_compute; reflexivity. Defined.
