(* ===== verification/Origin.v ===== *)
(** * Commit origins ([src/bridge/origin.rs])

    The two bridge tags the echo filter recognises, the origin strings composed
    for callers across the FFI, and the thread-local stash of the next commit's
    origin (its state is the cell's content, one cell per thread). *)

From S2P Require Import Prelude Types.

Inductive OriginKind : Type := Structural | Typing | Other.

(** [OriginKind as u8]. *)
Definition OriginKind_discriminant (k : OriginKind) : Z :=
  match k with Structural => 0 | Typing => 1 | Other => 2 end.

Definition compose_origin (k : OriginKind) (node_id : option string) : string :=
  match k, node_id with
  | Structural, None => "structural"
  | Structural, Some id => "structural:" +:+ id
  | Typing, None => "typing"
  | Typing, Some id => "typing:" +:+ id
  | Other, None => "other"
  | Other, Some id => "other:" +:+ id
  end%string.

(** [NEXT_COMMIT_ORIGIN]. *)
Notation OriginCell := (option string) (only parsing).

Definition set_next_commit_origin (k : OriginKind) (node_id : option string)
    (cell : OriginCell) : OriginCell := Some (compose_origin k node_id).

Definition take_next_commit_origin (cell : OriginCell) : option string * OriginCell :=
  (cell, None).

Definition peek_next_commit_origin (cell : OriginCell) : option string := cell.

Definition is_grafeo_bridge_origin (origin : string) : bool :=
  bool_decide (origin = ORIGIN_GRAFEO_BRIDGE).

Definition is_loro_bridge_origin (origin : option string) : bool :=
  bool_decide (origin = Some ORIGIN_LORO_BRIDGE).

(** An origin a caller stashes is taken once, unchanged, and is never one
    of the two tags the echo filter drops, whatever the node id: commits
    labelled through the FFI are never mistaken for bridge echoes. *)
Lemma caller_origin_not_filtered (k : OriginKind) (node_id : option string) (cell : OriginCell) :
  let '(taken, cell1) := take_next_commit_origin (set_next_commit_origin k node_id cell) in
  taken = Some (compose_origin k node_id) ∧
  (take_next_commit_origin cell1).1 = None ∧
  is_grafeo_bridge_origin (compose_origin k node_id) = false ∧
  is_loro_bridge_origin taken = false.
Proof.
  cbn. unfold is_grafeo_bridge_origin, is_loro_bridge_origin.
  split; [done|]. split; [done|].
  rewrite !bool_decide_eq_false. unfold ORIGIN_GRAFEO_BRIDGE, ORIGIN_LORO_BRIDGE.
  split; destruct k, node_id; cbn; discriminate.
Qed.
