(* ===== verification/Queue.v ===== *)
(** * Offline op-queue and lineage epoch ([src/bridge/queue.rs])

    The queue of serialized operations with its byte cap and retry counter, the
    lineage-epoch counter, and the part of [SyncEngine] that delegates to both
    ([src/bridge/sync_engine.rs], sub-issue 5).  [Arc] clones of the epoch
    share one atomic cell, whose content is the state. *)

From S2P Require Import Prelude Types.

Record OfflineOpQueue : Type := mkQueue {
  ops : list (list byte);
  total_bytes : Z;
  cap_bytes : Z;
  retry_count : Z
}.

Definition OfflineOpQueue_DEFAULT_CAP : Z := 10 * 1024 * 1024.

Definition OfflineOpQueue_with_cap (cap : Z) : OfflineOpQueue := mkQueue [] 0 cap 0.
Definition OfflineOpQueue_new : OfflineOpQueue := mkQueue [] 0 OfflineOpQueue_DEFAULT_CAP 0.

Definition blen (l : list byte) : Z := Z.of_nat (length l).

(** [usize] has the width of the target: 64 bits natively, 32 in the browser. *)
Definition OfflineOpQueue_enqueue_at (usize_max : Z) (q : OfflineOpQueue) (op_bytes : list byte) :
    Result unit * OfflineOpQueue :=
  match checked_add usize_max (total_bytes q) (blen op_bytes) with
  | None =>
      (Err (EBridge ("offline queue overflow: byte count overflow (current="
         +:+ pretty (total_bytes q) +:+ ", adding=" +:+ pretty (blen op_bytes) +:+ ")")), q)
  | Some new_total =>
      if (cap_bytes q <? new_total)%Z then
        (Err (EBridge ("offline queue overflow: cap=" +:+ pretty (cap_bytes q)
           +:+ " bytes, current=" +:+ pretty (total_bytes q)
           +:+ ", adding=" +:+ pretty (blen op_bytes) +:+ " bytes")), q)
      else
        (Ok tt, {| ops := ops q ++ [op_bytes]; total_bytes := new_total;
                   cap_bytes := cap_bytes q; retry_count := retry_count q |})
  end%string.

Definition OfflineOpQueue_enqueue : OfflineOpQueue → list byte → Result unit * OfflineOpQueue :=
  OfflineOpQueue_enqueue_at USIZE_MAX.

Definition OfflineOpQueue_drain (q : OfflineOpQueue) : list (list byte) * OfflineOpQueue :=
  (ops q, {| ops := []; total_bytes := 0; cap_bytes := cap_bytes q; retry_count := retry_count q |}).

Definition OfflineOpQueue_depth (q : OfflineOpQueue) : nat := length (ops q).
Definition OfflineOpQueue_bytes_used (q : OfflineOpQueue) : Z := total_bytes q.
Definition OfflineOpQueue_cap_bytes (q : OfflineOpQueue) : Z := cap_bytes q.

Definition OfflineOpQueue_retry_bump (q : OfflineOpQueue) : Z * OfflineOpQueue :=
  let r := u32_saturating_add (retry_count q) 1 in
  (r, {| ops := ops q; total_bytes := total_bytes q; cap_bytes := cap_bytes q; retry_count := r |}).

Definition OfflineOpQueue_reset_retry (q : OfflineOpQueue) : OfflineOpQueue :=
  {| ops := ops q; total_bytes := total_bytes q; cap_bytes := cap_bytes q; retry_count := 0 |}.

Definition OfflineOpQueue_retry_count (q : OfflineOpQueue) : Z := retry_count q.
Definition OfflineOpQueue_is_empty (q : OfflineOpQueue) : bool :=
  match ops q with [] => true | _ => false end.

(** ** Lineage epoch *)

Record EpochMismatchError : Type := mkEpochMismatchError { em_local : Z; em_remote : Z }.

Definition EpochMismatchError_to_string (e : EpochMismatchError) : string :=
  ("lineage epoch mismatch: local=" +:+ pretty (em_local e) +:+ " remote="
   +:+ pretty (em_remote e) +:+ "; client cache wipe required")%string.

(** The content of the shared [AtomicU64]. *)
Notation EpochTracker := Z (only parsing).

Definition EpochTracker_new : EpochTracker := 0%Z.
Definition EpochTracker_current (t : EpochTracker) : Z := t.

Definition EpochTracker_check_match (t : EpochTracker) (remote_epoch : Z) :
    result EpochMismatchError unit :=
  if (t =? remote_epoch)%Z then Ok tt else Err (mkEpochMismatchError t remote_epoch).

(** [fetch_add(1)] stores the sum and returns the old value. *)
Definition EpochTracker_bump (t : EpochTracker) : Z * EpochTracker :=
  (u64_add t 1, u64_add t 1).

Definition EpochTracker_wipe (t : EpochTracker) : Z * EpochTracker := EpochTracker_bump t.

(** ** The engine's lineage state *)

Record Lineage : Type := mkLineage { epoch_tracker : EpochTracker; offline_queue : OfflineOpQueue }.

Definition Lineage_new : Lineage := mkLineage EpochTracker_new OfflineOpQueue_new.

Definition lineage_epoch (l : Lineage) : Z := EpochTracker_current (epoch_tracker l).

Definition check_epoch_match (l : Lineage) (remote : Z) : result EpochMismatchError unit :=
  EpochTracker_check_match (epoch_tracker l) remote.

Definition wipe_cache (l : Lineage) : Z * Lineage :=
  let '(new_epoch, t) := EpochTracker_wipe (epoch_tracker l) in
  let '(_, q) := OfflineOpQueue_drain (offline_queue l) in
  (new_epoch, mkLineage t (OfflineOpQueue_reset_retry q)).

Definition enqueue_offline_op (l : Lineage) (op_bytes : list byte) : Result unit * Lineage :=
  let '(r, q) := OfflineOpQueue_enqueue (offline_queue l) op_bytes in
  (r, mkLineage (epoch_tracker l) q).

Definition drain_offline_queue (l : Lineage) : list (list byte) * Lineage :=
  let '(d, q) := OfflineOpQueue_drain (offline_queue l) in (d, mkLineage (epoch_tracker l) q).

Definition offline_queue_depth (l : Lineage) : nat := OfflineOpQueue_depth (offline_queue l).
Definition offline_queue_bytes (l : Lineage) : Z := OfflineOpQueue_bytes_used (offline_queue l).
Definition offline_queue_cap (l : Lineage) : Z := OfflineOpQueue_cap_bytes (offline_queue l).

Definition offline_retry_bump (l : Lineage) : Z * Lineage :=
  let '(r, q) := OfflineOpQueue_retry_bump (offline_queue l) in (r, mkLineage (epoch_tracker l) q).

Definition reset_offline_retry (l : Lineage) : Lineage :=
  mkLineage (epoch_tracker l) (OfflineOpQueue_reset_retry (offline_queue l)).

Definition offline_retry_count (l : Lineage) : Z := OfflineOpQueue_retry_count (offline_queue l).

(** ** The queue as a bounded FIFO

    A client drives the queue with any sequence of commands; [accepted] and
    [drained] record what the queue answered. *)

Inductive QueueCmd : Type :=
| CmdEnqueue (b : list byte)
| CmdDrain
| CmdRetryBump
| CmdResetRetry.

Record QueueTrace : Type := mkTrace {
  tr_queue : OfflineOpQueue;
  tr_accepted : list (list byte);
  tr_drained : list (list byte)
}.

Definition queue_step (t : QueueTrace) (c : QueueCmd) : QueueTrace :=
  match c with
  | CmdEnqueue b =>
      match OfflineOpQueue_enqueue (tr_queue t) b with
      | (Ok _, q) => mkTrace q (tr_accepted t ++ [b]) (tr_drained t)
      | (Err _, q) => mkTrace q (tr_accepted t) (tr_drained t)
      end
  | CmdDrain =>
      let '(d, q) := OfflineOpQueue_drain (tr_queue t) in
      mkTrace q (tr_accepted t) (tr_drained t ++ d)
  | CmdRetryBump => mkTrace (OfflineOpQueue_retry_bump (tr_queue t)).2 (tr_accepted t) (tr_drained t)
  | CmdResetRetry => mkTrace (OfflineOpQueue_reset_retry (tr_queue t)) (tr_accepted t) (tr_drained t)
  end.

Definition queue_run (cap : Z) (cs : list QueueCmd) : QueueTrace :=
  foldl queue_step (mkTrace (OfflineOpQueue_with_cap cap) [] []) cs.

Definition sum_bytes (l : list (list byte)) : Z := foldr (λ b n, (blen b + n)%Z) 0%Z l.

Lemma sum_bytes_snoc l b : sum_bytes (l ++ [b]) = (sum_bytes l + blen b)%Z.
Proof. unfold sum_bytes. induction l as [|x l IH]; cbn -[blen Z.add]; lia. Qed.

(** The queue invariant: the counter is the sum, within the cap, and the retry
    counter is a [u32]. *)
Record OfflineOpQueue_wf (q : OfflineOpQueue) : Prop := {
  q_sum : total_bytes q = sum_bytes (ops q);
  q_cap : (0 ≤ total_bytes q ≤ cap_bytes q)%Z;
  q_retry : is_u32 (retry_count q)
}.

(** The width of [usize] does not matter as long as the cap fits in it. *)
Lemma enqueue_at_spec max q b :
  OfflineOpQueue_wf q → (cap_bytes q ≤ max)%Z →
  if decide (total_bytes q + blen b ≤ cap_bytes q)%Z
  then OfflineOpQueue_enqueue_at max q b
       = (Ok tt, mkQueue (ops q ++ [b]) (total_bytes q + blen b) (cap_bytes q) (retry_count q))
  else ∃ msg, OfflineOpQueue_enqueue_at max q b = (Err (EBridge ("offline queue overflow: " +:+ msg)), q).
Proof.
  intros [_ Hcap _] Hmax. unfold OfflineOpQueue_enqueue_at, checked_add.
  case_decide.
  - rewrite (proj2 (Z.leb_le _ _)) by lia. rewrite (proj2 (Z.ltb_ge _ _)) by lia. done.
  - destruct (Z.leb_spec (total_bytes q + blen b) max)%Z; [|eexists; f_equal; f_equal; by cbn].
    rewrite (proj2 (Z.ltb_lt _ _)) by lia. eexists; f_equal; f_equal; by cbn.
Qed.

Lemma enqueue_spec q b :
  OfflineOpQueue_wf q → (cap_bytes q ≤ USIZE_MAX)%Z →
  if decide (total_bytes q + blen b ≤ cap_bytes q)%Z
  then OfflineOpQueue_enqueue q b
       = (Ok tt, mkQueue (ops q ++ [b]) (total_bytes q + blen b) (cap_bytes q) (retry_count q))
  else is_ok (OfflineOpQueue_enqueue q b).1 = false ∧ (OfflineOpQueue_enqueue q b).2 = q.
Proof.
  intros Hwf Hmax. pose proof (enqueue_at_spec USIZE_MAX q b Hwf Hmax) as H. case_decide; [done|].
  destruct H as [msg H]. unfold OfflineOpQueue_enqueue. by rewrite H.
Qed.

(** A queue over any width, and what each command does to the invariant. *)
Lemma enqueue_wf max q b :
  OfflineOpQueue_wf q → (cap_bytes q ≤ max)%Z →
  OfflineOpQueue_wf (OfflineOpQueue_enqueue_at max q b).2 ∧
  cap_bytes (OfflineOpQueue_enqueue_at max q b).2 = cap_bytes q.
Proof.
  intros Hwf Hmax. pose proof (enqueue_at_spec max q b Hwf Hmax) as H. destruct Hwf as [Hs Hc Hr].
  case_decide; [|destruct H as [msg H]]; rewrite H; cbn; (split; [|done]); [|by split].
  split; cbn; [rewrite sum_bytes_snoc; lia|unfold blen in *; lia|done].
Qed.

Lemma drain_wf q : OfflineOpQueue_wf q → OfflineOpQueue_wf (OfflineOpQueue_drain q).2.
Proof. intros [? ? ?]. split; cbn; [done|lia|done]. Qed.

Lemma retry_bump_wf q : OfflineOpQueue_wf q → OfflineOpQueue_wf (OfflineOpQueue_retry_bump q).2.
Proof. intros [? ? ?]. split; cbn; [done..|]. unfold is_u32, u32_saturating_add, U32_MAX in *. lia. Qed.

Lemma reset_retry_wf q : OfflineOpQueue_wf q → OfflineOpQueue_wf (OfflineOpQueue_reset_retry q).
Proof. intros [? ? ?]. split; cbn; [done..|]. unfold is_u32, U32_MAX. lia. Qed.

Lemma queue_step_wf t c :
  (cap_bytes (tr_queue t) ≤ USIZE_MAX)%Z →
  OfflineOpQueue_wf (tr_queue t) →
  tr_accepted t = tr_drained t ++ ops (tr_queue t) →
  let t' := queue_step t c in
  cap_bytes (tr_queue t') = cap_bytes (tr_queue t) ∧
  OfflineOpQueue_wf (tr_queue t') ∧ tr_accepted t' = tr_drained t' ++ ops (tr_queue t').
Proof.
  intros Hmax Hwf Hacc. destruct c as [b| | |]; cbn.
  - pose proof (enqueue_spec (tr_queue t) b Hwf Hmax) as Hspec.
    pose proof (enqueue_wf _ (tr_queue t) b Hwf Hmax) as [Hwf' _]. fold OfflineOpQueue_enqueue in Hwf'.
    case_decide as Hd.
    + rewrite Hspec in *; cbn. split; [done|]. split; [done|]. by rewrite Hacc, app_assoc.
    + destruct (OfflineOpQueue_enqueue _ _) as [[]?]; cbn in *; [by destruct Hspec|].
      by destruct Hspec as [_ ->].
  - split; [done|]. split; [by apply drain_wf|]. by rewrite app_nil_r, Hacc.
  - split; [done|]. split; [by apply retry_bump_wf|done].
  - split; [done|]. split; [by apply reset_retry_wf|done].
Qed.

(** C18: the offline queue is a FIFO that never loses, duplicates or reorders an
    accepted operation under any sequence of commands (accepted = drained ++
    pending), its byte counter is the sum of the pending lengths and never
    exceeds the cap, and its retry counter stays a [u32]. *)
Theorem queue_fifo_bounded (cap : Z) (cs : list QueueCmd) (Hcap : (0 ≤ cap ≤ USIZE_MAX)%Z) :
  let t := queue_run cap cs in
  tr_accepted t = tr_drained t ++ ops (tr_queue t) ∧
  OfflineOpQueue_bytes_used (tr_queue t) = sum_bytes (ops (tr_queue t)) ∧
  (OfflineOpQueue_bytes_used (tr_queue t) ≤ cap)%Z ∧
  is_u32 (OfflineOpQueue_retry_count (tr_queue t)).
Proof.
  intros t.
  assert (cap_bytes (tr_queue t) = cap ∧ OfflineOpQueue_wf (tr_queue t) ∧
          tr_accepted t = tr_drained t ++ ops (tr_queue t)) as (Hc & [Hs Hb Hr] & Hacc).
  { subst t. unfold queue_run. induction cs as [|c cs IH] using rev_ind.
    - cbn. split; [done|]. split; [|done]. split; cbn; [done|lia|unfold is_u32, U32_MAX; lia].
    - rewrite foldl_app. cbn. destruct IH as (Hc & Hwf & Hacc).
      destruct (queue_step_wf _ c ltac:(rewrite Hc; apply Hcap) Hwf Hacc) as (-> & ? & ?). done. }
  unfold OfflineOpQueue_bytes_used, OfflineOpQueue_retry_count. rewrite <-Hc.
  split; [done|]. split; [done|]. split; [|done]. apply Hb.
Qed.

Lemma queue_fifo_bounded_witness :
  let t := queue_run 5 [CmdEnqueue [x01; x02]; CmdEnqueue [x03; x04; x05; x06]; CmdDrain] in
  tr_accepted t = tr_drained t ++ ops (tr_queue t) ∧
  OfflineOpQueue_bytes_used (tr_queue t) = sum_bytes (ops (tr_queue t)) ∧
  (OfflineOpQueue_bytes_used (tr_queue t) ≤ 5)%Z ∧
  is_u32 (OfflineOpQueue_retry_count (tr_queue t)).
Proof. apply queue_fifo_bounded. vm_compute. split; discriminate. Defined.

(** After a cache wipe the local epoch is the successor of the old one, a
    peer still on the old lineage is refused with both epochs reported, a peer
    on the new one is accepted, and no operation, byte or retry of the wiped
    lineage is left while the cap is kept. *)
Lemma wipe_cache_breaks_lineage (l : Lineage) (Hl : (0 ≤ epoch_tracker l < U64_MAX)%Z) :
  let '(e, l') := wipe_cache l in
  e = (lineage_epoch l + 1)%Z ∧ lineage_epoch l' = e ∧
  check_epoch_match l' (lineage_epoch l) = Err (mkEpochMismatchError e (lineage_epoch l)) ∧
  check_epoch_match l' e = Ok tt ∧
  (drain_offline_queue l').1 = [] ∧ offline_queue_bytes l' = 0%Z ∧
  offline_retry_count l' = 0%Z ∧ offline_queue_cap l' = offline_queue_cap l.
Proof.
  cbn. unfold lineage_epoch, check_epoch_match, EpochTracker_check_match, EpochTracker_current.
  cbn. rewrite u64_add_small by (unfold is_u64 in *; lia).
  rewrite Z.eqb_refl. destruct (Z.eqb_spec (epoch_tracker l + 1) (epoch_tracker l)); [lia|done].
Qed.

Lemma wipe_cache_breaks_lineage_witness :
  let l := mkLineage 7 (mkQueue [[x01]] 1 10 3) in
  let '(e, l') := wipe_cache l in
  e = (lineage_epoch l + 1)%Z ∧ lineage_epoch l' = e ∧
  check_epoch_match l' (lineage_epoch l) = Err (mkEpochMismatchError e (lineage_epoch l)) ∧
  check_epoch_match l' e = Ok tt ∧
  (drain_offline_queue l').1 = [] ∧ offline_queue_bytes l' = 0%Z ∧
  offline_retry_count l' = 0%Z ∧ offline_queue_cap l' = offline_queue_cap l.
Proof. apply (wipe_cache_breaks_lineage (mkLineage 7 (mkQueue [[x01]] 1 10 3))). vm_compute. split; [discriminate|reflexivity]. Defined.
