(* ===== verification/Wasm.v ===== *)
(** * WASM bindings ([src/wasm/mod.rs], [src/wasm/queue.rs])

    The JavaScript side of the crate: the stable error codes, the objects an
    error becomes, and the two classes over the offline queue and the epoch
    tracker.  [JsValue] and the operations of [js_sys] are foreign: the class
    [JsSys] gives their names and laws.  On this target [usize] has 32 bits. *)

From S2P Require Import Prelude Types Queue.

(** What [js_sys] and [wasm_bindgen] provide: numbers, [BigInt]s, strings, byte
    arrays, and objects; [Reflect_set] is [None] when it fails. *)
Class JsSys := {
  JsValue : Type;
  js_number : Z → JsValue;
  js_bigint : Z → JsValue;
  js_string : string → JsValue;
  Uint8Array : list byte → JsValue;
  Object_new : JsValue;
  Reflect_set : JsValue → string → JsValue → option JsValue;
  Reflect_get : JsValue → string → option JsValue
}.

(** ECMAScript: an extensible object takes any new property, and keeps the others. *)
Class JsSysLaws (J : JsSys) := {
  extensible : JsValue → Prop;
  Object_new_extensible : extensible Object_new;
  Reflect_set_ok o k v : extensible o →
    ∃ o', Reflect_set o k v = Some o' ∧ extensible o' ∧
      ∀ k', Reflect_get o' k' = if decide (k' = k) then Some v else Reflect_get o k';
  js_number_inj : Inj (=) (=) js_number;
  Uint8Array_inj : Inj (=) (=) Uint8Array
}.

(** ** Error codes *)

Definition error_code (err : GrafeoLoroError) : Z :=
  match err with
  | ELoro _ => 1001
  | EGrafeo _ => 1002
  | EStorageIo _ => 1003
  | ECompression _ => 1004
  | EChannelClosed _ => 1005
  | EConfig _ => 1006
  | EUnsupportedLoroType _ => 1007
  | EBridge _ => 1008
  | EHydrate _ => 1009
  | ETreeMoveCreatesCycle _ _ => 1010
  | ENotYetImplemented _ => 1011
  | EInvalidEnvelope _ => 1012
  end.

Definition EPOCH_MISMATCH_CODE : Z := 1013.

(** ** The classes: an instance holds the Rust value *)

Definition WasmOfflineOpQueue_new : OfflineOpQueue := OfflineOpQueue_new.
Definition WasmOfflineOpQueue_with_cap (cap : Z) : OfflineOpQueue := OfflineOpQueue_with_cap cap.
Definition WasmEpochTracker_new : EpochTracker := EpochTracker_new.

Section js.
  Context `{J : JsSys}.

(** [.expect(...)] is the panic, [None]. *)
Definition js_error (err : GrafeoLoroError) : option JsValue :=
  let code := error_code err in
  let message := GrafeoLoroError_to_string err in
  obj ← Reflect_set Object_new "code" (js_number code);
  Reflect_set obj "message" (js_string message).

Definition epoch_mismatch_to_jsvalue (err : EpochMismatchError) : option JsValue :=
  obj ← Reflect_set Object_new "code" (js_number EPOCH_MISMATCH_CODE);
  obj ← Reflect_set obj "message" (js_string (EpochMismatchError_to_string err));
  obj ← Reflect_set obj "local" (js_bigint (em_local err));
  Reflect_set obj "remote" (js_bigint (em_remote err)).

(** [Result::map_err] with a function that can panic. *)
Definition js_map_err {E A} (f : E → option JsValue) (r : result E A) : option (result JsValue A) :=
  match r with Ok a => Some (Ok a) | Err e => v ← f e; Some (Err v) end.

Definition WasmOfflineOpQueue_enqueue (q : OfflineOpQueue) (op_bytes : list byte) :
    option (result JsValue unit * OfflineOpQueue) :=
  let '(r, q) := OfflineOpQueue_enqueue_at U32_MAX q op_bytes in
  r ← js_map_err js_error r; Some (r, q).

Definition WasmOfflineOpQueue_drain (q : OfflineOpQueue) : list JsValue * OfflineOpQueue :=
  let '(d, q) := OfflineOpQueue_drain q in (Uint8Array <$> d, q).

Definition WasmOfflineOpQueue_depth (q : OfflineOpQueue) : nat := OfflineOpQueue_depth q.
Definition WasmOfflineOpQueue_bytes_used (q : OfflineOpQueue) : Z := OfflineOpQueue_bytes_used q.
Definition WasmOfflineOpQueue_cap_bytes (q : OfflineOpQueue) : Z := OfflineOpQueue_cap_bytes q.
Definition WasmOfflineOpQueue_retry_bump (q : OfflineOpQueue) : Z * OfflineOpQueue :=
  OfflineOpQueue_retry_bump q.
Definition WasmOfflineOpQueue_reset_retry (q : OfflineOpQueue) : OfflineOpQueue :=
  OfflineOpQueue_reset_retry q.
Definition WasmOfflineOpQueue_retry_count (q : OfflineOpQueue) : Z := OfflineOpQueue_retry_count q.
Definition WasmOfflineOpQueue_is_empty (q : OfflineOpQueue) : bool := OfflineOpQueue_is_empty q.

Definition WasmEpochTracker_current (t : EpochTracker) : Z := EpochTracker_current t.
Definition WasmEpochTracker_check_match (t : EpochTracker) (remote_epoch : Z) :
    option (result JsValue unit) :=
  js_map_err epoch_mismatch_to_jsvalue (EpochTracker_check_match t remote_epoch).
Definition WasmEpochTracker_bump (t : EpochTracker) : Z * EpochTracker := EpochTracker_bump t.
Definition WasmEpochTracker_wipe (t : EpochTracker) : Z * EpochTracker := EpochTracker_wipe t.

(** ** A page using one instance of each *)

Inductive JsCall : Type :=
| JEnqueue (op_bytes : list byte)
| JDrain
| JRetryBump
| JResetRetry
| JCheckMatch (remote : Z)
| JBump
| JWipe
| JDepth
| JBytesUsed
| JCapBytes
| JRetryCount
| JIsEmpty
| JCurrent.

Inductive JsRet : Type :=
| RUndefined
| RNumber (n : Z)
| RBigInt (n : Z)
| RBool (b : bool)
| RArray (l : list JsValue)
| RThrow (v : JsValue).

Record Page : Type := mkPage { p_queue : OfflineOpQueue; p_epoch : EpochTracker }.

Definition js_ret (r : result JsValue unit) : JsRet := match r with Ok _ => RUndefined | Err v => RThrow v end.

Definition page_call (c : JsCall) (p : Page) : option (JsRet * Page) :=
  match c with
  | JEnqueue b =>
      '(r, q) ← WasmOfflineOpQueue_enqueue (p_queue p) b; Some (js_ret r, mkPage q (p_epoch p))
  | JDrain =>
      let '(l, q) := WasmOfflineOpQueue_drain (p_queue p) in Some (RArray l, mkPage q (p_epoch p))
  | JRetryBump =>
      let '(n, q) := WasmOfflineOpQueue_retry_bump (p_queue p) in Some (RNumber n, mkPage q (p_epoch p))
  | JResetRetry => Some (RUndefined, mkPage (WasmOfflineOpQueue_reset_retry (p_queue p)) (p_epoch p))
  | JCheckMatch r => v ← WasmEpochTracker_check_match (p_epoch p) r; Some (js_ret v, p)
  | JBump => let '(e, t) := WasmEpochTracker_bump (p_epoch p) in Some (RBigInt e, mkPage (p_queue p) t)
  | JWipe => let '(e, t) := WasmEpochTracker_wipe (p_epoch p) in Some (RBigInt e, mkPage (p_queue p) t)
  | JDepth => Some (RNumber (Z.of_nat (WasmOfflineOpQueue_depth (p_queue p))), p)
  | JBytesUsed => Some (RNumber (WasmOfflineOpQueue_bytes_used (p_queue p)), p)
  | JCapBytes => Some (RNumber (WasmOfflineOpQueue_cap_bytes (p_queue p)), p)
  | JRetryCount => Some (RNumber (WasmOfflineOpQueue_retry_count (p_queue p)), p)
  | JIsEmpty => Some (RBool (WasmOfflineOpQueue_is_empty (p_queue p)), p)
  | JCurrent => Some (RBigInt (WasmEpochTracker_current (p_epoch p)), p)
  end.

Fixpoint page_run (cs : list JsCall) (p : Page) : option (list (JsCall * JsRet) * Page) :=
  match cs with
  | [] => Some ([], p)
  | c :: cs => '(r, p) ← page_call c p; '(rs, p) ← page_run cs p; Some ((c, r) :: rs, p)
  end.

Definition page_new (cap : Z) : Page := mkPage (WasmOfflineOpQueue_with_cap cap) WasmEpochTracker_new.

(** The operations the queue took, and those the page got back. *)
Definition accepted_by (rs : list (JsCall * JsRet)) : list (list byte) :=
  omap (λ cr, match cr with (JEnqueue b, RUndefined) => Some b | _ => None end) rs.
Definition returned_by (rs : list (JsCall * JsRet)) : list JsValue :=
  mjoin ((λ cr : JsCall * JsRet, match cr.2 with RArray l => l | _ => [] end) <$> rs).

(** *** What the documentation promises *)

(** What a page can observe, beside the cap. *)
Record PageView : Type := mkPageView { pv_queued : list (list byte); pv_retries : Z; pv_epoch : Z }.

Definition page_view (p : Page) : PageView :=
  mkPageView (ops (p_queue p)) (retry_count (p_queue p)) (p_epoch p).

(** The message of the overflow error. *)
Definition overflow_message (cap used len : Z) : string :=
  ("Bridge error: offline queue overflow: " +:+
   if decide (used + len ≤ U32_MAX)%Z
   then "cap=" +:+ pretty cap +:+ " bytes, current=" +:+ pretty used +:+ ", adding=" +:+ pretty len +:+ " bytes"
   else "byte count overflow (current=" +:+ pretty used +:+ ", adding=" +:+ pretty len +:+ ")")%string.

(** The documented object of an error: its code and its message. *)
Definition thrown (v : JsValue) (code : Z) (message : string) : Prop :=
  Reflect_get v "code" = Some (js_number code) ∧ Reflect_get v "message" = Some (js_string message).

(** The answer of a call and what it leaves.  A call that throws leaves what it
    found. *)
Inductive answers (cap : Z) : JsCall → PageView → JsRet → PageView → Prop :=
| an_enqueue b q n e :
    (sum_bytes q + blen b ≤ cap)%Z →
    answers cap (JEnqueue b) (mkPageView q n e) RUndefined (mkPageView (q ++ [b]) n e)
| an_overflow b v q n e :
    (cap < sum_bytes q + blen b)%Z → thrown v 1008 (overflow_message cap (sum_bytes q) (blen b)) →
    answers cap (JEnqueue b) (mkPageView q n e) (RThrow v) (mkPageView q n e)
| an_drain q n e :
    answers cap JDrain (mkPageView q n e) (RArray (Uint8Array <$> q)) (mkPageView [] n e)
| an_retry q n e :
    let n' := Z.min (n + 1) U32_MAX in
    answers cap JRetryBump (mkPageView q n e) (RNumber n') (mkPageView q n' e)
| an_reset q n e : answers cap JResetRetry (mkPageView q n e) RUndefined (mkPageView q 0 e)
| an_match q n e : answers cap (JCheckMatch e) (mkPageView q n e) RUndefined (mkPageView q n e)
| an_mismatch remote v q n e :
    e ≠ remote → thrown v 1013 (EpochMismatchError_to_string (mkEpochMismatchError e remote)) →
    Reflect_get v "local" = Some (js_bigint e) → Reflect_get v "remote" = Some (js_bigint remote) →
    answers cap (JCheckMatch remote) (mkPageView q n e) (RThrow v) (mkPageView q n e)
| an_bump q n e :
    let e' := ((e + 1) mod 2 ^ 64)%Z in
    answers cap JBump (mkPageView q n e) (RBigInt e') (mkPageView q n e')
| an_wipe q n e :
    let e' := ((e + 1) mod 2 ^ 64)%Z in
    answers cap JWipe (mkPageView q n e) (RBigInt e') (mkPageView q n e')
| an_depth a : answers cap JDepth a (RNumber (Z.of_nat (length (pv_queued a)))) a
| an_bytes_used a : answers cap JBytesUsed a (RNumber (sum_bytes (pv_queued a))) a
| an_cap a : answers cap JCapBytes a (RNumber cap) a
| an_retry_count a : answers cap JRetryCount a (RNumber (pv_retries a)) a
| an_is_empty a : answers cap JIsEmpty a (RBool (bool_decide (pv_queued a = []))) a
| an_current a : answers cap JCurrent a (RBigInt (pv_epoch a)) a.

Inductive answered (cap : Z) : PageView → list (JsCall * JsRet) → PageView → Prop :=
| ad_nil a : answered cap a [] a
| ad_cons c r rs a a1 a2 : answers cap c a r a1 → answered cap a1 rs a2 → answered cap a ((c, r) :: rs) a2.

(** Every counter has the width of its Rust type. *)
Record page_wf (p : Page) : Prop := {
  pw_queue : OfflineOpQueue_wf (p_queue p);
  pw_cap : is_u32 (cap_bytes (p_queue p));
  pw_epoch : is_u64 (p_epoch p)
}.

Context {HJ : JsSysLaws J}.

Lemma Reflect_set_new k v :
  ∃ o, Reflect_set Object_new k v = Some o ∧ extensible o ∧ Reflect_get o k = Some v.
Proof.
  destruct (Reflect_set_ok Object_new k v Object_new_extensible) as (o & Ho & Hx & Hg).
  exists o. split; [done|]. split; [done|]. rewrite Hg. by case_decide.
Qed.

(** One more property: the new one reads back, the others as before. *)
Lemma Reflect_set_next o k v :
  extensible o → ∃ o', Reflect_set o k v = Some o' ∧ extensible o' ∧
    Reflect_get o' k = Some v ∧ ∀ k', k' ≠ k → Reflect_get o' k' = Reflect_get o k'.
Proof.
  intros Ho. destruct (Reflect_set_ok o k v Ho) as (o' & Hs & Hx & Hg). exists o'.
  split; [done|]. split; [done|]. split; [|intros k' Hk]; rewrite Hg; by case_decide.
Qed.

Lemma js_error_spec err :
  ∃ v, js_error err = Some v ∧ Reflect_get v "code" = Some (js_number (error_code err)) ∧
    Reflect_get v "message" = Some (js_string (GrafeoLoroError_to_string err)).
Proof.
  unfold js_error. destruct (Reflect_set_new "code" (js_number (error_code err))) as (o & -> & Hx & Hc).
  cbn. destruct (Reflect_set_next o "message" (js_string (GrafeoLoroError_to_string err)) Hx)
    as (o' & -> & _ & Hm & Hk).
  exists o'. split; [done|]. by rewrite Hk.
Qed.

Lemma epoch_mismatch_spec err :
  ∃ v, epoch_mismatch_to_jsvalue err = Some v ∧ Reflect_get v "code" = Some (js_number 1013) ∧
    Reflect_get v "message" = Some (js_string (EpochMismatchError_to_string err)) ∧
    Reflect_get v "local" = Some (js_bigint (em_local err)) ∧
    Reflect_get v "remote" = Some (js_bigint (em_remote err)).
Proof.
  unfold epoch_mismatch_to_jsvalue.
  destruct (Reflect_set_new "code" (js_number EPOCH_MISMATCH_CODE)) as (o & -> & Hx & Hc). cbn.
  destruct (Reflect_set_next o "message" (js_string (EpochMismatchError_to_string err)) Hx)
    as (o1 & -> & Hx1 & Hm & Hk1). cbn.
  destruct (Reflect_set_next o1 "local" (js_bigint (em_local err)) Hx1) as (o2 & -> & Hx2 & Hl & Hk2). cbn.
  destruct (Reflect_set_next o2 "remote" (js_bigint (em_remote err)) Hx2) as (o3 & -> & _ & Hr & Hk3).
  exists o3. split; [done|]. rewrite !Hk3, !Hk2, !Hk1 by done. done.
Qed.
End js.

(** The variant's name, and the documented table of codes. *)
Definition variant_name (err : GrafeoLoroError) : string :=
  match err with
  | ELoro _ => "Loro" | EGrafeo _ => "Grafeo" | EStorageIo _ => "StorageIo"
  | ECompression _ => "Compression" | EChannelClosed _ => "ChannelClosed" | EConfig _ => "Config"
  | EUnsupportedLoroType _ => "UnsupportedLoroType" | EBridge _ => "Bridge" | EHydrate _ => "Hydrate"
  | ETreeMoveCreatesCycle _ _ => "TreeMoveCreatesCycle" | ENotYetImplemented _ => "NotYetImplemented"
  | EInvalidEnvelope _ => "InvalidEnvelope"
  end.

Definition code_table : list (Z * string) :=
  [(1001, "Loro"); (1002, "Grafeo"); (1003, "StorageIo"); (1004, "Compression");
   (1005, "ChannelClosed"); (1006, "Config"); (1007, "UnsupportedLoroType"); (1008, "Bridge");
   (1009, "Hydrate"); (1010, "TreeMoveCreatesCycle"); (1011, "NotYetImplemented");
   (1012, "InvalidEnvelope")]%Z.

Lemma error_code_in_table err : (error_code err, variant_name err) ∈ code_table.
Proof. destruct err; cbn; set_solver. Qed.

Lemma error_code_variant e1 e2 : error_code e1 = error_code e2 ↔ variant_name e1 = variant_name e2.
Proof. destruct e1, e2; cbn; done. Qed.

(** An error crosses into JavaScript without a panic, as an object whose
    [code] is the one the documented table gives its variant and whose
    [message] is the printed error; two errors carry the same code exactly when
    they are of the same variant, and none carries the code of an epoch
    mismatch. *)
Lemma js_error_codes `{J : JsSys} `{!JsSysLaws J} (e1 e2 : GrafeoLoroError) (m : EpochMismatchError) :
  ∃ v1 v2 v3, js_error e1 = Some v1 ∧ js_error e2 = Some v2 ∧ epoch_mismatch_to_jsvalue m = Some v3 ∧
    Reflect_get v1 "message" = Some (js_string (GrafeoLoroError_to_string e1)) ∧
    (∃ c, (c, variant_name e1) ∈ code_table ∧ Reflect_get v1 "code" = Some (js_number c)) ∧
    (Reflect_get v1 "code" = Reflect_get v2 "code" ↔ variant_name e1 = variant_name e2) ∧
    Reflect_get v1 "code" ≠ Reflect_get v3 "code".
Proof.
  destruct (js_error_spec e1) as (v1 & H1 & Hc1 & Hm1). destruct (js_error_spec e2) as (v2 & H2 & Hc2 & _).
  destruct (epoch_mismatch_spec m) as (v3 & H3 & Hc3 & _). exists v1, v2, v3.
  rewrite Hc1, Hc2, Hc3, <-error_code_variant. pose proof js_number_inj as Hinj.
  repeat (split; [done|]). split; [|split; [split; [by intros ?%(inj Some)%(inj js_number)|by intros ->]|]].
  - exists (error_code e1). split; [apply error_code_in_table|done].
  - intros Heq%(inj Some)%(inj js_number). by destruct e1.
Qed.

(** ** An instance: objects as lists of properties *)

Inductive JsVal : Type :=
| JNum (n : Z) | JBig (n : Z) | JStr (s : string) | JBytes (l : list byte) | JObj (l : list (string * JsVal)).

Definition JsVal_set (o : JsVal) (k : string) (v : JsVal) : option JsVal :=
  match o with JObj l => Some (JObj ((k, v) :: l)) | _ => None end.

Definition JsVal_get (o : JsVal) (k : string) : option JsVal :=
  match o with
  | JObj l => snd <$> (list_find (λ kv : string * JsVal, kv.1 = k) l ≫= λ ix, Some ix.2)
  | _ => None
  end.

#[export] Instance ModelJs : JsSys := {|
  JsValue := JsVal; js_number := JNum; js_bigint := JBig; js_string := JStr; Uint8Array := JBytes;
  Object_new := JObj []; Reflect_set := JsVal_set; Reflect_get := JsVal_get
|}.

#[export] Instance ModelJsLaws : JsSysLaws ModelJs.
Proof.
  refine {| extensible := (λ o : @JsValue ModelJs, ∃ l, o = JObj l) |}; [by exists []| | |].
  - intros o k v [l ->]. eexists. split; [done|]. split; [by eexists|]. intros k'. cbn.
    destruct (decide (k = k')), (decide (k' = k)); cbn; try done; try congruence.
    by destruct (list_find _ l) as [[]|].
  - by intros x y [= ->].
  - by intros x y [= ->].
Defined.

Lemma js_error_codes_witness :
  ∃ v1 v2 v3, js_error (J := ModelJs) (EBridge "full") = Some v1 ∧
    js_error (J := ModelJs) (EConfig "bad") = Some v2 ∧
    epoch_mismatch_to_jsvalue (J := ModelJs) (mkEpochMismatchError 2 5) = Some v3 ∧
    Reflect_get v1 "code" ≠ Reflect_get v3 "code".
Proof.
  destruct (js_error_codes (J := ModelJs) (EBridge "full") (EConfig "bad") (mkEpochMismatchError 2 5))
    as (v1 & v2 & v3 & H1 & H2 & H3 & _ & _ & _ & H). by exists v1, v2, v3.
Defined.

(** ** Sessions *)

Section session.
  Context `{J : JsSys} `{!JsSysLaws J}.

Lemma accepted_app l1 l2 : accepted_by (l1 ++ l2) = accepted_by l1 ++ accepted_by l2.
Proof. apply omap_app. Qed.

Lemma returned_app l1 l2 : returned_by (l1 ++ l2) = returned_by l1 ++ returned_by l2.
Proof. unfold returned_by. by rewrite fmap_app, join_app. Qed.

Lemma enqueue_message q b :
  OfflineOpQueue_wf q → is_u32 (cap_bytes q) → (cap_bytes q < total_bytes q + blen b)%Z →
  ∃ e, OfflineOpQueue_enqueue_at U32_MAX q b = (Err e, q) ∧ error_code e = 1008%Z ∧
    GrafeoLoroError_to_string e = overflow_message (cap_bytes q) (total_bytes q) (blen b).
Proof.
  intros Hq Hc Hlt. unfold OfflineOpQueue_enqueue_at, checked_add, overflow_message.
  destruct (Z.leb_spec (total_bytes q + blen b) U32_MAX)%Z as [Hle|Hgt].
  - rewrite (proj2 (Z.ltb_lt _ _)) by lia. rewrite decide_True by done. eexists. split; [done|]. by split.
  - rewrite decide_False by lia. eexists. split; [done|]. by split.
Qed.

Lemma page_call_answers cap c p :
  page_wf p → cap_bytes (p_queue p) = cap → ∃ r p', page_call c p = Some (r, p') ∧ page_wf p' ∧
    cap_bytes (p_queue p') = cap ∧ answers cap c (page_view p) r (page_view p').
Proof.
  intros [Hq Hc He] Hcap. destruct p as [q t]. cbn in Hq, Hc, He, Hcap. pose proof Hq as [Hsum _ _].
  destruct c; cbn; unfold page_view; cbn.
  - unfold WasmOfflineOpQueue_enqueue.
    pose proof (enqueue_at_spec U32_MAX q op_bytes Hq ltac:(apply Hc)) as Hs.
    pose proof (enqueue_wf U32_MAX q op_bytes Hq ltac:(apply Hc)) as [Hw Hcp].
    destruct (decide _) as [Hle|Hgt].
    + rewrite Hs in *. cbn in Hw, Hcp |- *. eexists _, _. split; [done|]. split; [by split|]. split; [done|].
      cbn. apply an_enqueue. lia.
    + destruct (enqueue_message q op_bytes Hq Hc ltac:(lia)) as (e & Hen & Hcode & Hmsg). rewrite Hen. cbn.
      destruct (js_error_spec e) as (v & -> & Hcd & Hm). cbn. eexists _, _. split; [done|]. split; [by split|].
      split; [done|]. rewrite Hcode in Hcd. rewrite Hmsg in Hm. cbn. subst cap. rewrite Hsum in *.
      apply an_overflow; [lia|done].
  - eexists _, _. split; [done|]. split; [split; [by apply drain_wf|done|done]|]. split; [done|]. apply an_drain.
  - eexists _, _. split; [done|]. split; [split; [by apply retry_bump_wf|done|done]|]. split; [done|]. apply an_retry.
  - eexists _, _. split; [done|]. split; [split; [by apply reset_retry_wf|done|done]|]. split; [done|]. apply an_reset.
  - unfold WasmEpochTracker_check_match, EpochTracker_check_match.
    destruct (Z.eqb_spec t remote) as [->|Hne]; cbn.
    + eexists _, _. split; [done|]. split; [by split|]. split; [done|]. apply an_match.
    + destruct (epoch_mismatch_spec (mkEpochMismatchError t remote)) as (v & -> & Hco & Hm & Hl & Hr). cbn.
      eexists _, _. split; [done|]. split; [by split|]. split; [done|]. by apply an_mismatch.
  - eexists _, _. split; [done|]. split; [split; [done|done|apply u64_wrap_range]|]. split; [done|]. apply an_bump.
  - eexists _, _. split; [done|]. split; [split; [done|done|apply u64_wrap_range]|]. split; [done|]. apply an_wipe.
  - eexists _, _. split; [done|]. split; [by split|]. split; [done|]. apply (an_depth _ (mkPageView _ _ _)).
  - eexists _, _. split; [done|]. split; [by split|]. split; [done|]. cbn. unfold WasmOfflineOpQueue_bytes_used, OfflineOpQueue_bytes_used.
    rewrite Hsum. apply (an_bytes_used _ (mkPageView _ _ _)).
  - eexists _, _. split; [done|]. split; [by split|]. split; [done|]. cbn. unfold WasmOfflineOpQueue_cap_bytes, OfflineOpQueue_cap_bytes.
    rewrite Hcap. apply an_cap.
  - eexists _, _. split; [done|]. split; [by split|]. split; [done|]. apply (an_retry_count _ (mkPageView _ _ _)).
  - eexists _, _. split; [done|]. split; [by split|]. split; [done|]. cbn. unfold WasmOfflineOpQueue_is_empty, OfflineOpQueue_is_empty.
    pose proof (an_is_empty cap (mkPageView (ops q) (retry_count q) t)) as Ha. cbn in Ha. by destruct (ops q).
  - eexists _, _. split; [done|]. split; [by split|]. split; [done|]. apply (an_current _ (mkPageView _ _ _)).
Qed.

Lemma answered_conserves cap a rs a' :
  answered cap a rs a' →
  Uint8Array <$> (pv_queued a ++ accepted_by rs) = returned_by rs ++ (Uint8Array <$> pv_queued a').
Proof.
  induction 1 as [a|c r rs a a1 a2 Ha _ IH]; [by rewrite app_nil_r|].
  change ((c, r) :: rs) with ([(c, r)] ++ rs). rewrite (accepted_app [(c, r)] rs), (returned_app [(c, r)] rs).
  assert (H1 : Uint8Array <$> (pv_queued a ++ accepted_by [(c, r)]) = returned_by [(c, r)] ++ (Uint8Array <$> pv_queued a1)).
  { destruct Ha; cbn; rewrite ?app_nil_r; try done. }
  by rewrite (assoc_L (++)), fmap_app, H1, <-(assoc_L (++)), <-fmap_app, IH, (assoc_L (++)).
Qed.

(** C28: a page that makes any calls of the two classes, getters included, in any
    order and with any arguments, never traps, every counter keeps the width of
    its Rust type on the 32-bit target, and each call gets exactly the documented
    answer.  [enqueue] takes the operation if it fits under the cap and otherwise
    throws the object with code 1008 and the message that names the numbers;
    [drain] returns what is queued, oldest first, and empties the queue;
    [retryBump] returns the next count, saturating; [resetRetry] clears it;
    [checkMatch] returns if the epochs are equal and otherwise throws the object
    with code 1013, the message and both epochs; [bump] and [wipe] return the next
    epoch, modulo two to the 64; the getters return what they name.  A call that
    throws changes nothing.  The arrays the page got back, followed by what is
    still queued, are the operations the queue took, in order. *)
Theorem page_run_safe (cap : Z) (cs : list JsCall) (Hcap : is_u32 cap) :
  ∃ rs p, page_run cs (page_new cap) = Some (rs, p) ∧ rs.*1 = cs ∧ page_wf p ∧
    answered cap (mkPageView [] 0 0) rs (page_view p) ∧
    Uint8Array <$> accepted_by rs = returned_by rs ++ (Uint8Array <$> ops (p_queue p)).
Proof.
  assert (Hwf : page_wf (page_new cap)).
  { pose proof Hcap as [Hlo _]. split; cbn; [split; cbn; [done|lia|done]|done|done]. }
  assert (∀ p, page_wf p → cap_bytes (p_queue p) = cap → ∃ rs p', page_run cs p = Some (rs, p') ∧ rs.*1 = cs ∧
    page_wf p' ∧ answered cap (page_view p) rs (page_view p')) as H.
  { clear Hwf. induction cs as [|c cs IH]; intros p Hp Hc; cbn; [eexists [], _; by repeat constructor; apply Hp|].
    destruct (page_call_answers cap c p Hp Hc) as (r & p1 & -> & Hp1 & Hc1 & Ha).
    destruct (IH p1 Hp1 Hc1) as (rs & p2 & Hrun & Hcs & Hp2 & Has). cbn. rewrite Hrun. cbn.
    eexists _, _. split; [done|]. split; [by cbn; rewrite Hcs|]. split; [done|]. by econstructor. }
  destruct (H _ Hwf eq_refl) as (rs & p & Hrun & Hcs & Hp & Ha). exists rs, p. do 4 (split; [done|]).
  apply (answered_conserves _ _ _ _ Ha).
Qed.
End session.

(** A page with a cap of three bytes: the second operation does not fit. *)
Definition small_session : list JsCall :=
  [JEnqueue [x01; x02]; JEnqueue [x03; x04]; JRetryBump; JDrain; JBump; JCheckMatch 5].

Lemma page_run_safe_witness :
  ∃ rs p, page_run (J := ModelJs) small_session (page_new 3) = Some (rs, p) ∧
    rs.*2 = [RUndefined; RThrow (JObj [("message", JStr "Bridge error: offline queue overflow: cap=3 bytes, current=2, adding=2 bytes");
                                       ("code", JNum 1008)]);
             RNumber 1; RArray [JBytes [x01; x02]]; RBigInt 1;
             RThrow (JObj [("remote", JBig 5); ("local", JBig 1);
                           ("message", JStr "lineage epoch mismatch: local=1 remote=5; client cache wipe required");
                           ("code", JNum 1013)])] ∧
    page_wf p.
Proof.
  destruct (page_run_safe (J := ModelJs) 3 small_session) as (rs & p & Hrun & _ & Hp & _).
  { unfold is_u32, U32_MAX. lia. }
  exists rs, p. split; [exact Hrun|]. split; [|exact Hp]. vm_compute in Hrun. injection Hrun as <- _. reflexivity.
Defined.
