(* ===== verification/FuzzCorpus.v ===== *)
(** * Fuzz operations and the seed corpus ([fuzz/fuzz_targets/lib.rs], [gen_corpus.rs])

    The operations the fuzzer draws, their conversion to the operations of the
    bridge, and the byte encoding of the seed corpus with the seeds it is used
    on.  The decoder is the specification of the encoding: it is not code. *)

From S2P Require Import Prelude Types Values.
From Stdlib Require Import SpecFloat.

Inductive FuzzValue : Type :=
| FuzzValue_Null
| FuzzValue_Bool (b : bool)
| FuzzValue_I64 (i : Z)
| FuzzValue_F64 (f : f64)
| FuzzValue_Str (s : string).

Inductive FuzzOp : Type :=
| FuzzOp_UpsertNode (loro_key : string) (labels : list string) (properties : list (string * FuzzValue))
| FuzzOp_UpsertEdge (src_key dst_key label : string) (properties : list (string * FuzzValue))
| FuzzOp_DeleteNode (loro_key : string)
| FuzzOp_DeleteEdge (src_key dst_key label : string)
| FuzzOp_TreeMove (node_key old_parent_key new_parent_key : string).

Definition to_graph_value (v : FuzzValue) : GraphValue :=
  match v with
  | FuzzValue_Null => GraphValue_Null
  | FuzzValue_Bool b => GraphValue_Bool b
  | FuzzValue_I64 i => GraphValue_Integer i
  | FuzzValue_F64 f => GraphValue_Float f
  | FuzzValue_Str s => GraphValue_String s
  end.

(** [collect] into a [HashMap]: the last value of a key wins. *)
Definition collect_properties (l : list (string * FuzzValue)) : gmap string GraphValue :=
  foldl (λ m kv, <[kv.1 := to_graph_value kv.2]> m) ∅ l.

Definition convert_fuzz_op (op : FuzzOp) : LoroOp :=
  match op with
  | FuzzOp_UpsertNode loro_key labels properties =>
      UpsertNode loro_key labels (collect_properties properties)
  | FuzzOp_UpsertEdge src_key dst_key label properties =>
      UpsertEdge src_key dst_key label (collect_properties properties)
  | FuzzOp_DeleteNode loro_key => DeleteNode loro_key
  | FuzzOp_DeleteEdge src_key dst_key label => DeleteEdge src_key dst_key label
  | FuzzOp_TreeMove node_key old_parent_key new_parent_key =>
      TreeMove node_key old_parent_key new_parent_key
  end.

(** ** The encoding: what each function appends to the buffer *)

(** [f64::to_bits]; a NaN is the quiet one. *)
Definition sign_bit (s : bool) : Z := if s then 2 ^ 63 else 0.
Definition f64_to_bits (f : f64) : Z :=
  match f with
  | S754_zero s => sign_bit s
  | S754_infinity s => sign_bit s + 2047 * 2 ^ 52
  | S754_nan => 2047 * 2 ^ 52 + 2 ^ 51
  | S754_finite s m e =>
      if (Zpos m <? 2 ^ 52)%Z then sign_bit s + Zpos m
      else sign_bit s + (e + 1075) * 2 ^ 52 + (Zpos m - 2 ^ 52)
  end.

Definition enc_u64 (v : Z) : list byte := to_le_bytes 8 v.
Definition enc_u16 (v : Z) : list byte := to_le_bytes 2 v.
Definition enc_u8 (v : Z) : list byte := [byte_of_Z v].

(** [x.len() as u32] and its four bytes. *)
Definition enc_len {A} (l : list A) : list byte := to_le_bytes 4 (Z.of_nat (length l)).

Definition enc_string (s : string) : list byte :=
  let b := string_bytes s in enc_len b ++ b.

Definition enc_fuzz_value (v : FuzzValue) : list byte :=
  match v with
  | FuzzValue_Null => enc_u8 0
  | FuzzValue_Bool b => enc_u8 1 ++ enc_u8 (if b then 1 else 0)
  | FuzzValue_I64 i => enc_u8 2 ++ to_le_bytes 8 (u64_wrap i)
  | FuzzValue_F64 f => enc_u8 3 ++ to_le_bytes 8 (f64_to_bits f)
  | FuzzValue_Str s => enc_u8 4 ++ enc_string s
  end.

Definition enc_properties (l : list (string * FuzzValue)) : list byte :=
  enc_len l ++ (l ≫= λ kv, enc_string kv.1 ++ enc_fuzz_value kv.2).

Definition enc_fuzz_op (op : FuzzOp) : list byte :=
  match op with
  | FuzzOp_UpsertNode loro_key labels properties =>
      enc_u8 0 ++ enc_string loro_key ++ (enc_len labels ++ (labels ≫= enc_string))
        ++ enc_properties properties
  | FuzzOp_UpsertEdge src_key dst_key label properties =>
      enc_u8 1 ++ enc_string src_key ++ enc_string dst_key ++ enc_string label
        ++ enc_properties properties
  | FuzzOp_DeleteNode loro_key => enc_u8 2 ++ enc_string loro_key
  | FuzzOp_DeleteEdge src_key dst_key label =>
      enc_u8 3 ++ enc_string src_key ++ enc_string dst_key ++ enc_string label
  | FuzzOp_TreeMove node_key old_parent_key new_parent_key =>
      enc_u8 4 ++ enc_string node_key ++ enc_string old_parent_key ++ enc_string new_parent_key
  end.

Definition enc_fuzz_input (seed : Z) (ops : list FuzzOp) (peer_count bail_after_ops : Z) : list byte :=
  enc_u64 seed ++ (ops ≫= enc_fuzz_op) ++ enc_u8 peer_count ++ enc_u16 bail_after_ops
    ++ [byte_of_Z (Z.of_nat (length ops) mod 256)].

(** ** The seeds of [main] *)

Definition seed_empty : list byte := enc_fuzz_input 42 [] 1 100.

Definition single_upsert_ops : list FuzzOp :=
  [FuzzOp_UpsertNode "V/alice" ["Person"] [("name", FuzzValue_Str "Alice"); ("age", FuzzValue_I64 30)]].
Definition seed_single_upsert : list byte := enc_fuzz_input 7 single_upsert_ops 1 100.

Definition all_variants_ops : list FuzzOp :=
  [FuzzOp_UpsertNode "V/n1" ["A"] [("k", FuzzValue_I64 1)];
   FuzzOp_UpsertNode "V/n2" ["B"] [("k", FuzzValue_I64 2)];
   FuzzOp_UpsertEdge "V/n1" "V/n2" "KNOWS" [("since", FuzzValue_I64 2024)];
   FuzzOp_TreeMove "V/n2" "V/n1" "V/n1";
   FuzzOp_DeleteEdge "V/n1" "V/n2" "KNOWS";
   FuzzOp_DeleteNode "V/n2"].
Definition seed_all_variants : list byte := enc_fuzz_input 99 all_variants_ops 1 100.

Definition cycle_attempt_ops : list FuzzOp :=
  [FuzzOp_UpsertNode "V/parent" ["N"] [];
   FuzzOp_UpsertNode "V/child" ["N"] [];
   FuzzOp_UpsertEdge "V/parent" "V/child" "CHILD" [];
   FuzzOp_TreeMove "V/parent" "V/nonexistent" "V/child"].
Definition seed_cycle_attempt : list byte := enc_fuzz_input 13 cycle_attempt_ops 1 100.

Definition large_ops : list FuzzOp :=
  (λ i, FuzzOp_UpsertNode ("V/large-" +:+ pretty i) ["Batch"] [("idx", FuzzValue_I64 (Z.of_nat i))])
    <$> seq 0 256.
Definition seed_large_batch : list byte := enc_fuzz_input 256 large_ops 1 1000.

(** ** Reading it back *)

Notation Dec A := (list byte → option (A * list byte)) (only parsing).

Definition dec_uint (n : nat) : Dec Z := λ l,
  if decide (n ≤ length l) then Some (from_le_bytes (take n l), drop n l) else None.

Definition dec_bytes (n : nat) : Dec (list byte) := λ l,
  if decide (n ≤ length l) then Some (take n l, drop n l) else None.

Definition dec_string : Dec string := λ l,
  '(n, l) ← dec_uint 4 l; '(b, l) ← dec_bytes (Z.to_nat n) l; Some (string_of_bytes b, l).

Fixpoint dec_count {A} (d : Dec A) (n : nat) : Dec (list A) := λ l,
  match n with
  | O => Some ([], l)
  | S n => '(x, l) ← d l; '(xs, l) ← dec_count d n l; Some (x :: xs, l)
  end.

Definition dec_list {A} (d : Dec A) : Dec (list A) := λ l,
  '(n, l) ← dec_uint 4 l; dec_count d (Z.to_nat n) l.

Definition i64_of_bits (z : Z) : Z := if (z <? 2 ^ 63)%Z then z else (z - 2 ^ 64)%Z.

Definition f64_of_bits (z : Z) : f64 :=
  let s := (2 ^ 63 <=? z)%Z in
  let r := (z mod 2 ^ 63)%Z in
  let e := (r / 2 ^ 52)%Z in
  let m := (r mod 2 ^ 52)%Z in
  if (e =? 2047)%Z then if (m =? 0)%Z then S754_infinity s else S754_nan
  else if (e =? 0)%Z then match m with Zpos m => S754_finite s m (-1074) | _ => S754_zero s end
  else match (m + 2 ^ 52)%Z with Zpos m => S754_finite s m (e - 1075) | _ => S754_zero s end.

Definition dec_value : Dec FuzzValue := λ l,
  '(tag, l) ← dec_uint 1 l;
  match tag with
  | 0 => Some (FuzzValue_Null, l)
  | 1 => '(b, l) ← dec_uint 1 l; Some (FuzzValue_Bool (negb (b =? 0)%Z), l)
  | 2 => '(z, l) ← dec_uint 8 l; Some (FuzzValue_I64 (i64_of_bits z), l)
  | 3 => '(z, l) ← dec_uint 8 l; Some (FuzzValue_F64 (f64_of_bits z), l)
  | 4 => '(s, l) ← dec_string l; Some (FuzzValue_Str s, l)
  | _ => None
  end%Z.

Definition dec_property : Dec (string * FuzzValue) := λ l,
  '(k, l) ← dec_string l; '(v, l) ← dec_value l; Some ((k, v), l).

Definition dec_op : Dec FuzzOp := λ l,
  '(tag, l) ← dec_uint 1 l;
  '(a, l) ← dec_string l;
  match tag with
  | 0 => '(ls, l) ← dec_list dec_string l; '(ps, l) ← dec_list dec_property l;
      Some (FuzzOp_UpsertNode a ls ps, l)
  | 1 => '(b, l) ← dec_string l; '(c, l) ← dec_string l; '(ps, l) ← dec_list dec_property l;
      Some (FuzzOp_UpsertEdge a b c ps, l)
  | 2 => Some (FuzzOp_DeleteNode a, l)
  | 3 => '(b, l) ← dec_string l; '(c, l) ← dec_string l; Some (FuzzOp_DeleteEdge a b c, l)
  | 4 => '(b, l) ← dec_string l; '(c, l) ← dec_string l; Some (FuzzOp_TreeMove a b c, l)
  | _ => None
  end%Z.

(** The number of operations is the last byte. *)
Definition dec_input (l : list byte) : option (Z * list FuzzOp * Z * Z) :=
  n ← last l;
  '(seed, l) ← dec_uint 8 (removelast l);
  '(ops, l) ← dec_count dec_op (Z.to_nat (Z_of_byte n)) l;
  '(peers, l) ← dec_uint 1 l;
  '(bail, l) ← dec_uint 2 l;
  match l with [] => Some (seed, ops, peers, bail) | _ => None end.

(** ** Every encoding is read back, whatever follows it *)

#[local] Arguments enc_string : simpl never.
#[local] Arguments enc_len : simpl never.
#[local] Arguments enc_fuzz_value : simpl nomatch.
#[local] Arguments to_le_bytes : simpl never.
#[local] Arguments enc_u8 : simpl never.
#[local] Arguments dec_string : simpl never.
#[local] Arguments dec_uint : simpl never.
#[local] Arguments dec_value : simpl never.
#[local] Arguments dec_list : simpl never.
#[local] Arguments dec_count : simpl nomatch.

Definition reads {A} (d : Dec A) (b : list byte) (x : A) : Prop := ∀ rest, d (b ++ rest) = Some (x, rest).

Lemma reads_uint n z :
  (0 ≤ z < 256 ^ Z.of_nat n)%Z → reads (dec_uint n) (to_le_bytes n z) z.
Proof.
  intros Hz rest. pose proof (length_to_le_bytes n z) as Hl. unfold dec_uint.
  rewrite decide_True by (rewrite length_app; lia).
  rewrite take_app_length', drop_app_length' by done. by rewrite from_to_le_bytes_id.
Qed.

Lemma reads_u8 z : (0 ≤ z < 256)%Z → reads (dec_uint 1) (enc_u8 z) z.
Proof. intros Hz. apply (reads_uint 1). lia. Qed.

Lemma reads_len {A} (l : list A) :
  (Z.of_nat (length l) < 2 ^ 32)%Z → reads (dec_uint 4) (enc_len l) (Z.of_nat (length l)).
Proof. intros Hl. apply reads_uint. change (256 ^ Z.of_nat 4)%Z with (2 ^ 32)%Z. lia. Qed.

Definition str_ok (s : string) : Prop := (Z.of_nat (length (string_bytes s)) < 2 ^ 32)%Z.

Lemma reads_string s : str_ok s → reads dec_string (enc_string s) s.
Proof.
  intros Hs rest. unfold dec_string, enc_string. rewrite <-(assoc_L (++)).
  rewrite (reads_len _ Hs). cbn. rewrite Nat2Z.id. unfold dec_bytes.
  rewrite decide_True by (rewrite length_app; lia).
  rewrite take_app_length, drop_app_length. cbn. by rewrite string_of_string_bytes.
Qed.

Lemma reads_count {A} (d : Dec A) (enc : A → list byte) (l : list A) :
  Forall (λ x, reads d (enc x) x) l → reads (dec_count d (length l)) (l ≫= enc) l.
Proof.
  induction 1 as [|x l Hx Hl IH]; intros rest; [done|]. cbn [length dec_count].
  rewrite bind_cons, <-(assoc_L (++)), Hx. cbn. by rewrite IH.
Qed.

Lemma reads_list {A} (d : Dec A) (enc : A → list byte) (l : list A) :
  (Z.of_nat (length l) < 2 ^ 32)%Z → Forall (λ x, reads d (enc x) x) l →
  reads (dec_list d) (enc_len l ++ (l ≫= enc)) l.
Proof.
  intros Hn Hl rest. unfold dec_list. rewrite <-(assoc_L (++)), (reads_len _ Hn). cbn.
  rewrite Nat2Z.id. by apply reads_count.
Qed.

(** A mantissa of [d] digits. *)
Lemma digits2_pos_bounds m :
  (2 ^ (Zpos (digits2_pos m) - 1) ≤ Zpos m < 2 ^ Zpos (digits2_pos m))%Z.
Proof.
  induction m as [m IH|m IH|]; cbn [digits2_pos]; [| |by vm_compute; split];
    rewrite Pos2Z.inj_succ; replace (Z.succ (Zpos (digits2_pos m)) - 1)%Z with (Zpos (digits2_pos m)) by lia;
    rewrite Z.pow_succ_r by lia;
    replace (Zpos (digits2_pos m)) with (Z.succ (Zpos (digits2_pos m) - 1)) at 1 by lia;
    rewrite Z.pow_succ_r by lia; lia.
Qed.

(** The canonical mantissa and exponent of a finite number. *)
Lemma valid_finite s m e :
  valid_binary 53 1024 (S754_finite s m e) = true →
  (Zpos m < 2 ^ 53 ∧ -1074 ≤ e ≤ 971 ∧ (Zpos m < 2 ^ 52 → e = -1074))%Z.
Proof.
  cbn. unfold bounded, canonical_mantissa, fexp, SpecFloat.emin. intros [Hc He]%andb_prop.
  apply Zeq_bool_eq in Hc. apply Zle_bool_imp_le in He.
  pose proof (digits2_pos_bounds m) as [Hlo Hhi]. set (d := Zpos (digits2_pos m)) in *.
  assert (Hd : (d ≤ 53)%Z) by lia.
  assert (2 ^ d ≤ 2 ^ 53)%Z by (apply Z.pow_le_mono_r; lia).
  split; [lia|]. split; [lia|]. intros Hm. destruct (decide (d = 53%Z)) as [Hd'|]; [|lia].
  rewrite Hd' in Hlo. change (53 - 1)%Z with 52%Z in Hlo. lia.
Qed.

Lemma f64_bits_split s r :
  (0 ≤ r < 2 ^ 63)%Z →
  ((2 ^ 63 <=? sign_bit s + r)%Z = s ∧ (sign_bit s + r) mod 2 ^ 63 = r ∧
   0 ≤ sign_bit s + r < 2 ^ 64)%Z.
Proof.
  intros Hr. unfold sign_bit. destruct s.
  - split; [apply Z.leb_le; lia|]. split; [|lia].
    rewrite Z.add_comm, <-(Z.mul_1_l (2 ^ 63)) at 1. rewrite Z.mod_add, Z.mod_small; lia.
  - split; [apply Z.leb_gt; lia|]. rewrite Z.add_0_l, Z.mod_small; lia.
Qed.

Lemma f64_of_to_bits f :
  valid_binary 53 1024 f = true → f64_of_bits (f64_to_bits f) = f ∧ (0 ≤ f64_to_bits f < 2 ^ 64)%Z.
Proof.
  intros Hv. destruct f as [s|s| |s m e].
  - by destruct s; vm_compute.
  - by destruct s; vm_compute.
  - by vm_compute.
  - apply valid_finite in Hv as (Hm & He & Hsub). cbn [f64_to_bits]. unfold f64_of_bits.
    destruct (Z.ltb_spec (Zpos m) (2 ^ 52)) as [Hlt|Hge].
    + destruct (f64_bits_split s (Zpos m) ltac:(lia)) as (-> & -> & ?). split; [|done].
      rewrite Z.div_small, Z.mod_small by lia. by rewrite (Hsub Hlt).
    + rewrite <-Z.add_assoc. set (r := ((e + 1075) * 2 ^ 52 + (Zpos m - 2 ^ 52))%Z).
      destruct (f64_bits_split s r ltac:(lia)) as (-> & -> & ?). split; [|done].
      assert (r / 2 ^ 52 = e + 1075 ∧ r mod 2 ^ 52 = Zpos m - 2 ^ 52)%Z as [-> ->].
      { unfold r. rewrite Z.add_comm. split.
        - rewrite Z.div_add, Z.div_small by lia. lia.
        - rewrite Z.mod_add, Z.mod_small by lia. lia. }
      destruct (Z.eqb_spec (e + 1075) 2047); [lia|]. destruct (Z.eqb_spec (e + 1075) 0); [lia|].
      rewrite Z.sub_add. f_equal. lia.
Qed.

Definition value_ok (v : FuzzValue) : Prop :=
  match v with
  | FuzzValue_I64 i => (- 2 ^ 63 ≤ i < 2 ^ 63)%Z
  | FuzzValue_F64 f => valid_binary 53 1024 f = true
  | FuzzValue_Str s => str_ok s
  | _ => True
  end.

Definition props_ok (ps : list (string * FuzzValue)) : Prop :=
  (Z.of_nat (length ps) < 2 ^ 32)%Z ∧ Forall (λ kv, str_ok kv.1 ∧ value_ok kv.2) ps.

Definition op_ok (op : FuzzOp) : Prop :=
  match op with
  | FuzzOp_UpsertNode k ls ps =>
      str_ok k ∧ ((Z.of_nat (length ls) < 2 ^ 32)%Z ∧ Forall str_ok ls) ∧ props_ok ps
  | FuzzOp_UpsertEdge a b c ps => str_ok a ∧ str_ok b ∧ str_ok c ∧ props_ok ps
  | FuzzOp_DeleteNode k => str_ok k
  | FuzzOp_DeleteEdge a b c | FuzzOp_TreeMove a b c => str_ok a ∧ str_ok b ∧ str_ok c
  end.

Lemma reads_value v : value_ok v → reads dec_value (enc_fuzz_value v) v.
Proof.
  intros Hv rest. unfold dec_value. destruct v as [|b|i|f|s]; cbn [enc_fuzz_value value_ok] in *;
    rewrite <-?(assoc_L (++)), reads_u8 by lia; cbn -[dec_uint to_le_bytes enc_u8].
  - done.
  - rewrite reads_u8 by (destruct b; lia). by destruct b.
  - rewrite (reads_uint 8).
    + cbn. do 3 f_equal. unfold i64_of_bits, u64_wrap.
      destruct (decide (0 ≤ i)%Z) as [Hi|Hi].
      * rewrite Z.mod_small by lia. by rewrite (proj2 (Z.ltb_lt _ _)) by lia.
      * rewrite <-(Z.mod_add i 1), Z.mul_1_l, Z.mod_small by lia.
        rewrite (proj2 (Z.ltb_ge _ _)) by lia. lia.
    + change (256 ^ Z.of_nat 8)%Z with (2 ^ 64)%Z. apply Z.mod_pos_bound. lia.
  - destruct (f64_of_to_bits f Hv) as [Hf Hr]. rewrite (reads_uint 8) by done. cbn. by rewrite Hf.
  - by rewrite (reads_string s Hv).
Qed.

Lemma reads_props ps : props_ok ps → reads (dec_list dec_property) (enc_properties ps) ps.
Proof.
  intros [Hn Hps]. unfold enc_properties. apply reads_list; [done|].
  eapply Forall_impl; [exact Hps|]. intros [k v] [Hk Hv] rest. cbn in Hk, Hv |- *. unfold dec_property.
  rewrite <-(assoc_L (++)), (reads_string k Hk). cbn. by rewrite (reads_value v Hv).
Qed.

Lemma reads_op op : op_ok op → reads dec_op (enc_fuzz_op op) op.
Proof.
  intros Hop rest. unfold dec_op. destruct op as [k ls ps|a b c ps|k|a b c|a b c];
    cbn [enc_fuzz_op op_ok] in *; rewrite <-?(assoc_L (++)), reads_u8 by lia; cbn -[dec_list].
  - destruct Hop as (Hk & [Hn Hls] & Hps). rewrite (reads_string k Hk). cbn -[dec_list].
    rewrite (assoc_L (++)), (reads_list dec_string enc_string ls Hn).
    + cbn -[dec_list]. by rewrite (reads_props ps Hps).
    + eapply Forall_impl; [exact Hls|]. intros s. apply reads_string.
  - destruct Hop as (Ha & Hb & Hc & Hps). rewrite (reads_string a Ha). cbn -[dec_list].
    rewrite (reads_string b Hb). cbn -[dec_list]. rewrite (reads_string c Hc). cbn -[dec_list].
    by rewrite (reads_props ps Hps).
  - by rewrite (reads_string k Hop).
  - destruct Hop as (Ha & Hb & Hc). rewrite (reads_string a Ha). cbn.
    rewrite (reads_string b Hb). cbn. by rewrite (reads_string c Hc).
  - destruct Hop as (Ha & Hb & Hc). rewrite (reads_string a Ha). cbn.
    rewrite (reads_string b Hb). cbn. by rewrite (reads_string c Hc).
Qed.

(** A seed of fewer than 256 operations is read back exactly: the encoding
    of every operation, value, string and float is prefix-free, so the seed, the
    operations in order and with their properties in order, and the two knobs
    are recovered from the bytes and the count in the last of them. *)
Lemma fuzz_input_roundtrip (seed : Z) (ops : list FuzzOp) (peers bail : Z)
  (Hseed : is_u64 seed) (Hops : Forall op_ok ops) (Hlen : length ops < 256)
  (Hpeers : (0 ≤ peers < 256)%Z) (Hbail : (0 ≤ bail < 65536)%Z) :
  dec_input (enc_fuzz_input seed ops peers bail) = Some (seed, ops, peers, bail).
Proof.
  unfold dec_input, enc_fuzz_input. rewrite !(assoc_L (++)), last_snoc, removelast_last. cbn.
  rewrite Z_of_byte_of_Z, Z.mod_mod, Z.mod_small, Nat2Z.id by lia. rewrite <-!(assoc_L (++)).
  unfold enc_u64. rewrite (reads_uint 8).
  2: { change (256 ^ Z.of_nat 8)%Z with (2 ^ 64)%Z. unfold is_u64, U64_MAX in Hseed. lia. }
  cbn -[dec_uint to_le_bytes]. rewrite (reads_count dec_op enc_fuzz_op ops).
  2: { eapply Forall_impl; [exact Hops|]. intros op. apply reads_op. }
  cbn -[dec_uint to_le_bytes enc_u8]. rewrite (reads_u8 peers Hpeers).
  cbn -[dec_uint to_le_bytes]. unfold enc_u16. rewrite <-(app_nil_r (to_le_bytes 2 bail)).
  by rewrite (reads_uint 2 bail) by (change (256 ^ Z.of_nat 2)%Z with 65536%Z; lia).
Qed.

Lemma fuzz_input_roundtrip_witness :
  dec_input seed_all_variants = Some (99, all_variants_ops, 1, 100)%Z.
Proof.
  apply fuzz_input_roundtrip; [unfold is_u64, U64_MAX; lia| |cbn; lia|lia|lia].
  repeat constructor; cbn; unfold str_ok; cbn; try lia; repeat constructor; cbn; unfold str_ok; cbn; lia.
Defined.

(** The count is taken modulo 256: the batch of 256 operations is written with
    the count 0, and read back without one. *)
Example large_batch_has_no_operations :
  last seed_large_batch = Some x00 ∧ length large_ops = 256 ∧ dec_input seed_large_batch = None.
Proof. vm_compute. done. Qed.
