(* ===== verification/BridgeMaps.v ===== *)
(** * Bridge id maps ([src/bridge/grafeo_tx.rs])

    The four lookup tables between Loro keys and grafeo ids, their operations
    and the bijection check of invariant I11.  Each table sits behind its own
    lock; the definitions give the tables after a whole operation. *)

From S2P Require Import Prelude Types.

(** [(src_loro_key, dst_loro_key, label)]. *)
Notation EdgeKey := (string * string * string)%type (only parsing).

Record BridgeMaps : Type := mkBridgeMaps {
  node_id_map : gmap string NodeId;
  node_key_map : gmap NodeId string;
  edge_id_map : gmap EdgeKey EdgeId;
  edge_key_map : gmap EdgeId EdgeKey
}.

Definition BridgeMaps_new : BridgeMaps := mkBridgeMaps ∅ ∅ ∅ ∅.

Definition BridgeMaps_insert_node (m : BridgeMaps) (loro_key : string) (id : NodeId) : BridgeMaps :=
  {| node_id_map := <[loro_key:=id]> (node_id_map m);
     node_key_map := <[id:=loro_key]> (node_key_map m);
     edge_id_map := edge_id_map m; edge_key_map := edge_key_map m |}.

Definition BridgeMaps_remove_node (m : BridgeMaps) (loro_key : string) :
    option NodeId * BridgeMaps :=
  match node_id_map m !! loro_key with
  | None => (None, m)
  | Some id =>
      (Some id, {| node_id_map := delete loro_key (node_id_map m);
                   node_key_map := delete id (node_key_map m);
                   edge_id_map := edge_id_map m; edge_key_map := edge_key_map m |})
  end.

Definition BridgeMaps_insert_edge (m : BridgeMaps) (key : EdgeKey) (id : EdgeId) : BridgeMaps :=
  {| node_id_map := node_id_map m; node_key_map := node_key_map m;
     edge_id_map := <[key:=id]> (edge_id_map m);
     edge_key_map := <[id:=key]> (edge_key_map m) |}.

Definition BridgeMaps_remove_edge (m : BridgeMaps) (key : EdgeKey) : option EdgeId * BridgeMaps :=
  match edge_id_map m !! key with
  | None => (None, m)
  | Some id =>
      (Some id, {| node_id_map := node_id_map m; node_key_map := node_key_map m;
                   edge_id_map := delete key (edge_id_map m);
                   edge_key_map := delete id (edge_key_map m) |})
  end.

Definition BridgeMaps_remove_edge_by_id (m : BridgeMaps) (id : EdgeId) :
    option EdgeKey * BridgeMaps :=
  match edge_key_map m !! id with
  | None => (None, m)
  | Some key =>
      (Some key, {| node_id_map := node_id_map m; node_key_map := node_key_map m;
                    edge_id_map := delete key (edge_id_map m);
                    edge_key_map := delete id (edge_key_map m) |})
  end.

(** ** The bijection check *)

Inductive BijectionError : Type :=
| MissingInverse (loro_key : string) (id : NodeId)
| MissingForward (loro_key : string) (id : NodeId)
| DuplicateId (id : NodeId) (key_a key_b : string)
| DuplicateKey (loro_key : string) (id_a id_b : NodeId).

(** Check 1: the loop over the forward entries. *)
Fixpoint check_forward (inverse : gmap NodeId string) (l : list (string * NodeId)) :
    result BijectionError unit :=
  match l with
  | [] => Ok tt
  | (loro_key, id) :: l =>
      match inverse !! id with
      | Some inv_key =>
          if bool_decide (inv_key = loro_key) then check_forward inverse l
          else Err (DuplicateId id loro_key inv_key)
      | None => Err (MissingInverse loro_key id)
      end
  end.

(** Check 2: the loop over the inverse entries. *)
Fixpoint check_inverse (forward : gmap string NodeId) (l : list (NodeId * string)) :
    result BijectionError unit :=
  match l with
  | [] => Ok tt
  | (id, loro_key) :: l =>
      match forward !! loro_key with
      | Some fwd_id =>
          if bool_decide (fwd_id = id) then check_inverse forward l
          else Err (DuplicateKey loro_key id fwd_id)
      | None => Err (MissingForward loro_key id)
      end
  end.

(** [fwd] and [inv] are the orders in which the two maps are iterated. *)
Definition validate_text_bijection (fwd : list (string * NodeId)) (inv : list (NodeId * string))
    (maps : BridgeMaps) : result BijectionError unit :=
  match check_forward (node_key_map maps) fwd with
  | Err e => Err e
  | Ok _ => check_inverse (node_id_map maps) inv
  end.

(** ** Bijectivity *)

(** Two finite maps that are inverse to each other. *)
Definition inverse_maps {A B} `{Countable A, Countable B} (f : gmap A B) (g : gmap B A) : Prop :=
  ∀ a b, f !! a = Some b ↔ g !! b = Some a.

Definition nodes_bijective (m : BridgeMaps) : Prop := inverse_maps (node_id_map m) (node_key_map m).
Definition edges_bijective (m : BridgeMaps) : Prop := inverse_maps (edge_id_map m) (edge_key_map m).

(** What an error of the check claims of the maps. *)
Definition BijectionError_holds (m : BridgeMaps) (e : BijectionError) : Prop :=
  match e with
  | MissingInverse k i => node_id_map m !! k = Some i ∧ node_key_map m !! i = None
  | MissingForward k i => node_key_map m !! i = Some k ∧ node_id_map m !! k = None
  | DuplicateId i ka kb => node_id_map m !! ka = Some i ∧ node_key_map m !! i = Some kb ∧ ka ≠ kb
  | DuplicateKey k ia ib => node_key_map m !! ia = Some k ∧ node_id_map m !! k = Some ib ∧ ia ≠ ib
  end.

Section inverse_maps_laws.
  Context {A B : Type} `{Countable A} `{Countable B}.
  Implicit Types (f : gmap A B) (g : gmap B A).

Lemma inverse_maps_empty : inverse_maps (∅ : gmap A B) ∅.
Proof. intros a b. by rewrite !lookup_empty. Qed.

Lemma inverse_maps_inj f g a1 a2 b :
  inverse_maps f g → f !! a1 = Some b → f !! a2 = Some b → a1 = a2.
Proof. intros Hfg H1%Hfg H2%Hfg. congruence. Qed.

Lemma inverse_maps_delete f g a b :
  inverse_maps f g → f !! a = Some b → inverse_maps (delete a f) (delete b g).
Proof.
  intros Hfg Hab x y. rewrite !lookup_delete_Some, (Hfg x y). apply Hfg in Hab.
  split; intros [Hne Hxy]; (split; [|done]); intros ->; [congruence|].
  apply Hfg in Hxy. apply Hfg in Hab. congruence.
Qed.

(** Overwriting insertion keeps bijectivity exactly when neither side is bound
    to something else. *)
Lemma inverse_maps_insert_iff f g a b :
  inverse_maps f g →
  inverse_maps (<[a:=b]> f) (<[b:=a]> g) ↔ (f !! a = Some b ∨ f !! a = None ∧ g !! b = None).
Proof.
  intros Hfg. split.
  - intros Hi. destruct (f !! a) as [b'|] eqn:Ha.
    + left. destruct (decide (b' = b)) as [->|Hne]; [done|].
      apply Hfg in Ha. assert (<[b:=a]> g !! b' = Some a) as Hb%Hi
        by (by rewrite lookup_insert_ne).
      rewrite lookup_insert_eq in Hb. congruence.
    + right. split; [done|]. destruct (g !! b) as [a'|] eqn:Hb; [|done].
      apply Hfg in Hb. destruct (decide (a' = a)) as [->|Hne]; [congruence|].
      assert (<[a:=b]> f !! a' = Some b) as Hc%Hi by (by rewrite lookup_insert_ne).
      rewrite lookup_insert_eq in Hc. congruence.
  - intros [Hab|[Ha Hb]] x y; rewrite !lookup_insert; specialize (Hfg x y) as Hxy.
    + pose proof (proj1 (Hfg _ _) Hab) as Hba.
      repeat case_decide; subst; try done; rewrite ?Hxy; naive_solver.
    + repeat case_decide; subst; try done; rewrite ?Hxy; naive_solver.
Qed.

Lemma inverse_maps_insert f g a b :
  inverse_maps f g → f !! a = None → g !! b = None → inverse_maps (<[a:=b]> f) (<[b:=a]> g).
Proof. intros Hfg ??. apply inverse_maps_insert_iff; auto. Qed.
End inverse_maps_laws.

Lemma check_forward_spec g l :
  match check_forward g l with
  | Ok _ => ∀ k i, (k, i) ∈ l → g !! i = Some k
  | Err (MissingInverse k i) => (k, i) ∈ l ∧ g !! i = None
  | Err (DuplicateId i ka kb) => (ka, i) ∈ l ∧ g !! i = Some kb ∧ ka ≠ kb
  | Err _ => False
  end.
Proof.
  induction l as [|[k i] l IH]; cbn; [intros ?? []%not_elem_of_nil|].
  destruct (g !! i) as [k'|] eqn:Hi; [|by split; [left|]].
  case_bool_decide; subst.
  - destruct (check_forward g l) as [[]|[]]; try done; [|set_solver..].
    intros ? ? [[= -> ->]|?]%elem_of_cons; auto.
  - split; [left|]. done.
Qed.

Lemma check_inverse_spec f l :
  match check_inverse f l with
  | Ok _ => ∀ i k, (i, k) ∈ l → f !! k = Some i
  | Err (MissingForward k i) => (i, k) ∈ l ∧ f !! k = None
  | Err (DuplicateKey k ia ib) => (ia, k) ∈ l ∧ f !! k = Some ib ∧ ia ≠ ib
  | Err _ => False
  end.
Proof.
  induction l as [|[i k] l IH]; cbn; [intros ?? []%not_elem_of_nil|].
  destruct (f !! k) as [i'|] eqn:Hi; [|by split; [left|]].
  case_bool_decide; subst.
  - destruct (check_inverse f l) as [[]|[]]; try done; [|set_solver..].
    intros ? ? [[= -> ->]|?]%elem_of_cons; auto.
  - split; [left|]. done.
Qed.

(** Whatever order the hash maps are iterated in, the I11 check answers
    [Ok] exactly on bijective node maps, and an error it returns describes a
    real disagreement of the two maps. *)
Lemma validate_text_bijection_correct (maps : BridgeMaps)
  (fwd : list (string * NodeId)) (inv : list (NodeId * string))
  (Hfwd : enumerates fwd (node_id_map maps)) (Hinv : enumerates inv (node_key_map maps)) :
  match validate_text_bijection fwd inv maps with
  | Ok _ => nodes_bijective maps
  | Err e => BijectionError_holds maps e ∧ ¬ nodes_bijective maps
  end.
Proof.
  unfold validate_text_bijection, nodes_bijective, inverse_maps.
  pose proof (check_forward_spec (node_key_map maps) fwd) as H1.
  pose proof (check_inverse_spec (node_id_map maps) inv) as H2.
  assert (Hf := λ k i, enumerates_lookup _ _ k i Hfwd).
  assert (Hi := λ i k, enumerates_lookup _ _ i k Hinv).
  destruct (check_forward _ _) as [[]|[]]; cbn; try done.
  - assert (Hfi : ∀ k i, node_id_map maps !! k = Some i → node_key_map maps !! i = Some k).
    { intros k i Hk. by apply H1, Hf. }
    destruct (check_inverse _ _) as [[]|[]]; cbn; try done.
    + intros k i. split; [apply Hfi|]. intros Hk. by apply H2, Hi.
    + rewrite Hi in H2. split; [done|]. naive_solver.
    + rewrite Hi in H2. split; [done|]. naive_solver.
  - rewrite Hf in H1. split; [done|]. naive_solver.
  - rewrite Hf in H1. split; [done|]. naive_solver.
Qed.

Lemma validate_text_bijection_correct_witness :
  let maps := BridgeMaps_insert_node (BridgeMaps_insert_node BridgeMaps_new "k1" (mkNodeId 1))
    "k2" (mkNodeId 1) in
  match validate_text_bijection [("k1", mkNodeId 1); ("k2", mkNodeId 1)]%string
    [(mkNodeId 1, "k2"%string)] maps with
  | Ok _ => nodes_bijective maps
  | Err e => BijectionError_holds maps e ∧ ¬ nodes_bijective maps
  end.
Proof.
  apply (validate_text_bijection_correct
    (BridgeMaps_insert_node (BridgeMaps_insert_node BridgeMaps_new "k1" (mkNodeId 1))
      "k2" (mkNodeId 1))%string);
    red; vm_compute; repeat constructor.
Defined.

(** C22: recording a node binding keeps the maps bijective exactly when the pair
    is already recorded or both the key and the id are free, recording an edge
    binding likewise, and removals by key or by id always keep both pairs of
    maps bijective and leave the removed key and id unbound. *)
Theorem BridgeMaps_operations_bijective (m : BridgeMaps) (k : string) (i : NodeId)
  (ek : EdgeKey) (ei : EdgeId) (Hn : nodes_bijective m) (He : edges_bijective m) :
  (nodes_bijective (BridgeMaps_insert_node m k i) ↔
     node_id_map m !! k = Some i ∨ node_id_map m !! k = None ∧ node_key_map m !! i = None) ∧
  (edges_bijective (BridgeMaps_insert_edge m ek ei) ↔
     edge_id_map m !! ek = Some ei ∨ edge_id_map m !! ek = None ∧ edge_key_map m !! ei = None) ∧
  (let '(r, m') := BridgeMaps_remove_node m k in
   nodes_bijective m' ∧ r = node_id_map m !! k ∧ node_id_map m' !! k = None ∧
   ∀ j, r = Some j → node_key_map m' !! j = None) ∧
  (let '(r, m') := BridgeMaps_remove_edge m ek in
   edges_bijective m' ∧ r = edge_id_map m !! ek ∧ edge_id_map m' !! ek = None ∧
   ∀ j, r = Some j → edge_key_map m' !! j = None) ∧
  (let '(r, m') := BridgeMaps_remove_edge_by_id m ei in
   edges_bijective m' ∧ r = edge_key_map m !! ei ∧ edge_key_map m' !! ei = None ∧
   ∀ j, r = Some j → edge_id_map m' !! j = None).
Proof.
  split; [by apply inverse_maps_insert_iff|]. split; [by apply inverse_maps_insert_iff|].
  unfold BridgeMaps_remove_node, BridgeMaps_remove_edge, BridgeMaps_remove_edge_by_id.
  unfold nodes_bijective, edges_bijective in *. split_and!.
  - destruct (node_id_map m !! k) eqn:E; cbn; [|done]. split_and!; [|done|apply lookup_delete_eq|].
    + by apply inverse_maps_delete.
    + intros ? [= <-]. apply lookup_delete_eq.
  - destruct (edge_id_map m !! ek) eqn:E; cbn; [|done]. split_and!; [|done|apply lookup_delete_eq|].
    + by apply inverse_maps_delete.
    + intros ? [= <-]. apply lookup_delete_eq.
  - destruct (edge_key_map m !! ei) eqn:E; cbn; [|done]. split_and!; [|done|apply lookup_delete_eq|].
    + apply He in E. by apply inverse_maps_delete.
    + intros ? [= <-]. apply lookup_delete_eq.
Qed.

Lemma BridgeMaps_operations_bijective_witness :
  let m := mkBridgeMaps {["k" := mkNodeId 1]} {[mkNodeId 1 := "k"]} ∅ ∅ in
  nodes_bijective (BridgeMaps_insert_node m "k" (mkNodeId 1)) ∧
  ¬ nodes_bijective (BridgeMaps_insert_node m "k" (mkNodeId 2)).
Proof.
  assert (Hn : nodes_bijective (mkBridgeMaps {["k" := mkNodeId 1]} {[mkNodeId 1 := "k"]} ∅ ∅)).
  { intros a b. cbn. rewrite !lookup_singleton_Some. naive_solver. }
  assert (He : edges_bijective (mkBridgeMaps {["k" := mkNodeId 1]} {[mkNodeId 1 := "k"]} ∅ ∅)).
  { apply inverse_maps_empty. }
  split.
  - apply (BridgeMaps_operations_bijective _ "k" (mkNodeId 1) ("a", "b", "c") (mkEdgeId 0) Hn He).
    left; reflexivity.
  - intros H.
    apply (BridgeMaps_operations_bijective _ "k" (mkNodeId 2) ("a", "b", "c") (mkEdgeId 0) Hn He) in H.
    destruct H as [H|[H _]]; vm_compute in H; discriminate.
Defined.
