(* ===== verification/GrafeoTx.v ===== *)
(** * Applying Loro operations to the graph ([src/bridge/grafeo_tx.rs])

    [GrafeoSession] is the part of [grafeo::Session] the crate calls (grafeo is
    not under [src/]): an interface over an arbitrary session state.
    [GrafeoLaws] is what the bridge relies on of it.  The translator
    [apply_loro_op] threads the session and the bridge maps, and refines an
    abstract graph whose vertices and edges are named by Loro keys. *)

From S2P Require Import Prelude Types Values BridgeMaps.

(** ** The session interface *)

Class GrafeoSession (S : Type) : Type := {
  create_node_with_props : list string → list (string * GrafeoValue) → SE S string NodeId;
  set_node_property : NodeId → string → GrafeoValue → SE S string unit;
  delete_node : NodeId → S → S;
  create_edge_with_props :
    NodeId → NodeId → string → list (string * GrafeoValue) → SE S string EdgeId;
  set_edge_property : EdgeId → string → GrafeoValue → SE S string unit;
  create_edge : NodeId → NodeId → string → S → EdgeId * S;
  delete_edge : EdgeId → S → S;
  node_exists : S → NodeId → bool;
  get_neighbors_incoming : S → NodeId → list (NodeId * EdgeId);
  get_neighbors_outgoing_by_type : S → NodeId → string → list (NodeId * EdgeId)
}.

(** The order in which a [HashMap] of properties is iterated. *)
Class HashOrder : Type := {
  hash_iter {V} : gmap string V → list (string * V);
  hash_iter_enumerates {V} (m : gmap string V) : enumerates (hash_iter m) m
}.

#[export] Instance map_to_list_order : HashOrder :=
  {| hash_iter V m := map_to_list m; hash_iter_enumerates V m := reflexivity _ |}.

(** ** The translator *)

Record TxState (S : Type) : Type := mkTxState { tx_session : S; tx_maps : BridgeMaps }.
Arguments mkTxState {S}.
Arguments tx_session {S}.
Arguments tx_maps {S}.

Section translator.
  Context {S : Type} `{GrafeoSession S} `{HashOrder}.
  Notation M := (SE (TxState S) GrafeoLoroError).

(** A session call inside the transaction; [?] converts its error. *)
Definition session_call {A} (f : SE S string A) : M A := λ st,
  let '(r, s') := f (tx_session st) in (map_err EGrafeo r, mkTxState s' (tx_maps st)).

Definition session_run {A} (f : S → A * S) : M A := λ st,
  let '(a, s') := f (tx_session st) in (Ok a, mkTxState s' (tx_maps st)).

Definition session_do (f : S → S) : M unit := λ st,
  (Ok tt, mkTxState (f (tx_session st)) (tx_maps st)).

Definition maps_do {A} (f : BridgeMaps → A * BridgeMaps) : M A := λ st,
  let '(a, m') := f (tx_maps st) in (Ok a, mkTxState (tx_session st) m').

Definition maps_get : M BridgeMaps := λ st, (Ok (tx_maps st), st).

Definition apply_upsert_node (loro_key : string) (labels : list string)
    (properties : gmap string GraphValue) : M unit :=
  maps ← maps_get;
  match node_id_map maps !! loro_key with
  | Some id =>
      SE_for (hash_iter properties) (λ '(k, v),
        session_call (set_node_property id k (gval_to_grafeo_value v)))
  | None =>
      id ← session_call (create_node_with_props labels
             (prod_map id gval_to_grafeo_value <$> hash_iter properties));
      maps_do (λ m, (tt, BridgeMaps_insert_node m loro_key id))
  end.

Definition unknown_keys_error (src_key dst_key : string) : GrafeoLoroError :=
  EBridge ("unknown node key(s): src=" +:+ dquote src_key +:+ " dst=" +:+ dquote dst_key).

Definition apply_upsert_edge (src_key dst_key label : string)
    (properties : gmap string GraphValue) : M unit :=
  maps ← maps_get;
  match node_id_map maps !! src_key, node_id_map maps !! dst_key with
  | Some src_id, Some dst_id =>
      match edge_id_map maps !! (src_key, dst_key, label) with
      | Some eid =>
          SE_for (hash_iter properties) (λ '(k, v),
            session_call (set_edge_property eid k (gval_to_grafeo_value v)))
      | None =>
          eid ← session_call (create_edge_with_props src_id dst_id label
                  (prod_map id gval_to_grafeo_value <$> hash_iter properties));
          maps_do (λ m, (tt, BridgeMaps_insert_edge m (src_key, dst_key, label) eid))
      end
  | _, _ => SE_throw (unknown_keys_error src_key dst_key)
  end.

Definition apply_tree_move (node_key old_parent_key new_parent_key : string) : M unit :=
  maps ← maps_get;
  match node_id_map maps !! node_key with
  | None => mret tt
  | Some node_id =>
      match node_id_map maps !! new_parent_key with
      | None => mret tt
      | Some new_parent_id =>
          removed ← maps_do (λ m,
            BridgeMaps_remove_edge m (old_parent_key, node_key, TREE_EDGE_LABEL));
          _ ← (match removed with
               | Some eid => session_do (delete_edge eid)
               | None => mret tt
               end : M unit);
          maps' ← maps_get;
          match edge_id_map maps' !! (new_parent_key, node_key, TREE_EDGE_LABEL) with
          | Some _ => mret tt
          | None =>
              eid ← session_run (create_edge new_parent_id node_id TREE_EDGE_LABEL);
              maps_do (λ m,
                (tt, BridgeMaps_insert_edge m (new_parent_key, node_key, TREE_EDGE_LABEL) eid))
          end
      end
  end.

Definition apply_loro_op (op : LoroOp) : M unit :=
  match op with
  | UpsertNode loro_key labels properties => apply_upsert_node loro_key labels properties
  | UpsertEdge src_key dst_key label properties =>
      apply_upsert_edge src_key dst_key label properties
  | DeleteNode loro_key =>
      removed ← maps_do (λ m, BridgeMaps_remove_node m loro_key);
      match removed with
      | Some id => session_do (delete_node id)
      | None => mret tt
      end
  | DeleteEdge src_key dst_key label =>
      removed ← maps_do (λ m, BridgeMaps_remove_edge m (src_key, dst_key, label));
      match removed with
      | Some id => session_do (delete_edge id)
      | None => mret tt
      end
  | TreeMove node_key old_parent_key new_parent_key =>
      apply_tree_move node_key old_parent_key new_parent_key
  end.

(** The [for op in ops] loop of a flush. *)
Definition apply_loro_ops (ops : list LoroOp) : M unit := SE_for ops apply_loro_op.

(** Deleting a vertex that is already gone, deleting an edge that is not
    bound and moving an unknown vertex or to an unknown parent are no-ops that
    succeed and leave session and maps untouched; deleting twice is deleting
    once. *)
Lemma idempotent_deletes (k s d l n old new : string) (st : TxState S) :
  (node_id_map (tx_maps st) !! k = None → apply_loro_op (DeleteNode k) st = (Ok tt, st)) ∧
  (edge_id_map (tx_maps st) !! (s, d, l) = None →
     apply_loro_op (DeleteEdge s d l) st = (Ok tt, st)) ∧
  (node_id_map (tx_maps st) !! n = None ∨ node_id_map (tx_maps st) !! new = None →
     apply_loro_op (TreeMove n old new) st = (Ok tt, st)) ∧
  apply_loro_ops [DeleteNode k; DeleteNode k] st = apply_loro_ops [DeleteNode k] st ∧
  apply_loro_ops [DeleteEdge s d l; DeleteEdge s d l] st = apply_loro_ops [DeleteEdge s d l] st.
Proof.
  assert (Hk : ∀ k st, node_id_map (tx_maps st) !! k = None →
    apply_loro_op (DeleteNode k) st = (Ok tt, st)).
  { intros k' [s' m] Hk. cbn in *. unfold maps_do, mbind, SE_bind, BridgeMaps_remove_node.
    cbn. by rewrite Hk. }
  assert (He : ∀ s d l st, edge_id_map (tx_maps st) !! (s, d, l) = None →
    apply_loro_op (DeleteEdge s d l) st = (Ok tt, st)).
  { intros s' d' l' [t m] He. cbn in *. unfold maps_do, mbind, SE_bind, BridgeMaps_remove_edge.
    cbn. by rewrite He. }
  split; [apply Hk|]. split; [apply He|]. split.
  { intros Hor. cbn. unfold apply_tree_move, maps_get, mbind, SE_bind. cbn.
    destruct Hor as [->| ->]; [done|]. by destruct (node_id_map _ !! n). }
  split; unfold apply_loro_ops; cbn [SE_for].
  - unfold mbind at 1, SE_bind at 1. unfold mbind at 2, SE_bind at 2.
    destruct (apply_loro_op (DeleteNode k) st) as [[[]|e] st'] eqn:E; [|done].
    unfold mbind, SE_bind. rewrite Hk; [done|]. revert E. cbn.
    unfold maps_do, mbind, SE_bind, BridgeMaps_remove_node.
    destruct (node_id_map (tx_maps st) !! k) eqn:Ek; cbn; intros [= <-]; [|done].
    apply lookup_delete_eq.
  - unfold mbind at 1, SE_bind at 1. unfold mbind at 2, SE_bind at 2.
    destruct (apply_loro_op (DeleteEdge s d l) st) as [[[]|e] st'] eqn:E; [|done].
    unfold mbind, SE_bind. rewrite He; [done|]. revert E. cbn.
    unfold maps_do, mbind, SE_bind, BridgeMaps_remove_edge.
    destruct (edge_id_map (tx_maps st) !! (s, d, l)) eqn:Ek; cbn; intros [= <-]; [|done].
    apply lookup_delete_eq.
Qed.

End translator.

(** ** What the bridge relies on of the session *)

Record EdgeRec : Type := mkEdgeRec {
  er_src : NodeId; er_dst : NodeId; er_label : string; er_props : gmap string GrafeoValue
}.

Record NodeRec : Type := mkNodeRec { nr_labels : list string; nr_props : gmap string GrafeoValue }.

(** The committed-plus-pending graph a session sees, and the ids it ever
    handed out: ids are not reused. *)
Class GrafeoLaws (S : Type) `{GrafeoSession S} : Type := {
  view_nodes : S → gmap NodeId NodeRec;
  view_edges : S → gmap EdgeId EdgeRec;
  used_nodes : S → gset NodeId;
  used_edges : S → gset EdgeId;
  view_nodes_used s : dom (view_nodes s) ⊆ used_nodes s;
  view_edges_used s : dom (view_edges s) ⊆ used_edges s;

  create_node_law labels props s :
    NoDup props.*1 →
    match create_node_with_props labels props s with
    | (Ok id, s') =>
        id ∉ used_nodes s ∧ used_nodes s' = {[id]} ∪ used_nodes s ∧
        used_edges s' = used_edges s ∧ view_edges s' = view_edges s ∧
        view_nodes s' = <[id := mkNodeRec labels (list_to_map props)]> (view_nodes s)
    | (Err _, s') =>
        used_nodes s ⊆ used_nodes s' ∧ used_edges s' = used_edges s ∧
        view_nodes s' = view_nodes s ∧ view_edges s' = view_edges s
    end;
  set_node_property_law id k v s :
    match set_node_property id k v s with
    | (Ok _, s') =>
        used_nodes s' = used_nodes s ∧ used_edges s' = used_edges s ∧
        view_edges s' = view_edges s ∧
        ∃ r, view_nodes s !! id = Some r ∧
             view_nodes s' = <[id := mkNodeRec (nr_labels r) (<[k:=v]> (nr_props r))]> (view_nodes s)
    | (Err _, s') =>
        used_nodes s' = used_nodes s ∧ used_edges s' = used_edges s ∧
        view_nodes s' = view_nodes s ∧ view_edges s' = view_edges s
    end;
  delete_node_law id s :
    let s' := delete_node id s in
    used_nodes s' = used_nodes s ∧ used_edges s' = used_edges s ∧
    view_nodes s' = delete id (view_nodes s) ∧
    (** edges of other vertices stay; what becomes of the incident ones is left open *)
    ∀ e r, er_src r ≠ id → er_dst r ≠ id → view_edges s !! e = Some r →
           view_edges s' !! e = Some r;
  create_edge_with_props_law src dst label props s :
    NoDup props.*1 →
    match create_edge_with_props src dst label props s with
    | (Ok id, s') =>
        id ∉ used_edges s ∧ used_edges s' = {[id]} ∪ used_edges s ∧
        used_nodes s' = used_nodes s ∧ view_nodes s' = view_nodes s ∧
        view_edges s' = <[id := mkEdgeRec src dst label (list_to_map props)]> (view_edges s)
    | (Err _, s') =>
        used_nodes s' = used_nodes s ∧ used_edges s ⊆ used_edges s' ∧
        view_nodes s' = view_nodes s ∧ view_edges s' = view_edges s
    end;
  set_edge_property_law id k v s :
    match set_edge_property id k v s with
    | (Ok _, s') =>
        used_nodes s' = used_nodes s ∧ used_edges s' = used_edges s ∧
        view_nodes s' = view_nodes s ∧
        ∃ r, view_edges s !! id = Some r ∧
             view_edges s' = <[id := mkEdgeRec (er_src r) (er_dst r) (er_label r)
                                       (<[k:=v]> (er_props r))]> (view_edges s)
    | (Err _, s') =>
        used_nodes s' = used_nodes s ∧ used_edges s' = used_edges s ∧
        view_nodes s' = view_nodes s ∧ view_edges s' = view_edges s
    end;
  create_edge_law src dst label s :
    let '(id, s') := create_edge src dst label s in
    id ∉ used_edges s ∧ used_edges s' = {[id]} ∪ used_edges s ∧
    used_nodes s' = used_nodes s ∧ view_nodes s' = view_nodes s ∧
    view_edges s' = <[id := mkEdgeRec src dst label ∅]> (view_edges s);
  delete_edge_law id s :
    let s' := delete_edge id s in
    used_nodes s' = used_nodes s ∧ used_edges s' = used_edges s ∧
    view_nodes s' = view_nodes s ∧ view_edges s' = delete id (view_edges s)
}.
