(* ===== verification/GraphSpec.v ===== *)
(** * The bridge refines a graph named by Loro keys

    [KeyedGraph] is what the inbound bridge promises: vertices named by Loro
    keys and edges by (source, target, label).  [spec_apply] is the effect of
    one operation on it, and [apply_loro_op] with any session that keeps the
    [GrafeoLaws] implements it through the id maps. *)

From S2P Require Import Prelude Types Values BridgeMaps GrafeoTx.

Record KeyedGraph : Type := mkKeyedGraph {
  kg_nodes : gmap string NodeRec;
  kg_edges : gmap EdgeKey (gmap string GrafeoValue)
}.

(** ** The specification *)

Definition conv_props (ps : gmap string GraphValue) : gmap string GrafeoValue :=
  gval_to_grafeo_value <$> ps.

(** Labels are those given when the vertex was created. *)
Definition spec_upsert_node (k : string) (labels : list string) (ps : gmap string GraphValue)
    (g : KeyedGraph) : KeyedGraph :=
  mkKeyedGraph
    (<[k := match kg_nodes g !! k with
            | Some r => mkNodeRec (nr_labels r) (conv_props ps ∪ nr_props r)
            | None => mkNodeRec labels (conv_props ps)
            end]> (kg_nodes g))
    (kg_edges g).

Definition spec_upsert_edge (key : EdgeKey) (ps : gmap string GraphValue) (g : KeyedGraph) :
    KeyedGraph :=
  mkKeyedGraph (kg_nodes g)
    (<[key := conv_props ps ∪ default ∅ (kg_edges g !! key)]> (kg_edges g)).

Definition spec_tree_move (n old new : string) (g : KeyedGraph) : KeyedGraph :=
  match kg_nodes g !! n, kg_nodes g !! new with
  | Some _, Some _ =>
      let es := delete (old, n, TREE_EDGE_LABEL) (kg_edges g) in
      mkKeyedGraph (kg_nodes g)
        (match es !! (new, n, TREE_EDGE_LABEL) with
         | Some _ => es
         | None => <[(new, n, TREE_EDGE_LABEL) := ∅]> es
         end)
  | _, _ => g
  end.

Definition spec_apply (op : LoroOp) (g : KeyedGraph) : Result KeyedGraph :=
  match op with
  | UpsertNode k labels ps => Ok (spec_upsert_node k labels ps g)
  | UpsertEdge s d l ps =>
      match kg_nodes g !! s, kg_nodes g !! d with
      | Some _, Some _ => Ok (spec_upsert_edge (s, d, l) ps g)
      | _, _ => Err (unknown_keys_error s d)
      end
  | DeleteNode k => Ok (mkKeyedGraph (delete k (kg_nodes g)) (kg_edges g))
  | DeleteEdge s d l => Ok (mkKeyedGraph (kg_nodes g) (delete (s, d, l) (kg_edges g)))
  | TreeMove n old new => Ok (spec_tree_move n old new g)
  end.

Fixpoint spec_run (ops : list LoroOp) (g : KeyedGraph) : Result KeyedGraph :=
  match ops with
  | [] => Ok g
  | op :: ops => g' ← spec_apply op g; spec_run ops g'
  end.

(** A vertex is only deleted once the edges at it are: the order in which the
    producer of the operations is expected to emit them. *)
Definition detached (op : LoroOp) (g : KeyedGraph) : Prop :=
  match op with
  | DeleteNode k => map_Forall (λ key _, key.1.1 ≠ k ∧ key.1.2 ≠ k) (kg_edges g)
  | _ => True
  end.

#[export] Instance detached_dec op g : Decision (detached op g).
Proof. destruct op; cbn; apply _. Defined.

Fixpoint detached_run (ops : list LoroOp) (g : KeyedGraph) : Prop :=
  match ops with
  | [] => True
  | op :: ops =>
      detached op g ∧ match spec_apply op g with Ok g' => detached_run ops g' | Err _ => True end
  end.

Lemma spec_run_app l1 l2 g : spec_run (l1 ++ l2) g = (spec_run l1 g ≫= spec_run l2).
Proof.
  revert g. induction l1 as [|op l1 IH]; intros g; [done|]. cbn. unfold mbind, result_bind in *.
  destruct (spec_apply op g); [apply IH|done].
Qed.

Lemma detached_run_app l1 l2 g :
  detached_run (l1 ++ l2) g →
  detached_run l1 g ∧ ∀ g', spec_run l1 g = Ok g' → detached_run l2 g'.
Proof.
  revert g. induction l1 as [|op l1 IH]; intros g; cbn; [by intros ?; split; [|intros ? [= <-]]|].
  intros [Hd Hr]. unfold mbind, result_bind in *. destruct (spec_apply op g); [|done].
  apply IH in Hr as [? ?]. done.
Qed.

#[export] Instance detached_run_dec ops g : Decision (detached_run ops g).
Proof.
  revert g. induction ops as [|op ops IH]; intros g; cbn; [apply _|].
  destruct (spec_apply op g); apply _.
Defined.

(** ** The coupling of maps and session

    Stated over the maps [m] and the graph the session sees, vertices [vn] and
    edges [ve]. *)

Record coupled (m : BridgeMaps) (vn : gmap NodeId NodeRec) (ve : gmap EdgeId EdgeRec) : Prop := {
  c_nodes : nodes_bijective m;
  c_edges : edges_bijective m;
  c_live k id : node_id_map m !! k = Some id → is_Some (vn !! id);
  c_edge s d l e : edge_id_map m !! (s, d, l) = Some e →
    ∃ si di ps, node_id_map m !! s = Some si ∧ node_id_map m !! d = Some di ∧
                ve !! e = Some (mkEdgeRec si di l ps)
}.

Definition abs_nodes (m : BridgeMaps) (vn : gmap NodeId NodeRec) : gmap string NodeRec :=
  omap (λ id, vn !! id) (node_id_map m).
Definition abs_edges (m : BridgeMaps) (ve : gmap EdgeId EdgeRec) :
    gmap EdgeKey (gmap string GrafeoValue) :=
  omap (λ e, er_props <$> ve !! e) (edge_id_map m).
Definition abs_graph (m : BridgeMaps) vn ve : KeyedGraph :=
  mkKeyedGraph (abs_nodes m vn) (abs_edges m ve).

Lemma abs_nodes_lookup m vn k :
  abs_nodes m vn !! k = node_id_map m !! k ≫= λ id, vn !! id.
Proof. apply lookup_omap. Qed.

Lemma abs_edges_lookup m ve key :
  abs_edges m ve !! key = edge_id_map m !! key ≫= λ e, er_props <$> ve !! e.
Proof. apply lookup_omap. Qed.

Section coupling.
  Context (m : BridgeMaps) (vn : gmap NodeId NodeRec) (ve : gmap EdgeId EdgeRec).
  Context (Hc : coupled m vn ve).

Lemma abs_nodes_bound k : is_Some (abs_nodes m vn !! k) ↔ is_Some (node_id_map m !! k).
Proof.
  rewrite abs_nodes_lookup. destruct (node_id_map m !! k) eqn:E; cbn.
  - split; [eauto|intros _; by eapply c_live].
  - done.
Qed.

Lemma abs_edges_bound key : is_Some (abs_edges m ve !! key) ↔ is_Some (edge_id_map m !! key).
Proof.
  rewrite abs_edges_lookup. destruct key as [[s d] l], (edge_id_map m !! (s, d, l)) eqn:E; cbn.
  - destruct (c_edge _ _ _ Hc _ _ _ _ E) as (?&?&?&_&_&->). by split; eauto.
  - done.
Qed.

(** Updating a bound vertex. *)
Lemma coupled_update_node k id r' :
  node_id_map m !! k = Some id →
  coupled m (<[id:=r']> vn) ve ∧ abs_nodes m (<[id:=r']> vn) = <[k:=r']> (abs_nodes m vn).
Proof.
  intros Hk. split.
  - destruct Hc as [Hn He Hl Hed]. split; [done..| |done]. intros k' id' Hk'.
    rewrite lookup_insert. case_decide; [done|by eapply Hl].
  - apply map_eq; intros k'. rewrite lookup_insert, !abs_nodes_lookup. case_decide; subst.
    + rewrite Hk. cbn. by rewrite lookup_insert_eq.
    + destruct (node_id_map m !! k') as [id'|] eqn:E; cbn; [|done].
      rewrite lookup_insert_ne; [done|]. intros ->. destruct Hc as [Hn _ _ _].
      by pose proof (inverse_maps_inj _ _ _ _ _ Hn Hk E).
Qed.

(** Creating a vertex under a fresh id. *)
Lemma coupled_create_node k id r :
  node_id_map m !! k = None → vn !! id = None →
  let m' := BridgeMaps_insert_node m k id in
  coupled m' (<[id:=r]> vn) ve ∧
  abs_graph m' (<[id:=r]> vn) ve = mkKeyedGraph (<[k:=r]> (abs_nodes m vn)) (abs_edges m ve).
Proof.
  intros Hk Hid m'. destruct Hc as [Hn He Hl Hed].
  assert (Hki : node_key_map m !! id = None).
  { destruct (node_key_map m !! id) as [k'|] eqn:E; [|done].
    apply Hn in E. apply Hl in E as [? ?]. congruence. }
  split.
  - split; cbn.
    + by apply inverse_maps_insert.
    + done.
    + intros k' id'. rewrite !lookup_insert. repeat case_decide; eauto; congruence.
    + intros s d l e Hse. destruct (Hed _ _ _ _ Hse) as (si&di&ps&Hs&Hd&Hv).
      exists si, di, ps. rewrite !lookup_insert_ne by congruence. done.
  - unfold abs_graph. f_equal. apply map_eq; intros k'.
    rewrite lookup_insert, !abs_nodes_lookup. cbn. rewrite lookup_insert. case_decide; cbn.
    + by rewrite lookup_insert_eq.
    + destruct (node_id_map m !! k') as [id'|] eqn:E; cbn; [|done].
      rewrite lookup_insert_ne; [done|]. intros ->. apply Hl in E as [? ?]. congruence.
Qed.

(** Creating an edge under a fresh id. *)
Lemma coupled_create_edge s d l si di e ps :
  node_id_map m !! s = Some si → node_id_map m !! d = Some di →
  edge_id_map m !! (s, d, l) = None → ve !! e = None →
  let m' := BridgeMaps_insert_edge m (s, d, l) e in
  let ve' := <[e:=mkEdgeRec si di l ps]> ve in
  coupled m' vn ve' ∧
  abs_graph m' vn ve' = mkKeyedGraph (abs_nodes m vn) (<[(s, d, l):=ps]> (abs_edges m ve)).
Proof.
  intros Hs Hd Hk Hve m' ve'. destruct Hc as [Hn He Hl Hed].
  assert (Hei : edge_key_map m !! e = None).
  { destruct (edge_key_map m !! e) as [[[s' d'] l']|] eqn:E; [|done].
    apply He in E. apply Hed in E as (?&?&?&_&_&?). congruence. }
  split.
  - split; cbn; [done|by apply inverse_maps_insert|done|].
    intros s' d' l' e'. rewrite lookup_insert. case_decide; simplify_eq.
    { intros [= <-]. exists si, di, ps. unfold ve'. by rewrite lookup_insert_eq. }
    intros (si'&di'&ps'&?&?&?)%Hed. exists si', di', ps'.
    unfold ve'. rewrite lookup_insert_ne by congruence. done.
  - unfold abs_graph. f_equal. apply map_eq; intros key.
    rewrite lookup_insert, !abs_edges_lookup. cbn. rewrite lookup_insert. case_decide; cbn.
    + unfold ve'. by rewrite lookup_insert_eq.
    + destruct (edge_id_map m !! key) as [e'|] eqn:E; cbn; [|done].
      unfold ve'. rewrite lookup_insert_ne; [done|]. intros ->. destruct key as [[s' d'] l'].
      apply Hed in E as (?&?&?&_&_&?). congruence.
Qed.

Lemma coupled_update_edge key e r ps :
  edge_id_map m !! key = Some e → ve !! e = Some r →
  let ve' := <[e:=mkEdgeRec (er_src r) (er_dst r) (er_label r) ps]> ve in
  coupled m vn ve' ∧ abs_edges m ve' = <[key:=ps]> (abs_edges m ve).
Proof.
  intros Hk Hr ve'. destruct Hc as [Hn He Hl Hed]. split.
  - split; [done..|]. intros s d l e' (si&di&ps'&?&?&Hv)%Hed. unfold ve'.
    destruct (decide (e' = e)) as [->|]; [|exists si, di, ps'; by rewrite lookup_insert_ne by congruence].
    rewrite lookup_insert_eq. simplify_eq/=. by exists si, di, ps.
  - apply map_eq; intros key'. rewrite lookup_insert, !abs_edges_lookup.
    case_decide; subst; cbn.
    + rewrite Hk. cbn. unfold ve'. by rewrite lookup_insert_eq.
    + destruct (edge_id_map m !! key') as [e'|] eqn:E; cbn; [|done].
      unfold ve'. rewrite lookup_insert_ne; [done|]. intros ->.
      by pose proof (inverse_maps_inj _ _ _ _ _ He Hk E).
Qed.

(** Removing an edge binding and its edge. *)
Lemma coupled_remove_edge key e :
  edge_id_map m !! key = Some e →
  let m' := (BridgeMaps_remove_edge m key).2 in
  coupled m' vn (delete e ve) ∧
  abs_graph m' vn (delete e ve) = mkKeyedGraph (abs_nodes m vn) (delete key (abs_edges m ve)).
Proof.
  intros Hk m'. destruct Hc as [Hn He Hl Hed].
  assert (Hm' : m' = mkBridgeMaps (node_id_map m) (node_key_map m) (delete key (edge_id_map m))
                       (delete e (edge_key_map m))).
  { unfold m', BridgeMaps_remove_edge. by rewrite Hk. }
  assert (Hne : ∀ key' e', key' ≠ key → edge_id_map m !! key' = Some e' → e' ≠ e).
  { intros key' e' Hneq Hk' ->. by apply Hneq, (inverse_maps_inj _ _ _ _ _ He Hk' Hk). }
  rewrite Hm'. split.
  - split; cbn; [done|by apply inverse_maps_delete|done|].
    intros s d l e' [Hneq Hk']%lookup_delete_Some. apply not_eq_sym in Hneq.
    pose proof (Hne _ _ Hneq Hk'). destruct (Hed _ _ _ _ Hk') as (si&di&ps&?&?&?).
    exists si, di, ps. by rewrite lookup_delete_ne by done.
  - unfold abs_graph. f_equal. apply map_eq; intros key'.
    rewrite lookup_delete, !abs_edges_lookup. cbn. rewrite lookup_delete. case_decide; [done|].
    destruct (edge_id_map m !! key') as [e'|] eqn:E; cbn; [|done].
    rewrite lookup_delete_ne; [done|]. apply not_eq_sym, (Hne key'); congruence.
Qed.

(** Deleting a vertex no bound edge touches. *)
Lemma coupled_delete_node k id ve' :
  node_id_map m !! k = Some id →
  map_Forall (λ key _, key.1.1 ≠ k ∧ key.1.2 ≠ k) (abs_edges m ve) →
  (∀ e r, er_src r ≠ id → er_dst r ≠ id → ve !! e = Some r → ve' !! e = Some r) →
  let m' := (BridgeMaps_remove_node m k).2 in
  coupled m' (delete id vn) ve' ∧
  abs_graph m' (delete id vn) ve' = mkKeyedGraph (delete k (abs_nodes m vn)) (abs_edges m ve).
Proof.
  intros Hk Hdet Hkeep m'.
  assert (Hfree : ∀ s d l, is_Some (edge_id_map m !! (s, d, l)) → s ≠ k ∧ d ≠ k).
  { intros s d l H%abs_edges_bound. destruct H as [x Hx]. by apply Hdet in Hx. }
  destruct Hc as [Hn He Hl Hed].
  assert (Hm' : m' = mkBridgeMaps (delete k (node_id_map m)) (delete id (node_key_map m))
                       (edge_id_map m) (edge_key_map m)).
  { unfold m', BridgeMaps_remove_node. by rewrite Hk. }
  assert (Hne : ∀ k' id', k' ≠ k → node_id_map m !! k' = Some id' → id' ≠ id).
  { intros k' id' Hneq Hk' ->. by apply Hneq, (inverse_maps_inj _ _ _ _ _ Hn Hk' Hk). }
  assert (Hedge : ∀ s d l e, edge_id_map m !! (s, d, l) = Some e → ∃ si di ps,
    s ≠ k ∧ d ≠ k ∧ node_id_map m !! s = Some si ∧ node_id_map m !! d = Some di ∧
    ve !! e = Some (mkEdgeRec si di l ps) ∧ ve' !! e = Some (mkEdgeRec si di l ps)).
  { intros s d l e Hs. destruct (Hfree s d l ltac:(eauto)) as [Hsk Hdk].
    destruct (Hed _ _ _ _ Hs) as (si&di&ps&Hsi&Hdi&Hv). exists si, di, ps.
    split_and!; try done. eapply Hkeep; cbn; eauto. }
  rewrite Hm'. split.
  - split; cbn; [by apply inverse_maps_delete|done| |].
    + intros k' id' [Hneq Hk']%lookup_delete_Some. apply not_eq_sym in Hneq.
      rewrite lookup_delete_ne by (apply not_eq_sym; eauto). eauto.
    + intros s d l e (si&di&ps&?&?&?&?&_&?)%Hedge. exists si, di, ps.
      rewrite !lookup_delete_ne by congruence. done.
  - unfold abs_graph. f_equal.
    + apply map_eq; intros k'. rewrite lookup_delete, !abs_nodes_lookup. cbn.
      rewrite lookup_delete. case_decide; [done|].
      destruct (node_id_map m !! k') as [id'|] eqn:E; cbn; [|done].
      rewrite lookup_delete_ne; [done|]. apply not_eq_sym, (Hne k'); congruence.
    + apply map_eq; intros [[s d] l]. rewrite !abs_edges_lookup. cbn.
      destruct (edge_id_map m !! (s, d, l)) as [e|] eqn:E; cbn; [|done].
      destruct (Hedge _ _ _ _ E) as (?&?&?&?&?&?&?&->&->). done.
Qed.
End coupling.

(** ** The session loops *)

Section refinement.
  Context {S : Type} `{GrafeoLaws S} `{HashOrder}.
  Implicit Types st : TxState S.

Lemma hash_iter_conv (ps : gmap string GraphValue) :
  let l := prod_map id gval_to_grafeo_value <$> hash_iter ps in
  NoDup l.*1 ∧ list_to_map l = conv_props ps.
Proof.
  intros l. pose proof (hash_iter_enumerates ps) as He.
  assert (Hfst : l.*1 = (hash_iter ps).*1).
  { unfold l. rewrite <-list_fmap_compose. by apply list_fmap_ext; intros ? []. }
  assert (HND : NoDup (hash_iter ps).*1) by by eapply enumerates_NoDup.
  split; [by rewrite Hfst|].
  unfold l, conv_props. rewrite list_to_map_fmap. f_equal.
  trans (list_to_map (M:=gmap string GraphValue) (map_to_list ps)).
  - by apply list_to_map_proper.
  - apply list_to_map_to_list.
Qed.

Lemma set_node_properties_spec id (l : list (string * GraphValue)) st r :
  NoDup l.*1 → view_nodes (tx_session st) !! id = Some r →
  let '(res, st') := SE_for l (λ '(k, v),
        session_call (set_node_property id k (gval_to_grafeo_value v))) st in
  tx_maps st' = tx_maps st ∧ view_edges (tx_session st') = view_edges (tx_session st) ∧
  ∃ ps, view_nodes (tx_session st') = <[id:=mkNodeRec (nr_labels r) ps]> (view_nodes (tx_session st)) ∧
    match res with
    | Ok _ => ps = list_to_map (prod_map Datatypes.id gval_to_grafeo_value <$> l) ∪ nr_props r
    | Err e => ∃ msg, e = EGrafeo msg
    end.
Proof.
  revert st r. induction l as [|[k v] l IH]; intros st r Hnd Hr.
  { cbn. split; [done|]. split; [done|]. exists (nr_props r).
    rewrite (left_id_L ∅ _). split; [|done]. destruct r; cbn. by rewrite insert_id. }
  cbn in Hnd. apply NoDup_cons in Hnd as [Hk Hnd]. cbn.
  unfold mbind, SE_bind, session_call at 1.
  pose proof (set_node_property_law id k (gval_to_grafeo_value v) (tx_session st)) as Hlaw.
  destruct (set_node_property _ _ _ _) as [[[]|msg] s']; cbn.
  2: { destruct Hlaw as (_&_&Hn&He). rewrite Hn, He. split; [done|]. split; [done|].
       exists (nr_props r). split; [destruct r; by rewrite insert_id|eauto]. }
  destruct Hlaw as (_&_&He&r'&Hr'&Hn). simplify_eq.
  specialize (IH (mkTxState s' (tx_maps st))
    (mkNodeRec (nr_labels r) (<[k:=gval_to_grafeo_value v]> (nr_props r))) Hnd).
  ospecialize (IH _); [cbn; rewrite Hn; apply lookup_insert_eq|].
  destruct (SE_for _ _ _) as [res st']. destruct IH as (Hm&He'&ps&Hv&Hres). cbn in *.
  split; [done|]. split; [congruence|]. exists ps. split.
  { rewrite Hv, Hn. apply insert_insert_eq. }
  destruct res as [[]|]; [|done]. rewrite Hres. cbn.
  rewrite <-insert_union_r; [by rewrite insert_union_l|].
  apply not_elem_of_list_to_map. rewrite <-list_fmap_compose. intros Hin. apply Hk.
  by apply list_elem_of_fmap in Hin as ([]&->&?%(list_elem_of_fmap_2 fst)).
Qed.

Lemma set_edge_properties_spec e (l : list (string * GraphValue)) st r :
  NoDup l.*1 → view_edges (tx_session st) !! e = Some r →
  let '(res, st') := SE_for l (λ '(k, v),
        session_call (set_edge_property e k (gval_to_grafeo_value v))) st in
  tx_maps st' = tx_maps st ∧ view_nodes (tx_session st') = view_nodes (tx_session st) ∧
  ∃ ps, view_edges (tx_session st')
          = <[e:=mkEdgeRec (er_src r) (er_dst r) (er_label r) ps]> (view_edges (tx_session st)) ∧
    match res with
    | Ok _ => ps = list_to_map (prod_map Datatypes.id gval_to_grafeo_value <$> l) ∪ er_props r
    | Err x => ∃ msg, x = EGrafeo msg
    end.
Proof.
  revert st r. induction l as [|[k v] l IH]; intros st r Hnd Hr.
  { cbn. split; [done|]. split; [done|]. exists (er_props r).
    rewrite (left_id_L ∅ _). split; [|done]. destruct r; cbn. by rewrite insert_id. }
  cbn in Hnd. apply NoDup_cons in Hnd as [Hk Hnd]. cbn.
  unfold mbind, SE_bind, session_call at 1.
  pose proof (set_edge_property_law e k (gval_to_grafeo_value v) (tx_session st)) as Hlaw.
  destruct (set_edge_property _ _ _ _) as [[[]|msg] s']; cbn.
  2: { destruct Hlaw as (_&_&Hn&He). rewrite Hn, He. split; [done|]. split; [done|].
       exists (er_props r). split; [destruct r; by rewrite insert_id|eauto]. }
  destruct Hlaw as (_&_&He&r'&Hr'&Hn). simplify_eq.
  specialize (IH (mkTxState s' (tx_maps st)) (mkEdgeRec (er_src r) (er_dst r) (er_label r)
    (<[k:=gval_to_grafeo_value v]> (er_props r))) Hnd).
  ospecialize (IH _); [cbn; rewrite Hn; apply lookup_insert_eq|].
  destruct (SE_for _ _ _) as [res st']. destruct IH as (Hm&He'&ps&Hv&Hres). cbn in *.
  split; [done|]. split; [congruence|]. exists ps. split.
  { rewrite Hv, Hn. apply insert_insert_eq. }
  destruct res as [[]|]; [|done]. rewrite Hres. cbn.
  rewrite <-insert_union_r; [by rewrite insert_union_l|].
  apply not_elem_of_list_to_map. rewrite <-list_fmap_compose. intros Hin. apply Hk.
  by apply list_elem_of_fmap in Hin as ([]&->&?%(list_elem_of_fmap_2 fst)).
Qed.

(** ** Refinement *)

Definition st_coupled st : Prop :=
  coupled (tx_maps st) (view_nodes (tx_session st)) (view_edges (tx_session st)).
Definition st_abs st : KeyedGraph :=
  abs_graph (tx_maps st) (view_nodes (tx_session st)) (view_edges (tx_session st)).

(** What one operation may do: implement the specification, refuse as the
    specification refuses, or report a failure of the session. *)
Definition refines (spec : Result KeyedGraph) (out : Result unit * TxState S) : Prop :=
  let '(res, st') := out in
  st_coupled st' ∧
  match res with
  | Ok _ => spec = Ok (st_abs st')
  | Err e => spec = Err e ∨ ∃ msg, e = EGrafeo msg
  end.

Lemma refines_Ok spec (out : Result unit * TxState S) :
  out.1 = Ok tt → st_coupled out.2 → spec = Ok (st_abs out.2) → refines spec out.
Proof. destruct out as [res st']; cbn. by intros -> ? ->. Qed.

Lemma fresh_node s id : id ∉ used_nodes s → view_nodes s !! id = None.
Proof. intros Hf. apply not_elem_of_dom. pose proof (view_nodes_used s). set_solver. Qed.
Lemma fresh_edge s e : e ∉ used_edges s → view_edges s !! e = None.
Proof. intros Hf. apply not_elem_of_dom. pose proof (view_edges_used s). set_solver. Qed.

Lemma upsert_node_refines k labels ps st :
  st_coupled st →
  refines (Ok (spec_upsert_node k labels ps (st_abs st))) (apply_upsert_node k labels ps st).
Proof.
  intros Hc. unfold apply_upsert_node, maps_get, mbind, SE_bind. cbn.
  unfold spec_upsert_node. cbn. rewrite abs_nodes_lookup.
  destruct (node_id_map (tx_maps st) !! k) as [id|] eqn:Hk; cbn.
  - destruct (c_live _ _ _ Hc _ _ Hk) as [r Hr].
    destruct (hash_iter_conv ps) as [HND Hconv].
    assert (HND' : NoDup (hash_iter ps).*1) by (eapply enumerates_NoDup, hash_iter_enumerates).
    pose proof (set_node_properties_spec id _ st r HND' Hr) as Hloop.
    destruct (SE_for _ _ _) as [res st']. destruct Hloop as (Hm&He&ps'&Hn&Hres).
    destruct (coupled_update_node _ _ _ Hc k id (mkNodeRec (nr_labels r) ps') Hk) as [Hc' Ha].
    unfold refines, st_coupled, st_abs. rewrite Hm, He, Hn. split; [done|].
    destruct res as [[]|e]; [|by right]. unfold abs_graph. rewrite Ha, Hr. cbn. by rewrite Hres, Hconv.
  - unfold session_call, maps_do. cbn. destruct (hash_iter_conv ps) as [HND Hconv].
    pose proof (create_node_law labels _ (tx_session st) HND) as Hlaw.
    destruct (create_node_with_props _ _ _) as [[id|msg] s']; cbn.
    + destruct Hlaw as (Hf&_&_&He&Hn). apply fresh_node in Hf.
      destruct (coupled_create_node _ _ _ Hc k id (mkNodeRec labels (conv_props ps)) Hk Hf)
        as [Hc' Ha].
      unfold refines, st_coupled, st_abs. cbn. rewrite He, Hn, Hconv. split; [done|]. by rewrite Ha.
    + destruct Hlaw as (_&_&Hn&He). unfold refines, st_coupled. cbn. rewrite Hn, He. eauto.
Qed.

Lemma upsert_edge_refines s d l ps st :
  st_coupled st →
  refines (spec_apply (UpsertEdge s d l ps) (st_abs st)) (apply_upsert_edge s d l ps st).
Proof.
  intros Hc. unfold apply_upsert_edge, maps_get, mbind, SE_bind. cbn.
  rewrite !abs_nodes_lookup.
  destruct (node_id_map (tx_maps st) !! s) as [si|] eqn:Hs; cbn; [|by split; [|left]].
  destruct (c_live _ _ _ Hc _ _ Hs) as [rs ->].
  destruct (node_id_map (tx_maps st) !! d) as [di|] eqn:Hd; cbn; [|by split; [|left]].
  destruct (c_live _ _ _ Hc _ _ Hd) as [rd ->].
  unfold spec_upsert_edge. cbn. rewrite abs_edges_lookup.
  destruct (hash_iter_conv ps) as [HND Hconv].
  destruct (edge_id_map (tx_maps st) !! (s, d, l)) as [e|] eqn:He; cbn.
  - destruct (c_edge _ _ _ Hc _ _ _ _ He) as (si'&di'&ps0&?&?&Hr). simplify_eq.
    assert (HND' : NoDup (hash_iter ps).*1) by (eapply enumerates_NoDup, hash_iter_enumerates).
    pose proof (set_edge_properties_spec e _ st _ HND' Hr) as Hloop.
    destruct (SE_for _ _ _) as [res st']. destruct Hloop as (Hm&Hn&ps'&Hv&Hres).
    destruct (coupled_update_edge _ _ _ Hc _ e _ ps' He Hr) as [Hc' Ha].
    unfold refines, st_coupled, st_abs. rewrite Hm, Hn, Hv. split; [done|].
    destruct res as [[]|x]; [|by right]. unfold abs_graph. rewrite Ha, Hr. cbn. by rewrite Hres, Hconv.
  - unfold session_call, maps_do. cbn.
    pose proof (create_edge_with_props_law si di l _ (tx_session st) HND) as Hlaw.
    destruct (create_edge_with_props _ _ _ _ _) as [[e|msg] s']; cbn.
    + destruct Hlaw as (Hf&_&_&Hn&Hv). apply fresh_edge in Hf.
      destruct (coupled_create_edge _ _ _ Hc s d l si di e (conv_props ps) Hs Hd He Hf) as [Hc' Ha].
      unfold refines, st_coupled, st_abs. cbn. rewrite Hn, Hv, Hconv. split; [done|].
      rewrite Ha. by rewrite (right_id_L ∅ _).
    + destruct Hlaw as (_&_&Hn&Hv). unfold refines, st_coupled. cbn. rewrite Hn, Hv. eauto.
Qed.

(** Removing an edge binding, and the edge it names from the session. *)
Lemma remove_edge_refines key st :
  st_coupled st →
  let out := (removed ← maps_do (λ m, BridgeMaps_remove_edge m key);
              match removed with
              | Some eid => session_do (delete_edge eid)
              | None => mret tt
              end) st in
  out.1 = Ok tt ∧ st_coupled out.2 ∧
  st_abs out.2 = mkKeyedGraph (kg_nodes (st_abs st)) (delete key (kg_edges (st_abs st))) ∧
  node_id_map (tx_maps out.2) = node_id_map (tx_maps st) ∧
  view_nodes (tx_session out.2) = view_nodes (tx_session st).
Proof.
  intros Hc. unfold maps_do, mbind, SE_bind. cbn.
  destruct (edge_id_map (tx_maps st) !! key) as [e|] eqn:He.
  - pose proof (coupled_remove_edge _ _ _ Hc key e He) as [Hc' Ha].
    unfold BridgeMaps_remove_edge in *. rewrite He in *. cbn in *.
    pose proof (delete_edge_law e (tx_session st)) as (_&_&Hn&Hv).
    unfold st_coupled, st_abs. cbn. rewrite Hn, Hv. done.
  - unfold BridgeMaps_remove_edge. rewrite He. cbn. destruct st as [s m]. cbn in *.
    split; [done|]. split; [done|]. split; [|done]. unfold st_abs, abs_graph. cbn. f_equal.
    rewrite delete_id; [done|]. by rewrite abs_edges_lookup, He.
Qed.

Lemma tree_move_refines n old new st :
  st_coupled st →
  refines (Ok (spec_tree_move n old new (st_abs st))) (apply_tree_move n old new st).
Proof.
  intros Hc. unfold apply_tree_move, maps_get at 1, mbind at 1, SE_bind at 1. cbn.
  unfold spec_tree_move. cbn. rewrite !abs_nodes_lookup.
  destruct (node_id_map (tx_maps st) !! n) as [ni|] eqn:Hn; cbn; [|by split].
  destruct (c_live _ _ _ Hc _ _ Hn) as [rn ->].
  destruct (node_id_map (tx_maps st) !! new) as [pi|] eqn:Hp; cbn; [|by split].
  destruct (c_live _ _ _ Hc _ _ Hp) as [rp ->].
  rewrite SE_bind_assoc.
  destruct (remove_edge_refines (old, n, TREE_EDGE_LABEL) st Hc) as (Hok&Hc1&Ha1&Hnm&Hvn).
  rewrite (SE_bind_Ok _ _ _ _ Hok). clear Hok.
  match type of Hc1 with st_coupled ?s => set (st1 := s) in * end. clearbody st1.
  unfold maps_get, mbind, SE_bind. cbn.
  assert (Hes : abs_edges (tx_maps st1) (view_edges (tx_session st1))
    = delete (old, n, TREE_EDGE_LABEL) (abs_edges (tx_maps st) (view_edges (tx_session st))))
    by exact (f_equal kg_edges Ha1).
  assert (Hns : abs_nodes (tx_maps st1) (view_nodes (tx_session st1))
    = abs_nodes (tx_maps st) (view_nodes (tx_session st)))
    by exact (f_equal kg_nodes Ha1).
  rewrite <-Hes, <-Hns, abs_edges_lookup.
  destruct (edge_id_map (tx_maps st1) !! (new, n, TREE_EDGE_LABEL)) as [e|] eqn:He; cbn.
  - destruct (c_edge _ _ _ Hc1 _ _ _ _ He) as (?&?&?&_&_&->). cbn. by split.
  - unfold session_run, maps_do. cbn.
    pose proof (create_edge_law pi ni TREE_EDGE_LABEL (tx_session st1)) as Hlaw.
    destruct (create_edge _ _ _ _) as [e s']. destruct Hlaw as (Hf&_&_&Hn'&Hv).
    apply fresh_edge in Hf. cbn. rewrite <-Hnm in Hn, Hp.
    destruct (coupled_create_edge _ _ _ Hc1 new n TREE_EDGE_LABEL pi ni e ∅ Hp Hn He Hf) as [Hc' Ha].
    unfold refines, st_coupled, st_abs. cbn. rewrite Hn', Hv. split; [done|]. by rewrite Ha.
Qed.

Lemma delete_node_refines k st :
  st_coupled st → detached (DeleteNode k) (st_abs st) →
  refines (spec_apply (DeleteNode k) (st_abs st)) (apply_loro_op (DeleteNode k) st).
Proof.
  intros Hc Hdet. cbn in *. unfold maps_do, mbind, SE_bind. cbn.
  destruct (node_id_map (tx_maps st) !! k) as [id|] eqn:Hk.
  - pose proof (delete_node_law id (tx_session st)) as (_&_&Hn&Hv).
    pose proof (coupled_delete_node _ _ _ Hc k id _ Hk Hdet Hv) as [Hc' Ha].
    unfold BridgeMaps_remove_node in *. rewrite Hk in *. cbn in *.
    unfold st_coupled, st_abs. cbn. rewrite Hn. split; [done|]. by rewrite Ha.
  - unfold BridgeMaps_remove_node. rewrite Hk. destruct st as [s m]. cbn in *.
    split; [done|]. unfold st_abs, abs_graph. cbn. do 2 f_equal.
    apply delete_id. by rewrite abs_nodes_lookup, Hk.
Qed.

Lemma apply_loro_op_refines op st :
  st_coupled st → detached op (st_abs st) →
  refines (spec_apply op (st_abs st)) (apply_loro_op op st).
Proof.
  intros Hc Hdet. destruct op as [k ls ps|s d l ps|k|s d l|n old new].
  - by apply upsert_node_refines.
  - by apply upsert_edge_refines.
  - by apply delete_node_refines.
  - destruct (remove_edge_refines (s, d, l) st Hc) as (Hok&Hc'&Ha&_).
    apply refines_Ok; [exact Hok|exact Hc'|]. cbn [spec_apply]. f_equal. symmetry. exact Ha.
  - by apply tree_move_refines.
Qed.

Lemma apply_loro_ops_refines_aux (ops : list LoroOp) (st : TxState S) :
  st_coupled st → detached_run ops (st_abs st) →
  refines (spec_run ops (st_abs st)) (apply_loro_ops ops st).
Proof.
  revert st. induction ops as [|op ops IH]; intros st Hc Hdet; [by split|].
  cbn in *. destruct Hdet as [Hd Hrest]. pose proof (apply_loro_op_refines op st Hc Hd) as Hop.
  unfold mbind, SE_bind, result_bind. destruct (apply_loro_op op st) as [[[]|e] st'].
  - destruct Hop as [Hc' Hs]. rewrite Hs in *. by apply IH.
  - destruct Hop as [Hc' [Hs|Hs]]; (split; [done|]); [left; by rewrite Hs|by right].
Qed.

(** C8: a batch of operations applied through the id maps to any session that
    keeps the laws implements the keyed-graph specification operation by
    operation, provided the batch is detached: at each deletion of a vertex its
    edges are gone already (finding: otherwise a stale edge binding swallows a
    later edge).  Maps and session stay coupled (both pairs of maps bijective,
    every bound vertex live, every bound edge between the vertices its key names)
    whether the batch succeeds or fails, success means exactly the specified graph,
    and the only errors are the specified refusal of an edge with an unknown
    endpoint or a failure reported by the session. *)
Theorem apply_loro_ops_refines (ops : list LoroOp) (st : TxState S)
  (Hc : st_coupled st) (Hdet : detached_run ops (st_abs st)) :
  refines (spec_run ops (st_abs st)) (apply_loro_ops ops st).
Proof. by apply apply_loro_ops_refines_aux. Qed.
End refinement.
