(* ===== verification/EdgeKeys.v ===== *)
(** * Edge keys in the Loro map ([src/bridge/sync_engine.rs])

    [encode_edge_key] and [parse_edge_key], and exactly when they are inverse. *)

From S2P Require Import Prelude Types BridgeMaps.
From Stdlib Require Import Ascii.

Definition bar : ascii := "|"%char.

(** The split at the first separator that [splitn] makes. *)
Fixpoint split_bar (s : string) : option (string * string) :=
  match s with
  | EmptyString => None
  | String c s' =>
      if Ascii.eqb c bar then Some (EmptyString, s')
      else match split_bar s' with
           | Some (a, b) => Some (String c a, b)
           | None => None
           end
  end.

(** [s.splitn(3, '|')] read three times with [?]. *)
Definition parse_edge_key (s : string) : option EdgeKey :=
  match split_bar s with
  | None => None
  | Some (src, rest) =>
      match split_bar rest with
      | None => None
      | Some (dst, label) =>
          if bool_decide (label = EmptyString) then None else Some (src, dst, label)
      end
  end.

Definition encode_edge_key (key : EdgeKey) : string :=
  let '(src, dst, label) := key in (src +:+ "|" +:+ dst +:+ "|" +:+ label)%string.

Fixpoint has_bar (s : string) : bool :=
  match s with
  | EmptyString => false
  | String c s' => Ascii.eqb c bar || has_bar s'
  end.

Lemma split_bar_Some s a b : split_bar s = Some (a, b) → s = (a +:+ "|" +:+ b)%string ∧ has_bar a = false.
Proof.
  revert a b. induction s as [|c s IH]; intros a b; cbn [split_bar has_bar]; [done|].
  destruct (Ascii.eqb c bar) eqn:Hc.
  - intros [= <- <-]. apply Ascii.eqb_eq in Hc. by rewrite Hc.
  - destruct (split_bar s) as [[a' b']|]; [|done]. intros [= <- <-].
    destruct (IH a' b' eq_refl) as [-> Ha]. cbn [has_bar]. by rewrite Hc.
Qed.

Lemma split_bar_app a b : has_bar a = false → split_bar (a +:+ "|" +:+ b)%string = Some (a, b).
Proof.
  induction a as [|c a IH]; [done|].
  change (String c a +:+ "|" +:+ b)%string with (String c (a +:+ "|" +:+ b)%string).
  cbn [split_bar has_bar].
  intros [Hc Ha]%orb_false_iff. rewrite Hc. by rewrite IH.
Qed.

Lemma parse_edge_key_Some s key :
  parse_edge_key s = Some key →
  encode_edge_key key = s ∧ has_bar key.1.1 = false ∧ has_bar key.1.2 = false ∧ key.2 ≠ EmptyString.
Proof.
  unfold parse_edge_key. destruct (split_bar s) as [[a r]|] eqn:H1; [|done].
    destruct (split_bar r) as [[b c]|] eqn:H2; [|done].
    case_bool_decide; [done|]. intros [= <-]. cbn.
    apply split_bar_Some in H1 as [-> ?]. apply split_bar_Some in H2 as [-> ?]. done. 
Qed.

Lemma parse_encode_inv s key : parse_edge_key s = Some key → encode_edge_key key = s.
Proof. by intros [? _]%parse_edge_key_Some. Qed.

(** An edge key survives encoding and parsing exactly when neither endpoint
    key contains the separator and the label is not empty; in the other
    direction, whatever parses is the encoding of what it parses to. *)
Lemma edge_key_roundtrip (src dst label s : string) (key : EdgeKey) :
  (parse_edge_key (encode_edge_key (src, dst, label)) = Some (src, dst, label) ↔
     has_bar src = false ∧ has_bar dst = false ∧ label ≠ EmptyString) ∧
  (parse_edge_key s = Some key → encode_edge_key key = s).
Proof.
  split; [|apply parse_encode_inv]. split; [by intros (_&?&?&?)%parse_edge_key_Some|].
  intros (Hs&Hd&Hl). unfold parse_edge_key, encode_edge_key.
  rewrite !split_bar_app by done. by rewrite bool_decide_eq_false_2.
Qed.

Lemma edge_key_roundtrip_witness :
  parse_edge_key "a|b|KNOWS" = Some ("a", "b", "KNOWS")%string ∧
  encode_edge_key ("a", "b", "KNOWS")%string = "a|b|KNOWS"%string.
Proof.
  split; [apply (edge_key_roundtrip "a" "b" "KNOWS" "x" ("a", "b", "KNOWS")%string); by vm_compute|].
  apply (edge_key_roundtrip "a" "b" "KNOWS" "a|b|KNOWS" ("a", "b", "KNOWS")%string).
  vm_compute. reflexivity.
Defined.

(** Two distinct keys may share an encoding once a separator occurs in them. *)
Example encode_edge_key_collision :
  encode_edge_key ("a|b", "c", "L")%string = encode_edge_key ("a", "b|c", "L")%string.
Proof. reflexivity. Qed.
