(* ===== verification/Translate.v ===== *)
(** * Event translation ([src/bridge/sync_engine.rs])

    Inbound: a Loro [DiffEvent] projected to graph operations.  Outbound: a
    grafeo [ChangeEvent] projected to writes on the root maps of the Loro
    document.  The Loro document is an interface ([loro] is not under [src/]);
    [LoroMapLaws] is what a map container promises. *)

From S2P Require Import Prelude Types Values BridgeMaps EdgeKeys.

(** ** Loro side *)

Inductive ValueOrContainer : Type :=
| VC_Value (v : LoroValue)
| VC_Container.

(** The entries of a map delta, in the order the hash map is iterated. *)
Inductive Diff : Type :=
| Diff_Map (updated : list (string * option ValueOrContainer))
| Diff_Other.

Record ContainerDiff : Type := mkContainerDiff { cd_target : ContainerID; cd_diff : Diff }.

Record DiffEvent : Type := mkDiffEvent { de_origin : string; de_events : list ContainerDiff }.

Class LoroDoc (L : Type) : Type := {
  map_get : L → string → string → option ValueOrContainer;
  map_insert : string → string → LoroValue → SE L string unit;
  map_delete : string → string → L → L;
  loro_set_next_commit_origin : string → L → L;
  loro_commit : L → list DiffEvent * L
}.

(** What the outbound path relies on of a map container. *)
Class LoroMapLaws (L : Type) `{LoroDoc L} : Type := {
  map_insert_law root key v l :
    match map_insert root key v l with
    | (Ok _, l') => ∀ r k, map_get l' r k =
        if decide (r = root ∧ k = key) then Some (VC_Value v) else map_get l r k
    | (Err _, l') => ∀ r k, map_get l' r k = map_get l r k
    end;
  map_delete_law root key l r k :
    map_get (map_delete root key l) r k =
      if decide (r = root ∧ k = key) then None else map_get l r k
}.

(** ** Inbound translation *)

(** The property loop: an unsupported value drops the whole entity. *)
Definition translate_props (m : gmap string LoroValue) : option (gmap string GraphValue) :=
  match collect_map (lval_to_gval <$> m) with
  | Ok props => Some props
  | Err _ => None
  end.

Definition translate_vertex (entry : string * option ValueOrContainer) : list LoroOp :=
  let '(key, val) := entry in
  match val with
  | Some (VC_Value (LV_Map m)) =>
      match translate_props m with
      | Some props => [UpsertNode key [] props]
      | None => []
      end
  | Some (VC_Value _) => []
  | None => [DeleteNode key]
  | Some VC_Container => []
  end.

Definition translate_edge (entry : string * option ValueOrContainer) : list LoroOp :=
  let '(key, val) := entry in
  match parse_edge_key key with
  | None => []
  | Some (src_key, dst_key, label) =>
      match val with
      | Some (VC_Value (LV_Map m)) =>
          match translate_props m with
          | Some props => [UpsertEdge src_key dst_key label props]
          | None => []
          end
      | None => [DeleteEdge src_key dst_key label]
      | Some _ => []
      end
  end.

Definition translate_container_diff (cd : ContainerDiff) : list LoroOp :=
  match cd_target cd with
  | CID_Normal _ => []
  | CID_Root name =>
      if bool_decide (name = ROOT_VERTICES) then
        match cd_diff cd with Diff_Map updated => updated ≫= translate_vertex | Diff_Other => [] end
      else if bool_decide (name = ROOT_EDGES) then
        match cd_diff cd with Diff_Map updated => updated ≫= translate_edge | Diff_Other => [] end
      else []
  end.

Definition translate_diff_event (event : DiffEvent) : list LoroOp :=
  de_events event ≫= translate_container_diff.

(** ** Grafeo side *)

(** [grafeo::cdc]; both enums are non-exhaustive. *)
Inductive EntityId : Type :=
| Ent_Node (id : NodeId)
| Ent_Edge (id : EdgeId)
| Ent_Triple (id : Z)
| Ent_Unknown.

Inductive ChangeKind : Type := Create | Update | Delete | ChangeKind_Unknown.

Record ChangeEvent : Type := mkChangeEvent {
  ev_epoch : EpochId;
  ev_entity_id : EntityId;
  ev_kind : ChangeKind;
  ev_after : option (gmap string GrafeoValue);
  ev_src_id : option Z;
  ev_dst_id : option Z;
  ev_edge_type : option string
}.

Definition lookup_edge_endpoints (event : ChangeEvent) (maps : BridgeMaps) : option EdgeKey :=
  src_id ← ev_src_id event;
  dst_id ← ev_dst_id event;
  label ← ev_edge_type event;
  src_key ← node_key_map maps !! mkNodeId src_id;
  dst_key ← node_key_map maps !! mkNodeId dst_id;
  Some (src_key, dst_key, label).

(** ** Outbound translation *)

Record OutState (L : Type) : Type := mkOutState { os_doc : L; os_maps : BridgeMaps }.
Arguments mkOutState {L}.
Arguments os_doc {L}.
Arguments os_maps {L}.

Section outbound.
  Context {L : Type} `{LoroDoc L}.
  Notation M := (SE (OutState L) GrafeoLoroError).

(** The read part of the read-modify-write: the properties in the document. *)
Definition current_props (doc : L) (root key : string) : gmap string LoroValue :=
  match map_get doc root key with
  | Some (VC_Value (LV_Map m)) => m
  | _ => ∅
  end.

(** The [for (k, v) in event.after] loop: [current.insert] of each entry. *)
Definition merge_after (after : option (gmap string GrafeoValue)) (current : gmap string LoroValue) :
    gmap string LoroValue :=
  map_fold (λ k v acc, <[k := grafeo_value_to_lval v]> acc) current (default ∅ after).

(** The read, merge and [insert(..)?] shared by the arms that write. *)
Definition upsert_entity (root key : string) (after : option (gmap string GrafeoValue)) : M unit :=
  λ st,
  let current := merge_after after (current_props (os_doc st) root key) in
  let '(r, doc) := map_insert root key (LV_Map current) (os_doc st) in
  (map_err ELoro r, mkOutState doc (os_maps st)).

Definition apply_change_event_to_loro (event : ChangeEvent) : M unit := λ st,
  let maps := os_maps st in
  match ev_entity_id event, ev_kind event with
  | Ent_Node node_id, Create | Ent_Node node_id, Update =>
      match node_key_map maps !! node_id with
      | None => (Ok tt, st)
      | Some node_key => upsert_entity ROOT_VERTICES node_key (ev_after event) st
      end
  | Ent_Node node_id, Delete =>
      match node_key_map maps !! node_id with
      | None => (Ok tt, st)
      | Some node_key =>
          (Ok tt, mkOutState (map_delete ROOT_VERTICES node_key (os_doc st))
                    (BridgeMaps_remove_node maps node_key).2)
      end
  | Ent_Edge edge_id, Create =>
      match lookup_edge_endpoints event maps with
      | None => (Ok tt, st)
      | Some key =>
          (upsert_entity ROOT_EDGES (encode_edge_key key) (ev_after event) ≫= λ _,
           SE_modify (λ st, mkOutState (os_doc st) (BridgeMaps_insert_edge (os_maps st) key edge_id)))
            st
      end
  | Ent_Edge edge_id, Update =>
      match edge_key_map maps !! edge_id with
      | None => (Ok tt, st)
      | Some key => upsert_entity ROOT_EDGES (encode_edge_key key) (ev_after event) st
      end
  | Ent_Edge edge_id, Delete =>
      let '(key, maps') := BridgeMaps_remove_edge_by_id maps edge_id in
      match key with
      | None => (Ok tt, st)
      | Some key => (Ok tt, mkOutState (map_delete ROOT_EDGES (encode_edge_key key) (os_doc st)) maps')
      end
  | Ent_Triple _, _ => (Ok tt, st)
  | _, _ => (Ok tt, st)
  end.

(** The entity of the document an event is about, through the maps. *)
Definition event_target (event : ChangeEvent) (maps : BridgeMaps) : option (string * string) :=
  match ev_entity_id event, ev_kind event with
  | Ent_Node id, Create | Ent_Node id, Update | Ent_Node id, Delete =>
      (λ k, (ROOT_VERTICES, k)) <$> node_key_map maps !! id
  | Ent_Edge _, Create => (λ k, (ROOT_EDGES, encode_edge_key k)) <$> lookup_edge_endpoints event maps
  | Ent_Edge id, Update | Ent_Edge id, Delete =>
      (λ k, (ROOT_EDGES, encode_edge_key k)) <$> edge_key_map maps !! id
  | _, _ => None
  end.

Lemma merge_after_lookup after current k :
  merge_after after current !! k =
    match default ∅ after !! k with
    | Some v => Some (grafeo_value_to_lval v)
    | None => current !! k
    end.
Proof.
  unfold merge_after. generalize (default ∅ after) as m. intros m. revert k.
  apply (map_fold_weak_ind (λ r (m : gmap string GrafeoValue), ∀ k, r !! k =
    match m !! k with Some v => Some (grafeo_value_to_lval v) | None => current !! k end)).
  - intros k. by rewrite lookup_empty.
  - intros i x m' r _ IH k. rewrite !lookup_insert. case_decide; [done|apply IH].
Qed.
End outbound.

Section outbound_spec.
  Context {L : Type} `{LoroMapLaws L}.

Lemma upsert_entity_spec root key after (st st' : OutState L) :
  upsert_entity root key after st = (Ok tt, st') →
  os_maps st' = os_maps st ∧
  ∀ r k, map_get (os_doc st') r k =
    if decide (r = root ∧ k = key)
    then Some (VC_Value (LV_Map (merge_after after (current_props (os_doc st) root key))))
    else map_get (os_doc st) r k.
Proof.
  unfold upsert_entity. pose proof (map_insert_law root key
    (LV_Map (merge_after after (current_props (os_doc st) root key))) (os_doc st)) as Hlaw.
  destruct (map_insert _ _ _ _) as [[[]|e] doc]; cbn; intros [= <-]. done.
Qed.

(** C23: a change event that is applied touches at most the one entry of the
    document its entity is bound to: a create or update leaves every property
    the event does not carry and overwrites those it carries, a delete removes
    the entry, and an event of an unbound entity or of no translated kind
    changes neither document nor maps. *)
Theorem change_event_effect (event : ChangeEvent) (st st' : OutState L)
  (Hok : apply_change_event_to_loro event st = (Ok tt, st')) :
  match event_target event (os_maps st) with
  | None => st' = st
  | Some (root, key) =>
      (∀ r k, (r, k) ≠ (root, key) → map_get (os_doc st') r k = map_get (os_doc st) r k) ∧
      match ev_kind event with
      | Delete => map_get (os_doc st') root key = None
      | _ => ∃ props, map_get (os_doc st') root key = Some (VC_Value (LV_Map props)) ∧
          ∀ p, props !! p =
            match default ∅ (ev_after event) !! p with
            | Some v => Some (grafeo_value_to_lval v)
            | None => current_props (os_doc st) root key !! p
            end
      end
  end.
Proof.
  assert (Hup : ∀ root key st1, upsert_entity root key (ev_after event) st = (Ok tt, st1) →
    (∀ r k, (r, k) ≠ (root, key) → map_get (os_doc st1) r k = map_get (os_doc st) r k) ∧
    ∃ props, map_get (os_doc st1) root key = Some (VC_Value (LV_Map props)) ∧
          ∀ p, props !! p =
            match default ∅ (ev_after event) !! p with
            | Some v => Some (grafeo_value_to_lval v)
            | None => current_props (os_doc st) root key !! p
            end).
  { intros root key st1 [_ Hg]%upsert_entity_spec. split.
    - intros r k Hne. rewrite Hg. case_decide; [naive_solver|done].
    - eexists. rewrite Hg. rewrite decide_True by done. split; [done|].
      intros p. apply merge_after_lookup. }
  assert (Hdel : ∀ root key, let doc := map_delete root key (os_doc st) in
    (∀ r k, (r, k) ≠ (root, key) → map_get doc r k = map_get (os_doc st) r k) ∧
    map_get doc root key = None).
  { intros root key. cbn. split.
    - intros r k Hne. rewrite map_delete_law. case_decide; [naive_solver|done].
    - rewrite map_delete_law. by rewrite decide_True. }
  revert Hok. unfold apply_change_event_to_loro, event_target, BridgeMaps_remove_edge_by_id.
  destruct (ev_entity_id event) as [id|id|id|], (ev_kind event); cbn; try (by intros [= <-]).
  - destruct (node_key_map _ !! id); cbn; [apply Hup|by intros [= <-]].
  - destruct (node_key_map _ !! id); cbn; [apply Hup|by intros [= <-]].
  - destruct (node_key_map _ !! id); cbn; [|by intros [= <-]]. intros [= <-]. apply Hdel.
  - destruct (lookup_edge_endpoints _ _) as [key|]; cbn; [|by intros [= <-]].
    unfold mbind, SE_bind, SE_modify.
    destruct (upsert_entity _ _ _ _) as [[[]|] st1] eqn:E; intros [= <-]. by apply (Hup _ _ st1).
  - destruct (edge_key_map _ !! id); cbn; [apply Hup|by intros [= <-]].
  - destruct (edge_key_map _ !! id); cbn; [|by intros [= <-]]. intros [= <-]. apply Hdel.
Qed.
End outbound_spec.

(** ** The two directions agree *)

Lemma collect_map_lval_inv (m : gmap string LoroValue) (ps : gmap string GraphValue) :
  collect_map (lval_to_gval <$> m) = Ok ps →
  (λ g, grafeo_value_to_lval (gval_to_grafeo_value g)) <$> ps = m.
Proof.
  intros Hps%collect_map_Ok. apply map_eq; intros k.
  assert (Hk := f_equal (lookup k) Hps). rewrite !lookup_fmap in *.
  destruct (m !! k) as [x|], (ps !! k) as [g|]; simplify_eq/=; [|done].
  f_equal. by apply value_roundtrip_aux.
Qed.

(** A vertex or edge entry of the document that the inbound path accepts
    carries, as the operation it becomes, exactly the entry: writing the
    operation's properties, converted for grafeo, back through the outbound
    merge restores the entry under the key it came from. *)
Lemma inbound_outbound_roundtrip (key : string) (m : gmap string LoroValue) (op : LoroOp) :
  let entry := (key, Some (VC_Value (LV_Map m))) in
  (op ∈ translate_vertex entry →
     ∃ props, op = UpsertNode key [] props ∧
       merge_after (Some (gval_to_grafeo_value <$> props)) ∅ = m) ∧
  (op ∈ translate_edge entry →
     ∃ src dst label props, op = UpsertEdge src dst label props ∧
       encode_edge_key (src, dst, label) = key ∧
       merge_after (Some (gval_to_grafeo_value <$> props)) ∅ = m).
Proof.
  assert (Hprops : ∀ props, translate_props m = Some props →
    merge_after (Some (gval_to_grafeo_value <$> props)) ∅ = m).
  { unfold translate_props. intros props. destruct (collect_map _) as [ps|] eqn:E; [|done].
    intros [= ->]. rewrite <-(collect_map_lval_inv m props E).
    apply map_eq; intros k. rewrite merge_after_lookup. cbn. rewrite !lookup_fmap.
    by destruct (props !! k). }
  cbn. split.
  - destruct (translate_props m) as [props|] eqn:E; [|by intros ?%elem_of_nil].
    intros ->%list_elem_of_singleton. eauto.
  - destruct (parse_edge_key key) as [[[s d] l]|] eqn:Hk; [|by intros ?%elem_of_nil].
    destruct (translate_props m) as [props|] eqn:E; [|by intros ?%elem_of_nil].
    intros ->%list_elem_of_singleton. exists s, d, l, props. split; [done|].
    split; [by apply (parse_encode_inv key (s, d, l))|eauto].
Qed.

Lemma inbound_outbound_roundtrip_witness :
  let m := {["a" := LV_I64 1; "b" := LV_List [LV_Null]]} : gmap string LoroValue in
  ∃ props, merge_after (Some (gval_to_grafeo_value <$> props)) ∅ = m.
Proof.
  set (m := {["a" := LV_I64 1; "b" := LV_List [LV_Null]]} : gmap string LoroValue).
  destruct (translate_vertex ("k"%string, Some (VC_Value (LV_Map m)))) as [|op l] eqn:E;
    [vm_compute in E; discriminate|].
  destruct (proj1 (inbound_outbound_roundtrip "k" m op)) as (props&_&Hp); [|by exists props].
  rewrite E. left.
Defined.

(** ** A reference document

    The root maps, the uncommitted changes and the origin set for the next
    commit; a commit emits one event for its changes. *)

Record MemLoro : Type := mkMemLoro {
  ml_maps : gmap (string * string) LoroValue;
  ml_pending : list ContainerDiff;
  ml_origin : string
}.

Definition MemLoro_new : MemLoro := mkMemLoro ∅ [] "local".

#[export] Instance MemLoro_doc : LoroDoc MemLoro := {|
  map_get l root key := VC_Value <$> ml_maps l !! (root, key);
  map_insert root key v := λ l,
    (Ok tt, mkMemLoro (<[(root, key) := v]> (ml_maps l))
      (ml_pending l ++ [mkContainerDiff (CID_Root root) (Diff_Map [(key, Some (VC_Value v))])])
      (ml_origin l));
  map_delete root key l :=
    mkMemLoro (delete (root, key) (ml_maps l))
      (ml_pending l ++ [mkContainerDiff (CID_Root root) (Diff_Map [(key, None)])]) (ml_origin l);
  loro_set_next_commit_origin o l := mkMemLoro (ml_maps l) (ml_pending l) o;
  loro_commit l :=
    (match ml_pending l with [] => [] | p => [mkDiffEvent (ml_origin l) p] end,
     mkMemLoro (ml_maps l) [] "local")
|}.

#[export] Instance MemLoro_laws : LoroMapLaws MemLoro.
Proof.
  split.
  - intros root key v l r k. cbn. rewrite lookup_insert.
    repeat case_decide; naive_solver.
  - intros root key l r k. cbn. rewrite lookup_delete.
    repeat case_decide; naive_solver.
Qed.

Lemma change_event_effect_witness :
  let maps := BridgeMaps_insert_node BridgeMaps_new "v" (mkNodeId 7) in
  let ev := mkChangeEvent 3 (Ent_Node (mkNodeId 7)) Update (Some {["p" := GV_Int64 1]})
              None None None in
  let st' := (apply_change_event_to_loro ev (mkOutState MemLoro_new maps)).2 in
  ∃ props, map_get (os_doc st') ROOT_VERTICES "v" = Some (VC_Value (LV_Map props)) ∧
    props !! "p"%string = Some (LV_I64 1).
Proof.
  set (maps := BridgeMaps_insert_node BridgeMaps_new "v" (mkNodeId 7)).
  set (ev := mkChangeEvent 3 (Ent_Node (mkNodeId 7)) Update (Some {["p" := GV_Int64 1]}) None None None).
  set (st := mkOutState MemLoro_new maps).
  assert (Hok : apply_change_event_to_loro ev st
    = (Ok tt, (apply_change_event_to_loro ev st).2)) by (vm_compute; reflexivity).
  pose proof (change_event_effect ev st _ Hok) as H.
  replace (event_target ev (os_maps st)) with (Some (ROOT_VERTICES, "v"%string)) in H
    by (vm_compute; reflexivity).
  destruct H as [_ (props&Hp&Hv)]. exists props. split; [exact Hp|]. rewrite Hv. reflexivity.
Defined.
