(* ===== verification/MemGraph.v ===== *)
(** * A reference session

    A small in-memory property graph with tombstones, and the log of the changes
    committed to it (in a session followed by the updates it has not committed), that keeps every law of [GrafeoLaws]: the interface is inhabited, and concrete runs of the bridge
    can be evaluated on it. *)

From S2P Require Import Prelude Types Values BridgeMaps GrafeoTx GraphSpec EdgeKeys Translate.

Record MemGraph : Type := mkMemGraph {
  mg_nodes : gmap NodeId (option NodeRec);
  mg_edges : gmap EdgeId (option EdgeRec);
  mg_log : list ChangeEvent
}.

Definition MemGraph_new : MemGraph := mkMemGraph ∅ ∅ [].

Definition with_nodes (n : gmap NodeId (option NodeRec)) (g : MemGraph) : MemGraph :=
  mkMemGraph n (mg_edges g) (mg_log g).
Definition with_edges (e : gmap EdgeId (option EdgeRec)) (g : MemGraph) : MemGraph :=
  mkMemGraph (mg_nodes g) e (mg_log g).

(** An update of a property of a vertex, its epoch set by the commit. *)
Definition log_update (id : NodeId) (k : string) (v : GrafeoValue) (g : MemGraph) : MemGraph :=
  mkMemGraph (mg_nodes g) (mg_edges g)
    (mg_log g ++ [mkChangeEvent 0 (Ent_Node id) Update (Some {[k := v]}) None None None]).

Definition max_key {K V} `{Countable K} (f : K → Z) (m : gmap K V) : Z :=
  map_fold (λ k _ acc, Z.max (f k) acc) 0%Z m.

Definition next_node (g : MemGraph) : NodeId := mkNodeId (max_key NodeId_0 (mg_nodes g) + 1).
Definition next_edge (g : MemGraph) : EdgeId := mkEdgeId (max_key EdgeId_0 (mg_edges g) + 1).

Definition live {K V} `{Countable K} (m : gmap K (option V)) : gmap K V := omap id m.
Arguments live {K V _ _} m : simpl never.

Definition edges_list (g : MemGraph) : list (EdgeId * EdgeRec) := map_to_list (live (mg_edges g)).

#[export] Instance MemGraph_session : GrafeoSession MemGraph := {|
  create_node_with_props labels props := λ g,
    let id := next_node g in
    (Ok id, with_nodes (<[id := Some (mkNodeRec labels (list_to_map props))]> (mg_nodes g)) g);
  set_node_property id k v := λ g,
    match mg_nodes g !! id with
    | Some (Some r) =>
        (Ok tt, log_update id k v
                  (with_nodes (<[id := Some (mkNodeRec (nr_labels r) (<[k:=v]> (nr_props r)))]>
                                (mg_nodes g)) g))
    | _ => (Err "node not found"%string, g)
    end;
  delete_node id := λ g,
    with_edges
      ((λ o, match o with
             | Some r => if bool_decide (er_src r = id ∨ er_dst r = id) then None else Some r
             | None => None
             end) <$> mg_edges g)
      (with_nodes (alter (λ _, None) id (mg_nodes g)) g);
  create_edge_with_props src dst label props := λ g,
    let id := next_edge g in
    (Ok id, with_edges (<[id := Some (mkEdgeRec src dst label (list_to_map props))]> (mg_edges g)) g);
  set_edge_property id k v := λ g,
    match mg_edges g !! id with
    | Some (Some r) =>
        (Ok tt, with_edges (<[id := Some (mkEdgeRec (er_src r) (er_dst r) (er_label r)
                                           (<[k:=v]> (er_props r)))]> (mg_edges g)) g)
    | _ => (Err "edge not found"%string, g)
    end;
  create_edge src dst label := λ g,
    let id := next_edge g in
    (id, with_edges (<[id := Some (mkEdgeRec src dst label ∅)]> (mg_edges g)) g);
  delete_edge id := λ g, with_edges (alter (λ _, None) id (mg_edges g)) g;
  node_exists g id := bool_decide (is_Some (live (mg_nodes g) !! id));
  get_neighbors_incoming g id :=
    omap (λ '(e, r), if bool_decide (er_dst r = id) then Some (er_src r, e) else None)
      (edges_list g);
  get_neighbors_outgoing_by_type g id label :=
    omap (λ '(e, r), if bool_decide (er_src r = id ∧ er_label r = label)
                     then Some (er_dst r, e) else None) (edges_list g)
|}.

Lemma max_key_bound {K V} `{Countable K} (f : K → Z) (m : gmap K V) k :
  is_Some (m !! k) → (f k ≤ max_key f m)%Z.
Proof.
  unfold max_key. revert k. apply (map_fold_weak_ind (λ r m, ∀ k, is_Some (m !! k) → (f k ≤ r)%Z)).
  - intros k. rewrite lookup_empty. by intros [].
  - intros i x m' r Hi IH k. rewrite lookup_insert. case_decide; subst; [lia|].
    intros Hk%IH. lia.
Qed.

Lemma live_insert {K V} `{Countable K} (m : gmap K (option V)) k x :
  live (<[k:=Some x]> m) = <[k:=x]> (live m).
Proof. unfold live. by erewrite omap_insert_Some. Qed.

Lemma live_alter_None {K V} `{Countable K} (m : gmap K (option V)) k :
  live (alter (λ _, None) k m) = delete k (live m).
Proof.
  apply map_eq; intros i. unfold live. rewrite lookup_delete, !lookup_omap, lookup_alter.
  repeat case_decide; simplify_eq; [|done]. by destruct (m !! i).
Qed.

Lemma live_dom {K V} `{Countable K} (m : gmap K (option V)) : dom (live m) ⊆ dom m.
Proof.
  intros k. rewrite !elem_of_dom. unfold live. rewrite lookup_omap.
  destruct (m !! k); cbn; [eauto|by intros []].
Qed.

Lemma next_node_fresh g : next_node g ∉ dom (mg_nodes g).
Proof.
  rewrite elem_of_dom. intros Hs. apply (max_key_bound NodeId_0) in Hs. cbn in Hs. lia.
Qed.

Lemma next_edge_fresh g : next_edge g ∉ dom (mg_edges g).
Proof.
  rewrite elem_of_dom. intros Hs. apply (max_key_bound EdgeId_0) in Hs. cbn in Hs. lia.
Qed.

Lemma dom_insert_live {K V} `{Countable K} (m : gmap K (option V)) k x r :
  live m !! k = Some r → dom (<[k:=x]> m) = dom m.
Proof.
  unfold live. rewrite lookup_omap. intros Hk. rewrite dom_insert_L.
  assert (k ∈ dom m); [|set_solver]. apply elem_of_dom. destruct (m !! k); [eauto|done].
Qed.

#[export, refine] Instance MemGraph_laws : GrafeoLaws MemGraph := {|
  view_nodes g := live (mg_nodes g);
  view_edges g := live (mg_edges g);
  used_nodes g := dom (mg_nodes g);
  used_edges g := dom (mg_edges g)
|}.
Proof.
  - intros g. apply live_dom.
  - intros g. apply live_dom.
  - intros labels props g _. cbn. rewrite live_insert, dom_insert_L.
    split; [apply next_node_fresh|done].
  - intros id k v g. cbn. destruct (mg_nodes g !! id) as [[r|]|] eqn:E; cbn; [|done..].
    assert (Hl : live (mg_nodes g) !! id = Some r) by (unfold live; by rewrite lookup_omap, E).
    split; [by eapply dom_insert_live|]. split; [done|]. split; [done|].
    exists r. by rewrite live_insert.
  - intros id g. cbn. split; [apply dom_alter_L|]. split; [apply dom_fmap_L|].
    split; [apply live_alter_None|].
    intros e r Hs Hd. unfold live. rewrite !lookup_omap, lookup_fmap.
    destruct (mg_edges g !! e) as [[r'|]|]; cbn; [|done..]. intros [= ->].
    by rewrite bool_decide_eq_false_2 by naive_solver.
  - intros src dst label props g _. cbn. rewrite live_insert, dom_insert_L.
    split; [apply next_edge_fresh|done].
  - intros id k v g. cbn. destruct (mg_edges g !! id) as [[r|]|] eqn:E; cbn; [|done..].
    assert (Hl : live (mg_edges g) !! id = Some r) by (unfold live; by rewrite lookup_omap, E).
    split; [done|]. split; [by eapply dom_insert_live|]. split; [done|].
    exists r. by rewrite live_insert.
  - intros src dst label g. cbn. rewrite live_insert, dom_insert_L.
    split; [apply next_edge_fresh|done].
  - intros id g. cbn. split; [done|]. split; [apply dom_alter_L|]. split; [done|].
    apply live_alter_None.
Defined.

(** The empty session with empty maps is coupled. *)
Definition st0 : TxState MemGraph := mkTxState MemGraph_new BridgeMaps_new.

Lemma st0_coupled : st_coupled st0.
Proof. split; cbn; [apply inverse_maps_empty..| |]; intros *; by rewrite lookup_empty. Qed.

Lemma apply_loro_ops_refines_witness :
  let ops := [UpsertNode "a" ["L"] {["p" := GraphValue_Integer 1]}; UpsertNode "b" [] ∅;
              UpsertEdge "a" "b" TREE_EDGE_LABEL ∅; TreeMove "b" "a" "b";
              DeleteEdge "b" "b" TREE_EDGE_LABEL; DeleteNode "b"; UpsertEdge "a" "b" "X" ∅] in
  refines (spec_run ops (st_abs st0)) (apply_loro_ops ops st0) ∧
  ¬ is_ok (apply_loro_ops ops st0).1 = true.
Proof.
  split; [|by vm_compute].
  apply apply_loro_ops_refines; [apply st0_coupled|].
  apply (bool_decide_unpack _). vm_compute. exact I.
Defined.

(** The maps keep the bindings of the edges of a deleted vertex, so an edge
    inserted again after its vertex was recreated is silently not created. *)
Example stale_edge_binding_swallows_edge :
  let edge := UpsertEdge "a" "b" "L" ∅ in
  let ops := [UpsertNode "a" [] ∅; UpsertNode "b" [] ∅; edge; DeleteNode "a";
              UpsertNode "a" [] ∅; edge] in
  let '(res, st) := apply_loro_ops ops st0 in
  res = Ok tt ∧ edges_list (tx_session st) = [] ∧
  is_Some (edge_id_map (tx_maps st) !! ("a", "b", "L")).
Proof. vm_compute. split; [done|]. split; [done|]. by eexists. Qed.
