(* ===== verification/Batcher.v ===== *)
(** * Inbound mutation batcher ([src/bridge/batcher.rs])

    The buffer of Loro operations and the loop that flushes it into one grafeo
    transaction per batch.  [GrafeoDB] is what the crate calls of the database
    handle; the choices of the runtime (which branch of [select!] is ready, how
    the blocking task ends) are arguments.

    A flush runs on a thread of the blocking pool while the batcher awaits it, so
    the loop is given twice.  [batcher_select], [blocking_step] and
    [batcher_join] are its pieces, cut where other tasks can run: the branch that
    is ready up to [spawn_blocking], the thread up to the end of the commit, the
    recording of the epoch, and the end of the await.  [run_iteration] and [run]
    are the whole [async fn] on a machine where nothing else runs;
    [run_iteration_pieces] shows they are the pieces put together. *)

From S2P Require Import Prelude Types Values BridgeMaps GrafeoTx GraphSpec.

Class GrafeoDB (D S : Type) : Type := {
  session : D → S;
  session_with_cdc : D → bool → S;
  begin_transaction : SE S string unit;
  begin_transaction_serializable : SE S string unit;
  prepare_commit : SE S string unit;
  set_metadata : string → string → S → S;
  commit : S → D → result string EpochId * D;
  current_epoch : D → EpochId
}.

(** What the flush closure shares with the rest of the engine. *)
Record FlushState (D : Type) : Type := mkFlushState {
  fs_db : D;
  fs_maps : BridgeMaps;
  bridge_origin_epochs : gset EpochId
}.
Arguments mkFlushState {D}.
Arguments fs_db {D}.
Arguments fs_maps {D}.
Arguments bridge_origin_epochs {D}.

Record BatcherConfig : Type := mkBatcherConfig {
  batch_size : Z;
  batch_ms : Z;
  cfg_metrics : bool;
  cfg_health : bool
}.

(** The closure handed to [spawn_blocking]: with its transaction before it,
    between the return of [prepared.commit()] and [epochs.insert], at its end, or
    unwound by a panic. *)
Inductive Blocking : Type :=
| BkQueued (ops : list LoroOp)
| BkCommitted (epoch : EpochId)
| BkReturned (r : Result unit)
| BkPanicked (join_err : string).

(** A flush the batcher awaits: the operations it was given (the code keeps
    their number as [op_count]), the closure, and whether it is the flush of the
    shutdown branch. *)
Record Flight : Type := mkFlight {
  fl_ops : list LoroOp;
  fl_task : Blocking;
  fl_last : bool
}.

(** [mb_flight] is the flush the loop awaits, [mb_background] holds the closures
    that outlived their timeout; [mb_flush_metrics] the operation counts recorded
    by [record_batch_flush] and [mb_sync_stamps] the calls of [update_sync_ts]. *)
Record MutationBatcher (D : Type) : Type := mkBatcher {
  mb_fs : FlushState D;
  mb_buffer : list LoroOp;
  mb_flight : option Flight;
  mb_background : list Blocking;
  mb_flush_metrics : list Z;
  mb_sync_stamps : nat
}.
Arguments mkBatcher {D}.
Arguments mb_fs {D}.
Arguments mb_buffer {D}.
Arguments mb_flight {D}.
Arguments mb_background {D}.
Arguments mb_flush_metrics {D}.
Arguments mb_sync_stamps {D}.

Definition MutationBatcher_new {D} (fs : FlushState D) : MutationBatcher D :=
  mkBatcher fs [] None [] [] 0.

Definition BatcherConfig_defaults (metrics health : bool) : BatcherConfig :=
  mkBatcherConfig DEFAULT_BATCH_SIZE DEFAULT_BATCH_MS metrics health.

(** How [timeout(FLUSH_TIMEOUT, blocking)] ends: the task ran to completion, it
    panicked while [k] operations were applied, or the timeout elapsed first. *)
Inductive JoinOutcome : Type :=
| Joined
| Panicked (k : nat) (join_err : string)
| Elapsed.

Inductive BatcherEvent : Type :=
| EvShutdown
| EvRecv (op : LoroOp)
| EvTick.

Inductive RunStatus : Type :=
| Running
| Finished (r : Result unit).

Section batcher.
  Context {D S : Type} `{GrafeoSession S} `{GrafeoDB D S} `{HashOrder}.
  Implicit Types b : MutationBatcher D.

(** ** The blocking closure *)

(** From the opening of the session to [prepared.commit()?]. *)
Definition flush_transaction (ops : list LoroOp) : SE (FlushState D) GrafeoLoroError EpochId :=
  λ fs,
  match begin_transaction (session_with_cdc (fs_db fs) true) with
  | (Err e, _) => (Err (EGrafeo e), fs)
  | (Ok _, s1) =>
      let '(r, st) := apply_loro_ops ops (mkTxState s1 (fs_maps fs)) in
      let fs1 := mkFlushState (fs_db fs) (tx_maps st) (bridge_origin_epochs fs) in
      match r with
      | Err e => (Err e, fs1)
      | Ok _ =>
          match prepare_commit (tx_session st) with
          | (Err e, _) => (Err (EGrafeo e), fs1)
          | (Ok _, s2) =>
              let '(c, d) := commit (set_metadata "origin" ORIGIN_LORO_BRIDGE s2) (fs_db fs1) in
              (map_err EGrafeo c, mkFlushState d (fs_maps fs1) (bridge_origin_epochs fs1))
          end
      end
  end.

(** [epochs.write().insert(epoch)]. *)
Definition flush_record (epoch : EpochId) (fs : FlushState D) : FlushState D :=
  mkFlushState (fs_db fs) (fs_maps fs) ({[epoch]} ∪ bridge_origin_epochs fs).

Definition flush_closure (ops : list LoroOp) : SE (FlushState D) GrafeoLoroError unit :=
  epoch ← flush_transaction ops; SE_modify (flush_record epoch).

(** The maps after a panic in the middle of the loop: the session is dropped
    without a commit. *)
Definition flush_panic (k : nat) (ops : list LoroOp) (fs : FlushState D) : FlushState D :=
  match begin_transaction (session_with_cdc (fs_db fs) true) with
  | (Err _, _) => fs
  | (Ok _, s1) =>
      mkFlushState (fs_db fs) (tx_maps (apply_loro_ops (take k ops) (mkTxState s1 (fs_maps fs))).2)
        (bridge_origin_epochs fs)
  end.

(** ** The closure on its thread *)

(** A panic comes from the calls of the transaction, after [k] operations. *)
Inductive BkChoice : Type := BkGo | BkPanic (k : nat) (join_err : string).

Definition blocking_step (c : BkChoice) (bk : Blocking) (fs : FlushState D) :
    option (Blocking * FlushState D) :=
  match bk with
  | BkQueued ops =>
      match c with
      | BkGo =>
          let '(r, fs') := flush_transaction ops fs in
          Some (match r with Ok epoch => BkCommitted epoch | Err e => BkReturned (Err e) end, fs')
      | BkPanic k join_err => Some (BkPanicked join_err, flush_panic k ops fs)
      end
  | BkCommitted epoch => Some (BkReturned (Ok tt), flush_record epoch fs)
  | BkReturned _ | BkPanicked _ => None
  end.

(** The steps a closure has left. *)
Definition thread_fuel (bk : Blocking) : nat :=
  match bk with BkQueued _ => 2 | BkCommitted _ => 1 | BkReturned _ | BkPanicked _ => 0 end.

(** A closure nobody disturbs, from where it is to its end. *)
Definition blocking_finish (bk : Blocking) (fs : FlushState D) : FlushState D :=
  match bk with
  | BkQueued ops => (flush_closure ops fs).2
  | BkCommitted epoch => flush_record epoch fs
  | BkReturned _ | BkPanicked _ => fs
  end.

(** ** The pieces of the loop *)

Definition set_fs_of (fs : FlushState D) b : MutationBatcher D :=
  mkBatcher fs (mb_buffer b) (mb_flight b) (mb_background b) (mb_flush_metrics b) (mb_sync_stamps b).
Definition set_buffer (buf : list LoroOp) b : MutationBatcher D :=
  mkBatcher (mb_fs b) buf (mb_flight b) (mb_background b) (mb_flush_metrics b) (mb_sync_stamps b).
Definition set_flight (fl : option Flight) b : MutationBatcher D :=
  mkBatcher (mb_fs b) (mb_buffer b) fl (mb_background b) (mb_flush_metrics b) (mb_sync_stamps b).
Definition set_background (bg : list Blocking) b : MutationBatcher D :=
  mkBatcher (mb_fs b) (mb_buffer b) (mb_flight b) bg (mb_flush_metrics b) (mb_sync_stamps b).

(** [record_batch_flush] and [update_sync_ts] after a successful flush. *)
Definition flush_telemetry (cfg : BatcherConfig) (op_count : Z) b : MutationBatcher D :=
  mkBatcher (mb_fs b) (mb_buffer b) (mb_flight b) (mb_background b)
    (if cfg_metrics cfg then mb_flush_metrics b ++ [op_count] else mb_flush_metrics b)
    (if cfg_health cfg then Datatypes.S (mb_sync_stamps b) else mb_sync_stamps b).

(** [flush] and [flush_inner] up to the await: the buffer is drained into a new
    closure; nothing is spawned for an empty one. *)
Definition flush_spawn (last : bool) b : MutationBatcher D :=
  match mb_buffer b with
  | [] => b
  | drained => set_flight (Some (mkFlight drained (BkQueued drained) last)) (set_buffer [] b)
  end.

(** The branch of [select!] that is ready, up to the await of its flush. *)
Definition batcher_select (cfg : BatcherConfig) (ev : BatcherEvent) b : RunStatus * MutationBatcher D :=
  match ev with
  | EvShutdown =>
      match mb_buffer b with
      | [] => (Finished (Ok tt), b)
      | _ => (Running, flush_spawn true b)
      end
  | EvRecv op =>
      let b' := set_buffer (mb_buffer b ++ [op]) b in
      if (Z.of_nat (length (mb_buffer b')) <? batch_size cfg)%Z then (Running, b')
      else (Running, flush_spawn false b')
  | EvTick => (Running, flush_spawn false b)
  end.

(** The end of the await: the join handle first, then the timeout, which leaves
    the closure running.  [None] while neither is ready.  After the flush of the
    shutdown branch the loop breaks; an error leaves it through [?]. *)
Definition batcher_join (cfg : BatcherConfig) (elapsed : bool) b : option (RunStatus * MutationBatcher D) :=
  match mb_flight b with
  | None => None
  | Some fl =>
      let status (r : Result unit) :=
        match r with
        | Ok _ => if fl_last fl then Finished (Ok tt) else Running
        | Err e => Finished (Err e)
        end in
      let b' := set_flight None b in
      match fl_task fl with
      | BkReturned (Ok _) =>
          Some (status (Ok tt), flush_telemetry cfg (Z.of_nat (length (fl_ops fl))) b')
      | BkReturned (Err e) => Some (status (Err e), b')
      | BkPanicked join_err =>
          Some (status (Err (EBridge ("inbound flush blocking task panicked: " +:+ join_err))), b')
      | bk =>
          if elapsed
          then Some (status (Err (EBridge "inbound flush timeout after 5s")),
                     set_background (mb_background b ++ [bk]) b')
          else None
      end
  end.

(** A step of the thread of the awaited flush, and of one of the closures that
    outlived their timeout. *)
Definition flight_step (c : BkChoice) b : option (MutationBatcher D) :=
  match mb_flight b with
  | None => None
  | Some fl =>
      match blocking_step c (fl_task fl) (mb_fs b) with
      | None => None
      | Some (bk, fs) => Some (set_flight (Some (mkFlight (fl_ops fl) bk (fl_last fl))) (set_fs_of fs b))
      end
  end.

Definition background_step (i : nat) (c : BkChoice) b : option (MutationBatcher D) :=
  match mb_background b !! i with
  | None => None
  | Some bk =>
      match blocking_step c bk (mb_fs b) with
      | None => None
      | Some (bk', fs) => Some (set_background (<[i := bk']> (mb_background b)) (set_fs_of fs b))
      end
  end.

(** The closures of the batcher, awaited or not. *)
Definition blocking_tasks b : list Blocking :=
  match mb_flight b with Some fl => [fl_task fl] | None => [] end ++ mb_background b.

(** ** The whole loop, undisturbed *)

Definition flush_inner (cfg : BatcherConfig) (outcome : JoinOutcome) (ops : list LoroOp) :
    SE (MutationBatcher D) GrafeoLoroError unit := λ b,
  let op_count := Z.of_nat (length ops) in
  match outcome with
  | Joined =>
      let '(res, fs) := flush_closure ops (mb_fs b) in
      match res with
      | Ok _ => (Ok tt, flush_telemetry cfg op_count (set_fs_of fs b))
      | Err e => (Err e, set_fs_of fs b)
      end
  | Panicked k join_err =>
      (Err (EBridge ("inbound flush blocking task panicked: " +:+ join_err)),
       set_fs_of (flush_panic k ops (mb_fs b)) b)
  | Elapsed =>
      (Err (EBridge "inbound flush timeout after 5s"),
       set_background (mb_background b ++ [BkQueued ops]) b)
  end.

Definition flush (cfg : BatcherConfig) (outcome : JoinOutcome) :
    SE (MutationBatcher D) GrafeoLoroError unit := λ b,
  let drained := mb_buffer b in
  let b' := set_buffer [] b in
  match drained with
  | [] => (Ok tt, b')
  | _ => flush_inner cfg outcome drained b'
  end.

(** One iteration of the [select!] loop of [run] on the branch that is ready.
    An error leaves the loop through [?]. *)
Definition run_iteration (cfg : BatcherConfig) (outcome : JoinOutcome) (ev : BatcherEvent) b :
    RunStatus * MutationBatcher D :=
  let continue '(r, b') :=
    match r with Ok _ => (Running, b') | Err e => (Finished (Err e), b') end in
  match ev with
  | EvShutdown =>
      let drained := mb_buffer b in
      let b' := set_buffer [] b in
      match drained with
      | [] => (Finished (Ok tt), b')
      | _ =>
          let '(r, b'') := flush_inner cfg outcome drained b' in
          (Finished r, b'')
      end
  | EvRecv op =>
      let b' := set_buffer (mb_buffer b ++ [op]) b in
      if (Z.of_nat (length (mb_buffer b')) <? batch_size cfg)%Z then (Running, b')
      else continue (flush cfg outcome b')
  | EvTick => continue (flush cfg outcome b)
  end.

(** [run] on a sequence of ready branches: it stops reading them once the loop
    is left. *)
Fixpoint run (cfg : BatcherConfig) (evs : list (BatcherEvent * JoinOutcome)) b :
    RunStatus * MutationBatcher D :=
  match evs with
  | [] => (Running, b)
  | (ev, o) :: evs =>
      match run_iteration cfg o ev b with
      | (Running, b') => run cfg evs b'
      | out => out
      end
  end.

(** The closures that outlived their timeout complete, one after the other. *)
Definition background_finish b : MutationBatcher D :=
  set_background [] (set_fs_of (foldl (flip blocking_finish) (mb_fs b) (mb_background b)) b).

(** The operations a sequence of events delivers. *)
Definition received (evs : list (BatcherEvent * JoinOutcome)) : list LoroOp :=
  evs ≫= λ '(ev, _), match ev with EvRecv op => [op] | _ => [] end.


(** The thread of a flush up to the outcome the await sees. *)
Definition blocking_run (outcome : JoinOutcome) b : MutationBatcher D :=
  match outcome with
  | Joined => let b1 := default b (flight_step BkGo b) in default b1 (flight_step BkGo b1)
  | Panicked k join_err => default b (flight_step (BkPanic k join_err) b)
  | Elapsed => b
  end.

(** One iteration is its pieces: the branch, the thread and the join, with
    nothing else in between. *)
Lemma run_iteration_pieces cfg o ev b :
  mb_flight b = None →
  run_iteration cfg o ev b =
    let '(s, b1) := batcher_select cfg ev b in
    default (s, b1) (batcher_join cfg true (blocking_run o b1)).
Proof.
  intros Hn. destruct b as [fs buf fl bg me st]. cbn in Hn. subst fl.
  assert (Hfl : ∀ last x l, let b1 := mkBatcher fs [] None bg me st in
    let '(r, b2) := flush_inner cfg o (x :: l) b1 in
    batcher_join cfg true (blocking_run o (set_flight (Some (mkFlight (x :: l) (BkQueued (x :: l)) last)) b1)) =
      Some (match r with Ok _ => if last : bool then Finished (Ok tt) else Running | Err e => Finished (Err e) end, b2)).
  { intros last x l. cbn zeta. unfold flush_inner, flush_closure, mbind, SE_bind, SE_modify. destruct o as [|k msg|]; cbn; [|done..].
    unfold flight_step. cbn. destruct (flush_transaction (x :: l) fs) as [[ep|e] fs']; done. }
  destruct ev as [|op|]; cbn -[flush_inner].
  - destruct buf as [|x l]; [by destruct o|]. specialize (Hfl true x l).
    unfold flush_spawn, set_buffer. cbn -[flush_inner] in *.
    destruct (flush_inner _ _ _ _) as [[[]|e] b2]; by rewrite Hfl.
  - case_match; [by destruct o|]. unfold flush, flush_spawn, set_buffer. cbn -[flush_inner] in *.
    destruct (buf ++ [op]) as [|x l]; [by destruct o|]. specialize (Hfl false x l). cbn -[flush_inner] in Hfl.
    destruct (flush_inner _ _ _ _) as [[[]|e] b2]; by rewrite Hfl.
  - unfold flush, flush_spawn, set_buffer. cbn -[flush_inner] in *. destruct buf as [|x l]; [by destruct o|].
    specialize (Hfl false x l). cbn -[flush_inner] in Hfl.
    destruct (flush_inner _ _ _ _) as [[[]|e] b2]; by rewrite Hfl.
Qed.

Lemma blocking_step_fuel c bk bk' (fs fs' : FlushState D) :
  blocking_step c bk fs = Some (bk', fs') → thread_fuel bk' < thread_fuel bk.
Proof.
  destruct bk as [ops|ep|r|msg]; cbn; intros Hs; simplify_eq; cbn; try lia.
  destruct c; [destruct (flush_transaction ops _) as [[]?]|]; simplify_eq; cbn; lia.
Qed.

Lemma blocking_step_ready c bk (fs : FlushState D) : is_Some (blocking_step c bk fs) ↔ 0 < thread_fuel bk.
Proof.
  split; [intros [[bk' fs'] Hs]; apply blocking_step_fuel in Hs; lia|].
  destruct bk as [ops|ep|r|msg]; cbn; try lia; intros _; [|by eexists].
  destruct c; [destruct (flush_transaction ops _)|]; by eexists.
Qed.

(** The batch an iteration hands to its flush, and the flushes of [run], in
    order, each with the end of its blocking task. *)
Definition iteration_batch (cfg : BatcherConfig) (ev : BatcherEvent) (buf : list LoroOp) :
    list (list LoroOp) :=
  let batch l := match l with [] => [] | _ => [l] end in
  match ev with
  | EvShutdown | EvTick => batch buf
  | EvRecv op =>
      if (Z.of_nat (length (buf ++ [op])) <? batch_size cfg)%Z then [] else batch (buf ++ [op])
  end.

Fixpoint run_flushes (cfg : BatcherConfig) (evs : list (BatcherEvent * JoinOutcome)) b :
    list (list LoroOp * JoinOutcome) :=
  match evs with
  | [] => []
  | (ev, o) :: evs =>
      ((λ x, (x, o)) <$> iteration_batch cfg ev (mb_buffer b)) ++
      match run_iteration cfg o ev b with
      | (Running, b') => run_flushes cfg evs b'
      | _ => []
      end
  end.

(** ** The task of [run] *)

(** [run] under [tokio::spawn], up to what awaiting its handle gives: nothing yet,
    the value of [run], or a [JoinError] if the task unwound.  A panic of a flush
    closure does not get here.  What does is a panic of the runtime inside
    [spawn_blocking] (it cannot start a thread), in place of a [JoinOutcome]. *)
Fixpoint run_task (cfg : BatcherConfig) (evs : list (BatcherEvent * result string JoinOutcome)) b :
    option (result string (Result unit)) * MutationBatcher D :=
  match evs with
  | [] => (None, b)
  | (ev, o) :: evs =>
      match o, iteration_batch cfg ev (mb_buffer b) with
      | Err join_err, _ :: _ => (Some (Err join_err), set_buffer [] b)
      | _, _ =>
          match run_iteration cfg (match o with Ok o => o | Err _ => Joined end) ev b with
          | (Running, b') => run_task cfg evs b'
          | (Finished r, b') => (Some (Ok r), b')
          end
      end
  end.

(** Before the loop [tokio::time::interval] panics on an empty period. *)
Definition spawn_run (cfg : BatcherConfig) (evs : list (BatcherEvent * result string JoinOutcome)) b :
    option (result string (Result unit)) * MutationBatcher D :=
  if (batch_ms cfg =? 0)%Z then (Some (Err "`period` must be non-zero."), b) else run_task cfg evs b.

(** With its threads started the task is [run]. *)
Lemma run_task_run cfg (evs : list (BatcherEvent * JoinOutcome)) b :
  run_task cfg (prod_map id Ok <$> evs) b =
    let '(s, b') := run cfg evs b in
    (match s with Running => None | Finished r => Some (Ok r) end, b').
Proof.
  revert b. induction evs as [|[ev o] evs IH]; intros b; [done|]. cbn -[run_iteration iteration_batch].
  destruct (run_iteration cfg o ev b) as [[|r] b1]; [apply IH|done].
Qed.

(** Handing batches to [flush_inner], one after the other: each runs the
    transaction over exactly its operations and succeeds, but for the last one,
    which may fail. *)
Inductive handed (cfg : BatcherConfig) :
    MutationBatcher D → list (list LoroOp * JoinOutcome) → Result unit → MutationBatcher D → Prop :=
| handed_nil b : handed cfg b [] (Ok tt) b
| handed_cons ops b b1 rest r b2 :
    flush_inner cfg Joined ops b = (Ok tt, b1) → flush_closure ops (mb_fs b) = (Ok tt, mb_fs b1) →
    handed cfg b1 rest r b2 → handed cfg b ((ops, Joined) :: rest) r b2
| handed_fail ops o b e b1 :
    flush_inner cfg o ops b = (Err e, b1) → handed cfg b [(ops, o)] (Err e) b1.

(** ** Conservation of operations *)

Lemma flush_inner_buffer cfg o ops b : mb_buffer (flush_inner cfg o ops b).2 = mb_buffer b.
Proof. unfold flush_inner. destruct o; [|done..]. by destruct (flush_closure _ _) as [[[]|]]. Qed.

Lemma flush_buffer cfg o b : mb_buffer (flush cfg o b).2 = [].
Proof.
  unfold flush. destruct (mb_buffer b); [done|]. by rewrite flush_inner_buffer.
Qed.

Definition new_op (ev : BatcherEvent) : list LoroOp :=
  match ev with EvRecv op => [op] | _ => [] end.

(** One iteration moves the buffer, with the received operation at its end,
    either into the batch it flushes or into the next buffer. *)
Lemma run_iteration_conserves cfg o ev b :
  let '(s, b') := run_iteration cfg o ev b in
  mb_buffer b ++ new_op ev = concat (iteration_batch cfg ev (mb_buffer b)) ++ mb_buffer b' ∧
  (∀ r, s = Finished r → mb_buffer b' = []) ∧
  ((Z.of_nat (length (mb_buffer b)) < Z.max 1 (batch_size cfg))%Z →
   (Z.of_nat (length (mb_buffer b')) < Z.max 1 (batch_size cfg))%Z).
Proof.
  assert (Hcat : ∀ l : list LoroOp, concat (match l with [] => [] | _ => [l] end) = l).
  { intros []; cbn; by rewrite ?app_nil_r. }
  assert (Hfl : ∀ b0, let '(s, b') :=
      (let '(r, b') := flush cfg o b0 in
       match r with Ok _ => (Running, b') | Err e => (Finished (Err e), b') end) in
    mb_buffer b' = []).
  { intros b0. pose proof (flush_buffer cfg o b0). by destruct (flush cfg o b0) as [[]]. }
  destruct ev as [|op|]; cbn.
  - rewrite app_nil_r. destruct (mb_buffer b) as [|x l] eqn:Hb; cbn.
    { split; [done|]. split; [done|]. lia. }
    pose proof (flush_inner_buffer cfg o (x :: l) (set_buffer [] b)) as Hfi.
    destruct (flush_inner _ _ _ _) as [r b']. cbn in Hfi. rewrite Hfi.
    split; [by rewrite !app_nil_r|]. split; [done|]. cbn. lia.
  - destruct (_ <? _)%Z eqn:Hlt; cbn.
    + split; [done|]. split; [done|]. intros _. apply Z.ltb_lt in Hlt. lia.
    + rewrite Hcat. specialize (Hfl (set_buffer (mb_buffer b ++ [op]) b)).
      destruct (flush _ _ _) as [[]]; rewrite Hfl, app_nil_r; (split; [done|]; split; [done|]; cbn; lia).
  - rewrite Hcat, app_nil_r. specialize (Hfl b).
    destruct (flush _ _ _) as [[]]; rewrite Hfl, app_nil_r; (split; [done|]; split; [done|]; cbn; lia).
Qed.

Lemma iteration_batch_bounds cfg ev (buf : list LoroOp) :
  (Z.of_nat (length buf) < Z.max 1 (batch_size cfg))%Z →
  Forall (λ l, l ≠ [] ∧ (Z.of_nat (length l) ≤ Z.max 1 (batch_size cfg))%Z)
    (iteration_batch cfg ev buf).
Proof.
  intros Hb. destruct ev as [|op|]; cbn.
  - destruct buf; cbn in *; repeat constructor; [done|]. cbn. lia.
  - rewrite length_app. cbn.
    destruct (_ <? _)%Z eqn:Hlt; [constructor|]. apply Z.ltb_ge in Hlt.
    destruct (buf ++ [op]) as [|x l] eqn:E; [constructor|]. repeat constructor; [done|].
    rewrite <-E, length_app. cbn. lia.
  - destruct buf; cbn in *; repeat constructor; [done|]. cbn. lia.
Qed.

Lemma received_cons ev o evs : received ((ev, o) :: evs) = new_op ev ++ received evs.
Proof. done. Qed.

Lemma batches_of_flushes (o : JoinOutcome) (l : list (list LoroOp)) : ((λ x, (x, o)) <$> l).*1 = l.
Proof. rewrite <-list_fmap_compose. apply list_fmap_id. Qed.

Lemma batcher_conserves_aux cfg evs b :
  let '(s, b') := run cfg evs b in
  ∃ used rest, evs = used ++ rest ∧
    mb_buffer b ++ received used = concat (run_flushes cfg evs b).*1 ++ mb_buffer b' ∧
    match s with Running => rest = [] | Finished _ => mb_buffer b' = [] end.
Proof.
  revert b. induction evs as [|[ev o] evs IH]; intros b; cbn [run run_flushes].
  { exists [], []. cbn. by rewrite app_nil_r. }
  pose proof (run_iteration_conserves cfg o ev b) as Hit.
  destruct (run_iteration cfg o ev b) as [[|r] b1]; destruct Hit as (Hc&Hf&_);
    rewrite fmap_app, batches_of_flushes, concat_app.
  - specialize (IH b1). destruct (run cfg evs b1) as [s b2]. destruct IH as (used&rest&->&Hr&Hs).
    exists ((ev, o) :: used), rest. split; [done|]. split; [|done].
    rewrite received_cons, (assoc_L (++)), Hc, <-!(assoc_L (++)), Hr. done.
  - exists [(ev, o)], evs. split; [done|]. split; [|by eapply Hf].
    rewrite received_cons, !app_nil_r. done.
Qed.

Lemma run_flushes_bounds cfg evs b :
  (Z.of_nat (length (mb_buffer b)) < Z.max 1 (batch_size cfg))%Z →
  Forall (λ f, f.1 ≠ [] ∧ (Z.of_nat (length f.1) ≤ Z.max 1 (batch_size cfg))%Z) (run_flushes cfg evs b) ∧
  (Z.of_nat (length (mb_buffer (run cfg evs b).2)) < Z.max 1 (batch_size cfg))%Z.
Proof.
  revert b. induction evs as [|[ev o] evs IH]; intros b Hb; cbn [run run_flushes].
  { by split; [constructor|]. }
  pose proof (run_iteration_conserves cfg o ev b) as Hit.
  assert (Hbb : Forall (λ f, f.1 ≠ [] ∧ (Z.of_nat (length f.1) ≤ Z.max 1 (batch_size cfg))%Z)
    ((λ x, (x, o)) <$> iteration_batch cfg ev (mb_buffer b))).
  { apply Forall_fmap. eapply Forall_impl; [by apply iteration_batch_bounds|done]. }
  destruct (run_iteration cfg o ev b) as [[|r] b1]; destruct Hit as (_&_&Hlt).
  - destruct (IH b1 (Hlt Hb)) as [? ?]. split; [by apply Forall_app|done].
  - rewrite app_nil_r. auto.
Qed.

(** The flushes are what the loop does: the state it leaves, its buffer aside, is
    what these batches make of the first one, and its status follows theirs. *)

Lemma flush_inner_any_buffer cfg o ops buf b :
  flush_inner cfg o ops (set_buffer buf b) =
    let '(r, b') := flush_inner cfg o ops b in (r, set_buffer buf b').
Proof. unfold flush_inner. destruct o; [|done..]. cbn. by destruct (flush_closure _ _) as [[[]|]]. Qed.

Lemma flush_inner_closure cfg o ops b b' :
  flush_inner cfg o ops b = (Ok tt, b') → o = Joined ∧ flush_closure ops (mb_fs b) = (Ok tt, mb_fs b').
Proof.
  unfold flush_inner. destruct o; [|done..]. destruct (flush_closure _ _) as [[[]|]]; [|done].
  by intros [= <-].
Qed.

Lemma handed_one cfg o ops b rest r b2 :
  let '(r1, b1) := flush_inner cfg o ops b in
  match r1 with
  | Ok _ => handed cfg b1 rest r b2
  | Err e => rest = [] ∧ r = Err e ∧ b2 = b1
  end → handed cfg b ((ops, o) :: rest) r b2.
Proof.
  destruct (flush_inner cfg o ops b) as [[[]|e] b1] eqn:Hf.
  - destruct (flush_inner_closure _ _ _ _ _ Hf) as [-> Hc]. by apply handed_cons.
  - intros (->&->&->). by apply handed_fail.
Qed.

(** The result of the loop so far. *)
Definition status_result (s : RunStatus) : Result unit := match s with Running => Ok tt | Finished r => r end.

Lemma run_iteration_handed cfg o ev b rest r b2 :
  let '(s, b1) := run_iteration cfg o ev b in
  match s with
  | Running => handed cfg (set_buffer [] b1) rest r b2
  | Finished r' => rest = [] ∧ r = r' ∧ b2 = set_buffer [] b1
  end → handed cfg (set_buffer [] b) (((λ x, (x, o)) <$> iteration_batch cfg ev (mb_buffer b)) ++ rest) r b2.
Proof.
  assert (Hnil : ∀ b0, set_buffer [] (set_buffer [] b0) = set_buffer [] b0) by done.
  assert (Hone : ∀ x l (b0 : MutationBatcher D), set_buffer [] b0 = set_buffer [] b →
    let '(r1, b1) := flush_inner cfg o (x :: l) (set_buffer [] b0) in
    match r1 with
    | Ok _ => handed cfg (set_buffer [] b1) rest r b2
    | Err e => rest = [] ∧ r = Err e ∧ b2 = set_buffer [] b1
    end → handed cfg (set_buffer [] b) ((x :: l, o) :: rest) r b2).
  { intros x l b0 Hb0. pose proof (handed_one cfg o (x :: l) (set_buffer [] b) rest r b2) as Ho.
    rewrite Hb0, !flush_inner_any_buffer in *. by destruct (flush_inner cfg o (x :: l) b) as [[[]|e] b1]. }
  destruct ev as [|op|]; cbn -[flush_inner].
  - destruct (mb_buffer b) as [|x l] eqn:Hb; [by intros (->&->&->); constructor|].
    specialize (Hone x l b eq_refl). destruct (flush_inner _ _ _ _) as [[[]|e] b1]; [|exact Hone].
    intros (->&->&->). apply Hone. constructor.
  - destruct (_ <? _)%Z; [done|]. unfold flush. cbn -[flush_inner].
    destruct (mb_buffer b ++ [op]) as [|x l] eqn:Hb; [done|].
    specialize (Hone x l (set_buffer (x :: l) b) eq_refl). by destruct (flush_inner _ _ _ _) as [[[]|e] b1].
  - unfold flush. destruct (mb_buffer b) as [|x l] eqn:Hb; [done|].
    specialize (Hone x l b eq_refl). by destruct (flush_inner _ _ _ _) as [[[]|e] b1].
Qed.

Lemma run_handed cfg evs b :
  let '(s, b') := run cfg evs b in
  handed cfg (set_buffer [] b) (run_flushes cfg evs b) (status_result s) (set_buffer [] b').
Proof.
  revert b. induction evs as [|[ev o] evs IH]; intros b; cbn [run run_flushes]; [constructor|].
  pose proof (run_iteration_handed cfg o ev b) as Hit.
  destruct (run_iteration cfg o ev b) as [[|r] b1].
  - specialize (IH b1). destruct (run cfg evs b1) as [s b2]. by apply Hit.
  - by apply Hit.
Qed.

(** C15: whatever branches of the loop become ready and however the blocking
    tasks end, the operations received are exactly those of the batches handed
    to the flushes, in order and without loss or duplication, followed by those
    still buffered; and the state the loop leaves (database, id maps, recorded
    epochs, telemetry, closures left in the background) is what flushing exactly
    these batches, one after the other, makes of the first one: all of them
    committed but for the last one of a loop that left with its error.  A loop
    that stopped holds no operation back; no flush is empty or larger than the
    batch size, and the buffer stays below it. *)
Theorem batcher_conserves_ops (cfg : BatcherConfig) (evs : list (BatcherEvent * JoinOutcome))
  (b : MutationBatcher D)
  (Hb : (Z.of_nat (length (mb_buffer b)) < Z.max 1 (batch_size cfg))%Z) :
  let '(s, b') := run cfg evs b in
  ∃ flushes : list (list LoroOp * JoinOutcome),
    handed cfg (set_buffer [] b) flushes (status_result s) (set_buffer [] b') ∧
    (∃ used rest, evs = used ++ rest ∧
       mb_buffer b ++ received used = concat flushes.*1 ++ mb_buffer b' ∧
       match s with
       | Running => rest = []
       | Finished _ => mb_buffer b' = []
       end) ∧
    Forall (λ f, f.1 ≠ [] ∧ (Z.of_nat (length f.1) ≤ Z.max 1 (batch_size cfg))%Z) flushes ∧
    (Z.of_nat (length (mb_buffer b')) < Z.max 1 (batch_size cfg))%Z.
Proof.
  pose proof (batcher_conserves_aux cfg evs b) as Ha. pose proof (run_handed cfg evs b) as Hh.
  pose proof (run_flushes_bounds cfg evs b Hb) as Hbb.
  destruct (run cfg evs b) as [s b']. exists (run_flushes cfg evs b). by destruct Hbb.
Qed.
End batcher.

#[global] Arguments flush_transaction : simpl never.
#[global] Arguments flush_closure : simpl never.
#[global] Arguments flush_inner : simpl never.
#[global] Arguments flush : simpl never.
