(* ===== verification/BatcherSpec.v ===== *)
(** * Batching is transparent

    What the engine relies on of the database handle, and the theorem that the
    graph committed by the batcher is the one the keyed-graph specification
    gives for the operations received, however they were batched. *)

From S2P Require Import Prelude Types Values BridgeMaps GrafeoTx GraphSpec EdgeKeys Translate MemGraph Batcher.

(** The sessions reachable from the opening of a session on [d] by the calls
    the bridge makes. *)
Inductive session_of {D S} `{GrafeoSession S, !GrafeoDB D S} (d : D) : S → Prop :=
| so_begin c s : begin_transaction (session_with_cdc d c) = (Ok tt, s) → session_of d s
| so_begin_serializable c s :
    begin_transaction_serializable (session_with_cdc d c) = (Ok tt, s) → session_of d s
| so_create_node labels props s :
    session_of d s → session_of d (create_node_with_props labels props s).2
| so_set_node id k v s : session_of d s → session_of d (set_node_property id k v s).2
| so_delete_node id s : session_of d s → session_of d (delete_node id s)
| so_create_edge_props a b l props s :
    session_of d s → session_of d (create_edge_with_props a b l props s).2
| so_set_edge id k v s : session_of d s → session_of d (set_edge_property id k v s).2
| so_create_edge a b l s : session_of d s → session_of d (create_edge a b l s).2
| so_delete_edge id s : session_of d s → session_of d (delete_edge id s)
| so_prepare s : session_of d s → session_of d (prepare_commit s).2
| so_metadata k v s : session_of d s → session_of d (set_metadata k v s).

(** A session opened on [d] sees the graph [d] has committed; a commit on the
    [d] it was opened on publishes the graph it sees under a fresh, larger
    epoch, or fails and changes nothing. *)
Class GrafeoDBLaws (D S : Type) `{GrafeoLaws S, !GrafeoDB D S} : Type := {
  db_nodes : D → gmap NodeId NodeRec;
  db_edges : D → gmap EdgeId EdgeRec;
  begin_law d c s :
    begin_transaction (session_with_cdc d c) = (Ok tt, s) →
    view_nodes s = db_nodes d ∧ view_edges s = db_edges d;
  session_law d : view_nodes (session d) = db_nodes d ∧ view_edges (session d) = db_edges d;
  begin_serializable_law d c s :
    begin_transaction_serializable (session_with_cdc d c) = (Ok tt, s) →
    view_nodes s = db_nodes d ∧ view_edges s = db_edges d;
  prepare_law s s' :
    prepare_commit s = (Ok tt, s') → view_nodes s' = view_nodes s ∧ view_edges s' = view_edges s;
  set_metadata_law k v s :
    view_nodes (set_metadata k v s) = view_nodes s ∧ view_edges (set_metadata k v s) = view_edges s;
  commit_law d s :
    session_of d s →
    match commit s d with
    | (Ok e, d') =>
        db_nodes d' = view_nodes s ∧ db_edges d' = view_edges s ∧
        (current_epoch d < e)%Z ∧ current_epoch d' = e
    | (Err _, d') =>
        db_nodes d' = db_nodes d ∧ db_edges d' = db_edges d ∧ current_epoch d' = current_epoch d
    end;
  current_epoch_range d : (0 ≤ current_epoch d)%Z
}.

Section transparent.
  Context {D S : Type} `{GrafeoDBLaws D S} `{HashOrder}.
  Implicit Types fs : FlushState D.
  Implicit Types b : MutationBatcher D.

(** ** The translator only makes the session calls of [session_of] *)

Lemma session_call_of {A} d (f : SE S string A) st :
  (∀ s, session_of d s → session_of d (f s).2) →
  session_of d (tx_session st) → session_of d (tx_session (session_call f st).2).
Proof. intros Hf Hs. unfold session_call. specialize (Hf _ Hs). by destruct (f _). Qed.

Lemma apply_loro_op_session_of d op (st : TxState S) :
  session_of d (tx_session st) → session_of d (tx_session (apply_loro_op op st).2).
Proof.
  intros Hs. destruct op as [k ls ps|s t l ps|k|s t l|n old new]; cbn.
  - unfold apply_upsert_node, maps_get, mbind, SE_bind; cbn. destruct (_ !! k).
    + apply (SE_for_inv (λ st, session_of d (tx_session st))); [|done].
      intros [??] ? _ ?. apply session_call_of; [|done]. by constructor.
    + unfold session_call. cbn. pose proof (so_create_node d ls
        (prod_map id gval_to_grafeo_value <$> hash_iter ps) _ Hs).
      by destruct (create_node_with_props _ _ _) as [[]?].
  - unfold apply_upsert_edge, maps_get, mbind, SE_bind; cbn.
    destruct (_ !! s) as [a|]; [|done]. destruct (_ !! t) as [c|]; [|done].
    destruct (_ !! _).
    + apply (SE_for_inv (λ st, session_of d (tx_session st))); [|done].
      intros [??] ? _ ?. apply session_call_of; [|done]. by constructor.
    + unfold session_call. cbn. pose proof (so_create_edge_props d a c l
        (prod_map id gval_to_grafeo_value <$> hash_iter ps) _ Hs).
      by destruct (create_edge_with_props _ _ _ _ _) as [[]?].
  - unfold maps_do, mbind, SE_bind, BridgeMaps_remove_node.
    destruct (_ !! k); cbn; [by constructor|done].
  - unfold maps_do, mbind, SE_bind, BridgeMaps_remove_edge.
    destruct (edge_id_map _ !! _); cbn; [by constructor|done].
  - unfold apply_tree_move, maps_get, maps_do, session_run, mbind, SE_bind, BridgeMaps_remove_edge; cbn.
    destruct (_ !! n) as [ni|]; [|done]. destruct (_ !! new) as [pi|]; [|done].
    destruct (edge_id_map (tx_maps st) !! (old, _, _)) as [e|]; cbn.
    + destruct (delete _ _ !! _); cbn; [by constructor|].
      assert (Hs' : session_of d (delete_edge e (tx_session st))) by by constructor.
      pose proof (so_create_edge d pi ni TREE_EDGE_LABEL _ Hs').
      by destruct (create_edge _ _ _ _).
    + destruct (_ !! _); cbn; [done|].
      pose proof (so_create_edge d pi ni TREE_EDGE_LABEL _ Hs).
      by destruct (create_edge _ _ _ _).
Qed.

Lemma apply_loro_ops_session_of d ops (st : TxState S) :
  session_of d (tx_session st) → session_of d (tx_session (apply_loro_ops ops st).2).
Proof.
  apply (SE_for_inv (λ st, session_of d (tx_session st))).
  intros op st' _. apply apply_loro_op_session_of.
Qed.

(** ** One flush *)

Definition fs_coupled fs : Prop := coupled (fs_maps fs) (db_nodes (fs_db fs)) (db_edges (fs_db fs)).
Definition fs_abs fs : KeyedGraph := abs_graph (fs_maps fs) (db_nodes (fs_db fs)) (db_edges (fs_db fs)).

(** A transaction that succeeds commits the specified graph under a fresh epoch,
    which is not recorded yet; one that fails leaves the committed graph and the
    epochs. *)
Lemma flush_transaction_spec ops fs :
  fs_coupled fs → detached_run ops (fs_abs fs) →
  match flush_transaction ops fs with
  | (Ok ep, fs') => fs_coupled fs' ∧ spec_run ops (fs_abs fs) = Ok (fs_abs fs')
  | (Err e, fs') =>
      db_nodes (fs_db fs') = db_nodes (fs_db fs) ∧ db_edges (fs_db fs') = db_edges (fs_db fs) ∧
      (spec_run ops (fs_abs fs) = Err e ∨ ∃ msg, e = EGrafeo msg)
  end.
Proof.
  intros Hc Hdet. unfold flush_transaction, fs_abs in *.
  destruct (begin_transaction _) as [[[]|e] s1] eqn:Hbeg; cbn; [|by eauto 10].
  pose proof (begin_law _ _ _ Hbeg) as [Hn He].
  pose proof (so_begin (fs_db fs) _ _ Hbeg) as Hso.
  assert (Hst : st_coupled (mkTxState s1 (fs_maps fs))).
  { unfold st_coupled. cbn. by rewrite Hn, He. }
  assert (Habs : st_abs (mkTxState s1 (fs_maps fs)) =
    abs_graph (fs_maps fs) (db_nodes (fs_db fs)) (db_edges (fs_db fs))).
  { unfold st_abs. cbn. by rewrite Hn, He. }
  rewrite <-Habs in *.
  assert (Href : refines (spec_run ops (st_abs (mkTxState s1 (fs_maps fs))))
    (apply_loro_ops ops (mkTxState s1 (fs_maps fs)))) by by apply apply_loro_ops_refines_aux.
  pose proof (apply_loro_ops_session_of (fs_db fs) ops (mkTxState s1 (fs_maps fs)) Hso) as Hso'.
  destruct (apply_loro_ops _ _) as [[[]|e] st]; cbn in *; destruct Href as [Hc' Hs]; [|done].
  destruct (prepare_commit (tx_session st)) as [[[]|e] s2] eqn:Hp; cbn; [|by eauto 10].
  pose proof (prepare_law _ _ Hp) as [Hpn Hpe].
  pose proof (set_metadata_law "origin" ORIGIN_LORO_BRIDGE s2) as [Hmn Hme].
  pose proof (so_prepare _ _ Hso') as Hso2. rewrite Hp in Hso2. cbn in Hso2.
  pose proof (commit_law _ _ (so_metadata _ "origin" ORIGIN_LORO_BRIDGE _ Hso2)) as Hcom.
  destruct (commit _ _) as [[ep|e] d']; cbn.
  - destruct Hcom as (Hdn&Hde&_&_). unfold fs_coupled. cbn.
    by rewrite Hdn, Hde, Hmn, Hme, Hpn, Hpe.
  - destruct Hcom as (Hdn&Hde&_). eauto 10.
Qed.

(** What a transaction does to epochs, coupled or not. *)
Lemma flush_transaction_epochs ops fs :
  match flush_transaction ops fs with
  | (Ok ep, fs') => (current_epoch (fs_db fs) < ep)%Z ∧ current_epoch (fs_db fs') = ep ∧
      bridge_origin_epochs fs' = bridge_origin_epochs fs
  | (Err _, fs') => current_epoch (fs_db fs') = current_epoch (fs_db fs) ∧
      bridge_origin_epochs fs' = bridge_origin_epochs fs
  end.
Proof.
  unfold flush_transaction.
  destruct (begin_transaction _) as [[[]|e] s1] eqn:Hbeg; cbn; [|done].
  pose proof (so_begin (fs_db fs) _ _ Hbeg) as Hso.
  pose proof (apply_loro_ops_session_of (fs_db fs) ops (mkTxState s1 (fs_maps fs)) Hso) as Hso'.
  destruct (apply_loro_ops _ _) as [[[]|e] st]; cbn in *; [|done].
  destruct (prepare_commit (tx_session st)) as [[[]|e] s2] eqn:Hp; cbn; [|done].
  pose proof (so_prepare _ _ Hso') as Hso2. rewrite Hp in Hso2. cbn in Hso2.
  pose proof (commit_law _ _ (so_metadata _ "origin" ORIGIN_LORO_BRIDGE _ Hso2)) as Hcom.
  destruct (commit _ _) as [[ep|e] d']; cbn.
  - by destruct Hcom as (_&_&Hlt&Hcur).
  - by destruct Hcom as (_&_&Hcur).
Qed.

(** The whole closure: the transaction, then the recording of its epoch. *)
Lemma flush_closure_spec ops fs :
  fs_coupled fs → detached_run ops (fs_abs fs) →
  match flush_closure ops fs with
  | (Ok _, fs') =>
      fs_coupled fs' ∧ spec_run ops (fs_abs fs) = Ok (fs_abs fs') ∧
      (current_epoch (fs_db fs) < current_epoch (fs_db fs'))%Z ∧
      bridge_origin_epochs fs' = {[current_epoch (fs_db fs')]} ∪ bridge_origin_epochs fs
  | (Err e, fs') =>
      db_nodes (fs_db fs') = db_nodes (fs_db fs) ∧ db_edges (fs_db fs') = db_edges (fs_db fs) ∧
      current_epoch (fs_db fs') = current_epoch (fs_db fs) ∧
      bridge_origin_epochs fs' = bridge_origin_epochs fs ∧
      (spec_run ops (fs_abs fs) = Err e ∨ ∃ msg, e = EGrafeo msg)
  end.
Proof.
  intros Hc Hdet. unfold flush_closure, mbind, SE_bind, SE_modify.
  pose proof (flush_transaction_spec ops fs Hc Hdet) as Hs. pose proof (flush_transaction_epochs ops fs) as He.
  destruct (flush_transaction ops fs) as [[ep|e] fs']; cbn.
  - destruct Hs as [Hc' Hr], He as (Hlt&Hcur&Hb). split; [done|]. split; [done|]. by rewrite Hb, Hcur.
  - destruct Hs as (?&?&?), He. auto.
Qed.

Lemma flush_panic_frame k ops fs :
  fs_db (flush_panic k ops fs) = fs_db fs ∧
  bridge_origin_epochs (flush_panic k ops fs) = bridge_origin_epochs fs.
Proof. unfold flush_panic. by destruct (begin_transaction _) as [[]?]. Qed.

(** ** The loop *)

Definition mb_coupled b : Prop := fs_coupled (mb_fs b).
Definition mb_abs b : KeyedGraph := fs_abs (mb_fs b).

(** What handing [ops] to the database did between [b] and [b']. *)
Definition flushed (ops : list LoroOp) (r : Result unit) b b' : Prop :=
  match r with
  | Ok _ => mb_coupled b' ∧ spec_run ops (mb_abs b) = Ok (mb_abs b')
  | Err e =>
      db_nodes (fs_db (mb_fs b')) = db_nodes (fs_db (mb_fs b)) ∧
      db_edges (fs_db (mb_fs b')) = db_edges (fs_db (mb_fs b)) ∧
      (spec_run ops (mb_abs b) = Err e ∨ ∃ msg, e = EGrafeo msg)
  end.

Lemma flush_inner_flushed cfg ops b :
  mb_coupled b → detached_run ops (mb_abs b) →
  let '(r, b') := flush_inner cfg Joined ops b in flushed ops r b b'.
Proof.
  intros Hc Hdet. unfold flush_inner. pose proof (flush_closure_spec ops (mb_fs b) Hc Hdet) as Hf.
  destruct (flush_closure ops (mb_fs b)) as [[[]|e] fs]; cbn.
  - destruct Hf as (?&?&_). done.
  - destruct Hf as (?&?&_&_&?). done.
Qed.

Lemma flush_flushed cfg b :
  mb_coupled b → detached_run (mb_buffer b) (mb_abs b) →
  let '(r, b') := flush cfg Joined b in flushed (mb_buffer b) r b b'.
Proof.
  intros Hc Hdet. unfold flush. destruct (mb_buffer b) as [|x l] eqn:Hb; [done|].
  by apply (flush_inner_flushed cfg (x :: l) (set_buffer [] b)).
Qed.

Lemma run_iteration_flushed cfg ev b :
  mb_coupled b → detached_run (mb_buffer b ++ new_op ev) (mb_abs b) →
  let '(s, b') := run_iteration cfg Joined ev b in
  flushed (concat (iteration_batch cfg ev (mb_buffer b)))
    match s with Running => Ok tt | Finished r => r end b b'.
Proof.
  intros Hc Hdet. destruct ev as [|op|]; cbn.
  - cbn in Hdet. rewrite app_nil_r in Hdet. destruct (mb_buffer b) as [|x l] eqn:Hb; [done|].
    pose proof (flush_inner_flushed cfg (x :: l) (set_buffer [] b) Hc Hdet) as Hf.
    destruct (flush_inner _ _ _ _) as [[[]|e] b']; cbn in *; by rewrite ?app_nil_r.
  - destruct (_ <? _)%Z; cbn; [done|].
    pose proof (flush_flushed cfg (set_buffer (mb_buffer b ++ [op]) b) Hc Hdet) as Hf.
    destruct (flush _ _ _) as [[[]|e] b']; destruct (mb_buffer b); cbn in *;
      by rewrite ?app_nil_r.
  - cbn in Hdet. rewrite app_nil_r in Hdet. pose proof (flush_flushed cfg b Hc Hdet) as Hf.
    destruct (flush _ _ _) as [[[]|e] b']; destruct (mb_buffer b); cbn in *;
      by rewrite ?app_nil_r.
Qed.

Lemma run_flushed cfg evs b :
  Forall (λ e, e.2 = Joined) evs → mb_coupled b →
  detached_run (mb_buffer b ++ received evs) (mb_abs b) →
  let '(s, b') := run cfg evs b in
  let batches := (run_flushes cfg evs b).*1 in
  match s with
  | Running | Finished (Ok _) => mb_coupled b' ∧ spec_run (concat batches) (mb_abs b) = Ok (mb_abs b')
  | Finished (Err e) =>
      ∃ pre last b0, batches = pre ++ last ∧ mb_coupled b0 ∧
        spec_run (concat pre) (mb_abs b) = Ok (mb_abs b0) ∧ flushed (concat last) (Err e) b0 b'
  end.
Proof.
  intros HJ. revert b. induction HJ as [|[ev o] evs Ho _ IH]; intros b Hc Hdet; [done|].
  cbn in Ho. subst o. cbn [run run_flushes].
  rewrite received_cons, (assoc_L (++)) in Hdet.
  assert (Hd1 := proj1 (detached_run_app _ _ _ Hdet)).
  pose proof (run_iteration_flushed cfg ev b Hc Hd1) as Hit.
  pose proof (run_iteration_conserves cfg Joined ev b) as Hcons.
  rewrite fmap_app, batches_of_flushes.
  destruct (run_iteration cfg Joined ev b) as [[|[[]|e]] b1]; cbn in Hit.
  - destruct Hit as [Hc1 Hs1]. destruct Hcons as (Hbuf&_&_).
    rewrite Hbuf, <-(assoc_L (++)) in Hdet.
    specialize (IH b1 Hc1 (proj2 (detached_run_app _ _ _ Hdet) _ Hs1)).
    destruct (run cfg evs b1) as [[|[[]|e]] b2].
    + destruct IH as [? Hs2]. split; [done|]. rewrite concat_app, spec_run_app, Hs1. done.
    + destruct IH as [? Hs2]. split; [done|]. rewrite concat_app, spec_run_app, Hs1. done.
    + destruct IH as (pre&last&b0&->&?&Hs2&?).
      exists (iteration_batch cfg ev (mb_buffer b) ++ pre), last, b0.
      rewrite concat_app, spec_run_app, Hs1. by rewrite (assoc_L (++)).
  - rewrite app_nil_r. done.
  - rewrite app_nil_r. exists [], (iteration_batch cfg ev (mb_buffer b)), b. done.
Qed.

(** C7: batching is transparent.  The database keeps its laws; the batcher starts
    with an empty buffer and maps that agree with the database; every flush runs to
    completion before its timeout (the closure of one that does not may still
    commit, in the background); and the operations are detached: when a vertex is
    deleted, its edges are gone already.  Then, however receipts, ticks and the
    shutdown are scheduled, a batcher that is still running or was shut down has
    committed exactly the graph the keyed-graph specification gives for the
    operations received and no longer buffered, applied one by one in their order;
    if a flush failed, the committed graph is that of an earlier prefix, nothing of
    the failed batch is committed, and the error is the specification's refusal or
    one of the database. *)
Theorem batching_transparent (cfg : BatcherConfig) (evs : list (BatcherEvent * JoinOutcome))
  (b : MutationBatcher D)
  (HJ : Forall (λ e, e.2 = Joined) evs) (Hc : mb_coupled b) (Hbuf : mb_buffer b = [])
  (Hdet : detached_run (received evs) (mb_abs b)) :
  let '(s, b') := run cfg evs b in
  ∃ committed pending, committed ++ pending `prefix_of` received evs ∧
    match s with
    | Running | Finished (Ok _) =>
        mb_coupled b' ∧ spec_run committed (mb_abs b) = Ok (mb_abs b') ∧
        pending = mb_buffer b' ∧
        match s with Running => committed ++ pending = received evs | _ => pending = [] end
    | Finished (Err e) =>
        ∃ g, spec_run committed (mb_abs b) = Ok g ∧ mb_buffer b' = [] ∧
          (∃ b0, g = mb_abs b0 ∧ db_nodes (fs_db (mb_fs b')) = db_nodes (fs_db (mb_fs b0)) ∧
                 db_edges (fs_db (mb_fs b')) = db_edges (fs_db (mb_fs b0))) ∧
          (spec_run pending g = Err e ∨ ∃ msg, e = EGrafeo msg)
    end.
Proof.
  pose proof (run_flushed cfg evs b HJ Hc) as Hrun. rewrite Hbuf in Hrun. specialize (Hrun Hdet).
  assert (Hcons : let '(s, b') := run cfg evs b in
    ∃ used rest, evs = used ++ rest ∧
      received used = concat (run_flushes cfg evs b).*1 ++ mb_buffer b' ∧
      match s with Running => rest = [] | Finished _ => mb_buffer b' = [] end).
  { pose proof (batcher_conserves_aux cfg evs b) as Ha. rewrite Hbuf in Ha. exact Ha. }
  destruct (run cfg evs b) as [s b']. destruct Hcons as (used&rest&->&Hu&Hs).
  assert (Hpre : received used `prefix_of` received (used ++ rest)).
  { unfold received. rewrite bind_app. by eexists. }
  destruct s as [|[[]|e]].
  - destruct Hrun. subst rest. rewrite app_nil_r in *.
    exists (concat (run_flushes cfg used b).*1), (mb_buffer b'). rewrite Hu. done.
  - destruct Hrun. exists (concat (run_flushes cfg (used ++ rest) b).*1), [].
    rewrite Hs in *. rewrite <-Hu. done.
  - destruct Hrun as (pre&last&b0&Hb&Hc0&Hs0&Hfl). exists (concat pre), (concat last).
    rewrite Hb, Hs, app_nil_r, concat_app in Hu. rewrite <-Hu. split; [done|].
    destruct Hfl as (?&?&?). exists (mb_abs b0). split; [done|]. split; [done|].
    split; [by exists b0|done].
Qed.
End transparent.

(** ** A reference database *)

Record MemDb : Type := mkMemDb { md_graph : MemGraph; md_epoch : nat }.

(** The change events of a commit: the vertices it created, the properties it
    set on vertices and the vertices it deleted. *)
Definition commit_log (epoch : EpochId) (old new : MemGraph) : list ChangeEvent :=
  let o := live (mg_nodes old) in
  let n := live (mg_nodes new) in
  omap (λ '(id, r), if bool_decide (is_Some (o !! id)) then None
          else Some (mkChangeEvent epoch (Ent_Node id) Create (Some (nr_props r)) None None None))
    (map_to_list n) ++
  ((λ ev, mkChangeEvent epoch (ev_entity_id ev) (ev_kind ev) (ev_after ev) None None None) <$>
     drop (length (mg_log old)) (mg_log new)) ++
  omap (λ '(id, _), if bool_decide (is_Some (n !! id)) then None
          else Some (mkChangeEvent epoch (Ent_Node id) Delete None None None None))
    (map_to_list o).

#[export] Instance MemDb_db : GrafeoDB MemDb MemGraph := {|
  session d := md_graph d;
  session_with_cdc d _ := md_graph d;
  begin_transaction := λ s, (Ok tt, s);
  begin_transaction_serializable := λ s, (Ok tt, s);
  prepare_commit := λ s, (Ok tt, s);
  set_metadata _ _ s := s;
  commit s d :=
    let epoch := Z.of_nat (S (md_epoch d)) in
    (Ok epoch, mkMemDb (mkMemGraph (mg_nodes s) (mg_edges s)
                          (mg_log (md_graph d) ++ commit_log epoch (md_graph d) s))
                 (S (md_epoch d)));
  current_epoch d := Z.of_nat (md_epoch d)
|}.

#[export, refine] Instance MemDb_laws : GrafeoDBLaws MemDb MemGraph := {|
  db_nodes d := view_nodes (md_graph d);
  db_edges d := view_edges (md_graph d)
|}.
Proof.
  - by intros d c s [= <-].
  - done.
  - by intros d c s [= <-].
  - by intros s s' [= <-].
  - done.
  - intros d s _. cbn -[Z.of_nat]. split; [done|]. split; [done|]. lia.
  - intros d. cbn. lia.
Defined.

Definition memdb_new : MemDb := mkMemDb MemGraph_new 0.
Definition mb0 : MutationBatcher MemDb :=
  MutationBatcher_new (mkFlushState memdb_new BridgeMaps_new ∅).

Lemma mb0_coupled : mb_coupled mb0.
Proof. exact st0_coupled. Qed.

Definition sample_events : list (BatcherEvent * JoinOutcome) :=
  [(EvTick, Joined); (EvRecv (UpsertNode "a" ["L"] ∅), Joined);
   (EvRecv (UpsertNode "b" [] ∅), Joined); (EvRecv (UpsertEdge "a" "b" "R" ∅), Joined);
   (EvTick, Joined); (EvRecv (DeleteEdge "a" "b" "R"), Joined); (EvShutdown, Joined);
   (EvTick, Joined)].

Lemma batcher_conserves_ops_witness :
  let cfg := mkBatcherConfig 2 100 true true in
  let '(s, b') := run cfg sample_events mb0 in
  ∃ flushes : list (list LoroOp * JoinOutcome),
    handed cfg (set_buffer [] mb0) flushes (status_result s) (set_buffer [] b') ∧
    (∃ used rest, sample_events = used ++ rest ∧
       mb_buffer mb0 ++ received used = concat flushes.*1 ++ mb_buffer b' ∧
       match s with
       | Running => rest = []
       | Finished _ => mb_buffer b' = []
       end) ∧
    Forall (λ f, f.1 ≠ [] ∧ (Z.of_nat (length f.1) ≤ Z.max 1 (batch_size cfg))%Z) flushes ∧
    (Z.of_nat (length (mb_buffer b')) < Z.max 1 (batch_size cfg))%Z.
Proof. apply (batcher_conserves_ops (mkBatcherConfig 2 100 true true)). vm_compute. reflexivity. Defined.

Lemma batching_transparent_witness :
  let '(s, b') := run (mkBatcherConfig 2 100 true true) sample_events mb0 in
  ∃ committed pending, committed ++ pending `prefix_of` received sample_events ∧
    match s with
    | Running | Finished (Ok _) =>
        mb_coupled b' ∧ spec_run committed (mb_abs mb0) = Ok (mb_abs b') ∧
        pending = mb_buffer b' ∧
        match s with Running => committed ++ pending = received sample_events | _ => pending = [] end
    | Finished (Err e) =>
        ∃ g, spec_run committed (mb_abs mb0) = Ok g ∧ mb_buffer b' = [] ∧
          (∃ b0, g = mb_abs b0 ∧ db_nodes (fs_db (mb_fs b')) = db_nodes (fs_db (mb_fs b0)) ∧
                 db_edges (fs_db (mb_fs b')) = db_edges (fs_db (mb_fs b0))) ∧
          (spec_run pending g = Err e ∨ ∃ msg, e = EGrafeo msg)
    end.
Proof.
  apply (batching_transparent (mkBatcherConfig 2 100 true true) sample_events mb0);
    [repeat constructor|apply mb0_coupled|reflexivity|].
  apply (bool_decide_unpack _). vm_compute. exact I.
Defined.

(** A flush that fails rolls the graph back but not the maps: they keep a
    binding of a vertex that was never committed, a later write to that vertex
    fails, and the loop has already ended with the error. *)
Example rollback_leaves_stale_binding :
  let cfg := mkBatcherConfig 2 100 true true in
  let '(s, b) := run cfg [(EvRecv (UpsertNode "a" [] ∅), Joined);
                          (EvRecv (UpsertEdge "a" "ghost" "R" ∅), Joined)] mb0 in
  s = Finished (Err (unknown_keys_error "a" "ghost")) ∧ mb_buffer b = [] ∧
  db_nodes (fs_db (mb_fs b)) = ∅ ∧ is_Some (node_id_map (fs_maps (mb_fs b)) !! "a") ∧
  is_ok (flush_closure [UpsertNode "a" [] {["p" := GraphValue_Null]}] (mb_fs b)).1 = false.
Proof. vm_compute. split; [done|]. split; [done|]. split; [done|]. split; [by eexists|done]. Qed.
