(* ===== verification/SyncEngine.v ===== *)
(** * The sync engine ([src/bridge/sync_engine.rs])

    The engine's shared state and what each of its parts does to it: the Loro
    subscriber, the inbound worker, the outbound worker and the CDC poller.
    Each worker's loop body is a definition, cut where another task can run. *)

From S2P Require Import Prelude Types Values BridgeMaps GrafeoTx GraphSpec Batcher BatcherSpec EdgeKeys Translate Queue Origin.

(** [session.changes_between], the CDC log of grafeo. *)
Class GrafeoCdc (S : Type) : Type := {
  changes_between : S → EpochId → EpochId → result string (list ChangeEvent)
}.

(** ** Channels *)

(** A bounded [tokio::sync::mpsc] channel: the queue, the capacity and whether
    the receiver is gone. *)
Record Chan (A : Type) : Type := mkChan {
  ch_queue : list A; ch_capacity : nat; ch_closed : bool
}.
Arguments mkChan {A}.
Arguments ch_queue {A}.
Arguments ch_capacity {A}.
Arguments ch_closed {A}.

Definition CHANNEL_CAPACITY : nat := 1024.

Definition channel (A : Type) : Chan A := mkChan [] CHANNEL_CAPACITY false.

Inductive TrySendError : Type := Full | Closed.

Definition try_send {A} (c : Chan A) (x : A) : result TrySendError (Chan A) :=
  if ch_closed c then Err Closed
  else if bool_decide (length (ch_queue c) < ch_capacity c)
       then Ok (mkChan (ch_queue c ++ [x]) (ch_capacity c) false)
       else Err Full.

(** [send().await] on an open channel: not ready while the queue is full. *)
Definition send_ready {A} (c : Chan A) : bool := bool_decide (length (ch_queue c) < ch_capacity c).

Definition close {A} (c : Chan A) : Chan A := mkChan (ch_queue c) (ch_capacity c) true.

(** ** State *)

(** The telemetry the workers write: one list entry per counter increment,
    carrying its [event_type] label; echo counters by direction. *)
Record Counters : Type := mkCounters {
  ct_inbound_events : list string;
  ct_outbound_events : list string;
  ct_echo_inbound : Z;
  ct_echo_outbound : Z;
  ct_sync_stamps : nat
}.

(** [last_epoch], [poll_pending] and [poll_sending] are the poller's locals:
    [Some (current, events)] while it walks the events of a cycle, and the event
    inside [outbound_tx.send(wrapped).await].  [batcher_status] tells whether the
    batcher's loop still runs; it awaits a flush while [mb_flight] holds one. *)
Record SyncEngine (D L : Type) : Type := mkSyncEngine {
  batcher : MutationBatcher D;
  batcher_status : RunStatus;
  loro_doc : L;
  inbound : Chan LoroOp;
  batch_chan : Chan LoroOp;
  outbound : Chan (EpochId * ChangeEvent);
  inbound_event_count : Z;
  inbound_filtered_count : Z;
  counters : Counters;
  last_epoch : EpochId;
  poll_pending : option (EpochId * list ChangeEvent);
  poll_sending : option ChangeEvent;
  lineage : Lineage
}.
Arguments mkSyncEngine {D L}.
Arguments batcher {D L}.
Arguments batcher_status {D L}.
Arguments loro_doc {D L}.
Arguments inbound {D L}.
Arguments batch_chan {D L}.
Arguments outbound {D L}.
Arguments inbound_event_count {D L}.
Arguments inbound_filtered_count {D L}.
Arguments counters {D L}.
Arguments last_epoch {D L}.
Arguments poll_pending {D L}.
Arguments poll_sending {D L}.
Arguments lineage {D L}.

Section engine.
  Context {D S L : Type} `{GrafeoSession S, !GrafeoDB D S, !GrafeoCdc S, !LoroDoc L, HashOrder}.
  Notation E := (SyncEngine D L).

(** [new_inner], and the poller's start from the current epoch. *)
Definition SyncEngine_new (grafeo_db : D) (doc : L) : E :=
  mkSyncEngine (MutationBatcher_new (mkFlushState grafeo_db BridgeMaps_new ∅)) Running doc
    (channel _) (channel _) (channel _) 0 0 (mkCounters [] [] 0 0 0)
    (current_epoch grafeo_db) None None Lineage_new.

Definition set_batcher b s (e : E) : E :=
  mkSyncEngine b s (loro_doc e) (inbound e) (batch_chan e) (outbound e) (inbound_event_count e)
    (inbound_filtered_count e) (counters e) (last_epoch e) (poll_pending e) (poll_sending e) (lineage e).
Definition set_doc d (e : E) : E :=
  mkSyncEngine (batcher e) (batcher_status e) d (inbound e) (batch_chan e) (outbound e)
    (inbound_event_count e) (inbound_filtered_count e) (counters e) (last_epoch e)
    (poll_pending e) (poll_sending e) (lineage e).
Definition set_inbound c n (e : E) : E :=
  mkSyncEngine (batcher e) (batcher_status e) (loro_doc e) c (batch_chan e) (outbound e) n
    (inbound_filtered_count e) (counters e) (last_epoch e) (poll_pending e) (poll_sending e) (lineage e).
Definition set_batch_chan c (e : E) : E :=
  mkSyncEngine (batcher e) (batcher_status e) (loro_doc e) (inbound e) c (outbound e)
    (inbound_event_count e) (inbound_filtered_count e) (counters e) (last_epoch e)
    (poll_pending e) (poll_sending e) (lineage e).
Definition set_outbound c (e : E) : E :=
  mkSyncEngine (batcher e) (batcher_status e) (loro_doc e) (inbound e) (batch_chan e) c
    (inbound_event_count e) (inbound_filtered_count e) (counters e) (last_epoch e)
    (poll_pending e) (poll_sending e) (lineage e).
Definition set_counters n c (e : E) : E :=
  mkSyncEngine (batcher e) (batcher_status e) (loro_doc e) (inbound e) (batch_chan e) (outbound e)
    (inbound_event_count e) n c (last_epoch e) (poll_pending e) (poll_sending e) (lineage e).
Definition set_poll l p (e : E) : E :=
  mkSyncEngine (batcher e) (batcher_status e) (loro_doc e) (inbound e) (batch_chan e) (outbound e)
    (inbound_event_count e) (inbound_filtered_count e) (counters e) l p (poll_sending e) (lineage e).
Definition set_sending ev (e : E) : E :=
  mkSyncEngine (batcher e) (batcher_status e) (loro_doc e) (inbound e) (batch_chan e) (outbound e)
    (inbound_event_count e) (inbound_filtered_count e) (counters e) (last_epoch e) (poll_pending e) ev (lineage e).
Definition set_fs (fs : FlushState D) (e : E) : E :=
  set_batcher (set_fs_of fs (batcher e)) (batcher_status e) e.

Definition maps (e : E) : BridgeMaps := fs_maps (mb_fs (batcher e)).
Definition bridge_epochs (e : E) : gset EpochId := bridge_origin_epochs (mb_fs (batcher e)).
Definition grafeo_db (e : E) : D := fs_db (mb_fs (batcher e)).

(** ** The Loro subscriber *)

Definition is_echo_origin (origin : string) : bool :=
  bool_decide (origin = ORIGIN_GRAFEO_BRIDGE) || bool_decide (origin = ORIGIN_LORO_BRIDGE).

(** The [for op in ops] loop: it returns at the first failed [try_send]. *)
Fixpoint send_ops (ops : list LoroOp) (e : E) : E :=
  match ops with
  | [] => e
  | op :: ops =>
      match try_send (inbound e) op with
      | Err _ => e
      | Ok c => send_ops ops (set_inbound c (u64_add (inbound_event_count e) 1) e)
      end
  end.

Definition subscriber_handler (metrics : bool) (event : DiffEvent) (e : E) : E :=
  if is_echo_origin (de_origin event) then
    let c := counters e in
    set_counters (u64_add (inbound_filtered_count e) 1)
      (if metrics
       then mkCounters (ct_inbound_events c) (ct_outbound_events c) (ct_echo_inbound c + 1)
              (ct_echo_outbound c) (ct_sync_stamps c)
       else c) e
  else send_ops (translate_diff_event event) e.

(** [doc.commit()]: the subscriber runs on every event the commit emits. *)
Definition commit_doc (metrics : bool) (e : E) : E :=
  let '(events, doc) := loro_commit (loro_doc e) in
  foldl (λ e ev, subscriber_handler metrics ev e) (set_doc doc e) events.

(** ** The inbound worker *)

Definition LoroOp_event_type (op : LoroOp) : string :=
  match op with
  | UpsertNode _ _ _ | DeleteNode _ => "vertex"
  | UpsertEdge _ _ _ _ | DeleteEdge _ _ _ => "edge"
  | TreeMove _ _ _ => "tree"
  end.

(** One message forwarded to the batcher, once there is room for it.  The
    batcher's receiver is gone once its loop has ended: the worker then breaks,
    which drops its own receiver. *)
Definition inbound_forward (metrics : bool) (e : E) : E :=
  match ch_queue (inbound e) with
  | [] => e
  | op :: rest =>
      if match batcher_status e with Running => negb (send_ready (batch_chan e)) | _ => false end
      then e else
      let e1 := set_inbound (mkChan rest (ch_capacity (inbound e)) (ch_closed (inbound e)))
                  (inbound_event_count e) e in
      let c := counters e1 in
      let e2 := if metrics
        then set_counters (inbound_filtered_count e1)
               (mkCounters (ct_inbound_events c ++ [LoroOp_event_type op]) (ct_outbound_events c)
                  (ct_echo_inbound c) (ct_echo_outbound c) (ct_sync_stamps c)) e1
        else e1 in
      match batcher_status e2 with
      | Running =>
          set_batch_chan (mkChan (ch_queue (batch_chan e2) ++ [op]) (ch_capacity (batch_chan e2))
                            (ch_closed (batch_chan e2))) e2
      | Finished _ => set_inbound (close (inbound e2)) (inbound_event_count e2) e2
      end
  end.

(** The branches of the batcher's [select!] inside the engine. *)
Inductive Branch : Type := BrShutdown | BrRecv | BrTick.

(** The event of a branch; the receive branch takes the head of the batch
    channel and is not ready when the channel is empty. *)
Definition branch_event (br : Branch) (e : E) : option BatcherEvent :=
  match br with
  | BrShutdown => Some EvShutdown
  | BrTick => Some EvTick
  | BrRecv => EvRecv <$> head (ch_queue (batch_chan e))
  end.

(** The branch that is ready, up to the await of its flush.  There is no [select!]
    while the loop awaits a flush. *)
Definition batcher_branch (cfg : BatcherConfig) (br : Branch) (e : E) : E :=
  match batcher_status e, mb_flight (batcher e), branch_event br e with
  | Running, None, Some ev =>
      let '(s, b) := batcher_select cfg ev (batcher e) in
      let e1 := set_batcher b s e in
      match br with
      | BrRecv => set_batch_chan (mkChan (tail (ch_queue (batch_chan e1)))
                    (ch_capacity (batch_chan e1)) (ch_closed (batch_chan e1))) e1
      | _ => e1
      end
  | _, _, _ => e
  end.

(** A step of the flush thread, the end of the await, and a step of a closure that
    outlived its timeout. *)
Definition flush_thread (c : BkChoice) (e : E) : option E :=
  (λ b, set_batcher b (batcher_status e) e) <$> flight_step c (batcher e).

Definition flush_join (cfg : BatcherConfig) (elapsed : bool) (e : E) : option E :=
  (λ '(s, b), set_batcher b s e) <$> batcher_join cfg elapsed (batcher e).

Definition orphan_thread (i : nat) (c : BkChoice) (e : E) : option E :=
  (λ b, set_batcher b (batcher_status e) e) <$> background_step i c (batcher e).

(** The epochs of commits that have returned to a closure which has not recorded
    them yet. *)
Definition unrecorded (e : E) : list EpochId :=
  omap (λ bk, match bk with BkCommitted epoch => Some epoch | _ => None end) (blocking_tasks (batcher e)).

(** ** The CDC poller *)

(** The branch of a timer tick up to the event loop. *)
Definition poll_begin (e : E) : E :=
  let session := session_with_cdc (grafeo_db e) true in
  let current := current_epoch (grafeo_db e) in
  if (current <=? last_epoch e)%Z then e
  else match changes_between session (last_epoch e) current with
       | Err _ => e
       | Ok events => set_poll (last_epoch e) (Some (current, events)) e
       end.

Definition bump_echo_outbound (metrics : bool) (e : E) : E :=
  let c := counters e in
  set_counters (inbound_filtered_count e)
    (if metrics
     then mkCounters (ct_inbound_events c) (ct_outbound_events c) (ct_echo_inbound c)
            (ct_echo_outbound c + 1) (ct_sync_stamps c)
     else c) e.

(** One event of the cycle, looked up in the epoch set once: dropped when its
    epoch is the bridge's own, handed to [send] otherwise. *)
Definition poll_event (metrics : bool) (e : E) : E :=
  match poll_sending e, poll_pending e with
  | None, Some (current, ev :: events) =>
      let e1 := set_poll (last_epoch e) (Some (current, events)) e in
      if bool_decide (ev_epoch ev ∈ bridge_epochs e) then bump_echo_outbound metrics e1
      else set_sending (Some ev) e1
  | _, _ => e
  end.

(** [outbound_tx.send(wrapped).await] once there is room. *)
Definition poll_send (e : E) : E :=
  match poll_sending e with
  | Some ev =>
      if negb (send_ready (outbound e)) then e
      else set_sending None
             (set_outbound (mkChan (ch_queue (outbound e) ++ [(ev_epoch ev, ev)])
                              (ch_capacity (outbound e)) (ch_closed (outbound e))) e)
  | None => e
  end.

(** [set.retain(|e| *e > cutoff)]. *)
Definition prune_epochs (last : EpochId) (set : gset EpochId) : gset EpochId :=
  filter (λ ep, (u64_saturating_sub last EPOCH_RETENTION < ep)%Z) set.

Definition poll_end (e : E) : E :=
  match poll_sending e, poll_pending e with
  | None, Some (current, []) =>
      let fs := mb_fs (batcher e) in
      set_poll current None
        (set_fs (mkFlushState (fs_db fs) (fs_maps fs)
                   (prune_epochs (last_epoch e) (bridge_origin_epochs fs))) e)
  | _, _ => e
  end.

(** ** The outbound worker *)

Definition EntityId_event_type (id : EntityId) : string :=
  match id with
  | Ent_Node _ => "vertex"
  | Ent_Edge _ => "edge"
  | Ent_Triple _ => "triple"
  | Ent_Unknown => "other"
  end.

(** The first critical section: the message is taken, checked against the epoch
    set again and applied.  [None] when the worker goes on to the next message. *)
Definition outbound_apply (metrics : bool) (e : E) : option ChangeEvent * E :=
  match ch_queue (outbound e) with
  | [] => (None, e)
  | (epoch, payload) :: rest =>
      let e1 := set_outbound (mkChan rest (ch_capacity (outbound e)) (ch_closed (outbound e))) e in
      if bool_decide (epoch ∈ bridge_epochs e1) then (None, bump_echo_outbound metrics e1)
      else
        let '(outcome, st) := apply_change_event_to_loro payload (mkOutState (loro_doc e1) (maps e1)) in
        let fs := mb_fs (batcher e1) in
        let e2 := set_doc (os_doc st)
                    (set_fs (mkFlushState (fs_db fs) (os_maps st) (bridge_origin_epochs fs)) e1) in
        match outcome with
        | Err _ => (None, e2)
        | Ok _ => (Some payload, e2)
        end
  end.

(** The second critical section and the telemetry after it. *)
Definition outbound_commit (metrics health : bool) (payload : ChangeEvent) (e : E) : E :=
  let e1 := commit_doc metrics (set_doc (loro_set_next_commit_origin ORIGIN_GRAFEO_BRIDGE (loro_doc e)) e) in
  let c := counters e1 in
  set_counters (inbound_filtered_count e1)
    (mkCounters (ct_inbound_events c)
       (if metrics then ct_outbound_events c ++ [EntityId_event_type (ev_entity_id payload)]
        else ct_outbound_events c)
       (ct_echo_inbound c) (ct_echo_outbound c)
       (if health then Datatypes.S (ct_sync_stamps c) else ct_sync_stamps c)) e1.

Definition outbound_step (metrics health : bool) (e : E) : E :=
  match outbound_apply metrics e with
  | (None, e1) => e1
  | (Some payload, e1) => outbound_commit metrics health payload e1
  end.

(** A peer or local edit: a commit of the document under the caller's origin. *)
Definition local_commit (metrics : bool) (origin : string) (edit : L → L) (e : E) : E :=
  commit_doc metrics (set_doc (loro_set_next_commit_origin origin (edit (loro_doc e))) e).

(** ** Backpressure *)

Lemma send_ops_spec ops (e : E) :
  is_u64 (inbound_event_count e) → length (ch_queue (inbound e)) ≤ ch_capacity (inbound e) →
  let e' := send_ops ops e in
  ∃ sent dropped, ops = sent ++ dropped ∧
    ch_queue (inbound e') = ch_queue (inbound e) ++ sent ∧
    inbound_event_count e' = u64_wrap (inbound_event_count e + Z.of_nat (length sent)) ∧
    inbound_filtered_count e' = inbound_filtered_count e ∧
    ch_capacity (inbound e') = ch_capacity (inbound e) ∧
    length (ch_queue (inbound e')) ≤ ch_capacity (inbound e') ∧
    (dropped ≠ [] → ch_closed (inbound e) = true ∨
                    length (ch_queue (inbound e')) = ch_capacity (inbound e')).
Proof.
  revert e. induction ops as [|op ops IH]; intros e Hu Hcap; cbn [send_ops].
  { exists [], []. rewrite !app_nil_r, Z.add_0_r, u64_wrap_small by done.
    split_and!; try done. }
  unfold try_send. destruct (ch_closed (inbound e)) eqn:Hcl.
  { exists [], (op :: ops). rewrite app_nil_r, Z.add_0_r, u64_wrap_small by done.
    split_and!; try done. by left. }
  case_bool_decide as Hlen.
  - set (e1 := set_inbound _ _ e). destruct (IH e1) as (sent&dropped&->&Hq&Hn&Hf&Hc&Hl&Hd).
    { apply u64_wrap_range. } { cbn. rewrite length_app. cbn. lia. }
    exists (op :: sent), dropped. split; [done|]. split.
    { rewrite Hq. cbn. by rewrite <-(assoc_L (++)). }
    rewrite Hn. split; [|split_and!; try done; naive_solver congruence].
    cbn -[Z.of_nat]. unfold u64_add, u64_wrap. rewrite Z.add_mod_idemp_l by lia.
    f_equal. lia.
  - exists [], (op :: ops). rewrite app_nil_r, Z.add_0_r, u64_wrap_small by done.
    split_and!; try done. intros _. right. lia.
Qed.

(** C24: the Loro subscriber never blocks and never exceeds the channel's
    capacity.  An event of the bridge's own origins is counted and drops out
    whole; of any other event, a prefix of the translated operations is
    enqueued, in order and counted one by one, and the rest is dropped only
    when the channel is closed or has become full. *)
Theorem subscriber_backpressure (metrics : bool) (ev : DiffEvent) (e : E)
  (Hu : is_u64 (inbound_event_count e))
  (Hcap : length (ch_queue (inbound e)) ≤ ch_capacity (inbound e)) :
  let e' := subscriber_handler metrics ev e in
  length (ch_queue (inbound e')) ≤ ch_capacity (inbound e) ∧
  if is_echo_origin (de_origin ev) then
    inbound e' = inbound e ∧ inbound_event_count e' = inbound_event_count e ∧
    inbound_filtered_count e' = u64_add (inbound_filtered_count e) 1
  else
    inbound_filtered_count e' = inbound_filtered_count e ∧
    ∃ sent dropped, translate_diff_event ev = sent ++ dropped ∧
      ch_queue (inbound e') = ch_queue (inbound e) ++ sent ∧
      inbound_event_count e' = u64_wrap (inbound_event_count e + Z.of_nat (length sent)) ∧
      (dropped ≠ [] → ch_closed (inbound e) = true ∨
                      length (ch_queue (inbound e')) = ch_capacity (inbound e')).
Proof.
  unfold subscriber_handler. destruct (is_echo_origin (de_origin ev)); [done|].
  destruct (send_ops_spec (translate_diff_event ev) e Hu Hcap)
    as (sent&dropped&Ht&Hq&Hn&Hf&Hc&Hl&Hd).
  rewrite <-Hc. split; [done|]. split; [done|]. by exists sent, dropped.
Qed.

End engine.
