(* ===== verification/EngineSpec.v ===== *)
(** * No echo: the engine as a transition system

    The engine's tasks and the threads of its flushes interleave; each step is one
    of the definitions of [SyncEngine.v].  The invariant of the epoch side
    channel, and what it gives: a change the bridge itself wrote to grafeo is
    only ever written back to Loro if the poller looked it up in the gap between
    the flush's commit and the recording of its epoch.  Last, a run in which that
    happens, and the other interleaving in which the engine echoes. *)

From S2P Require Import Prelude Types Values BridgeMaps GrafeoTx GraphSpec MemGraph Batcher BatcherSpec EdgeKeys Translate Queue SyncEngine.

(** [changes_between(a, b)] only returns changes of epochs from [a] to [b]. *)
Class GrafeoCdcLaws (S : Type) `{GrafeoCdc S} : Prop :=
  changes_between_law s a b evs :
    changes_between s a b = Ok evs → Forall (λ ev, (a ≤ ev_epoch ev ≤ b)%Z) evs.

(** A commit emits events that carry the origin set for it. *)
Class LoroCommitLaws (L : Type) `{LoroDoc L} : Prop :=
  commit_origin_law origin l :
    Forall (λ ev, de_origin ev = origin) (loro_commit (loro_set_next_commit_origin origin l)).1.

(** The events of epochs the bridge committed, and those of other writers. *)
Definition own (br : gset EpochId) (evs : list ChangeEvent) : list ChangeEvent :=
  base.filter (λ ev, ev_epoch ev ∈ br) evs.
Definition foreign (br : gset EpochId) (evs : list ChangeEvent) : list ChangeEvent :=
  base.filter (λ ev, ev_epoch ev ∉ br) evs.

#[global] Arguments own : simpl never.
#[global] Arguments foreign : simpl never.

Lemma own_app br l1 l2 : own br (l1 ++ l2) = own br l1 ++ own br l2.
Proof. apply filter_app. Qed.
Lemma foreign_app br l1 l2 : foreign br (l1 ++ l2) = foreign br l1 ++ foreign br l2.
Proof. apply filter_app. Qed.

(** The epochs the bridge commits later are none of the past. *)
Lemma own_stable (cur : EpochId) (br br' : gset EpochId) evs :
  br ⊆ br' → (∀ ep, ep ∈ br' → ep ∈ br ∨ (cur < ep)%Z) →
  Forall (λ ev, (ev_epoch ev ≤ cur)%Z) evs → own br' evs = own br evs.
Proof.
  intros Hsub Hnew Hall. unfold own. induction Hall as [|ev evs Hev _ IH]; [done|].
  rewrite !filter_cons, IH. repeat case_decide; try done; exfalso; [|set_solver].
  destruct (Hnew (ev_epoch ev)); [done|done|lia].
Qed.

Lemma foreign_stable (cur : EpochId) (br br' : gset EpochId) evs :
  br ⊆ br' → (∀ ep, ep ∈ br' → ep ∈ br ∨ (cur < ep)%Z) →
  Forall (λ ev, (ev_epoch ev ≤ cur)%Z) evs → foreign br' evs = foreign br evs.
Proof.
  intros Hsub Hnew Hall. unfold foreign. induction Hall as [|ev evs Hev _ IH]; [done|].
  rewrite !filter_cons, IH. repeat case_decide; try done; exfalso; [set_solver|].
  destruct (Hnew (ev_epoch ev)); [done|done|lia].
Qed.

(** The engine with its history: the epochs under which the bridge's
    transactions committed, the events the outbound worker translated, and the
    leaks, which are the events the poller let pass while their epoch was
    committed by a closure that had not recorded it yet. *)
Record Trace (D L : Type) : Type := mkTraceE {
  tr_engine : SyncEngine D L;
  tr_bridge : gset EpochId;
  tr_applied : list ChangeEvent;
  tr_leaks : list ChangeEvent
}.
Arguments mkTraceE {D L}.
Arguments tr_engine {D L}.
Arguments tr_bridge {D L}.
Arguments tr_applied {D L}.
Arguments tr_leaks {D L}.

Section transitions.
  Context {D S L : Type} `{GrafeoDBLaws D S, !GrafeoCdc S, !GrafeoCdcLaws S, !LoroDoc L, HashOrder}.
  Notation E := (SyncEngine D L).

(** A writer other than the bridge commits to grafeo. *)
Definition set_db (d : D) (e : E) : E :=
  let fs := mb_fs (batcher e) in set_fs (mkFlushState d (fs_maps fs) (bridge_origin_epochs fs)) e.

(** The epoch a step of a closure commits under, if it commits. *)
Definition thread_commit (c : BkChoice) (bk : Blocking) (fs : FlushState D) : list EpochId :=
  match bk, c with
  | BkQueued ops, BkGo => match (flush_transaction ops fs).1 with Ok epoch => [epoch] | Err _ => [] end
  | _, _ => []
  end.

Definition flush_commit (c : BkChoice) (e : E) : list EpochId :=
  match mb_flight (batcher e) with
  | Some fl => thread_commit c (fl_task fl) (mb_fs (batcher e))
  | None => []
  end.

Definition orphan_commit (i : nat) (c : BkChoice) (e : E) : list EpochId :=
  match mb_background (batcher e) !! i with
  | Some bk => thread_commit c bk (mb_fs (batcher e))
  | None => []
  end.

(** The event [poll_event] lets pass while its epoch is committed and not
    recorded. *)
Definition leaked (e : E) : list ChangeEvent :=
  match poll_sending e, poll_pending e with
  | None, Some (_, ev :: _) =>
      if bool_decide (ev_epoch ev ∈ bridge_epochs e) then []
      else if bool_decide (ev_epoch ev ∈ unrecorded e) then [ev] else []
  | _, _ => []
  end.

(** The event [outbound_apply] translates, if it translates one. *)
Definition translated (e : E) : list ChangeEvent :=
  match ch_queue (outbound e) with
  | (epoch, ev) :: _ => if bool_decide (epoch ∈ bridge_epochs e) then [] else [ev]
  | [] => []
  end.

(** The event the poller is sending and those on their way to the document. *)
Definition sending_event (e : E) : list ChangeEvent := option_list (poll_sending e).
Definition outbound_events (e : E) : list ChangeEvent := (snd <$> ch_queue (outbound e)) ++ sending_event e.

Inductive engine_step (cfg : BatcherConfig) (metrics health : bool) :
    Trace D L → Trace D L → Prop :=
| st_branch brn e br ap lk :
    engine_step cfg metrics health (mkTraceE e br ap lk) (mkTraceE (batcher_branch cfg brn e) br ap lk)
| st_flush c e e' br ap lk :
    flush_thread c e = Some e' →
    engine_step cfg metrics health (mkTraceE e br ap lk)
      (mkTraceE e' (br ∪ list_to_set (flush_commit c e)) ap lk)
| st_join elapsed e e' br ap lk :
    flush_join cfg elapsed e = Some e' →
    engine_step cfg metrics health (mkTraceE e br ap lk) (mkTraceE e' br ap lk)
| st_orphan i c e e' br ap lk :
    orphan_thread i c e = Some e' →
    engine_step cfg metrics health (mkTraceE e br ap lk)
      (mkTraceE e' (br ∪ list_to_set (orphan_commit i c e)) ap lk)
| st_forward e br ap lk :
    engine_step cfg metrics health (mkTraceE e br ap lk) (mkTraceE (inbound_forward metrics e) br ap lk)
| st_poll_begin e br ap lk :
    poll_pending e = None →
    engine_step cfg metrics health (mkTraceE e br ap lk) (mkTraceE (poll_begin e) br ap lk)
| st_poll_event e br ap lk :
    engine_step cfg metrics health (mkTraceE e br ap lk)
      (mkTraceE (poll_event metrics e) br ap (lk ++ leaked e))
| st_poll_send e br ap lk :
    engine_step cfg metrics health (mkTraceE e br ap lk) (mkTraceE (poll_send e) br ap lk)
| st_poll_end e br ap lk :
    engine_step cfg metrics health (mkTraceE e br ap lk) (mkTraceE (poll_end e) br ap lk)
| st_apply e br ap lk :
    engine_step cfg metrics health (mkTraceE e br ap lk)
      (mkTraceE (outbound_apply metrics e).2 br (ap ++ translated e) lk)
| st_commit payload e br ap lk :
    engine_step cfg metrics health (mkTraceE e br ap lk)
      (mkTraceE (outbound_commit metrics health payload e) br ap lk)
| st_local origin edit e br ap lk :
    engine_step cfg metrics health (mkTraceE e br ap lk)
      (mkTraceE (local_commit metrics origin edit e) br ap lk)
| st_db_write d e br ap lk :
    (current_epoch (grafeo_db e) < current_epoch d)%Z →
    engine_step cfg metrics health (mkTraceE e br ap lk) (mkTraceE (set_db d e) br ap lk).

(** ** Which parts touch what *)

(** What the invariant looks at. *)
Definition unrecorded_set (e : E) : gset EpochId := list_to_set (unrecorded e).
Definition core (e : E) :=
  (current_epoch (grafeo_db e), last_epoch e, bridge_epochs e, unrecorded_set e, poll_pending e,
   poll_sending e, ch_queue (outbound e)).

Lemma send_ops_core ops (e : E) : core (send_ops ops e) = core e.
Proof.
  revert e. induction ops as [|op ops IH]; intros e; cbn; [done|].
  destruct (try_send _ _); [|done]. by rewrite IH.
Qed.

Lemma subscriber_core metrics ev (e : E) : core (subscriber_handler metrics ev e) = core e.
Proof. unfold subscriber_handler. case_match; [done|]. apply send_ops_core. Qed.

Lemma commit_doc_core metrics (e : E) : core (commit_doc metrics e) = core e.
Proof.
  unfold commit_doc. destruct (loro_commit _) as [evs doc].
  assert (Hfold : ∀ (evs : list DiffEvent) (e0 : E),
    core (foldl (λ e ev, subscriber_handler metrics ev e) e0 evs) = core e0).
  { intros evs'. induction evs' as [|ev evs' IH]; intros e0; [done|]. cbn.
    by rewrite IH, subscriber_core. }
  by rewrite Hfold.
Qed.

Lemma inbound_forward_core metrics (e : E) : core (inbound_forward metrics e) = core e.
Proof.
  unfold inbound_forward. destruct (ch_queue (inbound e)); [done|].
  destruct (batcher_status e) eqn:Hs; [destruct (send_ready _); [|done]|];
    by destruct metrics; cbn; rewrite Hs.
Qed.

Lemma outbound_commit_core metrics health p (e : E) : core (outbound_commit metrics health p e) = core e.
Proof.
  transitivity (core (commit_doc metrics
    (set_doc (loro_set_next_commit_origin ORIGIN_GRAFEO_BRIDGE (loro_doc e)) e))); [done|].
  by rewrite commit_doc_core.
Qed.

(** A queued closure has recorded everything it has committed: nothing. *)
Lemma flush_spawn_frame last (b : MutationBatcher D) :
  mb_flight b = None → mb_fs (flush_spawn last b) = mb_fs b ∧
  mb_background (flush_spawn last b) = mb_background b ∧
  match mb_flight (flush_spawn last b) with
  | Some fl => fl_task fl = BkQueued (mb_buffer b) ∧ fl_ops fl = mb_buffer b ∧ fl_last fl = last ∧ mb_buffer b ≠ []
  | None => mb_buffer b = []
  end ∧ mb_buffer (flush_spawn last b) = [].
Proof. intros Hn. unfold flush_spawn. by destruct (mb_buffer b) eqn:Hb; [rewrite Hn, Hb|]. Qed.

Lemma batcher_branch_core cfg brn (e : E) : core (batcher_branch cfg brn e) = core e.
Proof.
  unfold batcher_branch. destruct (batcher_status e); [|done].
  destruct (mb_flight (batcher e)) as [fl|] eqn:Hf; [done|]. destruct (branch_event brn e) as [ev|]; [|done].
  assert (Hsp : ∀ last b, mb_flight b = None → mb_fs b = mb_fs (batcher e) →
    mb_background b = mb_background (batcher e) →
    ∀ s, core (set_batcher (flush_spawn last b) s e) = core e).
  { intros last b Hn Hfs Hbg s. destruct (flush_spawn_frame last b Hn) as (Hfs'&Hbg'&Hfl&_).
    unfold core, unrecorded_set, unrecorded, blocking_tasks, grafeo_db, bridge_epochs. cbn.
    rewrite Hfs', Hbg', Hfs, Hbg, Hf. by destruct (mb_flight (flush_spawn last b)) as [fl|]; [destruct Hfl as [-> _]|]. }
  assert (Hall : let '(s, b) := batcher_select cfg ev (batcher e) in core (set_batcher b s e) = core e).
  { destruct ev as [|op|]; cbn.
    - destruct (mb_buffer (batcher e)); [|by apply Hsp]. by destruct e.
    - destruct (_ <? _)%Z; [|by apply Hsp].
      unfold core, unrecorded_set, unrecorded, blocking_tasks. cbn. by rewrite Hf.
    - by apply Hsp. }
  destruct (batcher_select _ _ _) as [s b]. by destruct brn.
Qed.

(** Joining a flush or giving up on it keeps what its closure has not recorded. *)
Lemma flush_join_core cfg elapsed (e e' : E) : flush_join cfg elapsed e = Some e' → core e' = core e.
Proof.
  unfold flush_join, batcher_join, core, unrecorded_set, unrecorded, blocking_tasks, grafeo_db, bridge_epochs.
  destruct (mb_flight (batcher e)) as [[ops bk last]|] eqn:Hf; [|done]. cbn.
  destruct bk as [q|ep|[[]|er]|msg]; cbn; [destruct elapsed; [|done]|destruct elapsed; [|done]|..];
    intros [= <-]; cbn; try done.
  - by rewrite omap_app, app_nil_r.
  - rewrite omap_app. cbn. do 4 f_equal. apply set_eq. intros x.
    rewrite list_to_set_app, list_to_set_cons, list_to_set_nil. set_solver.
Qed.

(** ** What a step of a closure does to the epochs *)

Inductive thread_effect (c : BkChoice) (bk bk' : Blocking) (fs fs' : FlushState D) : Prop :=
| te_quiet :
    current_epoch (fs_db fs') = current_epoch (fs_db fs) → bridge_origin_epochs fs' = bridge_origin_epochs fs →
    thread_commit c bk fs = [] → (∀ ep, bk ≠ BkCommitted ep) → (∀ ep, bk' ≠ BkCommitted ep) →
    thread_effect c bk bk' fs fs'
| te_commit :
    (current_epoch (fs_db fs) < current_epoch (fs_db fs'))%Z → bridge_origin_epochs fs' = bridge_origin_epochs fs →
    thread_commit c bk fs = [current_epoch (fs_db fs')] → (∀ ep, bk ≠ BkCommitted ep) →
    bk' = BkCommitted (current_epoch (fs_db fs')) → thread_effect c bk bk' fs fs'
| te_record ep :
    fs_db fs' = fs_db fs → bridge_origin_epochs fs' = {[ep]} ∪ bridge_origin_epochs fs →
    thread_commit c bk fs = [] → bk = BkCommitted ep → bk' = BkReturned (Ok tt) → thread_effect c bk bk' fs fs'.

Lemma blocking_step_effect c bk fs bk' fs' :
  blocking_step c bk fs = Some (bk', fs') → thread_effect c bk bk' fs fs'.
Proof.
  destruct bk as [ops|ep|r|msg]; cbn; [|intros [= <- <-]; by eapply te_record|done..].
  destruct c as [|k msg].
  - pose proof (flush_transaction_epochs ops fs) as He.
    destruct (flush_transaction ops fs) as [[ep|er] fs1] eqn:Hf; intros [= <- <-].
    + destruct He as (Hlt&Hcur&Hb). apply te_commit; cbn; rewrite ?Hf, ?Hcur; done.
    + destruct He as [Hcur Hb]. apply te_quiet; cbn; rewrite ?Hf; done.
  - intros [= <- <-]. destruct (flush_panic_frame k ops fs) as [Hd Hb]. apply te_quiet; cbn; by rewrite ?Hd.
Qed.

Lemma flush_thread_effect c (e e' : E) :
  flush_thread c e = Some e' →
  ∃ l1 bk bk' l2, blocking_tasks (batcher e) = l1 ++ bk :: l2 ∧ blocking_tasks (batcher e') = l1 ++ bk' :: l2 ∧
    thread_effect c bk bk' (mb_fs (batcher e)) (mb_fs (batcher e')) ∧
    flush_commit c e = thread_commit c bk (mb_fs (batcher e)).
Proof.
  unfold flush_thread, flight_step, flush_commit, blocking_tasks.
  destruct (mb_flight (batcher e)) as [fl|]; [|done]. destruct (blocking_step _ _ _) as [[bk' fs']|] eqn:Hs; [|done].
  intros [= <-]. exists [], (fl_task fl), bk', (mb_background (batcher e)). cbn.
  do 2 (split; [done|]). split; [by apply blocking_step_effect|done].
Qed.

Lemma orphan_thread_effect i c (e e' : E) :
  orphan_thread i c e = Some e' →
  ∃ l1 bk bk' l2, blocking_tasks (batcher e) = l1 ++ bk :: l2 ∧ blocking_tasks (batcher e') = l1 ++ bk' :: l2 ∧
    thread_effect c bk bk' (mb_fs (batcher e)) (mb_fs (batcher e')) ∧
    orphan_commit i c e = thread_commit c bk (mb_fs (batcher e)).
Proof.
  unfold orphan_thread, background_step, orphan_commit, blocking_tasks.
  destruct (mb_background (batcher e) !! i) as [bk|] eqn:Hi; [|done].
  destruct (blocking_step _ _ _) as [[bk' fs']|] eqn:Hs; [|done]. intros [= <-]. cbn.
  pose proof (list_elem_of_split_length _ _ _ Hi) as (l1&l2&Hl&Hlen).
  exists (match mb_flight (batcher e) with Some fl => [fl_task fl] | None => [] end ++ l1), bk, bk', l2.
  assert (Hins : <[i:=bk']> (l1 ++ bk :: l2) = l1 ++ bk' :: l2) by by rewrite insert_app_r_alt, Hlen, Nat.sub_diag by lia.
  rewrite Hl, Hins, <-!(assoc_L (++)).
  do 2 (split; [done|]). split; [by apply blocking_step_effect|done].
Qed.

(** ** The invariant of the epoch side channel *)

Record echo_inv (cur last : EpochId) (set unrec br : gset EpochId)
    (pending : option (EpochId * list ChangeEvent)) (sending : list ChangeEvent)
    (out : list (EpochId * ChangeEvent)) (ap lk : list ChangeEvent) : Prop := {
  ei_last : (0 ≤ last ≤ cur)%Z;
  ei_set : set ⊆ br;
  ei_unrec : unrec ⊆ br;
  ei_bridge ep : ep ∈ br → (0 < ep ≤ cur)%Z ∧ (ep ∈ set ∨ ep ∈ unrec ∨ (ep < last)%Z);
  ei_pending c evs : pending = Some (c, evs) →
    (last < c ≤ cur)%Z ∧ Forall (λ ev, (last ≤ ev_epoch ev ≤ c)%Z) evs;
  ei_msgs : Forall (λ m, m.1 = ev_epoch m.2) out;
  ei_past : Forall (λ ev, (ev_epoch ev ≤ cur)%Z) (ap ++ (snd <$> out) ++ sending);
  ei_leaks : Forall (λ ev, ev_epoch ev ∈ br) lk;
  ei_own : own br (ap ++ (snd <$> out) ++ sending) `sublist_of` lk
}.

Definition trace_inv (t : Trace D L) : Prop :=
  let e := tr_engine t in
  echo_inv (current_epoch (grafeo_db e)) (last_epoch e) (bridge_epochs e) (unrecorded_set e) (tr_bridge t)
    (poll_pending e) (sending_event e) (ch_queue (outbound e)) (tr_applied t) (tr_leaks t).

(** A commit of somebody else, and one of a closure. *)
Lemma echo_inv_write cur cur' last set unrec br pending sending out ap lk :
  (cur < cur')%Z → echo_inv cur last set unrec br pending sending out ap lk →
  echo_inv cur' last set unrec br pending sending out ap lk.
Proof.
  intros Hlt [Hl Hs Hu Hb Hp Hm Hpa Hlk Ho]. split; try done; [lia|..].
  - intros ep Hep. destruct (Hb ep Hep). split; [lia|done].
  - intros c evs Hc. destruct (Hp c evs Hc). split; [lia|done].
  - eapply Forall_impl; [exact Hpa|]. cbn. lia.
Qed.

Lemma echo_inv_commit cur cur' last set unrec br pending sending out ap lk :
  (cur < cur')%Z → echo_inv cur last set unrec br pending sending out ap lk →
  echo_inv cur' last set ({[cur']} ∪ unrec) (br ∪ {[cur']}) pending sending out ap lk.
Proof.
  intros Hlt Hinv. pose proof (echo_inv_write _ _ _ _ _ _ _ _ _ _ _ Hlt Hinv) as [Hl Hs Hu Hb Hp Hm Hpa Hlk Ho].
  pose proof (ei_last _ _ _ _ _ _ _ _ _ _ Hinv) as Hl0.
  split; try done; [set_solver|set_solver|..].
  - intros ep [Hep| ->%elem_of_singleton]%elem_of_union; [|split; [lia|set_solver]].
    destruct (Hb ep Hep) as [? [?|[?|?]]]; (split; [done|]); set_solver.
  - eapply Forall_impl; [exact Hlk|]. set_solver.
  - rewrite (own_stable cur br); [done|set_solver| |apply Hinv].
    intros ep [?| ->%elem_of_singleton]%elem_of_union; [by left|by right].
Qed.

(** The recording of an epoch. *)
Lemma echo_inv_record ep cur last set unrec unrec' br pending sending out ap lk :
  ep ∈ unrec → unrec' ⊆ unrec → unrec ⊆ {[ep]} ∪ unrec' →
  echo_inv cur last set unrec br pending sending out ap lk →
  echo_inv cur last ({[ep]} ∪ set) unrec' br pending sending out ap lk.
Proof.
  intros Hin Hsub Hsup [Hl Hs Hu Hb Hp Hm Hpa Hlk Ho]. split; try done; [set_solver|set_solver|].
  intros x Hx. destruct (Hb x Hx) as [? Hor]. split; [done|].
  destruct (decide (x = ep)) as [->|]; [set_solver|].
  destruct Hor as [?|[Hxu|?]]; [set_solver| |by right; right]. right. left. set_solver.
Qed.

(** Any step of any closure. *)
Lemma trace_inv_thread c (e e' : E) bk bk' l1 l2 cs br ap lk :
  blocking_tasks (batcher e) = l1 ++ bk :: l2 → blocking_tasks (batcher e') = l1 ++ bk' :: l2 →
  thread_effect c bk bk' (mb_fs (batcher e)) (mb_fs (batcher e')) → cs = thread_commit c bk (mb_fs (batcher e)) →
  last_epoch e' = last_epoch e → poll_pending e' = poll_pending e → poll_sending e' = poll_sending e →
  outbound e' = outbound e →
  trace_inv (mkTraceE e br ap lk) → trace_inv (mkTraceE e' (br ∪ list_to_set cs) ap lk).
Proof.
  unfold trace_inv, sending_event, unrecorded_set, unrecorded, grafeo_db, bridge_epochs. cbn.
  intros Ht Ht' Heff -> -> -> -> ->. rewrite Ht, Ht', !omap_app. cbn.
  destruct Heff as [Hc Hb -> Hbk Hbk'|Hc Hb -> Hbk ->|ep Hd Hb -> -> ->]; cbn.
  - rewrite Hc, Hb, (right_id_L ∅ (∪)).
    destruct bk; [|by destruct (Hbk epoch)|..]; (destruct bk'; [|by destruct (Hbk' epoch)|..]); done.
  - assert (Hset : ∀ x (u v : list EpochId), list_to_set (u ++ x :: v) =@{gset EpochId} {[x]} ∪ list_to_set (u ++ v)) by set_solver.
    rewrite Hb, (right_id_L ∅ (∪)), Hset. destruct bk; [|by destruct (Hbk epoch)|..]; by apply echo_inv_commit.
  - rewrite Hd, Hb, (right_id_L ∅ (∪)). apply echo_inv_record; rewrite !list_to_set_app_L; set_solver.
Qed.

Lemma echo_inv_poll_event cur last set unrec br c ev evs out ap lk :
  echo_inv cur last set unrec br (Some (c, ev :: evs)) [] out ap lk →
  if bool_decide (ev_epoch ev ∈ set) then echo_inv cur last set unrec br (Some (c, evs)) [] out ap lk
  else echo_inv cur last set unrec br (Some (c, evs)) [ev] out ap
         (lk ++ if bool_decide (ev_epoch ev ∈ unrec) then [ev] else []).
Proof.
  intros [Hl Hs Hu Hb Hp Hm Hpa Hlk Ho]. destruct (Hp _ _ eq_refl) as [Hc [Hev Hevs]%Forall_cons].
  assert (Hp' : ∀ c' evs', Some (c, evs) = Some (c', evs') →
    (last < c' ≤ cur)%Z ∧ Forall (λ ev, (last ≤ ev_epoch ev ≤ c')%Z) evs') by (intros c' evs' [= <- <-]; done).
  case_bool_decide as Hin; [by split|]. rewrite app_nil_r in Hpa, Ho. split; try done.
  - rewrite (assoc_L (++)). apply Forall_app. split; [done|]. apply Forall_singleton. lia.
  - apply Forall_app. split; [done|]. case_bool_decide; [|done]. apply Forall_singleton. set_solver.
  - rewrite (assoc_L (++)), own_app. unfold own at 2. rewrite filter_cons, filter_nil.
    case_decide as Hbr; [|rewrite app_nil_r; by apply sublist_inserts_r].
    destruct (Hb _ Hbr) as [_ [?|[?|?]]]; [done| |lia]. rewrite bool_decide_true by done.
    by apply sublist_app.
Qed.

Lemma echo_inv_poll_end cur last set unrec br c sending out ap lk :
  echo_inv cur last set unrec br (Some (c, [])) sending out ap lk →
  echo_inv cur c (prune_epochs last set) unrec br None sending out ap lk.
Proof.
  intros [Hl Hs Hu Hb Hp Hm Hpa Hlk Ho]. destruct (Hp _ _ eq_refl) as [Hc _].
  split; try done; [lia| |].
  - unfold prune_epochs. set_solver.
  - intros ep Hep. destruct (Hb ep Hep) as [Hpos Hor]. split; [done|].
    unfold prune_epochs, u64_saturating_sub, EPOCH_RETENTION. rewrite elem_of_filter.
    destruct Hor as [Hin|[?|?]]; [|by right; left|right; right; lia].
    destruct (decide (Z.max (last - 10000) 0 < ep)%Z); [by left|right; right; lia].
Qed.

(** The message at the head is translated, or dropped as the bridge's own. *)
Lemma echo_inv_take cur last set unrec br pending sending m out ap lk :
  echo_inv cur last set unrec br pending sending (m :: out) ap lk →
  echo_inv cur last set unrec br pending sending out
    (ap ++ if bool_decide (m.1 ∈ set) then [] else [m.2]) lk.
Proof.
  intros [Hl Hs Hu Hb Hp [_ Hm]%Forall_cons Hpa Hlk Ho]. split; try done; case_bool_decide.
  - rewrite app_nil_r. rewrite fmap_cons in Hpa. rewrite !Forall_app, Forall_cons in *. naive_solver.
  - rewrite <-(assoc_L (++)). exact Hpa.
  - rewrite app_nil_r. etrans; [|exact Ho]. rewrite fmap_cons.
    unfold own. rewrite !filter_app. apply sublist_app; [done|]. apply sublist_app; [|done].
    rewrite filter_cons. case_decide; [by apply sublist_cons|done].
  - rewrite <-(assoc_L (++)). exact Ho.
Qed.

Lemma outbound_apply_core metrics (e : E) :
  let e' := (outbound_apply metrics e).2 in
  current_epoch (grafeo_db e') = current_epoch (grafeo_db e) ∧ last_epoch e' = last_epoch e ∧
  bridge_epochs e' = bridge_epochs e ∧ unrecorded_set e' = unrecorded_set e ∧
  poll_pending e' = poll_pending e ∧ poll_sending e' = poll_sending e ∧
  ch_queue (outbound e') = tail (ch_queue (outbound e)).
Proof.
  unfold outbound_apply. destruct (ch_queue (outbound e)) as [|[ep pl] rest] eqn:Hq.
  { cbn. by rewrite Hq. }
  case_bool_decide; cbn; [done|].
  by destruct (apply_change_event_to_loro _ _) as [[]?].
Qed.

Lemma trace_inv_core (e e' : E) br ap lk :
  core e' = core e → trace_inv (mkTraceE e br ap lk) → trace_inv (mkTraceE e' br ap lk).
Proof. unfold core, trace_inv, sending_event. cbn. by intros [= -> -> -> -> -> -> ->]. Qed.

Lemma flush_thread_inv c (e e' : E) br ap lk :
  flush_thread c e = Some e' → trace_inv (mkTraceE e br ap lk) →
  trace_inv (mkTraceE e' (br ∪ list_to_set (flush_commit c e)) ap lk).
Proof.
  intros He. destruct (flush_thread_effect _ _ _ He) as (l1&bk&bk'&l2&Ht&Ht'&Hf&Hc).
  apply (trace_inv_thread c e e' bk bk' l1 l2); try done;
    unfold flush_thread in He; by destruct (flight_step _ _); simplify_eq/=.
Qed.

Lemma orphan_thread_inv i c (e e' : E) br ap lk :
  orphan_thread i c e = Some e' → trace_inv (mkTraceE e br ap lk) →
  trace_inv (mkTraceE e' (br ∪ list_to_set (orphan_commit i c e)) ap lk).
Proof.
  intros He. destruct (orphan_thread_effect _ _ _ _ He) as (l1&bk&bk'&l2&Ht&Ht'&Hf&Hc).
  apply (trace_inv_thread c e e' bk bk' l1 l2); try done;
    unfold orphan_thread in He; by destruct (background_step _ _ _); simplify_eq/=.
Qed.

Lemma poll_begin_inv (e : E) br ap lk :
  poll_pending e = None → trace_inv (mkTraceE e br ap lk) → trace_inv (mkTraceE (poll_begin e) br ap lk).
Proof.
  intros Hn. unfold poll_begin. destruct (_ <=? _)%Z eqn:Hle; [done|]. apply Z.leb_gt in Hle.
  destruct (changes_between _ _ _) as [evs|] eqn:Hcb; [|done].
  apply changes_between_law in Hcb. unfold trace_inv. cbn. intros [Hl Hs Hu Hb Hp Hm Hpa Hlk Ho].
  split; try done. intros c evs' [= <- <-]. done.
Qed.

Lemma poll_event_inv metrics (e : E) br ap lk :
  trace_inv (mkTraceE e br ap lk) → trace_inv (mkTraceE (poll_event metrics e) br ap (lk ++ leaked e)).
Proof.
  unfold poll_event, leaked. destruct (poll_sending e) as [x|] eqn:Hs; [by rewrite app_nil_r|].
  destruct (poll_pending e) as [[c [|ev evs]]|] eqn:Hp; [by rewrite app_nil_r| |by rewrite app_nil_r].
  unfold trace_inv, sending_event. cbn. rewrite Hp, Hs. cbn. intros Hinv%echo_inv_poll_event.
  assert (Hu : bool_decide (ev_epoch ev ∈ unrecorded_set e) = bool_decide (ev_epoch ev ∈ unrecorded e)).
  { apply bool_decide_ext. apply elem_of_list_to_set. }
  rewrite Hu in Hinv. clear Hu. destruct (bool_decide (_ ∈ bridge_epochs e)); cbn; [|exact Hinv].
  rewrite app_nil_r, Hs. exact Hinv.
Qed.

Lemma poll_send_inv (e : E) br ap lk :
  trace_inv (mkTraceE e br ap lk) → trace_inv (mkTraceE (poll_send e) br ap lk).
Proof.
  unfold poll_send, trace_inv, sending_event. destruct (poll_sending e) as [ev|] eqn:Hs; [|cbn; by rewrite Hs].
  destruct (send_ready _); cbn; [|by rewrite Hs]. rewrite Hs. intros [Hl Hset Hu Hb Hp Hm Hpa Hlk Ho]. split; try done.
  - apply Forall_app. split; [done|]. by apply Forall_singleton.
  - rewrite fmap_app, app_nil_r. exact Hpa.
  - rewrite fmap_app, app_nil_r. exact Ho.
Qed.

Lemma poll_end_inv (e : E) br ap lk :
  trace_inv (mkTraceE e br ap lk) → trace_inv (mkTraceE (poll_end e) br ap lk).
Proof.
  unfold poll_end. destruct (poll_sending e) eqn:Hs; [done|].
  destruct (poll_pending e) as [[c [|ev evs]]|] eqn:Hp; [|done..].
  unfold trace_inv, sending_event. cbn. rewrite Hp. apply echo_inv_poll_end.
Qed.

Lemma outbound_apply_inv metrics (e : E) br ap lk :
  trace_inv (mkTraceE e br ap lk) →
  trace_inv (mkTraceE (outbound_apply metrics e).2 br (ap ++ translated e) lk).
Proof.
  destruct (outbound_apply_core metrics e) as (Hc&Hl&Hb&Hu&Hp&Hs&Hq).
  unfold trace_inv, sending_event, translated. cbn. rewrite Hc, Hl, Hb, Hu, Hp, Hs, Hq.
  destruct (ch_queue (outbound e)) as [|[ep ev] q]; cbn; [by rewrite app_nil_r|].
  apply (echo_inv_take _ _ _ _ _ _ _ (ep, ev)).
Qed.

Lemma engine_step_inv cfg metrics health t t' :
  engine_step cfg metrics health t t' → trace_inv t → trace_inv t'.
Proof.
  destruct 1.
  - apply trace_inv_core, batcher_branch_core.
  - by apply flush_thread_inv.
  - by eapply trace_inv_core, flush_join_core.
  - by apply orphan_thread_inv.
  - apply trace_inv_core, inbound_forward_core.
  - by apply poll_begin_inv.
  - apply poll_event_inv.
  - apply poll_send_inv.
  - apply poll_end_inv.
  - apply outbound_apply_inv.
  - apply trace_inv_core, outbound_commit_core.
  - apply trace_inv_core. unfold local_commit. by rewrite commit_doc_core.
  - by apply echo_inv_write.
Qed.

Definition trace_new (db : D) (doc : L) : Trace D L := mkTraceE (SyncEngine_new db doc) ∅ [] [].

Lemma trace_new_inv db doc : trace_inv (trace_new db doc).
Proof.
  unfold trace_inv. cbn. pose proof (current_epoch_range db). split; try done; set_solver.
Qed.

Lemma reachable_inv cfg metrics health db doc t :
  rtc (engine_step cfg metrics health) (trace_new db doc) t → trace_inv t.
Proof.
  intros Hr. apply (rtc_ind_r trace_inv (trace_new db doc)) in Hr; [done|apply trace_new_inv|].
  intros t1 t2 _ Hs. by eapply engine_step_inv.
Qed.

(** C9: the echo filter of the outbound side, under every interleaving of the
    engine's tasks, its flush threads and other writers.  Every epoch the bridge
    committed under is recorded, or is held by a closure that has committed and
    not yet recorded it, or lies before every event the poller will still read:
    pruning forgets no epoch that is needed.  So the only events of the bridge's
    own commits that are ever on their way to Loro, or translated, are the ones
    the poller let pass in that gap (the leaks, each at most once and in order);
    while no poll falls into the gap there is none. *)
Theorem no_outbound_echo (cfg : BatcherConfig) (metrics health : bool) (db : D) (doc : L)
  (t : Trace D L) (Hr : rtc (engine_step cfg metrics health) (trace_new db doc) t) :
  (∀ ep, ep ∈ tr_bridge t → ep ∈ bridge_epochs (tr_engine t) ∨ ep ∈ unrecorded (tr_engine t) ∨
     (ep < last_epoch (tr_engine t))%Z) ∧
  own (tr_bridge t) (tr_applied t ++ outbound_events (tr_engine t)) `sublist_of` tr_leaks t ∧
  Forall (λ ev, ev_epoch ev ∈ tr_bridge t) (tr_leaks t) ∧
  (tr_leaks t = [] →
     Forall (λ ev, ev_epoch ev ∉ tr_bridge t) (tr_applied t ++ outbound_events (tr_engine t))).
Proof.
  apply reachable_inv in Hr. destruct Hr as [_ _ _ Hb _ _ _ Hlk Ho].
  split; [|split; [exact Ho|split; [done|]]].
  - intros ep Hep. destruct (Hb ep Hep) as [_ [?|[Hu|?]]]; [by left| |by right; right].
    right. left. by apply elem_of_list_to_set in Hu.
  - intros Hn. rewrite Hn in Ho. apply sublist_nil_r in Ho. apply Forall_forall. intros ev Hev Hin.
    assert (Hown : ev ∈ own (tr_bridge t) (tr_applied t ++ outbound_events (tr_engine t)))
      by by apply list_elem_of_filter.
    unfold outbound_events in Hown. rewrite Ho in Hown. by apply not_elem_of_nil in Hown.
Qed.
End transitions.

(** ** The inbound side *)

Section inbound_side.
  Context {D S L : Type} `{GrafeoSession S, !GrafeoDB D S, !GrafeoCdc S, !LoroDoc L, HashOrder}.
  Notation E := (SyncEngine D L).

Lemma commit_echo_inbound `{!LoroCommitLaws L} metrics origin doc (e : E) :
  is_echo_origin origin = true →
  inbound (commit_doc metrics (set_doc (loro_set_next_commit_origin origin doc) e)) = inbound e.
Proof.
  intros Ho. unfold commit_doc. cbn. pose proof (commit_origin_law origin doc) as Hl.
  destruct (loro_commit _) as [evs doc']. cbn in Hl. set (e0 := set_doc doc' _).
  change (inbound e) with (inbound e0). clearbody e0.
  induction Hl as [|ev evs Hev _ IH] in e0 |- *; [done|]. cbn. rewrite IH.
  unfold subscriber_handler. by rewrite Hev, Ho.
Qed.

(** What the outbound worker writes to Loro never comes back: its apply and
    commit, run together, put nothing on the inbound channel. *)
Lemma no_inbound_echo `{!LoroCommitLaws L} (metrics health : bool) (e : E) :
  inbound (outbound_step metrics health e) = inbound e.
Proof.
  unfold outbound_step.
  assert (Ha : inbound (outbound_apply metrics e).2 = inbound e).
  { unfold outbound_apply. destruct (ch_queue (outbound e)) as [|[ep pl] rest]; [done|].
    case_bool_decide; [done|]. by destruct (apply_change_event_to_loro _ _) as [[]?]. }
  destruct (outbound_apply metrics e) as [[pl|] e1]; cbn in *; [|done].
  rewrite <-Ha. unfold outbound_commit. by rewrite <-(commit_echo_inbound metrics ORIGIN_GRAFEO_BRIDGE (loro_doc e1) e1).
Qed.
End inbound_side.

(** ** Concrete runs *)

#[export] Instance MemGraph_cdc : GrafeoCdc MemGraph := {|
  changes_between s a b :=
    Ok (base.filter (λ ev, (a < ev_epoch ev ∧ ev_epoch ev ≤ b)%Z) (mg_log s))
|}.

#[export] Instance MemGraph_cdc_laws : GrafeoCdcLaws MemGraph.
Proof.
  intros s a b evs [= <-]. apply Forall_forall. intros ev [? _]%list_elem_of_filter. lia.
Qed.

#[export] Instance MemLoro_commit_laws : LoroCommitLaws MemLoro.
Proof. intros o l. cbn. destruct (ml_pending l); repeat constructor. Qed.

Definition cfg1 : BatcherConfig := mkBatcherConfig 1 100 true true.
Definition t0 : Trace MemDb MemLoro := trace_new memdb_new MemLoro_new.

(** A vertex typed by a peer: enqueued, forwarded, flushed, polled, filtered. *)
Definition edit_v : MemLoro → MemLoro :=
  λ l, (map_insert ROOT_VERTICES "v" (LV_Map {["p" := LV_I64 1]}) l).2.
Definition op_v : LoroOp := UpsertNode "v" [] {["p" := GraphValue_Integer 1]}.

(** Steps of the concrete engine, as functions. *)
Inductive Move : Type :=
| MvType | MvForward | MvBranch (br : Branch) | MvFlush | MvJoin | MvPoll | MvEvent | MvSend | MvEnd | MvApply
| MvCommit (payload : ChangeEvent).

Definition move (t : Trace MemDb MemLoro) (m : Move) : Trace MemDb MemLoro :=
  let '(mkTraceE e br ap lk) := t in
  match m with
  | MvType => mkTraceE (local_commit true "typing" edit_v e) br ap lk
  | MvForward => mkTraceE (inbound_forward true e) br ap lk
  | MvBranch b => mkTraceE (batcher_branch cfg1 b e) br ap lk
  | MvFlush =>
      match flush_thread BkGo e with
      | Some e' => mkTraceE e' (br ∪ list_to_set (flush_commit BkGo e)) ap lk
      | None => t
      end
  | MvJoin => match flush_join cfg1 false e with Some e' => mkTraceE e' br ap lk | None => t end
  | MvPoll => match poll_pending e with None => mkTraceE (poll_begin e) br ap lk | Some _ => t end
  | MvEvent => mkTraceE (poll_event true e) br ap (lk ++ leaked e)
  | MvSend => mkTraceE (poll_send e) br ap lk
  | MvEnd => mkTraceE (poll_end e) br ap lk
  | MvApply => mkTraceE (outbound_apply true e).2 br (ap ++ translated e) lk
  | MvCommit payload => mkTraceE (outbound_commit true true payload e) br ap lk
  end.

Lemma move_step t m : rtc (engine_step cfg1 true true) t (move t m).
Proof.
  destruct t as [e br ap lk]. destruct m as [| |b| | | | | | | |p]; cbn [move].
  - by apply rtc_once, st_local.
  - by apply rtc_once, st_forward.
  - by apply rtc_once, st_branch.
  - destruct (flush_thread BkGo e) eqn:He; [|done]. by apply rtc_once, st_flush.
  - destruct (flush_join cfg1 false e) eqn:He; [|done]. by eapply rtc_once, st_join.
  - destruct (poll_pending e) eqn:He; [done|]. by apply rtc_once, st_poll_begin.
  - by apply rtc_once, st_poll_event.
  - by apply rtc_once, st_poll_send.
  - by apply rtc_once, st_poll_end.
  - by apply rtc_once, st_apply.
  - by apply rtc_once, st_commit.
Qed.

Lemma moves_run ms t : rtc (engine_step cfg1 true true) t (foldl move t ms).
Proof.
  revert t. induction ms as [|m ms IH]; intros t; [apply rtc_refl|]. cbn.
  etrans; [apply move_step|apply IH].
Qed.

(** A flush from the keyboard to the end of its transaction. *)
Definition typed_moves : list Move := [MvType; MvForward; MvBranch BrRecv; MvFlush].

(** The flush records its epoch before the poller comes: its commit is filtered. *)
Lemma no_outbound_echo_witness :
  let t := foldl move t0 (typed_moves ++ [MvFlush; MvJoin; MvPoll; MvEvent; MvEnd]) in
  tr_bridge t = {[1%Z]} ∧ ct_echo_outbound (counters (tr_engine t)) = 1%Z ∧ tr_leaks t = [] ∧
  Forall (λ ev, ev_epoch ev ∉ tr_bridge t) (tr_applied t ++ outbound_events (tr_engine t)).
Proof.
  intros t. assert (Hlk : tr_leaks t = []) by (vm_compute; reflexivity).
  destruct (no_outbound_echo cfg1 true true memdb_new MemLoro_new t (moves_run _ _)) as (_&_&_&Hn).
  split; [vm_compute; reflexivity|]. split; [vm_compute; reflexivity|]. split; [exact Hlk|exact (Hn Hlk)].
Defined.

Lemma no_inbound_echo_witness :
  let e := set_outbound (mkChan [(5%Z, mkChangeEvent 5 (Ent_Node (mkNodeId 1)) Update
                              (Some {["p" := GV_Null]}) None None None)] 1024 false)
             (set_fs (mkFlushState memdb_new (BridgeMaps_insert_node BridgeMaps_new "v" (mkNodeId 1)) ∅)
               (tr_engine t0)) in
  inbound (outbound_step true true e) = inbound e ∧
  inbound_filtered_count (outbound_step true true e) = 1%Z.
Proof. intros e. split; [apply no_inbound_echo|vm_compute; reflexivity]. Defined.

Lemma subscriber_backpressure_witness :
  let e := set_inbound (mkChan [] 1 false) 0 (tr_engine t0) in
  let ev := mkDiffEvent "typing" [mkContainerDiff (CID_Root "V")
              (Diff_Map [("a", None); ("b", None)])] in
  length (ch_queue (inbound (subscriber_handler true ev e))) ≤ ch_capacity (inbound e).
Proof. intros e ev. apply subscriber_backpressure; vm_compute; [split; discriminate|lia]. Defined.

(** Between a flush's commit and the recording of its epoch the poller can read
    the commit: its event passes the filter, and when the worker takes it before
    the closure's thread goes on, the bridge writes its own change back to Loro. *)
Example poll_between_commit_and_record :
  let t1 := foldl move t0 (typed_moves ++ [MvPoll; MvEvent; MvSend]) in
  let t2 := move t1 MvApply in
  let t3 := foldl move t2 [MvFlush; MvJoin; MvEnd] in
  unrecorded (tr_engine t1) = [1%Z] ∧ length (tr_leaks t1) = 1 ∧
  tr_applied t2 = tr_leaks t1 ∧ ev_epoch <$> tr_applied t3 = [1%Z] ∧ tr_bridge t3 = {[1%Z]} ∧
  bridge_epochs (tr_engine t3) = {[1%Z]} ∧ unrecorded (tr_engine t3) = [].
Proof. vm_compute. repeat split. Qed.

(** The outbound worker applies an event and commits it under two separate
    locks: an edit committed in between publishes the worker's pending write
    under the editor's origin, and the subscriber enqueues it. *)
Example local_commit_between_apply_and_commit :
  let ev := mkChangeEvent 5 (Ent_Node (mkNodeId 1)) Update (Some {["p" := GV_Null]}) None None None in
  let e := set_outbound (mkChan [(5%Z, ev)] 1024 false)
             (set_fs (mkFlushState memdb_new (BridgeMaps_insert_node BridgeMaps_new "v" (mkNodeId 1)) ∅)
               (tr_engine t0)) in
  let '(p, e1) := outbound_apply true e in
  let e2 := local_commit true "typing" id e1 in
  is_Some p ∧ map head [ch_queue (inbound e2)] = [Some (UpsertNode "v" [] {["p" := GraphValue_Null]})].
Proof. vm_compute. split; [by eexists|done]. Qed.
