(* ===== verification/Lifecycle.v ===== *)
(** * The engine's tasks from start to shutdown ([src/bridge/sync_engine.rs], [src/app.rs])

    [spawn_all] starts the inbound worker with its batcher child, the outbound
    worker and the CDC poller; [shutdown] broadcasts on a channel each of them
    has subscribed to and joins their handles.  Each task has a program counter,
    one definition gives what a poll of the task does, and a task that waits is
    a poll that returns [None].  The thread that runs the closure of the flush the
    batcher awaits is a task too.  The subscriptions matter: a broadcast reaches
    the receivers that exist when it is sent, and the batcher only subscribes
    when its task is polled for the first time. *)

From S2P Require Import Prelude Types Values BridgeMaps GrafeoTx GraphSpec MemGraph Batcher BatcherSpec EdgeKeys Translate Queue SyncEngine EngineSpec.

(** ** Tasks *)

(** [InSend] is the worker inside [batch_tx.send(op).await]; [InJoin] awaits the
    batcher's handle. *)
Inductive InboundTask : Type := InSelect | InSend (op : LoroOp) | InJoin | InDone.

(** [OutCommit] is the worker between its two critical sections. *)
Inductive OutboundTask : Type := OutSelect | OutCommit (payload : ChangeEvent) | OutDone.

(** The poller reads its first [last_epoch] when it is first polled. *)
Inductive PollerTask : Type := PollSpawned | PollRun | PollDone.

(** [rt_inbound_rx], [rt_outbound_rx] and [rt_poller_rx]: whether a broadcast
    waits in the task's receiver, subscribed before the task is spawned.
    [rt_batcher_rx] is [None] until the batcher's first poll subscribes. *)
Record Runtime (D L : Type) : Type := mkRuntime {
  rt_engine : SyncEngine D L;
  rt_inbound : InboundTask;
  rt_outbound : OutboundTask;
  rt_poller : PollerTask;
  rt_inbound_rx : bool;
  rt_outbound_rx : bool;
  rt_poller_rx : bool;
  rt_batcher_rx : option bool
}.
Arguments mkRuntime {D L}.
Arguments rt_engine {D L}.
Arguments rt_inbound {D L}.
Arguments rt_outbound {D L}.
Arguments rt_poller {D L}.
Arguments rt_inbound_rx {D L}.
Arguments rt_outbound_rx {D L}.
Arguments rt_poller_rx {D L}.
Arguments rt_batcher_rx {D L}.

(** [TFlush] is the thread of the awaited flush. *)
Inductive Task : Type := TInbound | TBatcher | TFlush | TOutbound | TPoller.

#[export] Instance Task_eq_dec : EqDecision Task.
Proof. solve_decision. Defined.

Section lifecycle.
  Context {D S L : Type} `{GrafeoSession S, !GrafeoDB D S, !GrafeoCdc S, !LoroDoc L, HashOrder}.
  Context (cfg : BatcherConfig) (metrics health : bool).
  Notation E := (SyncEngine D L).
  Notation RT := (Runtime D L).

Definition set_eng (e : E) (rt : RT) : RT :=
  mkRuntime e (rt_inbound rt) (rt_outbound rt) (rt_poller rt) (rt_inbound_rx rt) (rt_outbound_rx rt)
    (rt_poller_rx rt) (rt_batcher_rx rt).
Definition set_inb (t : InboundTask) (rt : RT) : RT :=
  mkRuntime (rt_engine rt) t (rt_outbound rt) (rt_poller rt) (rt_inbound_rx rt) (rt_outbound_rx rt)
    (rt_poller_rx rt) (rt_batcher_rx rt).
Definition set_outb (t : OutboundTask) (rt : RT) : RT :=
  mkRuntime (rt_engine rt) (rt_inbound rt) t (rt_poller rt) (rt_inbound_rx rt) (rt_outbound_rx rt)
    (rt_poller_rx rt) (rt_batcher_rx rt).
Definition set_poller (t : PollerTask) (rt : RT) : RT :=
  mkRuntime (rt_engine rt) (rt_inbound rt) (rt_outbound rt) t (rt_inbound_rx rt) (rt_outbound_rx rt)
    (rt_poller_rx rt) (rt_batcher_rx rt).
Definition set_batcher_rx (rx : option bool) (rt : RT) : RT :=
  mkRuntime (rt_engine rt) (rt_inbound rt) (rt_outbound rt) (rt_poller rt) (rt_inbound_rx rt)
    (rt_outbound_rx rt) (rt_poller_rx rt) rx.

(** ** [spawn_all] *)

Definition spawn_all (e : E) : RT :=
  mkRuntime e InSelect OutSelect PollSpawned false false false None.

(** ** The inbound worker *)

(** The message branch up to [batch_tx.send(op)]. *)
Definition inbound_take (op : LoroOp) (rest : list LoroOp) (e : E) : E :=
  let e1 := set_inbound (mkChan rest (ch_capacity (inbound e)) (ch_closed (inbound e)))
              (inbound_event_count e) e in
  let c := counters e1 in
  if metrics
  then set_counters (inbound_filtered_count e1)
         (mkCounters (ct_inbound_events c ++ [LoroOp_event_type op]) (ct_outbound_events c)
            (ct_echo_inbound c) (ct_echo_outbound c) (ct_sync_stamps c)) e1
  else e1.

(** The engine holds a sender, so the channel is never closed from its side and
    an empty channel makes [recv] wait.  The batcher's receiver is dropped when
    its loop ends; the worker's own when the worker ends. *)
Definition inbound_poll (rt : RT) : option RT :=
  let e := rt_engine rt in
  match rt_inbound rt with
  | InSelect =>
      if rt_inbound_rx rt then Some (set_inb InJoin rt)
      else match ch_queue (inbound e) with
           | [] => None
           | op :: rest => Some (set_inb (InSend op) (set_eng (inbound_take op rest e) rt))
           end
  | InSend op =>
      match batcher_status e with
      | Finished _ => Some (set_inb InJoin rt)
      | Running =>
          if send_ready (batch_chan e)
          then Some (set_inb InSelect (set_eng
                 (set_batch_chan (mkChan (ch_queue (batch_chan e) ++ [op]) (ch_capacity (batch_chan e))
                                    (ch_closed (batch_chan e))) e) rt))
          else None
      end
  | InJoin =>
      match batcher_status e with
      | Finished _ => Some (set_inb InDone
                        (set_eng (set_inbound (close (inbound e)) (inbound_event_count e) e) rt))
      | Running => None
      end
  | InDone => None
  end.

(** ** The batcher *)

(** The first poll subscribes.  While a flush is awaited the poll is that of the
    timeout around the join handle; otherwise the branches of [select!] in their
    order.  [due]: the timer that matters has fired, which is the flush timeout or
    the ticker.  A closed channel disables the receive branch, which is what an
    empty one does too. *)
Definition batcher_poll (due : bool) (rt : RT) : option RT :=
  let e := rt_engine rt in
  match batcher_status e, rt_batcher_rx rt with
  | Finished _, _ => None
  | Running, None => Some (set_batcher_rx (Some false) rt)
  | Running, Some rx =>
      match mb_flight (batcher e) with
      | Some _ => (λ e', set_eng e' rt) <$> flush_join cfg due e
      | None =>
          if rx : bool then Some (set_eng (batcher_branch cfg BrShutdown e) rt)
          else match ch_queue (batch_chan e) with
               | _ :: _ => Some (set_eng (batcher_branch cfg BrRecv e) rt)
               | [] => if due then Some (set_eng (batcher_branch cfg BrTick e) rt) else None
               end
      end
  end.

Definition flush_poll (c : BkChoice) (rt : RT) : option RT :=
  (λ e', set_eng e' rt) <$> flush_thread c (rt_engine rt).

(** ** The outbound worker *)

Definition outbound_poll (rt : RT) : option RT :=
  let e := rt_engine rt in
  match rt_outbound rt with
  | OutSelect =>
      if rt_outbound_rx rt
      then Some (set_outb OutDone (set_eng (set_outbound (close (outbound e)) e) rt))
      else match ch_queue (outbound e) with
           | [] => None
           | _ :: _ =>
               let '(p, e1) := outbound_apply metrics e in
               Some (set_outb (match p with Some payload => OutCommit payload | None => OutSelect end)
                       (set_eng e1 rt))
           end
  | OutCommit payload => Some (set_outb OutSelect (set_eng (outbound_commit metrics health payload e) rt))
  | OutDone => None
  end.

(** ** The CDC poller *)

(** [due]: the sleep has elapsed. *)
Definition poller_poll (due : bool) (rt : RT) : option RT :=
  let e := rt_engine rt in
  match rt_poller rt with
  | PollSpawned => Some (set_poller PollRun (set_eng (set_poll (current_epoch (grafeo_db e)) None e) rt))
  | PollRun =>
      match poll_sending e, poll_pending e with
      | Some _, _ =>
          if ch_closed (outbound e) then Some (set_poller PollDone rt)
          else if send_ready (outbound e) then Some (set_eng (poll_send e) rt) else None
      | None, None =>
          if rt_poller_rx rt then Some (set_poller PollDone rt)
          else if due then Some (set_eng (poll_begin e) rt) else None
      | None, Some (_, []) => Some (set_eng (poll_end e) rt)
      | None, Some (_, _ :: _) => Some (set_eng (poll_event metrics e) rt)
      end
  | PollDone => None
  end.

Definition task_poll (t : Task) (c : BkChoice) (due : bool) (rt : RT) : option RT :=
  match t with
  | TInbound => inbound_poll rt
  | TBatcher => batcher_poll due rt
  | TFlush => flush_poll c rt
  | TOutbound => outbound_poll rt
  | TPoller => poller_poll due rt
  end.

(** ** [shutdown] *)

(** [SyncEngine::shutdown]: the broadcast. *)
Definition rt_shutdown (rt : RT) : RT :=
  mkRuntime (rt_engine rt) (rt_inbound rt) (rt_outbound rt) (rt_poller rt) true true true
    (match rt_batcher_rx rt with Some _ => Some true | None => None end).

(** [GrafeoLoroApp::shutdown] returns once every worker handle is joined. *)
Definition joined (rt : RT) : bool :=
  match rt_inbound rt, rt_outbound rt, rt_poller rt with
  | InDone, OutDone, PollDone => true
  | _, _, _ => false
  end.

(** ** Runs *)

(** What happens beside the tasks: commits of the document, commits of others
    to grafeo, the threads of flushes that outlived their timeout, and operations
    sent through [inbound_sender]. *)
Inductive env_step : E → E → Prop :=
| env_local origin edit e : env_step e (local_commit metrics origin edit e)
| env_db d e : env_step e (set_db d e)
| env_orphan i c e e1 : orphan_thread i c e = Some e1 → env_step e e1
| env_send op c e : try_send (inbound e) op = Ok c → env_step e (set_inbound c (inbound_event_count e) e).

(** [rt_run n]: any interleaving with [n] polls that made progress. *)
Inductive rt_run : nat → RT → RT → Prop :=
| run_refl rt : rt_run 0 rt rt
| run_task n t c due rt rt1 rt' :
    task_poll t c due rt = Some rt1 → rt_run n rt1 rt' → rt_run (Datatypes.S n) rt rt'
| run_env n rt e1 rt' :
    env_step (rt_engine rt) e1 → rt_run n (set_eng e1 rt) rt' → rt_run n rt rt'.

(** *** What the steps leave alone *)

Definition frame (e : E) :=
  (batcher_status e, mb_buffer (batcher e), mb_flight (batcher e), batch_chan e, outbound e, poll_pending e,
   poll_sending e, last_epoch e, bridge_epochs e).

(** No message that waits in a channel has been taken out. *)
Definition kept (e e' : E) : Prop :=
  ch_queue (inbound e) `prefix_of` ch_queue (inbound e') ∧
  ch_queue (batch_chan e) `prefix_of` ch_queue (batch_chan e') ∧
  ch_queue (outbound e) `prefix_of` ch_queue (outbound e').

#[local] Instance kept_preorder : PreOrder kept.
Proof.
  split; [by intros e|]. intros e1 e2 e3 (?&?&?) (?&?&?).
  split; [|split]; by etrans.
Qed.

Lemma kept_frame (e e' : E) :
  frame e' = frame e → ch_queue (inbound e) `prefix_of` ch_queue (inbound e') → kept e e'.
Proof. unfold kept. intros [= _ _ _ -> -> _ _ _ _] ?. done. Qed.

Lemma subscriber_frame ev (e : E) :
  frame (subscriber_handler metrics ev e) = frame e ∧
  ch_queue (inbound e) `prefix_of` ch_queue (inbound (subscriber_handler metrics ev e)).
Proof.
  unfold subscriber_handler. destruct (is_echo_origin _); [done|].
  generalize (translate_diff_event ev). intros ops. revert e.
  induction ops as [|op ops IH]; intros e; cbn; [done|].
  unfold try_send. destruct (ch_closed (inbound e)); [done|].
  case_bool_decide; [|done].
  destruct (IH (set_inbound (mkChan (ch_queue (inbound e) ++ [op]) (ch_capacity (inbound e)) false)
                  (u64_add (inbound_event_count e) 1) e)) as [-> Hp].
  split; [done|]. etrans; [|exact Hp]. by eexists.
Qed.

Lemma commit_doc_frame (e : E) :
  frame (commit_doc metrics e) = frame e ∧
  ch_queue (inbound e) `prefix_of` ch_queue (inbound (commit_doc metrics e)).
Proof.
  unfold commit_doc. destruct (loro_commit _) as [evs doc].
  change (frame e) with (frame (set_doc doc e)). change (inbound e) with (inbound (set_doc doc e)).
  generalize (set_doc doc e). clear e. induction evs as [|ev evs IH]; intros e; [done|]. cbn.
  destruct (IH (subscriber_handler metrics ev e)) as [-> Hp].
  destruct (subscriber_frame ev e) as [-> Hp']. split; [done|]. by etrans.
Qed.

Lemma outbound_commit_frame p (e : E) :
  frame (outbound_commit metrics health p e) = frame e ∧
  ch_queue (inbound e) `prefix_of` ch_queue (inbound (outbound_commit metrics health p e)).
Proof. apply (commit_doc_frame (set_doc (loro_set_next_commit_origin _ (loro_doc e)) e)). Qed.

(** A step beside the tasks touches neither a task's state nor what waits for it. *)
Lemma env_step_frame (e e' : E) :
  env_step e e' →
  batcher_status e' = batcher_status e ∧ mb_buffer (batcher e') = mb_buffer (batcher e) ∧
  mb_flight (batcher e') = mb_flight (batcher e) ∧
  batch_chan e' = batch_chan e ∧ outbound e' = outbound e ∧ poll_pending e' = poll_pending e ∧
  poll_sending e' = poll_sending e ∧
  last_epoch e' = last_epoch e ∧ ch_queue (inbound e) `prefix_of` ch_queue (inbound e').
Proof.
  destruct 1 as [origin edit e|d e|i c e e1 Ho|op c e Hc].
  - unfold local_commit.
    destruct (commit_doc_frame (set_doc (loro_set_next_commit_origin origin (edit (loro_doc e))) e))
      as [[= -> -> -> -> -> -> -> -> _] ?]. done.
  - done.
  - unfold orphan_thread, background_step in Ho. destruct (_ !! i); [|done].
    by destruct (blocking_step _ _ _) as [[]|]; simplify_eq/=.
  - unfold try_send in Hc. destruct (ch_closed _); [done|]. case_bool_decide; simplify_eq.
    do 8 (split; [done|]). by eexists.
Qed.

Lemma rt_run_inv (I : RT → Prop) n rt rt' :
  (∀ t c due rt rt1, task_poll t c due rt = Some rt1 → I rt → I rt1) →
  (∀ rt e1, env_step (rt_engine rt) e1 → I rt → I (set_eng e1 rt)) →
  rt_run n rt rt' → I rt → I rt'.
Proof. intros Ht He. induction 1; eauto. Qed.

(** What the batcher's steps leave alone. *)
Definition outer (e : E) := (inbound e, outbound e, poll_pending e, poll_sending e, last_epoch e, loro_doc e).

(** A flush is awaited with the buffer drained; a loop that was left holds
    neither a buffer nor a flush. *)
Definition batcher_wf (e : E) : Prop :=
  match batcher_status e with
  | Running => mb_flight (batcher e) = None ∨ mb_buffer (batcher e) = []
  | Finished _ => mb_flight (batcher e) = None ∧ mb_buffer (batcher e) = []
  end.

Lemma batcher_branch_frame br (e : E) :
  let e' := batcher_branch cfg br e in outer e' = outer e ∧ (batcher_wf e → batcher_wf e').
Proof.
  cbn zeta. unfold batcher_branch. destruct (batcher_status e) as [|r0] eqn:Hs; [|done].
  destruct (mb_flight (batcher e)) as [fl|] eqn:Hf; [done|]. destruct (branch_event br e) as [ev|]; [|done].
  assert (Hsel : let '(s, b) := batcher_select cfg ev (batcher e) in
    match s with Running => mb_flight b = None ∨ mb_buffer b = [] | Finished _ => mb_flight b = None ∧ mb_buffer b = [] end).
  { assert (Hsp : ∀ last (b : MutationBatcher D), mb_flight b = None → mb_buffer (flush_spawn last b) = []).
    { intros last b Hn. by destruct (flush_spawn_frame last b Hn) as (_&_&_&?). }
    destruct ev as [|op|]; cbn; [destruct (mb_buffer (batcher e)) eqn:Hb|destruct (_ <? _)%Z|]; auto. }
  destruct (batcher_select _ _ _) as [s b]. split; [by destruct br|]. intros _. unfold batcher_wf.
  by destruct br.
Qed.

Lemma flush_thread_frame c (e e' : E) :
  flush_thread c e = Some e' →
  outer e' = outer e ∧ batch_chan e' = batch_chan e ∧ batcher_status e' = batcher_status e ∧
  mb_buffer (batcher e') = mb_buffer (batcher e) ∧
  ∃ fl bk, mb_flight (batcher e) = Some fl ∧ mb_flight (batcher e') = Some (mkFlight (fl_ops fl) bk (fl_last fl)) ∧
    blocking_step c (fl_task fl) (mb_fs (batcher e)) = Some (bk, mb_fs (batcher e')).
Proof.
  unfold flush_thread, flight_step. destruct (mb_flight (batcher e)) as [fl|]; [|done].
  destruct (blocking_step _ _ _) as [[bk fs]|] eqn:Hs; [|done]. intros [= <-]. cbn. eauto 10.
Qed.

(** The loop goes on or is left, with its error if the flush failed. *)
Lemma flush_join_frame el (e e' : E) :
  flush_join cfg el e = Some e' →
  outer e' = outer e ∧ batch_chan e' = batch_chan e ∧ mb_buffer (batcher e') = mb_buffer (batcher e) ∧
  mb_flight (batcher e') = None ∧ ∃ fl, mb_flight (batcher e) = Some fl ∧
    match batcher_status e' with Running => fl_last fl = false | Finished _ => True end.
Proof.
  unfold flush_join, batcher_join. destruct (mb_flight (batcher e)) as [[ops bk last]|]; [|done]. cbn.
  destruct bk as [q|ep|[[]|er]|msg]; cbn; [destruct el; [|done]|destruct el; [|done]|..]; intros [= <-]; cbn;
    (do 4 (split; [done|])); eexists; (split; [done|]); by destruct last.
Qed.

(** The shutdown branch leaves the loop or starts its last flush. *)
Lemma batcher_branch_shutdown (e : E) :
  batcher_status e = Running → mb_flight (batcher e) = None →
  let e' := batcher_branch cfg BrShutdown e in
  batch_chan e' = batch_chan e ∧ mb_buffer (batcher e') = [] ∧
  match mb_buffer (batcher e) with
  | [] => batcher_status e' = Finished (Ok tt) ∧ mb_flight (batcher e') = None
  | drained => batcher_status e' = Running ∧
      mb_flight (batcher e') = Some (mkFlight drained (BkQueued drained) true)
  end.
Proof.
  intros Hs Hf. unfold batcher_branch. rewrite Hs, Hf. cbn. unfold flush_spawn.
  by destruct (mb_buffer (batcher e)) as [|op ops] eqn:Hb; cbn; rewrite ?Hb, ?Hf.
Qed.

Lemma outbound_apply_frame (e : E) :
  let e' := (outbound_apply metrics e).2 in
  batcher_status e' = batcher_status e ∧ mb_buffer (batcher e') = mb_buffer (batcher e) ∧
  mb_flight (batcher e') = mb_flight (batcher e) ∧
  batch_chan e' = batch_chan e ∧ inbound e' = inbound e ∧ poll_pending e' = poll_pending e ∧
  poll_sending e' = poll_sending e ∧
  last_epoch e' = last_epoch e ∧ ch_closed (outbound e') = ch_closed (outbound e) ∧
  ch_queue (outbound e') = tail (ch_queue (outbound e)).
Proof.
  unfold outbound_apply. destruct (ch_queue (outbound e)) as [|[ep pl] rest] eqn:Hq; [done|].
  case_bool_decide; [done|]. destruct (apply_change_event_to_loro _ _) as [[]?]; done.
Qed.

(** *** Well-formed states *)

Record rt_wf (rt : RT) : Prop := {
  wf_joined : rt_inbound rt = InDone → ∃ r, batcher_status (rt_engine rt) = Finished r;
  wf_batcher : batcher_wf (rt_engine rt);
  wf_last : rt_batcher_rx rt ≠ Some true →
    ∀ fl, mb_flight (batcher (rt_engine rt)) = Some fl → fl_last fl = false;
  wf_closed : rt_outbound rt = OutDone → ch_closed (outbound (rt_engine rt)) = true
}.

(** A step that leaves the batcher, and the channel the outbound worker closes. *)
Lemma rt_wf_keep (rt rt1 : RT) :
  batcher_status (rt_engine rt1) = batcher_status (rt_engine rt) →
  mb_buffer (batcher (rt_engine rt1)) = mb_buffer (batcher (rt_engine rt)) →
  mb_flight (batcher (rt_engine rt1)) = mb_flight (batcher (rt_engine rt)) →
  rt_batcher_rx rt1 = rt_batcher_rx rt →
  (rt_inbound rt1 = InDone → rt_inbound rt = InDone ∨ ∃ r, batcher_status (rt_engine rt) = Finished r) →
  (rt_outbound rt1 = OutDone → ch_closed (outbound (rt_engine rt1)) = true) →
  rt_wf rt → rt_wf rt1.
Proof.
  intros Hs Hb Hf Hx Hi Ho [Hj Hw Hl Hc]. split; [|unfold batcher_wf in *; by rewrite Hs, Hb, Hf|by rewrite Hf, Hx|done].
  rewrite Hs. intros Hd. destruct (Hi Hd); auto.
Qed.

Lemma batcher_poll_wf due (rt rt1 : RT) : batcher_poll due rt = Some rt1 → rt_wf rt → rt_wf rt1.
Proof.
  intros Ht [Hj Hw Hl Hc]. destruct rt as [e ti to tp ri ro rp rb]. unfold batcher_poll in Ht. cbn in *.
  destruct (batcher_status e) as [|r] eqn:Hs; [|done].
  assert (Hd : ti ≠ InDone) by (intros ->; by destruct (Hj eq_refl)).
  destruct rb as [rx|]; [|simplify_eq; split; cbn; try done; intros _; by apply Hl].
  destruct (mb_flight (batcher e)) as [fl|] eqn:Hf.
  - destruct (flush_join cfg due e) as [e'|] eqn:He; [|done]. injection Ht as <-.
    destruct (flush_join_frame _ _ _ He) as ([= _ Ho _ _ _]&_&Hb&Hf'&_).
    unfold batcher_wf in Hw. rewrite Hs, Hf in Hw. destruct Hw as [|Hbuf]; [done|].
    split; cbn; [done| |by rewrite Hf'|by rewrite Ho].
    unfold batcher_wf. rewrite Hf', Hb. destruct (batcher_status e'); auto.
  - assert (Hit : ∀ br, (br = BrShutdown → rx = true) →
      rt_wf (set_eng (batcher_branch cfg br e) (mkRuntime e ti to tp ri ro rp (Some rx)))).
    { intros br Hbr. destruct (batcher_branch_frame br e) as ([= _ Ho _ _ _]&Hw').
      split; cbn; [done|by apply Hw'| |by rewrite Ho].
      intros Hx fl. unfold batcher_branch. rewrite Hs, Hf. destruct br, (branch_event _ e) as [ev|] eqn:Hev; cbn; rewrite ?Hf; try done.
      - by destruct Hx; rewrite Hbr.
      - cbn in Hev. destruct (head _); [|done]. simplify_eq/=. destruct (_ <? _)%Z; cbn; rewrite ?Hf; [done|].
        unfold flush_spawn. cbn. destruct (_ ++ _); cbn; rewrite ?Hf; intros; by simplify_eq.
      - cbn in Hev. simplify_eq/=. unfold flush_spawn. destruct (mb_buffer _); cbn; rewrite ?Hf; intros; by simplify_eq. }
    destruct rx; [simplify_eq; by apply Hit|]. destruct (ch_queue _); [destruct due|]; simplify_eq; by apply Hit.
Qed.

Lemma flush_poll_wf c (rt rt1 : RT) : flush_poll c rt = Some rt1 → rt_wf rt → rt_wf rt1.
Proof.
  intros Ht [Hj Hw Hl Hc]. unfold flush_poll in Ht. destruct (flush_thread c (rt_engine rt)) as [e'|] eqn:He; [|done].
  injection Ht as <-. destruct (flush_thread_frame _ _ _ He) as ([= _ Ho _ _ _]&_&Hs&Hb&fl&bk&Hf&Hf'&_).
  split; cbn; rewrite ?Hs, ?Ho; [done| | |done].
  - unfold batcher_wf in *. rewrite Hs, Hb, Hf'. rewrite Hf in Hw. destruct (batcher_status _); naive_solver.
  - rewrite Hf'. intros Hx ? [= <-]. exact (Hl Hx _ Hf).
Qed.

Lemma poll_event_frame (e : E) :
  inbound (poll_event metrics e) = inbound e ∧ outbound (poll_event metrics e) = outbound e ∧
  batcher (poll_event metrics e) = batcher e ∧ batcher_status (poll_event metrics e) = batcher_status e ∧
  batch_chan (poll_event metrics e) = batch_chan e ∧ loro_doc (poll_event metrics e) = loro_doc e.
Proof. unfold poll_event. repeat case_match; done. Qed.

Lemma poll_send_frame (e : E) :
  inbound (poll_send e) = inbound e ∧ ch_closed (outbound (poll_send e)) = ch_closed (outbound e) ∧
  batcher (poll_send e) = batcher e ∧ batcher_status (poll_send e) = batcher_status e ∧
  batch_chan (poll_send e) = batch_chan e ∧ loro_doc (poll_send e) = loro_doc e.
Proof. unfold poll_send. repeat case_match; done. Qed.

Lemma poll_end_frame (e : E) :
  inbound (poll_end e) = inbound e ∧ outbound (poll_end e) = outbound e ∧
  mb_buffer (batcher (poll_end e)) = mb_buffer (batcher e) ∧ mb_flight (batcher (poll_end e)) = mb_flight (batcher e) ∧
  batcher_status (poll_end e) = batcher_status e ∧ batch_chan (poll_end e) = batch_chan e ∧
  loro_doc (poll_end e) = loro_doc e.
Proof. unfold poll_end. repeat case_match; done. Qed.

Lemma poll_begin_frame (e : E) :
  inbound (poll_begin e) = inbound e ∧ outbound (poll_begin e) = outbound e ∧
  batcher (poll_begin e) = batcher e ∧ batcher_status (poll_begin e) = batcher_status e ∧
  batch_chan (poll_begin e) = batch_chan e ∧ loro_doc (poll_begin e) = loro_doc e.
Proof. unfold poll_begin. repeat case_match; done. Qed.

(** The poller leaves the other tasks alone, and the channel open or closed. *)
Lemma poller_poll_frame due (rt rt1 : RT) :
  poller_poll due rt = Some rt1 →
  rt_inbound rt1 = rt_inbound rt ∧ rt_outbound rt1 = rt_outbound rt ∧ rt_batcher_rx rt1 = rt_batcher_rx rt ∧
  rt_inbound_rx rt1 = rt_inbound_rx rt ∧ rt_outbound_rx rt1 = rt_outbound_rx rt ∧ rt_poller_rx rt1 = rt_poller_rx rt ∧
  batcher_status (rt_engine rt1) = batcher_status (rt_engine rt) ∧
  mb_buffer (batcher (rt_engine rt1)) = mb_buffer (batcher (rt_engine rt)) ∧
  mb_flight (batcher (rt_engine rt1)) = mb_flight (batcher (rt_engine rt)) ∧
  batch_chan (rt_engine rt1) = batch_chan (rt_engine rt) ∧ inbound (rt_engine rt1) = inbound (rt_engine rt) ∧
  loro_doc (rt_engine rt1) = loro_doc (rt_engine rt) ∧
  ch_closed (outbound (rt_engine rt1)) = ch_closed (outbound (rt_engine rt)).
Proof.
  destruct rt as [e ti to tp ri ro rp rb]. unfold poller_poll. cbn.
  destruct (poll_event_frame e) as (?&Ho1&Hb1&?&?&?), (poll_send_frame e) as (?&?&Hb2&?&?&?),
    (poll_end_frame e) as (?&Ho3&?&?&?&?&?), (poll_begin_frame e) as (?&Ho4&Hb4&?&?&?).
  intros Hp. repeat case_match; simplify_eq; cbn; rewrite ?Hb1, ?Hb2, ?Hb4, ?Ho1, ?Ho3, ?Ho4; auto 20.
Qed.

Lemma task_poll_wf t c due rt rt1 : task_poll t c due rt = Some rt1 → rt_wf rt → rt_wf rt1.
Proof.
  intros Ht Hw. destruct t; cbn in Ht; [|by eapply batcher_poll_wf|by eapply flush_poll_wf|..].
  - destruct rt as [e ti to tp ri ro rp rb]. unfold inbound_poll in Ht. cbn in Ht.
    pose proof (wf_closed _ Hw) as Hc. cbn in Hc.
    repeat case_match; simplify_eq; (eapply rt_wf_keep; [..|exact Hw]); cbn; try done; eauto;
      unfold inbound_take; by destruct metrics.
  - destruct rt as [e ti to tp ri ro rp rb]. unfold outbound_poll in Ht. cbn in Ht.
    destruct to as [|pl|]; [destruct ro| |done].
    + simplify_eq. eapply rt_wf_keep; [..|exact Hw]; cbn; auto.
    + destruct (ch_queue (outbound e)) eqn:Hq; [done|].
      pose proof (outbound_apply_frame e) as Hf. destruct (outbound_apply metrics e) as [q e1]. cbn in *.
      destruct Hf as (Hs&Hbuf&Hfl&_). destruct q; simplify_eq; (eapply rt_wf_keep; [..|exact Hw]); cbn; auto; done.
    + simplify_eq. destruct (outbound_commit_frame pl e) as [[= Hs Hbuf Hfl _ _ _ _ _ _] _].
      eapply rt_wf_keep; [..|exact Hw]; cbn; auto; done.
  - pose proof (wf_closed _ Hw) as Hc.
    destruct (poller_poll_frame _ _ _ Ht) as (Hi&Ho&Hx&_&_&_&Hs&Hb&Hf&_&_&_&Hcl).
    apply (rt_wf_keep rt); rewrite ?Hi, ?Ho, ?Hcl; auto.
Qed.

Lemma env_step_wf rt e1 : env_step (rt_engine rt) e1 → rt_wf rt → rt_wf (set_eng e1 rt).
Proof.
  intros (Hs&Hb&Hf&_&Ho&_)%env_step_frame Hw. pose proof (wf_closed _ Hw).
  apply (rt_wf_keep rt); cbn; rewrite ?Ho; auto.
Qed.

Lemma rt_run_wf n rt rt' : rt_run n rt rt' → rt_wf rt → rt_wf rt'.
Proof. apply rt_run_inv; eauto using task_poll_wf, env_step_wf. Qed.

(** *** After the broadcast *)

Definition inbound_fuel (t : InboundTask) : nat :=
  match t with InSend _ => 3 | InSelect => 2 | InJoin => 1 | InDone => 0 end.
Definition outbound_fuel (t : OutboundTask) : nat :=
  match t with OutCommit _ => 2 | OutSelect => 1 | OutDone => 0 end.
Definition batcher_fuel (s : RunStatus) (flight : option Flight) : nat :=
  match s, flight with
  | Finished _, _ => 0
  | Running, None => 4
  | Running, Some fl => 1 + thread_fuel (fl_task fl) + if fl_last fl then 0 else 4
  end.
Definition poller_fuel (t : PollerTask) (sending : option ChangeEvent)
    (pending : option (EpochId * list ChangeEvent)) : nat :=
  match t with
  | PollSpawned => 3
  | PollRun => match sending with Some _ => 1 | None => 0 end +
               match pending with Some (_, evs) => 2 + 2 * length evs | None => 1 end
  | PollDone => 0
  end.

(** The number of polls the tasks, and steps the flush threads, still need once
    the broadcast is out. *)
Definition quit_fuel (rt : RT) : nat :=
  let e := rt_engine rt in
  inbound_fuel (rt_inbound rt) + batcher_fuel (batcher_status e) (mb_flight (batcher e)) +
  outbound_fuel (rt_outbound rt) + poller_fuel (rt_poller rt) (poll_sending e) (poll_pending e).

(** Every task that still runs has the broadcast in its receiver. *)
Record quitting (rt : RT) : Prop := {
  qu_wf : rt_wf rt;
  qu_rx : rt_inbound_rx rt = true ∧ rt_outbound_rx rt = true ∧ rt_poller_rx rt = true;
  qu_batcher : batcher_status (rt_engine rt) = Running → rt_batcher_rx rt = Some true
}.

(** The operations of the last flush: those it was given, or will find. *)
Definition last_batch (e : E) : list LoroOp :=
  match mb_flight (batcher e) with
  | Some fl => if fl_last fl then fl_ops fl else mb_buffer (batcher e)
  | None => mb_buffer (batcher e)
  end.

(** What a step after the broadcast may do. *)
Definition quit_step (rt rt1 : RT) : Prop :=
  quitting rt1 ∧ quit_fuel rt1 < quit_fuel rt ∧ kept (rt_engine rt) (rt_engine rt1) ∧
  (batcher_status (rt_engine rt1) = Running →
     batcher_status (rt_engine rt) = Running ∧ last_batch (rt_engine rt1) = last_batch (rt_engine rt)).

Lemma quit_inbound rt rt1 : inbound_poll rt = Some rt1 → quitting rt → quit_step rt rt1.
Proof.
  intros Hp Hq. pose proof (task_poll_wf TInbound BkGo false rt rt1 Hp (qu_wf _ Hq)) as Hwf.
  destruct Hq as [_ (Hri&Hro&Hrp) Hb]. unfold inbound_poll in Hp. rewrite Hri in Hp.
  destruct rt as [e ti to tp ri ro rp rb]. cbn in *. unfold quit_step, quit_fuel.
  destruct ti as [|op| |]; [| |destruct (batcher_status e) eqn:Hs; [done|]|done]; simplify_eq; cbn.
  - split; [by split|]. split; [lia|]. by split.
  - destruct (batcher_status e) eqn:Hs; [destruct (send_ready _); [|done]|]; simplify_eq; cbn in *;
      rewrite ?Hs; (split; [by split; cbn; rewrite ?Hs|]); (split; [cbn; lia|]); (split; [|done]).
    + split; [done|]. split; [by eexists|done].
    + done.
  - rewrite Hs. split; [by split; cbn; rewrite ?Hs|]. split; [cbn; lia|]. by split.
Qed.

Lemma quit_batcher due rt rt1 : batcher_poll due rt = Some rt1 → quitting rt → quit_step rt rt1.
Proof.
  intros Hp Hq. pose proof (task_poll_wf TBatcher BkGo due rt rt1 Hp (qu_wf _ Hq)) as Hwf.
  destruct Hq as [[_ Hw _ _] Hrx Hb]. unfold batcher_poll in Hp.
  destruct rt as [e ti to tp ri ro rp rb]. cbn in *.
  destruct (batcher_status e) eqn:Hs; [|done]. specialize (Hb eq_refl). subst rb.
  unfold quit_step, quit_fuel, kept, last_batch. cbn. rewrite Hs.
  destruct (mb_flight (batcher e)) as [fl|] eqn:Hf.
  - destruct (flush_join cfg due e) as [e'|] eqn:He; [|done]. injection Hp as <-.
    destruct (flush_join_frame _ _ _ He) as ([= Hi Ho Hpp Hps _]&Hc&Hbuf&Hf'&fl'&Hfl&Hr).
    rewrite Hf in Hfl. injection Hfl as <-. cbn. rewrite Hf', Hi, Hc, Ho, Hpp, Hps, Hbuf.
    split; [by split; cbn|]. split; [|split; [done|]].
    + destruct (batcher_status e'); cbn; [rewrite Hr|]; lia.
    + intros Hs'. rewrite Hs' in Hr. by rewrite Hr.
  - simplify_eq. destruct (batcher_branch_shutdown e Hs Hf) as (Hc&Hbuf&Hr).
    destruct (batcher_branch_frame BrShutdown e) as ([= Hi Ho Hpp Hps _]&_).
    cbn. rewrite Hpp, Hps, Hi, Hc, Ho.
    split; [by split; cbn|].
    destruct (mb_buffer (batcher e)) as [|op ops]; destruct Hr as [Hs' Hf']; rewrite Hs', Hf'; cbn; (split; [lia|]); by split.
Qed.

Lemma quit_flush c rt rt1 : flush_poll c rt = Some rt1 → quitting rt → quit_step rt rt1.
Proof.
  intros Hp Hq. pose proof (task_poll_wf TFlush c false rt rt1 Hp (qu_wf _ Hq)) as Hwf.
  destruct Hq as [[_ Hw _ _] Hrx Hb]. unfold flush_poll in Hp.
  destruct (flush_thread c (rt_engine rt)) as [e'|] eqn:He; [|done]. injection Hp as <-.
  destruct (flush_thread_frame _ _ _ He) as ([= Hi Ho Hpp Hps _]&Hc&Hs&Hbuf&fl&bk&Hf&Hf'&Hbk).
  assert (Hrun : batcher_status (rt_engine rt) = Running).
  { unfold batcher_wf in Hw. destruct (batcher_status (rt_engine rt)); [done|]. by rewrite Hf in Hw; destruct Hw. }
  unfold quit_step, quit_fuel, kept, last_batch. cbn. rewrite Hs, Hf, Hf', Hi, Hc, Ho, Hpp, Hps, Hbuf, Hrun. cbn.
  split; [split; cbn; [done..|by rewrite Hs]|]. split; [|done].
  apply blocking_step_fuel in Hbk. lia.
Qed.

Lemma quit_outbound rt rt1 : outbound_poll rt = Some rt1 → quitting rt → quit_step rt rt1.
Proof.
  intros Hp Hq. pose proof (task_poll_wf TOutbound BkGo false rt rt1 Hp (qu_wf _ Hq)) as Hwf.
  destruct Hq as [_ (Hri&Hro&Hrp) Hb]. unfold outbound_poll in Hp. rewrite Hro in Hp.
  destruct rt as [e ti to tp ri ro rp rb]. cbn in *. unfold quit_step, quit_fuel, last_batch.
  destruct to as [|pl|]; [| |done]; simplify_eq; cbn.
  - split; [by split|]. split; [lia|]. by split.
  - destruct (outbound_commit_frame pl e) as [Hf Hpre]. pose proof (kept_frame _ _ Hf Hpre) as Hk.
    injection Hf as Hs Hbuf Hfl _ _ Hpp Hps _ _.
    rewrite Hs, Hbuf, Hfl, Hpp, Hps. split; [by split; cbn; rewrite ?Hs|]. split; [cbn; lia|]. by split.
Qed.

Lemma quit_poller due rt rt1 : poller_poll due rt = Some rt1 → quitting rt → quit_step rt rt1.
Proof.
  intros Hp Hq. pose proof (task_poll_wf TPoller BkGo due rt rt1 Hp (qu_wf _ Hq)) as Hwf.
  destruct Hq as [_ (Hri&Hro&Hrp) Hb].
  destruct (poller_poll_frame _ _ _ Hp) as (Hi&Hto&Hx&Hxi&Hxo&Hxp&Hs&Hbuf&Hf&Hc&Hin&_&_).
  assert (Hpf : poller_fuel (rt_poller rt1) (poll_sending (rt_engine rt1)) (poll_pending (rt_engine rt1)) <
    poller_fuel (rt_poller rt) (poll_sending (rt_engine rt)) (poll_pending (rt_engine rt)) ∧
    ch_queue (outbound (rt_engine rt)) `prefix_of` ch_queue (outbound (rt_engine rt1))).
  { clear - Hp Hrp. destruct rt as [e ti to tp ri ro rp rb]. unfold poller_poll in Hp. cbn in *. subst rp.
    destruct tp; [simplify_eq; cbn; destruct (poll_sending e); split; [lia|done|lia|done]| |done].
    destruct (poll_sending e) as [x|] eqn:Hsn; [destruct (ch_closed _); [|destruct (send_ready _) eqn:Hr; [|done]]|].
    - simplify_eq. cbn. split; [lia|done].
    - simplify_eq. unfold poll_send. rewrite Hsn, Hr. cbn. split; [lia|by eexists].
    - destruct (poll_pending e) as [[cur [|ev evs]]|] eqn:Hpp; simplify_eq; cbn.
      + unfold poll_end. rewrite Hsn, Hpp. cbn. rewrite Hsn. split; [lia|done].
      + unfold poll_event. rewrite Hsn, Hpp. case_bool_decide; cbn; rewrite ?Hsn; (split; [lia|done]).
      + split; [lia|done]. }
  destruct Hpf as [Hpf Hpre]. unfold quit_step, quit_fuel, kept, last_batch.
  rewrite Hi, Hto, Hs, Hbuf, Hf, Hc, Hin. split; [|split; [lia|by split]].
  split; rewrite ?Hxi, ?Hxo, ?Hxp, ?Hx, ?Hs; auto.
Qed.

Lemma quit_task t c due rt rt1 : task_poll t c due rt = Some rt1 → quitting rt → quit_step rt rt1.
Proof.
  destruct t; [apply quit_inbound|apply quit_batcher|apply quit_flush|apply quit_outbound|apply quit_poller].
Qed.

Lemma quit_env rt e1 :
  env_step (rt_engine rt) e1 → quitting rt →
  quitting (set_eng e1 rt) ∧ quit_fuel (set_eng e1 rt) = quit_fuel rt ∧ kept (rt_engine rt) e1 ∧
  batcher_status e1 = batcher_status (rt_engine rt) ∧ last_batch e1 = last_batch (rt_engine rt).
Proof.
  intros He [Hwf Hrx Hb]. pose proof (env_step_wf _ _ He Hwf) as Hwf'.
  destruct (env_step_frame _ _ He) as (Hs&Hbuf&Hf&Hbc&Ho&Hpp&Hps&_&Hi).
  unfold quit_fuel, kept, last_batch. cbn. rewrite Hs, Hbuf, Hf, Hpp, Hps, Hbc, Ho.
  split; [|done]. split; cbn; [done..|by rewrite Hs].
Qed.

Lemma quit_run n rt rt' :
  rt_run n rt rt' → quitting rt →
  quitting rt' ∧ n + quit_fuel rt' ≤ quit_fuel rt ∧ kept (rt_engine rt) (rt_engine rt') ∧
  (batcher_status (rt_engine rt') = Running →
     batcher_status (rt_engine rt) = Running ∧ last_batch (rt_engine rt') = last_batch (rt_engine rt)).
Proof.
  induction 1 as [rt|n t c due rt rt1 rt' Ht Hr IH|n rt e1 rt' He Hr IH]; intros Hq.
  - by split; [|split; [lia|]].
  - destruct (quit_task _ _ _ _ _ Ht Hq) as (Hq1&Hf&Hk&Hb). destruct (IH Hq1) as (?&?&Hk'&Hb').
    split; [done|]. split; [lia|]. split; [by etrans|].
    intros [Hs ->]%Hb'. by apply Hb.
  - destruct (quit_env _ _ He Hq) as (Hq1&Hf&Hk&Hs&Hb). destruct (IH Hq1) as (?&?&Hk'&Hb').
    split; [done|]. split; [lia|]. split; [by etrans|]. cbn in Hb'. rewrite Hs, Hb in Hb'. done.
Qed.

(** A batcher with the broadcast in its receiver can be polled with progress, or
    the thread of the flush it awaits can go on. *)
Lemma quit_batcher_progress rt :
  quitting rt → batcher_status (rt_engine rt) = Running →
  ∃ t, ∀ c due, is_Some (task_poll t c due rt).
Proof.
  intros [_ _ Hb] Hs. destruct rt as [e ti to tp ri ro rp rb]. cbn in *. rewrite (Hb Hs).
  destruct (mb_flight (batcher e)) as [[ops bk last]|] eqn:Hf.
  2:{ exists TBatcher. intros c due. cbn. unfold batcher_poll. cbn. rewrite Hs, Hf. by eexists. }
  assert (Hth : (∃ q, bk = BkQueued q) ∨ (∃ ep, bk = BkCommitted ep) ∨ thread_fuel bk = 0)
    by (destruct bk; eauto).
  destruct Hth as [[q ->]|[[ep ->]|Hz]].
  - exists TFlush. intros c due. cbn. unfold flush_poll, flush_thread, flight_step. cbn. rewrite Hf. cbn.
    destruct c; [destruct (flush_transaction _ _)|]; by eexists.
  - exists TFlush. intros c due. cbn. unfold flush_poll, flush_thread, flight_step. cbn. rewrite Hf. by eexists.
  - exists TBatcher. intros c due. cbn. unfold batcher_poll. cbn. rewrite Hs, Hf.
    unfold flush_join, batcher_join. rewrite Hf. cbn. destruct bk as [| |[]|]; try done; by eexists.
Qed.

(** A task that is not done can be polled with progress, or one it waits for can. *)
Lemma quit_progress rt :
  quitting rt → joined rt = false → ∃ t, ∀ c due, is_Some (task_poll t c due rt).
Proof.
  intros Hq Hd. destruct (batcher_status (rt_engine rt)) eqn:Hs; [by apply quit_batcher_progress|].
  destruct Hq as [[Hj _ _ Hc] (Hri&Hro&Hrp) Hb]. destruct rt as [e ti to tp ri ro rp rb]. cbn in *. subst.
  destruct ti; [exists TInbound; intros; cbn; unfold inbound_poll; cbn; rewrite ?Hs; by eexists..|].
  destruct to; [exists TOutbound; intros; cbn; by eexists..|].
  destruct tp; [exists TPoller; intros; cbn; by eexists| |done].
  exists TPoller. intros c due. cbn. unfold poller_poll. cbn. rewrite (Hc eq_refl).
  destruct (poll_sending e); [by eexists|]. destruct (poll_pending e) as [[cur [|ev evs]]|]; by eexists.
Qed.

(** No task sends the broadcast to the batcher. *)
Lemma task_poll_rx t c due rt rt1 :
  task_poll t c due rt = Some rt1 → rt_batcher_rx rt ≠ Some true → rt_batcher_rx rt1 ≠ Some true.
Proof.
  intros Ht Hx. destruct t; cbn in Ht.
  - destruct rt. unfold inbound_poll in Ht. by repeat case_match; simplify_eq.
  - unfold batcher_poll in Ht. destruct (batcher_status _); [|done].
    destruct (rt_batcher_rx rt) as [rx|] eqn:Hrx; [|by simplify_eq].
    destruct (mb_flight _); [destruct (flush_join _ _ _); [|done]|repeat case_match; try done];
      simplify_eq/=; by rewrite Hrx.
  - unfold flush_poll in Ht. destruct (flush_thread _ _); by simplify_eq/=.
  - destruct rt. unfold outbound_poll in Ht. cbn in Ht. repeat case_match; by simplify_eq.
  - destruct (poller_poll_frame _ _ _ Ht) as (_&_&->&_). done.
Qed.

(** ** Shutdown terminates, or hangs *)

(** C10: a shutdown after the batcher's first poll terminates.  Whatever the
    tasks have done since they were spawned and however they, the threads of the
    flushes and the rest of the program interleave afterwards, the tasks make at
    most [quit_fuel] more polls (the steps of the flush thread included), each of
    which no other step can revoke, and until every handle is joined one of them
    can make progress, so [shutdown] returns.  What it drains is the batcher's
    buffer alone, which stays as it was until the shutdown branch hands exactly
    these operations to the last flush, and is empty at the end, when no flush is
    awaited any more: the messages waiting in the three channels are still there
    when every task is gone. *)
Theorem shutdown_terminates (db : D) (doc : L) (m n : nat) (rt rt' : RT)
  (Hrun : rt_run m (spawn_all (SyncEngine_new db doc)) rt)
  (Hsub : batcher_status (rt_engine rt) = Running → rt_batcher_rx rt ≠ None)
  (Hquit : rt_run n (rt_shutdown rt) rt') :
  n ≤ quit_fuel rt ∧
  (joined rt' = true ∨ ∃ t, ∀ c due, is_Some (task_poll t c due rt')) ∧
  kept (rt_engine rt) (rt_engine rt') ∧
  match batcher_status (rt_engine rt') with
  | Running => joined rt' = false ∧
      (mb_buffer (batcher (rt_engine rt')) = mb_buffer (batcher (rt_engine rt)) ∨
       mb_buffer (batcher (rt_engine rt')) = [] ∧ ∃ fl, mb_flight (batcher (rt_engine rt')) = Some fl ∧
         fl_last fl = true ∧ fl_ops fl = mb_buffer (batcher (rt_engine rt)))
  | Finished _ => mb_buffer (batcher (rt_engine rt')) = [] ∧ mb_flight (batcher (rt_engine rt')) = None
  end.
Proof.
  assert (Hwf : rt_wf rt) by (eapply rt_run_wf; [exact Hrun|split; cbn; [done|by left|done|done]]).
  assert (Hx : rt_batcher_rx rt ≠ Some true).
  { refine (rt_run_inv (λ rt, rt_batcher_rx rt ≠ Some true) _ _ _ _ _ Hrun _); [|done..].
    intros t c due r r1 Ht Hr. by eapply task_poll_rx. }
  assert (Hq : quitting (rt_shutdown rt)).
  { split; [|done|].
    - destruct Hwf as [Hj Hb Hl Hc]. split; cbn; try done. intros _. by apply Hl.
    - intros Hs. cbn in *. by destruct (rt_batcher_rx rt); [|destruct (Hsub Hs)]. }
  destruct (quit_run _ _ _ Hquit Hq) as (Hq'&Hn&Hk&Hb).
  split; [unfold quit_fuel in *; cbn in *; lia|].
  split; [destruct (joined rt') eqn:Hd; [by left|right; by apply quit_progress]|]. split; [done|].
  destruct (qu_wf _ Hq') as [Hj Hbw _ _]. unfold batcher_wf in Hbw.
  destruct (batcher_status (rt_engine rt')) eqn:Hs; [|by destruct Hbw].
  destruct (Hb eq_refl) as [_ Hlb].
  split; [unfold joined; destruct (rt_inbound rt'); [done..|]; by destruct (Hj eq_refl)|].
  unfold last_batch in Hlb. cbn in Hlb.
  assert (Hr : (match mb_flight (batcher (rt_engine rt)) with
    | Some fl => if fl_last fl then fl_ops fl else mb_buffer (batcher (rt_engine rt))
    | None => mb_buffer (batcher (rt_engine rt)) end) = mb_buffer (batcher (rt_engine rt))).
  { destruct (mb_flight (batcher (rt_engine rt))) as [fl|] eqn:Hf; [|done]. by rewrite (wf_last _ Hwf Hx _ Hf). }
  rewrite Hr in Hlb. destruct (mb_flight (batcher (rt_engine rt'))) as [fl|]; [|by left].
  destruct (fl_last fl) eqn:Hfl; [|by left]. destruct Hbw as [|Hbuf]; [done|]. right. by eauto.
Qed.

(** The states of a shutdown that came before the batcher subscribed: nothing
    has reached the batcher, and nothing will. *)
Record orphaned (rt : RT) : Prop := {
  or_inbound : rt_inbound rt = InSelect ∧ rt_inbound_rx rt = true ∨ rt_inbound rt = InJoin;
  or_running : batcher_status (rt_engine rt) = Running;
  or_empty : mb_buffer (batcher (rt_engine rt)) = [] ∧ ch_queue (batch_chan (rt_engine rt)) = [];
  or_flight : mb_flight (batcher (rt_engine rt)) = None;
  or_rx : rt_batcher_rx rt = None ∨ rt_batcher_rx rt = Some false
}.

(** A task other than the batcher leaves its loop and buffer alone, and but for
    the inbound worker its channel too. *)
Lemma other_task_frame t c due rt rt1 :
  task_poll t c due rt = Some rt1 → t ≠ TBatcher → mb_flight (batcher (rt_engine rt)) = None →
  rt_batcher_rx rt1 = rt_batcher_rx rt ∧
  batcher_status (rt_engine rt1) = batcher_status (rt_engine rt) ∧
  mb_buffer (batcher (rt_engine rt1)) = mb_buffer (batcher (rt_engine rt)) ∧
  mb_flight (batcher (rt_engine rt1)) = None ∧
  (t ≠ TInbound → batch_chan (rt_engine rt1) = batch_chan (rt_engine rt) ∧
     rt_inbound rt1 = rt_inbound rt ∧ rt_inbound_rx rt1 = rt_inbound_rx rt).
Proof.
  intros Ht Hnb Hf. destruct t; cbn in *; [|done|..].
  - destruct rt as [e ti to tp ri ro rp rb]. unfold inbound_poll in Ht. cbn in *.
    repeat case_match; simplify_eq; try done.
    all: unfold inbound_take; destruct metrics; by cbn.
  - unfold flush_poll, flush_thread, flight_step in Ht. by rewrite Hf in Ht.
  - destruct rt as [e ti to tp ri ro rp rb]. unfold outbound_poll in Ht. cbn in *.
    destruct to as [|pl|]; [destruct ro| |done].
    + by simplify_eq.
    + destruct (ch_queue (outbound e)); [done|]. pose proof (outbound_apply_frame e) as Ha.
      destruct (outbound_apply metrics e) as [q e1]. cbn in Ha. destruct Ha as (Hs'&Hb'&Hf'&Hc'&_).
      simplify_eq/=. by rewrite Hf'.
    + simplify_eq/=. destruct (outbound_commit_frame pl e) as [[= Hs' Hb' Hf' Hc' _ _ _ _ _] _]. by rewrite Hf'.
  - destruct (poller_poll_frame _ _ _ Ht) as (Hi&_&Hx&Hr&_&_&Hs&Hb&->&Hc&_). done.
Qed.

Lemma orphaned_task t c due rt rt1 : task_poll t c due rt = Some rt1 → orphaned rt → orphaned rt1.
Proof.
  intros Ht [Hi Hs [Hb Hc] Hf Hx].
  destruct (decide (t = TBatcher)) as [->|Hnb].
  { cbn in Ht. unfold batcher_poll in Ht. rewrite Hs, Hf, Hc in Ht.
    destruct Hx as [Hx|Hx]; rewrite Hx in Ht; [simplify_eq; split; cbn; auto|]. destruct due; simplify_eq.
    assert (He : batcher_branch cfg BrTick (rt_engine rt) =
      set_batcher (batcher (rt_engine rt)) Running (rt_engine rt)).
    { unfold batcher_branch. rewrite Hs, Hf. cbn. unfold flush_spawn. by rewrite Hb. }
    rewrite He. split; cbn; auto. }
  destruct (other_task_frame _ _ _ _ _ Ht Hnb Hf) as (Hx1&Hs1&Hb1&Hf1&Hfr).
  destruct (decide (t = TInbound)) as [->|Hni].
  - cbn in Ht. unfold inbound_poll in Ht. destruct Hi as [[Hi Hr]|Hi]; rewrite Hi in Ht.
    + rewrite Hr in Ht. simplify_eq. split; cbn; auto.
    + by rewrite Hs in Ht.
  - destruct (Hfr Hni) as (Hc1&Hi1&Hr1). split; rewrite ?Hi1, ?Hr1, ?Hs1, ?Hb1, ?Hc1, ?Hx1; auto.
Qed.

Lemma orphaned_env rt e1 : env_step (rt_engine rt) e1 → orphaned rt → orphaned (set_eng e1 rt).
Proof.
  intros (Hs&Hb&Hf&Hc&_)%env_step_frame [Hi Hs0 He Hf0 Hx]. split; cbn; rewrite ?Hs, ?Hb, ?Hf, ?Hc; done.
Qed.

(** Until its first poll the batcher is as it was created. *)
Lemma unsubscribed_idle n rt rt' :
  let idle rt := rt_batcher_rx rt = None →
    batcher_status (rt_engine rt) = Running ∧ mb_buffer (batcher (rt_engine rt)) = [] ∧
    mb_flight (batcher (rt_engine rt)) = None in
  rt_run n rt rt' → idle rt → idle rt'.
Proof.
  intros idle Hrun. refine (rt_run_inv idle _ _ _ _ _ Hrun); unfold idle.
  - intros t c due rt0 rt1 Ht Hi Hx. destruct (decide (t = TBatcher)) as [->|Hnb].
    + cbn in Ht. unfold batcher_poll in Ht. destruct (batcher_status _); [|done].
      destruct (rt_batcher_rx rt0) as [rx|] eqn:Hrx; [|by simplify_eq].
      destruct (mb_flight _); [destruct (flush_join _ _ _); [|done]|repeat case_match; try done];
        simplify_eq/=; by rewrite Hrx in Hx.
    + assert (Hx0 : rt_batcher_rx rt0 = None).
      { destruct t; cbn in Ht; [|done|..].
        - unfold inbound_poll in Ht. repeat case_match; by simplify_eq/=.
        - unfold flush_poll in Ht. destruct (flush_thread _ _); by simplify_eq/=.
        - unfold outbound_poll in Ht. repeat case_match; by simplify_eq/=.
        - destruct (poller_poll_frame _ _ _ Ht) as (_&_&<-&_). done. }
      destruct (Hi Hx0) as (?&?&Hf). destruct (other_task_frame _ _ _ _ _ Ht Hnb Hf) as (_&Hs1&Hb1&Hf1&_).
      by rewrite Hs1, Hb1.
  - intros rt0 e1 He Hi Hx. destruct (env_step_frame _ _ He) as (Hs&Hb&Hf&_). cbn. rewrite Hs, Hb, Hf. by apply Hi.
Qed.

(** C11: a shutdown before the batcher's first poll never returns.  When the
    broadcast is sent while the batcher's task has been spawned but not polled,
    and no operation has been handed to it yet, the batcher subscribes too late
    to receive it: in every continuation it keeps running and the inbound worker
    never gets past joining it. *)
Theorem early_shutdown_hangs (db : D) (doc : L) (m n : nat) (rt rt' : RT)
  (Hrun : rt_run m (spawn_all (SyncEngine_new db doc)) rt)
  (Hnot : rt_batcher_rx rt = None) (Hsel : rt_inbound rt = InSelect)
  (Hempty : ch_queue (batch_chan (rt_engine rt)) = [])
  (Hquit : rt_run n (rt_shutdown rt) rt') :
  batcher_status (rt_engine rt') = Running ∧ rt_inbound rt' ≠ InDone ∧ joined rt' = false.
Proof.
  assert (Ho : orphaned rt').
  { eapply (rt_run_inv orphaned); eauto using orphaned_task, orphaned_env.
    destruct (unsubscribed_idle _ _ _ Hrun ltac:(done) Hnot) as (Hs&Hb&Hf).
    split; cbn; [by left|done|done|done|]. rewrite Hnot. by left. }
  destruct Ho as [Hi Hs _ _ _]. split; [done|]. unfold joined.
  destruct Hi as [[-> _]| ->]; done.
Qed.

(** ** What the poller sees *)

(** The poller has started at epoch [start] and deals with later changes only. *)
Record polls_from (start : EpochId) (rt : RT) : Prop := {
  pf_started : rt_poller rt ≠ PollSpawned;
  pf_last : (start ≤ last_epoch (rt_engine rt))%Z;
  pf_pending : ∀ cur evs, poll_pending (rt_engine rt) = Some (cur, evs) →
    (start ≤ cur)%Z ∧ Forall (λ ev, (start ≤ ev_epoch ev)%Z) evs;
  pf_sending : ∀ ev, poll_sending (rt_engine rt) = Some ev → (start ≤ ev_epoch ev)%Z;
  pf_queue : Forall (λ m, (start ≤ m.1)%Z ∧ m.1 = ev_epoch m.2) (ch_queue (outbound (rt_engine rt)))
}.

Lemma polls_from_poller `{!GrafeoCdcLaws S} start due (rt rt1 : RT) :
  poller_poll due rt = Some rt1 → polls_from start rt → polls_from start rt1.
Proof.
  intros Ht [Hst Hl Hpend Hsend Hq]. destruct rt as [e ti to tp ri ro rp rb]. unfold poller_poll in Ht. cbn in *.
  destruct tp; [done| |done].
  destruct (poll_sending e) as [x|] eqn:Hsn; [destruct (ch_closed _); [|destruct (send_ready _) eqn:Hr; [|done]]|].
  - simplify_eq. split; cbn; rewrite ?Hsn; done.
  - simplify_eq. unfold poll_send. rewrite Hsn, Hr. split; cbn; try done.
    apply Forall_app. split; [done|]. apply Forall_singleton. split; [by apply Hsend|done].
  - destruct (poll_pending e) as [[cur [|ev evs]]|] eqn:Hpp.
    + simplify_eq. destruct (Hpend _ _ eq_refl) as [Hc _]. unfold poll_end. rewrite Hsn, Hpp.
      split; cbn; rewrite ?Hsn; done.
    + simplify_eq. destruct (Hpend _ _ eq_refl) as [Hc [Hev Hevs]%Forall_cons]. unfold poll_event. rewrite Hsn, Hpp.
      case_bool_decide; split; cbn; rewrite ?Hsn; naive_solver.
    + destruct rp; [simplify_eq; split; cbn; rewrite ?Hsn, ?Hpp; done|]. destruct due; simplify_eq.
      unfold poll_begin. destruct (_ <=? _)%Z eqn:Hle; [split; cbn; rewrite ?Hsn, ?Hpp; done|]. apply Z.leb_gt in Hle.
      destruct (changes_between _ _ _) as [evs|] eqn:Hcb; [|split; cbn; rewrite ?Hsn, ?Hpp; done].
      apply changes_between_law in Hcb.
      split; cbn; rewrite ?Hsn; try done. intros cur evs' [= <- <-]. split; [lia|].
      eapply Forall_impl; [exact Hcb|]. cbn. lia.
Qed.

Lemma polls_from_task `{!GrafeoCdcLaws S} start t c due rt rt1 :
  task_poll t c due rt = Some rt1 → polls_from start rt → polls_from start rt1.
Proof.
  intros Ht Hpf. destruct t; [| | | |by eapply polls_from_poller];
    destruct Hpf as [Hst Hl Hpend Hsend Hq]; destruct rt as [e ti to tp ri ro rp rb]; cbn in *.
  - unfold inbound_poll in Ht. cbn in Ht. repeat case_match; simplify_eq; try by split.
    all: unfold inbound_take; destruct metrics; by split.
  - assert (Hit : ∀ e' rb', outer e' = outer e → polls_from start (mkRuntime e' ti to tp ri ro rp rb')).
    { intros e' rb' [= _ Ho Hp Hs Hle _]. split; cbn; rewrite ?Ho, ?Hp, ?Hs, ?Hle; done. }
    unfold batcher_poll in Ht. cbn in Ht. destruct (batcher_status e); [|done].
    destruct rb as [rx|]; [|simplify_eq; by apply Hit]. destruct (mb_flight (batcher e)).
    + destruct (flush_join cfg due e) as [e'|] eqn:He; [|done]. injection Ht as <-.
      apply Hit. by destruct (flush_join_frame _ _ _ He).
    + repeat case_match; simplify_eq; apply Hit, batcher_branch_frame.
  - unfold flush_poll in Ht. cbn in Ht. destruct (flush_thread c e) as [e'|] eqn:He; [|done]. injection Ht as <-.
    destruct (flush_thread_frame _ _ _ He) as ([= _ Ho Hp Hs Hle _]&_).
    split; cbn; rewrite ?Ho, ?Hp, ?Hs, ?Hle; done.
  - unfold outbound_poll in Ht. cbn in Ht. destruct to as [|pl|]; [destruct ro| |done].
    + simplify_eq. by split.
    + destruct (ch_queue (outbound e)) as [|m q] eqn:Hqe; [done|]. pose proof (outbound_apply_frame e) as Hf.
      destruct (outbound_apply metrics e) as [p e1]. cbn in Hf.
      destruct Hf as (_&_&_&_&_&Hp&Hs&Hle&_&Ho). simplify_eq.
      split; cbn; rewrite ?Ho, ?Hp, ?Hs, ?Hle, ?Hqe; try done. by apply Forall_cons in Hq as [_ ?].
    + simplify_eq. destruct (outbound_commit_frame pl e) as [[= _ _ _ _ Ho Hp Hs Hle _] _].
      split; cbn; rewrite ?Ho, ?Hp, ?Hs, ?Hle; done.
Qed.

(** The outbound half starts where the poller's first poll finds the graph,
    not where [spawn_all] left it.  Once the poller has started, every change
    that is ever on its way to the document, whether pending in the poller's
    cycle or waiting in the channel, is of an epoch not before the graph's epoch
    at that first poll, so a change committed after the tasks were spawned but
    before it is never mirrored. *)
Lemma poller_starts_at_first_poll `{!GrafeoCdcLaws S} (c : BkChoice) (due : bool) (n : nat)
  (rt rt1 rt' : RT) (Hspawned : rt_poller rt = PollSpawned) (Hidle : poll_sending (rt_engine rt) = None)
  (Hempty : ch_queue (outbound (rt_engine rt)) = [])
  (Hfirst : task_poll TPoller c due rt = Some rt1) (Hrun : rt_run n rt1 rt') :
  let start := current_epoch (grafeo_db (rt_engine rt)) in
  Forall (λ m, (start ≤ m.1)%Z ∧ m.1 = ev_epoch m.2) (ch_queue (outbound (rt_engine rt'))) ∧
  ∀ cur evs, poll_pending (rt_engine rt') = Some (cur, evs) →
    Forall (λ ev, (start ≤ ev_epoch ev)%Z) evs.
Proof.
  cbn zeta. assert (Hpf : polls_from (current_epoch (grafeo_db (rt_engine rt))) rt').
  { eapply (rt_run_inv (polls_from _)); [| |exact Hrun|].
    - intros t c' due' rt0 rt2. apply polls_from_task.
    - intros rt0 e1 (_&_&_&_&Ho&Hp&Hs&Hle&_)%env_step_frame [Hst Hl Hpend Hsend Hq].
      split; cbn; rewrite ?Ho, ?Hp, ?Hs, ?Hle; done.
    - cbn in Hfirst. unfold poller_poll in Hfirst. rewrite Hspawned in Hfirst. simplify_eq.
      split; cbn; [done|lia|done|by rewrite Hidle|by rewrite Hempty]. }
  destruct Hpf as [_ _ Hpend _ Hq]. split; [done|]. intros cur evs Hp. by apply (Hpend cur).
Qed.

End lifecycle.

(** ** Concrete runs *)

Definition rt0 : Runtime MemDb MemLoro := spawn_all (SyncEngine_new memdb_new MemLoro_new).

(** Polls tasks in the order given; the ones that are not ready do nothing. *)
Definition poll_all (ts : list Task) (rt : Runtime MemDb MemLoro) : Runtime MemDb MemLoro :=
  foldl (λ rt t, default rt (task_poll cfg1 true true t BkGo true rt)) rt ts.

Lemma poll_all_run (ts : list Task) rt : ∃ n, rt_run cfg1 true true n rt (poll_all ts rt).
Proof.
  revert rt. induction ts as [|t ts IH]; intros rt; [exists 0; constructor|]. cbn.
  destruct (task_poll cfg1 true true t BkGo true rt) as [rt1|] eqn:Ht; cbn; [|apply IH].
  destruct (IH rt1) as [n Hn]. exists (S n). by eapply run_task.
Qed.

(** A run that ends: every handle is joined after eight rounds at most. *)
Definition rounds (n : nat) : list Task :=
  mjoin (replicate n [TBatcher; TFlush; TFlush; TInbound; TOutbound; TPoller]).

Lemma shutdown_terminates_witness :
  let rt := poll_all (rounds 1) rt0 in
  let rt' := poll_all (rounds 3) (rt_shutdown rt) in
  joined rt' = true ∧ mb_buffer (batcher (rt_engine rt')) = [] ∧ kept (rt_engine rt) (rt_engine rt').
Proof.
  intros rt rt'.
  destruct (poll_all_run (rounds 1) rt0) as [m Hm].
  destruct (poll_all_run (rounds 3) (rt_shutdown rt)) as [n Hn].
  destruct (shutdown_terminates cfg1 true true memdb_new MemLoro_new m n rt rt' Hm) as (_&_&Hk&Hb);
    [by vm_compute|exact Hn|].
  split; [vm_compute; reflexivity|]. split; [vm_compute; reflexivity|exact Hk].
Defined.

Lemma early_shutdown_hangs_witness :
  let rt' := poll_all (rounds 5) (rt_shutdown rt0) in
  rt_inbound rt' = InJoin ∧ rt_outbound rt' = OutDone ∧ rt_poller rt' = PollDone ∧ joined rt' = false.
Proof.
  intros rt'. destruct (poll_all_run (rounds 5) (rt_shutdown rt0)) as [n Hn].
  destruct (early_shutdown_hangs cfg1 true true memdb_new MemLoro_new 0 n rt0 rt') as (_&_&Hj);
    [constructor|reflexivity..|exact Hn|].
  split; [vm_compute; reflexivity|]. split; [vm_compute; reflexivity|].
  split; [vm_compute; reflexivity|exact Hj].
Defined.

(** A writer commits a vertex between [spawn_all] and the poller's first poll:
    the change is in the graph's log and never reaches the document. *)
Lemma poller_starts_at_first_poll_witness :
  let written := (flush_transaction [op_v] (mkFlushState memdb_new BridgeMaps_new ∅)).2 in
  let rt := set_eng (set_db (fs_db written) (rt_engine rt0)) rt0 in
  let rt' := poll_all (rounds 5) (set_poller PollRun (set_eng (set_poll 1 None (rt_engine rt)) rt)) in
  length (mg_log (md_graph (grafeo_db (rt_engine rt)))) = 1 ∧
  ch_queue (outbound (rt_engine rt')) = [] ∧ loro_doc (rt_engine rt') = MemLoro_new ∧
  Forall (λ m, (1 ≤ m.1)%Z ∧ m.1 = ev_epoch m.2) (ch_queue (outbound (rt_engine rt'))).
Proof.
  intros written rt rt'.
  set (rt1 := set_poller PollRun (set_eng (set_poll 1 None (rt_engine rt)) rt)).
  destruct (poll_all_run (rounds 5) rt1) as [n Hn].
  split; [vm_compute; reflexivity|]. split; [vm_compute; reflexivity|].
  split; [vm_compute; reflexivity|].
  destruct (poller_starts_at_first_poll cfg1 true true BkGo true n rt rt1 rt') as [Hq _];
    [reflexivity|reflexivity|reflexivity|vm_compute; reflexivity|exact Hn|exact Hq].
Defined.
