(* ===== verification/Pipeline.v ===== *)
(** * The inbound path end to end ([src/bridge/sync_engine.rs], [src/bridge/batcher.rs])

    From the channel the subscriber fills to the graph the batcher commits: the
    inbound worker, the batch channel, the buffer and the flushes on their
    threads, as the tasks of [Lifecycle.v] run them beside the outbound half and beside commits of the
    document.  The other theorems follow a component; this one follows an
    operation. *)

From S2P Require Import Prelude Types Values BridgeMaps GrafeoTx GraphSpec MemGraph Batcher BatcherSpec EdgeKeys Translate Queue SyncEngine EngineSpec Lifecycle.

Section pipeline.
  Context {D S L : Type} `{GrafeoDBLaws D S, !GrafeoCdc S, !LoroDoc L, HashOrder}.
  Context (cfg : BatcherConfig) (metrics health : bool).
  Notation E := (SyncEngine D L).
  Notation RT := (Runtime D L).

Definition batcher_of (rt : RT) : MutationBatcher D := batcher (rt_engine rt).
Definition status_of (rt : RT) : RunStatus := batcher_status (rt_engine rt).

(** The operation the worker holds between its two channels. *)
Definition held (rt : RT) : list LoroOp :=
  match rt_inbound rt with InSend op => [op] | _ => [] end.

(** The operations of a flush whose transaction has not run, and the error of one
    that failed. *)
Definition flight_ops (flight : option Flight) : list LoroOp :=
  match flight with Some (mkFlight _ (BkQueued ops) _) => ops | _ => [] end.
Definition flight_error (flight : option Flight) : option GrafeoLoroError :=
  match flight with Some (mkFlight _ (BkReturned (Err e)) _) => Some e | _ => None end.

(** The operations on their way to the graph, oldest first. *)
Definition in_flight (rt : RT) : list LoroOp :=
  flight_ops (mb_flight (batcher_of rt)) ++ mb_buffer (batcher_of rt) ++ ch_queue (batch_chan (rt_engine rt)) ++ held rt ++
  ch_queue (inbound (rt_engine rt)).

(** What a step appended to the inbound channel. *)
Definition arrivals (e e' : E) : list LoroOp :=
  drop (length (ch_queue (inbound e))) (ch_queue (inbound e')).

(** A running engine whose flush threads neither panic nor outlive their timeout
    and whose graph has no other writer, with the operations its inbound channel
    has accepted.  The outbound worker may write what it likes to the document; it
    may not change the id maps, as it only does for edges others created and
    entities others deleted. *)
Inductive inbound_run (db : D) (doc : L) : list LoroOp → RT → Prop :=
| ir_new : inbound_run db doc [] (spawn_all (SyncEngine_new db doc))
| ir_task t due sent rt rt1 :
    inbound_run db doc sent rt → task_poll cfg metrics health t BkGo due rt = Some rt1 →
    (t = TOutbound → maps (rt_engine rt1) = maps (rt_engine rt)) →
    (t = TBatcher → mb_flight (batcher_of rt) ≠ None → due = false) →
    inbound_run db doc (sent ++ arrivals (rt_engine rt) (rt_engine rt1)) rt1
| ir_commit origin edit sent rt :
    inbound_run db doc sent rt →
    let e1 := local_commit metrics origin edit (rt_engine rt) in
    inbound_run db doc (sent ++ arrivals (rt_engine rt) e1) (set_eng e1 rt)
| ir_send op c sent rt :
    inbound_run db doc sent rt → try_send (inbound (rt_engine rt)) op = Ok c →
    inbound_run db doc (sent ++ [op])
      (set_eng (set_inbound c (inbound_event_count (rt_engine rt)) (rt_engine rt)) rt).

(** Turns of the two tasks and of the flush thread: the ticker has fired, the
    timeout of a flush has not. *)
Definition ticking (rt : RT) : bool := match mb_flight (batcher_of rt) with None => true | Some _ => false end.
Definition pipe_round (rt : RT) : RT :=
  let rt1 := default rt (inbound_poll metrics rt) in
  let rt2 := default rt1 (batcher_poll cfg (ticking rt1) rt1) in
  default rt2 (flush_poll BkGo rt2).

(** Each hop of an operation costs one turn, and so does the subscription. *)
Definition pipe_fuel (rt : RT) : nat :=
  7 * length (ch_queue (inbound (rt_engine rt))) + 6 * length (held rt) +
  5 * length (ch_queue (batch_chan (rt_engine rt))) + 4 * length (mb_buffer (batcher_of rt)) +
  match mb_flight (batcher_of rt) with Some fl => 1 + thread_fuel (fl_task fl) | None => 0 end +
  match rt_batcher_rx rt with None => 1 | Some _ => 0 end.

(** ** What the rest of the engine leaves alone *)

(** All of the inbound half but its first channel. *)
Definition hold (e : E) :=
  (batcher_status e, mb_buffer (batcher e), mb_flight (batcher e), maps e, grafeo_db e, batch_chan e).

Lemma subscriber_batcher ev (e : E) : batcher (subscriber_handler metrics ev e) = batcher e.
Proof.
  unfold subscriber_handler. destruct (is_echo_origin _); [done|].
  generalize (translate_diff_event ev). intros ops. revert e.
  induction ops as [|op ops IH]; intros e; cbn; [done|]. destruct (try_send _ _); [by rewrite IH|done].
Qed.

Lemma commit_doc_batcher (e : E) : batcher (commit_doc metrics e) = batcher e.
Proof.
  unfold commit_doc. destruct (loro_commit _) as [evs doc].
  change (batcher e) with (batcher (set_doc doc e)). generalize (set_doc doc e). clear e.
  induction evs as [|ev evs IH]; intros e; [done|]. cbn. by rewrite IH, subscriber_batcher.
Qed.

Lemma commit_doc_hold (e : E) : hold (commit_doc metrics e) = hold e.
Proof.
  destruct (commit_doc_frame metrics e) as [[= Hs _ _ Hc _ _ _ _ _] _].
  unfold hold, maps, grafeo_db. by rewrite Hs, commit_doc_batcher, Hc.
Qed.

Lemma local_commit_frame origin edit (e : E) :
  hold (local_commit metrics origin edit e) = hold e ∧
  ch_queue (inbound e) `prefix_of` ch_queue (inbound (local_commit metrics origin edit e)).
Proof.
  set (e1 := set_doc (loro_set_next_commit_origin origin (edit (loro_doc e))) e).
  split; [apply (commit_doc_hold e1)|apply (commit_doc_frame metrics e1)].
Qed.

(** A poll of the outbound half. *)
Lemma outbound_half_frame t due (rt rt1 : RT) :
  task_poll cfg metrics health t BkGo due rt = Some rt1 → t = TOutbound ∨ t = TPoller →
  (t = TOutbound → maps (rt_engine rt1) = maps (rt_engine rt)) →
  hold (rt_engine rt1) = hold (rt_engine rt) ∧ rt_inbound rt1 = rt_inbound rt ∧
  rt_inbound_rx rt1 = rt_inbound_rx rt ∧ rt_batcher_rx rt1 = rt_batcher_rx rt ∧
  ch_queue (inbound (rt_engine rt)) `prefix_of` ch_queue (inbound (rt_engine rt1)).
Proof.
  intros Ht [->| ->] Hm; [specialize (Hm eq_refl)|clear Hm]; cbn in Ht.
  - destruct rt as [e ti to tp ri ro rp rb].
    unfold outbound_poll in Ht. cbn in Ht. destruct to as [|p|]; [destruct ro| |done].
    + by simplify_eq.
    + destruct (ch_queue (outbound e)) as [|[ep pl] q] eqn:Hq; [done|].
      pose proof (outbound_apply_frame metrics e) as (Hs&Hbuf&Hfl&Hc&Hi&_).
      assert (Hd : grafeo_db (outbound_apply metrics e).2 = grafeo_db e).
      { unfold outbound_apply. rewrite Hq. case_bool_decide; [done|].
        by destruct (apply_change_event_to_loro _ _) as [[]?]. }
      destruct (outbound_apply metrics e) as [p e1]. cbn in *. unfold hold.
      rewrite <-Hi, <-Hs, <-Hbuf, <-Hfl, <-Hc, <-Hd.
      destruct p; simplify_eq; cbn in *; by rewrite Hm.
    + simplify_eq. cbn. split; [apply (commit_doc_hold (set_doc _ e))|].
      do 3 (split; [done|]). apply (outbound_commit_frame metrics health p e).
  - destruct (poller_poll_frame metrics _ _ _ Ht) as (Hi&_&Hx&Hr&_&_&Hs&Hb&Hf&Hc&Hin&_).
    assert (Hmd : maps (rt_engine rt1) = maps (rt_engine rt) ∧ grafeo_db (rt_engine rt1) = grafeo_db (rt_engine rt)).
    { clear - Ht. destruct rt as [e ti to tp ri ro rp rb]. unfold poller_poll in Ht. cbn in Ht.
      unfold poll_event, poll_send, poll_end, poll_begin in Ht. repeat case_match; by simplify_eq/=. }
    destruct Hmd as [Hm Hd]. unfold hold. rewrite Hs, Hb, Hf, Hc, Hin, Hm, Hd. done.
Qed.

Lemma arrivals_app (e e' : E) :
  ch_queue (inbound e) `prefix_of` ch_queue (inbound e') →
  ch_queue (inbound e') = ch_queue (inbound e) ++ arrivals e e'.
Proof. intros [l Hl]. unfold arrivals. by rewrite Hl, drop_app_length. Qed.

(** ** The invariant *)

(** The graph the empty id maps name: an engine starts without bindings. *)
Definition graph0 : KeyedGraph := mkKeyedGraph ∅ ∅.

(** The database has committed [g], whatever a rolled-back flush did to the maps. *)
Definition commits (b : MutationBatcher D) (g : KeyedGraph) : Prop :=
  ∃ b0 : MutationBatcher D, g = mb_abs b0 ∧
    db_nodes (fs_db (mb_fs b)) = db_nodes (fs_db (mb_fs b0)) ∧
    db_edges (fs_db (mb_fs b)) = db_edges (fs_db (mb_fs b0)).

(** A batch that does not commit on [g] and gives [e]. *)
Definition batch_fails (failed : list LoroOp) (g : KeyedGraph) (e : GrafeoLoroError) : Prop :=
  spec_run failed g = Err e ∨ ∃ msg, e = EGrafeo msg.

(** What became of the operations sent: committed, or on their way; once a flush
    has failed, committed, in the batch that failed, or behind it, and lost when
    the batcher has left with the error. *)
Definition pipe_graph (sent : list LoroOp) (rt : RT) : Prop :=
  match status_of rt, flight_error (mb_flight (batcher_of rt)) with
  | Running, None =>
      ∃ committed, sent = committed ++ in_flight rt ∧ mb_coupled (batcher_of rt) ∧
        spec_run committed graph0 = Ok (mb_abs (batcher_of rt))
  | Running, Some e =>
      ∃ committed failed g, sent = committed ++ failed ++ in_flight rt ∧
        spec_run committed graph0 = Ok g ∧ commits (batcher_of rt) g ∧ batch_fails failed g e
  | Finished r, _ =>
      ∃ e committed failed lost g, r = Err e ∧ sent = committed ++ failed ++ lost ∧
        spec_run committed graph0 = Ok g ∧ commits (batcher_of rt) g ∧ batch_fails failed g e
  end.

Record pipe_ok (rt : RT) : Prop := {
  po_rx : rt_inbound_rx rt = false;
  po_batcher_rx : rt_batcher_rx rt ≠ Some true;
  po_room : 0 < ch_capacity (batch_chan (rt_engine rt));
  po_task : status_of rt = Running → rt_inbound rt = InSelect ∨ ∃ op, rt_inbound rt = InSend op;
  po_flight fl : mb_flight (batcher_of rt) = Some fl →
    fl_last fl = false ∧ status_of rt = Running ∧ rt_batcher_rx rt = Some false
}.

(** The flush threads have not panicked. *)
Definition no_panic (rt : RT) : Prop :=
  ∀ fl msg, mb_flight (batcher_of rt) = Some fl → fl_task fl ≠ BkPanicked msg.

Lemma pipe_new db doc : pipe_graph [] (spawn_all (SyncEngine_new db doc)) ∧
  pipe_ok (spawn_all (SyncEngine_new db doc)).
Proof.
  split; [|split; cbn; [done..|unfold CHANNEL_CAPACITY; lia|by left|done]].
  exists []. split; [done|]. split; [|done].
  split; cbn; try done; split; cbn; intros; set_solver.
Qed.

(** The inbound half stays as it is, its first channel grows. *)
Lemma pipe_graph_grow sent new (rt rt1 : RT) :
  hold (rt_engine rt1) = hold (rt_engine rt) → rt_inbound rt1 = rt_inbound rt →
  ch_queue (inbound (rt_engine rt1)) = ch_queue (inbound (rt_engine rt)) ++ new →
  pipe_graph sent rt → pipe_graph (sent ++ new) rt1.
Proof.
  intros [= Hs Hb Hf Hm Hd Hc] Hi Hq. unfold pipe_graph, status_of, batcher_of. rewrite Hs, Hf.
  assert (Hfs : fs_coupled (mb_fs (batcher_of rt1)) = fs_coupled (mb_fs (batcher_of rt)) ∧
    mb_abs (batcher_of rt1) = mb_abs (batcher_of rt)).
  { unfold fs_coupled, mb_abs, fs_abs, batcher_of. unfold maps, grafeo_db in *. by rewrite Hm, Hd. }
  assert (Hin : in_flight rt1 = in_flight rt ++ new).
  { unfold in_flight, held, batcher_of. rewrite Hb, Hf, Hc, Hi, Hq. by rewrite <-!(assoc_L (++)). }
  assert (Hcm : ∀ g, commits (batcher_of rt) g → commits (batcher_of rt1) g).
  { intros g (b0&Hg&Hn&He). exists b0. unfold grafeo_db, batcher_of in *. by rewrite Hd. }
  destruct Hfs as [Hcp Habs]. rewrite Hin. unfold mb_coupled, batcher_of in *. rewrite Hcp, Habs.
  destruct (batcher_status (rt_engine rt)) as [|r]; [destruct (flight_error _) as [er|]|].
  - intros (co&f&g&->&?&?&?). exists co, f, g. rewrite <-!(assoc_L (++)). auto.
  - intros (co&->&?). exists co. by rewrite <-!(assoc_L (++)).
  - intros (e&co&f&l&g&->&->&?&?&?). exists e, co, f, (l ++ new), g. rewrite <-!(assoc_L (++)). auto 10.
Qed.

(** A step of the inbound worker that keeps everything between its channels. *)
Lemma pipe_graph_move sent (rt rt1 : RT) :
  batcher (rt_engine rt1) = batcher (rt_engine rt) → status_of rt1 = status_of rt →
  (status_of rt = Running → in_flight rt1 = in_flight rt) → pipe_graph sent rt → pipe_graph sent rt1.
Proof.
  intros Hb Hs Hi. unfold pipe_graph, batcher_of. rewrite Hb, Hs.
  destruct (status_of rt); [by rewrite Hi|done].
Qed.

(** The worker moves an operation along, or has seen the batcher end. *)
Lemma inbound_poll_moves (rt rt1 : RT) :
  inbound_poll metrics rt = Some rt1 → pipe_ok rt →
  pipe_ok rt1 ∧ arrivals (rt_engine rt) (rt_engine rt1) = [] ∧ batcher (rt_engine rt1) = batcher (rt_engine rt) ∧
  status_of rt1 = status_of rt ∧ (status_of rt = Running → in_flight rt1 = in_flight rt).
Proof.
  destruct rt as [e ti to tp ri ro rp rb]. intros Hp [Hrx Hbrx Hroom Htask Hfl].
  unfold inbound_poll, status_of, in_flight, held, batcher_of, arrivals in *.
  cbn in *. subst ri. destruct ti as [|op| |]; [| | |done].
  - destruct (ch_queue (inbound e)) as [|op q] eqn:Hq; [done|]. simplify_eq.
    assert (Ha : let e1 := inbound_take metrics op q e in batcher e1 = batcher e ∧
      batcher_status e1 = batcher_status e ∧ batch_chan e1 = batch_chan e ∧ ch_queue (inbound e1) = q).
    { unfold inbound_take. by destruct metrics. }
    destruct Ha as (Hb&Hs&Hc&Hqq). cbn. rewrite Hb, Hs, Hc, Hqq. split; [|split; [apply drop_ge; cbn; lia|done]].
    split; unfold status_of, batcher_of; cbn; rewrite ?Hb, ?Hs, ?Hc; eauto.
  - destruct (batcher_status e) as [|r] eqn:Hs; [destruct (send_ready (batch_chan e)); [|done]|]; simplify_eq; cbn;
      (split; [split; unfold status_of, batcher_of; cbn; rewrite ?Hs; by auto|]);
      (split; [apply drop_ge; lia|]); (split; [done|]); (split; [done|]); [intros _|done].
    by rewrite <-!(assoc_L (++)).
  - destruct (batcher_status e) as [|r] eqn:Hs; simplify_eq. cbn.
    split; [split; unfold status_of, batcher_of; cbn; rewrite ?Hs; by auto|].
    split; [apply drop_ge; lia|]. done.
Qed.

Lemma inbound_poll_pipe sent (rt rt1 : RT) :
  inbound_poll metrics rt = Some rt1 → pipe_ok rt → pipe_graph sent rt →
  pipe_ok rt1 ∧ pipe_graph sent rt1 ∧ arrivals (rt_engine rt) (rt_engine rt1) = [] ∧
  batcher (rt_engine rt1) = batcher (rt_engine rt).
Proof.
  intros Hp Hok Hg. destruct (inbound_poll_moves _ _ Hp Hok) as (?&?&Hb&Hs&Hi).
  split; [done|]. split; [|done]. by apply (pipe_graph_move sent rt).
Qed.

(** A branch of the batcher's loop, outside shutdown, moves operations only. *)
Lemma branch_pipe br ev (rt : RT) :
  status_of rt = Running → br ≠ BrShutdown → mb_flight (batcher_of rt) = None →
  branch_event br (rt_engine rt) = Some ev →
  let rt1 := set_eng (batcher_branch cfg br (rt_engine rt)) rt in
  status_of rt1 = Running ∧ in_flight rt1 = in_flight rt ∧ mb_fs (batcher_of rt1) = mb_fs (batcher_of rt) ∧
  inbound (rt_engine rt1) = inbound (rt_engine rt) ∧
  ch_capacity (batch_chan (rt_engine rt1)) = ch_capacity (batch_chan (rt_engine rt)) ∧
  (∀ fl, mb_flight (batcher_of rt1) = Some fl → fl_last fl = false ∧ ∃ ops, fl_task fl = BkQueued ops).
Proof.
  destruct rt as [e ti to tp ri ro rp rb]. unfold status_of, batcher_of, in_flight, held, batcher_of. cbn.
  intros Hs Hbr Hf Hev. unfold batcher_branch. rewrite Hs, Hf, Hev.
  assert (Hsp : ∀ b : MutationBatcher D, mb_flight b = None →
    let b' := flush_spawn false b in
    flight_ops (mb_flight b') ++ mb_buffer b' = mb_buffer b ∧ mb_fs b' = mb_fs b ∧
    ∀ fl, mb_flight b' = Some fl → fl_last fl = false ∧ ∃ ops, fl_task fl = BkQueued ops).
  { intros b Hn. unfold flush_spawn. destruct (mb_buffer b) eqn:Hb; cbn; rewrite ?Hn, ?app_nil_r; [done|].
    split; [done|]. split; [done|]. intros fl [= <-]. eauto. }
  destruct br; [done| |]; cbn in Hev.
  - destruct (ch_queue (batch_chan e)) as [|op q] eqn:Hq; [done|]. simplify_eq/=. destruct (_ <? _)%Z; cbn.
    + rewrite Hf, Hq. cbn. by rewrite <-!(assoc_L (++)).
    + destruct (Hsp (set_buffer (mb_buffer (batcher e) ++ [op]) (batcher e)) Hf) as (Hi&Hfs&Hfl).
      rewrite (assoc_L (++)), Hi, Hq. cbn. by rewrite <-!(assoc_L (++)).
  - simplify_eq/=. destruct (Hsp (batcher e) Hf) as (Hi&Hfs&Hfl). by rewrite (assoc_L (++)), Hi.
Qed.

(** The await of a flush that has returned. *)
Lemma join_pipe sent (rt rt1 : RT) :
  status_of rt = Running → (λ e', set_eng e' rt) <$> flush_join cfg false (rt_engine rt) = Some rt1 →
  pipe_ok rt → no_panic rt → pipe_graph sent rt →
  pipe_ok rt1 ∧ pipe_graph sent rt1 ∧ inbound (rt_engine rt1) = inbound (rt_engine rt) ∧
  mb_flight (batcher_of rt1) = None.
Proof.
  destruct rt as [e ti to tp ri ro rp rb]. intros Hs Hj [Hrx Hbrx Hroom Htask Hfl] Hnp Hg.
  destruct (flush_join cfg false e) as [e'|] eqn:He; [|by cbn in Hj; rewrite He in Hj]. cbn in Hj. rewrite He in Hj. injection Hj as <-.
  destruct (flush_join_frame _ _ _ _ He) as ([= Hi _ _ _ _]&Hc&Hb&Hf'&_).
  unfold no_panic, pipe_graph, status_of, batcher_of, in_flight, held, batcher_of in *. cbn in *. rewrite Hs in Hg.
  unfold flush_join, batcher_join in He. destruct (mb_flight (batcher e)) as [[ops bk last]|] eqn:Hf; [|done].
  destruct (Hfl _ eq_refl) as (Hlast&_&Hrb). cbn in Hlast, Hrb. subst last rb. cbn in He, Hg.
  assert (Hok : pipe_ok (mkRuntime e' ti to tp ri ro rp (Some false))).
  { split; cbn; unfold status_of, batcher_of; cbn; rewrite ?Hc, ?Hf'; try done. intros _. by apply Htask. }
  split; [done|]. split; [|done].
  destruct bk as [q|ep|[[]|er]|msg]; [done|done| | |by destruct (Hnp _ msg eq_refl)]; injection He as <-; cbn in *.
  - exact Hg.
  - destruct Hg as (co&f&g&->&Hr&(b0&?&?&?)&?). exists er, co, f.
    eexists _, g. do 3 (split; [done|]). split; [by exists b0|done].
Qed.

(** The thread of a flush: its transaction commits the specified graph or fails,
    and recording the epoch changes nothing here. *)
Lemma flush_pipe sent (rt rt1 : RT) :
  flush_poll BkGo rt = Some rt1 → pipe_ok rt → no_panic rt → pipe_graph sent rt → detached_run sent graph0 →
  pipe_ok rt1 ∧ no_panic rt1 ∧ pipe_graph sent rt1 ∧ inbound (rt_engine rt1) = inbound (rt_engine rt).
Proof.
  destruct rt as [e ti to tp ri ro rp rb]. unfold flush_poll. cbn.
  destruct (flush_thread BkGo e) as [e'|] eqn:He; [|done]. cbn.
  intros [= <-] [Hrx Hbrx Hroom Htask Hfl] Hnp Hg Hdet.
  destruct (flush_thread_frame _ _ _ He) as ([= Hi _ _ _ _]&Hc&Hs'&Hb&fl&bk&Hf&Hf'&Hbk).
  unfold status_of, batcher_of in *. cbn in *. destruct (Hfl _ Hf) as (Hlast&Hs&Hrb). subst rb.
  split; [split; cbn; unfold status_of, batcher_of; cbn; rewrite ?Hc, ?Hs'; try done; rewrite Hf'; by intros ? [= <-]|].
  split.
  { unfold no_panic, batcher_of. cbn. rewrite Hf'. intros ? msg [= <-]. cbn. intros ->.
    destruct (fl_task fl) as [q|ep|r|m]; cbn in Hbk; try done. by destruct (flush_transaction q _) as [[]?]. }
  split; [|done]. unfold pipe_graph, status_of, in_flight, held, batcher_of in *. cbn in *.
  rewrite Hs', Hs, Hf', Hb, Hc, Hi. rewrite Hs, Hf in Hg.
  set (tl := mb_buffer (batcher e) ++ _) in *. destruct fl as [ops0 bk0 last]. cbn in *.
  destruct bk0 as [q|ep|r|msg]; cbn in Hbk, Hg; [|injection Hbk as <- Hfs|done..].
  - destruct Hg as (co&->&Hcp&Hrun). apply detached_run_app in Hdet as [_ Hdet].
    specialize (Hdet _ Hrun). apply detached_run_app in Hdet as [Hdet _].
    pose proof (flush_transaction_spec q (mb_fs (batcher e)) Hcp Hdet) as Ht.
    destruct (flush_transaction q (mb_fs (batcher e))) as [[ep|er] fs]; injection Hbk as <- Hfs; cbn; rewrite <-?Hfs.
    + destruct Ht as [Hcp' Hr]. exists (co ++ q). unfold mb_coupled, mb_abs. rewrite <-Hfs.
      split; [by rewrite <-(assoc_L (++))|]. split; [done|]. by rewrite spec_run_app, Hrun.
    + destruct Ht as (Hn&Hed&Hr). exists co, q, (mb_abs (batcher e)). split; [done|]. split; [done|].
      split; [exists (batcher e); by rewrite <-Hfs|exact Hr].
  - destruct Hg as (co&->&Hcp&Hrun). exists co. unfold mb_coupled, mb_abs, fs_coupled, fs_abs in *. rewrite <-Hfs. done.
Qed.

Lemma batcher_poll_pipe sent due (rt rt1 : RT) :
  batcher_poll cfg due rt = Some rt1 → (mb_flight (batcher_of rt) ≠ None → due = false) →
  pipe_ok rt → no_panic rt → pipe_graph sent rt →
  pipe_ok rt1 ∧ no_panic rt1 ∧ pipe_graph sent rt1 ∧ inbound (rt_engine rt1) = inbound (rt_engine rt).
Proof.
  intros Hp Hdue Hok Hnp Hg. unfold batcher_poll in Hp. pose proof Hok as [Hrx Hb Hroom Ht Hfl].
  unfold batcher_of in *.
  destruct (batcher_status (rt_engine rt)) as [|r] eqn:Hs; [|done].
  destruct (rt_batcher_rx rt) as [rx|] eqn:Hrb.
  2:{ simplify_eq. split; [|by destruct rt]. split; cbn; try done. intros fl Hf. destruct (Hfl _ Hf) as (?&?&?). done. }
  destruct rx; [done|]. destruct (mb_flight (batcher (rt_engine rt))) as [fl|] eqn:Hf.
  - rewrite (Hdue ltac:(done)) in Hp. destruct (join_pipe sent rt rt1 Hs Hp Hok Hnp Hg) as (?&?&?&Hn).
    split; [done|]. split; [|done]. unfold no_panic. by rewrite Hn.
  - assert (Hit : ∀ br ev, br ≠ BrShutdown → branch_event br (rt_engine rt) = Some ev →
      let rt1 := set_eng (batcher_branch cfg br (rt_engine rt)) rt in
      pipe_ok rt1 ∧ no_panic rt1 ∧ pipe_graph sent rt1 ∧ inbound (rt_engine rt1) = inbound (rt_engine rt)).
    { intros br ev Hbr Hev. destruct (branch_pipe br ev rt Hs Hbr Hf Hev) as (Hs1&Hi&Hfs&Hin&Hcap&Hfl1).
      set (rt2 := set_eng (batcher_branch cfg br (rt_engine rt)) rt) in *. cbn zeta. split; [|split; [|split; [|done]]].
      - split; [exact Hrx|by change (rt_batcher_rx rt2) with (rt_batcher_rx rt); rewrite Hrb|by rewrite Hcap|
          intros _; by apply Ht|]. intros fl Hfl2. by destruct (Hfl1 _ Hfl2).
      - intros fl msg Hfl2. by destruct (Hfl1 _ Hfl2) as [_ [ops ->]].
      - unfold pipe_graph, status_of, batcher_of in *. rewrite Hs, Hf in Hg. rewrite Hs1, Hi. cbn in Hg.
        assert (He : flight_error (mb_flight (batcher (rt_engine rt2))) = None).
        { destruct (mb_flight (batcher (rt_engine rt2))) as [[o bk l]|]; [|done]. by destruct (Hfl1 _ eq_refl) as [_ [ops [= ->]]]. }
        rewrite He. unfold mb_coupled, mb_abs in *. by rewrite Hfs. }
    destruct (ch_queue (batch_chan (rt_engine rt))) as [|op q] eqn:Hq.
    + destruct due; simplify_eq. by apply (Hit BrTick EvTick).
    + simplify_eq. apply (Hit BrRecv (EvRecv op)); [done|]. cbn. by rewrite Hq.
Qed.

(** A step that leaves the flight and its surroundings. *)
Lemma no_panic_keep (rt rt1 : RT) :
  mb_flight (batcher_of rt1) = mb_flight (batcher_of rt) → no_panic rt → no_panic rt1.
Proof. unfold no_panic. by intros ->. Qed.

Lemma pipe_ok_hold (rt rt1 : RT) :
  hold (rt_engine rt1) = hold (rt_engine rt) → rt_inbound rt1 = rt_inbound rt →
  rt_inbound_rx rt1 = rt_inbound_rx rt → rt_batcher_rx rt1 = rt_batcher_rx rt → pipe_ok rt → pipe_ok rt1.
Proof.
  intros [= Hs _ Hf _ _ Hc] Hi Hr Hb [? ? ? Ht Hfl]. unfold status_of, batcher_of in *.
  split; unfold status_of, batcher_of; rewrite ?Hr, ?Hb, ?Hc, ?Hi, ?Hs, ?Hf; done.
Qed.

Lemma inbound_run_pipe db doc sent rt :
  inbound_run db doc sent rt → detached_run sent graph0 → pipe_ok rt ∧ no_panic rt ∧ pipe_graph sent rt.
Proof.
  induction 1 as [|t due sent rt rt1 _ IH Ht Hm Hdue|origin edit sent rt _ IH|op c sent rt _ IH Hc];
    intros Hdet; [by destruct (pipe_new db doc)|..];
    destruct IH as (Hok&Hnp&Hg); try (by apply (proj1 (detached_run_app _ _ _ Hdet))).
  - assert (Hout : t = TOutbound ∨ t = TPoller →
      pipe_ok rt1 ∧ no_panic rt1 ∧ pipe_graph (sent ++ arrivals (rt_engine rt) (rt_engine rt1)) rt1).
    { intros Hor. destruct (outbound_half_frame t due rt rt1 Ht Hor Hm) as (Hh&Hi&Hr&Hb&Hp).
      split; [by eapply pipe_ok_hold|]. split; [apply (no_panic_keep rt); [by injection Hh|done]|].
      eapply pipe_graph_grow; [exact Hh|exact Hi|by apply arrivals_app|exact Hg]. }
    destruct t; [|clear Hout|clear Hout|by apply Hout; left|by apply Hout; right].
    + destruct (inbound_poll_pipe sent rt rt1 Ht Hok Hg) as (?&?&->&Hb). rewrite app_nil_r.
      split; [done|]. split; [|done]. apply (no_panic_keep rt); [unfold batcher_of; by rewrite Hb|done].
    + destruct (batcher_poll_pipe sent due rt rt1 Ht (Hdue eq_refl) Hok Hnp Hg) as (?&?&?&Hi).
      unfold arrivals. rewrite Hi, drop_ge, app_nil_r by done. done.
    + apply (λ h, proj1 (detached_run_app _ _ _ h)) in Hdet.
      destruct (flush_pipe sent rt rt1 Ht Hok Hnp Hg Hdet) as (?&?&?&Hi).
      unfold arrivals. rewrite Hi, drop_ge, app_nil_r by done. done.
  - subst e1. destruct (local_commit_frame origin edit (rt_engine rt)) as [Hh Hp].
    revert Hh Hp. generalize (local_commit metrics origin edit (rt_engine rt)). intros e1 Hh Hp.
    split; [by eapply (pipe_ok_hold rt)|]. split; [apply (no_panic_keep rt); [by injection Hh|done]|].
    by eapply (pipe_graph_grow sent _ rt); [exact Hh|done|apply arrivals_app; exact Hp|exact Hg].
  - unfold try_send in Hc. destruct (ch_closed _); [done|]. case_bool_decide; simplify_eq.
    split; [by destruct Hok|]. split; [done|]. by eapply (pipe_graph_grow sent _ rt).
Qed.

(** ** Progress *)

(** Nothing is on its way to the graph and no flush is awaited. *)
Definition pipe_idle (rt : RT) : Prop := in_flight rt = [] ∧ mb_flight (batcher_of rt) = None.

Lemma inbound_poll_fuel (rt rt1 : RT) :
  inbound_poll metrics rt = Some rt1 → status_of rt = Running → pipe_ok rt →
  status_of rt1 = Running ∧ pipe_fuel rt1 < pipe_fuel rt.
Proof.
  destruct rt as [e ti to tp ri ro rp rb]. unfold inbound_poll, status_of, pipe_fuel, held, batcher_of. cbn.
  intros Hp Hs [Hrx _ _ Ht _]. cbn in *. subst ri.
  destruct (Ht Hs) as [->|[op ->]]; cbn in *.
  - destruct (ch_queue (inbound e)) as [|op q]; [done|]. simplify_eq. cbn. unfold inbound_take.
    destruct metrics; cbn; (split; [done|]); lia.
  - rewrite Hs in Hp. destruct (send_ready _); simplify_eq. cbn. split; [done|]. rewrite length_app. cbn. lia.
Qed.

Lemma inbound_poll_idle (rt : RT) :
  inbound_poll metrics rt = None → status_of rt = Running → pipe_ok rt →
  ch_queue (batch_chan (rt_engine rt)) = [] → held rt = [] ∧ ch_queue (inbound (rt_engine rt)) = [].
Proof.
  destruct rt as [e ti to tp ri ro rp rb]. unfold inbound_poll, status_of, held. cbn.
  intros Hp Hs [Hrx _ Hroom Ht _] Hq. cbn in *. subst ri.
  destruct (Ht Hs) as [->|[op ->]]; cbn in *.
  - by destruct (ch_queue (inbound e)).
  - unfold send_ready in Hp. rewrite Hs, Hq, bool_decide_true in Hp by done. done.
Qed.

(** A branch of the loop costs less than what it moves. *)
Lemma branch_fuel br ev (e : E) :
  batcher_status e = Running → mb_flight (batcher e) = None → br ≠ BrShutdown → branch_event br e = Some ev →
  let e1 := batcher_branch cfg br e in
  batcher_status e1 = Running ∧
  5 * length (ch_queue (batch_chan e1)) + 4 * length (mb_buffer (batcher e1)) +
    match mb_flight (batcher e1) with Some fl => 1 + thread_fuel (fl_task fl) | None => 0 end +
    match ev with EvRecv _ => 1 | _ => match mb_buffer (batcher e) with [] => 0 | _ => 1 end end ≤
  5 * length (ch_queue (batch_chan e)) + 4 * length (mb_buffer (batcher e)) ∧
  inbound e1 = inbound e.
Proof.
  intros Hs Hf Hbr Hev. unfold batcher_branch. rewrite Hs, Hf, Hev. destruct br; [done| |]; cbn in Hev.
  - destruct (ch_queue (batch_chan e)) as [|op q] eqn:Hq; [done|]. simplify_eq/=.
    destruct (_ <? _)%Z; cbn; rewrite ?Hf, ?Hq; cbn; rewrite ?length_app; cbn; [split; [done|]; split; [lia|done]|].
    unfold flush_spawn. cbn. destruct (mb_buffer (batcher e)); cbn; (split; [done|]); (split; [lia|done]).
  - simplify_eq/=. unfold flush_spawn. destruct (mb_buffer (batcher e)) eqn:Hb; cbn; rewrite ?Hf, ?Hb; cbn;
      (split; [done|]); (split; [lia|done]).
Qed.

(** A turn of the batcher with its ticker fired: it has less to do, or it had
    nothing to do, or it awaits a flush that has not returned. *)
Lemma batcher_poll_fuel (rt : RT) :
  status_of rt = Running → pipe_ok rt →
  match batcher_poll cfg (ticking rt) rt with
  | Some rt1 =>
      status_of rt1 = Running →
      pipe_fuel rt1 < pipe_fuel rt ∨ pipe_fuel rt1 ≤ pipe_fuel rt ∧ rt_inbound rt1 = rt_inbound rt ∧
        inbound (rt_engine rt1) = inbound (rt_engine rt) ∧ mb_flight (batcher_of rt1) = None ∧
        mb_buffer (batcher_of rt1) = [] ∧ ch_queue (batch_chan (rt_engine rt)) = [] ∧
        ch_queue (batch_chan (rt_engine rt1)) = []
  | None => ∃ fl, mb_flight (batcher_of rt) = Some fl ∧ 0 < thread_fuel (fl_task fl)
  end.
Proof.
  destruct rt as [e ti to tp ri ro rp rb]. unfold batcher_poll, ticking, status_of, pipe_fuel, held, batcher_of. cbn.
  intros Hs [Hrx Hb _ _ _]. cbn in *. rewrite Hs.
  destruct rb as [[]|]; [done| |intros _; left; cbn; lia].
  destruct (mb_flight (batcher e)) as [fl|] eqn:Hf.
  - destruct (flush_join cfg false e) as [e'|] eqn:He; cbn.
    + destruct (flush_join_frame _ _ _ _ He) as ([= Hi _ _ _ _]&Hc&Hbuf&Hf'&_). intros _. left.
      rewrite Hi, Hc, Hbuf, Hf'. lia.
    + unfold flush_join, batcher_join in He. rewrite Hf in He. exists fl. split; [done|].
      destruct fl as [ops bk l]. cbn in *. destruct bk as [| |[]|]; cbn in *; try done; lia.
  - destruct (ch_queue (batch_chan e)) as [|op q] eqn:Hq; cbn.
    + destruct (branch_fuel BrTick EvTick e Hs Hf ltac:(done) eq_refl) as (Hs1&Hle&Hi). intros _. rewrite Hi.
      rewrite Hq in Hle. destruct (mb_buffer (batcher e)) eqn:Hb0; [right|left; cbn in *; lia]. cbn in *.
      assert (Hz : length (ch_queue (batch_chan (batcher_branch cfg BrTick e))) = 0 ∧
        length (mb_buffer (batcher (batcher_branch cfg BrTick e))) = 0 ∧
        mb_flight (batcher (batcher_branch cfg BrTick e)) = None).
      { destruct (mb_flight (batcher (batcher_branch cfg BrTick e))); [lia|]. split; [lia|]. split; [lia|done]. }
      destruct Hz as (Hz1&Hz2&->). apply length_zero_iff_nil in Hz1, Hz2. rewrite Hz1, Hz2. cbn. split; [lia|done].
    + destruct (branch_fuel BrRecv (EvRecv op) e Hs Hf ltac:(done)) as (Hs1&Hle&Hi); [cbn; by rewrite Hq|].
      intros _. rewrite Hi. left. rewrite Hq in Hle. cbn in *. lia.
Qed.

(** A step of the flush thread. *)
Lemma flush_poll_fuel c (rt rt1 : RT) :
  flush_poll c rt = Some rt1 → status_of rt1 = status_of rt ∧ pipe_fuel rt1 < pipe_fuel rt.
Proof.
  destruct rt as [e ti to tp ri ro rp rb]. unfold flush_poll, status_of, pipe_fuel, held, batcher_of. cbn.
  destruct (flush_thread c e) as [e'|] eqn:He; [|done]. cbn. intros [= <-]. cbn.
  destruct (flush_thread_frame _ _ _ He) as ([= Hi _ _ _ _]&Hc&Hs&Hb&fl&bk&Hf&Hf'&Hbk).
  rewrite Hi, Hc, Hs, Hb, Hf, Hf'. cbn. split; [done|].
  apply blocking_step_fuel in Hbk. lia.
Qed.

Lemma flush_poll_ready c (rt : RT) fl :
  mb_flight (batcher_of rt) = Some fl → 0 < thread_fuel (fl_task fl) → is_Some (flush_poll c rt).
Proof.
  unfold flush_poll, flush_thread, flight_step, batcher_of. intros -> [[bk fs] Hs]%(blocking_step_ready c _ (mb_fs (batcher (rt_engine rt)))).
  rewrite Hs. by eexists.
Qed.

Lemma idle_fuel (rt : RT) :
  (pipe_fuel rt = 0 → pipe_idle rt) ∧ (pipe_idle rt → pipe_fuel rt ≤ 1).
Proof.
  unfold pipe_fuel, pipe_idle, in_flight. split.
  - intros Hz. destruct (mb_flight (batcher_of rt)); [lia|]. split; [|done].
    apply length_zero_iff_nil. rewrite !length_app. cbn. lia.
  - intros [Hi ->]. apply app_nil in Hi as (_&(->&(->&(->&->)%app_nil)%app_nil)%app_nil). cbn.
    destruct (rt_batcher_rx rt); lia.
Qed.

#[local] Arguments pipe_fuel : simpl never.
#[local] Arguments flush_poll : simpl never.

Lemma pipe_round_progress sent (rt : RT) :
  status_of rt = Running → pipe_ok rt → pipe_graph sent rt →
  status_of (pipe_round rt) = Running →
  pipe_fuel (pipe_round rt) < pipe_fuel rt ∨ pipe_idle (pipe_round rt).
Proof.
  intros Hs Hok Hg. unfold pipe_round.
  assert (Hth : ∀ r : RT, let r1 := default r (flush_poll BkGo r) in
    status_of r1 = status_of r ∧ pipe_fuel r1 ≤ pipe_fuel r).
  { intros r. cbn zeta. destruct (flush_poll BkGo r) as [r1|] eqn:Hf; [|done].
    destruct (flush_poll_fuel _ _ _ Hf). cbn. split; [done|lia]. }
  assert (Hbt : ∀ r : RT, status_of r = Running → pipe_ok r →
    let r2 := default r (batcher_poll cfg (ticking r) r) in
    let r3 := default r2 (flush_poll BkGo r2) in
    status_of r3 = Running → pipe_fuel r3 < pipe_fuel r ∨ pipe_fuel r3 ≤ pipe_fuel r ∧
      (inbound_poll metrics r = None → pipe_idle r3)).
  { intros r Hsr Hokr. cbn zeta. pose proof (batcher_poll_fuel r Hsr Hokr) as Hb.
    destruct (batcher_poll cfg (ticking r) r) as [r2|]; cbn.
    - destruct (Hth r2) as [Hs2 Hf2]. rewrite Hs2. intros Hrun. destruct (Hb Hrun) as [?|(Hle&Hi&Hin&Hfl&Hbuf&Hq&Hq')];
        [left; lia|right]. split; [lia|]. intros Hp.
      assert (Hn : flush_poll BkGo r2 = None).
      { unfold flush_poll, flush_thread, flight_step. unfold batcher_of in Hfl. by rewrite Hfl. }
      assert (Hh : held r2 = held r) by (unfold held; by rewrite Hi).
      rewrite Hn. cbn. split; [|done]. unfold in_flight. rewrite Hfl, Hbuf, Hq', Hh, Hin. cbn.
      by destruct (inbound_poll_idle _ Hp Hsr Hokr Hq) as [-> ->].
    - destruct Hb as (fl&Hfl&Hlt). destruct (flush_poll_ready BkGo r fl Hfl Hlt) as [r3 Hr3]. rewrite Hr3. cbn.
      intros _. left. by apply flush_poll_fuel in Hr3 as [_ ?]. }
  destruct (inbound_poll metrics rt) as [rt1|] eqn:Hp; cbn.
  - destruct (inbound_poll_fuel _ _ Hp Hs Hok) as [Hs1 Hlt].
    destruct (inbound_poll_pipe _ _ _ Hp Hok Hg) as (Hok1&_).
    intros Hs3. left. destruct (Hbt rt1 Hs1 Hok1 Hs3) as [?|[? _]]; lia.
  - intros Hs3. destruct (Hbt rt Hs Hok Hs3) as [?|[_ Hi]]; [by left|right]. by apply Hi.
Qed.

Lemma pipe_round_run db doc sent (rt : RT) :
  inbound_run db doc sent rt → detached_run sent graph0 → inbound_run db doc sent (pipe_round rt).
Proof.
  intros Hrun Hdet. unfold pipe_round.
  assert (Hstep : ∀ t due (r r1 : RT), inbound_run db doc sent r → task_poll cfg metrics health t BkGo due r = Some r1 →
    t ≠ TOutbound → (t = TBatcher → mb_flight (batcher_of r) ≠ None → due = false) →
    arrivals (rt_engine r) (rt_engine r1) = [] → inbound_run db doc sent r1).
  { intros t due r r1 Hr Ht Hne Hdue Ha. pose proof (ir_task db doc t due sent r r1 Hr Ht) as Hn.
    rewrite Ha, app_nil_r in Hn. by apply Hn. }
  assert (H1' : inbound_run db doc sent (default rt (inbound_poll metrics rt))).
  { destruct (inbound_poll metrics rt) as [rt1|] eqn:Hp; [|done]. cbn.
    destruct (inbound_run_pipe _ _ _ _ Hrun Hdet) as (Hok&_&Hg).
    destruct (inbound_poll_pipe _ _ _ Hp Hok Hg) as (_&_&Ha&_). by apply (Hstep TInbound false rt). }
  set (rt1 := default rt (inbound_poll metrics rt)) in *. clearbody rt1.
  assert (H2' : inbound_run db doc sent (default rt1 (batcher_poll cfg (ticking rt1) rt1))).
  { destruct (batcher_poll cfg (ticking rt1) rt1) as [rt2|] eqn:Hp; [|done]. cbn.
    assert (Hdue : mb_flight (batcher_of rt1) ≠ None → ticking rt1 = false) by (unfold ticking; by destruct (mb_flight _)).
    destruct (inbound_run_pipe _ _ _ _ H1' Hdet) as (Hok&Hnp&Hg).
    destruct (batcher_poll_pipe _ _ _ _ Hp Hdue Hok Hnp Hg) as (_&_&_&Hi).
    apply (Hstep TBatcher (ticking rt1) rt1); try done. unfold arrivals. by rewrite Hi, drop_ge. }
  set (rt2 := default rt1 (batcher_poll cfg (ticking rt1) rt1)) in *. clearbody rt2.
  destruct (flush_poll BkGo rt2) as [rt3|] eqn:Hp; [|done]. cbn.
  destruct (inbound_run_pipe _ _ _ _ H2' Hdet) as (Hok&Hnp&Hg).
  destruct (flush_pipe _ _ _ Hp Hok Hnp Hg Hdet) as (_&_&_&Hi).
  apply (Hstep TFlush false rt2); try done. unfold arrivals. by rewrite Hi, drop_ge.
Qed.

Lemma pipe_rounds_run db doc sent n (rt : RT) :
  inbound_run db doc sent rt → detached_run sent graph0 →
  inbound_run db doc sent (Nat.iter n pipe_round rt).
Proof. intros Hrun Hdet. induction n as [|n IH]; [done|]. by apply pipe_round_run. Qed.

(** A batcher that has stopped stays so. *)
Lemma pipe_round_status (rt : RT) : status_of (pipe_round rt) = Running → status_of rt = Running.
Proof.
  assert (Hb : ∀ rt : RT, status_of (default rt (batcher_poll cfg (ticking rt) rt)) = Running → status_of rt = Running).
  { intros rt0. unfold batcher_poll, status_of. by destruct (batcher_status (rt_engine rt0)) eqn:Hr; [|cbn; rewrite Hr]. }
  assert (Hf : ∀ rt : RT, status_of (default rt (flush_poll BkGo rt)) = status_of rt).
  { intros rt0. destruct (flush_poll BkGo rt0) eqn:Hp; [|done]. by apply flush_poll_fuel in Hp as [? _]. }
  unfold pipe_round. rewrite Hf. intros Hs%Hb. destruct (inbound_poll metrics rt) as [rt1|] eqn:Hp; [|done].
  cbn in Hs. rewrite <-Hs. unfold inbound_poll, status_of in *. repeat case_match; simplify_eq; cbn; try done.
  unfold inbound_take. by destruct metrics.
Qed.

Lemma pipe_rounds_status n (rt : RT) : status_of (Nat.iter n pipe_round rt) = Running → status_of rt = Running.
Proof. induction n as [|n IH]; [done|]. cbn. intros ?%pipe_round_status. auto. Qed.

Lemma pipe_rounds_drain db doc sent n (rt : RT) :
  inbound_run db doc sent rt → detached_run sent graph0 → pipe_fuel rt ≤ n ∨ pipe_idle rt →
  status_of (Nat.iter n pipe_round rt) = Running → pipe_idle (Nat.iter n pipe_round rt).
Proof.
  intros Hrun Hdet. revert rt Hrun. induction n as [|n IH]; intros rt Hrun Hf Hs.
  { destruct Hf; [|done]. apply idle_fuel. cbn. lia. }
  rewrite Nat.iter_succ_r in *. pose proof (pipe_rounds_status _ _ Hs) as Hs1.
  apply IH; [by apply pipe_round_run| |done].
  destruct (inbound_run_pipe _ _ _ _ Hrun Hdet) as (Hok&_&Hg).
  destruct (pipe_round_progress sent rt (pipe_round_status _ Hs1) Hok Hg Hs1) as [Hlt|?]; [|by right].
  destruct Hf as [Hf|Hf]; [left; lia|right]. apply idle_fuel.
  pose proof (proj2 (idle_fuel rt) Hf). lia.
Qed.

(** ** The path of an operation *)

(** C1: the inbound path from the subscriber's channel to the graph delivers
    every operation, once and in order.  The runs: the tasks interleave in any
    order with each other, with the threads of the flushes, with commits of the
    document and with operations sent to the engine; the flush threads neither
    panic nor outlive the flush timeout; nobody else writes the graph; and the
    outbound worker leaves the id maps alone.  The history is detached: when the
    document deletes a vertex, its edges are gone already (finding: without this
    a stale edge binding swallows a later edge).  While the batcher runs, the
    operations sent are those committed followed by those on their way (the flush
    under way, the buffer, the batch channel, the worker's hand, the inbound
    channel), and the committed graph is the one the keyed-graph specification
    gives for the former.  Left to themselves the two tasks and the flush threads
    commit all of them within [pipe_fuel] turns each, unless a flush fails; then
    the committed graph is that of the operations before the failed batch, and
    the error is the specification's refusal of the batch or one of the
    database. *)
Theorem inbound_pipeline_delivers (db : D) (doc : L) (sent : list LoroOp) (rt : RT)
  (Hrun : inbound_run db doc sent rt) (Hdet : detached_run sent graph0) :
  pipe_graph sent rt ∧
  let rt' := Nat.iter (pipe_fuel rt) pipe_round rt in
  inbound_run db doc sent rt' ∧
  match status_of rt' with
  | Running => in_flight rt' = [] ∧ mb_flight (batcher_of rt') = None ∧
      spec_run sent graph0 = Ok (mb_abs (batcher_of rt'))
  | Finished _ => pipe_graph sent rt'
  end.
Proof.
  split; [by eapply inbound_run_pipe|]. intros rt'.
  assert (Hrun' : inbound_run db doc sent rt') by by apply pipe_rounds_run.
  split; [done|]. destruct (inbound_run_pipe _ _ _ _ Hrun' Hdet) as (_&_&Hg).
  destruct (status_of rt') as [|r] eqn:Hs; [|done].
  assert (Hn : pipe_idle rt') by (eapply pipe_rounds_drain; [exact Hrun|exact Hdet|by left|exact Hs]).
  destruct Hn as [Hn Hf]. split; [done|]. split; [done|]. unfold pipe_graph in Hg. rewrite Hs, Hf in Hg.
  destruct Hg as (co&->&_&Hr). by rewrite Hn, app_nil_r.
Qed.
End pipeline.

(** ** A concrete run *)

(** Three operations sent before any task has run, in batches of two. *)
Definition pipe_ops : list LoroOp := [UpsertNode "a" [] ∅; UpsertNode "b" [] ∅; UpsertEdge "a" "b" "KNOWS" ∅].
Definition send_op (op : LoroOp) (rt : Runtime MemDb MemLoro) : Runtime MemDb MemLoro :=
  let e := rt_engine rt in
  set_eng (set_inbound (mkChan (ch_queue (inbound e) ++ [op]) (ch_capacity (inbound e)) false)
             (inbound_event_count e) e) rt.

Definition pipe_cfg : BatcherConfig := mkBatcherConfig 2 100 true true.

Lemma pipe_ops_sent :
  inbound_run pipe_cfg true true memdb_new MemLoro_new pipe_ops (foldl (flip send_op) rt0 pipe_ops).
Proof.
  apply (ir_send _ _ _ _ _ (UpsertEdge "a" "b" "KNOWS" ∅) _ [UpsertNode "a" [] ∅; UpsertNode "b" [] ∅]); [|reflexivity].
  apply (ir_send _ _ _ _ _ (UpsertNode "b" [] ∅) _ [UpsertNode "a" [] ∅]); [|reflexivity].
  apply (ir_send _ _ _ _ _ (UpsertNode "a" [] ∅) _ []); [|reflexivity]. apply ir_new.
Qed.

Lemma inbound_pipeline_delivers_witness :
  let rt := foldl (flip send_op) rt0 pipe_ops in
  let rt' := Nat.iter (pipe_fuel rt) (pipe_round pipe_cfg true) rt in
  pipe_fuel rt = 22 ∧ status_of rt' = Running ∧ in_flight rt' = [] ∧ mb_flight (batcher_of rt') = None ∧
  spec_run pipe_ops graph0 = Ok (mb_abs (batcher_of rt')).
Proof.
  intros rt rt'.
  destruct (inbound_pipeline_delivers pipe_cfg true true memdb_new MemLoro_new pipe_ops rt pipe_ops_sent)
    as [_ [_ Hd]]; [apply (bool_decide_unpack _); vm_compute; exact I|].
  assert (Hs : status_of rt' = Running) by (vm_compute; reflexivity).
  split; [vm_compute; reflexivity|]. split; [exact Hs|]. fold rt' in Hd. rewrite Hs in Hd. exact Hd.
Defined.
