(* ===== verification/Outbound.v ===== *)
(** * The outbound path end to end ([src/bridge/sync_engine.rs])

    From the log of grafeo to the document: the poller's cycles, the outbound
    channel and the worker, as the tasks of [Lifecycle.v] run them beside the
    inbound half, beside commits of the document and beside other writers of the
    database.  The dual of [Pipeline.v]: it follows an event, not a component. *)

From S2P Require Import Prelude Types Values BridgeMaps GrafeoTx GraphSpec MemGraph Batcher BatcherSpec EdgeKeys Translate Queue SyncEngine EngineSpec Lifecycle.

(** One answer of [changes_between]: the bounds and the events. *)
Definition Window : Type := EpochId * EpochId * list ChangeEvent.

(** What was done to the document: the worker's translation of an event through
    the id maps of that moment, its commit, and commits of everybody else. *)
Inductive DocAct (L : Type) : Type :=
| ActApply (maps : BridgeMaps) (event : ChangeEvent)
| ActBridgeCommit
| ActLocal (origin : string) (edit : L → L).
Arguments ActApply {L}.
Arguments ActBridgeCommit {L}.
Arguments ActLocal {L}.

(** The epochs under which the bridge's transactions committed, the answers of the
    log, what was done to the document, and the events the poller let pass while
    their epoch was committed by the bridge and not yet recorded. *)
Record History (L : Type) : Type := mkHistory {
  hi_bridge : gset EpochId;
  hi_windows : list Window;
  hi_acts : list (DocAct L);
  hi_leaks : list ChangeEvent
}.
Arguments mkHistory {L}.
Arguments hi_bridge {L}.
Arguments hi_windows {L}.
Arguments hi_acts {L}.
Arguments hi_leaks {L}.

(** The events grafeo reported, in order. *)
Definition reported {L} (h : History L) : list ChangeEvent := mjoin (snd <$> hi_windows h).

(** The events the worker translated, in order. *)
Definition applied {L} (h : History L) : list ChangeEvent :=
  omap (λ a, match a with ActApply _ ev => Some ev | _ => None end) (hi_acts h).

(** Each cycle starts where the one before it ended. *)
Fixpoint windows_chain (start : EpochId) (ws : list Window) (stop : EpochId) : Prop :=
  match ws with
  | [] => start = stop
  | (a, b, _) :: ws => a = start ∧ (a < b)%Z ∧ windows_chain b ws stop
  end.

Section outbound.
  Context {D S L : Type} `{GrafeoDBLaws D S, !GrafeoCdc S, !GrafeoCdcLaws S, !LoroDoc L, HashOrder}.
  Context (cfg : BatcherConfig) (metrics health : bool).
  Notation E := (SyncEngine D L).
  Notation RT := (Runtime D L).

Definition act_doc (doc : L) (a : DocAct L) : L :=
  match a with
  | ActApply m ev => os_doc (apply_change_event_to_loro ev (mkOutState doc m)).2
  | ActBridgeCommit => (loro_commit (loro_set_next_commit_origin ORIGIN_GRAFEO_BRIDGE doc)).2
  | ActLocal origin edit => (loro_commit (loro_set_next_commit_origin origin (edit doc))).2
  end.

(** What a poll of a task adds to the history. *)
Definition task_windows (t : Task) (rt rt1 : RT) : list Window :=
  match t, poll_pending (rt_engine rt), poll_pending (rt_engine rt1) with
  | TPoller, None, Some (cur, evs) => [(last_epoch (rt_engine rt), cur, evs)]
  | _, _, _ => []
  end.

Definition task_acts (t : Task) (rt : RT) : list (DocAct L) :=
  let e := rt_engine rt in
  match t, rt_outbound rt, ch_queue (outbound e) with
  | TOutbound, OutCommit _, _ => [ActBridgeCommit]
  | TOutbound, OutSelect, (epoch, ev) :: _ =>
      if bool_decide (epoch ∈ bridge_epochs e) then [] else [ActApply (maps e) ev]
  | _, _, _ => []
  end.

Definition task_commits (t : Task) (c : BkChoice) (rt : RT) : list EpochId :=
  match t with TFlush => flush_commit c (rt_engine rt) | _ => [] end.

Definition task_leaks (t : Task) (rt : RT) : list ChangeEvent :=
  match t, rt_poller rt with TPoller, PollRun => leaked (rt_engine rt) | _, _ => [] end.

Definition record (cs : list EpochId) (ws : list Window) (acts : list (DocAct L)) (lk : list ChangeEvent)
    (h : History L) : History L :=
  mkHistory (hi_bridge h ∪ list_to_set cs) (hi_windows h ++ ws) (hi_acts h ++ acts) (hi_leaks h ++ lk).

Definition task_record (t : Task) (c : BkChoice) (rt rt1 : RT) : History L → History L :=
  record (task_commits t c rt) (task_windows t rt rt1) (task_acts t rt) (task_leaks t rt).

(** A running engine beside commits of the document, later commits of others to
    grafeo, the threads of flushes that outlived their timeout and operations sent
    to it. *)
Inductive outbound_run (db : D) (doc : L) : History L → RT → Prop :=
| or_new : outbound_run db doc (mkHistory ∅ [] [] []) (spawn_all (SyncEngine_new db doc))
| or_task t c due h rt rt1 :
    outbound_run db doc h rt → task_poll cfg metrics health t c due rt = Some rt1 →
    outbound_run db doc (task_record t c rt rt1 h) rt1
| or_commit origin edit h rt :
    outbound_run db doc h rt →
    outbound_run db doc (record [] [] [ActLocal origin edit] [] h)
      (set_eng (local_commit metrics origin edit (rt_engine rt)) rt)
| or_write d h rt :
    outbound_run db doc h rt → (current_epoch (grafeo_db (rt_engine rt)) < current_epoch d)%Z →
    outbound_run db doc h (set_eng (set_db d (rt_engine rt)) rt)
| or_orphan i c e1 h rt :
    outbound_run db doc h rt → orphan_thread i c (rt_engine rt) = Some e1 →
    outbound_run db doc (record (orphan_commit i c (rt_engine rt)) [] [] [] h) (set_eng e1 rt)
| or_send op c h rt :
    outbound_run db doc h rt → try_send (inbound (rt_engine rt)) op = Ok c →
    outbound_run db doc h (set_eng (set_inbound c (inbound_event_count (rt_engine rt)) (rt_engine rt)) rt).

(** Turns of the poller, its timer at rest, and of the worker. *)
Definition out_round (rt : RT) : RT :=
  let rt1 := default rt (poller_poll metrics false rt) in
  default rt1 (outbound_poll metrics health rt1).

Definition pending_events (e : E) : list ChangeEvent :=
  match poll_pending e with Some (_, evs) => evs | None => [] end.

(** What the two tasks still have to do. *)
Definition out_fuel (rt : RT) : nat :=
  match rt_poller rt with PollSpawned => 1 | _ => 0 end +
  match poll_pending (rt_engine rt) with Some (_, evs) => 1 + 4 * length evs | None => 0 end +
  match poll_sending (rt_engine rt) with Some _ => 3 | None => 0 end +
  2 * length (ch_queue (outbound (rt_engine rt))) +
  match rt_outbound rt with OutCommit _ => 1 | _ => 0 end.

(** ** The invariant *)

Definition out_trace (h : History L) (rt : RT) : Trace D L :=
  mkTraceE (rt_engine rt) (hi_bridge h) (applied h) (hi_leaks h).

Record out_ok (doc : L) (h : History L) (rt : RT) : Prop := {
  oo_inv : trace_inv (out_trace h rt);
  oo_rx : rt_outbound_rx rt = false ∧ rt_poller_rx rt = false;
  oo_live : rt_outbound rt ≠ OutDone ∧ rt_poller rt ≠ PollDone;
  oo_chan : ch_closed (outbound (rt_engine rt)) = false ∧ 0 < ch_capacity (outbound (rt_engine rt));
  oo_start : rt_poller rt = PollSpawned →
    hi_windows h = [] ∧ poll_pending (rt_engine rt) = None ∧ poll_sending (rt_engine rt) = None;
  oo_chain : rt_poller rt ≠ PollSpawned → ∃ start, windows_chain start (hi_windows h)
    (match poll_pending (rt_engine rt) with Some (cur, _) => cur | None => last_epoch (rt_engine rt) end);
  oo_asked : Forall (λ '(a, b, evs), ∃ d, changes_between (session_with_cdc d true) a b = Ok evs ∧
    current_epoch d = b) (hi_windows h);
  oo_past : Forall (λ ev, (ev_epoch ev ≤ current_epoch (grafeo_db (rt_engine rt)))%Z) (reported h);
  oo_delivers : foreign (hi_bridge h) (reported h) =
    foreign (hi_bridge h) (applied h ++ outbound_events (rt_engine rt) ++ pending_events (rt_engine rt));
  oo_doc : loro_doc (rt_engine rt) = foldl act_doc doc (hi_acts h)
}.

(** ** Steps that leave the outbound half alone *)

Definition side (e : E) := (poll_pending e, poll_sending e, last_epoch e, outbound e, loro_doc e).
Definition half (rt : RT) := (rt_outbound rt, rt_poller rt, rt_outbound_rx rt, rt_poller_rx rt).

Lemma pending_past (e : E) br ap lk :
  trace_inv (mkTraceE e br ap lk) →
  Forall (λ ev, (ev_epoch ev ≤ current_epoch (grafeo_db e))%Z) (ap ++ outbound_events e ++ pending_events e).
Proof.
  intros [_ _ _ _ Hp _ Hpa _ _]. cbn in Hp, Hpa. unfold pending_events, outbound_events.
  rewrite (assoc_L (++)). apply Forall_app. split; [by rewrite <-?(assoc_L (++)) in *|].
  destruct (poll_pending e) as [[c evs]|]; [|done].
  destruct (Hp _ _ eq_refl) as [? Hf]. eapply Forall_impl; [exact Hf|]. cbn. lia.
Qed.

Lemma no_commits (br : gset EpochId) : br ∪ list_to_set [] = br.
Proof. set_solver. Qed.

Lemma record_nil h : record [] [] [] [] h = h.
Proof. unfold record. rewrite !app_nil_r, no_commits. by destruct h. Qed.

Lemma out_ok_quiet doc cs h (rt rt1 : RT) :
  let e := rt_engine rt in let e1 := rt_engine rt1 in
  out_ok doc h rt → side e1 = side e → half rt1 = half rt →
  trace_inv (mkTraceE e1 (hi_bridge h ∪ list_to_set cs) (applied h) (hi_leaks h)) →
  (current_epoch (grafeo_db e) ≤ current_epoch (grafeo_db e1))%Z →
  (∀ ep, ep ∈ cs → (current_epoch (grafeo_db e) < ep)%Z) →
  out_ok doc (record cs [] [] [] h) rt1.
Proof.
  intros e e1 [Hinv Hrx Hlive Hch Hst Hcn Has Hpa Hde Hdo] Hside Hhalf Hinv1 Hcur Hbr.
  injection Hside as Hpp Hps Hl Ho Hd. injection Hhalf as Hto Htp Hro Hrp.
  assert (Hf : ∀ evs, Forall (λ ev, (ev_epoch ev ≤ current_epoch (grafeo_db e))%Z) evs →
    foreign (hi_bridge h ∪ list_to_set cs) evs = foreign (hi_bridge h) evs).
  { intros evs. apply foreign_stable; [set_solver|].
    intros ep [?|Hep%elem_of_list_to_set]%elem_of_union; [by left|right; by apply Hbr]. }
  assert (Hpe : pending_events e1 = pending_events e) by (unfold pending_events; by rewrite Hpp).
  assert (Hoe : outbound_events e1 = outbound_events e) by (unfold outbound_events, sending_event; by rewrite Hps, Ho).
  subst e e1. split; unfold record, out_trace, reported, applied in *; cbn in *;
    rewrite ?app_nil_r, ?Hto, ?Htp, ?Hro, ?Hrp, ?Hpp, ?Hps, ?Hl, ?Ho, ?Hd, ?Hpe, ?Hoe; try done.
  - eapply Forall_impl; [exact Hpa|]. cbn. lia.
  - rewrite (Hf _ Hpa), (Hf _ (pending_past _ _ _ _ Hinv)). exact Hde.
Qed.

(** The same, with no commit of the bridge in between. *)
Lemma out_ok_still doc h (rt rt1 : RT) :
  out_ok doc h rt → side (rt_engine rt1) = side (rt_engine rt) → half rt1 = half rt →
  core (rt_engine rt1) = core (rt_engine rt) → out_ok doc h rt1.
Proof.
  intros Hok Hs Hh Hc. rewrite <-(record_nil h). pose proof Hc as [= Hcur _ _ _ _ _ _].
  apply (out_ok_quiet doc [] h rt); try done; [|by rewrite Hcur|by intros ? ?%not_elem_of_nil].
  rewrite no_commits. apply (trace_inv_core (rt_engine rt)); [done|apply Hok].
Qed.

Lemma thread_effect_epochs c bk bk' (fs fs' : FlushState D) :
  thread_effect c bk bk' fs fs' →
  (current_epoch (fs_db fs) ≤ current_epoch (fs_db fs'))%Z ∧
  ∀ ep, ep ∈ thread_commit c bk fs → (current_epoch (fs_db fs) < ep)%Z.
Proof.
  destruct 1 as [-> _ -> _ _|? _ -> _ _|ep -> _ -> _ _]; (split; [lia|]); intros x.
  - by intros ?%not_elem_of_nil.
  - by intros ->%list_elem_of_singleton.
  - by intros ?%not_elem_of_nil.
Qed.

(** Polls of the inbound half. *)
Lemma flush_poll_ok doc h c (rt rt1 : RT) :
  flush_poll c rt = Some rt1 → out_ok doc h rt →
  out_ok doc (record (flush_commit c (rt_engine rt)) [] [] [] h) rt1.
Proof.
  unfold flush_poll. destruct (flush_thread c (rt_engine rt)) as [e'|] eqn:He; [|done]. intros [= <-] Hok.
  destruct (flush_thread_effect _ _ _ He) as (l1&bk&bk'&l2&_&_&Hf&Hc).
  destruct (thread_effect_epochs _ _ _ _ _ Hf) as [Hle Hlt].
  destruct (flush_thread_frame _ _ _ He) as ([= _ Ho Hp Hs Hl Hd]&_).
  apply (out_ok_quiet doc _ h rt); cbn; try done; [unfold side; by rewrite Ho, Hp, Hs, Hl, Hd| |by rewrite Hc].
  apply (flush_thread_inv c (rt_engine rt)); [done|apply Hok].
Qed.

Lemma orphan_ok doc h i c e1 (rt : RT) :
  orphan_thread i c (rt_engine rt) = Some e1 → out_ok doc h rt →
  out_ok doc (record (orphan_commit i c (rt_engine rt)) [] [] [] h) (set_eng e1 rt).
Proof.
  intros He Hok. destruct (orphan_thread_effect _ _ _ _ He) as (l1&bk&bk'&l2&_&_&Hf&Hc).
  destruct (thread_effect_epochs _ _ _ _ _ Hf) as [Hle Hlt].
  apply (out_ok_quiet doc _ h rt); cbn; try done; [| |by rewrite Hc].
  - unfold orphan_thread in He. by destruct (background_step _ _ _); simplify_eq/=.
  - apply (orphan_thread_inv i c (rt_engine rt)); [done|apply Hok].
Qed.

Lemma inbound_half_ok doc h t c due (rt rt1 : RT) :
  task_poll cfg metrics health t c due rt = Some rt1 → t = TInbound ∨ t = TBatcher →
  out_ok doc h rt → out_ok doc h rt1.
Proof.
  intros Ht Hor Hok.
  assert (Hst : side (rt_engine rt1) = side (rt_engine rt) ∧ half rt1 = half rt ∧ core (rt_engine rt1) = core (rt_engine rt)).
  { clear Hok. destruct Hor as [->| ->]; cbn in Ht; destruct rt as [e ti to tp ri ro rp rb].
    - unfold inbound_poll in Ht. cbn in Ht. repeat case_match; simplify_eq; cbn; try done; unfold inbound_take; by destruct metrics.
    - unfold batcher_poll in Ht. cbn in Ht. destruct (batcher_status e) eqn:Hs; [|done].
      destruct rb as [rx|]; [|by simplify_eq].
      assert (Hbr : ∀ br, side (batcher_branch cfg br e) = side e ∧ core (batcher_branch cfg br e) = core e).
      { intros br. split; [|apply batcher_branch_core]. destruct (batcher_branch_frame cfg br e) as ([= _ Ho Hp Hps Hl Hd]&_).
        unfold side. by rewrite Ho, Hp, Hps, Hl, Hd. }
      destruct (mb_flight (batcher e)) eqn:Hf.
      + destruct (flush_join cfg due e) as [e'|] eqn:He; [|done]. injection Ht as <-. cbn.
        destruct (flush_join_frame _ _ _ _ He) as ([= _ Ho Hp Hps Hl Hd]&_).
        split; [unfold side; by rewrite Ho, Hp, Hps, Hl, Hd|]. split; [done|by eapply flush_join_core].
      + repeat case_match; simplify_eq; cbn; naive_solver. }
  destruct Hst as (?&?&?). by apply (out_ok_still doc h rt rt1 Hok).
Qed.

(** ** Commits of the document *)

Lemma subscriber_doc ev (e : E) : loro_doc (subscriber_handler metrics ev e) = loro_doc e.
Proof.
  unfold subscriber_handler. destruct (is_echo_origin _); [done|].
  generalize (translate_diff_event ev). intros ops. revert e.
  induction ops as [|op ops IH]; intros e; cbn; [done|]. destruct (try_send _ _); [by rewrite IH|done].
Qed.

Lemma commit_doc_doc (e : E) : loro_doc (commit_doc metrics e) = (loro_commit (loro_doc e)).2.
Proof.
  unfold commit_doc. destruct (loro_commit _) as [evs doc]. cbn.
  change doc with (loro_doc (set_doc doc e)) at 2. generalize (set_doc doc e). clear e.
  induction evs as [|ev evs IH]; intros e; [done|]. cbn. by rewrite IH, subscriber_doc.
Qed.

(** A commit of the document, the worker's own or somebody else's: [a] is what
    it did to the document before. *)
Lemma out_ok_commit doc h a to1 (d1 : L) (rt : RT) :
  let e1 := commit_doc metrics (set_doc d1 (rt_engine rt)) in
  omap (λ a, match a with ActApply _ ev => Some ev | _ => None end) [a] = [] →
  act_doc (loro_doc (rt_engine rt)) a = (loro_commit d1).2 → to1 ≠ OutDone →
  out_ok doc h rt → out_ok doc (record [] [] [a] [] h) (set_outb to1 (set_eng e1 rt)).
Proof.
  intros e1 Ha Hd Hto Hok.
  pose proof (commit_doc_core metrics (set_doc d1 (rt_engine rt))) as Hcore.
  destruct (commit_doc_frame metrics (set_doc d1 (rt_engine rt))) as [Hfr _].
  pose proof (commit_doc_doc (set_doc d1 (rt_engine rt))) as Hdoc. fold e1 in Hcore, Hfr, Hdoc.
  change (core _) with (core (rt_engine rt)) in Hcore at 2. change (frame _) with (frame (rt_engine rt)) in Hfr at 2.
  injection Hfr as _ _ _ _ Ho Hp Hps Hl _.
  destruct Hok as [Hinv Hrx Hlive Hch Hst Hcn Has Hpa Hde Hdo].
  assert (Hpe : pending_events e1 = pending_events (rt_engine rt)) by (unfold pending_events; by rewrite Hp).
  assert (Hoe : outbound_events e1 = outbound_events (rt_engine rt)) by (unfold outbound_events, sending_event; by rewrite Hps, Ho).
  assert (Hap : omap (λ a, match a with ActApply _ ev => Some ev | _ => None end) (hi_acts h ++ [a]) = applied h).
  { by rewrite omap_app, Ha, app_nil_r. }
  pose proof Hcore as [= Hcur _ _ _ _ _ _].
  split; unfold record, out_trace, applied, reported in *;
    cbn [rt_engine rt_outbound rt_poller rt_outbound_rx rt_poller_rx set_outb set_eng hi_bridge hi_windows hi_acts hi_leaks];
    rewrite ?app_nil_r, ?no_commits, ?Ho, ?Hp, ?Hps, ?Hl, ?Hpe, ?Hoe, ?Hap, ?Hcur; try done.
  - by apply (trace_inv_core (rt_engine rt)).
  - split; [done|apply Hlive].
  - by rewrite Hdoc, foldl_app, <-Hdo.
Qed.

(** ** The worker *)

(** A message whose epoch is not recorded is translated, one whose epoch is
    drops out. *)
Lemma outbound_apply_take ep ev q (e : E) :
  ch_queue (outbound e) = (ep, ev) :: q →
  let '(p, e1) := outbound_apply metrics e in
  loro_doc e1 = (if bool_decide (ep ∈ bridge_epochs e) then loro_doc e
                 else act_doc (loro_doc e) (ActApply (maps e) ev)) ∧
  outbound e1 = mkChan q (ch_capacity (outbound e)) (ch_closed (outbound e)) ∧
  poll_pending e1 = poll_pending e ∧ poll_sending e1 = poll_sending e ∧ last_epoch e1 = last_epoch e ∧
  current_epoch (grafeo_db e1) = current_epoch (grafeo_db e).
Proof.
  intros Hq. unfold outbound_apply. rewrite Hq. cbn. change (bridge_epochs (set_outbound _ e)) with (bridge_epochs e).
  case_bool_decide; [done|]. cbn. change (fs_maps (mb_fs (batcher e))) with (maps e).
  destruct (apply_change_event_to_loro _ _) as [[]?]; cbn; naive_solver.
Qed.

Lemma worker_take_ok doc h ep ev q (rt : RT) :
  rt_outbound rt = OutSelect → ch_queue (outbound (rt_engine rt)) = (ep, ev) :: q → out_ok doc h rt →
  let '(p, e1) := outbound_apply metrics (rt_engine rt) in
  out_ok doc (record [] [] (task_acts TOutbound rt) [] h)
    (set_outb (match p with Some payload => OutCommit payload | None => OutSelect end) (set_eng e1 rt)).
Proof.
  intros Hto Hq [Hinv Hrx Hlive Hch Hst Hcn Has Hpa Hde Hdo].
  pose proof (outbound_apply_inv metrics _ _ _ _ Hinv) as Hinv1.
  pose proof (ei_msgs _ _ _ _ _ _ _ _ _ _ Hinv) as Hm. cbn in Hm. rewrite Hq in Hm. apply Forall_cons in Hm as [Hm _]. cbn in Hm.
  pose proof (ei_set _ _ _ _ _ _ _ _ _ _ Hinv) as Hset. cbn in Hset.
  pose proof (outbound_apply_take ep ev q (rt_engine rt) Hq) as Hf.
  assert (Hap : applied (record [] [] (task_acts TOutbound rt) [] h) = applied h ++ translated (rt_engine rt)).
  { unfold applied, record. cbn [hi_acts]. rewrite omap_app. unfold task_acts, translated. rewrite Hto, Hq.
    by case_bool_decide. }
  destruct (outbound_apply metrics (rt_engine rt)) as [p e1]. destruct Hf as (Hd&Ho&Hpp&Hps&Hl&Hc).
  assert (Hpe : pending_events e1 = pending_events (rt_engine rt)) by (unfold pending_events; by rewrite Hpp).
  split; unfold out_trace; rewrite ?Hap; unfold record in *;
    cbn [rt_engine rt_outbound rt_poller rt_outbound_rx rt_poller_rx set_outb set_eng hi_bridge hi_windows hi_acts hi_leaks reported];
    rewrite ?app_nil_r, ?no_commits, ?Ho, ?Hpp, ?Hps, ?Hl, ?Hpe, ?Hc; cbn [ch_queue ch_capacity ch_closed]; try done.
  - split; [by destruct p|apply Hlive].
  - etrans; [exact Hde|].
    unfold outbound_events, sending_event, translated. rewrite Hq, Ho, Hps. rewrite fmap_cons. cbn [ch_queue snd].
    case_bool_decide as Hin; [|by rewrite <-!(assoc_L (++))].
    rewrite app_nil_r, !foreign_app. do 3 f_equal. unfold foreign at 1. rewrite filter_cons, decide_False; [done|].
    intros Hn. apply Hn. rewrite <-Hm. by apply Hset.
  - rewrite Hd, foldl_app, <-Hdo. unfold task_acts. rewrite Hto, Hq. by case_bool_decide.
Qed.

Lemma outbound_poll_ok doc h (rt rt1 : RT) :
  outbound_poll metrics health rt = Some rt1 → out_ok doc h rt →
  out_ok doc (record [] [] (task_acts TOutbound rt) [] h) rt1.
Proof.
  intros Hp Hok. unfold outbound_poll in Hp. pose proof (oo_rx _ _ _ Hok) as [Hrx _].
  destruct (rt_outbound rt) as [|p|] eqn:Hto; [rewrite Hrx in Hp| |done].
  - destruct (ch_queue (outbound (rt_engine rt))) as [|[ep ev] q] eqn:Hq; [done|].
    pose proof (worker_take_ok doc h ep ev q rt Hto Hq Hok) as Hw.
    destruct (outbound_apply metrics (rt_engine rt)) as [o e1]. by simplify_eq.
  - simplify_eq. unfold task_acts. rewrite Hto.
    pose proof (out_ok_commit doc h ActBridgeCommit OutSelect
      (loro_set_next_commit_origin ORIGIN_GRAFEO_BRIDGE (loro_doc (rt_engine rt))) rt
      ltac:(done) ltac:(done) ltac:(done) Hok) as Hc.
    revert Hc. unfold outbound_commit. cbv zeta. generalize (commit_doc metrics (set_doc (loro_set_next_commit_origin ORIGIN_GRAFEO_BRIDGE (loro_doc (rt_engine rt))) (rt_engine rt))).
    intros e1 [Hinv Hrx' Hlive Hch Hst Hcn Has Hpa Hde Hdo]. by split.
Qed.

(** ** The poller *)

Lemma windows_chain_snoc start ws a b evs :
  windows_chain start ws a → (a < b)%Z → windows_chain start (ws ++ [(a, b, evs)]) b.
Proof.
  revert start. induction ws as [|[[a' b'] evs'] ws IH]; intros start; cbn; [naive_solver|].
  intros (->&?&?) ?. auto.
Qed.

Lemma poll_start_ok doc h (rt : RT) :
  rt_poller rt = PollSpawned → out_ok doc h rt →
  let e1 := set_poll (current_epoch (grafeo_db (rt_engine rt))) None (rt_engine rt) in
  out_ok doc h (set_poller PollRun (set_eng e1 rt)).
Proof.
  intros Hsp [Hinv Hrx Hlive Hch Hst Hcn Has Hpa Hde Hdo] e1. destruct (Hst Hsp) as (Hw&Hpp&Hps).
  assert (Hpe : pending_events (rt_engine rt) = []) by (unfold pending_events; by rewrite Hpp).
  rewrite Hpe in Hde. split; cbn; try done.
  - unfold out_trace, trace_inv in *. destruct Hinv as [Hl Hs Hu Hb Hp Hm Hpa' Hlk Ho]. cbn in *.
    change (grafeo_db e1) with (grafeo_db (rt_engine rt)) in *. change (bridge_epochs e1) with (bridge_epochs (rt_engine rt)) in *.
    change (unrecorded_set e1) with (unrecorded_set (rt_engine rt)) in *.
    split; try done; [lia|]. intros ep Hep. destruct (Hb ep Hep) as [? [?|[?|?]]]; (split; [lia|]); [by left|by right; left|right; right; lia].
  - split; [apply Hlive|done].
  - intros _. rewrite Hw. by eexists.
Qed.

Lemma poll_begin_ok doc h (rt : RT) :
  rt_poller rt = PollRun → poll_pending (rt_engine rt) = None → out_ok doc h rt →
  let rt1 := set_eng (poll_begin (rt_engine rt)) rt in
  out_ok doc (record [] (task_windows TPoller rt rt1) [] [] h) rt1.
Proof.
  intros Hrun Hnone Hok rt1.
  pose proof (poll_begin_inv _ _ _ _ Hnone (oo_inv _ _ _ Hok)) as Hinv1.
  assert (Hsame : poll_begin (rt_engine rt) = rt_engine rt → out_ok doc (record [] (task_windows TPoller rt rt1) [] [] h) rt1).
  { intros Heq. unfold task_windows, rt1. cbn [rt_engine set_eng]. rewrite Heq, Hnone, record_nil. by destruct rt. }
  revert Hinv1 Hsame. unfold rt1, task_windows. cbn [rt_engine set_eng]. rewrite Hnone. unfold poll_begin.
  destruct (_ <=? _)%Z eqn:Hle; [auto|].
  destruct (changes_between _ _ _) as [evs|] eqn:Hcb; [|auto]. intros Hinv1 _. cbn [poll_pending set_poll].
  apply Z.leb_gt in Hle. pose proof (changes_between_law _ _ _ _ Hcb) as Hlaw.
  destruct Hok as [_ Hrx Hlive Hch Hst Hcn Has Hpa Hde Hdo].
  rewrite Hnone in Hcn. unfold pending_events in Hde. rewrite Hnone, app_nil_r in Hde.
  assert (Hrep : ∀ ws, reported (record [] ws [] [] h) = reported h ++ mjoin (snd <$> ws))
    by (intros; unfold reported, record; cbn; by rewrite fmap_app, join_app).
  split; rewrite ?Hrep; unfold out_trace, record, applied in *;
    cbn [rt_engine set_eng rt_outbound rt_poller rt_outbound_rx rt_poller_rx hi_bridge hi_windows hi_acts hi_leaks] in *;
    rewrite ?app_nil_r, ?no_commits; try done.
  - by rewrite Hrun.
  - intros Hsp. destruct (Hcn Hsp) as [start Hc]. exists start. by apply windows_chain_snoc.
  - apply Forall_app. split; [done|]. apply Forall_singleton. by exists (grafeo_db (rt_engine rt)).
  - apply Forall_app. split; [done|]. cbn. rewrite app_nil_r.
    eapply Forall_impl; [exact Hlaw|]. intros x ?. change (grafeo_db (set_poll _ _ (rt_engine rt))) with (grafeo_db (rt_engine rt)). cbv beta in *. lia.
  - rewrite !foreign_app in *. rewrite Hde, <-!(assoc_L (++)). cbn. by rewrite app_nil_r.
Qed.

(** The check: an own event drops out, or leaks. *)
Lemma poll_event_ok doc h cur ev evs (rt : RT) :
  rt_poller rt = PollRun → poll_sending (rt_engine rt) = None → poll_pending (rt_engine rt) = Some (cur, ev :: evs) →
  out_ok doc h rt →
  out_ok doc (record [] [] [] (leaked (rt_engine rt)) h) (set_eng (poll_event metrics (rt_engine rt)) rt).
Proof.
  intros Hrun Hps Hpp Hok. pose proof (poll_event_inv metrics _ _ _ _ (oo_inv _ _ _ Hok)) as Hinv1.
  pose proof (ei_set _ _ _ _ _ _ _ _ _ _ (oo_inv _ _ _ Hok)) as Hset. cbn in Hset.
  destruct Hok as [_ Hrx Hlive Hch Hst Hcn Has Hpa Hde Hdo].
  destruct (poll_event_frame metrics (rt_engine rt)) as (_&Ho&Hb&_&_&Hd).
  assert (Hcn1 : rt_poller rt ≠ PollSpawned → ∃ start, windows_chain start (hi_windows h) cur) by by rewrite Hpp in Hcn.
  assert (Hst1 : rt_poller rt ≠ PollSpawned) by by rewrite Hrun.
  assert (Hev : poll_pending (poll_event metrics (rt_engine rt)) = Some (cur, evs) ∧
    poll_sending (poll_event metrics (rt_engine rt)) =
      (if bool_decide (ev_epoch ev ∈ bridge_epochs (rt_engine rt)) then None else Some ev)).
  { unfold poll_event. rewrite Hps, Hpp. by case_bool_decide. }
  destruct Hev as [Hpp1 Hps1].
  split; unfold record, out_trace, applied, reported in *;
    cbn [rt_engine set_eng rt_outbound rt_poller rt_outbound_rx rt_poller_rx hi_bridge hi_windows hi_acts hi_leaks] in *;
    rewrite ?app_nil_r, ?no_commits, ?Ho, ?Hd, ?Hpp1; unfold grafeo_db in *; rewrite ?Hb; try done.
  rewrite Hde. unfold outbound_events, sending_event, pending_events. rewrite Ho, Hps, Hps1, Hpp, Hpp1.
  case_bool_decide as Hin; cbn [option_list]; [|by rewrite app_nil_r, <-!(assoc_L (++))].
  rewrite !foreign_app. do 2 f_equal. unfold foreign at 1. rewrite filter_cons, decide_False; [done|].
  intros Hn. apply Hn. by apply Hset.
Qed.

Lemma poll_send_ok doc h (rt : RT) :
  rt_poller rt = PollRun → out_ok doc h rt → out_ok doc h (set_eng (poll_send (rt_engine rt)) rt).
Proof.
  intros Hrun Hok. pose proof (poll_send_inv _ _ _ _ (oo_inv _ _ _ Hok)) as Hinv1.
  unfold out_trace, poll_send in *. destruct (poll_sending (rt_engine rt)) as [ev|] eqn:Hps; [|by destruct rt].
  destruct (send_ready _); cbn [negb] in *; [|by destruct rt].
  destruct Hok as [_ Hrx Hlive Hch Hst Hcn Has Hpa Hde Hdo].
  split; cbn; try done; [by rewrite Hrun|]. rewrite Hde. f_equal. f_equal.
  unfold outbound_events, sending_event, pending_events. cbn. rewrite Hps, fmap_app, app_nil_r. done.
Qed.

Lemma poll_end_ok doc h cur (rt : RT) :
  rt_poller rt = PollRun → poll_sending (rt_engine rt) = None → poll_pending (rt_engine rt) = Some (cur, []) →
  out_ok doc h rt → out_ok doc h (set_eng (poll_end (rt_engine rt)) rt).
Proof.
  intros Hrun Hps Hpp Hok. pose proof (poll_end_inv _ _ _ _ (oo_inv _ _ _ Hok)) as Hinv1.
  destruct Hok as [_ Hrx Hlive Hch Hst Hcn Has Hpa Hde Hdo]. unfold out_trace, poll_end in *.
  rewrite Hps, Hpp in *. split; cbn; try done; [by rewrite Hrun|].
  rewrite Hde. unfold outbound_events, sending_event, pending_events. cbn. by rewrite Hps, Hpp.
Qed.

Lemma poller_poll_ok doc h due (rt rt1 : RT) :
  poller_poll metrics due rt = Some rt1 → out_ok doc h rt →
  out_ok doc (record [] (task_windows TPoller rt rt1) [] (task_leaks TPoller rt) h) rt1.
Proof.
  intros Hp Hok. unfold poller_poll in Hp. pose proof (oo_rx _ _ _ Hok) as [_ Hrx].
  pose proof (oo_chan _ _ _ Hok) as [Hcl _].
  assert (Hw : is_Some (poll_pending (rt_engine rt)) ∨ poll_pending (rt_engine rt1) = None → task_windows TPoller rt rt1 = []).
  { unfold task_windows. intros [[x ->]| ->]; [done|by destruct (poll_pending (rt_engine rt))]. }
  unfold task_leaks, leaked.
  destruct (rt_poller rt) eqn:Hr; [| |done].
  - injection Hp as <-. rewrite Hw, record_nil by by right. by apply poll_start_ok.
  - destruct (poll_sending (rt_engine rt)) as [x|] eqn:Hps.
    + rewrite Hcl in Hp. destruct (send_ready _); [|done]. injection Hp as <-.
      assert (Hw' : task_windows TPoller rt (set_eng (poll_send (rt_engine rt)) rt) = []).
      { unfold task_windows. cbn. unfold poll_send. rewrite Hps.
        destruct (poll_pending (rt_engine rt)) eqn:Hpp; [done|]. destruct (send_ready _); cbn; by rewrite Hpp. }
      rewrite Hw', record_nil. by apply poll_send_ok.
    + destruct (poll_pending (rt_engine rt)) as [[cur [|ev evs]]|] eqn:Hpp.
      * injection Hp as <-. rewrite Hw, record_nil by by left. by eapply poll_end_ok.
      * injection Hp as <-. rewrite Hw by by left.
        pose proof (poll_event_ok doc h cur ev evs rt Hr Hps Hpp Hok) as He. unfold leaked in He. by rewrite Hps, Hpp in He.
      * rewrite Hrx in Hp. destruct due; [|done]. injection Hp as <-. by apply poll_begin_ok.
Qed.

Lemma task_acts_other t (rt : RT) : t ≠ TOutbound → task_acts t rt = [].
Proof. by destruct t. Qed.

Lemma task_windows_other t (rt rt1 : RT) : t ≠ TPoller → task_windows t rt rt1 = [].
Proof. by destruct t. Qed.

Lemma task_ok doc h t c due (rt rt1 : RT) :
  task_poll cfg metrics health t c due rt = Some rt1 → out_ok doc h rt →
  out_ok doc (task_record t c rt rt1 h) rt1.
Proof.
  intros Ht Hok. unfold task_record. destruct t; rewrite ?task_acts_other, ?task_windows_other by done; cbn [task_commits].
  - unfold task_leaks. rewrite record_nil. by eapply inbound_half_ok; eauto.
  - unfold task_leaks. rewrite record_nil. by eapply inbound_half_ok; eauto.
  - unfold task_leaks. by apply flush_poll_ok.
  - unfold task_leaks. by apply outbound_poll_ok.
  - by eapply poller_poll_ok.
Qed.

Lemma out_ok_new db doc : out_ok doc (mkHistory ∅ [] [] []) (spawn_all (SyncEngine_new db doc)).
Proof.
  split; cbn; try done; [apply trace_new_inv|split; [done|unfold CHANNEL_CAPACITY; lia]].
Qed.

Lemma outbound_run_ok db doc h (rt : RT) : outbound_run db doc h rt → out_ok doc h rt.
Proof.
  induction 1 as [|t c due h rt rt1 _ IH Ht|origin edit h rt _ IH|d h rt _ IH Hd|i c e1 h rt _ IH He|op c h rt _ IH Hc].
  - apply out_ok_new.
  - by eapply task_ok.
  - pose proof (out_ok_commit doc h (ActLocal origin edit) (rt_outbound rt)
      (loro_set_next_commit_origin origin (edit (loro_doc (rt_engine rt)))) rt
      ltac:(done) ltac:(done) (proj1 (oo_live _ _ _ IH)) IH) as Hc.
    unfold local_commit. revert Hc. by destruct rt.
  - rewrite <-(record_nil h). apply (out_ok_quiet doc [] h rt); try done.
    + rewrite no_commits. pose proof (oo_inv _ _ _ IH) as Hinv. by apply echo_inv_write with (1 := Hd) in Hinv.
    + cbn. unfold set_db, grafeo_db in *. cbn. lia.
    + by intros ? ?%not_elem_of_nil.
  - by apply orphan_ok.
  - by apply (out_ok_still doc h rt).
Qed.

(** ** Progress *)

#[local] Arguments out_fuel : simpl never.

Lemma poller_fuel_dec h doc (rt rt1 : RT) :
  out_ok doc h rt → poller_poll metrics false rt = Some rt1 →
  out_fuel rt1 < out_fuel rt ∧ task_windows TPoller rt rt1 = [].
Proof.
  intros Hok Hp. pose proof (oo_chan _ _ _ Hok) as [Hcl _]. pose proof (oo_rx _ _ _ Hok) as [_ Hrx].
  pose proof (oo_start _ _ _ Hok) as Hst. clear Hok.
  destruct rt as [e ti to tp ri ro rp rb]. unfold poller_poll, out_fuel, task_windows in *. cbn in *.
  destruct tp; [| |done].
  - destruct (Hst eq_refl) as (_&Hn&Hs). simplify_eq. cbn. rewrite Hn, Hs. split; [lia|done].
  - destruct (poll_sending e) as [x|] eqn:Hps.
    + rewrite Hcl in Hp. destruct (send_ready (outbound e)) eqn:Hr; simplify_eq. unfold poll_send. rewrite Hps, Hr. cbn.
      rewrite length_app. cbn. destruct (poll_pending e) as [[??]|]; (split; [lia|done]).
    + destruct (poll_pending e) as [[cur [|ev evs]]|] eqn:Hpp; [| |rewrite Hrx in Hp; by destruct rp].
      * simplify_eq. unfold poll_end. rewrite Hps, Hpp. cbn. rewrite Hps. split; [lia|done].
      * simplify_eq. unfold poll_event. rewrite Hps, Hpp. case_bool_decide; cbn; rewrite ?Hps; (split; [lia|done]).
Qed.

Lemma outbound_fuel_dec h doc (rt rt1 : RT) :
  out_ok doc h rt → outbound_poll metrics health rt = Some rt1 → out_fuel rt1 < out_fuel rt.
Proof.
  intros Hok Hp. pose proof (oo_rx _ _ _ Hok) as [Hrx _]. clear Hok.
  destruct rt as [e ti to tp ri ro rp rb]. unfold outbound_poll, out_fuel in *. cbn in *.
  destruct to as [|p|]; [rewrite Hrx in Hp| |done].
  - destruct (ch_queue (outbound e)) as [|m q] eqn:Hq; [done|].
    pose proof (outbound_apply_frame metrics e) as (_&_&_&_&_&Hpp&Hps&_&_&Hqq).
    destruct (outbound_apply metrics e) as [o e1]. simplify_eq. cbn in *. rewrite Hpp, Hps, Hqq, Hq. cbn.
    destruct o; lia.
  - simplify_eq. cbn. destruct (outbound_commit_frame metrics health p e) as [[= _ _ _ _ Ho Hpp Hps _ _] _].
    rewrite Ho, Hpp, Hps. lia.
Qed.

Lemma out_idle h doc (rt : RT) :
  out_ok doc h rt → poller_poll metrics false rt = None → outbound_poll metrics health rt = None →
  out_fuel rt = 0.
Proof.
  intros Hok Hp Ho. pose proof (oo_chan _ _ _ Hok) as [Hcl Hcap]. pose proof (oo_rx _ _ _ Hok) as [Hro Hrp].
  pose proof (oo_live _ _ _ Hok) as [Hlo Hlp]. clear Hok.
  destruct rt as [e ti to tp ri ro rp rb]. unfold poller_poll, outbound_poll, out_fuel in *. cbn in *. subst.
  destruct to as [|p|]; [|done..]. destruct (ch_queue (outbound e)) as [|m q] eqn:Hq;
    [|by destruct (outbound_apply metrics e)].
  destruct tp; [done| |done]. destruct (poll_sending e).
  { rewrite Hcl in Hp. unfold send_ready in Hp. by rewrite Hq, bool_decide_true in Hp. }
  by destruct (poll_pending e) as [[cur [|ev evs]]|].
Qed.

Lemma record_half db doc h t c (rt rt1 : RT) :
  outbound_run db doc h rt → task_poll cfg metrics health t c false rt = Some rt1 → t = TPoller ∨ t = TOutbound →
  ∃ h1, outbound_run db doc h1 rt1 ∧ hi_windows h1 = hi_windows h ∧ hi_bridge h1 = hi_bridge h ∧
    out_fuel rt1 < out_fuel rt.
Proof.
  intros Hrun Ht Hor. pose proof (outbound_run_ok _ _ _ _ Hrun) as Hok.
  exists (task_record t c rt rt1 h). split; [by eapply or_task|]. unfold task_record, record. cbn.
  destruct Hor as [->| ->]; cbn [task_commits]; rewrite no_commits.
  - destruct (poller_fuel_dec _ _ _ _ Hok Ht) as [? ->]. by rewrite app_nil_r.
  - split; [by rewrite task_windows_other, app_nil_r|]. split; [done|]. by eapply outbound_fuel_dec.
Qed.

Lemma out_round_run db doc h (rt : RT) :
  outbound_run db doc h rt →
  ∃ h1, outbound_run db doc h1 (out_round rt) ∧ hi_windows h1 = hi_windows h ∧ hi_bridge h1 = hi_bridge h ∧
    (out_fuel (out_round rt) < out_fuel rt ∨ out_fuel (out_round rt) = 0).
Proof.
  intros Hrun. unfold out_round. destruct (poller_poll metrics false rt) as [rt1|] eqn:Hp; cbn.
  - destruct (record_half db doc h TPoller BkGo rt rt1 Hrun Hp) as (h1&Hr1&Hw1&Hb1&Hf1); [by left|].
    destruct (outbound_poll metrics health rt1) as [rt2|] eqn:Ho; cbn; [|by exists h1; auto].
    destruct (record_half db doc h1 TOutbound BkGo rt1 rt2 Hr1 Ho) as (h2&Hr2&Hw2&Hb2&Hf2); [by right|].
    exists h2. split; [done|]. split; [congruence|]. split; [congruence|]. left. lia.
  - destruct (outbound_poll metrics health rt) as [rt2|] eqn:Ho; cbn.
    + destruct (record_half db doc h TOutbound BkGo rt rt2 Hrun Ho) as (h2&Hr2&Hw2&Hb2&Hf2); [by right|].
      exists h2. auto.
    + exists h. do 3 (split; [done|]). right. eapply out_idle; [by eapply outbound_run_ok|done..].
Qed.

Lemma out_rounds_run db doc n h (rt : RT) :
  outbound_run db doc h rt →
  ∃ h1, outbound_run db doc h1 (Nat.iter n out_round rt) ∧ hi_windows h1 = hi_windows h ∧
    hi_bridge h1 = hi_bridge h ∧ out_fuel (Nat.iter n out_round rt) ≤ out_fuel rt - n.
Proof.
  intros Hrun. induction n as [|n IH]; [exists h; do 3 (split; [done|]); change (Nat.iter 0 out_round rt) with rt; lia|].
  change (Nat.iter (Datatypes.S n) out_round rt) with (out_round (Nat.iter n out_round rt)).
  destruct IH as (h1&Hr1&Hw1&Hb1&Hf1).
  destruct (out_round_run _ _ _ _ Hr1) as (h2&Hr2&Hw2&Hb2&Hf2).
  exists h2. split; [done|]. split; [congruence|]. split; [congruence|]. lia.
Qed.

(** Once nothing is on its way, the foreign events reported are the foreign
    events translated. *)
Lemma out_ok_caught_up doc h (rt : RT) :
  out_ok doc h rt → ch_queue (outbound (rt_engine rt)) = [] → poll_sending (rt_engine rt) = None →
  poll_pending (rt_engine rt) = None → foreign (hi_bridge h) (applied h) = foreign (hi_bridge h) (reported h).
Proof.
  intros Hok Hq Hs Hp. pose proof (oo_delivers _ _ _ Hok) as Hd.
  unfold outbound_events, sending_event, pending_events in Hd. rewrite Hq, Hs, Hp in Hd. cbn in Hd.
  by rewrite app_nil_r in Hd.
Qed.

(** The bridge's own events among those translated are leaks. *)
Lemma out_ok_own doc h (rt : RT) :
  out_ok doc h rt →
  own (hi_bridge h) (applied h ++ outbound_events (rt_engine rt)) `sublist_of` hi_leaks h ∧
  Forall (λ ev, ev_epoch ev ∈ hi_bridge h) (hi_leaks h).
Proof. intros Hok. split; [apply (ei_own _ _ _ _ _ _ _ _ _ _ (oo_inv _ _ _ Hok))|apply (ei_leaks _ _ _ _ _ _ _ _ _ _ (oo_inv _ _ _ Hok))]. Qed.

(** ** The path of an event *)

End outbound.

(** ** The windows and the log *)

Definition between (a b : EpochId) (evs : list ChangeEvent) : list ChangeEvent :=
  base.filter (λ ev, (a < ev_epoch ev ∧ ev_epoch ev ≤ b)%Z) evs.

Lemma between_split a b c log :
  StronglySorted (λ x y, (ev_epoch x ≤ ev_epoch y)%Z) log → (a ≤ b ≤ c)%Z →
  between a b log ++ between b c log = between a c log.
Proof.
  intros Hs Habc. unfold between. induction Hs as [|ev log _ IH Hall]; [done|].
  assert (Hnil : (b < ev_epoch ev)%Z → base.filter (λ ev, (a < ev_epoch ev ∧ ev_epoch ev ≤ b)%Z) log = []).
  { intros Hlt. rewrite Forall_forall in Hall. apply filter_none.
    intros ev' Hin. specialize (Hall _ Hin). cbn in Hall. lia. }
  rewrite !filter_cons. repeat case_decide; try lia; cbn; rewrite <-IH; try done.
  by rewrite Hnil by lia.
Qed.

(** If [changes_between] reads a log in the order of the epochs and leaves out
    its lower bound, the cycles report every event of the log between their first
    and their last epoch exactly once. *)
Lemma windows_partition log start ws stop :
  StronglySorted (λ x y, (ev_epoch x ≤ ev_epoch y)%Z) log →
  Forall (λ '(a, b, evs), evs = between a b log) ws → windows_chain start ws stop →
  (start ≤ stop)%Z ∧ mjoin (snd <$> ws) = between start stop log.
Proof.
  intros Hs Hw. revert start. induction Hw as [|[[a b] evs] ws -> _ IH]; intros start; cbn.
  - intros ->. split; [lia|]. unfold between. symmetry. apply filter_none. lia.
  - intros (->&Hlt&Hc). destruct (IH _ Hc) as [Hle Hm]. split; [lia|]. etrans; [|apply (between_split start b stop); [done|lia]].
    f_equal. exact Hm.
Qed.

(** ** Concrete runs *)

Definition Recorded : Type := History MemLoro * Runtime MemDb MemLoro.
Definition recorded_run (x : Recorded) : Prop :=
  outbound_run cfg1 true true memdb_new MemLoro_new x.1 x.2.

(** Polls of the tasks, an edit and a write, with the history they make. *)
Definition poll_history (due : bool) (ts : list Task) (x : Recorded) : Recorded :=
  foldl (λ '(h, rt) t,
    match task_poll cfg1 true true t BkGo due rt with
    | Some rt1 => (task_record t BkGo rt rt1 h, rt1)
    | None => (h, rt)
    end) x ts.
Definition edit_history (origin : string) (edit : MemLoro → MemLoro) (x : Recorded) : Recorded :=
  let e1 := local_commit true origin edit (rt_engine x.2) in
  (record [] [] [ActLocal origin edit] [] x.1, set_eng e1 x.2).
Definition write_history (write : MemGraph → MemGraph) (x : Recorded) : Recorded :=
  let db := grafeo_db (rt_engine x.2) in
  let e1 := set_db (commit (write (session db)) db).2 (rt_engine x.2) in
  (x.1, set_eng e1 x.2).

Lemma poll_history_run due ts x : recorded_run x → recorded_run (poll_history due ts x).
Proof.
  revert x. induction ts as [|t ts IH]; intros [h rt] Hx; cbn; [done|].
  destruct (task_poll cfg1 true true t BkGo due rt) as [rt1|] eqn:Ht; apply IH; [|done].
  unfold recorded_run. cbn. by eapply or_task.
Qed.

Lemma edit_history_run origin edit x : recorded_run x → recorded_run (edit_history origin edit x).
Proof. intros Hx. by apply (or_commit cfg1 true true memdb_new MemLoro_new origin edit x.1 x.2). Qed.

Lemma write_history_run write x : recorded_run x → recorded_run (write_history write x).
Proof.
  intros Hx. apply (or_write cfg1 true true memdb_new MemLoro_new _ x.1 x.2); [done|].
  cbn -[Z.of_nat]. lia.
Qed.

(** A vertex somebody types reaches the graph; another writer deletes it there;
    the poller finds both commits in one cycle. *)
Definition out_deleted : Recorded :=
  poll_history true [TPoller] (write_history (delete_node (mkNodeId 1))
    (poll_history true [TInbound; TInbound; TBatcher; TBatcher; TFlush; TFlush] (edit_history "typing" edit_v
      (poll_history true [TPoller] (mkHistory ∅ [] [] [], rt0))))).

Lemma out_deleted_run : recorded_run out_deleted.
Proof.
  apply poll_history_run, write_history_run, poll_history_run, edit_history_run, poll_history_run.
  apply or_new.
Qed.

Definition typed_event (ev : ChangeEvent) : EpochId * EntityId * ChangeKind :=
  (ev_epoch ev, ev_entity_id ev, ev_kind ev).


(** A poll between the commit and the recording: the vertex somebody typed goes
    back into the document, under the bridge's origin. *)
Definition out_leaked : Recorded :=
  poll_history false [TPoller; TPoller; TOutbound; TOutbound; TFlush; TBatcher; TPoller]
    (poll_history true [TPoller; TInbound; TInbound; TBatcher; TBatcher; TFlush; TPoller]
      (edit_history "typing" edit_v (poll_history true [TPoller] (mkHistory ∅ [] [] [], rt0)))).

Example leaked_change_is_translated :
  recorded_run out_leaked ∧ hi_bridge out_leaked.1 = {[1%Z]} ∧
  ev_epoch <$> applied out_leaked.1 = [1%Z] ∧ ev_epoch <$> hi_leaks out_leaked.1 = [1%Z] ∧
  foreign (hi_bridge out_leaked.1) (reported out_leaked.1) = [].
Proof.
  split; [apply poll_history_run, poll_history_run, edit_history_run, poll_history_run, or_new|].
  vm_compute. repeat split.
Qed.

(** Were [changes_between] to include its lower bound, the windows that meet would
    share an epoch, and a change of that epoch is reported by two cycles. *)
Section closed_windows.
#[local] Instance MemGraph_cdc_closed : GrafeoCdc MemGraph := {|
    changes_between s a b :=
      Ok (base.filter (λ ev, (a ≤ ev_epoch ev ∧ ev_epoch ev ≤ b)%Z) (mg_log s))
  |}.

Example closed_windows_report_twice :
  let write n (rt : Runtime MemDb MemLoro) :=
    let db := grafeo_db (rt_engine rt) in
    set_eng (set_db (commit (create_node_with_props [] [] (session db)).2 db).2 (rt_engine rt)) rt in
  let turn rt := Nat.iter 9 (out_round true true) (default rt (poller_poll true true rt)) in
  let rt1 := default rt0 (poller_poll true true rt0) in
  let sent := ct_outbound_events (counters (rt_engine (turn (write 2 (turn (write 1 rt1)))))) in
  sent = ["vertex"; "vertex"; "vertex"]%string.
Proof. vm_compute. reflexivity. Qed.
End closed_windows.
