(* ===== verification/Settle.v ===== *)
(** * The bridge settles ([src/bridge/sync_engine.rs])

    Both halves run against each other: the batcher's commits are changes the
    poller reads, the worker's commits of the document are events the subscriber
    sees.  Left to itself the bridge comes to rest under every schedule: the
    turns the four tasks and the flush threads can take are finitely many, and where
    none is left both halves have caught up. *)

From S2P Require Import Prelude Types Values BridgeMaps GrafeoTx GraphSpec MemGraph Batcher BatcherSpec EdgeKeys Translate Queue SyncEngine EngineSpec Lifecycle Pipeline Outbound.

(** A step that always makes a triple smaller, in its lexicographic order, can only
    be taken finitely often. *)
Lemma sn_lex3 {A} (R : relation A) (P : A → Prop) (f g k : A → nat) :
  (∀ x y, P x → R x y → P y ∧ (f y < f x ∨ f y = f x ∧ (g y < g x ∨ g y = g x ∧ k y < k x))) →
  ∀ x, P x → sn R x.
Proof.
  intros Hstep.
  enough (Hall : ∀ a b c x, f x = a → g x = b → k x = c → P x → sn R x) by (intros x; by eapply Hall).
  intros a. induction (lt_wf a) as [a _ IHa]. intros b. induction (lt_wf b) as [b _ IHb].
  intros c. induction (lt_wf c) as [c _ IHc]. intros x <- <- <- Hx. constructor. intros y Hy.
  destruct (Hstep x y Hx Hy) as [Py [Hf|[Hf [Hg|[Hg Hk]]]]];
    [by eapply IHa|by eapply IHb|by eapply IHc].
Qed.

Section settle.
  Context {D S L : Type} `{GrafeoDBLaws D S, !GrafeoCdc S, !GrafeoCdcLaws S, !LoroDoc L, !LoroCommitLaws L, HashOrder}.
  Context (cfg : BatcherConfig) (metrics health : bool).
  Notation E := (SyncEngine D L).
  Notation RT := (Runtime D L).

(** Whether a timer tick of the poller starts no cycle. *)
Definition nothing_to_ask (e : E) : bool :=
  (current_epoch (grafeo_db e) <=? last_epoch e)%Z ||
  is_err (changes_between (session_with_cdc (grafeo_db e) true) (last_epoch e) (current_epoch (grafeo_db e))).

(** A timer that fires with nothing to do: an empty flush of the batcher, a tick
    of the poller that starts no cycle. *)
Definition idle_tick (t : Task) (rt : RT) : bool :=
  let e := rt_engine rt in
  match t with
  | TBatcher =>
      match rt_batcher_rx rt, mb_flight (batcher e), ch_queue (batch_chan e), mb_buffer (batcher e) with
      | Some false, None, [], [] => true
      | _, _, _, _ => false
      end
  | TPoller =>
      match rt_poller rt, poll_sending e, poll_pending e with
      | PollRun, None, None => nothing_to_ask e
      | _, _, _ => false
      end
  | _ => false
  end.

(** A poll of a task that does something, with any timer and any end of the
    flush, or a step of a closure that outlived its timeout. *)
Inductive turn (rt : RT) : RT → Prop :=
| turn_task t c due rt1 :
    idle_tick t rt = false → task_poll cfg metrics health t c due rt = Some rt1 → turn rt rt1
| turn_orphan i c e1 : orphan_thread i c (rt_engine rt) = Some e1 → turn rt (set_eng e1 rt).

(** The closures that outlived their timeout and still run. *)
Definition orphan_fuel (e : E) : nat := sum_list_with thread_fuel (mb_background (batcher e)).

(** Nothing is on its way, in either direction, and no closure runs.  If the
    batcher has failed, the inbound worker has followed it or waits for an
    operation. *)
Definition settled (rt : RT) : Prop :=
  let e := rt_engine rt in
  match status_of rt with
  | Running => rt_batcher_rx rt = Some false ∧ rt_inbound rt = InSelect ∧ pipe_idle rt
  | Finished _ => rt_inbound rt = InDone ∨ rt_inbound rt = InSelect ∧ ch_queue (inbound e) = []
  end ∧
  orphan_fuel e = 0 ∧
  rt_outbound rt = OutSelect ∧ ch_queue (outbound e) = [] ∧
  rt_poller rt = PollRun ∧ poll_pending e = None ∧ poll_sending e = None ∧ nothing_to_ask e = true.

(** ** Idle ticks change nothing *)

Lemma set_batcher_id (e : E) : set_batcher (batcher e) (batcher_status e) e = e.
Proof. by destruct e. Qed.

Lemma idle_tick_id t c due (rt rt1 : RT) :
  rt_poller_rx rt = false → idle_tick t rt = true →
  task_poll cfg metrics health t c due rt = Some rt1 → rt1 = rt.
Proof.
  intros Hrx. destruct rt as [e ti to tp ri ro rp rb]. destruct t; try done; cbn in *; subst rp; intros Hi Hp.
  - destruct rb as [[]|]; [done| |done]. unfold batcher_poll in Hp. cbn in Hp.
    destruct (mb_flight (batcher e)) eqn:Hf; [done|].
    destruct (ch_queue (batch_chan e)); [|done]. destruct (batcher_status e) eqn:Hs; [|done].
    destruct due; [|done]. injection Hp as <-. unfold set_eng. cbn. f_equal.
    unfold batcher_branch. rewrite Hs, Hf. cbn. unfold flush_spawn.
    destruct (mb_buffer (batcher e)) eqn:Hb; [|done]. rewrite <-Hs. apply set_batcher_id.
  - destruct tp; [done| |done]. destruct (poll_sending e) eqn:Hps; [done|]. destruct (poll_pending e) eqn:Hpp; [done|].
    unfold poller_poll in Hp. cbn in Hp. rewrite Hps, Hpp in Hp. destruct due; [|done]. injection Hp as <-.
    unfold set_eng. cbn. f_equal. unfold nothing_to_ask, poll_begin in *.
    destruct (_ <=? _)%Z; [done|]. cbn in Hi. by destruct (changes_between _ _ _).
Qed.

(** ** The outbound half leaves the inbound half alone *)

Definition inside (e : E) :=
  (batcher_status e, mb_buffer (batcher e), mb_flight (batcher e), mb_background (batcher e), grafeo_db e, batch_chan e, inbound e).

Lemma outbound_apply_inside (e : E) : inside (outbound_apply metrics e).2 = inside e.
Proof. unfold outbound_apply. by repeat case_match; simplify_eq/=. Qed.

(** The worker's commit carries an origin the subscriber drops. *)
Lemma outbound_commit_inside p (e : E) : inside (outbound_commit metrics health p e) = inside e.
Proof.
  pose proof (commit_doc_batcher metrics (set_doc (loro_set_next_commit_origin ORIGIN_GRAFEO_BRIDGE (loro_doc e)) e)) as Hb.
  destruct (commit_doc_frame metrics (set_doc (loro_set_next_commit_origin ORIGIN_GRAFEO_BRIDGE (loro_doc e)) e))
    as [[= Hs _ _ Hc _ _ _ _ _] _].
  pose proof (commit_echo_inbound metrics ORIGIN_GRAFEO_BRIDGE (loro_doc e) e eq_refl) as Hi.
  unfold inside, outbound_commit, grafeo_db in *. cbn in *. by rewrite Hb, Hs, Hc, Hi.
Qed.

Lemma outbound_half_inside t c due (rt rt1 : RT) :
  task_poll cfg metrics health t c due rt = Some rt1 → t = TOutbound ∨ t = TPoller →
  inside (rt_engine rt1) = inside (rt_engine rt) ∧ rt_inbound rt1 = rt_inbound rt ∧ rt_batcher_rx rt1 = rt_batcher_rx rt ∧
  rt_inbound_rx rt1 = rt_inbound_rx rt.
Proof.
  intros Ht [->| ->]; cbn in Ht.
  - destruct rt as [e ti to tp ri ro rp rb].
    unfold outbound_poll in Ht. cbn in Ht. destruct to as [|p|]; [destruct ro| |done].
    + by simplify_eq.
    + destruct (ch_queue (outbound e)); [done|]. pose proof (outbound_apply_inside e) as Hi.
      destruct (outbound_apply metrics e) as [out e1]. by injection Ht as <-.
    + simplify_eq. cbn. by rewrite outbound_commit_inside.
  - destruct (poller_poll_frame metrics _ _ _ Ht) as (Hi&_&Hx&Hr&_&_&Hs&Hb&Hf&Hc&Hin&_).
    assert (Hmd : mb_background (batcher (rt_engine rt1)) = mb_background (batcher (rt_engine rt)) ∧
      grafeo_db (rt_engine rt1) = grafeo_db (rt_engine rt)).
    { clear - Ht. destruct rt as [e ti to tp ri ro rp rb]. unfold poller_poll in Ht. cbn in Ht.
      unfold poll_event, poll_send, poll_end, poll_begin in Ht. repeat case_match; by simplify_eq/=. }
    destruct Hmd as [Hm Hd]. unfold inside. by rewrite Hs, Hb, Hf, Hc, Hin, Hm, Hd.
Qed.

(** ** The invariant of the inbound tasks *)

Lemma task_poll_pipe_ok t c due (rt rt1 : RT) :
  task_poll cfg metrics health t c due rt = Some rt1 → pipe_ok rt → pipe_ok rt1.
Proof.
  intros Ht Hok. destruct t.
  - by destruct (inbound_poll_moves metrics _ _ Ht Hok).
  - destruct rt as [e ti to tp ri ro rp rb]. destruct Hok as [Hrx Hbrx Hroom Htask Hfl].
    unfold status_of, batcher_of in *. cbn in *. subst ri. unfold batcher_poll in Ht. cbn in Ht.
    destruct (batcher_status e) eqn:Hs; [|done].
    destruct rb as [rx|]; [|injection Ht as <-; split; cbn; unfold status_of, batcher_of; cbn; rewrite ?Hs; auto;
      intros fl Hf; by destruct (Hfl fl Hf) as (_&_&?)].
    destruct rx; [done|]. destruct (mb_flight (batcher e)) as [fl|] eqn:Hf.
    + destruct (flush_join cfg due e) as [e'|] eqn:He; [|done]. injection Ht as <-.
      destruct (flush_join_frame _ _ _ _ He) as (_&Hc&_&Hf'&_).
      split; cbn; unfold status_of, batcher_of; cbn; rewrite ?Hc, ?Hf'; auto; done.
    + assert (Hit : ∀ br ev, br ≠ BrShutdown → branch_event br e = Some ev →
        pipe_ok (set_eng (batcher_branch cfg br e) (mkRuntime e ti to tp false ro rp (Some false)))).
      { intros br ev Hbr Hev.
        destruct (branch_pipe cfg br ev (mkRuntime e ti to tp false ro rp (Some false)) Hs Hbr Hf Hev)
          as (Hs1&_&_&_&Hcap&Hfl1). cbn in Hcap.
        split; cbn; rewrite ?Hcap; auto. intros fl Hfl2. by destruct (Hfl1 fl Hfl2). }
      destruct (ch_queue (batch_chan e)) as [|op q] eqn:Hq; [destruct due|]; simplify_eq.
      * by apply (Hit BrTick EvTick).
      * apply (Hit BrRecv (EvRecv op)); [done|]. cbn. by rewrite Hq.
  - cbn in Ht. unfold flush_poll in Ht. destruct (flush_thread c (rt_engine rt)) as [e'|] eqn:He; [|done].
    injection Ht as <-. destruct (flush_thread_frame _ _ _ He) as (_&Hc&Hs&_&fl&bk&Hf&Hf'&_).
    destruct Hok as [? ? ? ? Hfl]. unfold status_of, batcher_of in *.
    split; cbn; unfold status_of, batcher_of; cbn; rewrite ?Hc, ?Hs; auto. rewrite Hf'. intros ? [= <-]. by apply (Hfl fl).
  - destruct (outbound_half_inside TOutbound c due _ rt1 Ht) as ([= Hs _ Hf _ _ Hc _] & Hi & Hb & Hx); [by left|].
    destruct Hok. unfold status_of, batcher_of in *.
    split; unfold status_of, batcher_of; rewrite ?Hs, ?Hc, ?Hi, ?Hb, ?Hx, ?Hf; auto.
  - destruct (outbound_half_inside TPoller c due _ rt1 Ht) as ([= Hs _ Hf _ _ Hc _] & Hi & Hb & Hx); [by right|].
    destruct Hok. unfold status_of, batcher_of in *.
    split; unfold status_of, batcher_of; rewrite ?Hs, ?Hc, ?Hi, ?Hb, ?Hx, ?Hf; auto.
Qed.

Lemma env_pipe_ok (rt : RT) e1 : env_step metrics (rt_engine rt) e1 → pipe_ok rt → pipe_ok (set_eng e1 rt).
Proof.
  intros (Hs&_&Hf&Hc&_)%env_step_frame [? ? ? Ht Hfl]. unfold status_of, batcher_of in *.
  split; cbn; unfold status_of, batcher_of; cbn; rewrite ?Hs, ?Hc, ?Hf; done.
Qed.

Lemma outbound_run_pipe_ok db doc h (rt : RT) : outbound_run cfg metrics health db doc h rt → pipe_ok rt.
Proof.
  induction 1 as [|t c due h rt rt1 _ IH Ht|origin edit h rt _ IH|d h rt _ IH _|i c e1 h rt _ IH He|op c h rt _ IH Hc].
  - by destruct (pipe_new db doc).
  - by eapply task_poll_pipe_ok.
  - by apply env_pipe_ok; [constructor|].
  - by apply env_pipe_ok; [constructor|].
  - by apply env_pipe_ok; [econstructor|].
  - by apply env_pipe_ok; [econstructor|].
Qed.

(** ** What is left to do *)

(** Inbound: the hops of the operations while the batcher runs, then the worker's
    way out; and the closures that outlived their timeout. *)
Definition worker_work (rt : RT) : nat :=
  match status_of rt with
  | Running => 4 + pipe_fuel rt
  | Finished _ => match rt_inbound rt with InSelect => 3 | InSend _ => 2 | InJoin => 1 | InDone => 0 end
  end.
Definition inbound_work (rt : RT) : nat := worker_work rt + orphan_fuel (rt_engine rt).

(** Whether a cycle will follow the present one. *)
Definition cycles_left (rt : RT) : nat :=
  let e := rt_engine rt in
  match rt_poller rt with
  | PollSpawned => 0
  | _ => if (current_epoch (grafeo_db e) <=? match poll_pending e with Some (cur, _) => cur | None => last_epoch e end)%Z
         then 0 else 1
  end.

Lemma inbound_poll_work (rt rt1 : RT) :
  inbound_poll metrics rt = Some rt1 → pipe_ok rt → inbound_work rt1 < inbound_work rt.
Proof.
  intros Hp Hok. destruct (inbound_poll_moves _ _ _ Hp Hok) as (_&_&Hb&Hs1&_).
  unfold inbound_work, worker_work, orphan_fuel. rewrite Hb, Hs1. destruct (status_of rt) as [|r] eqn:Hs.
  - destruct (inbound_poll_fuel metrics _ _ Hp Hs Hok) as [_ Hf]. lia.
  - destruct rt as [e ti to tp ri ro rp rb]. pose proof (po_rx _ Hok) as Hrx. clear Hok Hb Hs1.
    unfold inbound_poll, status_of in *. cbn in *. subst ri. rewrite Hs in Hp.
    destruct ti; [|by simplify_eq; cbn; lia..|done].
    destruct (ch_queue (inbound e)) as [|op q]; [done|]. simplify_eq. cbn. lia.
Qed.

Lemma worker_out ti n : match ti with InSelect => 3 | InSend _ => 2 | InJoin => 1 | InDone => 0 end < 4 + n.
Proof. destruct ti; lia. Qed.

(** The await of a flush: a closure that outlives its timeout goes on, out of
    sight. *)
Lemma flush_join_orphans el (e e' : E) fl :
  mb_flight (batcher e) = Some fl → flush_join cfg el e = Some e' →
  orphan_fuel e' ≤ thread_fuel (fl_task fl) + orphan_fuel e.
Proof.
  unfold flush_join, batcher_join, orphan_fuel. intros ->. destruct fl as [ops bk last]. cbn.
  destruct bk as [q|ep|[[]|er]|msg]; cbn; try (destruct el; [|done]); intros [= <-]; cbn;
    rewrite ?sum_list_with_app; cbn; lia.
Qed.

Lemma batcher_poll_work due (rt rt1 : RT) :
  batcher_poll cfg due rt = Some rt1 → pipe_ok rt → idle_tick TBatcher rt = false →
  inbound_work rt1 < inbound_work rt.
Proof.
  destruct rt as [e ti to tp ri ro rp rb]. intros Hp [_ Hb _ _ _] Hi.
  unfold batcher_poll, inbound_work, worker_work, status_of, pipe_fuel, held, batcher_of in *. cbn in *.
  destruct (batcher_status e) eqn:Hs; [|done]. destruct rb as [[]|]; [done| |injection Hp as <-; cbn; rewrite Hs; lia].
  destruct (mb_flight (batcher e)) as [fl|] eqn:Hf.
  - destruct (flush_join cfg due e) as [e'|] eqn:He; [|done]. injection Hp as <-. cbn.
    destruct (flush_join_frame _ _ _ _ He) as ([= Hin _ _ _ _]&Hc&Hbuf&Hf'&_).
    pose proof (flush_join_orphans due e e' fl Hf He) as Ho. rewrite Hin, Hc, Hbuf, Hf'.
    destruct (batcher_status e'); [lia|]. pose proof (worker_out ti 0). lia.
  - assert (Hbr : ∀ br ev, br ≠ BrShutdown → branch_event br e = Some ev →
      mb_background (batcher (batcher_branch cfg br e)) = mb_background (batcher e)).
    { intros br ev _ Hev. unfold batcher_branch. rewrite Hs, Hf, Hev. destruct ev; cbn; unfold flush_spawn;
        repeat case_match; simplify_eq/=; done. }
    unfold orphan_fuel.
    destruct (ch_queue (batch_chan e)) as [|op q] eqn:Hq; [destruct due; [|done]|]; injection Hp as <-; cbn.
    + destruct (branch_fuel cfg BrTick EvTick e Hs Hf ltac:(done) eq_refl) as (->&Hle&->).
      rewrite (Hbr BrTick EvTick) by done. rewrite Hq in Hle.
      destruct (mb_buffer (batcher e)); [done|]. cbn in *. lia.
    + assert (Hev : branch_event BrRecv e = Some (EvRecv op)) by (cbn; by rewrite Hq).
      destruct (branch_fuel cfg BrRecv (EvRecv op) e Hs Hf ltac:(done) Hev) as (->&Hle&->).
      rewrite (Hbr BrRecv (EvRecv op)) by done. rewrite Hq in Hle. cbn in *. lia.
Qed.

Lemma flush_poll_work c (rt rt1 : RT) :
  flush_poll c rt = Some rt1 → pipe_ok rt → inbound_work rt1 < inbound_work rt.
Proof.
  intros Hp Hok. destruct (flush_poll_fuel _ _ _ Hp) as [Hs Hf].
  unfold inbound_work, worker_work. rewrite Hs. unfold flush_poll in Hp.
  destruct (flush_thread c (rt_engine rt)) as [e'|] eqn:He; [|done]. injection Hp as <-.
  destruct (flush_thread_frame _ _ _ He) as (_&_&_&_&fl&_&Hfl&_).
  destruct (po_flight _ Hok fl Hfl) as (_&->&_).
  assert (Ho : orphan_fuel e' = orphan_fuel (rt_engine rt)); [|change (rt_engine (set_eng e' rt)) with e'; lia].
  unfold flush_thread, flight_step in He. repeat case_match; by simplify_eq/=.
Qed.

Lemma orphan_thread_work i c e1 (rt : RT) :
  orphan_thread i c (rt_engine rt) = Some e1 →
  inbound_work (set_eng e1 rt) < inbound_work rt.
Proof.
  intros He. unfold orphan_thread, background_step in He.
  destruct (mb_background (batcher (rt_engine rt)) !! i) as [bk|] eqn:Hi; [|done].
  destruct (blocking_step c bk _) as [[bk' fs]|] eqn:Hb; [|done]. injection He as <-.
  apply blocking_step_fuel in Hb.
  unfold inbound_work, worker_work, status_of, pipe_fuel, held, batcher_of, orphan_fuel. cbn.
  apply take_drop_middle in Hi as Heq. rewrite <-Heq at 2. rewrite insert_take_drop by by eapply lookup_lt_Some.
  rewrite !sum_list_with_app. cbn. lia.
Qed.

Lemma orphan_ready (e : E) : 0 < orphan_fuel e ↔ ∃ i, is_Some (orphan_thread i BkGo e).
Proof.
  unfold orphan_fuel, orphan_thread, background_step. split.
  - induction (mb_background (batcher e)) as [|bk bg IH]; cbn; [lia|]. intros Hlt.
    destruct (decide (0 < thread_fuel bk)) as [Hbk|Hbk].
    + exists 0. cbn. apply (blocking_step_ready BkGo bk (mb_fs (batcher e))) in Hbk as [[bk' fs] ->]. by eexists.
    + destruct IH as [i Hi]; [lia|]. exists (Datatypes.S i). cbn. destruct (bg !! i); [|by destruct Hi].
      destruct (blocking_step _ _ _) as [[??]|]; [by eexists|by destruct Hi].
  - intros (i&e1&Hs). destruct (_ !! i) as [bk|] eqn:Hi; [|done]. destruct (blocking_step _ _ _) as [[??]|] eqn:Hb; [|done].
    apply blocking_step_fuel in Hb. apply list_elem_of_lookup_2 in Hi. apply (sum_list_with_in _ thread_fuel) in Hi. lia.
Qed.

(** ** Every turn of the outbound half leaves it less to do *)

Lemma work_inside (rt rt1 : RT) :
  inside (rt_engine rt1) = inside (rt_engine rt) → rt_inbound rt1 = rt_inbound rt →
  rt_batcher_rx rt1 = rt_batcher_rx rt → inbound_work rt1 = inbound_work rt.
Proof.
  intros [= Hs Hb Hf Hg Hd Hc Hi] Hin Hrb.
  unfold inbound_work, worker_work, orphan_fuel, status_of, pipe_fuel, held, batcher_of.
  by rewrite Hs, Hb, Hf, Hg, Hc, Hi, Hin, Hrb.
Qed.

Lemma cycles_left_inside (rt rt1 : RT) :
  grafeo_db (rt_engine rt1) = grafeo_db (rt_engine rt) → poll_pending (rt_engine rt1) = poll_pending (rt_engine rt) →
  last_epoch (rt_engine rt1) = last_epoch (rt_engine rt) → rt_poller rt1 = rt_poller rt →
  cycles_left rt1 = cycles_left rt.
Proof. unfold cycles_left. by intros -> -> -> ->. Qed.

Lemma outbound_poll_work db doc h (rt rt1 : RT) :
  outbound_run cfg metrics health db doc h rt → outbound_poll metrics health rt = Some rt1 →
  inbound_work rt1 = inbound_work rt ∧ cycles_left rt1 = cycles_left rt ∧ out_fuel rt1 < out_fuel rt.
Proof.
  intros Hrun Hp. pose proof (outbound_run_ok cfg metrics health _ _ _ _ Hrun) as Hok.
  destruct (outbound_half_inside TOutbound BkGo false rt rt1 Hp) as (Hins & Hin & Hrb & _); [by left|].
  split; [by apply work_inside|]. split; [|by eapply outbound_fuel_dec].
  injection Hins as _ _ _ _ Hd _ _. clear Hok Hrun.
  apply cycles_left_inside; [done|..]; clear - Hp; destruct rt as [e ti to tp ri ro rp rb]; unfold outbound_poll in Hp; cbn in *;
    (destruct to as [|p|]; [destruct ro| |done]); try (by simplify_eq); try (destruct (ch_queue (outbound e)); [done|]);
    try (pose proof (outbound_apply_frame metrics e) as (_&_&_&_&_&?&_&?&_); destruct (outbound_apply metrics e); by injection Hp as <-);
    injection Hp as <-; destruct (outbound_commit_frame metrics health p e) as [[= _ _ _ _ _ Hpp _ Hl _] _]; done.
Qed.

Lemma poller_poll_due due (rt : RT) :
  poll_sending (rt_engine rt) ≠ None ∨ poll_pending (rt_engine rt) ≠ None ∨ rt_poller rt = PollSpawned →
  poller_poll metrics due rt = poller_poll metrics false rt.
Proof. unfold poller_poll. destruct (rt_poller rt), (poll_sending (rt_engine rt)), (poll_pending (rt_engine rt)); naive_solver. Qed.

(** Within a cycle the poller asks for no other one. *)
Lemma poller_poll_cycle (rt rt1 : RT) :
  poller_poll metrics false rt = Some rt1 → rt_poller_rx rt = false → ch_closed (outbound (rt_engine rt)) = false →
  (rt_poller rt = PollSpawned → poll_pending (rt_engine rt) = None) → cycles_left rt1 = cycles_left rt.
Proof.
  destruct rt as [e ti to tp ri ro rp rb]. unfold poller_poll, cycles_left. cbn. intros Hp -> Hcl Hst.
  destruct tp; [| |done].
  - injection Hp as <-. cbn. by rewrite Z.leb_refl.
  - destruct (poll_sending e) as [ev|] eqn:Hs.
    + rewrite Hcl in Hp. destruct (send_ready _) eqn:Hr; [|done]. injection Hp as <-. unfold poll_send. by rewrite Hs, Hr.
    + destruct (poll_pending e) as [[cur [|ev evs]]|] eqn:Hpp; [| |done]; injection Hp as <-; cbn.
      * unfold poll_end. by rewrite Hs, Hpp.
      * unfold poll_event. rewrite Hs, Hpp. by case_bool_decide.
Qed.

Lemma poller_poll_work db doc h due (rt rt1 : RT) :
  outbound_run cfg metrics health db doc h rt → poller_poll metrics due rt = Some rt1 → idle_tick TPoller rt = false →
  inbound_work rt1 = inbound_work rt ∧
  (cycles_left rt1 < cycles_left rt ∨ cycles_left rt1 = cycles_left rt ∧ out_fuel rt1 < out_fuel rt).
Proof.
  intros Hrun Hp Hidle. pose proof (outbound_run_ok cfg metrics health _ _ _ _ Hrun) as Hok.
  destruct (outbound_half_inside TPoller BkGo due rt rt1 Hp) as (Hins & Hin & Hrb & _); [by right|].
  split; [by apply work_inside|]. clear Hins Hin Hrb.
  pose proof (oo_rx _ _ _ Hok) as [_ Hrx]. pose proof (oo_chan _ _ _ Hok) as [Hcl _].
  pose proof (oo_start _ _ _ Hok) as Hst.
  assert (Hdec : poller_poll metrics due rt = poller_poll metrics false rt →
    cycles_left rt1 = cycles_left rt ∧ out_fuel rt1 < out_fuel rt).
  { intros Heq. rewrite Heq in Hp. split; [|by eapply (poller_fuel_dec metrics)].
    apply poller_poll_cycle; try done. intros Hsp. by destruct (Hst Hsp) as (_&?&_). }
  clear Hok Hrun. destruct rt as [e ti to tp ri ro rp rb]. cbn in *. subst rp.
  destruct tp; [right; apply Hdec; by destruct due|  |done].
  destruct (poll_sending e) eqn:Hs; [right; apply Hdec, poller_poll_due; cbn; rewrite Hs; by left|].
  destruct (poll_pending e) eqn:Hpp; [right; apply Hdec, poller_poll_due; cbn; rewrite Hpp; by auto|].
  left. unfold poller_poll, cycles_left, idle_tick in *. cbn in *. rewrite Hs, Hpp in *.
  destruct due; [|done]. injection Hp as <-. cbn. unfold nothing_to_ask, poll_begin in *.
  destruct (_ <=? _)%Z; [done|]. cbn in Hidle. destruct (changes_between _ _ _); [|done]. cbn.
  rewrite Z.leb_refl. lia.
Qed.

Lemma turn_work db doc (rt rt1 : RT) :
  (∃ h, outbound_run cfg metrics health db doc h rt) → turn rt rt1 →
  (∃ h, outbound_run cfg metrics health db doc h rt1) ∧
  (inbound_work rt1 < inbound_work rt ∨ inbound_work rt1 = inbound_work rt ∧
   (cycles_left rt1 < cycles_left rt ∨ cycles_left rt1 = cycles_left rt ∧ out_fuel rt1 < out_fuel rt)).
Proof.
  intros [h Hrun] Ht. pose proof (outbound_run_pipe_ok _ _ _ _ Hrun) as Hok. destruct Ht as [t c due rt1 Hi Hp|i c e1 Hp].
  - split; [eexists; by eapply or_task|]. destruct t.
    + left. by apply inbound_poll_work.
    + left. by eapply batcher_poll_work.
    + left. by eapply flush_poll_work.
    + right. destruct (outbound_poll_work _ _ _ _ _ Hrun Hp) as (?&?&?). auto.
    + right. by destruct (poller_poll_work _ _ _ _ _ _ Hrun Hp Hi) as (?&?).
  - split; [eexists; by eapply or_orphan|]. left. by eapply orphan_thread_work.
Qed.

(** ** Where no turn is left *)

(** Whether a task has a turn does not depend on what the flush does, and a timer
    that has fired only helps. *)
Lemma turn_red (rt : RT) :
  red turn rt ↔ Exists (λ t, idle_tick t rt = false ∧ is_Some (task_poll cfg metrics health t BkGo true rt))
    [TInbound; TBatcher; TFlush; TOutbound; TPoller] ∨ 0 < orphan_fuel (rt_engine rt).
Proof.
  rewrite Exists_exists, orphan_ready. split.
  - intros [rt1 [t c due rt2 Hi Hp|i c e1 Hp]].
    + left. exists t. split; [destruct t; set_solver|]. split; [done|].
      destruct t; cbn in *; [by eexists| | |by eexists|].
      * unfold batcher_poll, flush_join, batcher_join in *. repeat case_match; by eexists.
      * unfold flush_poll, flush_thread, flight_step in *. destruct (mb_flight _) as [fl|]; [|done].
        destruct (blocking_step c _ _) as [x|] eqn:Hb; [|done].
        assert (Hr : is_Some (blocking_step c (fl_task fl) (mb_fs (batcher (rt_engine rt))))) by (rewrite Hb; by eexists).
        apply blocking_step_ready in Hr. apply (blocking_step_ready BkGo _ (mb_fs (batcher (rt_engine rt)))) in Hr as [[??] ->].
        by eexists.
      * unfold poller_poll in *. repeat case_match; by eexists.
    + right. exists i. unfold orphan_thread, background_step in *. destruct (_ !! i) as [bk|]; [|done].
      destruct (blocking_step c _ _) as [x|] eqn:Hb; [|done].
      assert (Hr : is_Some (blocking_step c bk (mb_fs (batcher (rt_engine rt))))) by (rewrite Hb; by eexists).
      apply blocking_step_ready in Hr. apply (blocking_step_ready BkGo _ (mb_fs (batcher (rt_engine rt)))) in Hr as [[??] ->].
      by eexists.
  - intros [(t&_&Hi&[rt1 Hp])|(i&e1&Hp)]; eexists; [by eapply (turn_task _ t BkGo true)|by eapply turn_orphan].
Qed.

#[local] Instance turn_red_dec (rt : RT) : Decision (red turn rt).
Proof.
  refine (cast_if (decide (Exists (λ t, idle_tick t rt = false ∧ is_Some (task_poll cfg metrics health t BkGo true rt))
    [TInbound; TBatcher; TFlush; TOutbound; TPoller] ∨ 0 < orphan_fuel (rt_engine rt)))); by rewrite turn_red.
Defined.

Definition at_rest (t : Task) (rt : RT) : Prop :=
  idle_tick t rt = true ∨ task_poll cfg metrics health t BkGo true rt = None.

Lemma turn_nf (rt : RT) : nf turn rt ↔ (∀ t, at_rest t rt) ∧ orphan_fuel (rt_engine rt) = 0.
Proof.
  unfold nf. rewrite turn_red, Exists_exists. unfold at_rest. split.
  - intros Hn. split; [|destruct (decide (0 < orphan_fuel (rt_engine rt))); [destruct Hn; by right|lia]].
    intros t. destruct (idle_tick t rt) eqn:Hi; [by left|right].
    apply eq_None_not_Some. intros Hp. apply Hn. left. exists t. split; [destruct t; set_solver|done].
  - intros [Ht Hz] [(t&_&Hi&[rt1 Hp])|?]; [|lia]. destruct (Ht t); congruence.
Qed.

(** No inbound task waits for another one for good: the batch channel has room, a
    flush ends, and the worker leaves once the batcher has. *)
Lemma inbound_at_rest (rt : RT) :
  pipe_ok rt →
  (at_rest TInbound rt ∧ at_rest TBatcher rt ∧ at_rest TFlush rt) ↔
  match status_of rt with
  | Running => rt_batcher_rx rt = Some false ∧ rt_inbound rt = InSelect ∧ pipe_idle rt
  | Finished _ => rt_inbound rt = InDone ∨ rt_inbound rt = InSelect ∧ ch_queue (inbound (rt_engine rt)) = []
  end.
Proof.
  intros [Hri Hrb Hroom Ht Hfl]. destruct rt as [e ti to tp ri ro rp rb].
  unfold at_rest, pipe_idle, in_flight, held, batcher_of, status_of in *. cbn in *. subst ri.
  unfold inbound_poll, batcher_poll, flush_poll, flush_thread, flight_step. cbn. destruct (batcher_status e) as [|r].
  - split.
    + intros ([|Hi]&Hb&_); [done|]. destruct rb as [[]|]; [done| |by destruct Hb].
      destruct (mb_flight (batcher e)) as [fl|] eqn:Hf.
      { destruct Hb as [|Hb]; [done|]. unfold flush_join, batcher_join in Hb. rewrite Hf in Hb.
        by destruct (fl_task fl) as [| |[]|]. }
      destruct (ch_queue (batch_chan e)) eqn:Hq; [|by destruct Hb]. destruct (mb_buffer (batcher e)); [|by destruct Hb].
      destruct (Ht eq_refl) as [->|[op ->]].
      * by destruct (ch_queue (inbound e)).
      * unfold send_ready in Hi. rewrite Hq, bool_decide_true in Hi by done. done.
    + intros (->&->&Hf&Hn). rewrite Hn in *. apply app_nil in Hf as [_ Hf]. apply app_nil in Hf as [Hb Hf].
      apply app_nil in Hf as [Hq Hf]. cbn in Hf. rewrite Hb, Hq, Hf. split; [by right|]. split; [by left|by right].
  - split.
    + intros ([|Hi]&_); [done|]. destruct ti; [|done..|by left]. right. by destruct (ch_queue (inbound e)).
    + intros Hc. split; [right|split; [by right|right]].
      * by destruct Hc as [->|[-> ->]].
      * destruct (mb_flight (batcher e)) as [fl|]; [|done]. by destruct (Hfl fl eq_refl) as (_&?&_).
Qed.

(** Nor does the poller, nor the outbound worker. *)
Lemma outbound_at_rest doc h (rt : RT) :
  out_ok doc h rt →
  (at_rest TOutbound rt ∧ at_rest TPoller rt) ↔
  rt_outbound rt = OutSelect ∧ ch_queue (outbound (rt_engine rt)) = [] ∧ rt_poller rt = PollRun ∧
  poll_pending (rt_engine rt) = None ∧ poll_sending (rt_engine rt) = None ∧ nothing_to_ask (rt_engine rt) = true.
Proof.
  intros Hok. pose proof (oo_rx _ _ _ Hok) as [Hro Hrp]. pose proof (oo_chan _ _ _ Hok) as [Hcl Hcap].
  pose proof (oo_live _ _ _ Hok) as [Hlo Hlp]. clear Hok. destruct rt as [e ti to tp ri ro rp rb].
  unfold at_rest. cbn in *. subst ro rp. unfold outbound_poll, poller_poll. cbn. split.
  - intros [[|Ho] Hp]; [done|]. destruct to; [|done..].
    destruct (ch_queue (outbound e)) eqn:Hq; [|by destruct (outbound_apply metrics e)].
    destruct tp; [by destruct Hp| |done]. destruct (poll_sending e).
    { destruct Hp as [|Hp]; [done|]. rewrite Hcl in Hp. unfold send_ready in Hp.
      by rewrite Hq, bool_decide_true in Hp by done. }
    destruct (poll_pending e) as [[cur [|ev evs]]|]; destruct Hp as [Hp|Hp]; done.
  - intros (->&->&->&->&->&->). split; [by right|by left].
Qed.

Lemma settled_nf db doc h (rt : RT) : outbound_run cfg metrics health db doc h rt → nf turn rt ↔ settled rt.
Proof.
  intros Hrun. pose proof (inbound_at_rest rt (outbound_run_pipe_ok _ _ _ _ Hrun)) as Hi.
  pose proof (outbound_at_rest doc h rt (outbound_run_ok cfg metrics health _ _ _ _ Hrun)) as Ho.
  rewrite turn_nf. unfold settled. rewrite <-Hi, <-Ho. split; [intros [? ?]; auto 10|].
  intros ((?&?&?)&?&?&?). split; [|done]. by intros [].
Qed.

Lemma turns_run db doc (rt rt1 : RT) :
  rtc turn rt rt1 → (∃ h, outbound_run cfg metrics health db doc h rt) → ∃ h, outbound_run cfg metrics health db doc h rt1.
Proof. induction 1 as [|x y z Hxy _ IH]; [done|]. intros Hx. apply IH. by eapply turn_work. Qed.

(** C6: the bridge settles.  From every state the engine can be in, whatever
    commits, writes, failed flushes and timeouts led there, and left to itself
    from then on, the four tasks and the threads of the flushes can only take
    finitely many turns, whatever the schedule, the timers, the panics and the
    timeouts: a change is not passed back and forth for ever.  Turns are left
    exactly while something is on its way, so no task waits for another one for
    good and a settled state is reached.  There no poll of any task changes
    anything and no thread runs.  If the batcher runs, no operation is on its way
    to the graph; if it has failed, its worker has left or waits.  Of the changes
    grafeo reported, those of other writers have all been translated, in order;
    changes of the bridge itself have been translated only if they leaked past the
    poller between the commit of their flush and its recording; and the document
    is what these translations and all commits make of the first one. *)
Theorem bridge_settles (db : D) (doc : L) (h : History L) (rt : RT)
  (Hrun : outbound_run cfg metrics health db doc h rt) :
  sn turn rt ∧
  (∃ rt', rtc turn rt rt' ∧ settled rt') ∧
  ∀ rt', rtc turn rt rt' →
    (nf turn rt' ↔ settled rt') ∧
    (settled rt' →
      (∀ t c due rt1, task_poll cfg metrics health t c due rt' = Some rt1 → rt1 = rt') ∧
      (∀ i c, orphan_thread i c (rt_engine rt') = None) ∧
      ∃ h', outbound_run cfg metrics health db doc h' rt' ∧
        foreign (hi_bridge h') (applied h') = foreign (hi_bridge h') (reported h') ∧
        own (hi_bridge h') (applied h') `sublist_of` hi_leaks h' ∧
        loro_doc (rt_engine rt') = foldl act_doc doc (hi_acts h')).
Proof.
  assert (Hsn : sn turn rt).
  { apply (sn_lex3 turn (λ rt, ∃ h, outbound_run cfg metrics health db doc h rt) inbound_work cycles_left out_fuel);
      [|by exists h]. intros x y. apply turn_work. }
  assert (Hnf : ∀ rt', rtc turn rt rt' → nf turn rt' ↔ settled rt').
  { intros rt' Hr. destruct (turns_run db doc rt rt' Hr) as [h' Hrun']; [by exists h|]. by eapply settled_nf. }
  split; [done|]. split.
  { destruct (sn_wn rt Hsn) as (rt'&Hr&Hn). exists rt'. split; [done|]. by apply Hnf. }
  intros rt' Hr. split; [by apply Hnf|]. intros Hset.
  destruct (turns_run db doc rt rt' Hr) as [h' Hrun']; [by exists h|].
  pose proof (outbound_run_ok cfg metrics health _ _ _ _ Hrun') as Hok. pose proof (proj2 (Hnf rt' Hr) Hset) as Hn.
  split; [|split].
  - intros t c due rt1 Hp. destruct (idle_tick t rt') eqn:Hi.
    + eapply idle_tick_id; [|done..]. apply (oo_rx _ _ _ Hok).
    + destruct Hn. exists rt1. by eapply turn_task.
  - intros i c. apply eq_None_not_Some. intros [e1 He]. destruct Hn. eexists. by eapply turn_orphan.
  - exists h'. split; [done|]. destruct Hset as (_&_&_&Hq&_&Hpp&Hps&_).
    split; [by eapply out_ok_caught_up|]. split; [|apply Hok].
    destruct (out_ok_own _ _ _ Hok) as [Ho _]. etrans; [|exact Ho]. rewrite own_app. by apply sublist_inserts_r.
Qed.
End settle.

(** ** A concrete run *)

(** A vertex typed and deleted by another writer: its deletion is on the way to
    the document, and the bridge settles. *)
Lemma bridge_settles_witness :
  let rt := out_deleted.2 in
  idle_tick TPoller rt = false ∧ is_Some (poller_poll true true rt) ∧ sn (turn cfg1 true true) rt ∧
  ∃ rt', rtc (turn cfg1 true true) rt rt' ∧ settled rt'.
Proof.
  intros rt.
  destruct (bridge_settles cfg1 true true memdb_new MemLoro_new out_deleted.1 rt out_deleted_run) as (Hsn & Hwn & _).
  split; [vm_compute; reflexivity|]. split; [vm_compute; by eexists|]. by split.
Defined.

(** Turns of all tasks, their timers fired but for the flush timeout. *)
Definition turn_round (rt : Runtime MemDb MemLoro) : Runtime MemDb MemLoro :=
  foldl (λ rt t, default rt (task_poll cfg1 true true t BkGo (ticking rt) rt)) rt
    [TInbound; TBatcher; TFlush; TFlush; TPoller; TOutbound].

(** An edit from its commit to rest: the graph has the vertex, its commit is
    recognised as the bridge's own, nothing comes back to the document. *)
Example typed_vertex_settles :
  let rt := Nat.iter 6 turn_round rt0 in
  let e := local_commit true "typing" edit_v (rt_engine rt) in
  let rt' := Nat.iter 8 turn_round (set_eng e rt) in
  length (ch_queue (inbound e)) = 1 ∧ node_id_map (maps (rt_engine rt')) !! "v"%string = Some (mkNodeId 1) ∧
  ct_echo_outbound (counters (rt_engine rt')) = 1%Z ∧ ct_outbound_events (counters (rt_engine rt')) = [] ∧
  in_flight rt' = [] ∧ poll_pending (rt_engine rt') = None ∧ nothing_to_ask (rt_engine rt') = true.
Proof. vm_compute. repeat split. Qed.
