(* ===== verification/Graph.v ===== *)
(** * Reachability, acyclicity and the two graph searches

    The facts on relations the graph components share, the three-colour
    depth-first search both acyclicity checkers run, and the breadth-first
    search of the cycle pre-check, each with its correctness and the fuel that
    is enough. *)

From S2P Require Import Prelude.

Definition acyclic {A} (R : relation A) : Prop := ∀ x, ¬ tc R x x.

Section relations.
  Context {A : Type}.
  Implicit Types R : relation A.

Lemma tc_rtc_iff R x y : tc R x y ↔ ∃ z, R x z ∧ rtc R z y.
Proof.
  split.
  - destruct 1 as [x y|x y z]; eauto using rtc_refl, tc_rtc.
  - intros (z&Hxz&Hzy). revert x Hxz. induction Hzy as [z|z w y Hzw _ IH]; intros x Hxz.
    + by apply tc_once.
    + eapply tc_l; [exact Hxz|]. by apply IH.
Qed.

Lemma rtc_tc_trans R x y z : rtc R x y → tc R y z → tc R x z.
Proof. intros Hxy Hyz. eapply tc_rtc_l; eauto. Qed.

Lemma acyclic_sub R R' : (∀ x y, R' x y → R x y) → acyclic R → acyclic R'.
Proof. intros Hsub Hac x Hx. apply (Hac x). exact (tc_congruence (R:=R') id R _ _ Hsub Hx). Qed.

(** An edge whose target does not reach its source closes no cycle, and only
    such an edge does not. *)
Lemma acyclic_add_edge R a b :
  acyclic R →
  acyclic (λ x y, R x y ∨ (x = a ∧ y = b)) ↔ ¬ rtc R b a.
Proof.
  intros Hac. set (R' := λ x y, _). split.
  - intros Hac' Hba. apply (Hac' a). apply tc_rtc_iff. exists b. split; [by right|].
    eapply rtc_subrel; [|exact Hba]. intros ??. by left.
  - intros Hba x Hx.
    assert (Hsplit : ∀ u v, rtc R' u v → rtc R u v ∨ rtc R u a ∧ rtc R b v).
    { intros u v. induction 1 as [u|u w v [Huw|[-> ->]] _ IH]; [left; apply rtc_refl| |].
      - destruct IH as [?|[? ?]]; [left|right; split; [|done]]; by eapply rtc_l.
      - destruct IH as [?|[? ?]]; [right; split; [apply rtc_refl|done]|done]. }
    apply tc_rtc_iff in Hx as (z&[Hxz|[-> ->]]&Hzx).
    + destruct (Hsplit _ _ Hzx) as [Hr|[Hza Hbx]].
      * apply (Hac x), tc_rtc_iff. eauto.
      * apply Hba. etrans; [exact Hbx|]. eapply rtc_l; eauto.
    + destruct (Hsplit _ _ Hzx) as [Hr|[Hza _]]; by apply Hba.
Qed.

Lemma rtc_closed R (P : A → Prop) x y :
  (∀ u v, P u → R u v → P v) → P x → rtc R x y → P y.
Proof. intros Hcl Hx. induction 1; eauto. Qed.
End relations.

Lemma tc_flip {A} (R : relation A) x y : tc (flip R) x y → tc R y x.
Proof.
  induction 1 as [x y Hxy|x y z Hxy _ IH]; [by apply tc_once|]. eapply tc_r; [exact IH|exact Hxy].
Qed.

Lemma tc_flip_iff {A} (R : relation A) x y : tc (flip R) x y ↔ tc R y x.
Proof. split; [apply tc_flip|]. intros H. by apply (tc_flip (flip R)). Qed.

(** ** Three-colour depth-first search *)

Inductive Color : Type := White | Gray | Black.
#[export] Instance Color_eq_dec : EqDecision Color.
Proof. solve_decision. Defined.

Section dfs.
  Context {A : Type} `{Countable A} (children : A → list A).

(** A frame is a node and the children it has not looked at yet. *)
Notation Stack := (list (A * list A)).

Definition color_of (color : gmap A Color) (x : A) : Color := default White (color !! x).

(** The [while] loop: [Err (cur, next)] is a back edge. *)
Fixpoint dfs_loop (fuel : nat) (stack : Stack) (color : gmap A Color) :
    option (result (A * A) (gmap A Color)) :=
  match fuel with
  | 0 => None
  | S fuel =>
      match stack with
      | [] => Some (Ok color)
      | (cur, []) :: stack => dfs_loop fuel stack (<[cur := Black]> color)
      | (cur, next :: iter) :: stack =>
          match color_of color next with
          | White => dfs_loop fuel ((next, children next) :: (cur, iter) :: stack)
                       (<[next := Gray]> color)
          | Gray => Some (Err (cur, next))
          | Black => dfs_loop fuel ((cur, iter) :: stack) color
          end
      end
  end.

(** The [for] loop over the roots. *)
Fixpoint dfs_all (fuel : nat) (roots : list A) (color : gmap A Color) :
    option (result (A * A) (gmap A Color)) :=
  match roots with
  | [] => Some (Ok color)
  | root :: roots =>
      match color_of color root with
      | White =>
          match dfs_loop fuel [(root, children root)] (<[root := Gray]> color) with
          | Some (Ok color) => dfs_all fuel roots color
          | other => other
          end
      | _ => dfs_all fuel roots color
      end
  end.

Definition child_rel : relation A := λ x y, y ∈ children x.

(** What the loop knows: gray nodes are the stack, the stack is a path, a
    frame's children are still to do, black, or the frame above; black nodes
    are closed under the edges and on no cycle. *)
Fixpoint stack_ok (above : option A) (stack : Stack) (color : gmap A Color) : Prop :=
  match stack with
  | [] => True
  | (x, rem) :: rest =>
      (∀ y, above = Some y → child_rel x y) ∧
      (∀ y, y ∈ rem → child_rel x y) ∧
      (∀ y, child_rel x y → y ∈ rem ∨ color_of color y = Black ∨ above = Some y) ∧
      stack_ok (Some x) rest color
  end.

Record dfs_inv (stack : Stack) (color : gmap A Color) : Prop := {
  di_nodup : NoDup stack.*1;
  di_gray x : color_of color x = Gray ↔ x ∈ stack.*1;
  di_path : stack_ok None stack color;
  di_closed x y : color_of color x = Black → child_rel x y → color_of color y = Black;
  di_black x : color_of color x = Black → ¬ tc child_rel x x
}.

Lemma color_of_insert color x y c :
  color_of (<[x := c]> color) y = if decide (x = y) then c else color_of color y.
Proof. unfold color_of. rewrite lookup_insert. by case_decide. Qed.

(** Colouring a node that is not a finished one keeps the frames below. *)
Lemma stack_ok_color above stack color x c :
  (c = Black ∨ color_of color x ≠ Black) →
  stack_ok above stack color → stack_ok above stack (<[x := c]> color).
Proof.
  intros Hx. revert above. induction stack as [|[y rem] stack IH]; intros above; cbn; [done|].
  intros (H1&H2&H3&H4). split_and!; try done; [|by apply IH].
  intros z Hz. rewrite color_of_insert. case_decide; subst; [|by apply H3].
  destruct Hx as [->|Hx]; [by right; left|]. destruct (H3 z Hz) as [?|[?|?]]; naive_solver.
Qed.

(** The node below the top reaches every node above it. *)
Lemma stack_ok_reach above stack color x y :
  stack_ok above stack color → above = Some y → x ∈ stack.*1 → tc child_rel x y.
Proof.
  revert above y. induction stack as [|[z rem] stack IH]; intros above y; cbn.
  { by intros _ _ ?%elem_of_nil. }
  intros (H1&_&_&H4) ->. intros [->|Hin]%elem_of_cons.
  - by apply tc_once, H1.
  - eapply tc_r; [by apply (IH (Some z) z)|]. by apply H1.
Qed.

Lemma dfs_inv_pop cur stack color :
  dfs_inv ((cur, []) :: stack) color → dfs_inv stack (<[cur := Black]> color).
Proof.
  intros [Hnd Hg (H1&H2&H3&H4) Hcl Hb]. cbn in Hnd. apply NoDup_cons in Hnd as [Hni Hnd].
  assert (Hcur : color_of color cur = Gray) by (apply Hg; left).
  assert (Hch : ∀ y, child_rel cur y → color_of color y = Black).
  { intros y Hy. destruct (H3 y Hy) as [?%elem_of_nil|[?|?]]; done. }
  split.
  - done.
  - intros x. rewrite color_of_insert. case_decide; subst; [naive_solver|].
    rewrite Hg. cbn. rewrite elem_of_cons. naive_solver.
  - apply (stack_ok_color _ _ _ cur Black) in H4; [|by left].
    destruct stack as [|[x rem] stack]; [done|]. cbn in *. destruct H4 as (K1&K2&K3&K4).
    split; [done|]. split; [done|]. split; [|done]. intros y Hy.
    destruct (K3 y Hy) as [?|[?|[= <-]]]; [by left|by right; left|right; left].
    by rewrite color_of_insert, decide_True.
  - intros x y. rewrite !color_of_insert. case_decide; subst.
    + intros _ Hy. case_decide; [done|by apply Hch].
    + intros Hx Hy. case_decide; [done|by eapply Hcl].
  - intros x. rewrite color_of_insert. case_decide; subst; [|by apply Hb].
    intros _ Hcyc. apply tc_rtc_iff in Hcyc as (z&Hz&Hzx).
    assert (color_of color x = Black); [|congruence].
    eapply (rtc_closed child_rel (λ u, color_of color u = Black)); [|by apply Hch|exact Hzx].
    intros u v. apply Hcl.
Qed.

Lemma dfs_inv_push cur next iter stack color :
  color_of color next = White → dfs_inv ((cur, next :: iter) :: stack) color →
  dfs_inv ((next, children next) :: (cur, iter) :: stack) (<[next := Gray]> color).
Proof.
  intros Hw [Hnd Hg (H1&H2&H3&H4) Hcl Hb].
  assert (Hnb : color_of color next ≠ Black) by congruence.
  assert (Hni : next ∉ cur :: stack.*1).
  { intros Hin. change (next ∈ ((cur, next :: iter) :: stack).*1) in Hin.
    apply Hg in Hin. congruence. }
  split.
  - cbn. by apply NoDup_cons.
  - intros x. rewrite color_of_insert. cbn. case_decide; subst; [split; [left|done]|].
    rewrite Hg. cbn. rewrite (elem_of_cons _ x next). naive_solver.
  - cbn. split; [done|]. split; [done|]. split; [by left|].
    split; [intros y [= <-]; apply H2; left|]. split; [intros y Hy; apply H2; by right|].
    split; [|by apply stack_ok_color; [right|]].
    intros y Hy. rewrite color_of_insert. case_decide; subst; [by right; right|].
    destruct (H3 y Hy) as [[->|?]%elem_of_cons|[?|?]]; naive_solver.
  - intros x y. rewrite !color_of_insert. case_decide; [done|]. intros Hx Hy.
    specialize (Hcl _ _ Hx Hy). case_decide; subst; congruence.
  - intros x. rewrite color_of_insert. case_decide; [done|]. apply Hb.
Qed.

Lemma dfs_inv_skip cur next iter stack color :
  color_of color next = Black → dfs_inv ((cur, next :: iter) :: stack) color →
  dfs_inv ((cur, iter) :: stack) color.
Proof.
  intros Hbl [Hnd Hg (H1&H2&H3&H4) Hcl Hb]. split; try done. cbn.
  split; [done|]. split; [intros y Hy; apply H2; by right|]. split; [|done].
  intros y Hy. destruct (H3 y Hy) as [[->|?]%elem_of_cons|[?|?]]; auto.
Qed.

Lemma dfs_loop_spec fuel stack color r :
  dfs_inv stack color → dfs_loop fuel stack color = Some r →
  match r with
  | Ok color' => dfs_inv [] color' ∧
      (∀ x, color_of color x = Black ∨ x ∈ stack.*1 → color_of color' x = Black)
  | Err (cur, next) => child_rel cur next ∧ rtc child_rel next cur
  end.
Proof.
  revert stack color. induction fuel as [|fuel IH]; intros stack color Hinv; cbn; [done|].
  destruct stack as [|[cur [|next iter]] stack].
  - intros [= <-]. split; [done|]. intros x [?|?%elem_of_nil]; done.
  - intros Hr. specialize (IH _ _ (dfs_inv_pop _ _ _ Hinv) Hr). destruct r as [color'|[]]; [|done].
    destruct IH as [? Hbl]. split; [done|]. intros x Hx. apply Hbl.
    rewrite color_of_insert. case_decide; [by left|]. destruct Hx as [?|Hx]; [by left|].
    cbn in Hx. apply elem_of_cons in Hx as [?|?]; [congruence|by right].
  - destruct (color_of color next) eqn:Hc; intros Hr.
    + specialize (IH _ _ (dfs_inv_push _ _ _ _ _ Hc Hinv) Hr). destruct r as [color'|[]]; [|done].
      destruct IH as [? Hbl]. split; [done|]. intros x Hx. apply Hbl.
      rewrite color_of_insert. cbn. destruct Hx as [Hx|Hx]; [left; case_decide; congruence|].
      right. by right.
    + injection Hr as <-. destruct Hinv as [Hnd Hg (H1&H2&H3&H4) _ _].
      split; [apply H2; left|]. apply Hg in Hc. cbn in Hc.
      apply elem_of_cons in Hc as [->|Hin]; [apply rtc_refl|].
      by apply tc_rtc, (stack_ok_reach (Some cur) stack color).
    + specialize (IH _ _ (dfs_inv_skip _ _ _ _ _ Hc Hinv) Hr). destruct r as [color'|[]]; [|done].
      done.
Qed.

Lemma dfs_inv_start root color :
  color_of color root = White → dfs_inv [] color →
  dfs_inv [(root, children root)] (<[root := Gray]> color).
Proof.
  intros Hw [_ Hg _ Hcl Hb]. split.
  - cbn. apply NoDup_singleton.
  - intros x. rewrite color_of_insert. cbn. rewrite list_elem_of_singleton.
    case_decide; subst; [done|]. rewrite Hg. cbn. split; [by intros ?%elem_of_nil|congruence].
  - cbn. split; [done|]. split; [done|]. split; [by left|done].
  - intros x y. rewrite !color_of_insert. case_decide; [done|]. intros Hx Hy.
    specialize (Hcl _ _ Hx Hy). case_decide; subst; congruence.
  - intros x. rewrite color_of_insert. case_decide; [done|]. apply Hb.
Qed.

Lemma dfs_all_spec fuel roots color r :
  dfs_inv [] color → dfs_all fuel roots color = Some r →
  match r with
  | Ok color' => dfs_inv [] color' ∧
      (∀ x, color_of color x = Black ∨ x ∈ roots → color_of color' x = Black)
  | Err (cur, next) => child_rel cur next ∧ rtc child_rel next cur
  end.
Proof.
  revert color. induction roots as [|root roots IH]; intros color Hinv; cbn.
  { intros [= <-]. split; [done|]. intros x [?|?%elem_of_nil]; done. }
  destruct (color_of color root) eqn:Hc.
  - destruct (dfs_loop _ _ _) as [[color1|[]]|] eqn:Hl; [| |done].
    + pose proof (dfs_loop_spec _ _ _ _ (dfs_inv_start _ _ Hc Hinv) Hl) as [Hinv1 Hb1].
      intros Hr. specialize (IH _ Hinv1 Hr). destruct r as [color'|[]]; [|done].
      destruct IH as [? Hb]. split; [done|]. intros x Hx. apply Hb.
      destruct Hx as [Hx|[->|?]%elem_of_cons]; [left|left|by right]; apply Hb1.
      * left. rewrite color_of_insert. case_decide; congruence.
      * right. cbn. left.
    + intros [= <-]. by apply (dfs_loop_spec _ _ _ _ (dfs_inv_start _ _ Hc Hinv) Hl).
  - apply (di_gray _ _ Hinv) in Hc. by apply elem_of_nil in Hc.
  - intros Hr. specialize (IH _ Hinv Hr). destruct r as [color'|[]]; [|done].
    destruct IH as [? Hb]. split; [done|]. intros x Hx. apply Hb.
    destruct Hx as [Hx|[->|?]%elem_of_cons]; auto.
Qed.

(** ** Termination *)

(** Work left for the white nodes of [univ] and the frames of the stack. *)
Definition white_work (univ : list A) (color : gmap A Color) : nat :=
  sum_list_with (λ x, if decide (color_of color x = White) then length (children x) + 2 else 0) univ.

Definition stack_work (stack : Stack) : nat := sum_list_with (λ f, S (length f.2)) stack.

Lemma white_work_insert univ color x c :
  NoDup univ → x ∈ univ → color_of color x = White → c ≠ White →
  white_work univ color = white_work univ (<[x := c]> color) + (length (children x) + 2).
Proof.
  intros Hnd Hx Hw Hc. induction Hnd as [|y univ Hy Hnd IH]; [by apply elem_of_nil in Hx|].
  cbn. apply elem_of_cons in Hx as [<-|Hx].
  - rewrite decide_True by done. rewrite color_of_insert, (decide_True _ _ (eq_refl x)).
    rewrite decide_False by done.
    assert (white_work univ (<[x:=c]> color) = white_work univ color); [|unfold white_work in *; lia].
    clear IH Hnd. induction univ as [|z univ IHu]; [done|]. cbn.
    apply not_elem_of_cons in Hy as [Hne Hy]. rewrite color_of_insert, (decide_False (P:=x = z)) by done.
    f_equal. by apply IHu.
  - rewrite (color_of_insert color x y c). rewrite (decide_False (P:=x = y)) by (intros ->; done).
    specialize (IH Hx). unfold white_work in *. lia.
Qed.

Lemma white_work_le univ color x c :
  color_of color x ≠ White → c ≠ White →
  white_work univ (<[x := c]> color) = white_work univ color.
Proof.
  intros Hx Hc. induction univ as [|y univ IH]; [done|]. cbn. f_equal; [|exact IH].
  rewrite color_of_insert. destruct (decide (x = y)) as [->|]; [|done].
  by rewrite !decide_False.
Qed.

Lemma dfs_loop_total univ fuel stack color :
  NoDup univ → (∀ x y, child_rel x y → y ∈ univ) → dfs_inv stack color →
  white_work univ color + stack_work stack < fuel →
  ∃ r, dfs_loop fuel stack color = Some r.
Proof.
  intros Hnd Hun. revert stack color. induction fuel as [|fuel IH]; intros stack color Hinv Hf; [lia|].
  cbn. destruct stack as [|[cur [|next iter]] stack]; [eauto| |].
  - apply IH; [by apply dfs_inv_pop|]. rewrite white_work_le; [unfold stack_work in *; cbn [sum_list_with length snd] in *; lia| |done].
    assert (color_of color cur = Gray) as -> by (apply (di_gray _ _ Hinv); left). done.
  - destruct (color_of color next) eqn:Hc; [|eauto|].
    + apply IH; [by apply dfs_inv_push|].
      assert (Hin : next ∈ univ).
      { apply (Hun cur). destruct (di_path _ _ Hinv) as (_&H2&_). apply H2. left. }
      pose proof (white_work_insert univ color next Gray Hnd Hin Hc ltac:(done)).
      unfold stack_work in *; cbn [sum_list_with length snd] in *; lia.
    + apply IH; [by eapply dfs_inv_skip|].
      unfold stack_work in *; cbn [sum_list_with length snd] in *; lia.
Qed.

Lemma white_work_mono univ color color' :
  (∀ x, color_of color' x = White → color_of color x = White) →
  white_work univ color' ≤ white_work univ color.
Proof.
  intros Hw. induction univ as [|y univ IH]; [done|]. cbn.
  apply Nat.add_le_mono; [|exact IH]. repeat case_decide; try lia. naive_solver.
Qed.

Definition dfs_fuel (univ : list A) : nat := white_work univ ∅ + 1.

Lemma white_work_lt_fuel univ color : white_work univ color < dfs_fuel univ.
Proof. unfold dfs_fuel. rewrite Nat.add_1_r. by apply Nat.lt_succ_r, white_work_mono. Qed.

Lemma dfs_all_total univ roots color :
  NoDup univ → (∀ x y, child_rel x y → y ∈ univ) → (∀ x, x ∈ roots → x ∈ univ) →
  dfs_inv [] color → ∃ r, dfs_all (dfs_fuel univ) roots color = Some r.
Proof.
  intros Hnd Hun. revert color. induction roots as [|root roots IH]; intros color Hro Hinv; cbn; [eauto|].
  assert (Hro' : ∀ x, x ∈ roots → x ∈ univ) by (intros; apply Hro; by right).
  destruct (color_of color root) eqn:Hc; [|by apply IH..].
  destruct (dfs_loop_total univ (dfs_fuel univ) [(root, children root)] (<[root := Gray]> color))
    as [r Hr]; [done|done|by apply dfs_inv_start| |].
  - pose proof (white_work_insert univ color root Gray Hnd ltac:(apply Hro; left) Hc ltac:(done)).
    pose proof (white_work_lt_fuel univ color). unfold stack_work. cbn [sum_list_with length snd]. lia.
  - rewrite Hr. destruct r as [color1|]; [|eauto]. apply IH; [done|].
    by apply (dfs_loop_spec _ _ _ _ (dfs_inv_start _ _ Hc Hinv) Hr).
Qed.

(** The search over all nodes, from a map that colours none, decides acyclicity. *)
Lemma dfs_all_correct univ roots color0 :
  (∀ x, color_of color0 x = White) →
  NoDup univ → (∀ x y, child_rel x y → x ∈ roots ∧ y ∈ univ) → (∀ x, x ∈ roots → x ∈ univ) →
  ∃ r, dfs_all (dfs_fuel univ) roots color0 = Some r ∧
    match r with
    | Ok _ => acyclic child_rel
    | Err (cur, next) => child_rel cur next ∧ rtc child_rel next cur
    end.
Proof.
  intros Hw Hnd Hun Hro.
  assert (Hinv : dfs_inv [] color0).
  { split; [constructor| |done|..].
    - intros x. rewrite Hw. cbn. split; [done|by intros ?%elem_of_nil].
    - intros x y. by rewrite Hw.
    - intros x. by rewrite Hw. }
  destruct (dfs_all_total univ roots color0 Hnd (λ x y Hxy, proj2 (Hun x y Hxy)) Hro Hinv) as [r Hr].
  exists r. split; [done|]. pose proof (dfs_all_spec _ _ _ _ Hinv Hr) as Hs.
  destruct r as [color'|[]]; [|done]. destruct Hs as [Hinv' Hb].
  intros x Hx. pose proof Hx as Hx'. apply tc_rtc_iff in Hx' as (y&Hxy&_).
  destruct (Hun _ _ Hxy) as [Hxr _]. by apply (di_black _ _ Hinv' x); [apply Hb; right|].
Qed.
End dfs.

(** ** Breadth-first search for a target *)

Section bfs.
  Context {A : Type} `{Countable A} (nbrs : A → list A) (target : A).

(** The inner [for]: [None] when the target is found. *)
Fixpoint bfs_visit (ps : list A) (queue : list A) (visited : gset A) : option (list A * gset A) :=
  match ps with
  | [] => Some (queue, visited)
  | p :: ps =>
      if bool_decide (p = target) then None
      else if bool_decide (p ∈ visited) then bfs_visit ps queue visited
      else bfs_visit ps (queue ++ [p]) ({[p]} ∪ visited)
  end.

Fixpoint bfs_loop (fuel : nat) (queue : list A) (visited : gset A) : option bool :=
  match fuel with
  | 0 => None
  | S fuel =>
      match queue with
      | [] => Some false
      | cur :: queue =>
          match bfs_visit (nbrs cur) queue visited with
          | None => Some true
          | Some (queue, visited) => bfs_loop fuel queue visited
          end
      end
  end.

Definition nbr_rel : relation A := λ x y, y ∈ nbrs x.

Lemma bfs_visit_spec ps queue visited :
  match bfs_visit ps queue visited with
  | None => target ∈ ps
  | Some (queue', visited') =>
      target ∉ ps ∧ ∃ new, queue' = queue ++ new ∧ NoDup new ∧
        (∀ x, x ∈ new ↔ x ∈ ps ∧ x ∉ visited) ∧ visited' = list_to_set new ∪ visited
  end.
Proof.
  revert queue visited. induction ps as [|p ps IH]; intros queue visited; cbn.
  { split; [by intros ?%elem_of_nil|]. exists []. rewrite app_nil_r.
    split; [done|]. split; [constructor|]. split; [|set_solver].
    intros x. split; [by intros ?%elem_of_nil|by intros [?%elem_of_nil _]]. }
  case_bool_decide as Hp; [subst; left|]. case_bool_decide as Hv.
  - specialize (IH queue visited). destruct (bfs_visit _ _ _) as [[q' v']|]; [|by right].
    destruct IH as (Ht&new&->&Hnd&Hnew&->). split; [by apply not_elem_of_cons|].
    exists new. split; [done|]. split; [done|]. split; [|done].
    intros x. rewrite Hnew, elem_of_cons. naive_solver.
  - specialize (IH (queue ++ [p]) ({[p]} ∪ visited)).
    destruct (bfs_visit _ _ _) as [[q' v']|]; [|by right].
    destruct IH as (Ht&new&->&Hnd&Hnew&->). split; [by apply not_elem_of_cons|].
    exists (p :: new). split; [by rewrite <-(assoc_L (++))|]. split.
    { apply NoDup_cons. split; [|done]. rewrite Hnew. set_solver. }
    split; [|set_solver]. intros x. rewrite !elem_of_cons, Hnew.
    rewrite elem_of_union, elem_of_singleton.
    destruct (decide (x = p)) as [->|]; naive_solver.
Qed.

Record bfs_inv (start : A) (queue : list A) (visited : gset A) : Prop := {
  bi_start : start ∈ visited;
  bi_reach x : x ∈ visited → rtc nbr_rel start x;
  bi_queue x : x ∈ queue → x ∈ visited;
  bi_done x : x ∈ visited → x ∉ queue → ∀ y, nbr_rel x y → y ∈ visited ∧ y ≠ target
}.

Lemma bfs_loop_spec start fuel queue visited b :
  bfs_inv start queue visited → bfs_loop fuel queue visited = Some b →
  b = true ↔ tc nbr_rel start target.
Proof.
  revert queue visited. induction fuel as [|fuel IH]; intros queue visited Hinv; cbn; [done|].
  destruct Hinv as [Hs Hr Hq Hd]. destruct queue as [|cur queue].
  - intros [= <-]. split; [done|]. intros Ht. exfalso.
    apply tc_rtc_iff in Ht as (y&Hsy&Hyt).
    assert (Hcl : ∀ u v, u ∈ visited → nbr_rel u v → v ∈ visited).
    { intros u v Hu Huv. apply (Hd u Hu ltac:(by intros ?%elem_of_nil) v Huv). }
    apply rtc_inv_r in Hyt as [->|(z&Hyz&Hzt)].
    + by destruct (Hd start Hs ltac:(by intros ?%elem_of_nil) _ Hsy).
    + assert (Hz : z ∈ visited).
      { eapply (rtc_closed nbr_rel (λ u, u ∈ visited) y); [done| |done]. by eapply Hcl. }
      by destruct (Hd z Hz ltac:(by intros ?%elem_of_nil) _ Hzt).
  - pose proof (bfs_visit_spec (nbrs cur) queue visited) as Hv.
    assert (Hcur : rtc nbr_rel start cur) by (apply Hr, Hq; left).
    destruct (bfs_visit _ _ _) as [[q' v']|].
    + destruct Hv as (Ht&new&->&_&Hnew&->). apply IH. split.
      * set_solver.
      * intros x [Hx%elem_of_list_to_set|Hx]%elem_of_union; [|by apply Hr].
        apply Hnew in Hx as [Hx _]. eapply rtc_r; [exact Hcur|exact Hx].
      * intros x [Hx|Hx]%elem_of_app; [|set_solver].
        apply elem_of_union. right. apply Hq. by right.
      * intros x Hx Hxq y Hxy. rewrite elem_of_app in Hxq.
        destruct (decide (x = cur)) as [->|Hne].
        { split; [|intros ->; done]. destruct (decide (y ∈ visited)); [set_solver|].
          assert (y ∈ new) by by apply Hnew. set_solver. }
        assert (Hxv : x ∈ visited).
        { apply elem_of_union in Hx as [Hx%elem_of_list_to_set|?]; [|done]. tauto. }
        destruct (Hd x Hxv) with y; [|done|set_solver]. rewrite elem_of_cons. tauto.
    + intros [= <-]. split; [|done]. intros _. eapply rtc_tc_trans; [exact Hcur|].
      by apply tc_once.
Qed.

Lemma bfs_loop_total (univ : gset A) fuel queue visited :
  (∀ x y, nbr_rel x y → y ∈ univ) → size (univ ∖ visited) + length queue < fuel →
  ∃ b, bfs_loop fuel queue visited = Some b.
Proof.
  intros Hun. revert queue visited. induction fuel as [|fuel IH]; intros queue visited Hf; [lia|].
  cbn. destruct queue as [|cur queue]; [eauto|].
  pose proof (bfs_visit_spec (nbrs cur) queue visited) as Hv.
  destruct (bfs_visit _ _ _) as [[q' v']|]; [|eauto].
  destruct Hv as (_&new&->&Hnd&Hnew&->). apply IH. cbn in Hf. rewrite length_app.
  assert (Hsz : size (univ ∖ visited) = size (univ ∖ (list_to_set new ∪ visited)) + length new); [|lia].
  rewrite <-(size_list_to_set (C:=gset A)) by done. rewrite <-size_union by set_solver.
  f_equal. apply leibniz_equiv. intros x. specialize (Hnew x).
  destruct (decide (x ∈ new)) as [Hx|Hx].
  - assert (x ∈ univ) by (apply (Hun cur); tauto). set_solver.
  - set_solver.
Qed.

(** The search from [start] decides whether the target is strictly upstream. *)
Lemma bfs_correct (univ : gset A) fuel start :
  (∀ x y, nbr_rel x y → y ∈ univ) → size univ + 1 < fuel →
  ∃ b, bfs_loop fuel [start] {[start]} = Some b ∧ (b = true ↔ tc nbr_rel start target).
Proof.
  intros Hun Hf. destruct (bfs_loop_total univ fuel [start] {[start]}) as [b Hb]; [done| |].
  { assert (size (univ ∖ {[start]}) ≤ size univ) by (apply subseteq_size; set_solver). cbn. lia. }
  exists b. split; [done|]. eapply bfs_loop_spec; [|exact Hb]. split.
  - set_solver.
  - intros x ->%elem_of_singleton. apply rtc_refl.
  - intros x ->%list_elem_of_singleton. set_solver.
  - intros x ->%elem_of_singleton Hx. exfalso. apply Hx. left.
Qed.
End bfs.
