(* ===== verification/CycleGuard.v ===== *)
(** * Native tree guards ([src/schema/tree.rs], [src/schema/mod.rs])

    [CycleGuard], the parent-pointer map that rejects cycle-closing moves, and
    [RootTracker], the incremental root set. *)

From S2P Require Import Prelude Graph.

(** ** CycleGuard *)

Record CycleError : Type := mkCycleError { ce_node : string; ce_new_parent : string }.

#[export] Instance CycleError_eq_dec : EqDecision CycleError.
Proof. solve_decision. Defined.

Notation CycleGuard := (gmap string string) (only parsing).

Definition CycleGuard_new : CycleGuard := ∅.

(** The [loop] up the parent chain; [None] when the fuel runs out. *)
Fixpoint walk_up (fuel : nat) (g : CycleGuard) (node cur : string) : option bool :=
  match fuel with
  | 0 => None
  | S fuel =>
      if bool_decide (cur = node) then Some true
      else match g !! cur with
           | Some p => walk_up fuel g node p
           | None => Some false
           end
  end.

(** One more step than there are parent pointers. *)
Definition CycleGuard_would_create_cycle (g : CycleGuard) (node new_parent : string) : option bool :=
  if bool_decide (node = new_parent) then Some true
  else walk_up (S (size g)) g node new_parent.

Definition CycleGuard_apply_move (g : CycleGuard) (node new_parent : string) :
    option (result CycleError unit * CycleGuard) :=
  match CycleGuard_would_create_cycle g node new_parent with
  | None => None
  | Some true => Some (Err (mkCycleError node new_parent), g)
  | Some false => Some (Ok tt, <[node := new_parent]> g)
  end.

Definition CycleGuard_record_parent_unchecked (g : CycleGuard) (node parent : string) : CycleGuard :=
  <[node := parent]> g.
Definition CycleGuard_detach (g : CycleGuard) (node : string) : CycleGuard := delete node g.
Definition CycleGuard_parent_of (g : CycleGuard) (node : string) : option string := g !! node.
Definition CycleGuard_known_nodes (g : CycleGuard) : gset string := dom g.
Definition CycleGuard_len (g : CycleGuard) : nat := size g.
Definition CycleGuard_is_empty (g : CycleGuard) : bool := bool_decide (size g = 0).

Definition CycleGuard_roots `{SetOrder} (g : CycleGuard) : list string :=
  let all_nodes : gset string := map_fold (λ child parent acc, {[child]} ∪ ({[parent]} ∪ acc)) ∅ g in
  base.filter (λ n, ¬ is_Some (g !! n)) (set_iter all_nodes).

(** A client's sequence of moves and detachments. *)
Inductive GuardCmd : Type :=
| GMove (node new_parent : string)
| GDetach (node : string).

Definition guard_step (g : CycleGuard) (c : GuardCmd) : option CycleGuard :=
  match c with
  | GMove n p => snd <$> CycleGuard_apply_move g n p
  | GDetach n => Some (CycleGuard_detach g n)
  end.

Definition guard_run (cs : list GuardCmd) : option CycleGuard :=
  foldl (λ og c, og ≫= λ g, guard_step g c) (Some CycleGuard_new) cs.

Definition parent_rel (g : CycleGuard) : relation string := λ x y, g !! x = Some y.

Lemma walk_up_spec fuel g node cur b :
  walk_up fuel g node cur = Some b → (b = true ↔ rtc (parent_rel g) cur node).
Proof.
  revert cur. induction fuel as [|fuel IH]; intros cur; cbn; [done|].
  case_bool_decide as Hc; [intros [= <-]; subst; split; [intros; apply rtc_refl|done]|].
  destruct (g !! cur) as [p|] eqn:Hp.
  - intros Hw. rewrite (IH _ Hw). split; [intros; by eapply rtc_l|].
    intros [?|(y&Hy&?)]%rtc_inv; [done|]. unfold parent_rel in Hy. naive_solver.
  - intros [= <-]. split; [done|]. intros [?|(y&Hy&?)]%rtc_inv; [done|].
    unfold parent_rel in Hy. congruence.
Qed.

Lemma walk_up_total fuel g node cur visited :
  acyclic (parent_rel g) → NoDup visited →
  (∀ x, x ∈ visited → tc (parent_rel g) x cur) → size g < length visited + fuel →
  ∃ b, walk_up fuel g node cur = Some b.
Proof.
  intros Hac. revert cur visited. induction fuel as [|fuel IH]; intros cur visited Hnd Hv Hf; cbn.
  { assert (length visited ≤ size g); [|lia]. apply NoDup_dom_size; [done|].
    intros x Hx. apply Hv, tc_rtc_iff in Hx as (y&Hy&_). by eexists. }
  case_bool_decide; [eauto|]. destruct (g !! cur) as [p|] eqn:Hp; [|eauto].
  apply (IH _ (cur :: visited)); [|intros x [->|Hx]%elem_of_cons|cbn; lia].
  - apply NoDup_cons. split; [|done]. intros Hc%Hv. by apply (Hac cur).
  - by apply tc_once.
  - eapply tc_r; [by apply Hv|done].
Qed.

Lemma would_create_cycle_correct g node new_parent :
  acyclic (parent_rel g) →
  ∃ b, CycleGuard_would_create_cycle g node new_parent = Some b ∧
       (b = true ↔ rtc (parent_rel g) new_parent node).
Proof.
  intros Hac. unfold CycleGuard_would_create_cycle. case_bool_decide as Hn.
  - exists true. subst. split; [done|]. split; [intros; apply rtc_refl|done].
  - destruct (walk_up_total (S (size g)) g node new_parent []) as [b Hb];
      [done|constructor|by intros ? ?%elem_of_nil|cbn; lia|].
    exists b. split; [done|]. by eapply walk_up_spec.
Qed.

Lemma parent_rel_insert g n p :
  acyclic (parent_rel g) → ¬ rtc (parent_rel g) p n → acyclic (parent_rel (<[n := p]> g)).
Proof.
  intros Hac Hnr. apply (acyclic_add_edge _ n p Hac) in Hnr. eapply acyclic_sub; [|exact Hnr].
  intros x y. unfold parent_rel. rewrite lookup_insert. case_decide; naive_solver.
Qed.

Lemma guard_step_acyclic g c :
  acyclic (parent_rel g) → ∃ g', guard_step g c = Some g' ∧ acyclic (parent_rel g').
Proof.
  intros Hac. destruct c as [n p|n]; cbn.
  - destruct (would_create_cycle_correct g n p Hac) as (b&Hb&Hiff).
    unfold CycleGuard_apply_move. rewrite Hb. destruct b; cbn; [by exists g|].
    eexists. split; [done|]. apply parent_rel_insert; [done|]. intros ?%Hiff. done.
  - eexists. split; [done|]. eapply acyclic_sub; [|exact Hac].
    intros x y. unfold parent_rel, CycleGuard_detach. rewrite lookup_delete_Some. naive_solver.
Qed.

Lemma guard_run_acyclic cs : ∃ g, guard_run cs = Some g ∧ acyclic (parent_rel g).
Proof.
  unfold guard_run. induction cs as [|c cs IH] using rev_ind.
  - exists ∅. split; [done|]. intros x (y&Hy&_)%tc_rtc_iff. unfold parent_rel in Hy.
    by rewrite lookup_empty in Hy.
  - rewrite foldl_app. cbn. destruct IH as (g&->&Hac). cbn. by apply guard_step_acyclic.
Qed.

(** C17: after any sequence of moves and detachments the guard is acyclic, its
    next move terminates, and that move is refused, leaving the guard as it
    was, exactly when the new parent is the node or below it. *)
Theorem CycleGuard_exact (cs : list GuardCmd) (node new_parent : string) :
  ∃ g, guard_run cs = Some g ∧ acyclic (parent_rel g) ∧
    (rtc (parent_rel g) new_parent node ∧
       CycleGuard_apply_move g node new_parent = Some (Err (mkCycleError node new_parent), g) ∨
     ¬ rtc (parent_rel g) new_parent node ∧
       CycleGuard_apply_move g node new_parent = Some (Ok tt, <[node := new_parent]> g) ∧
       acyclic (parent_rel (<[node := new_parent]> g))).
Proof.
  destruct (guard_run_acyclic cs) as (g&Hg&Hac). exists g. split; [done|]. split; [done|].
  destruct (would_create_cycle_correct g node new_parent Hac) as (b&Hb&Hiff).
  unfold CycleGuard_apply_move. rewrite Hb. destruct b.
  - left. split; [by apply Hiff|done].
  - right. assert (¬ rtc (parent_rel g) new_parent node) by (intros ?%Hiff; done).
    split; [done|]. split; [done|]. by apply parent_rel_insert.
Qed.

(** [roots] lists, once each, the parents that have no parent themselves. *)
Lemma CycleGuard_roots_spec `{SetOrder} (g : CycleGuard) (x : string) :
  NoDup (CycleGuard_roots g) ∧
  (x ∈ CycleGuard_roots g ↔ CycleGuard_parent_of g x = None ∧ ∃ child, g !! child = Some x).
Proof.
  unfold CycleGuard_roots, CycleGuard_parent_of. set (all := map_fold _ _ g).
  assert (Hall : ∀ y, y ∈ all ↔ is_Some (g !! y) ∨ ∃ c, g !! c = Some y).
  { intros y. unfold all. apply (map_fold_weak_ind (λ r (m : gmap string string),
      y ∈ r ↔ is_Some (m !! y) ∨ ∃ c, m !! c = Some y)).
    - rewrite elem_of_empty. split; [done|]. intros [[]|[]]; by rewrite lookup_empty in *.
    - intros i p m r Hi IH. rewrite !elem_of_union, !elem_of_singleton, IH, lookup_insert.
      split.
      + intros [->|[->|[Hs|[c Hc]]]].
        * left. by rewrite decide_True.
        * right. exists i. apply lookup_insert_eq.
        * left. by case_decide.
        * right. exists c. rewrite lookup_insert_ne; [done|congruence].
      + case_decide; [by left|]. intros [?|[c Hc]]; [by right; right; left|].
        rewrite lookup_insert in Hc. case_decide; simplify_eq; [by right; left|].
        right. right. right. eauto. }
  split.
  - apply NoDup_filter. rewrite set_iter_elements. apply NoDup_elements.
  - rewrite list_elem_of_filter, set_iter_elem, Hall, <-eq_None_not_Some.
    split; [|intros [? ?]; split; [done|by right]].
    intros [Hn [[y Hy]|?]]; [congruence|done].
Qed.

(** A guard built with [record_parent_unchecked] may hold a cycle; a query that
    enters it and asks for a node off the cycle never ends. *)
Lemma unchecked_cycle_diverges (fuel : nat) :
  let g := CycleGuard_record_parent_unchecked
             (CycleGuard_record_parent_unchecked CycleGuard_new "a" "b") "b" "a" in
  walk_up fuel g "c" "a" = None ∧ walk_up fuel g "c" "b" = None.
Proof.
  intros g. induction fuel as [|fuel [IHa IHb]]; [done|].
  split; cbn [walk_up]; rewrite bool_decide_eq_false_2 by done.
  - by replace (g !! "a"%string) with (Some "b"%string) by (vm_compute; reflexivity).
  - by replace (g !! "b"%string) with (Some "a"%string) by (vm_compute; reflexivity).
Qed.

(** ** RootTracker *)

Record RootTracker : Type := mkRootTracker { has_parent : gset string; rt_roots : gset string }.

Definition RootTracker_new : RootTracker := mkRootTracker ∅ ∅.

Definition RootTracker_register_node (t : RootTracker) (node : string) : RootTracker :=
  if bool_decide (node ∈ has_parent t) then t
  else mkRootTracker (has_parent t) ({[node]} ∪ rt_roots t).

Definition RootTracker_unregister_node (t : RootTracker) (node : string) : RootTracker :=
  mkRootTracker (has_parent t ∖ {[node]}) (rt_roots t ∖ {[node]}).

Definition RootTracker_on_edge_inserted (t : RootTracker) (child _parent : string) : RootTracker :=
  mkRootTracker ({[child]} ∪ has_parent t) (rt_roots t ∖ {[child]}).

Definition RootTracker_on_edge_removed (t : RootTracker) (child _parent : string) : RootTracker :=
  mkRootTracker (has_parent t ∖ {[child]}) ({[child]} ∪ rt_roots t).

Definition RootTracker_roots (t : RootTracker) : gset string := rt_roots t.
Definition RootTracker_is_root (t : RootTracker) (node : string) : bool :=
  bool_decide (node ∈ rt_roots t).
Definition RootTracker_root_count (t : RootTracker) : nat := size (rt_roots t).
Definition RootTracker_non_root_count (t : RootTracker) : nat := size (has_parent t).
Definition RootTracker_is_empty (t : RootTracker) : bool :=
  bool_decide (rt_roots t = ∅) && bool_decide (has_parent t = ∅).

(** The graph a tracker follows: the nodes mentioned and the parent edges. *)
Record Forest : Type := mkForest { fo_nodes : gset string; fo_edges : gset (string * string) }.

Inductive ForestCmd : Type :=
| FRegister (node : string)
| FUnregister (node : string)
| FInsert (child parent : string)
| FRemove (child parent : string).

Definition forest_step (f : Forest) (c : ForestCmd) : Forest :=
  match c with
  | FRegister n => mkForest ({[n]} ∪ fo_nodes f) (fo_edges f)
  | FUnregister n => mkForest (fo_nodes f ∖ {[n]}) (fo_edges f)
  | FInsert c p => mkForest ({[c]} ∪ fo_nodes f) ({[(c, p)]} ∪ fo_edges f)
  | FRemove c p => mkForest ({[c]} ∪ fo_nodes f) (fo_edges f ∖ {[(c, p)]})
  end.

Definition tracker_step (t : RootTracker) (c : ForestCmd) : RootTracker :=
  match c with
  | FRegister n => RootTracker_register_node t n
  | FUnregister n => RootTracker_unregister_node t n
  | FInsert c p => RootTracker_on_edge_inserted t c p
  | FRemove c p => RootTracker_on_edge_removed t c p
  end.

(** The documented caller's duty: the removal hook is called for the child's
    last parent edge, and a node is unregistered without parent edges. *)
Definition forest_ok (f : Forest) (c : ForestCmd) : Prop :=
  match c with
  | FUnregister n => set_Forall (λ e, e.1 ≠ n) (fo_edges f)
  | FRemove c p => set_Forall (λ e, e.1 = c → e = (c, p)) (fo_edges f)
  | _ => True
  end.

Fixpoint forest_run_ok (f : Forest) (cs : list ForestCmd) : Prop :=
  match cs with
  | [] => True
  | c :: cs => forest_ok f c ∧ forest_run_ok (forest_step f c) cs
  end.

#[export] Instance forest_run_ok_dec f cs : Decision (forest_run_ok f cs).
Proof.
  revert f. induction cs as [|c cs IH]; intros f; cbn; [apply _|].
  destruct c; cbn; apply _.
Defined.

Definition tracks (t : RootTracker) (f : Forest) : Prop :=
  (∀ n, n ∈ has_parent t ↔ ∃ p, (n, p) ∈ fo_edges f) ∧
  (∀ n, n ∈ rt_roots t ↔ n ∈ fo_nodes f ∧ ¬ ∃ p, (n, p) ∈ fo_edges f) ∧
  (∀ n p, (n, p) ∈ fo_edges f → n ∈ fo_nodes f).

Lemma tracker_step_tracks t f c :
  tracks t f → forest_ok f c → tracks (tracker_step t c) (forest_step f c).
Proof.
  intros (Hp&Hr&Hn) Hok. unfold tracks. destruct c as [n|n|c p|c p]; cbn in *.
  - unfold RootTracker_register_node. case_bool_decide as Hin; cbn.
    + split; [done|]. apply Hp in Hin. split; [|set_solver].
      intros m. rewrite Hr, elem_of_union, elem_of_singleton. naive_solver.
    + split; [done|]. rewrite Hp in Hin. split; [|set_solver].
      intros m. rewrite !elem_of_union, !elem_of_singleton, Hr. naive_solver.
  - assert (He : ∀ p, (n, p) ∉ fo_edges f) by (intros p Hin; by apply (Hok _ Hin)).
    split; [|split].
    + intros m. rewrite elem_of_difference, elem_of_singleton, Hp.
      split; [naive_solver|]. intros [p Hin]. split; [eauto|]. intros ->. by eapply He.
    + intros m. rewrite !elem_of_difference, elem_of_singleton, Hr. tauto.
    + intros m p Hin. rewrite elem_of_difference, elem_of_singleton.
      split; [by eapply Hn|]. intros ->. by eapply He.
  - split; [|split].
    + intros m. rewrite elem_of_union, elem_of_singleton, Hp. split.
      * intros [->|[q Hq]]; [exists p|exists q]; set_solver.
      * intros [q Hq]. set_solver.
    + intros m. rewrite elem_of_difference, elem_of_singleton, Hr, elem_of_union, elem_of_singleton.
      split.
      * intros [[Hm Hno] Hne]. split; [by right|]. intros [q Hq]. apply Hno. exists q. set_solver.
      * intros [Hm Hno]. assert (Hne : m ≠ c) by (intros ->; apply Hno; exists p; set_solver).
        split; [|done]. split; [naive_solver|]. intros [q Hq]. apply Hno. exists q. set_solver.
    + set_solver.
  - assert (He : ∀ q, (c, q) ∉ fo_edges f ∖ {[(c, p)]}).
    { intros q [Hin Hne]%elem_of_difference. apply Hne.
      rewrite (Hok _ Hin ltac:(done)). set_solver. }
    split; [|split].
    + intros m. rewrite elem_of_difference, elem_of_singleton, Hp. split.
      * intros [[q Hq] Hne]. exists q. set_solver.
      * intros [q Hq]. split; [exists q; set_solver|]. intros ->. by eapply He.
    + intros m. rewrite elem_of_union, elem_of_singleton, Hr, elem_of_union, elem_of_singleton.
      split.
      * intros [->|[Hm Hno]]; [split; [by left|]; intros [q Hq]; by eapply He|].
        split; [by right|]. intros [q Hq]. apply Hno. exists q. set_solver.
      * intros [[->|Hm] Hno]; [by left|]. destruct (decide (m = c)) as [->|Hne]; [by left|].
        right. split; [done|]. intros [q Hq]. apply Hno. exists q. set_solver.
    + set_solver.
Qed.

(** As long as its caller keeps the documented duties, the incremental
    tracker answers every root query as a walk over the whole graph would: a
    node is a root exactly when it is known and has no parent edge. *)
Lemma RootTracker_refines (cs : list ForestCmd) (n : string)
  (Hok : forest_run_ok (mkForest ∅ ∅) cs) :
  let t := foldl tracker_step RootTracker_new cs in
  let f := foldl forest_step (mkForest ∅ ∅) cs in
  (RootTracker_is_root t n = true ↔ n ∈ fo_nodes f ∧ ¬ ∃ p, (n, p) ∈ fo_edges f) ∧
  (n ∈ has_parent t ↔ ∃ p, (n, p) ∈ fo_edges f).
Proof.
  assert (Hrun : ∀ cs t f, tracks t f → forest_run_ok f cs →
    tracks (foldl tracker_step t cs) (foldl forest_step f cs)).
  { clear. intros cs. induction cs as [|c cs IH]; intros t f Ht Hok; [done|]. cbn.
    destruct Hok as [Hc Hok]. apply IH; [by apply tracker_step_tracks|done]. }
  intros t f. destruct (Hrun cs RootTracker_new (mkForest ∅ ∅)) as (Hp&Hr&_).
  - unfold tracks; cbn. split; [|split]; [set_solver..].
  - done.
  - split; [|apply Hp]. unfold RootTracker_is_root. rewrite bool_decide_eq_true. apply Hr.
Qed.

Lemma RootTracker_refines_witness :
  let cs := [FRegister "a"; FRegister "b"; FInsert "b" "a"; FRemove "b" "a"; FInsert "a" "b"] in
  let t := foldl tracker_step RootTracker_new cs in
  (RootTracker_is_root t "b" = true ↔
    "b" ∈ fo_nodes (foldl forest_step (mkForest ∅ ∅) cs) ∧
    ¬ ∃ p, ("b", p) ∈ fo_edges (foldl forest_step (mkForest ∅ ∅) cs))%string ∧
  RootTracker_is_root t "b" = true.
Proof.
  split; [|vm_compute; reflexivity].
  apply RootTracker_refines. apply (bool_decide_unpack _). vm_compute. exact I.
Defined.

(** Outside those duties it does not: with two parents, removing one edge makes
    the child a root while the other edge is still there. *)
Example root_with_a_parent :
  let cs := [FRegister "c"; FInsert "c" "p"; FInsert "c" "q"; FRemove "c" "p"] in
  RootTracker_is_root (foldl tracker_step RootTracker_new cs) "c" = true ∧
  ("c", "q")%string ∈ fo_edges (foldl forest_step (mkForest ∅ ∅) cs).
Proof. split; [vm_compute; reflexivity|]. apply (bool_decide_unpack _). vm_compute. exact I. Qed.
