(* ===== verification/Acyclic.v ===== *)
(** * Batch acyclicity and runtime checks ([src/schema/edge.rs], [src/observability/mod.rs])

    [validate_acyclic], [has_cycle] and [check_invariants], with the queue probe
    and the fault injector of the observability module. *)

From S2P Require Import Prelude Graph CycleGuard.

(** ** [validate_acyclic] *)

Record EdgeSpec : Type := mkEdgeSpec { es_src : string; es_dst : string; es_label : string }.

Definition EdgeSpec_to_string (e : EdgeSpec) : string :=
  (es_src e +:+ " -[" +:+ es_label e +:+ "]-> " +:+ es_dst e)%string.

Notation Adjacency := (gmap string (gset string)) (only parsing).

(** The first loop: the adjacency map and the nodes; a self-loop ends it. *)
Fixpoint build_adjacency (edges : list EdgeSpec) (adj : Adjacency) (nodes : gset string) :
    result CycleError (Adjacency * gset string) :=
  match edges with
  | [] => Ok (adj, nodes)
  | e :: edges =>
      if bool_decide (es_src e = es_dst e) then Err (mkCycleError (es_dst e) (es_src e))
      else build_adjacency edges
             (<[es_src e := {[es_dst e]} ∪ default ∅ (adj !! es_src e)]> adj)
             ({[es_dst e]} ∪ ({[es_src e]} ∪ nodes))
  end.

Definition adj_children `{SetOrder} (adj : Adjacency) (x : string) : list string :=
  set_iter (default ∅ (adj !! x)).

Definition validate_acyclic `{SetOrder} (edges : list EdgeSpec) : option (result CycleError unit) :=
  match edges with
  | [] => Some (Ok tt)
  | _ =>
      match build_adjacency edges ∅ ∅ with
      | Err e => Some (Err e)
      | Ok (adj, nodes) =>
          match dfs_all (adj_children adj) (dfs_fuel (adj_children adj) (set_iter nodes))
                  (set_iter nodes) ∅ with
          | Some (Ok _) => Some (Ok tt)
          | Some (Err (cur, next)) => Some (Err (mkCycleError next cur))
          | None => None
          end
      end
  end.

(** ** [has_cycle] *)

(** The adjacency map in insertion order. *)
Definition hc_adj (edges : list (string * string)) : gmap string (list string) :=
  foldl (λ adj '(p, c), <[p := default [] (adj !! p) ++ [c]]> adj) ∅ edges.

Definition hc_color (edges : list (string * string)) : gmap string Color :=
  foldl (λ color '(p, c), <[c := White]> (<[p := White]> color)) ∅ edges.

(** The [while let] loop; [Err tt] is [return true]. *)
Fixpoint has_cycle_loop (adj : gmap string (list string)) (fuel : nat) (stack : list (string * nat))
    (color : gmap string Color) : option (result unit (gmap string Color)) :=
  match fuel with
  | 0 => None
  | S fuel =>
      match stack with
      | [] => Some (Ok color)
      | (node, idx) :: rest =>
          match adj !! node with
          | None => has_cycle_loop adj fuel rest (<[node := Black]> color)
          | Some children =>
              match children !! idx with
              | None => has_cycle_loop adj fuel rest (<[node := Black]> color)
              | Some child =>
                  let stack := (node, S idx) :: rest in
                  match color_of color child with
                  | Gray => Some (Err tt)
                  | Black => has_cycle_loop adj fuel stack color
                  | White => has_cycle_loop adj fuel ((child, 0) :: stack) (<[child := Gray]> color)
                  end
              end
          end
      end
  end.

Fixpoint has_cycle_all (adj : gmap string (list string)) (fuel : nat) (nodes : list string)
    (color : gmap string Color) : option bool :=
  match nodes with
  | [] => Some false
  | start :: nodes =>
      match color_of color start with
      | White =>
          match has_cycle_loop adj fuel [(start, 0)] (<[start := Gray]> color) with
          | Some (Ok color) => has_cycle_all adj fuel nodes color
          | Some (Err _) => Some true
          | None => None
          end
      | _ => has_cycle_all adj fuel nodes color
      end
  end.

Definition hc_children (adj : gmap string (list string)) (x : string) : list string :=
  default [] (adj !! x).

Definition has_cycle `{SetOrder} (edges : list (string * string)) : option bool :=
  let adj := hc_adj edges in
  let color := hc_color edges in
  let nodes := set_iter (dom color) in
  has_cycle_all adj (dfs_fuel (hc_children adj) nodes) nodes color.

(** ** The edge relation both decide *)

Definition spec_rel (edges : list (string * string)) : relation string := λ x y, (x, y) ∈ edges.

Definition EdgeSpec_pair (e : EdgeSpec) : string * string := (es_src e, es_dst e).

Lemma build_adjacency_spec edges adj nodes :
  match build_adjacency edges adj nodes with
  | Err e => ∃ x, e = mkCycleError x x ∧ (x, x) ∈ EdgeSpec_pair <$> edges
  | Ok (adj', nodes') =>
      (∀ x y, y ∈ default ∅ (adj' !! x) ↔ y ∈ default ∅ (adj !! x) ∨ (x, y) ∈ EdgeSpec_pair <$> edges) ∧
      (∀ x, x ∈ nodes' ↔ x ∈ nodes ∨ ∃ y, (x, y) ∈ EdgeSpec_pair <$> edges ∨ (y, x) ∈ EdgeSpec_pair <$> edges)
  end.
Proof.
  revert adj nodes. induction edges as [|e edges IH]; intros adj nodes; cbn.
  { split; [intros x y|intros x]; rewrite ?elem_of_nil; [tauto|].
    split; [by left|]. intros [?|(y&[?%elem_of_nil|?%elem_of_nil])]; done. }
  case_bool_decide as Hs.
  { exists (es_dst e). rewrite Hs. split; [done|]. unfold EdgeSpec_pair at 1. rewrite Hs. left. }
  match goal with |- match build_adjacency _ ?a ?n with _ => _ end => specialize (IH a n) end.
  destruct (build_adjacency _ _ _) as [[adj' nodes']|ce].
  - destruct IH as [Ha Hn]. split.
    + intros x y. rewrite Ha, lookup_insert, elem_of_cons.
      assert (Hp : (x, y) = EdgeSpec_pair e ↔ x = es_src e ∧ y = es_dst e)
        by (unfold EdgeSpec_pair; split; [by intros [= -> ->]|by intros [-> ->]]).
      rewrite Hp. case_decide as Hx; cbn.
      * subst x. rewrite elem_of_union, elem_of_singleton. tauto.
      * assert (x ≠ es_src e) by congruence. tauto.
    + intros x. rewrite Hn, !elem_of_union, !elem_of_singleton. split.
      * intros [[->|[->|?]]|(y&Hy)]; [|right|by left|].
        -- right. exists (es_src e). right. left.
        -- exists (es_dst e). left. left.
        -- right. exists y. rewrite !elem_of_cons. tauto.
      * intros [?|(y&[Hy|Hy])]; [tauto|..]; apply elem_of_cons in Hy as [[= -> ->]|Hy]; try tauto;
          right; eauto.
  - destruct IH as (x&->&Hx). exists x. split; [done|]. by right.
Qed.

Lemma validate_acyclic_spec `{SetOrder} edges :
  let R := spec_rel (EdgeSpec_pair <$> edges) in
  ∃ r, validate_acyclic edges = Some r ∧
    match r with
    | Ok _ => acyclic R
    | Err e => R (ce_new_parent e) (ce_node e) ∧ rtc R (ce_node e) (ce_new_parent e)
    end.
Proof.
  cbn. unfold validate_acyclic. destruct edges as [|e0 l] eqn:He.
  { exists (Ok tt). split; [done|]. intros x (y&Hy&_)%tc_rtc_iff. by apply elem_of_nil in Hy. }
  rewrite <-He. clear He. pose proof (build_adjacency_spec edges ∅ ∅) as Hb.
  destruct (build_adjacency edges ∅ ∅) as [[adj nodes]|ce].
  2: { eexists. split; [done|]. destruct Hb as (x&->&Hx). cbn. split; [done|apply rtc_refl]. }
  destruct Hb as [Ha Hn].
  assert (Hrel : ∀ x y, child_rel (adj_children adj) x y ↔ spec_rel (EdgeSpec_pair <$> edges) x y).
  { intros x y. unfold child_rel, adj_children, spec_rel. rewrite set_iter_elem, Ha.
    rewrite lookup_empty. cbn. rewrite elem_of_empty. tauto. }
  destruct (dfs_all_correct (adj_children adj) (set_iter nodes) (set_iter nodes) ∅) as (r&Hr&Hspec).
  - done.
  - rewrite set_iter_elements. apply NoDup_elements.
  - intros x y Hxy%Hrel. rewrite !set_iter_elem, !Hn. unfold spec_rel in Hxy.
    split; right; eauto.
  - done.
  - rewrite Hr. destruct r as [c|[cur next]]; eexists; (split; [done|]).
    + eapply acyclic_sub; [|exact Hspec]. intros x y. apply Hrel.
    + destruct Hspec as [H1 H2]. cbn. split; [by apply Hrel|].
      eapply rtc_subrel; [|exact H2]. intros x y. apply Hrel.
Qed.

(** The index of a frame is the position of its remaining children. *)
Definition frames (adj : gmap string (list string)) (stack : list (string * nat)) :
    list (string * list string) :=
  (λ f, (f.1, drop f.2 (hc_children adj f.1))) <$> stack.

Lemma has_cycle_loop_refines adj fuel stack color :
  has_cycle_loop adj fuel stack color =
  map_err (λ _, tt) <$> dfs_loop (hc_children adj) fuel (frames adj stack) color.
Proof.
  revert stack color. induction fuel as [|fuel IH]; intros stack color; [done|].
  destruct stack as [|[node idx] rest]; [done|]. cbn.
  destruct (adj !! node) as [cs|] eqn:Ha.
  - assert (Hc : hc_children adj node = cs) by (unfold hc_children; by rewrite Ha). rewrite Hc.
    destruct (cs !! idx) as [child|] eqn:Hi.
    + rewrite (drop_S cs child idx) by done.
      destruct (color_of color child); [| done |].
      * rewrite IH. unfold frames. cbn. by rewrite Hc.
      * rewrite IH. unfold frames. cbn. by rewrite Hc.
    + rewrite drop_ge by by apply lookup_ge_None. apply IH.
  - assert (Hc : hc_children adj node = []) by (unfold hc_children; by rewrite Ha).
    rewrite Hc, drop_nil. apply IH.
Qed.

Lemma has_cycle_all_refines adj fuel nodes color :
  has_cycle_all adj fuel nodes color =
  (λ r, negb (is_ok r)) <$> dfs_all (hc_children adj) fuel nodes color.
Proof.
  revert color. induction nodes as [|x nodes IH]; intros color; cbn; [done|].
  destruct (color_of color x); [|apply IH..]. rewrite has_cycle_loop_refines.
  unfold frames. cbn. rewrite drop_0.
  destruct (dfs_loop _ _ _ _) as [[c|[]]|]; cbn; [apply IH|done|done].
Qed.

Lemma hc_adj_spec edges x y : y ∈ hc_children (hc_adj edges) x ↔ (x, y) ∈ edges.
Proof.
  unfold hc_children, hc_adj. induction edges as [|[p c] edges IH] using rev_ind.
  - cbn. rewrite lookup_empty. cbn. by rewrite !elem_of_nil.
  - rewrite foldl_app. cbn. rewrite elem_of_app, list_elem_of_singleton, lookup_insert.
    case_decide; subst; cbn; [|rewrite IH; naive_solver].
    rewrite elem_of_app, list_elem_of_singleton, IH. naive_solver.
Qed.

Lemma hc_color_spec edges x :
  color_of (hc_color edges) x = White ∧
  (x ∈ dom (hc_color edges) ↔ ∃ y, (x, y) ∈ edges ∨ (y, x) ∈ edges).
Proof.
  unfold hc_color. induction edges as [|[p c] edges [IH1 IH2]] using rev_ind.
  - cbn. split; [done|]. rewrite dom_empty, elem_of_empty. split; [done|].
    intros (y&[?%elem_of_nil|?%elem_of_nil]); done.
  - rewrite foldl_app. cbn. rewrite !color_of_insert. split; [by repeat case_decide|].
    rewrite !dom_insert, !elem_of_union, !elem_of_singleton, IH2. split.
    + intros [->|[->|(y&Hy)]]; [exists p|exists c|exists y]; rewrite !elem_of_app, !list_elem_of_singleton; tauto.
    + intros (y&Hy). rewrite !elem_of_app, !list_elem_of_singleton in Hy.
      destruct Hy as [[?|[= -> ->]]|[?|[= -> ->]]]; eauto.
Qed.

Lemma has_cycle_spec `{SetOrder} edges :
  ∃ b, has_cycle edges = Some b ∧ (b = true ↔ ¬ acyclic (spec_rel edges)).
Proof.
  unfold has_cycle. rewrite has_cycle_all_refines.
  set (nodes := set_iter (dom (hc_color edges))).
  assert (Hrel : ∀ x y, child_rel (hc_children (hc_adj edges)) x y ↔ spec_rel edges x y)
    by apply hc_adj_spec.
  destruct (dfs_all_correct (hc_children (hc_adj edges)) nodes nodes (hc_color edges))
    as (r&->&Hspec).
  - intros x. apply hc_color_spec.
  - unfold nodes. rewrite set_iter_elements. apply NoDup_elements.
  - intros x y Hxy%Hrel. unfold nodes. rewrite !set_iter_elem, !(proj2 (hc_color_spec _ _)).
    split; eauto.
  - done.
  - cbn. eexists. split; [done|]. destruct r as [c|[cur next]]; cbn.
    + split; [done|]. intros Hn. exfalso. apply Hn. eapply acyclic_sub; [|exact Hspec].
      intros x y. apply Hrel.
    + split; [|done]. intros _ Hac. apply (Hac cur), tc_rtc_iff. exists next.
      destruct Hspec as [H1 H2]. split; [by apply Hrel|].
      eapply rtc_subrel; [|exact H2]. intros x y. apply Hrel.
Qed.

(** C16: both depth-first searches terminate, whatever the order of the hash
    containers, and decide the same thing: [validate_acyclic] accepts a batch
    exactly when its edges form no cycle and otherwise names an edge that closes
    one, and [has_cycle] answers true exactly on the batches it rejects. *)
Theorem acyclicity_checks_agree `{SetOrder} (edges : list EdgeSpec) :
  let R := spec_rel (EdgeSpec_pair <$> edges) in
  ∃ r b, validate_acyclic edges = Some r ∧ has_cycle (EdgeSpec_pair <$> edges) = Some b ∧
    (is_ok r = true ↔ acyclic R) ∧ b = negb (is_ok r) ∧
    ∀ e, r = Err e → R (ce_new_parent e) (ce_node e) ∧ rtc R (ce_node e) (ce_new_parent e).
Proof.
  intros R. destruct (validate_acyclic_spec edges) as (r&Hr&Hspec).
  destruct (has_cycle_spec (EdgeSpec_pair <$> edges)) as (b&Hb&Hiff).
  exists r, b. split; [done|]. split; [done|].
  assert (Hok : is_ok r = true ↔ acyclic R).
  { destruct r as [[]|e]; cbn; [done|]. split; [done|]. intros Hac. exfalso.
    apply (Hac (ce_new_parent e)), tc_rtc_iff. eexists. exact Hspec. }
  split; [done|]. split.
  - fold R in Hiff. destruct b, (is_ok r) eqn:E; try done; exfalso.
    + assert (¬ acyclic R) as Hn by by apply Hiff. apply Hn. by apply Hok.
    + assert (false = true) as [=]. apply Hiff. intros Hac%Hok. congruence.
  - intros e ->. exact Hspec.
Qed.
