(* ===== verification/Observability.v ===== *)
(** * Observability ([src/observability/mod.rs])

    The queue-state probe, the fault injector and the invariant checker.  The
    acyclicity search behind I14 is in [Acyclic.v]. *)

From S2P Require Import Prelude Graph Acyclic.

(** ** Queue probe *)

Record QueueState : Type := mkQueueState { qs_depth : Z; qs_oldest_age_ms : Z; qs_locked_nodes : Z }.

(** The three atomics. *)
Notation QueueStateProbe := QueueState (only parsing).

Definition QueueStateProbe_new : QueueStateProbe := mkQueueState 0 0 0.
Definition QueueStateProbe_snapshot (p : QueueStateProbe) : QueueState := p.
Definition QueueStateProbe_set_depth (p : QueueStateProbe) (d : Z) : QueueStateProbe :=
  mkQueueState d (qs_oldest_age_ms p) (qs_locked_nodes p).
Definition QueueStateProbe_set_oldest_age_ms (p : QueueStateProbe) (a : Z) : QueueStateProbe :=
  mkQueueState (qs_depth p) a (qs_locked_nodes p).
Definition QueueStateProbe_set_locked_nodes (p : QueueStateProbe) (n : Z) : QueueStateProbe :=
  mkQueueState (qs_depth p) (qs_oldest_age_ms p) n.

(** ** Fault injection *)

Inductive FaultKind : Type := NetworkTimeout | CorruptSnapshot | ConcurrentSwitch | DiskFull.

#[export] Instance FaultKind_eq_dec : EqDecision FaultKind.
Proof. solve_decision. Defined.

Definition FaultKind_discriminant (k : FaultKind) : Z :=
  match k with NetworkTimeout => 0 | CorruptSnapshot => 1 | ConcurrentSwitch => 2 | DiskFull => 3 end.

Record FaultError : Type := mkFaultError { fe_kind : FaultKind }.

Notation FaultInjector := (list FaultKind) (only parsing).

Definition FaultInjector_new : FaultInjector := [].
Definition FaultInjector_is_enabled (f : FaultInjector) (k : FaultKind) : bool := bool_decide (k ∈ f).
Definition FaultInjector_enable (f : FaultInjector) (k : FaultKind) : FaultInjector :=
  if FaultInjector_is_enabled f k then f else f ++ [k].
Definition FaultInjector_disable (f : FaultInjector) (k : FaultKind) : FaultInjector :=
  filter (λ k', k' ≠ k) f.
Definition FaultInjector_trigger (f : FaultInjector) (k : FaultKind) : result FaultError unit :=
  if FaultInjector_is_enabled f k then Err (mkFaultError k) else Ok tt.
Definition FaultInjector_clear (f : FaultInjector) : FaultInjector := [].

Inductive FaultCmd : Type := FEnable (k : FaultKind) | FDisable (k : FaultKind) | FClear.

Definition fault_step (f : FaultInjector) (c : FaultCmd) : FaultInjector :=
  match c with
  | FEnable k => FaultInjector_enable f k
  | FDisable k => FaultInjector_disable f k
  | FClear => FaultInjector_clear f
  end.

(** Whether [k] is armed after the commands: the last one about it decides. *)
Definition armed (cs : list FaultCmd) (k : FaultKind) : bool :=
  foldl (λ b c, match c with
                | FEnable k' => bool_decide (k' = k) || b
                | FDisable k' => negb (bool_decide (k' = k)) && b
                | FClear => false
                end) false cs.

(** The injector fails a call site exactly when the last command about its
    fault armed it, and never holds a fault twice. *)
Lemma FaultInjector_last_command_wins (cs : list FaultCmd) (k : FaultKind) :
  let f := foldl fault_step FaultInjector_new cs in
  FaultInjector_trigger f k = (if armed cs k then Err (mkFaultError k) else Ok tt) ∧ NoDup f.
Proof.
  cbn. unfold FaultInjector_trigger, armed.
  assert (Hf : NoDup (foldl fault_step FaultInjector_new cs) ∧
    ∀ k, k ∈ foldl fault_step FaultInjector_new cs ↔ armed cs k = true).
  { unfold armed. induction cs as [|c cs [IHn IHe]] using rev_ind.
    { cbn. split; [constructor|]. intros k'. by rewrite elem_of_nil. }
    rewrite foldl_app. cbn. split.
    - destruct c as [k'|k'|]; cbn; [|by apply NoDup_filter|constructor].
      unfold FaultInjector_enable, FaultInjector_is_enabled. case_bool_decide as Hin; [done|].
      apply NoDup_app. split; [done|]. split; [|apply NoDup_singleton].
      intros x Hx ->%list_elem_of_singleton. done.
    - intros k'. rewrite foldl_app. cbn. destruct c as [k2|k2|]; cbn.
      + unfold FaultInjector_enable, FaultInjector_is_enabled.
        rewrite orb_true_iff, bool_decide_eq_true, <-IHe.
        case_bool_decide as Hin; [naive_solver|].
        rewrite elem_of_app, list_elem_of_singleton. naive_solver.
      + unfold FaultInjector_disable. rewrite list_elem_of_filter, IHe.
        rewrite andb_true_iff, negb_true_iff, bool_decide_eq_false. naive_solver.
      + by rewrite elem_of_nil. }
  destruct Hf as [Hnd Hk]. split; [|done]. unfold FaultInjector_is_enabled.
  specialize (Hk k). fold (armed cs k). destruct (armed cs k).
  - rewrite bool_decide_eq_true_2; [done|]. by apply Hk.
  - rewrite bool_decide_eq_false_2; [done|]. by intros ?%Hk.
Qed.

(** ** Invariant checks *)

Inductive InvariantViolation : Type :=
| I4Uniqueness | I5Monotonicity | I11BridgeBijection | I12EpochOrdering | I14TreeAcyclicity.

Record InvariantCheckInput : Type := mkInvariantCheckInput {
  node_keys : list string;
  epochs : list (string * Z);
  parent_child_pairs : list (string * string);
  grafeo_nodes : list string;
  loro_containers : list string;
  parent_child_epochs : list (Z * Z)
}.

(** The loops that insert into a fresh [HashSet] and stop at a repetition. *)
Fixpoint all_distinct (keys : list string) (seen : gset string) : bool :=
  match keys with
  | [] => true
  | k :: keys => if bool_decide (k ∈ seen) then false else all_distinct keys ({[k]} ∪ seen)
  end.

(** The loop over [windows(2)]. *)
Fixpoint windows_monotone (epochs : list (string * Z)) : bool :=
  match epochs with
  | w0 :: (w1 :: _) as rest => if (w1.2 <? w0.2)%Z then false else windows_monotone rest
  | _ => true
  end.

Fixpoint epochs_ordered (pairs : list (Z * Z)) : bool :=
  match pairs with
  | [] => true
  | (parent_epoch, child_epoch) :: pairs =>
      if (child_epoch <? parent_epoch)%Z then false else epochs_ordered pairs
  end.

(** [None] when the search of I14 runs out of fuel. *)
Definition check_invariants `{SetOrder} (state : InvariantCheckInput) :
    option (result InvariantViolation unit) :=
  if negb (all_distinct (node_keys state) ∅) then Some (Err I4Uniqueness)
  else if negb (windows_monotone (epochs state)) then Some (Err I5Monotonicity)
  else if negb (bool_decide (grafeo_nodes state = []) && bool_decide (loro_containers state = [])) &&
          (negb (bool_decide (length (grafeo_nodes state) = length (loro_containers state))) ||
           negb (all_distinct (grafeo_nodes state) ∅))
  then Some (Err I11BridgeBijection)
  else if negb (epochs_ordered (parent_child_epochs state)) then Some (Err I12EpochOrdering)
  else if bool_decide (parent_child_pairs state = []) then Some (Ok tt)
  else match has_cycle (parent_child_pairs state) with
       | None => None
       | Some true => Some (Err I14TreeAcyclicity)
       | Some false => Some (Ok tt)
       end.

(** What each invariant says of the input. *)
Definition invariant_holds (state : InvariantCheckInput) (v : InvariantViolation) : Prop :=
  match v with
  | I4Uniqueness => NoDup (node_keys state)
  | I5Monotonicity => ∀ i a b, (epochs state).*2 !! i = Some a → (epochs state).*2 !! S i = Some b → (a ≤ b)%Z
  | I11BridgeBijection =>
      length (grafeo_nodes state) = length (loro_containers state) ∧ NoDup (grafeo_nodes state)
  | I12EpochOrdering => Forall (λ p, (p.1 ≤ p.2)%Z) (parent_child_epochs state)
  | I14TreeAcyclicity => acyclic (spec_rel (parent_child_pairs state))
  end.

(** The order in which they are checked. *)
Definition InvariantViolation_rank (v : InvariantViolation) : nat :=
  match v with
  | I4Uniqueness => 0 | I5Monotonicity => 1 | I11BridgeBijection => 2
  | I12EpochOrdering => 3 | I14TreeAcyclicity => 4
  end.

Lemma all_distinct_spec keys seen :
  all_distinct keys seen = true ↔ NoDup keys ∧ ∀ k, k ∈ keys → k ∉ seen.
Proof.
  revert seen. induction keys as [|k keys IH]; intros seen; cbn.
  { split; [|done]. intros _. split; [constructor|]. by intros k ?%elem_of_nil. }
  rewrite NoDup_cons. case_bool_decide as Hk.
  - split; [done|]. intros [_ Hn]. exfalso. by apply (Hn k); [left|].
  - rewrite IH. split.
    + intros [Hnd Hn]. split; [split; [|done]|].
      * intros Hin. apply (Hn k Hin). set_solver.
      * intros k' [->|Hin]%elem_of_cons; [done|]. specialize (Hn k' Hin). set_solver.
    + intros [[Hki Hnd] Hn]. split; [done|]. intros k' Hin.
      assert (k' ∉ seen) by (apply Hn; by right). set_solver.
Qed.

Lemma all_distinct_NoDup keys : all_distinct keys ∅ = true ↔ NoDup keys.
Proof. rewrite all_distinct_spec. split; [by intros []|]. intros ?. split; [done|]. set_solver. Qed.

Lemma windows_monotone_spec (es : list (string * Z)) :
  windows_monotone es = true ↔ ∀ i a b, es.*2 !! i = Some a → es.*2 !! S i = Some b → (a ≤ b)%Z.
Proof.
  induction es as [|w0 es IH]; cbn; [split; [by intros _ []|done]|].
  destruct es as [|w1 es]; [split; [by intros _ []|done]|].
  destruct (w1.2 <? w0.2)%Z eqn:Hlt.
  - split; [done|]. intros Hm. specialize (Hm 0 w0.2 w1.2 eq_refl eq_refl). lia.
  - rewrite IH. split; intros Hm.
    + intros [|i] a b; [cbn; intros [= <-] [= <-]; lia|apply (Hm i)].
    + intros i a b. apply (Hm (S i)).
Qed.

Lemma epochs_ordered_spec pairs :
  epochs_ordered pairs = true ↔ Forall (λ p, (p.1 ≤ p.2)%Z) pairs.
Proof.
  induction pairs as [|[p c] pairs IH]; cbn; [split; [constructor|done]|].
  rewrite Forall_cons. cbn. destruct (c <? p)%Z eqn:Hlt; [split; [done|lia]|].
  rewrite IH. split; [split; [lia|done]|by intros []].
Qed.

(** C39: the checker terminates, accepts exactly the inputs on which all five
    invariants hold, and otherwise reports one that fails while every
    invariant checked before it holds. *)
Theorem check_invariants_correct `{SetOrder} (state : InvariantCheckInput) :
  ∃ r, check_invariants state = Some r ∧
    match r with
    | Ok _ => ∀ v, invariant_holds state v
    | Err v => ¬ invariant_holds state v ∧
        ∀ v', InvariantViolation_rank v' < InvariantViolation_rank v → invariant_holds state v'
    end.
Proof.
  unfold check_invariants.
  destruct (all_distinct (node_keys state) ∅) eqn:H4; cbn.
  2: { eexists. split; [done|]. split; [|intros []; cbn; lia].
       cbn. rewrite <-all_distinct_NoDup. congruence. }
  apply all_distinct_NoDup in H4.
  destruct (windows_monotone (epochs state)) eqn:H5; cbn.
  2: { eexists. split; [done|]. split; [|intros []; cbn; done || lia].
       cbn. rewrite <-windows_monotone_spec. congruence. }
  rewrite windows_monotone_spec in H5.
  match goal with |- context [if ?c then Some (Err I11BridgeBijection) else _] => destruct c eqn:H11 end.
  { eexists. split; [done|]. split; [|intros []; cbn; done || lia].
    apply andb_true_iff in H11 as [_ [Hl|Hd]%orb_true_iff]; cbn.
    - rewrite negb_true_iff, bool_decide_eq_false in Hl. naive_solver.
    - rewrite negb_true_iff in Hd. intros [_ Hnd%all_distinct_NoDup]. congruence. }
  assert (H11' : invariant_holds state I11BridgeBijection).
  { cbn. rewrite <-all_distinct_NoDup. apply andb_false_iff in H11 as [He|He].
    - rewrite negb_false_iff, andb_true_iff, !bool_decide_eq_true in He. by destruct He as [-> ->].
    - apply orb_false_iff in He as [Hl Hd]. rewrite negb_false_iff in *.
      by rewrite bool_decide_eq_true in Hl. }
  destruct (epochs_ordered (parent_child_epochs state)) eqn:H12; cbn.
  2: { eexists. split; [done|]. split; [|intros []; cbn; done || lia].
       cbn. rewrite <-epochs_ordered_spec. congruence. }
  apply epochs_ordered_spec in H12.
  destruct (bool_decide (parent_child_pairs state = [])) eqn:Hp.
  { apply bool_decide_eq_true in Hp. eexists. split; [done|]. intros []; cbn; try done. rewrite Hp.
    intros x (y&Hy&_)%tc_rtc_iff. by apply elem_of_nil in Hy. }
  destruct (has_cycle_spec (parent_child_pairs state)) as (b&->&Hiff). destruct b.
  - eexists. split; [done|]. split; [by apply Hiff|intros []; cbn; done || lia].
  - eexists. split; [done|]. intros []; cbn; try done. intros x Hx.
    assert (false = true) as [=]. apply Hiff. intros Hac. by apply (Hac x).
Qed.
