(* ===== verification/TreeMove.v ===== *)
(** * Tree moves in grafeo ([src/schema/tree.rs])

    [sync_tree_move_to_grafeo] and its cycle pre-check, a breadth-first search
    over the session's incoming edges. *)

From S2P Require Import Prelude Types Values BridgeMaps GrafeoTx GraphSpec EdgeKeys Translate MemGraph Batcher BatcherSpec Graph.

(** What the move relies on of the neighbour queries. *)
Class GrafeoNeighborLaws (S : Type) `{GrafeoLaws S} : Prop := {
  incoming_law s id p e :
    (p, e) ∈ get_neighbors_incoming s id ↔
    ∃ r, view_edges s !! e = Some r ∧ er_dst r = id ∧ er_src r = p;
  outgoing_law s id label d e :
    (d, e) ∈ get_neighbors_outgoing_by_type s id label ↔
    ∃ r, view_edges s !! e = Some r ∧ er_src r = id ∧ er_label r = label ∧ er_dst r = d;
  node_exists_law s id : node_exists s id = bool_decide (is_Some (view_nodes s !! id))
}.

Section tree_move.
  Context {D S : Type} `{GrafeoSession S, !GrafeoDB D S}.

(** [fuel] bounds the number of queue pops; [None] is running out. *)
Definition would_create_cycle_in_tx (fuel : nat) (session : S) (node_id new_parent : NodeId) :
    option bool :=
  if bool_decide (node_id = new_parent) then Some true
  else bfs_loop (λ cur, (get_neighbors_incoming session cur).*1) node_id fuel
         [new_parent] {[new_parent]}.

Definition sync_tree_move_to_grafeo (fuel : nat) (db : D) (node_id old_parent new_parent : NodeId) :
    option (Result unit * D) :=
  let probe := session db in
  if negb (node_exists probe node_id) then
    Some (Err (EBridge ("unknown node_id: " +:+ NodeId_debug node_id)), db)
  else if negb (node_exists probe new_parent) then
    Some (Err (EBridge ("unknown new_parent: " +:+ NodeId_debug new_parent)), db)
  else if bool_decide (old_parent = new_parent) then Some (Ok tt, db)
  else
    match begin_transaction_serializable (session_with_cdc db false) with
    | (Err e, _) => Some (Err (EGrafeo e), db)
    | (Ok _, s) =>
        match would_create_cycle_in_tx fuel s node_id new_parent with
        | None => None
        | Some true => Some (Err (ETreeMoveCreatesCycle node_id new_parent), db)
        | Some false =>
            let old_edge := snd <$> head (filter (λ '(dst, _), dst = node_id)
                              (get_neighbors_outgoing_by_type s old_parent TREE_EDGE_LABEL)) in
            let s1 := match old_edge with Some eid => delete_edge eid s | None => s end in
            let '(_, s2) := create_edge new_parent node_id TREE_EDGE_LABEL s1 in
            match prepare_commit s2 with
            | (Err e, _) => Some (Err (EGrafeo e), db)
            | (Ok _, s3) =>
                let '(r, d) := commit (set_metadata "origin" ORIGIN_LORO_BRIDGE s3) db in
                Some (match r with Ok _ => Ok tt | Err e => Err (EGrafeo e) end, d)
            end
        end
    end.

End tree_move.

(** ** The graph as relations *)

(** Every edge, parent to child, whatever its label; and the tree edges. *)
Definition edge_rel (es : gmap EdgeId EdgeRec) : relation NodeId := λ x y,
  ∃ e r, es !! e = Some r ∧ er_src r = x ∧ er_dst r = y.
Definition tree_rel (es : gmap EdgeId EdgeRec) : relation NodeId := λ x y,
  ∃ e r, es !! e = Some r ∧ er_src r = x ∧ er_dst r = y ∧ er_label r = TREE_EDGE_LABEL.

Lemma edge_rel_insert es e r :
  ∀ x y, edge_rel (<[e := r]> es) x y → edge_rel es x y ∨ (x = er_src r ∧ y = er_dst r).
Proof.
  intros x y (e'&r'&Hl&<-&<-). rewrite lookup_insert in Hl. case_decide; simplify_eq; [by right|].
  left. by exists e', r'.
Qed.

Lemma tree_rel_insert es e r :
  ∀ x y, tree_rel (<[e := r]> es) x y → tree_rel es x y ∨ (x = er_src r ∧ y = er_dst r).
Proof.
  intros x y (e'&r'&Hl&<-&<-&Ht). rewrite lookup_insert in Hl. case_decide; simplify_eq; [by right|].
  left. by exists e', r'.
Qed.

Lemma edge_rel_delete es e : ∀ x y, edge_rel (delete e es) x y → edge_rel es x y.
Proof. intros x y (e'&r'&[_ Hl]%lookup_delete_Some&?&?). by exists e', r'. Qed.

Lemma tree_rel_delete es e : ∀ x y, tree_rel (delete e es) x y → tree_rel es x y.
Proof. intros x y (e'&r'&[_ Hl]%lookup_delete_Some&?&?&?). by exists e', r'. Qed.

Lemma tree_rel_edge_rel es x y : tree_rel es x y → edge_rel es x y.
Proof. intros (e&r&?&?&?&?). by exists e, r. Qed.

(** Replacing the edge to a node by one from a parent that is not below it. *)
Lemma move_acyclic (es base : gmap EdgeId EdgeRec) e node_id new_parent :
  ¬ (node_id = new_parent ∨ tc (edge_rel es) node_id new_parent) →
  base = es ∨ (∃ x, base = delete x es) →
  let es' := <[e := mkEdgeRec new_parent node_id TREE_EDGE_LABEL ∅]> base in
  (acyclic (edge_rel es) → acyclic (edge_rel es')) ∧ (acyclic (tree_rel es) → acyclic (tree_rel es')).
Proof.
  intros Hnc Hbase es'.
  assert (Hrtc : ∀ R : relation NodeId, (∀ x y, R x y → edge_rel es x y) → ¬ rtc R node_id new_parent).
  { intros R HR Hr. apply Hnc. apply rtc_tc in Hr as [?|Ht]; [by left|right].
    exact (tc_congruence (R:=R) id _ _ _ HR Ht). }
  assert (He : ∀ x y, edge_rel base x y → edge_rel es x y).
  { destruct Hbase as [->|(x&->)]; [done|]. apply edge_rel_delete. }
  assert (Ht : ∀ x y, tree_rel base x y → tree_rel es x y).
  { destruct Hbase as [->|(x&->)]; [done|]. apply tree_rel_delete. }
  split; intros Hac.
  - eapply acyclic_sub; [apply edge_rel_insert|].
    apply (acyclic_add_edge _ new_parent node_id (acyclic_sub _ _ He Hac)). by apply Hrtc.
  - eapply acyclic_sub; [apply tree_rel_insert|].
    apply (acyclic_add_edge _ new_parent node_id (acyclic_sub _ _ Ht Hac)). apply Hrtc.
    intros x y Hxy. by apply tree_rel_edge_rel, Ht.
Qed.

Lemma size_list_to_set_le (l : list NodeId) : size (list_to_set l : gset NodeId) ≤ length l.
Proof.
  induction l as [|x l IH]; [done|]. cbn. rewrite size_union_alt, size_singleton.
  assert (size ((list_to_set l : gset NodeId) ∖ {[x]}) ≤ size (list_to_set l : gset NodeId));
    [apply subseteq_size; set_solver|]. lia.
Qed.

Section tree_move_spec.
  Context {D S : Type} `{GrafeoDBLaws D S, !GrafeoNeighborLaws S}.

Lemma pre_check_correct fuel (s : S) node_id new_parent :
  size (view_edges s) + 1 < fuel →
  ∃ b, would_create_cycle_in_tx fuel s node_id new_parent = Some b ∧
       (b = true ↔ node_id = new_parent ∨ tc (edge_rel (view_edges s)) node_id new_parent).
Proof.
  intros Hf. unfold would_create_cycle_in_tx. case_bool_decide as Hn.
  { exists true. split; [done|]. split; [by left|done]. }
  set (nbrs := λ cur, (get_neighbors_incoming s cur).*1).
  assert (Hrel : ∀ x y, nbr_rel nbrs x y ↔ flip (edge_rel (view_edges s)) x y).
  { intros x y. unfold nbr_rel, nbrs, flip, edge_rel. rewrite list_elem_of_fmap. split.
    - intros ([p e]&->&(r&?&?&?)%incoming_law). cbn. by exists e, r.
    - intros (e&r&?&?&?). exists (y, e). split; [done|]. apply incoming_law. by exists r. }
  set (univ := map_to_set (C:=gset NodeId) (λ _ r, er_src r) (view_edges s)).
  destruct (bfs_correct nbrs node_id univ fuel new_parent) as (b&Hb&Hiff).
  - intros x y (e&r&He&Hs&_)%Hrel. apply elem_of_map_to_set. eauto.
  - assert (size univ ≤ size (view_edges s)); [|lia]. unfold univ, map_to_set.
    etrans; [apply size_list_to_set_le|].
    by rewrite length_fmap, length_map_to_list.
  - exists b. split; [done|]. rewrite Hiff, <-(tc_flip_iff (edge_rel (view_edges s))). split.
    + intros Ht. right. exact (tc_congruence (R:=nbr_rel nbrs) id _ _ _ (λ x y, proj1 (Hrel x y)) Ht).
    + intros [?|Ht]; [done|].
      exact (tc_congruence (R:=flip (edge_rel (view_edges s))) id _ _ _ (λ x y, proj2 (Hrel x y)) Ht).
Qed.

(** The first step of a move: the tree edge from the old parent goes, if there is one. *)
Lemma detach_correct (db : D) (s : S) node_id old_parent :
  session_of db s →
  let cands := filter (λ '(d, _), d = node_id) (get_neighbors_outgoing_by_type s old_parent TREE_EDGE_LABEL) in
  let s1 := match snd <$> head cands with Some eid => delete_edge eid s | None => s end in
  session_of db s1 ∧ view_nodes s1 = view_nodes s ∧
    (view_edges s1 = view_edges s ∧ (∀ x r, view_edges s !! x = Some r →
       ¬ (er_src r = old_parent ∧ er_dst r = node_id ∧ er_label r = TREE_EDGE_LABEL)) ∨
     ∃ x r, view_edges s !! x = Some r ∧ view_edges s1 = delete x (view_edges s) ∧
       er_src r = old_parent ∧ er_dst r = node_id ∧ er_label r = TREE_EDGE_LABEL).
Proof.
  intros Hso cands s1. unfold s1. destruct cands as [|[d x] l] eqn:Hcands; cbn.
  - split; [done|]. split; [done|]. left. split; [done|].
    intros x r Hx (Hsrc&Hdst&Hlab).
    assert (Hin : (node_id, x) ∈ cands).
    { apply list_elem_of_filter. split; [done|]. apply outgoing_law. by exists r. }
    rewrite Hcands in Hin. by apply elem_of_nil in Hin.
  - assert (Hin : (d, x) ∈ cands) by (rewrite Hcands; left).
    apply list_elem_of_filter in Hin as [-> (r&Hr&Hsrc&Hlab&Hdst)%outgoing_law].
    destruct (delete_edge_law x s) as (_&_&Hn'&He'). split; [by constructor|].
    rewrite Hn', He'. split; [done|]. right. by exists x, r.
Qed.

(** C12: with more fuel than the graph has edges the move always returns.  It is
    refused as a cycle only when the node is the new parent or an ancestor of
    it along edges of any label, and is never committed when it is; a refused
    or failed move leaves the committed graph; a committed one removes at most one tree edge from the old
    parent, adds the tree edge from the new parent, changes no vertex, and
    keeps the graph, and its tree edges alone, acyclic if they were. *)
Theorem sync_tree_move_correct (fuel : nat) (db : D) (node_id old_parent new_parent : NodeId)
  (Hf : size (db_edges db) + 1 < fuel) :
  ∃ r db', sync_tree_move_to_grafeo fuel db node_id old_parent new_parent = Some (r, db') ∧
    match r with
    | Err e =>
        db_nodes db' = db_nodes db ∧ db_edges db' = db_edges db ∧
        (e = ETreeMoveCreatesCycle node_id new_parent →
           node_id = new_parent ∨ tc (edge_rel (db_edges db)) node_id new_parent)
    | Ok _ =>
        is_Some (db_nodes db !! node_id) ∧ is_Some (db_nodes db !! new_parent) ∧
        db_nodes db' = db_nodes db ∧
        if decide (old_parent = new_parent) then db_edges db' = db_edges db
        else
          ¬ (node_id = new_parent ∨ tc (edge_rel (db_edges db)) node_id new_parent) ∧
          (∃ base e, db_edges db' = <[e := mkEdgeRec new_parent node_id TREE_EDGE_LABEL ∅]> base ∧
             (base = db_edges db ∧
                (∀ x r, db_edges db !! x = Some r →
                   ¬ (er_src r = old_parent ∧ er_dst r = node_id ∧ er_label r = TREE_EDGE_LABEL)) ∨
              ∃ x r, db_edges db !! x = Some r ∧ base = delete x (db_edges db) ∧
                er_src r = old_parent ∧ er_dst r = node_id ∧ er_label r = TREE_EDGE_LABEL)) ∧
          (acyclic (edge_rel (db_edges db)) → acyclic (edge_rel (db_edges db'))) ∧
          (acyclic (tree_rel (db_edges db)) → acyclic (tree_rel (db_edges db')))
    end.
Proof.
  unfold sync_tree_move_to_grafeo. destruct (session_law db) as [Hsn Hse].
  rewrite !node_exists_law, Hsn.
  case_bool_decide as Hn; cbn; [|eexists _, _; by split].
  case_bool_decide as Hp; cbn; [|eexists _, _; by split].
  destruct (decide (old_parent = new_parent)) as [Heq|Hne].
  { rewrite bool_decide_eq_true_2 by done. by eexists _, _. }
  rewrite bool_decide_eq_false_2 by done.
  destruct (begin_transaction_serializable _) as [[[]|e] s] eqn:Hbeg; [|eexists _, _; by split].
  destruct (begin_serializable_law _ _ _ Hbeg) as [Hvn Hve].
  pose proof (so_begin_serializable db _ _ Hbeg) as Hso.
  destruct (pre_check_correct fuel s node_id new_parent ltac:(by rewrite Hve)) as (b&->&Hiff).
  rewrite Hve in Hiff. destruct b.
  { eexists _, _. split; [done|]. split; [done|]. split; [done|]. intros _. by apply Hiff. }
  assert (Hnc : ¬ (node_id = new_parent ∨ tc (edge_rel (db_edges db)) node_id new_parent)).
  { intros Hc. assert (false = true) as [=]. by apply Hiff. }
  set (s1 := match snd <$> head _ with Some eid => delete_edge eid s | None => s end).
  destruct (detach_correct db s node_id old_parent Hso) as (Hso1&Hn1&He1).
  fold s1 in Hso1, Hn1, He1. rewrite Hvn in Hn1. rewrite Hve in He1.
  pose proof (create_edge_law new_parent node_id TREE_EDGE_LABEL s1) as Hce.
  pose proof (so_create_edge db new_parent node_id TREE_EDGE_LABEL s1 Hso1) as Hso2.
  destruct (create_edge _ _ _ _) as [enew s2]. destruct Hce as (_&_&_&Hn2&He2). cbn in Hso2.
  destruct (prepare_commit s2) as [[[]|e] s3] eqn:Hprep; [|eexists _, _; by split].
  destruct (prepare_law _ _ Hprep) as [Hn3 He3].
  pose proof (so_prepare _ _ Hso2) as Hso3. rewrite Hprep in Hso3. cbn in Hso3.
  pose proof (commit_law _ _ (so_metadata _ "origin" ORIGIN_LORO_BRIDGE _ Hso3)) as Hcom.
  destruct (set_metadata_law "origin" ORIGIN_LORO_BRIDGE s3) as [Hn4 He4].
  destruct (commit _ _) as [[ep|e] db'].
  2: { destruct Hcom as (?&?&_). eexists _, _. split; [done|]. by split. }
  destruct Hcom as (Hdn&Hde&_). rewrite Hn4, Hn3, Hn2, Hn1 in Hdn. rewrite He4, He3, He2 in Hde.
  eexists _, _. split; [done|]. split; [done|]. split; [done|]. split; [done|].
  split; [done|]. split; [by exists (view_edges s1), enew|].
  rewrite Hde. apply move_acyclic; [done|]. destruct He1 as [[-> _]|(x&r&_&->&_)]; [by left|right; by exists x].
Qed.
End tree_move_spec.

(** ** Concrete moves *)

#[export] Instance MemGraph_neighbors : GrafeoNeighborLaws MemGraph.
Proof.
  split.
  - intros s id p e. cbn. unfold edges_list. rewrite list_elem_of_omap. split.
    + intros ([e' r]&Hin%elem_of_map_to_list&Hr). case_bool_decide; simplify_eq. eauto.
    + intros (r&Hr&<-&<-). exists (e, r). split; [by apply elem_of_map_to_list|].
      by rewrite bool_decide_eq_true_2.
  - intros s id label d e. cbn. unfold edges_list. rewrite list_elem_of_omap. split.
    + intros ([e' r]&Hin%elem_of_map_to_list&Hr). case_bool_decide; simplify_eq. naive_solver.
    + intros (r&Hr&<-&<-&<-). exists (e, r). split; [by apply elem_of_map_to_list|].
      by rewrite bool_decide_eq_true_2.
  - done.
Qed.

(** Vertices 1 and 2, and one edge from 1 to 2 with the given label. *)
Definition two_nodes (label : option string) : MemDb :=
  mkMemDb (mkMemGraph {[mkNodeId 1 := Some (mkNodeRec [] ∅); mkNodeId 2 := Some (mkNodeRec [] ∅)]}
             (match label with
              | Some l => {[mkEdgeId 1 := Some (mkEdgeRec (mkNodeId 1) (mkNodeId 2) l ∅)]}
              | None => ∅
              end) []) 0.

Lemma sync_tree_move_correct_witness :
  ∃ db', sync_tree_move_to_grafeo 9 (two_nodes None) (mkNodeId 2) (mkNodeId 9) (mkNodeId 1)
           = Some (Ok tt, db') ∧ db_nodes db' = db_nodes (two_nodes None).
Proof.
  destruct (sync_tree_move_correct 9 (two_nodes None) (mkNodeId 2) (mkNodeId 9) (mkNodeId 1))
    as (r&db'&Heq&Hspec); [vm_compute; lia|].
  exists db'. assert (Hr : r = Ok tt) by (vm_compute in Heq; congruence).
  subst r. split; [exact Heq|]. apply Hspec.
Defined.

(** The pre-check follows edges of every label: a vertex cannot be moved under
    the target of a plain link. *)
Example link_edge_blocks_move :
  fst <$> sync_tree_move_to_grafeo 9 (two_nodes (Some "LINK")) (mkNodeId 1) (mkNodeId 9) (mkNodeId 2)
  = Some (Err (ETreeMoveCreatesCycle (mkNodeId 1) (mkNodeId 2))).
Proof. vm_compute. reflexivity. Qed.

(** Two moves checked against the same snapshot both pass, and the edges they
    insert close a cycle. *)
Example concurrent_moves_close_a_cycle :
  let s := md_graph (two_nodes None) in
  would_create_cycle_in_tx 9 s (mkNodeId 1) (mkNodeId 2) = Some false ∧
  would_create_cycle_in_tx 9 s (mkNodeId 2) (mkNodeId 1) = Some false ∧
  let s1 := (create_edge (mkNodeId 2) (mkNodeId 1) TREE_EDGE_LABEL s).2 in
  let s2 := (create_edge (mkNodeId 1) (mkNodeId 2) TREE_EDGE_LABEL s1).2 in
  ¬ acyclic (tree_rel (view_edges s2)).
Proof.
  split; [vm_compute; reflexivity|]. split; [vm_compute; reflexivity|]. intros s1 s2 Hac.
  apply (Hac (mkNodeId 1)). apply tc_l with (mkNodeId 2); [|apply tc_once].
  - exists (mkEdgeId 2), (mkEdgeRec (mkNodeId 1) (mkNodeId 2) TREE_EDGE_LABEL ∅). by vm_compute.
  - exists (mkEdgeId 1), (mkEdgeRec (mkNodeId 2) (mkNodeId 1) TREE_EDGE_LABEL ∅). by vm_compute.
Qed.
