(* ===== verification/Storage.v ===== *)
(** * Storage ([src/storage])

    The interface the application persists through, the in-memory backend, and
    chunked snapshot streaming.  Every operation of a backend may fail. *)

From S2P Require Import Prelude Types.

Notation bytes := (list byte) (only parsing).

(** ** The backend interface ([traits.rs])

    The four key/value operations; the state is the backend's content. *)
Class StorageBackend (B : Type) : Type := {
  load : string → B → result IoError bytes;
  save : string → bytes → B → result IoError unit * B;
  list_keys : string → B → result IoError (list string);
  delete_key : string → B → result IoError unit * B
}.

Record SnapshotDiff : Type := mkSnapshotDiff {
  added_ops : Z; removed_ops : Z; state_vector_delta : bytes
}.

Definition SnapshotDiff_empty : SnapshotDiff := mkSnapshotDiff 0 0 [].
Definition SnapshotDiff_is_empty (d : SnapshotDiff) : bool :=
  (added_ops d =? 0)%Z && (removed_ops d =? 0)%Z.

(** ** Chunked streaming ([mod.rs]) *)

Definition DEFAULT_SNAPSHOT_CHUNK_SIZE : nat := 64 * 1024.

(** [slice::chunks]: pieces of [n] elements, the last one possibly shorter. *)
Fixpoint chunks_fuel {A} (fuel n : nat) (l : list A) : list (list A) :=
  match fuel, l with
  | 0, _ | _, [] => []
  | S fuel, _ => take n l :: chunks_fuel fuel n (drop n l)
  end.
Definition chunks {A} (n : nat) (l : list A) : list (list A) := chunks_fuel (length l) n l.

Record SnapshotStreamer : Type := mkSnapshotStreamer { chunk_size : nat }.

Definition SnapshotStreamer_new (n : nat) : SnapshotStreamer := mkSnapshotStreamer (Nat.max n 1).
Definition SnapshotStreamer_default : SnapshotStreamer :=
  SnapshotStreamer_new DEFAULT_SNAPSHOT_CHUNK_SIZE.

(** [sink] is a closure over its own state. *)
Definition SnapshotStreamer_stream {T} (s : SnapshotStreamer) (data : bytes)
    (sink : bytes → SE T GrafeoLoroError unit) : SE T GrafeoLoroError nat :=
  match data with
  | [] => mret 0
  | _ => SE_for (chunks (chunk_size s) data) sink ≫= λ _, mret (length (chunks (chunk_size s) data))
  end.

(** ** The in-memory backend ([memory.rs]) *)

Definition SNAPSHOT_KEY : string := "snapshot".
Definition OP_BYTES_HEURISTIC : Z := 8.

Notation InMemoryStorage := (gmap string (list byte)) (only parsing).

Definition InMemoryStorage_load (key : string) (inner : InMemoryStorage) : result IoError bytes :=
  ok_or (inner !! key) (mkIoError NotFound ("key not found: " +:+ key)).

Definition InMemoryStorage_save (key : string) (b : bytes) (inner : InMemoryStorage) :
    result IoError unit * InMemoryStorage := (Ok tt, <[key := b]> inner).

(** Filtered keys in byte order; [sort] makes the iteration order irrelevant. *)
Definition InMemoryStorage_list `{SetOrder} (prefix : string) (inner : InMemoryStorage) :
    result IoError (list string) :=
  Ok (merge_sort String.le (filter (λ k, String.prefix prefix k = true) (set_iter (dom inner)))).

Definition InMemoryStorage_delete (key : string) (inner : InMemoryStorage) :
    result IoError unit * InMemoryStorage := (Ok tt, delete key inner).

#[export] Instance InMemoryStorage_backend `{SetOrder} : StorageBackend InMemoryStorage := {|
  load := InMemoryStorage_load;
  save := InMemoryStorage_save;
  list_keys := InMemoryStorage_list;
  delete_key := InMemoryStorage_delete
|}.

Definition InMemoryStorage_export_incremental_snapshot (inner : InMemoryStorage)
    (since_state_vector : bytes) : Result bytes :=
  match inner !! SNAPSHOT_KEY with
  | None => Ok []
  | Some current => if bool_decide (since_state_vector = current) then Ok [] else Ok current
  end.

Definition InMemoryStorage_stream_snapshot_to_opfs {T} (inner : InMemoryStorage)
    (chunk_callback : bytes → SE T GrafeoLoroError unit) : SE T GrafeoLoroError unit :=
  SE_for (chunks (chunk_size SnapshotStreamer_default) (default [] (inner !! SNAPSHOT_KEY)))
    chunk_callback.

(** [i64::to_le_bytes] of a difference of lengths. *)
Definition InMemoryStorage_diff_snapshots (base head : bytes) : Result SnapshotDiff :=
  if bool_decide (base = head) then Ok SnapshotDiff_empty
  else
    let base_ops := (Z.of_nat (length base) / OP_BYTES_HEURISTIC)%Z in
    let head_ops := (Z.of_nat (length head) / OP_BYTES_HEURISTIC)%Z in
    Ok (mkSnapshotDiff (u64_saturating_sub head_ops base_ops) (u64_saturating_sub base_ops head_ops)
          (to_le_bytes 8 (u64_wrap (head_ops - base_ops)))).

(** ** What a backend promises *)

(** A backend stores a map from keys to bytes.  Every operation may fail: a failed
    save or delete may leave anything under its own key, but touches no other;
    "not found" is only said of an absent key; a listing that succeeds names
    exactly the stored keys with the prefix. *)
Class StorageLaws (B : Type) `{StorageBackend B} : Type := {
  contents : B → gmap string bytes;
  load_law k b :
    match load k b with
    | Ok v => contents b !! k = Some v
    | Err e => io_kind e = NotFound → contents b !! k = None
    end;
  save_law k v b :
    (∀ k', k' ≠ k → contents (save k v b).2 !! k' = contents b !! k') ∧
    (is_ok (save k v b).1 = true → contents (save k v b).2 !! k = Some v);
  delete_law k b :
    (∀ k', k' ≠ k → contents (delete_key k b).2 !! k' = contents b !! k') ∧
    (is_ok (delete_key k b).1 = true → contents (delete_key k b).2 !! k = None);
  list_law p b ks :
    list_keys p b = Ok ks → ∀ k, k ∈ ks ↔ String.prefix p k = true ∧ is_Some (contents b !! k)
}.

Lemma InMemoryStorage_list_spec `{SetOrder} (p : string) (b : InMemoryStorage) :
  ∃ ks, InMemoryStorage_list p b = Ok ks ∧ Sorted String.le ks ∧ NoDup ks ∧
    ∀ k, k ∈ ks ↔ String.prefix p k = true ∧ is_Some (b !! k).
Proof.
  unfold InMemoryStorage_list. eexists. split; [done|].
  set (l := filter _ _).
  assert (Hp : merge_sort String.le l ≡ₚ l) by apply merge_sort_Permutation.
  split; [apply Sorted_merge_sort, _|]. split.
  - rewrite Hp. apply NoDup_filter. rewrite set_iter_elements. apply NoDup_elements.
  - intros k. rewrite Hp. unfold l. by rewrite list_elem_of_filter, set_iter_elem, elem_of_dom.
Qed.

#[export, refine] Instance InMemoryStorage_laws `{SetOrder} : StorageLaws InMemoryStorage := {| contents b := b |}.
Proof.
  - intros k b. cbn. unfold InMemoryStorage_load. by destruct (b !! k).
  - intros k v b. cbn. split; [by intros; rewrite lookup_insert_ne by done|by rewrite lookup_insert_eq].
  - intros k b. cbn. split; [by intros; rewrite lookup_delete_ne by done|by rewrite lookup_delete_eq].
  - intros p b ks Hks. destruct (InMemoryStorage_list_spec p b) as (ks'&Hks'&_&_&Hin).
    cbn in Hks. rewrite Hks' in Hks. by injection Hks as <-.
Defined.

(** The in-memory backend is a map: a load answers the last save of its key
    and is "not found" after a delete, keys do not disturb each other, saves
    succeed, and a listing gives, sorted and once each, exactly the stored keys
    with the prefix, whatever the iteration order of the hash map. *)
Lemma InMemoryStorage_is_a_map `{SetOrder} (inner : InMemoryStorage) (k k' p : string) (v : bytes) :
  InMemoryStorage_load k' (InMemoryStorage_save k v inner).2 = (if decide (k = k') then Ok v else InMemoryStorage_load k' inner) ∧
  InMemoryStorage_load k' (InMemoryStorage_delete k inner).2 =
    (if decide (k = k') then Err (mkIoError NotFound ("key not found: " +:+ k')) else InMemoryStorage_load k' inner) ∧
  (InMemoryStorage_save k v inner).1 = Ok tt ∧
  ∃ ks, InMemoryStorage_list p inner = Ok ks ∧ Sorted String.le ks ∧ NoDup ks ∧
    ∀ k, k ∈ ks ↔ String.prefix p k = true ∧ is_ok (InMemoryStorage_load k inner) = true.
Proof.
  unfold InMemoryStorage_load. cbn.
  split; [rewrite lookup_insert; by case_decide|]. split; [rewrite lookup_delete; by case_decide|]. split; [done|].
  destruct (InMemoryStorage_list_spec p inner) as (ks&Hks&Hs&Hn&Hin). exists ks. do 3 (split; [done|]).
  intros k0. rewrite Hin. destruct (inner !! k0); cbn; [by naive_solver|]. split; [by intros [_ []]|by intros []].
Qed.

Lemma chunks_fuel_spec {A} fuel n (l : list A) :
  0 < n → length l ≤ fuel →
  concat (chunks_fuel fuel n l) = l ∧
  Forall (λ c, 0 < length c ≤ n) (chunks_fuel fuel n l) ∧
  ∀ i c, chunks_fuel fuel n l !! i = Some c → S i < length (chunks_fuel fuel n l) → length c = n.
Proof.
  intros Hn. revert l. induction fuel as [|fuel IH]; intros l Hl.
  { destruct l; [|cbn in Hl; lia]. cbn. split; [done|]. split; [constructor|done]. }
  destruct l as [|x l]; [cbn; split; [done|]; split; [constructor|done]|].
  cbn [chunks_fuel]. destruct (IH (drop n (x :: l))) as (Hc&Hf&Hs).
  { rewrite length_drop. lia. }
  split; [cbn [concat]; rewrite Hc; apply take_drop|]. split.
  - constructor; [|done]. rewrite length_take. cbn [length]. lia.
  - intros [|i] c; cbn [lookup list_lookup length]; [|intros Hi Hlt; apply (Hs i); [done|lia]].
    intros [= <-] Hlt. rewrite length_take. destruct (decide (n ≤ length (x :: l))) as [?|Hlong]; [lia|].
    rewrite drop_ge in Hlt by lia. destruct fuel; cbn in Hlt; lia.
Qed.

Lemma SE_for_collect {A} (l acc : list A) :
  SE_for (E:=GrafeoLoroError) l (λ c, SE_modify (λ out, out ++ [c])) acc = (Ok tt, acc ++ l).
Proof.
  revert acc. induction l as [|x l IH]; intros acc; cbn; [by rewrite app_nil_r|].
  unfold mbind, SE_bind, SE_modify in *. rewrite IH. by rewrite <-(assoc_L (++)).
Qed.

Lemma stream_eq {T} (s : SnapshotStreamer) data (sink : bytes → SE T GrafeoLoroError unit) :
  SnapshotStreamer_stream s data sink =
  (SE_for (chunks (chunk_size s) data) sink ≫= λ _, mret (length (chunks (chunk_size s) data))).
Proof. by destruct data. Qed.

(** Streaming hands the sink non-empty chunks of the configured size, only
    the last one possibly shorter, whose concatenation is the data, and returns
    their number; a sink that fails ends the stream at once with its error, so
    that what it saw is the stream of a prefix of the chunks. *)
Lemma SnapshotStreamer_stream_correct {T} (n : nat) (data : bytes)
  (sink : bytes → SE T GrafeoLoroError unit) (t : T) :
  let s := SnapshotStreamer_new n in
  let '(r, out) := SnapshotStreamer_stream s data (λ c, SE_modify (λ out, out ++ [c])) [] in
  r = Ok (length out) ∧ concat out = data ∧
  Forall (λ c, 0 < length c ≤ chunk_size s) out ∧
  (∀ i c, out !! i = Some c → S i < length out → length c = chunk_size s) ∧
  match SnapshotStreamer_stream s data sink t with
  | (Ok k, t') => k = length out ∧ SE_for out sink t = (Ok tt, t')
  | (Err e, t') => ∃ seen last rest t1, out = seen ++ last :: rest ∧
      SE_for seen sink t = (Ok tt, t1) ∧ sink last t1 = (Err e, t')
  end.
Proof.
  cbn zeta. set (s := SnapshotStreamer_new n). rewrite !stream_eq.
  set (cs := chunks (chunk_size s) data).
  assert (Hpos : 0 < chunk_size s) by (unfold s, SnapshotStreamer_new; cbn; lia).
  destruct (chunks_fuel_spec (length data) (chunk_size s) data Hpos (le_n _)) as (Hc&Hf&Hs).
  fold (chunks (chunk_size s) data) in Hc, Hf, Hs. fold cs in Hc, Hf, Hs.
  assert (Herr : ∀ l t0, match SE_for l sink t0 with
    | (Ok _, _) => True
    | (Err e, t') => ∃ seen last rest t1, l = seen ++ last :: rest ∧
        SE_for seen sink t0 = (Ok tt, t1) ∧ sink last t1 = (Err e, t') end).
  { clear. induction l as [|c l IH]; intros t0; [done|]. cbn. unfold mbind, SE_bind.
    destruct (sink c t0) as [[[]|e] t1] eqn:Hs.
    - specialize (IH t1). destruct (SE_for l sink t1) as [[[]|e] t']; [done|].
      destruct IH as (seen&last&rest&t2&->&Hr&Hl). exists (c :: seen), last, rest, t2.
      split; [done|]. split; [|done]. cbn. unfold mbind, SE_bind. by rewrite Hs.
    - exists [], c, l, t0. done. }
  unfold mbind, SE_bind. rewrite SE_for_collect. cbn.
  split; [done|]. split; [done|]. split; [done|]. split; [done|].
  specialize (Herr cs t). destruct (SE_for cs sink t) as [[[]|e] t']; done.
Qed.

(** The snapshot diff of two byte strings reports equal strings as empty;
    otherwise at most one of the two counts is not zero, their difference is
    the difference of the operation counts, and the delta bytes decode to it. *)
Lemma diff_snapshots_correct (base head : bytes) :
  ∃ d, InMemoryStorage_diff_snapshots base head = Ok d ∧
    let delta := (Z.of_nat (length head) / 8 - Z.of_nat (length base) / 8)%Z in
    (base = head → d = SnapshotDiff_empty) ∧
    (added_ops d - removed_ops d)%Z = delta ∧ (added_ops d = 0 ∨ removed_ops d = 0)%Z ∧
    (base ≠ head → from_le_bytes (state_vector_delta d) = (delta mod 2 ^ 64)%Z).
Proof.
  unfold InMemoryStorage_diff_snapshots. case_bool_decide as Heq.
  - eexists. split; [done|]. cbn. subst. split; [done|]. split; [lia|]. split; [by left|done].
  - eexists. split; [done|]. cbn [added_ops removed_ops state_vector_delta].
    unfold u64_saturating_sub, u64_wrap, OP_BYTES_HEURISTIC.
    split; [done|]. split; [lia|]. split; [lia|]. intros _.
    rewrite from_to_le_bytes_id; [done|]. apply Z.mod_pos_bound. lia.
Qed.
