(* ===== verification/Compression.v ===== *)
(** * Compression envelope ([src/compression/wrapper.rs])

    Codec dispatch and the wire format.  The codecs themselves ([lz4_flex],
    [brotli], [flate2]) are an interface; [CodecLaws] is their contract. *)

From S2P Require Import Prelude Types.

Notation bytes := (list byte) (only parsing).

(** The library calls; a [*Writer] is the encoder's state. *)
Class Codecs : Type := {
  lz4_compress_prepend_size : bytes → bytes;
  lz4_decompress_size_prepended : bytes → result string bytes;
  CompressorWriter : Type;
  brotli_write_all : Z → bytes → result string CompressorWriter;
  brotli_flush : CompressorWriter → result string CompressorWriter;
  brotli_into_inner : CompressorWriter → bytes;
  brotli_read_to_end : bytes → result string bytes;
  DeflateEncoder : Type;
  deflate_write_all : Z → bytes → result string DeflateEncoder;
  deflate_finish : DeflateEncoder → result string bytes;
  deflate_read_to_end : bytes → result string bytes
}.

Definition WIRE_FORMAT_VERSION : byte := x01.

Record CompressedPayload : Type := mkCompressedPayload {
  compression : CompressionType;
  raw_data : bytes
}.

Definition compression_type_to_tag (c : CompressionType) : byte :=
  match c with CompressionType_None => x00 | Lz4 => x01 | Zstd => x02 end.

(** [{tag:#04x}]. *)
Definition hex_byte (b : byte) : string :=
  ("0x" +:+ hex_digit (Z_of_byte b / 16) +:+ hex_digit (Z_of_byte b mod 16))%string.

Definition tag_to_compression_type (tag : byte) : Result CompressionType :=
  match tag with
  | x00 => Ok CompressionType_None
  | x01 => Ok Lz4
  | x02 => Ok Zstd
  | _ => Err (ECompression ("wire format: unknown codec tag " +:+ hex_byte tag
                +:+ " (expected 0x00=None, 0x01=Lz4, 0x02=Zstd/Brotli)"))
  end%string.

Section compression.
  Context `{Codecs}.

Definition brotli_compress (input : bytes) (quality : Z) : Result bytes :=
  writer ← map_err (λ e, ECompression ("brotli compress: " +:+ e)) (brotli_write_all quality input);
  writer ← map_err (λ e, ECompression ("brotli flush: " +:+ e)) (brotli_flush writer);
  Ok (brotli_into_inner writer).

Definition brotli_decompress (input : bytes) : Result bytes :=
  map_err (λ e, ECompression ("brotli decompress: " +:+ e)) (brotli_read_to_end input).

Definition deflate_compress (input : bytes) (level : Z) : Result bytes :=
  let level := Z.min level 9 in
  encoder ← map_err (λ e, ECompression ("deflate compress: " +:+ e)) (deflate_write_all level input);
  map_err (λ e, ECompression ("deflate finish: " +:+ e)) (deflate_finish encoder).

Definition deflate_decompress (input : bytes) : Result bytes :=
  map_err (λ e, ECompression ("deflate decompress: " +:+ e)) (deflate_read_to_end input).

Definition CompressedPayload_compress (raw_bytes : bytes) (strategy : CompressionType) :
    Result CompressedPayload :=
  raw ← match strategy with
        | CompressionType_None => Ok raw_bytes
        | Lz4 => Ok (lz4_compress_prepend_size raw_bytes)
        | Zstd => brotli_compress raw_bytes DEFAULT_BROTLI_QUALITY
        end;
  Ok (mkCompressedPayload strategy raw).

Definition CompressedPayload_decompress (p : CompressedPayload) : Result bytes :=
  match compression p with
  | CompressionType_None => Ok (raw_data p)
  | Lz4 => map_err ECompression (lz4_decompress_size_prepended (raw_data p))
  | Zstd => brotli_decompress (raw_data p)
  end.

Definition CompressedPayload_to_wire (p : CompressedPayload) : bytes :=
  WIRE_FORMAT_VERSION :: compression_type_to_tag (compression p) :: raw_data p.

Definition CompressedPayload_from_wire (b : bytes) : Result CompressedPayload :=
  match b with
  | version :: tag :: rest =>
      if negb (bool_decide (version = WIRE_FORMAT_VERSION)) then
        Err (ECompression ("wire format: unknown version " +:+ pretty (Z_of_byte version)
               +:+ " (expected " +:+ pretty (Z_of_byte WIRE_FORMAT_VERSION) +:+ ")"))
      else
        compression ← tag_to_compression_type tag;
        Ok (mkCompressedPayload compression rest)
  | _ => Err (ECompression ("wire format: too few bytes (got " +:+ pretty (length b)
                +:+ "; expected ≥2 for version+codec tag)"))
  end.

Definition CompressedPayload_compress_to_wire (raw_bytes : bytes) (strategy : CompressionType) :
    Result bytes :=
  payload ← CompressedPayload_compress raw_bytes strategy;
  Ok (CompressedPayload_to_wire payload).

Definition CompressedPayload_decompress_from_wire (b : bytes) : Result bytes :=
  payload ← CompressedPayload_from_wire b;
  CompressedPayload_decompress payload.

(** ** [LoroDocCompressionExt] *)

(** Export and import of the document, as the library does them. *)
Section doc.
  Context {L Mode Status : Type} (export : Mode → L → result string bytes)
    (import : bytes → L → result string Status * L).

Definition export_compressed (doc : L) (mode : Mode) (strategy : CompressionType) :
    Result CompressedPayload :=
  b ← map_err ELoro (export mode doc);
  CompressedPayload_compress b strategy.

Definition import_compressed (payload : CompressedPayload) (doc : L) : Result Status * L :=
  match CompressedPayload_decompress payload with
  | Err e => (Err e, doc)
  | Ok b => let '(r, doc) := import b doc in (map_err ELoro r, doc)
  end.
End doc.
End compression.

(** Each codec decodes what it encoded. *)
Class CodecLaws `{Codecs} : Prop := {
  lz4_law b : lz4_decompress_size_prepended (lz4_compress_prepend_size b) = Ok b;
  brotli_law q b w w' :
    brotli_write_all q b = Ok w → brotli_flush w = Ok w' →
    brotli_read_to_end (brotli_into_inner w') = Ok b;
  deflate_law l b w out :
    deflate_write_all l b = Ok w → deflate_finish w = Ok out → deflate_read_to_end out = Ok b
}.

(** The wire format is exact: a byte string parses to a payload exactly
    when it is that payload's serialization, so parsing inverts serialization,
    no two payloads share one, and everything else (a short header, another
    version, an unknown codec tag) is a compression error. *)
Lemma wire_format_exact (b : bytes) (p : CompressedPayload) :
  (CompressedPayload_from_wire b = Ok p ↔ b = CompressedPayload_to_wire p) ∧
  match CompressedPayload_from_wire b with
  | Ok _ => True
  | Err e => ∃ msg, e = ECompression msg
  end.
Proof.
  assert (Htag : ∀ t c, tag_to_compression_type t = Ok c ↔ t = compression_type_to_tag c).
  { intros t c. split; [|by intros ->; destruct c]. destruct t; cbn; by intros [= <-]. }
  assert (Herr : ∀ t e, tag_to_compression_type t = Err e → ∃ msg, e = ECompression msg).
  { intros t e. destruct t; cbn; intros [= <-]; eauto. }
  unfold CompressedPayload_from_wire, CompressedPayload_to_wire, mbind, result_bind.
  destruct b as [|v [|t rest]]; [split; [done|eauto]..|].
  case_bool_decide as Hv; cbn.
  - subst v. specialize (Htag t). specialize (Herr t).
    destruct (tag_to_compression_type t) as [c|e].
    + split; [|done]. split; [intros [= <-]; cbn; f_equal; f_equal; by apply Htag|].
      intros [= Ht ->]. apply Htag in Ht as [= ->]. by destruct p.
    + split; [|by apply Herr]. split; [done|]. intros [= Ht _]. by apply Htag in Ht.
  - split; [|eauto]. split; [done|]. by intros [= ->].
Qed.

Lemma decompress_compress `{CodecLaws} (raw wire : bytes) (strategy : CompressionType) :
  CompressedPayload_compress_to_wire raw strategy = Ok wire →
  CompressedPayload_decompress_from_wire wire = Ok raw.
Proof.
  unfold CompressedPayload_compress_to_wire, CompressedPayload_compress,
    CompressedPayload_decompress_from_wire, mbind, result_bind in *.
  intros Hc. destruct strategy; cbn in *; simplify_eq/=.
  - done.
  - unfold CompressedPayload_decompress. cbn. by rewrite lz4_law.
  - unfold brotli_compress, mbind, result_bind in Hc.
    destruct (brotli_write_all _ _) as [w|e] eqn:Hw; cbn in Hc; [|done].
    destruct (brotli_flush w) as [w'|e] eqn:Hf; cbn in Hc; [|done].
    injection Hc as <-. cbn. rewrite bool_decide_true by done. cbn.
    unfold CompressedPayload_decompress, brotli_decompress. cbn.
    by rewrite (brotli_law _ _ _ _ Hw Hf).
Qed.

(** The version and tag come first, so the wire is never empty; the one error
    is the codec's. *)
Lemma compress_to_wire_cases `{Codecs} (raw : bytes) (strategy : CompressionType) :
  match CompressedPayload_compress_to_wire raw strategy with
  | Ok wire => wire ≠ []
  | Err e => ∃ msg, e = ECompression msg
  end.
Proof.
  unfold CompressedPayload_compress_to_wire, CompressedPayload_compress, brotli_compress, mbind, result_bind.
  destruct strategy; cbn; [done..|]. destruct (brotli_write_all _ _) as [w|e]; cbn; [|by eexists].
  destruct (brotli_flush w); cbn; [done|by eexists].
Qed.

(** Compressing under any strategy and decoding the wire bytes gives back
    the data, whenever the codec produced a result; without a codec, and with
    LZ4, it always does. *)
Lemma compression_roundtrip `{CodecLaws} (raw wire : bytes) (strategy : CompressionType)
  (Hc : CompressedPayload_compress_to_wire raw strategy = Ok wire) :
  CompressedPayload_decompress_from_wire wire = Ok raw ∧
  (strategy ≠ Zstd → ∀ raw', is_ok (CompressedPayload_compress_to_wire raw' strategy) = true).
Proof. split; [by eapply decompress_compress|by destruct strategy]. Qed.

(** Stored blocks: a codec that keeps the laws. *)
Definition stored_codecs : Codecs := {|
  lz4_compress_prepend_size b := x00 :: b;
  lz4_decompress_size_prepended b :=
    match b with x00 :: b => Ok b | _ => Err "bad block"%string end;
  CompressorWriter := bytes;
  brotli_write_all _ b := Ok b;
  brotli_flush b := Ok (b ++ [xff]);
  brotli_into_inner b := b;
  brotli_read_to_end b :=
    match last b with Some xff => Ok (removelast b) | _ => Err "unexpected end"%string end;
  DeflateEncoder := bytes;
  deflate_write_all _ b := Ok b;
  deflate_finish b := Ok b;
  deflate_read_to_end b := Ok b
|}.

Lemma stored_codecs_laws : CodecLaws (H := stored_codecs).
Proof.
  split.
  - done.
  - intros q b w w' [= ->] [= <-]. cbn. by rewrite last_snoc, removelast_last.
  - by intros l b w out [= ->] [= ->].
Qed.

Lemma compression_roundtrip_witness :
  CompressedPayload_decompress_from_wire (H := stored_codecs) [x01; x02; x61; x62; xff] = Ok [x61; x62].
Proof.
  apply (compression_roundtrip (H := stored_codecs) (H0 := stored_codecs_laws) _ _ Zstd). reflexivity.
Defined.
