(* ===== verification/Fuzz.v ===== *)
(** * The consistency fuzzer ([fuzz/fuzz_targets/consistency.rs])

    The loop that applies the operations of an input to a fresh database, the
    mirrors it keeps, and the oracles it runs on the outcome.  An oracle that
    fires is a panic with its message.  The theorems say which oracles are sound
    (they never fire on what the bridge does right) and what one that stays
    silent has established. *)

From S2P Require Import Prelude Types Values FuzzCorpus BridgeMaps GrafeoTx GraphSpec EdgeKeys Translate MemGraph Batcher BatcherSpec Graph Compression TreeMove.

(** [LoroMap::ensure_mergeable_map]: the sub-map under a key, created if absent. *)
Class MergeableDoc (L : Type) : Type := {
  ensure_mergeable_map : string → string → L → result string unit * L
}.

Record FuzzInput : Type := mkFuzzInput {
  fi_seed : Z; fi_ops : list FuzzOp; fi_peer_count : Z; fi_bail_after_ops : Z
}.

(** The variables of the loop; [FuzzState] is the view of them the oracles take. *)
Record FuzzRun (D L : Type) : Type := mkFuzzRun {
  fz_db : D;
  fz_doc : L;
  fz_maps : BridgeMaps;
  fz_epochs : gset EpochId;
  live_node_keys : gset string;
  live_edge_keys : gset (string * string * string);
  op_count : Z;
  last_tree_move : option FuzzOp
}.
Arguments mkFuzzRun {D L}.
Arguments fz_db {D L}.
Arguments fz_doc {D L}.
Arguments fz_maps {D L}.
Arguments fz_epochs {D L}.
Arguments live_node_keys {D L}.
Arguments live_edge_keys {D L}.
Arguments op_count {D L}.
Arguments last_tree_move {D L}.

(** A panic carries its message. *)
Notation Run := (result string).

Definition assert (b : bool) (msg : string) : Run unit := if b then Ok tt else Err msg.

Section harness.
  Context {D S L : Type} `{GrafeoSession S, !GrafeoDB D S, !HashOrder, LoroDoc L, !MergeableDoc L}.
  Implicit Types f : FuzzRun D L.

(** ** The loop *)

(** The [match fuzz_op]: the document and the sets of live keys. *)
Definition mirror_op (fuzz_op : FuzzOp) f : FuzzRun D L :=
  let '(doc, nodes, edges, moved) :=
    match fuzz_op with
    | FuzzOp_UpsertNode loro_key _ _ =>
        ((loro_commit (ensure_mergeable_map ROOT_VERTICES loro_key (fz_doc f)).2).2,
         {[loro_key]} ∪ live_node_keys f, live_edge_keys f, last_tree_move f)
    | FuzzOp_DeleteNode loro_key =>
        ((loro_commit (map_delete ROOT_VERTICES loro_key (fz_doc f))).2,
         live_node_keys f ∖ {[loro_key]}, live_edge_keys f, last_tree_move f)
    | FuzzOp_UpsertEdge src_key dst_key label _ =>
        (fz_doc f, live_node_keys f, {[(src_key, dst_key, label)]} ∪ live_edge_keys f, last_tree_move f)
    | FuzzOp_DeleteEdge src_key dst_key label =>
        (fz_doc f, live_node_keys f, live_edge_keys f ∖ {[(src_key, dst_key, label)]}, last_tree_move f)
    | FuzzOp_TreeMove node_key old_parent_key new_parent_key =>
        (fz_doc f, live_node_keys f,
         {[(new_parent_key, node_key, TREE_EDGE_LABEL)]} ∪
           (live_edge_keys f ∖ {[(old_parent_key, node_key, TREE_EDGE_LABEL)]}),
         Some fuzz_op)
    end in
  mkFuzzRun (fz_db f) doc (fz_maps f) (fz_epochs f) nodes edges (op_count f) moved.

(** The session of one operation: its error is ignored, as are those of the commit. *)
Definition fuzz_transaction (op : LoroOp) f : Run (FuzzRun D L) :=
  match begin_transaction (session_with_cdc (fz_db f) false) with
  | (Err e, _) => Err ("I3a: begin_transaction failed: " +:+ e)
  | (Ok _, s1) =>
      let '(_, tx) := apply_loro_op op (mkTxState s1 (fz_maps f)) in
      let '(db, epochs) :=
        match prepare_commit (tx_session tx) with
        | (Ok _, s2) =>
            match commit s2 (fz_db f) with
            | (Ok epoch, db) => (db, {[epoch]} ∪ fz_epochs f)
            | (Err _, db) => (db, fz_epochs f)
            end
        | (Err _, _) => (fz_db f, fz_epochs f)
        end in
      Ok (mkFuzzRun db (fz_doc f) (tx_maps tx) epochs (live_node_keys f) (live_edge_keys f)
            (op_count f) (last_tree_move f))
  end.

Definition count_op f : FuzzRun D L :=
  mkFuzzRun (fz_db f) (fz_doc f) (fz_maps f) (fz_epochs f) (live_node_keys f) (live_edge_keys f)
    (op_count f + 1) (last_tree_move f).

Definition fuzz_step f (fuzz_op : FuzzOp) : Run (FuzzRun D L) :=
  f ← fuzz_transaction (convert_fuzz_op fuzz_op) f;
  Ok (count_op (mirror_op fuzz_op f)).

Fixpoint fuzz_loop f (ops : list FuzzOp) : Run (FuzzRun D L) :=
  match ops with
  | [] => Ok f
  | op :: ops => f ← fuzz_step f op; fuzz_loop f ops
  end.

(** [bail] and [requested_ops]. *)
Definition fuzz_bail (input : FuzzInput) : Z := Z.min (Z.max (fi_bail_after_ops input) 1) 10000.
Definition requested_ops (input : FuzzInput) : Z :=
  Z.min (Z.of_nat (length (fi_ops input))) (fuzz_bail input).

Definition fuzz_start (db : D) (doc : L) : FuzzRun D L :=
  mkFuzzRun db doc BridgeMaps_new ∅ ∅ ∅ 0 None.

Definition fuzz_apply (db : D) (doc : L) (input : FuzzInput) : Run (FuzzRun D L) :=
  fuzz_loop (fuzz_start db doc) (take (Z.to_nat (fuzz_bail input)) (fi_ops input)).

(** ** The oracles *)

Definition check_i1_tree_state_parity f : Run unit :=
  assert (bool_decide (dom (node_id_map (fz_maps f)) = live_node_keys f))
    "I1: tree state parity violated".

Definition check_i2_edge_state_parity f : Run unit :=
  assert (bool_decide (dom (edge_id_map (fz_maps f)) = live_edge_keys f))
    "I2: edge state parity violated".

Definition check_i3a_no_panic_in_apply_loro_op f (requested_ops : Z) : Run unit :=
  assert (op_count f =? requested_ops)%Z "I3a: apply_loro_op did not complete all requested ops without panic".

Definition check_i4_echo_loop_bounded f : Run unit :=
  assert (Z.of_nat (size (fz_epochs f)) <=? EPOCH_RETENTION + 1)%Z "I4: epoch side-channel set grew".

(** One direction of a pair of maps, over the entries in any order. *)
Definition check_inverse_entries {A B} `{Countable A, Countable B} (fwd : gmap A B) (inv : gmap B A) : bool :=
  bool_decide (size fwd = size inv) &&
  forallb (λ kv : A * B, match inv !! kv.2 with Some k => bool_decide (k = kv.1) | None => false end)
    (map_to_list fwd).

Definition check_i11_bridge_maps_bijectivity (maps : BridgeMaps) : Run unit :=
  _ ← assert (check_inverse_entries (node_id_map maps) (node_key_map maps))
        "I11: node map bijectivity violated";
  assert (check_inverse_entries (edge_id_map maps) (edge_key_map maps))
    "I11: edge map bijectivity violated".

(** The search of one root; [fuel] bounds the pops of its queue. *)
Fixpoint i14_bfs {A} `{Countable A} (children : A → list A) (fuel : nat) (visited : gset A)
    (queue : list A) : option (Run unit) :=
  match fuel, queue with
  | _, [] => Some (Ok tt)
  | O, _ => None
  | Datatypes.S fuel, node :: queue =>
      if bool_decide (node ∈ visited) then Some (Err "I14: tree move serializability violated")
      else i14_bfs children fuel ({[node]} ∪ visited) (queue ++ children node)
  end%string.

Fixpoint i14_roots {A} `{Countable A} (children : A → list A) (fuel : nat) (roots : list A) :
    option (Run unit) :=
  match roots with
  | [] => Some (Ok tt)
  | root :: roots =>
      match i14_bfs children fuel ∅ [root] with
      | Some (Ok _) => i14_roots children fuel roots
      | r => r
      end
  end.

(** [node_ids] are the bound ids, in the order of the hash map. *)
Definition check_i14_tree_move_serializability (fuel : nat) (db : D) (node_ids : list NodeId) :
    option (Run unit) :=
  i14_roots (λ node, (get_neighbors_outgoing_by_type (session db) node TREE_EDGE_LABEL).*1) fuel node_ids.

(** The cheap oracles, in the order of the entry point. *)
Definition cheap_checks (input : FuzzInput) f : Run unit :=
  _ ← check_i1_tree_state_parity f;
  _ ← check_i2_edge_state_parity f;
  _ ← check_i3a_no_panic_in_apply_loro_op f (requested_ops input);
  _ ← check_i4_echo_loop_bounded f;
  check_i11_bridge_maps_bijectivity (fz_maps f).
End harness.

(** ** I8: the sample and the round trip *)

(** One step of SplitMix64, and the byte it gives. *)
Definition splitmix64 (s : Z) : Z * byte :=
  let s := u64_add s 0x9E3779B97F4A7C15 in
  let z := u64_mul (Z.lxor s (Z.shiftr s 30)) 0xBF58476D1CE4E5B9 in
  let z := u64_mul (Z.lxor z (Z.shiftr z 27)) 0x94D049BB133111EB in
  let z := Z.lxor z (Z.shiftr z 31) in
  (s, byte_of_Z z).

Fixpoint i8_sample (size : nat) (s : Z) : list byte :=
  match size with
  | O => []
  | Datatypes.S size => let '(s, b) := splitmix64 s in b :: i8_sample size s
  end.

Definition check_i8_strategy `{Codecs} (sample : list byte) (strategy : CompressionType) : Run unit :=
  payload ← map_err (λ _, "I8: compress failed"%string) (CompressedPayload_compress sample strategy);
  decompressed ← map_err (λ _, "I8: decompress failed"%string) (CompressedPayload_decompress payload);
  assert (bool_decide (decompressed = sample)) "I8: compression round-trip failed".

Definition check_i8_compression_round_trip `{Codecs} (sample_seed : Z) : Run unit :=
  let size := Z.to_nat (sample_seed mod 4096 + 1) in
  let sample := i8_sample size sample_seed in
  _ ← check_i8_strategy sample CompressionType_None;
  _ ← check_i8_strategy sample Lz4;
  check_i8_strategy sample Zstd.

(** ** What the search of I14 decides *)

Section i14.
  Context {A : Type} `{Countable A} (children : A → list A).

(** A search that stays silent never comes back to what it has seen. *)
Lemma i14_bfs_silent fuel visited queue z w :
  i14_bfs children fuel visited queue = Some (Ok tt) →
  z ∈ queue → rtc (child_rel children) z w → w ∉ visited.
Proof.
  revert visited queue z w. induction fuel as [|fuel IH]; intros visited queue z w; cbn.
  { destruct queue; [|done]. by intros _ ?%elem_of_nil. }
  destruct queue as [|n queue]; [by intros _ ?%elem_of_nil|]. case_bool_decide as Hn; [done|].
  intros Hrun Hz Hw. pose proof (λ z w, IH _ _ z w Hrun) as Hnv. apply elem_of_cons in Hz as [->|Hz].
  - inversion Hw as [|? c ? Hc Hcw]; subst; [done|]. intros Hv.
    eapply (Hnv c w); [apply elem_of_app; by right|done|]. set_solver.
  - intros Hv. eapply (Hnv z w); [apply elem_of_app; by left|done|]. set_solver.
Qed.

Lemma i14_bfs_no_cycle fuel root :
  i14_bfs children fuel ∅ [root] = Some (Ok tt) → ¬ tc (child_rel children) root root.
Proof.
  destruct fuel as [|fuel]; cbn; [done|]. rewrite bool_decide_false by set_solver.
  intros Hrun (c & Hc & Hr)%tc_rtc_iff. eapply i14_bfs_silent; [exact Hrun|exact Hc|exact Hr|set_solver].
Qed.

(** It ends within one pop per vertex, and one to come back to one of them. *)
Lemma i14_bfs_total (univ : gset A) fuel visited queue :
  (∀ x y, child_rel children x y → y ∈ univ) → (∀ x, x ∈ queue → x ∈ univ) →
  size (univ ∖ visited) < fuel → ∃ r, i14_bfs children fuel visited queue = Some r.
Proof.
  intros Hun. revert visited queue. induction fuel as [|fuel IH]; intros visited queue Hq Hf; [lia|].
  cbn. destruct queue as [|n queue]; [eauto|]. case_bool_decide as Hn; [eauto|]. apply IH.
  - intros x [Hx|Hx]%elem_of_app; [apply Hq; by right|by eapply Hun].
  - assert (n ∈ univ) by (apply Hq; left).
    assert (size (univ ∖ ({[n]} ∪ visited)) < size (univ ∖ visited)); [|lia].
    apply subset_size. set_solver.
Qed.

(** In a forest no vertex has two parents, nor two edges from one. *)
Definition forest : Prop :=
  acyclic (child_rel children) ∧ (∀ x, NoDup (children x)) ∧
  ∀ x y c, child_rel children x c → child_rel children y c → x = y.

Record i14_inv (root : A) (visited : gset A) (queue : list A) : Prop := {
  i14_nodup : NoDup queue;
  i14_fresh x : x ∈ queue → x ∉ visited;
  i14_reach x : x ∈ queue → rtc (child_rel children) root x;
  i14_parent x : x ∈ visited ∨ x ∈ queue → x = root ∨ ∃ p, p ∈ visited ∧ child_rel children p x
}.

Lemma i14_bfs_forest root fuel visited queue r :
  forest → i14_inv root visited queue →
  i14_bfs children fuel visited queue = Some r → r = Ok tt.
Proof.
  intros (Hac & Hnd & Hpar). revert visited queue.
  induction fuel as [|fuel IH]; intros visited queue Hinv; cbn; [destruct queue; by intros [= <-]|].
  destruct queue as [|n queue]; [by intros [= <-]|]. destruct Hinv as [Hq Hf Hr Hp].
  apply NoDup_cons in Hq as [Hnq Hq].
  rewrite bool_decide_false by (apply Hf; left). apply IH.
  assert (Hrn : rtc (child_rel children) root n) by (apply Hr; left).
  assert (Hnew : ∀ c, child_rel children n c → c ∉ visited ∧ c ∉ queue ∧ c ≠ n).
  { intros c Hc. assert (Hcr : c ≠ root).
    { intros ->. apply (Hac root). eapply rtc_tc_trans; [exact Hrn|by apply tc_once]. }
    assert (Hold : ¬ (c ∈ visited ∨ c ∈ n :: queue)).
    { intros Hold. destruct (Hp c Hold) as [?|(p & Hpv & Hpc)]; [done|].
      rewrite (Hpar p n c Hpc Hc) in Hpv. apply (Hf n); [left|done]. }
    rewrite elem_of_cons in Hold. tauto. }
  split.
  - apply NoDup_app. split; [done|]. split; [|apply Hnd]. intros x Hx Hc. by apply Hnew in Hc as (_&?&_).
  - intros x [Hx|Hx]%elem_of_app; [|apply Hnew in Hx; set_solver].
    assert (x ∉ visited) by (apply Hf; by right). set_solver.
  - intros x [Hx|Hx]%elem_of_app; [apply Hr; by right|by eapply rtc_r].
  - intros x Hx. assert (Hx' : (x ∈ visited ∨ x ∈ n :: queue) ∨ child_rel children n x).
    { rewrite elem_of_cons. rewrite elem_of_app, elem_of_union, elem_of_singleton in Hx.
      unfold child_rel. tauto. }
    destruct Hx' as [Hx'|Hc]; [|right; exists n; set_solver].
    destruct (Hp x Hx') as [->|(p & ? & ?)]; [by left|right; exists p; set_solver].
Qed.

Lemma i14_roots_spec (univ : gset A) fuel roots :
  (∀ x y, child_rel children x y → y ∈ univ) → (∀ x, x ∈ roots → x ∈ univ) → size univ < fuel →
  ∃ r, i14_roots children fuel roots = Some r ∧
    (r = Ok tt → ∀ x, x ∈ roots → ¬ tc (child_rel children) x x) ∧ (forest → r = Ok tt).
Proof.
  intros Hun Hr Hf. induction roots as [|x roots IH]; cbn.
  { eexists. split; [done|]. split; [|done]. by intros _ x ?%elem_of_nil. }
  destruct (i14_bfs_total univ fuel ∅ [x] Hun) as [b Hb].
  { intros y ->%list_elem_of_singleton. apply Hr. left. }
  { replace (univ ∖ ∅) with univ by set_solver. done. }
  rewrite Hb. destruct IH as (r & Hrs & Hsound & Hcomp); [intros y Hy; apply Hr; by right|].
  assert (Hforest : forest → b = Ok tt).
  { intros Hfo. eapply (i14_bfs_forest x); [done| |exact Hb]. split.
    - apply NoDup_singleton.
    - set_solver.
    - intros y ->%list_elem_of_singleton. apply rtc_refl.
    - intros y [Hy| ->%list_elem_of_singleton]; [set_solver|by left]. }
  destruct b as [[]|e].
  - exists r. split; [done|]. split; [|done]. intros Hok y [->|Hy]%elem_of_cons; [|by apply Hsound].
    by eapply i14_bfs_no_cycle.
  - eexists. split; [done|]. split; [done|]. intros Hfo. by apply Hforest in Hfo.
Qed.
End i14.

(** ** What an operation does to the maps, whatever the session answers

    Without any condition on the operations: an edge of a deleted vertex stays
    bound, and an operation can fail half-way. *)

Section maps_only.
  Context {S : Type} `{GrafeoLaws S, !HashOrder}.
  Implicit Types tx : TxState S.

(** The maps are inverse to each other, and bind only ids the session has used. *)
Record owned tx : Prop := {
  ow_nodes : nodes_bijective (tx_maps tx);
  ow_edges : edges_bijective (tx_maps tx);
  ow_used_nodes id : is_Some (node_key_map (tx_maps tx) !! id) → id ∈ used_nodes (tx_session tx);
  ow_used_edges id : is_Some (edge_key_map (tx_maps tx) !! id) → id ∈ used_edges (tx_session tx)
}.

(** The same maps, over a session that has used at least as many ids. *)
Definition grows tx tx' : Prop :=
  tx_maps tx' = tx_maps tx ∧ used_nodes (tx_session tx) ⊆ used_nodes (tx_session tx') ∧
  used_edges (tx_session tx) ⊆ used_edges (tx_session tx').

Lemma owned_grows tx tx' : owned tx → grows tx tx' → owned tx'.
Proof. intros [Hn He Hun Hue] (Hm & Hnn & Hee). split; rewrite Hm; [done|done| |]; intros id ?; auto. Qed.

Lemma set_node_properties_grows id (l : list (string * GraphValue)) tx :
  grows tx (SE_for l (λ '(k, v), session_call (set_node_property id k (gval_to_grafeo_value v))) tx).2.
Proof.
  apply (SE_for_inv (grows tx)); [|done]. intros [k v] t _ (Hm & Hn & He). unfold session_call.
  pose proof (set_node_property_law id k (gval_to_grafeo_value v) (tx_session t)) as Hl.
  destruct (set_node_property _ _ _ _) as [[[]|e] s']; cbn; destruct Hl as (Hu & Hue & _);
    unfold grows; cbn; rewrite Hu, Hue; done.
Qed.

Lemma set_edge_properties_grows id (l : list (string * GraphValue)) tx :
  grows tx (SE_for l (λ '(k, v), session_call (set_edge_property id k (gval_to_grafeo_value v))) tx).2.
Proof.
  apply (SE_for_inv (grows tx)); [|done]. intros [k v] t _ (Hm & Hn & He). unfold session_call.
  pose proof (set_edge_property_law id k (gval_to_grafeo_value v) (tx_session t)) as Hl.
  destruct (set_edge_property _ _ _ _) as [[[]|e] s']; cbn; destruct Hl as (Hu & Hue & _);
    unfold grows; cbn; rewrite Hu, Hue; done.
Qed.

Lemma fresh_key {A} `{Countable A} (m : gmap A string) (u : gset A) id :
  (∀ x, is_Some (m !! x) → x ∈ u) → id ∉ u → m !! id = None.
Proof. intros Hu Hid. apply eq_None_not_Some. intros Hs. by apply Hid, Hu. Qed.

(** A new binding of a fresh id. *)
Lemma owned_insert_node tx s' k id :
  owned tx → node_id_map (tx_maps tx) !! k = None → id ∉ used_nodes (tx_session tx) →
  used_nodes s' = {[id]} ∪ used_nodes (tx_session tx) → used_edges s' = used_edges (tx_session tx) →
  owned (mkTxState s' (BridgeMaps_insert_node (tx_maps tx) k id)).
Proof.
  intros [Hn He Hun Hue] Hk Hid Hu Hu'. assert (Hki : node_key_map (tx_maps tx) !! id = None).
  { apply eq_None_not_Some. intros Hs. by apply Hid, Hun. }
  split; cbn; [by apply inverse_maps_insert|done| |by rewrite Hu'].
  intros x. rewrite lookup_insert, Hu. case_decide; [set_solver|]. intros Hx%Hun. set_solver.
Qed.

Lemma owned_insert_edge tx s' key id :
  owned tx → edge_id_map (tx_maps tx) !! key = None → id ∉ used_edges (tx_session tx) →
  used_edges s' = {[id]} ∪ used_edges (tx_session tx) → used_nodes s' = used_nodes (tx_session tx) →
  owned (mkTxState s' (BridgeMaps_insert_edge (tx_maps tx) key id)).
Proof.
  intros [Hn He Hun Hue] Hk Hid Hu Hu'. assert (Hki : edge_key_map (tx_maps tx) !! id = None).
  { apply eq_None_not_Some. intros Hs. by apply Hid, Hue. }
  split; cbn; [done|by apply inverse_maps_insert|by rewrite Hu'|].
  intros x. rewrite lookup_insert, Hu. case_decide; [set_solver|]. intros Hx%Hue. set_solver.
Qed.

(** Removing a binding, and the entity from the session. *)
Lemma owned_remove_node tx k :
  owned tx →
  let out := (removed ← maps_do (λ m, BridgeMaps_remove_node m k);
              match removed with Some id => session_do (delete_node id) | None => mret tt end) tx in
  owned out.2 ∧ dom (node_id_map (tx_maps out.2)) = dom (node_id_map (tx_maps tx)) ∖ {[k]}.
Proof.
  intros [Hn He Hun Hue]. unfold maps_do, mbind, SE_bind, BridgeMaps_remove_node.
  destruct (node_id_map (tx_maps tx) !! k) as [id|] eqn:Hk; cbn.
  - pose proof (delete_node_law id (tx_session tx)) as (Hu & Hu' & _).
    split; [|by rewrite dom_delete_L]. split; cbn; [by apply inverse_maps_delete|done| |].
    + intros x. rewrite lookup_delete_is_Some, Hu. intros [_ Hx]. by apply Hun.
    + intros x. rewrite Hu'. apply Hue.
  - destruct tx as [s m]. cbn in *. split; [by split|]. apply not_elem_of_dom in Hk. set_solver.
Qed.

Lemma owned_remove_edge tx key :
  owned tx →
  let out := (removed ← maps_do (λ m, BridgeMaps_remove_edge m key);
              match removed with Some id => session_do (delete_edge id) | None => mret tt end) tx in
  out.1 = Ok tt ∧ owned out.2 ∧ node_id_map (tx_maps out.2) = node_id_map (tx_maps tx).
Proof.
  intros [Hn He Hun Hue]. unfold maps_do, mbind, SE_bind, BridgeMaps_remove_edge.
  destruct (edge_id_map (tx_maps tx) !! key) as [id|] eqn:Hk; cbn.
  - pose proof (delete_edge_law id (tx_session tx)) as (Hu & Hu' & _).
    split; [done|]. split; [|done]. split; cbn; [done|by apply inverse_maps_delete| |].
    + intros x. rewrite Hu. apply Hun.
    + intros x. rewrite lookup_delete_is_Some, Hu'. intros [_ Hx]. by apply Hue.
  - destruct tx as [s m]. cbn in *. split; [done|]. split; [by split|done].
Qed.

(** What each operation does to the set of bound vertices. *)
Definition bound_after (op : LoroOp) (bound : gset string) : gset string :=
  match op with
  | UpsertNode k _ _ => {[k]} ∪ bound
  | DeleteNode k => bound ∖ {[k]}
  | _ => bound
  end.

(** Vertex creation is the one call of a vertex operation that can refuse. *)
Context (Hcreate : ∀ labels props (s : S), is_ok (create_node_with_props labels props s).1 = true).

Lemma upsert_node_owned k labels ps tx :
  owned tx → let out := apply_upsert_node k labels ps tx in
  owned out.2 ∧ dom (node_id_map (tx_maps out.2)) = {[k]} ∪ dom (node_id_map (tx_maps tx)).
Proof.
  intros Ho. unfold apply_upsert_node, maps_get, mbind, SE_bind. cbn.
  destruct (node_id_map (tx_maps tx) !! k) as [id|] eqn:Hk; cbn.
  - pose proof (set_node_properties_grows id (hash_iter ps) tx) as Hg.
    destruct (SE_for _ _ _) as [r tx']. cbn in *. split; [by eapply owned_grows|].
    destruct Hg as [-> _]. assert (k ∈ dom (node_id_map (tx_maps tx))) by (apply elem_of_dom; eauto).
    set_solver.
  - unfold session_call, maps_do. destruct (hash_iter_conv ps) as [Hnd _].
    pose proof (create_node_law labels _ (tx_session tx) Hnd) as Hl.
    pose proof (Hcreate labels (prod_map id gval_to_grafeo_value <$> hash_iter ps) (tx_session tx)) as Hc.
    destruct (create_node_with_props _ _ _) as [[id|e] s']; cbn in *; [|done].
    destruct Hl as (Hf & Hu & Hu' & _). split; [by apply owned_insert_node|]. by rewrite dom_insert_L.
Qed.

Definition keeps_nodes tx (out : Result unit * TxState S) : Prop :=
  owned out.2 ∧ node_id_map (tx_maps out.2) = node_id_map (tx_maps tx).

Lemma upsert_edge_owned s d l ps tx : owned tx → keeps_nodes tx (apply_upsert_edge s d l ps tx).
Proof.
  intros Ho. unfold apply_upsert_edge, maps_get, mbind, SE_bind. cbn.
  destruct (node_id_map _ !! s) as [si|]; cbn; [|by split].
  destruct (node_id_map _ !! d) as [di|]; cbn; [|by split].
  destruct (edge_id_map (tx_maps tx) !! (s, d, l)) as [id|] eqn:Hk; cbn.
  - pose proof (set_edge_properties_grows id (hash_iter ps) tx) as Hg.
    destruct (SE_for _ _ _) as [r tx']. cbn in *. split; [by eapply owned_grows|]. cbn. by destruct Hg as [-> _].
  - unfold session_call, maps_do. destruct (hash_iter_conv ps) as [Hnd _].
    pose proof (create_edge_with_props_law si di l _ (tx_session tx) Hnd) as Hl.
    destruct (create_edge_with_props _ _ _ _ _) as [[id|e] s']; cbn in *.
    + destruct Hl as (Hf & Hu & Hu' & _). split; [by apply owned_insert_edge|done].
    + destruct Hl as (Hu & Hu' & _). split; [|done]. eapply owned_grows; [done|].
      unfold grows. cbn. rewrite Hu. done.
Qed.

Lemma tree_move_owned n old new tx : owned tx → keeps_nodes tx (apply_tree_move n old new tx).
Proof.
  intros Ho. unfold apply_tree_move, maps_get at 1, mbind at 1, SE_bind at 1. cbn.
  destruct (node_id_map (tx_maps tx) !! n) as [ni|]; cbn; [|by split].
  destruct (node_id_map (tx_maps tx) !! new) as [pi|]; cbn; [|by split].
  rewrite SE_bind_assoc. destruct (owned_remove_edge tx (old, n, TREE_EDGE_LABEL) Ho) as (Hok & Ho1 & Hm).
  rewrite (SE_bind_Ok _ _ _ _ Hok). clear Hok.
  match type of Ho1 with owned ?s => set (tx1 := s) in * end. clearbody tx1.
  unfold maps_get, mbind, SE_bind. cbn.
  destruct (edge_id_map (tx_maps tx1) !! (new, n, TREE_EDGE_LABEL)) as [e|] eqn:He; cbn; [by split|].
  unfold session_run, maps_do. cbn. pose proof (create_edge_law pi ni TREE_EDGE_LABEL (tx_session tx1)) as Hl.
  destruct (create_edge _ _ _ _) as [e s']. destruct Hl as (Hf & Hu & Hu' & _). cbn.
  split; [by apply owned_insert_edge|done].
Qed.

Lemma apply_loro_op_owned op tx :
  owned tx → let out := apply_loro_op op tx in
  owned out.2 ∧ dom (node_id_map (tx_maps out.2)) = bound_after op (dom (node_id_map (tx_maps tx))).
Proof.
  intros Ho. destruct op as [k ls ps|s d l ps|k|s d l|n old new]; cbn [apply_loro_op bound_after].
  - by apply upsert_node_owned.
  - destruct (upsert_edge_owned s d l ps tx Ho) as [? ->]. done.
  - by apply owned_remove_node.
  - destruct (owned_remove_edge tx (s, d, l) Ho) as (_ & ? & ->). done.
  - destruct (tree_move_owned n old new tx Ho) as [? ->]. done.
Qed.
End maps_only.

(** ** The oracles that never fire *)

(** Ids are drawn from one counter of the database, which no outcome of a
    commit takes back. *)
Class GrafeoFreshIds (D S : Type) `{GrafeoLaws S, !GrafeoDB D S} : Type := {
  db_used_nodes : D → gset NodeId;
  db_used_edges : D → gset EdgeId;
  begin_fresh d c s :
    begin_transaction (session_with_cdc d c) = (Ok tt, s) →
    db_used_nodes d ⊆ used_nodes s ∧ db_used_edges d ⊆ used_edges s;
  prepare_fresh s s' :
    prepare_commit s = (Ok tt, s') → used_nodes s ⊆ used_nodes s' ∧ used_edges s ⊆ used_edges s';
  commit_fresh s d :
    used_nodes s ⊆ db_used_nodes (commit s d).2 ∧ used_edges s ⊆ db_used_edges (commit s d).2
}.

Lemma check_inverse_entries_ok {A B} `{Countable A, Countable B} (fwd : gmap A B) (inv : gmap B A) :
  inverse_maps fwd inv → check_inverse_entries fwd inv = true.
Proof.
  intros Hi. unfold check_inverse_entries. apply andb_true_intro. split.
  - apply bool_decide_eq_true. rewrite <-!size_dom.
    assert (Hle : ∀ (C E : Type) `{Countable C, Countable E} (f : gmap C E) (g : gmap E C),
      inverse_maps f g → size (dom g) ≤ size (dom f)).
    { intros C E ???? f g Hfg. rewrite !size_dom. rewrite <-!length_map_to_list, <-(length_fmap snd).
      rewrite <-(length_fmap fst (map_to_list f)).
      apply submseteq_length, NoDup_submseteq.
      - apply NoDup_fmap_2_strong; [|apply NoDup_map_to_list].
        intros [x1 y1] [x2 y2] Hx1%elem_of_map_to_list Hx2%elem_of_map_to_list. cbn. intros ->.
        apply Hfg in Hx1, Hx2. by simplify_eq.
      - intros c ([e c'] & -> & Hin%elem_of_map_to_list)%list_elem_of_fmap. cbn.
        apply Hfg in Hin. apply list_elem_of_fmap. exists (c', e). split; [done|].
        by apply elem_of_map_to_list. }
    assert (Hi' : inverse_maps inv fwd) by (intros b a; symmetry; apply Hi).
    pose proof (Hle _ _ _ _ _ _ _ _ Hi). pose proof (Hle _ _ _ _ _ _ _ _ Hi'). lia.
  - apply forallb_forall. intros [a b] Hin%list_elem_of_In%elem_of_map_to_list. cbn.
    apply Hi in Hin. rewrite Hin. by apply bool_decide_eq_true.
Qed.

Section sound.
  Context {D S L : Type} `{GrafeoLaws S, !GrafeoDB D S, !GrafeoFreshIds D S, !HashOrder}.
  Context `{LoroDoc L, !MergeableDoc L}.
  Context (Hcreate : ∀ labels props (s : S), is_ok (create_node_with_props labels props s).1 = true).
  Context (Hprepare : ∀ s : S, is_ok (prepare_commit s).1 = true).
  Implicit Types f : FuzzRun D L.

Record fuzz_inv f : Prop := {
  fv_nodes : nodes_bijective (fz_maps f);
  fv_edges : edges_bijective (fz_maps f);
  fv_used_nodes id : is_Some (node_key_map (fz_maps f) !! id) → id ∈ db_used_nodes (fz_db f);
  fv_used_edges id : is_Some (edge_key_map (fz_maps f) !! id) → id ∈ db_used_edges (fz_db f);
  fv_live : dom (node_id_map (fz_maps f)) = live_node_keys f;
  fv_epochs : (Z.of_nat (size (fz_epochs f)) ≤ op_count f)%Z
}.

Lemma fuzz_transaction_inv op f f' :
  fuzz_inv f → fuzz_transaction op f = Ok f' →
  nodes_bijective (fz_maps f') ∧ edges_bijective (fz_maps f') ∧
  (∀ id, is_Some (node_key_map (fz_maps f') !! id) → id ∈ db_used_nodes (fz_db f')) ∧
  (∀ id, is_Some (edge_key_map (fz_maps f') !! id) → id ∈ db_used_edges (fz_db f')) ∧
  dom (node_id_map (fz_maps f')) = bound_after op (live_node_keys f) ∧
  (Z.of_nat (size (fz_epochs f')) ≤ op_count f + 1)%Z ∧
  op_count f' = op_count f ∧ live_node_keys f' = live_node_keys f.
Proof.
  intros [Hn He Hun Hue Hl Hep]. unfold fuzz_transaction.
  destruct (begin_transaction _) as [[[]|e] s1] eqn:Hb; [|done]. apply begin_fresh in Hb as [Hb1 Hb2].
  assert (Ho : owned (mkTxState s1 (fz_maps f))) by (split; cbn; auto).
  pose proof (apply_loro_op_owned Hcreate op _ Ho) as [[Hn' He' Hun' Hue'] Hd].
  destruct (apply_loro_op op _) as [r tx]. cbn in Hn', He', Hun', Hue', Hd.
  pose proof (Hprepare (tx_session tx)) as Hp.
  destruct (prepare_commit (tx_session tx)) as [[[]|e] s2] eqn:Hp2; [|done].
  apply prepare_fresh in Hp2 as [Hp1 Hp2]. pose proof (commit_fresh s2 (fz_db f)) as [Hc1 Hc2].
  destruct (commit s2 (fz_db f)) as [[e|e] d]; intros [= <-]; cbn in *; rewrite <-Hl;
    (split; [done|]); (split; [done|]); (split; [intros id ?%Hun'; set_solver|]);
    (split; [intros id ?%Hue'; set_solver|]); (split; [done|]); (split; [|done]); [|lia].
  rewrite size_union_alt, size_singleton.
  assert (size (fz_epochs f ∖ {[e]}) ≤ size (fz_epochs f)) by (apply subseteq_size; set_solver). lia.
Qed.

Lemma fuzz_step_inv f op f' :
  fuzz_inv f → fuzz_step f op = Ok f' → fuzz_inv f' ∧ op_count f' = (op_count f + 1)%Z.
Proof.
  intros Hi. unfold fuzz_step, mbind, result_bind.
  destruct (fuzz_transaction _ f) as [f1|] eqn:Ht; [|done]. intros [= <-].
  apply fuzz_transaction_inv in Ht as (?&?&?&?&Hd&?&Hc&Hl); [|done].
  destruct op; cbn in *; (split; [split; cbn; try done|]); rewrite ?Hc, ?Hd, ?Hl; try done; lia.
Qed.

Lemma fuzz_loop_inv ops f f' :
  fuzz_inv f → fuzz_loop f ops = Ok f' →
  fuzz_inv f' ∧ op_count f' = (op_count f + Z.of_nat (length ops))%Z.
Proof.
  revert f. induction ops as [|op ops IH]; intros f Hi; cbn.
  { intros [= <-]. split; [done|]. lia. }
  unfold mbind, result_bind. destruct (fuzz_step f op) as [f1|] eqn:Hs; [|done].
  apply fuzz_step_inv in Hs as [Hi1 Hc]; [|done]. intros [? ->]%IH; [|done]. split; [done|]. lia.
Qed.

(** On a database whose vertex creation and commit preparation do not
    refuse, and whatever else fails in it, no operations make the oracles I1,
    I3a, I4 and I11 fire: the bound vertices are the mirrored ones, every
    requested operation is counted, the epoch set stays in its bound, and both
    pairs of maps stay inverse to each other, with no condition on the order in
    which vertices and edges are deleted. *)
Lemma fuzz_oracles_sound (db : D) (doc : L) (input : FuzzInput) (f : FuzzRun D L)
  (Hrun : fuzz_apply db doc input = Ok f) :
  check_i1_tree_state_parity f = Ok tt ∧
  check_i3a_no_panic_in_apply_loro_op f (requested_ops input) = Ok tt ∧
  check_i4_echo_loop_bounded f = Ok tt ∧
  check_i11_bridge_maps_bijectivity (fz_maps f) = Ok tt.
Proof.
  assert (Hi0 : fuzz_inv (fuzz_start db doc)).
  { split; cbn; [apply inverse_maps_empty..| | |by rewrite dom_empty_L|done];
      intros id; rewrite lookup_empty; by intros []. }
  destruct (fuzz_loop_inv _ _ _ Hi0 Hrun) as [[Hn He _ _ Hl Hep] Hc]. cbn [op_count fuzz_start] in Hc.
  rewrite length_take in Hc.
  assert (Hreq : op_count f = requested_ops input) by (unfold requested_ops, fuzz_bail in *; lia).
  split; [by unfold check_i1_tree_state_parity; rewrite bool_decide_eq_true_2|].
  split; [unfold check_i3a_no_panic_in_apply_loro_op; by rewrite Hreq, Z.eqb_refl|].
  split.
  - unfold check_i4_echo_loop_bounded, EPOCH_RETENTION. unfold requested_ops, fuzz_bail in *.
    by rewrite (proj2 (Z.leb_le _ _)) by lia.
  - unfold check_i11_bridge_maps_bijectivity. by rewrite !check_inverse_entries_ok.
Qed.
End sound.

(** ** The tree oracle *)

Section tree_oracle.
  Context {D S : Type} `{GrafeoNeighborLaws S, !GrafeoDB D S}.

(** The [CHILD] edges the session of the oracle sees. *)
Definition tree_edge (db : D) (x y : NodeId) : Prop :=
  ∃ e r, view_edges (session db) !! e = Some r ∧ er_src r = x ∧ er_dst r = y ∧ er_label r = TREE_EDGE_LABEL.

(** No cycle, and no vertex with two incoming [CHILD] edges. *)
Definition tree_forest (db : D) : Prop :=
  acyclic (tree_edge db) ∧
  ∀ e1 e2 r1 r2, view_edges (session db) !! e1 = Some r1 → view_edges (session db) !! e2 = Some r2 →
    er_label r1 = TREE_EDGE_LABEL → er_label r2 = TREE_EDGE_LABEL → er_dst r1 = er_dst r2 → e1 = e2.

(** A fuel that is enough: the bound vertices and the ends of the edges. *)
Definition i14_fuel (db : D) (node_ids : list NodeId) : nat :=
  Datatypes.S (size (list_to_set node_ids ∪ (map_to_set (λ _, er_dst) (view_edges (session db))) : gset NodeId)).

(** C30: the tree oracle always ends, within one pop per vertex and one more; if
    it stays silent no bound vertex is on a cycle of [CHILD] edges, and it stays
    silent on every forest.  (On a vertex with two parents it fires although
    there is no cycle.) *)
Theorem i14_oracle_correct (db : D) (node_ids : list NodeId)
  (Hnd : ∀ x, NoDup (get_neighbors_outgoing_by_type (session db) x TREE_EDGE_LABEL).*2) :
  ∃ r, check_i14_tree_move_serializability (i14_fuel db node_ids) db node_ids = Some r ∧
    (r = Ok tt → ∀ x, x ∈ node_ids → ¬ tc (tree_edge db) x x) ∧
    (tree_forest db → r = Ok tt).
Proof.
  set (children := λ node, (get_neighbors_outgoing_by_type (session db) node TREE_EDGE_LABEL).*1).
  assert (Hrel : ∀ x y, child_rel children x y ↔ tree_edge db x y).
  { intros x y. unfold child_rel, children, tree_edge. rewrite list_elem_of_fmap. split.
    - intros ([d e] & -> & (r & ? & ? & ? & ?)%outgoing_law). by exists e, r.
    - intros (e & r & ? & ? & ? & ?). exists (y, e). split; [done|]. apply outgoing_law. by exists r. }
  unfold check_i14_tree_move_serializability. fold children.
  set (univ := list_to_set node_ids ∪ map_to_set (λ _, er_dst) (view_edges (session db)) : gset NodeId).
  destruct (i14_roots_spec children univ (i14_fuel db node_ids) node_ids) as (r & Hr & Hs & Hf).
  - intros x y (e & r & He & _ & <- & _)%Hrel. unfold univ. apply elem_of_union. right.
    apply elem_of_map_to_set. by exists e, r.
  - intros x Hx. unfold univ. set_solver.
  - unfold i14_fuel. fold univ. lia.
  - exists r. split; [exact Hr|]. split.
    + intros Hok x Hx Hc. apply (Hs Hok x Hx). revert Hc. generalize x at 2 4. clear -Hrel.
      intros y Hc. induction Hc as [x y Hxy|x y z Hxy _ IH].
      * apply tc_once. by apply Hrel.
      * eapply tc_l; [by apply Hrel|done].
    + intros [Hac Huniq]. apply Hf. split; [|split].
      * eapply acyclic_sub; [|exact Hac]. intros x y. apply Hrel.
      * intros x. unfold children. specialize (Hnd x).
        assert (Hin : ∀ p, p ∈ get_neighbors_outgoing_by_type (session db) x TREE_EDGE_LABEL →
          ∃ r, view_edges (session db) !! p.2 = Some r ∧ er_label r = TREE_EDGE_LABEL ∧ er_dst r = p.1).
        { intros [d e] (r0 & ? & ? & ? & ?)%outgoing_law. by exists r0. }
        apply NoDup_fmap_2_strong; [|by eapply NoDup_fmap_1].
        intros [d1 e1] [d2 e2] (r1 & ? & ? & ?)%Hin (r2 & ? & ? & ?)%Hin. cbn in *. intros ->.
        f_equal. eapply Huniq; [done..|congruence].
      * intros x y c (e1 & r1 & Hr1 & <- & Hd1 & ?)%Hrel (e2 & r2 & Hr2 & <- & Hd2 & ?)%Hrel.
        assert (e1 = e2) as -> by (eapply Huniq; [exact Hr1|exact Hr2|done|done|congruence]).
        by simplify_eq.
Qed.
End tree_oracle.

(** ** Concrete runs *)

#[export] Instance MemLoro_mergeable : MergeableDoc MemLoro := {|
  ensure_mergeable_map root key l :=
    match map_get l root key with Some _ => (Ok tt, l) | None => map_insert root key (LV_Map ∅) l end
|}.

#[export, refine] Instance MemDb_fresh : GrafeoFreshIds MemDb MemGraph := {|
  db_used_nodes d := used_nodes (md_graph d);
  db_used_edges d := used_edges (md_graph d)
|}.
Proof.
  - by intros d c s [= <-].
  - by intros s s' [= <-].
  - intros s d. split; set_solver.
Defined.

Definition fuzz_memdb (ops : list FuzzOp) : Run (FuzzRun MemDb MemLoro) :=
  fuzz_apply memdb_new MemLoro_new (mkFuzzInput 0 ops 1 100).

Lemma fuzz_oracles_sound_witness :
  ∃ f, fuzz_memdb all_variants_ops = Ok f ∧ check_i1_tree_state_parity f = Ok tt ∧
    check_i11_bridge_maps_bijectivity (fz_maps f) = Ok tt.
Proof.
  destruct (fuzz_memdb all_variants_ops) as [f|e] eqn:Hf; [|by vm_compute in Hf].
  assert (Hc : ∀ labels props (s : MemGraph), is_ok (create_node_with_props labels props s).1 = true)
    by (intros; reflexivity).
  assert (Hp : ∀ s : MemGraph, is_ok (prepare_commit (D := MemDb) s).1 = true) by (intros; reflexivity).
  unfold fuzz_memdb in Hf.
  destruct (fuzz_oracles_sound (D := MemDb) (S := MemGraph) (L := MemLoro) Hc Hp memdb_new MemLoro_new
    (mkFuzzInput 0 all_variants_ops 1 100) f Hf) as (H1 & _ & _ & H11).
  exists f. split; [reflexivity|]. split; [exact H1|exact H11].
Defined.

(** The database a run leaves, and the tree oracle on it. *)
Definition fuzz_i14 (ops : list FuzzOp) : option (Run unit) :=
  match fuzz_memdb ops with
  | Ok f => let ids := (map_to_list (node_id_map (fz_maps f))).*2 in
      check_i14_tree_move_serializability (i14_fuel (fz_db f) ids) (fz_db f) ids
  | Err _ => None
  end.

Definition two_vertices : list FuzzOp := [FuzzOp_UpsertNode "a" [] []; FuzzOp_UpsertNode "b" [] []].

(** The oracle I2 fires on an edge whose ends are unknown, which the bridge
    refuses and the mirror records. *)
Example i2_fires_on_refused_edge :
  match fuzz_memdb [FuzzOp_UpsertEdge "a" "b" "L" []] with
  | Ok f => check_i2_edge_state_parity f = Err "I2: edge state parity violated"%string
  | Err _ => False
  end.
Proof. vm_compute. done. Qed.

(** The seed [cycle_attempt] makes the tree oracle fire: the inbound tree move
    has no cycle check. *)
Example i14_fires_on_cycle_attempt :
  fuzz_i14 cycle_attempt_ops = Some (Err "I14: tree move serializability violated"%string).
Proof. vm_compute. done. Qed.

(** Two parents without a cycle: it fires as well. *)
Example i14_fires_on_two_parents :
  fuzz_i14 (two_vertices ++ [FuzzOp_UpsertNode "c" [] []; FuzzOp_UpsertNode "d" [] [];
              FuzzOp_UpsertEdge "a" "b" "CHILD" []; FuzzOp_UpsertEdge "a" "c" "CHILD" [];
              FuzzOp_UpsertEdge "b" "d" "CHILD" []; FuzzOp_TreeMove "d" "x" "c"])
  = Some (Err "I14: tree move serializability violated"%string).
Proof. vm_compute. done. Qed.

Lemma MemGraph_outgoing_nodup (g : MemGraph) x l : NoDup (get_neighbors_outgoing_by_type g x l).*2.
Proof.
  cbn. unfold edges_list. pose proof (NoDup_fst_map_to_list (live (mg_edges g))) as Hnd. revert Hnd.
  generalize (map_to_list (live (mg_edges g))) as es. induction es as [|[e r] es IH]; cbn; [constructor|].
  intros [He Hnd]%NoDup_cons. case_bool_decide; cbn; [|by apply IH]. apply NoDup_cons. split; [|by apply IH].
  intros ([d e'] & -> & ([e2 r2] & Hin & Heq)%list_elem_of_omap)%list_elem_of_fmap. cbn in *.
  case_bool_decide; simplify_eq. apply He. apply list_elem_of_fmap. by exists (e', r2).
Qed.

(** A chain of two [CHILD] edges. *)
Definition chain_db : MemDb :=
  match fuzz_memdb (two_vertices ++ [FuzzOp_UpsertNode "c" [] []; FuzzOp_UpsertEdge "a" "b" "CHILD" [];
                                     FuzzOp_UpsertEdge "b" "c" "CHILD" []]) with
  | Ok f => fz_db f
  | Err _ => memdb_new
  end.

Lemma i14_oracle_correct_witness :
  let ids := [mkNodeId 1; mkNodeId 2; mkNodeId 3] in
  check_i14_tree_move_serializability (i14_fuel chain_db ids) chain_db ids = Some (Ok tt) ∧
  ∀ x, x ∈ ids → ¬ tc (tree_edge chain_db) x x.
Proof.
  intros ids. destruct (i14_oracle_correct chain_db ids) as (r & Hr & Hs & _).
  { intros x. apply MemGraph_outgoing_nodup. }
  assert (Hok : check_i14_tree_move_serializability (i14_fuel chain_db ids) chain_db ids = Some (Ok tt))
    by (vm_compute; reflexivity).
  split; [exact Hok|]. apply Hs. rewrite Hok in Hr. congruence.
Defined.
