(* ===== verification/Hydration.v ===== *)
(** * Hydration ([src/hydration/serial.rs], [parallel.rs])

    The cold-boot rebuild of the graph from the vertices of the document, in
    chunks of one transaction each: one after the other, or in whatever order
    the thread pool runs them. *)

From S2P Require Import Prelude Types Values BridgeMaps GrafeoTx GraphSpec EdgeKeys Translate MemGraph Batcher BatcherSpec Storage.

(** ** The document side *)

(** [schema/vertex.rs]. *)
Record VertexEntity : Type := mkVertexEntity {
  ve_labels : list string;
  ve_properties : gmap string LoroProperty;
  ve_description : string
}.

(** [LoroMap::keys], the conversion of an entry to a map container, and the
    derived [VertexEntity::hydrate_map]. *)
Class LoroHydrate (L : Type) : Type := {
  LoroMap : Type;
  map_keys : L → string → list string;
  into_map : L → string → string → option LoroMap;
  hydrate_map : LoroMap → result string VertexEntity
}.

(** A map lists each of its entries once; only a container is a map container. *)
Class LoroHydrateLaws (L : Type) `{LoroDoc L, LoroHydrate L} : Prop := {
  map_keys_NoDup l root : NoDup (map_keys l root);
  map_keys_elem l root k : k ∈ map_keys l root ↔ is_Some (map_get l root k)
}.

(** What the hydration of a chunk writes: the database and the id maps. *)
Record HydrateState (D : Type) : Type := mkHydrateState { hs_db : D; hs_maps : BridgeMaps }.
Arguments mkHydrateState {D}.
Arguments hs_db {D}.
Arguments hs_maps {D}.

(** The chunks in the order the thread pool runs them, each with whether it had
    been started by the time an earlier one failed. *)
Class ParOrder : Type := {
  par_order {A} : list A → list (A * bool);
  par_order_perm {A} (l : list A) : (par_order l).*1 ≡ₚ l
}.

Section hydrate.
  Context {D S L : Type} `{GrafeoSession S, !GrafeoDB D S, !LoroDoc L, !LoroHydrate L, HashOrder}.
  Notation M := (SE (HydrateState D) GrafeoLoroError).

(** The operation for one key: the entry, its container, the entity. *)
Definition hydrate_vertex (doc : L) (key : string) : Result LoroOp :=
  voc ← ok_or (map_get doc ROOT_VERTICES key)
          (EBridge ("vertex " +:+ key +:+ " missing from LoroMap"));
  vertex_map ← ok_or (match voc with
                      | VC_Container => into_map doc ROOT_VERTICES key
                      | VC_Value _ => None
                      end) (EBridge ("vertex " +:+ key +:+ " is not a Container::Map"));
  entity ← map_err EHydrate (hydrate_map vertex_map);
  Ok (UpsertNode key (ve_labels entity) (GraphValue_from_LoroProperty <$> ve_properties entity)).

(** One chunk: a session without CDC, its transaction, and its commit; on an
    error the session is dropped. *)
Definition hydrate_chunk (doc : L) (chunk : list string) : M unit := λ st,
  match begin_transaction (session_with_cdc (hs_db st) false) with
  | (Err e, _) => (Err (EGrafeo e), st)
  | (Ok _, s1) =>
      let '(r, tx) := SE_for chunk (λ key, SE_lift (hydrate_vertex doc key) ≫= apply_loro_op)
                        (mkTxState s1 (hs_maps st)) in
      let st1 := mkHydrateState (hs_db st) (tx_maps tx) in
      match r with
      | Err e => (Err e, st1)
      | Ok _ =>
          match prepare_commit (tx_session tx) with
          | (Err e, _) => (Err (EGrafeo e), st1)
          | (Ok _, s2) =>
              let '(c, d) := commit (set_metadata ORIGIN_LORO_BRIDGE ORIGIN_LORO_BRIDGE s2) (hs_db st1) in
              ((λ _, tt) <$> map_err EGrafeo c, mkHydrateState d (hs_maps st1))
          end
      end
  end.

Definition vertex_chunks (doc : L) : list (list string) :=
  chunks DEFAULT_CHUNK_SIZE (map_keys doc ROOT_VERTICES).

Definition hydrate_grafeo (doc : L) : M unit := SE_for (vertex_chunks doc) (hydrate_chunk doc).

(** [try_for_each] on the pool: after a failure the chunks already started
    still run, the others are skipped. *)
Fixpoint try_for_each (doc : L) (sched : list (list string * bool)) (failed : option GrafeoLoroError) :
    M unit := λ st,
  match sched with
  | [] => (match failed with None => Ok tt | Some e => Err e end, st)
  | (chunk, started) :: sched =>
      match failed with
      | Some _ =>
          try_for_each doc sched failed (if started then (hydrate_chunk doc chunk st).2 else st)
      | None =>
          let '(r, st) := hydrate_chunk doc chunk st in
          try_for_each doc sched (match r with Ok _ => None | Err e => Some e end) st
      end
  end.

Definition parallel_hydrate_grafeo `{ParOrder} (doc : L) : M unit :=
  try_for_each doc (par_order (vertex_chunks doc)) None.
End hydrate.

(** ** What hydration makes of a graph *)

(** The entity of a key merged into the vertex of that key. *)
Definition hydrated_node {L} `{LoroDoc L, !LoroHydrate L} (doc : L) (key : string) (old : option NodeRec) :
    option NodeRec :=
  match hydrate_vertex doc key with
  | Ok (UpsertNode _ labels props) =>
      Some (match old with
            | Some r => mkNodeRec (nr_labels r) (conv_props props ∪ nr_props r)
            | None => mkNodeRec labels (conv_props props)
            end)
  | _ => old
  end.

(** [g'] is [g] with the vertices of [keys] hydrated, and nothing else. *)
Record hydrates {L} `{LoroDoc L, !LoroHydrate L} (doc : L) (keys : list string) (g g' : KeyedGraph) : Prop := {
  hy_ok k : k ∈ keys → is_ok (hydrate_vertex doc k) = true;
  hy_nodes k : kg_nodes g' !! k =
    if decide (k ∈ keys) then hydrated_node doc k (kg_nodes g !! k) else kg_nodes g !! k;
  hy_edges : kg_edges g' = kg_edges g
}.

Section hydrates.
  Context {L : Type} `{LoroDoc L, !LoroHydrate L}.

Lemma hydrate_vertex_inv (doc : L) k op :
  hydrate_vertex doc k = Ok op → ∃ labels props, op = UpsertNode k labels props.
Proof.
  unfold hydrate_vertex, mbind, result_bind.
  destruct (ok_or _ _) as [voc|]; [|done]. destruct (ok_or _ _) as [vm|]; [|done].
  destruct (map_err _ _) as [ent|]; [|done]. intros [= <-]. by eexists _, _.
Qed.

Lemma hydrates_nil (doc : L) g : hydrates doc [] g g.
Proof. split; [by intros ? ?%elem_of_nil|done|done]. Qed.

Lemma hydrates_one (doc : L) k op g g' :
  hydrate_vertex doc k = Ok op → spec_apply op g = Ok g' → hydrates doc [k] g g'.
Proof.
  intros Hop. destruct (hydrate_vertex_inv _ _ _ Hop) as (labels&props&->). cbn. intros [= <-].
  split; [|intros k'|done].
  - intros ? ->%list_elem_of_singleton. by rewrite Hop.
  - cbn. rewrite lookup_insert. destruct (decide (k = k')) as [<-|Hne].
    + rewrite (decide_True _ _) by left. unfold hydrated_node. by rewrite Hop.
    + by rewrite decide_False by (by intros ->%list_elem_of_singleton).
Qed.

Lemma hydrates_app (doc : L) l1 l2 g g1 g2 :
  (∀ k, k ∈ l1 → k ∉ l2) →
  hydrates doc l1 g g1 → hydrates doc l2 g1 g2 → hydrates doc (l1 ++ l2) g g2.
Proof.
  intros Hdisj H1 H2. split.
  - intros k [Hk|Hk]%elem_of_app; [by apply (hy_ok _ _ _ _ H1)|by apply (hy_ok _ _ _ _ H2)].
  - intros k. rewrite (hy_nodes _ _ _ _ H2), (hy_nodes _ _ _ _ H1).
    destruct (decide (k ∈ l1)), (decide (k ∈ l2)), (decide (k ∈ l1 ++ l2)); try done; exfalso; set_solver.
  - by rewrite (hy_edges _ _ _ _ H2), (hy_edges _ _ _ _ H1).
Qed.

Lemma hydrates_perm (doc : L) l1 l2 g g' :
  (∀ k, k ∈ l1 ↔ k ∈ l2) → hydrates doc l1 g g' → hydrates doc l2 g g'.
Proof.
  intros Hp Hh. split; [intros k Hk; apply (hy_ok _ _ _ _ Hh), Hp, Hk| |apply Hh].
  intros k. rewrite (hy_nodes _ _ _ _ Hh).
  destruct (decide (k ∈ l1)), (decide (k ∈ l2)); naive_solver.
Qed.

(** Two graphs hydrated from one agree, however they were reached. *)
Lemma hydrates_fun (doc : L) l g g1 g2 : hydrates doc l g g1 → hydrates doc l g g2 → g1 = g2.
Proof.
  intros H1 H2. destruct g1 as [n1 e1], g2 as [n2 e2]. f_equal.
  - apply map_eq. intros k. pose proof (hy_nodes _ _ _ _ H1 k) as Hk1.
    pose proof (hy_nodes _ _ _ _ H2 k) as Hk2. cbn in *. by rewrite Hk1, Hk2.
  - pose proof (hy_edges _ _ _ _ H1). pose proof (hy_edges _ _ _ _ H2). cbn in *. by simplify_eq.
Qed.

Lemma hydrates_idemp (doc : L) l g g1 : hydrates doc l g g1 → hydrates doc l g1 g1.
Proof.
  intros Hh. split; [apply Hh| |done]. intros k. rewrite (hy_nodes _ _ _ _ Hh).
  destruct (decide (k ∈ l)) as [Hk|]; [|done].
  pose proof (hy_ok _ _ _ _ Hh k Hk) as Hok. unfold hydrated_node.
  destruct (hydrate_vertex doc k) as [op|] eqn:Hop; [|done].
  destruct (hydrate_vertex_inv _ _ _ Hop) as (labels&props&->).
  destruct (kg_nodes g !! k) as [r|]; cbn; do 2 f_equal.
  - apply map_eq. intros p. rewrite !lookup_union.
    by destruct (conv_props props !! p), (nr_props r !! p).
  - by rewrite (idemp_L (∪)).
Qed.
End hydrates.

(** ** Refinement *)

Section correct.
  Context {D S L : Type} `{GrafeoDBLaws D S, !LoroDoc L, !LoroHydrate L, !LoroHydrateLaws L, HashOrder}.
  Implicit Types st : HydrateState D.

Definition hs_coupled st : Prop := coupled (hs_maps st) (db_nodes (hs_db st)) (db_edges (hs_db st)).
Definition hs_abs st : KeyedGraph := abs_graph (hs_maps st) (db_nodes (hs_db st)) (db_edges (hs_db st)).

(** Where an error of a hydration comes from: an entry of the document, or the
    database. *)
Definition hydrate_error (doc : L) (keys : list string) (e : GrafeoLoroError) : Prop :=
  (∃ k, k ∈ keys ∧ hydrate_vertex doc k = Err e) ∨ ∃ msg, e = EGrafeo msg.

Definition same_graph st st' : Prop :=
  db_nodes (hs_db st') = db_nodes (hs_db st) ∧ db_edges (hs_db st') = db_edges (hs_db st).

Lemma hydrate_loop_refines (doc : L) keys (tx : TxState S) :
  st_coupled tx → NoDup keys →
  let '(r, tx') := SE_for keys (λ key, SE_lift (hydrate_vertex doc key) ≫= apply_loro_op) tx in
  st_coupled tx' ∧
  match r with
  | Ok _ => hydrates doc keys (st_abs tx) (st_abs tx')
  | Err e => hydrate_error doc keys e
  end.
Proof.
  revert tx. induction keys as [|k keys IH]; intros tx Hc Hnd; [by split; [|apply hydrates_nil]|].
  apply NoDup_cons in Hnd as [Hk Hnd]. cbn. unfold SE_lift, mbind, SE_bind.
  destruct (hydrate_vertex doc k) as [op|e] eqn:Hop.
  2: { split; [done|]. left. exists k. split; [left|done]. }
  destruct (hydrate_vertex_inv _ _ _ Hop) as (labels&props&->).
  pose proof (apply_loro_op_refines (UpsertNode k labels props) tx Hc I) as Href.
  destruct (apply_loro_op _ tx) as [[[]|e] tx1]; destruct Href as [Hc1 Hs].
  - specialize (IH tx1 Hc1 Hnd). unfold SE_lift, mbind, SE_bind in IH.
    destruct (SE_for _ _ _) as [[[]|e] tx2]; destruct IH as [Hc2 Hr]; (split; [done|]).
    + apply (hydrates_app doc [k]) with (g1 := st_abs tx1); [|by eapply hydrates_one|done].
      by intros ? ->%list_elem_of_singleton.
    + destruct Hr as [(k'&?&?)|?]; [|by right]. left. exists k'. split; [by right|done].
  - split; [done|]. destruct Hs as [?|?]; [done|by right].
Qed.

Lemma hydrate_chunk_refines (doc : L) chunk st :
  hs_coupled st → NoDup chunk →
  match hydrate_chunk doc chunk st with
  | (Ok _, st') => hs_coupled st' ∧ hydrates doc chunk (hs_abs st) (hs_abs st')
  | (Err e, st') => same_graph st st' ∧ hydrate_error doc chunk e
  end.
Proof.
  intros Hc Hnd. unfold hydrate_chunk. cbn zeta.
  destruct (begin_transaction _) as [[[]|e] s1] eqn:Hbeg; [|by split; [|right; eexists]].
  pose proof (begin_law _ _ _ Hbeg) as [Hn He].
  pose proof (so_begin (hs_db st) _ _ Hbeg) as Hso.
  set (tx := mkTxState s1 (hs_maps st)).
  assert (Hst : st_coupled tx) by (unfold st_coupled; cbn; by rewrite Hn, He).
  assert (Habs : st_abs tx = hs_abs st) by (unfold st_abs, hs_abs; cbn; by rewrite Hn, He).
  pose proof (hydrate_loop_refines doc chunk tx Hst Hnd) as Hloop. rewrite Habs in Hloop.
  assert (Hso' : session_of (hs_db st) (tx_session
    (SE_for chunk (λ key, SE_lift (hydrate_vertex doc key) ≫= apply_loro_op) tx).2)).
  { apply (SE_for_inv (λ t : TxState S, session_of (hs_db st) (tx_session t))); [|done].
    intros k t _ Ht. unfold SE_lift, mbind, SE_bind. destruct (hydrate_vertex doc k); [|done].
    by apply apply_loro_op_session_of. }
  destruct (SE_for _ _ _) as [[[]|e] tx']; destruct Hloop as [Hc' Hr]; [|done].
  destruct (prepare_commit (tx_session tx')) as [[[]|e] s2] eqn:Hp; [|by split; [|right; eexists]].
  pose proof (prepare_law _ _ Hp) as [Hpn Hpe].
  pose proof (set_metadata_law ORIGIN_LORO_BRIDGE ORIGIN_LORO_BRIDGE s2) as [Hmn Hme].
  pose proof (so_prepare _ _ Hso') as Hso2. cbn in Hso2. rewrite Hp in Hso2. cbn in Hso2.
  pose proof (commit_law _ _ (so_metadata _ ORIGIN_LORO_BRIDGE ORIGIN_LORO_BRIDGE _ Hso2)) as Hcom.
  cbn [hs_db hs_maps]. destruct (commit _ _) as [[ep|e] d']; cbn.
  - destruct Hcom as (Hdn&Hde&_). unfold hs_coupled, hs_abs. cbn.
    rewrite Hdn, Hde, Hmn, Hme, Hpn, Hpe. done.
  - destruct Hcom as (Hdn&Hde&_). split; [done|]. right. by eexists.
Qed.

(** The chunks cover the keys, each once. *)
Lemma vertex_chunks_concat (doc : L) : concat (vertex_chunks doc) = map_keys doc ROOT_VERTICES.
Proof. apply chunks_fuel_spec; [unfold DEFAULT_CHUNK_SIZE; lia|done]. Qed.

Lemma NoDup_concat_app (l1 l2 : list (list string)) :
  NoDup (concat (l1 ++ l2)) →
  NoDup (concat l1) ∧ NoDup (concat l2) ∧ ∀ k, k ∈ concat l1 → k ∉ concat l2.
Proof. rewrite concat_app, NoDup_app. naive_solver. Qed.

Lemma serial_refines (doc : L) cs st :
  hs_coupled st → NoDup (concat cs) →
  match SE_for cs (hydrate_chunk doc) st with
  | (Ok _, st') => hs_coupled st' ∧ hydrates doc (concat cs) (hs_abs st) (hs_abs st')
  | (Err e, st') => ∃ done chunk rest st1, cs = done ++ chunk :: rest ∧
      SE_for done (hydrate_chunk doc) st = (Ok tt, st1) ∧
      hydrates doc (concat done) (hs_abs st) (hs_abs st1) ∧
      same_graph st1 st' ∧ hydrate_error doc chunk e
  end.
Proof.
  revert st. induction cs as [|c cs IH]; intros st Hc Hnd; [by split; [|apply hydrates_nil]|].
  destruct (NoDup_concat_app [c] cs Hnd) as (Hndc&Hndcs&Hdisj). cbn in Hndc, Hdisj.
  rewrite app_nil_r in Hndc, Hdisj. cbn [SE_for concat]. unfold mbind at 1, SE_bind at 1.
  pose proof (hydrate_chunk_refines doc c st Hc Hndc) as Hch.
  destruct (hydrate_chunk doc c st) as [[[]|e] st1] eqn:Ech.
  - destruct Hch as [Hc1 Hh1]. specialize (IH st1 Hc1 Hndcs).
    destruct (SE_for cs _ st1) as [[[]|e] st2].
    + destruct IH as [Hc2 Hh2]. split; [done|]. by eapply hydrates_app.
    + destruct IH as (pre&chunk&rest&st3&->&Hrun&Hh3&?). exists (c :: pre), chunk, rest, st3.
      split; [done|]. split; [cbn; unfold mbind, SE_bind; by rewrite Ech|]. split; [|done].
      cbn. eapply hydrates_app; [|done..]. intros k Hk Hk'. apply (Hdisj k Hk).
      rewrite concat_app. apply elem_of_app. by left.
  - exists [], c, cs, st. split; [done|]. split; [done|]. split; [apply hydrates_nil|done].
Qed.

Lemma try_for_each_failed (doc : L) sched e st : (try_for_each doc sched (Some e) st).1 = Err e.
Proof. revert st. induction sched as [|[c b] sched IH]; intros st; [done|]. cbn. apply IH. Qed.

Lemma try_for_each_refines (doc : L) sched st :
  hs_coupled st → NoDup (concat sched.*1) →
  match try_for_each doc sched None st with
  | (Ok _, st') => hs_coupled st' ∧ hydrates doc (concat sched.*1) (hs_abs st) (hs_abs st')
  | (Err e, _) => hydrate_error doc (concat sched.*1) e
  end.
Proof.
  revert st. induction sched as [|[c b] sched IH]; intros st Hc Hnd; [by split; [|apply hydrates_nil]|].
  destruct (NoDup_concat_app [c] sched.*1 Hnd) as (Hndc&Hndcs&Hdisj). cbn in Hndc, Hdisj.
  rewrite app_nil_r in Hndc, Hdisj. cbn [try_for_each concat fmap list_fmap fst].
  assert (Hmono : ∀ l e, (∀ k, k ∈ l → k ∈ c ++ concat sched.*1) → hydrate_error doc l e →
    hydrate_error doc (c ++ concat sched.*1) e).
  { intros l e Hsub [(k&?&?)|?]; [|by right]. left. exists k. auto. }
  pose proof (hydrate_chunk_refines doc c st Hc Hndc) as Hch.
  destruct (hydrate_chunk doc c st) as [[[]|e] st1].
  - destruct Hch as [Hc1 Hh1]. specialize (IH st1 Hc1 Hndcs).
    destruct (try_for_each doc sched None st1) as [[[]|e] st2].
    + destruct IH as [Hc2 Hh2]. split; [done|]. by eapply hydrates_app.
    + eapply Hmono; [|exact IH]. intros k Hk. apply elem_of_app. by right.
  - pose proof (try_for_each_failed doc sched e st1) as Hf.
    destruct (try_for_each doc sched (Some e) st1) as [r st2]. cbn in Hf. subst r.
    eapply Hmono; [|apply Hch]. intros k Hk. apply elem_of_app. by left.
Qed.

(** The schedule covers the keys, each once. *)
Lemma par_order_keys `{ParOrder} (doc : L) :
  concat (par_order (vertex_chunks doc)).*1 ≡ₚ map_keys doc ROOT_VERTICES.
Proof. rewrite <-vertex_chunks_concat. by rewrite par_order_perm. Qed.

Lemma parallel_refines `{ParOrder} (doc : L) st :
  hs_coupled st →
  match parallel_hydrate_grafeo doc st with
  | (Ok _, st') => hs_coupled st' ∧ hydrates doc (map_keys doc ROOT_VERTICES) (hs_abs st) (hs_abs st')
  | (Err e, _) => hydrate_error doc (map_keys doc ROOT_VERTICES) e
  end.
Proof.
  intros Hc. pose proof (try_for_each_refines doc (par_order (vertex_chunks doc)) st Hc) as Hp.
  unfold parallel_hydrate_grafeo. rewrite par_order_keys in Hp. specialize (Hp (map_keys_NoDup _ _)).
  destruct (try_for_each _ _ _ _) as [[[]|e] st'].
  - destruct Hp as [? Hh]. split; [done|]. eapply hydrates_perm; [|exact Hh].
    intros k. by rewrite par_order_keys.
  - destruct Hp as [(k&Hk&?)|?]; [left; exists k|by right]. by rewrite <-par_order_keys.
Qed.

(** C14: hydration rebuilds exactly the vertices of the document.  From coupled
    maps, a serial hydration that succeeds has merged the entity of every vertex
    entry into the graph and left every other vertex and all edges alone; one
    that fails has committed exactly the chunks before the failing one, and the
    error is that of an entry of the failing chunk or one of the database.  A
    parallel hydration that succeeds reaches the same graph whatever the
    schedule, and fails only for such an error.  Hydrating the result again
    changes nothing. *)
Theorem hydrate_grafeo_correct `{ParOrder} (doc : L) (st : HydrateState D) (Hc : hs_coupled st) :
  let keys := map_keys doc ROOT_VERTICES in
  match hydrate_grafeo doc st with
  | (Ok _, st') =>
      hs_coupled st' ∧ hydrates doc keys (hs_abs st) (hs_abs st') ∧
      ∀ st'', hydrate_grafeo doc st' = (Ok tt, st'') → hs_abs st'' = hs_abs st'
  | (Err e, st') => ∃ done chunk rest st1, vertex_chunks doc = done ++ chunk :: rest ∧
      hydrates doc (concat done) (hs_abs st) (hs_abs st1) ∧
      same_graph st1 st' ∧ hydrate_error doc chunk e
  end ∧
  match parallel_hydrate_grafeo doc st with
  | (Ok _, st') => hs_coupled st' ∧ hydrates doc keys (hs_abs st) (hs_abs st')
  | (Err e, _) => hydrate_error doc keys e
  end.
Proof.
  assert (Hnd : NoDup (concat (vertex_chunks doc))).
  { rewrite vertex_chunks_concat. apply map_keys_NoDup. }
  split.
  - pose proof (serial_refines doc _ st Hc Hnd) as Hs. unfold hydrate_grafeo.
    destruct (SE_for (vertex_chunks doc) _ st) as [[[]|e] st'].
    + rewrite vertex_chunks_concat in Hs. destruct Hs as [Hc' Hh]. split; [done|]. split; [done|].
      intros st'' Hrun. pose proof (serial_refines doc _ st' Hc' Hnd) as Hs'.
      rewrite Hrun, vertex_chunks_concat in Hs'. destruct Hs' as [_ Hh'].
      exact (hydrates_fun _ _ _ _ _ Hh' (hydrates_idemp _ _ _ _ Hh)).
    + destruct Hs as (pre&chunk&rest&st1&?&_&?&?&?). by exists pre, chunk, rest, st1.
  - by apply parallel_refines.
Qed.
End correct.

(** ** Entries that are not containers *)

Section containers.
  Context {D S L : Type} `{GrafeoSession S, !GrafeoDB D S, !LoroDoc L, !LoroHydrate L,
    !LoroMapLaws L, !LoroHydrateLaws L, HashOrder}.
  Implicit Types st : HydrateState D.

Lemma hydrate_chunk_ok (doc : L) chunk st k :
  k ∈ chunk → is_ok (hydrate_vertex doc k) = false → is_ok (hydrate_chunk doc chunk st).1 = false.
Proof.
  intros Hk Hv. unfold hydrate_chunk. destruct (begin_transaction _) as [[[]|e] s1]; [|done].
  cbn zeta. set (tx := mkTxState s1 (hs_maps st)). clearbody tx.
  assert (Hloop : is_ok (SE_for chunk (λ key, SE_lift (hydrate_vertex doc key) ≫= apply_loro_op) tx).1
                  = false).
  { revert tx. induction chunk as [|c chunk IH]; [by apply elem_of_nil in Hk|]. intros tx. cbn.
    unfold SE_lift, mbind, SE_bind. apply elem_of_cons in Hk as [<-|Hk].
    - by destruct (hydrate_vertex doc k).
    - destruct (hydrate_vertex doc c); [|done]. destruct (apply_loro_op _ _) as [[[]|] tx1]; [|done].
      by apply (IH Hk). }
  by destruct (SE_for _ _ _) as [[[]|e] tx'].
Qed.

Lemma hydrate_fails (doc : L) st k :
  k ∈ map_keys doc ROOT_VERTICES → is_ok (hydrate_vertex doc k) = false →
  is_ok (hydrate_grafeo doc st).1 = false.
Proof.
  rewrite <-vertex_chunks_concat. unfold hydrate_grafeo. revert st.
  induction (vertex_chunks doc) as [|c cs IH]; intros st Hk Hv; [by apply elem_of_nil in Hk|].
  cbn in *. unfold mbind, SE_bind. apply elem_of_app in Hk as [Hk|Hk].
  - pose proof (hydrate_chunk_ok doc c st k Hk Hv). by destruct (hydrate_chunk doc c st) as [[[]|] ?].
  - destruct (hydrate_chunk doc c st) as [[[]|] st1]; [|done]. by apply IH.
Qed.

Lemma parallel_hydrate_fails `{ParOrder} (doc : L) st k :
  k ∈ map_keys doc ROOT_VERTICES → is_ok (hydrate_vertex doc k) = false →
  is_ok (parallel_hydrate_grafeo doc st).1 = false.
Proof.
  rewrite <-par_order_keys. unfold parallel_hydrate_grafeo. revert st.
  induction (par_order (vertex_chunks doc)) as [|[c b] sched IH]; intros st Hk Hv;
    [by apply elem_of_nil in Hk|]. cbn in *.
  destruct (hydrate_chunk doc c st) as [[[]|e] st1] eqn:Ec.
  - apply elem_of_app in Hk as [Hk|Hk]; [|by apply IH].
    pose proof (hydrate_chunk_ok doc c st k Hk Hv) as Hf. by rewrite Ec in Hf.
  - by rewrite try_for_each_failed.
Qed.

(** Hydration accepts a document only if every vertex entry is a map
    container holding an entity.  The outbound worker writes vertices as plain
    map values: once it has written one, no hydration of the document succeeds,
    serial or parallel, whatever the database and the maps. *)
Lemma outbound_vertex_blocks_hydration `{ParOrder} (ev : ChangeEvent) (out out' : OutState L)
  (key : string) (st : HydrateState D)
  (Hev : apply_change_event_to_loro ev out = (Ok tt, out')) (Hk : ev_kind ev ≠ Delete)
  (Hkey : event_target ev (os_maps out) = Some (ROOT_VERTICES, key)) :
  hydrate_vertex (os_doc out') key
    = Err (EBridge ("vertex " +:+ key +:+ " is not a Container::Map")) ∧
  is_ok (hydrate_grafeo (os_doc out') st).1 = false ∧
  is_ok (parallel_hydrate_grafeo (os_doc out') st).1 = false.
Proof.
  assert (Hget : ∃ v, map_get (os_doc out') ROOT_VERTICES key = Some (VC_Value v)).
  { revert Hev Hkey Hk. unfold apply_change_event_to_loro, event_target, upsert_entity.
    destruct (ev_entity_id ev) as [id|id|id|], (ev_kind ev); try done.
    3: by destruct (lookup_edge_endpoints _ _).
    3: by destruct (edge_key_map (os_maps out) !! id).
    all: destruct (node_key_map (os_maps out) !! id) as [k|]; [|done]; cbn.
    all: match goal with |- context [map_insert ?r ?k ?v ?l] =>
      pose proof (map_insert_law r k v l) as Hlaw; destruct (map_insert r k v l) as [[[]|] l'] end; [|done].
    all: intros [= <-] [= <-] _; cbn; rewrite Hlaw, decide_True by done; by eexists. }
  destruct Hget as [v Hget].
  assert (Hv : hydrate_vertex (os_doc out') key
    = Err (EBridge ("vertex " +:+ key +:+ " is not a Container::Map"))).
  { unfold hydrate_vertex. by rewrite Hget. }
  assert (Hin : key ∈ map_keys (os_doc out') ROOT_VERTICES) by (apply map_keys_elem; by eexists).
  split; [done|]. split; [apply hydrate_fails with key|apply parallel_hydrate_fails with key];
    rewrite ?Hv; done.
Qed.
End containers.

(** ** A reference document with containers *)

Record VDoc : Type := mkVDoc { vd_entries : gmap (string * string) (LoroValue + VertexEntity) }.

#[export] Instance VDoc_doc : LoroDoc VDoc := {|
  map_get l root key :=
    (λ e, match e with inl v => VC_Value v | inr _ => VC_Container end) <$> vd_entries l !! (root, key);
  map_insert root key v := λ l, (Ok tt, mkVDoc (<[(root, key) := inl v]> (vd_entries l)));
  map_delete root key l := mkVDoc (delete (root, key) (vd_entries l));
  loro_set_next_commit_origin o l := l;
  loro_commit l := ([], l)
|}.

#[export] Instance VDoc_hydrate : LoroHydrate VDoc := {|
  LoroMap := VertexEntity;
  map_keys l root := omap (λ '(r, k, _), if decide (r = root) then Some k else None)
                       (map_to_list (vd_entries l));
  into_map l root key := e ← vd_entries l !! (root, key); match e with inr m => Some m | _ => None end;
  hydrate_map m := Ok m
|}.

#[export] Instance VDoc_map_laws : LoroMapLaws VDoc.
Proof.
  split; intros *; cbn.
  - intros r k. rewrite lookup_insert. repeat case_decide; naive_solver.
  - rewrite lookup_delete. repeat case_decide; naive_solver.
Qed.

#[export] Instance VDoc_hydrate_laws : LoroHydrateLaws VDoc.
Proof.
  split; intros l root; cbn.
  - pose proof (NoDup_fst_map_to_list (vd_entries l)) as Hnd.
    induction (map_to_list (vd_entries l)) as [|[[r k] e] es IH]; cbn in *; [constructor|].
    apply NoDup_cons in Hnd as [Hin Hnd]. case_decide as Hr; [|by apply IH]. subst r.
    apply NoDup_cons. split; [|by apply IH].
    intros ([[r k'] e']&Hel&Heq)%list_elem_of_omap. case_decide; simplify_eq.
    apply Hin. apply list_elem_of_fmap. by exists (root, k, e').
  - intros k. rewrite list_elem_of_omap, fmap_is_Some. split.
    + intros ([[r k'] e]&Hel&Heq). case_decide; simplify_eq.
      apply elem_of_map_to_list in Hel. by eexists.
    + intros [e He]. exists (root, k, e). rewrite elem_of_map_to_list. split; [done|].
      by rewrite decide_True.
Qed.

(** The last chunk first, nothing skipped. *)
#[export] Instance reverse_order : ParOrder.
Proof.
  refine {| par_order A l := (λ a, (a, true)) <$> reverse l |}.
  intros A l. rewrite <-list_fmap_compose. cbn. by rewrite list_fmap_id, reverse_Permutation.
Defined.

Definition sample_vdoc : VDoc := mkVDoc (
  <[(ROOT_VERTICES, "a"%string) := inr (mkVertexEntity ["L"%string] {["p"%string := LP_Integer 1]} "text"%string)]>
  (<[(ROOT_VERTICES, "b"%string) := inr (mkVertexEntity [] ∅ ""%string)]>
  (<[(ROOT_EDGES, "a|b|R"%string) := inr (mkVertexEntity [] ∅ ""%string)]> ∅))).

Definition cold : HydrateState MemDb := mkHydrateState memdb_new BridgeMaps_new.

Lemma cold_coupled : hs_coupled cold.
Proof. split; cbn; [apply inverse_maps_empty..| |]; intros *; by rewrite lookup_empty. Qed.

Lemma hydrate_grafeo_correct_witness :
  let st' := (hydrate_grafeo sample_vdoc cold).2 in
  hs_coupled st' ∧ hydrates sample_vdoc (map_keys sample_vdoc ROOT_VERTICES) (hs_abs cold) (hs_abs st') ∧
  kg_nodes (hs_abs st') !! "a"%string = Some (mkNodeRec ["L"%string] {["p"%string := GV_Int64 1]}) ∧
  kg_edges (hs_abs st') = ∅.
Proof.
  pose proof (proj1 (hydrate_grafeo_correct sample_vdoc cold cold_coupled)) as H.
  assert (Hok : hydrate_grafeo sample_vdoc cold = (Ok tt, (hydrate_grafeo sample_vdoc cold).2))
    by (vm_compute; reflexivity).
  rewrite Hok in H. destruct H as (H1&H2&_). split; [exact H1|]. split; [exact H2|].
  split; vm_compute; reflexivity.
Defined.

Lemma outbound_vertex_blocks_hydration_witness :
  let out := mkOutState sample_vdoc (BridgeMaps_insert_node BridgeMaps_new "a" (mkNodeId 7)) in
  let ev := mkChangeEvent 3 (Ent_Node (mkNodeId 7)) Update (Some {["p"%string := GV_Int64 1]}) None None None in
  let doc := os_doc (apply_change_event_to_loro ev out).2 in
  is_ok (hydrate_grafeo sample_vdoc cold).1 = true ∧ is_ok (hydrate_grafeo doc cold).1 = false.
Proof.
  set (out := mkOutState sample_vdoc (BridgeMaps_insert_node BridgeMaps_new "a" (mkNodeId 7))).
  set (ev := mkChangeEvent 3 (Ent_Node (mkNodeId 7)) Update (Some {["p"%string := GV_Int64 1]}) None None None).
  assert (Hok : apply_change_event_to_loro ev out = (Ok tt, (apply_change_event_to_loro ev out).2))
    by (vm_compute; reflexivity).
  split; [vm_compute; reflexivity|].
  destruct (outbound_vertex_blocks_hydration (D := MemDb) ev out _ "a" cold Hok) as (_&Hs&_);
    [discriminate|vm_compute; reflexivity|exact Hs].
Defined.
