(* ===== verification/Mirror.v ===== *)
(** * The graph as a mirror of the document

    What the graph holds of a document whose edits it received as events
    ([translate_diff_event] of [src/bridge/sync_engine.rs], [apply_loro_op] of
    [src/bridge/grafeo_tx.rs]), when it is the document's mirror, when two
    replicas with equal documents have equal graphs, and what live sync and
    hydration read of one document. *)

From S2P Require Import Prelude Types Values BridgeMaps GrafeoTx GraphSpec MemGraph Batcher BatcherSpec EdgeKeys Translate Storage Hydration SyncEngine EngineSpec Lifecycle Pipeline Outbound.

(** ** What an entry of the document says *)

(** The entries of the root maps, by map and key: what [map_get] reads. *)
Definition View : Type := string → string → option ValueOrContainer.

(** The properties live sync reads in an entry: those of a plain map of
    supported values. *)
Definition entry_props (v : option ValueOrContainer) : option (gmap string GrafeoValue) :=
  match v with
  | Some (VC_Value (LV_Map m)) => conv_props <$> translate_props m
  | _ => None
  end.

Definition node_props (g : KeyedGraph) (k : string) : option (gmap string GrafeoValue) :=
  nr_props <$> kg_nodes g !! k.

(** The keys of edges that survive being written as a key of the document. *)
Definition well_keyed (key : EdgeKey) : bool :=
  bool_decide (parse_edge_key (encode_edge_key key) = Some key).

(** The graph holds exactly the vertices and edges of the document, with
    exactly their properties. *)
Record mirrors (v : View) (g : KeyedGraph) : Prop := {
  mi_nodes k : node_props g k = entry_props (v ROOT_VERTICES k);
  mi_edges key : kg_edges g !! key =
    if well_keyed key then entry_props (v ROOT_EDGES (encode_edge_key key)) else None
}.

(** ** Events as updates of a view *)

(** The entries an event reports for a root map, in the order it lists them. *)
Definition cd_updates (root : string) (cd : ContainerDiff) : list (string * option ValueOrContainer) :=
  match cd_target cd, cd_diff cd with
  | CID_Root name, Diff_Map updated => if bool_decide (name = root) then updated else []
  | _, _ => []
  end.

Definition updates (root : string) (ev : DiffEvent) : list (string * option ValueOrContainer) :=
  de_events ev ≫= cd_updates root.

(** The new value of an entry, if the event reports one. *)
Definition touched (root k : string) (ev : DiffEvent) : option (option ValueOrContainer) :=
  (list_to_map (updates root ev) : gmap string (option ValueOrContainer)) !! k.

Definition view_apply (ev : DiffEvent) (v : View) : View := λ root k,
  match touched root k ev with Some x => x | None => v root k end.

Definition view_run (evs : list DiffEvent) (v : View) : View := foldl (flip view_apply) v evs.

(** The event reports each entry of the root maps once, as a map delta does. *)
Definition well_formed (ev : DiffEvent) : Prop :=
  NoDup (updates ROOT_VERTICES ev).*1 ∧ NoDup (updates ROOT_EDGES ev).*1.

(** ** What an update does to the properties the graph holds *)

Definition absorb (u : option (option ValueOrContainer)) (acc : option (gmap string GrafeoValue)) :
    option (gmap string GrafeoValue) :=
  match u with
  | None => acc
  | Some None => None
  | Some v =>
      match entry_props v with
      | Some ps => Some (ps ∪ default ∅ acc)
      | None => acc
      end
  end.

(** The update is one the graph can follow: a new value has every property the
    entry had, and an entry live sync reads stays one until it is deleted. *)
Definition keeps (u : option (option ValueOrContainer)) (old : option (gmap string GrafeoValue)) : bool :=
  match u with
  | None | Some None => true
  | Some v =>
      match entry_props v with
      | Some ps => bool_decide (dom (default ∅ old) ⊆ dom ps)
      | None => negb (bool_decide (is_Some old))
      end
  end.

(** Every update of an event, and of a history from a view on, is such. *)
Definition grows (ev : DiffEvent) (v : View) : bool :=
  forallb (λ '(k, u), keeps (Some u) (entry_props (v ROOT_VERTICES k))) (updates ROOT_VERTICES ev) &&
  forallb (λ '(k, u), if parse_edge_key k then keeps (Some u) (entry_props (v ROOT_EDGES k)) else true)
    (updates ROOT_EDGES ev).

Fixpoint grows_run (evs : list DiffEvent) (v : View) : bool :=
  match evs with
  | [] => true
  | ev :: evs => grows ev v && grows_run evs (view_apply ev v)
  end.

(** The operations of a history, in order. *)
Definition history_ops (evs : list DiffEvent) : list LoroOp := evs ≫= translate_diff_event.

(** What the graph holds for an entry after a history. *)
Definition accumulated (root k : string) (evs : list DiffEvent) : option (gmap string GrafeoValue) :=
  foldl (λ acc ev, absorb (touched root k ev) acc) None evs.

(** ** One entry at a time *)

(** What an operation does to the properties of one vertex, and of one edge. *)
Definition node_step (k : string) (acc : option (gmap string GrafeoValue)) (op : LoroOp) :=
  match op with
  | UpsertNode k' _ ps => if decide (k' = k) then Some (conv_props ps ∪ default ∅ acc) else acc
  | DeleteNode k' => if decide (k' = k) then None else acc
  | _ => acc
  end.

Definition edge_step (key : EdgeKey) (acc : option (gmap string GrafeoValue)) (op : LoroOp) :=
  match op with
  | UpsertEdge s d l ps => if decide ((s, d, l) = key) then Some (conv_props ps ∪ default ∅ acc) else acc
  | DeleteEdge s d l => if decide ((s, d, l) = key) then None else acc
  | _ => acc
  end.

Definition no_tree_move (op : LoroOp) : Prop := match op with TreeMove _ _ _ => False | _ => True end.

Lemma absorb_keeps u old :
  absorb u old = (match u with None => old | Some v => entry_props v end) ↔ keeps u old = true.
Proof.
  destruct u as [[v|]|]; [|done..]. unfold absorb, keeps. destruct (entry_props (Some v)) as [ps|].
  - rewrite bool_decide_eq_true. split.
    + intros [= Hu]. rewrite <-Hu. rewrite dom_union_L. set_solver.
    + intros Hd. f_equal. apply map_eq. intros p. rewrite lookup_union.
      destruct (ps !! p) eqn:Hp; [by destruct (default ∅ old !! p)|].
      apply not_elem_of_dom in Hp. rewrite (left_id_L None _). apply not_elem_of_dom. set_solver.
  - rewrite negb_true_iff, bool_decide_eq_false. destruct old as [ps|].
    + split; [done|intros Hn; exfalso; apply Hn; by eexists].
    + split; [intros _ [? ?]; done|done].
Qed.

Lemma spec_apply_step op g g' k key :
  no_tree_move op → spec_apply op g = Ok g' →
  node_props g' k = node_step k (node_props g k) op ∧
  kg_edges g' !! key = edge_step key (kg_edges g !! key) op.
Proof.
  unfold node_props. destruct op as [k' ls ps|s d l ps|k'|s d l|n old new]; cbn; intros Hnt Hs; [..|done].
  - simplify_eq. cbn. rewrite lookup_insert. split; [|done]. case_decide; [|done]. subst.
    destruct (kg_nodes g !! k); cbn; [done|]. by rewrite (right_id_L ∅ (∪)).
  - destruct (kg_nodes g !! s), (kg_nodes g !! d); simplify_eq. cbn. split; [done|].
    rewrite lookup_insert. case_decide; [|done]. by subst.
  - simplify_eq. cbn. rewrite lookup_delete. by case_decide.
  - simplify_eq. cbn. rewrite lookup_delete. by case_decide.
Qed.

Lemma spec_run_steps ops g g' k key :
  Forall no_tree_move ops → spec_run ops g = Ok g' →
  node_props g' k = foldl (node_step k) (node_props g k) ops ∧
  kg_edges g' !! key = foldl (edge_step key) (kg_edges g !! key) ops.
Proof.
  revert g. induction ops as [|op ops IH]; intros g Hnt; cbn; [by intros [= <-]|].
  apply Forall_cons in Hnt as [Hop Hnt]. unfold mbind, result_bind.
  destruct (spec_apply op g) as [g1|] eqn:Hs; [|done]. intros Hr.
  destruct (spec_apply_step op g g1 k key Hop Hs) as [<- <-]. by apply IH.
Qed.

(** ** The operations of an event *)

Lemma translate_vertex_step k key u acc :
  foldl (node_step k) acc (translate_vertex (key, u)) =
    if decide (key = k) then absorb (Some u) acc else acc.
Proof.
  destruct u as [[[]|]|]; cbn; try by case_decide. unfold entry_props.
  destruct (translate_props m); cbn; by case_decide.
Qed.

Lemma translate_edge_step key k u acc :
  foldl (edge_step key) acc (translate_edge (k, u)) =
    if decide (parse_edge_key k = Some key) then absorb (Some u) acc else acc.
Proof.
  unfold translate_edge. destruct (parse_edge_key k) as [[[s d] l]|] eqn:Hp; [|done].
  destruct u as [[[]|]|]; cbn; try by repeat case_decide; simplify_eq.
  unfold entry_props. destruct (translate_props m); cbn; repeat case_decide; by simplify_eq.
Qed.

Lemma translate_vertex_edge key k acc u : foldl (edge_step key) acc (translate_vertex (k, u)) = acc.
Proof. unfold translate_vertex. destruct u as [[[]|]|]; try done. by destruct (translate_props m). Qed.

Lemma translate_edge_vertex k key acc u : foldl (node_step k) acc (translate_edge (key, u)) = acc.
Proof.
  unfold translate_edge. destruct (parse_edge_key key) as [[[s d] l]|]; [|done].
  destruct u as [[[]|]|]; try done. by destruct (translate_props m).
Qed.

Lemma translate_no_tree_move ev : Forall no_tree_move (translate_diff_event ev).
Proof.
  apply Forall_forall. intros op (cd&Hop&_)%list_elem_of_bind. revert Hop.
  unfold translate_container_diff. destruct (cd_target cd) as [name|]; [|by intros ?%elem_of_nil].
  repeat case_bool_decide; destruct (cd_diff cd); try (by intros ?%elem_of_nil);
    intros ([k u]&Hop&_)%list_elem_of_bind; revert Hop; cbn.
  - destruct u as [[[]|]|]; cbn; try (by intros ?%elem_of_nil); [destruct (translate_props _)|];
      by try intros ->%list_elem_of_singleton; try intros ?%elem_of_nil.
  - destruct (parse_edge_key k) as [[[s d] l]|]; [|by intros ?%elem_of_nil].
    destruct u as [[[]|]|]; cbn; try (by intros ?%elem_of_nil); [destruct (translate_props _)|];
      by try intros ->%list_elem_of_singleton; try intros ?%elem_of_nil.
Qed.

(** Folding over the operations of an event is folding over the entries of the
    root map the step looks at. *)
Lemma foldl_bind {A B C} (f : C → B → C) (h : A → list B) (l : list A) c :
  foldl f c (l ≫= h) = foldl (λ c a, foldl f c (h a)) c l.
Proof. revert c. induction l as [|a l IH]; intros c; [done|]. cbn. by rewrite foldl_app, IH. Qed.

Lemma foldl_fixed {A C} (f : C → A → C) (l : list A) c : (∀ a c, f c a = c) → foldl f c l = c.
Proof. intros Hf. revert c. induction l as [|a l IH]; intros c; [done|]. cbn. by rewrite Hf. Qed.

(** A step looks at the entries of one root map only. *)
Lemma event_fold {C} (f : C → LoroOp → C) (g : C → string * option ValueOrContainer → C) root ev c :
  (∀ cd c, foldl f c (translate_container_diff cd) = foldl g c (cd_updates root cd)) →
  foldl f c (translate_diff_event ev) = foldl g c (updates root ev).
Proof.
  intros Hcd. unfold translate_diff_event, updates. rewrite !foldl_bind. revert c.
  induction (de_events ev) as [|cd cds IH]; intros c; [done|]. cbn. by rewrite Hcd, IH.
Qed.

Lemma roots_differ : ROOT_EDGES ≠ ROOT_VERTICES.
Proof. done. Qed.

Lemma node_fold k ev acc :
  foldl (node_step k) acc (translate_diff_event ev) =
  foldl (λ acc e, if decide (e.1 = k) then absorb (Some e.2) acc else acc) acc (updates ROOT_VERTICES ev).
Proof.
  apply event_fold. clear ev acc. intros [[name|] d] acc; [|done]. unfold translate_container_diff, cd_updates. cbn.
  destruct d as [us|]; [|by repeat case_bool_decide]. case_bool_decide as Hv; [|case_bool_decide; [|done]];
    rewrite foldl_bind.
  - revert acc. induction us as [|[k' u] us IH]; intros acc; [done|]. cbn [foldl].
    by rewrite translate_vertex_step, IH.
  - apply foldl_fixed. intros [] ?. apply translate_edge_vertex.
Qed.

Lemma edge_fold key ev acc :
  foldl (edge_step key) acc (translate_diff_event ev) =
  foldl (λ acc e, if decide (parse_edge_key e.1 = Some key) then absorb (Some e.2) acc else acc) acc
    (updates ROOT_EDGES ev).
Proof.
  apply event_fold. clear ev acc. intros [[name|] d] acc; [|done]. unfold translate_container_diff, cd_updates. cbn.
  destruct d as [us|]; [|by repeat case_bool_decide].
  case_bool_decide as Hv; [|case_bool_decide as He; [|done]]; rewrite foldl_bind.
  - subst. rewrite bool_decide_false by (apply not_eq_sym, roots_differ).
    apply foldl_fixed. intros [] ?. apply translate_vertex_edge.
  - revert acc. induction us as [|[k' u] us IH]; intros acc; [done|]. cbn [foldl].
    by rewrite translate_edge_step, IH.
Qed.

(** With one entry per key, the fold is one update. *)
Lemma foldl_unique {C} (f : option ValueOrContainer → C → C) (g : C → string * option ValueOrContainer → C) k l c :
  (∀ c s u, g c (s, u) = f u c ∧ s = k ∨ g c (s, u) = c ∧ s ≠ k) → NoDup l.*1 →
  foldl g c l = match (list_to_map l : gmap string _) !! k with Some u => f u c | None => c end.
Proof.
  intros Hg. revert c. induction l as [|[s u] l IH]; intros c Hnd; [by cbn; rewrite lookup_empty|].
  cbn in *. apply NoDup_cons in Hnd as [Hs Hnd]. rewrite lookup_insert, (IH _ Hnd).
  destruct (Hg c s u) as [[-> ->]|[-> Hne]]; [|by case_decide].
  by rewrite decide_True, (not_elem_of_list_to_map_1 _ _ Hs).
Qed.

(** What an event does to the graph, entry by entry. *)
Lemma event_absorbed ev g g' :
  well_formed ev → spec_run (translate_diff_event ev) g = Ok g' →
  (∀ k, node_props g' k = absorb (touched ROOT_VERTICES k ev) (node_props g k)) ∧
  (∀ key, kg_edges g' !! key =
     if well_keyed key then absorb (touched ROOT_EDGES (encode_edge_key key) ev) (kg_edges g !! key)
     else kg_edges g !! key).
Proof.
  intros [Hv He] Hr. split.
  - intros k. destruct (spec_run_steps _ _ _ k ("", "", "") (translate_no_tree_move ev) Hr) as [-> _].
    rewrite node_fold, (foldl_unique (λ u, absorb (Some u)) _ k); [|intros c s u; cbn; case_decide; auto|done].
    unfold touched. by destruct (_ !! k).
  - intros key. destruct (spec_run_steps _ _ _ "" key (translate_no_tree_move ev) Hr) as [_ ->].
    rewrite edge_fold. unfold well_keyed. case_bool_decide as Hk.
    + rewrite (foldl_unique (λ u, absorb (Some u)) _ (encode_edge_key key)); [| |done].
      { unfold touched. by destruct (_ !! _). }
      intros c s u. cbn. case_decide as Hp; [left|right]; (split; [done|]).
      * by rewrite (parse_encode_inv _ _ Hp).
      * by intros ->.
    + apply foldl_fixed. intros [s u] c. cbn. case_decide as Hp; [|done].
      destruct Hk. by rewrite (parse_encode_inv _ _ Hp).
Qed.

(** ** Mirrors *)

Lemma well_keyed_parse k key : parse_edge_key k = Some key → well_keyed key = true ∧ encode_edge_key key = k.
Proof.
  intros Hp. pose proof (parse_encode_inv _ _ Hp) as He. split; [|done].
  apply bool_decide_eq_true. by rewrite He.
Qed.

Lemma touched_elem root k u ev :
  NoDup (updates root ev).*1 → touched root k ev = Some u ↔ (k, u) ∈ updates root ev.
Proof. intros Hnd. symmetry. by apply elem_of_list_to_map. Qed.

Lemma grows_keeps ev v :
  well_formed ev →
  grows ev v = true ↔
    (∀ k, keeps (touched ROOT_VERTICES k ev) (entry_props (v ROOT_VERTICES k)) = true) ∧
    (∀ key, well_keyed key = true →
       keeps (touched ROOT_EDGES (encode_edge_key key) ev) (entry_props (v ROOT_EDGES (encode_edge_key key))) = true).
Proof.
  intros [Hv He]. unfold grows. rewrite andb_true_iff, !forallb_forall. split.
  - intros [Gv Ge]. split.
    + intros k. destruct (touched ROOT_VERTICES k ev) as [u|] eqn:Ht; [|done].
      apply touched_elem in Ht; [|done]. by apply (Gv (k, u)), list_elem_of_In.
    + intros key Hk%bool_decide_eq_true. destruct (touched _ (encode_edge_key key) ev) as [u|] eqn:Ht; [|done].
      apply touched_elem in Ht; [|done]. apply list_elem_of_In, Ge in Ht. by rewrite Hk in Ht.
  - intros [Kv Ke]. split; intros [k u] Hin%list_elem_of_In.
    + apply touched_elem in Hin; [|done]. specialize (Kv k). by rewrite Hin in Kv.
    + destruct (parse_edge_key k) as [key|] eqn:Hp; [|done].
      destruct (well_keyed_parse k key Hp) as [Hw Hk]. specialize (Ke key Hw). rewrite Hk in Ke.
      apply touched_elem in Hin; [|done]. by rewrite Hin in Ke.
Qed.

Lemma entry_apply root k ev v :
  entry_props (view_apply ev v root k) =
    match touched root k ev with None => entry_props (v root k) | Some u => entry_props u end.
Proof. unfold view_apply. by destruct (touched root k ev). Qed.

(** An event keeps a mirror exactly when its updates are ones the graph follows. *)
Lemma mirror_step ev v g g' :
  well_formed ev → mirrors v g → spec_run (translate_diff_event ev) g = Ok g' →
  mirrors (view_apply ev v) g' ↔ grows ev v = true.
Proof.
  intros Hw [Mn Me] Hr. rewrite (grows_keeps _ _ Hw). destruct (event_absorbed _ _ _ Hw Hr) as [An Ae]. split.
  - intros [Mn' Me']. split.
    + intros k. apply absorb_keeps. by rewrite <-Mn, <-An, Mn', entry_apply, Mn.
    + intros key Hk. apply absorb_keeps. specialize (Me key). specialize (Me' key). specialize (Ae key).
      rewrite Hk in Me, Me', Ae. by rewrite <-Me, <-Ae, Me', entry_apply, Me.
  - intros [Kn Ke]. split.
    + intros k. by rewrite An, Mn, entry_apply, (proj2 (absorb_keeps _ _) (Kn k)).
    + intros key. rewrite Ae, Me. destruct (well_keyed key) eqn:Hk; [|done].
      by rewrite entry_apply, (proj2 (absorb_keeps _ _) (Ke key Hk)).
Qed.

Lemma spec_run_history_cons ev evs g g' :
  spec_run (history_ops (ev :: evs)) g = Ok g' →
  ∃ g1, spec_run (translate_diff_event ev) g = Ok g1 ∧ spec_run (history_ops evs) g1 = Ok g'.
Proof.
  unfold history_ops. cbn. rewrite spec_run_app. unfold mbind, result_bind.
  destruct (spec_run (translate_diff_event ev) g); [eauto|done].
Qed.

Lemma mirror_run_spec evs v g g' :
  Forall well_formed evs → mirrors v g → spec_run (history_ops evs) g = Ok g' → grows_run evs v = true →
  mirrors (view_run evs v) g'.
Proof.
  revert v g. induction evs as [|ev evs IH]; intros v g Hw Hm.
  { intros [= <-] _. exact Hm. }
  apply Forall_cons in Hw as [Hev Hw].
  intros (g1&Hr&Hrs)%spec_run_history_cons [Hg Hgs]%andb_true_iff. cbn.
  eapply IH; [done| |exact Hrs|exact Hgs]. by apply (mirror_step ev v g g1).
Qed.

Lemma history_absorbed evs g g' :
  Forall well_formed evs → spec_run (history_ops evs) g = Ok g' →
  (∀ k, node_props g' k = foldl (λ acc ev, absorb (touched ROOT_VERTICES k ev) acc) (node_props g k) evs) ∧
  (∀ key, kg_edges g' !! key =
     if well_keyed key
     then foldl (λ acc ev, absorb (touched ROOT_EDGES (encode_edge_key key) ev) acc) (kg_edges g !! key) evs
     else kg_edges g !! key).
Proof.
  revert g. induction evs as [|ev evs IH]; intros g Hw.
  { intros [= <-]. split; [done|]. intros key. by destruct (well_keyed key). }
  apply Forall_cons in Hw as [Hev Hw]. intros (g1&Hr&Hrs)%spec_run_history_cons.
  destruct (event_absorbed _ _ _ Hev Hr) as [An Ae], (IH g1 Hw Hrs) as [In' Ie]. split.
  - intros k. by rewrite In', An.
  - intros key. rewrite Ie, Ae. by destruct (well_keyed key).
Qed.

(** A graph is the mirror of at most one assignment of properties, so two
    mirrors of one document hold the same. *)
Definition same_content (g1 g2 : KeyedGraph) : Prop :=
  (∀ k, node_props g1 k = node_props g2 k) ∧ kg_edges g1 = kg_edges g2.

Definition same_view (v1 v2 : View) : Prop :=
  (∀ k, v1 ROOT_VERTICES k = v2 ROOT_VERTICES k) ∧ (∀ k, v1 ROOT_EDGES k = v2 ROOT_EDGES k).

Lemma mirrors_agree v1 v2 g1 g2 : same_view v1 v2 → mirrors v1 g1 → mirrors v2 g2 → same_content g1 g2.
Proof.
  intros [Hv He] [N1 E1] [N2 E2]. split.
  - intros k. by rewrite N1, N2, Hv.
  - apply map_eq. intros key. by rewrite E1, E2, He.
Qed.

Lemma mirrors_view v1 v2 g : same_view v1 v2 → mirrors v1 g → mirrors v2 g.
Proof. intros [Hv He] [N E]. split; intros; by rewrite <-?Hv, <-?He. Qed.

(** ** The bridge keeps the mirror *)

Section replica.
  Context {D S L : Type} `{GrafeoDBLaws D S, !GrafeoCdc S, !LoroDoc L, HashOrder}.
  Context (cfg : BatcherConfig) (metrics health : bool).
  Notation E := (SyncEngine D L).
  Notation RT := (Runtime D L).

(** What the outbound worker leaves alone when it drops a message. *)
Definition inward (e : E) := (loro_doc e, maps e, inbound e).

(** A running replica, with the events its document has emitted.  Its document
    is edited by commits (of peers' changes or local ones) whose events say
    what they changed and all of whose operations found room in the channel;
    its graph is written by the bridge alone, the outbound worker at most drops
    messages, and no flush panics or outlives its timeout. *)
Inductive replica_run (db : D) (doc : L) : list DiffEvent → RT → Prop :=
| rr_new : replica_run db doc [] (spawn_all (SyncEngine_new db doc))
| rr_task t due evs rt rt1 :
    replica_run db doc evs rt → task_poll cfg metrics health t BkGo due rt = Some rt1 →
    (t = TOutbound → inward (rt_engine rt1) = inward (rt_engine rt)) →
    (t = TBatcher → mb_flight (batcher_of rt) ≠ None → due = false) →
    replica_run db doc evs rt1
| rr_commit origin edit evs rt :
    replica_run db doc evs rt →
    let e := rt_engine rt in
    let e1 := local_commit metrics origin edit e in
    let new := (loro_commit (loro_set_next_commit_origin origin (edit (loro_doc e)))).1 in
    Forall well_formed new → same_view (map_get (loro_doc e1)) (view_run new (map_get (loro_doc e))) →
    arrivals e e1 = history_ops new →
    replica_run db doc (evs ++ new) (set_eng e1 rt).

Lemma task_poll_quiet t due (rt rt1 : RT) :
  task_poll cfg metrics health t BkGo due rt = Some rt1 →
  (t = TOutbound → inward (rt_engine rt1) = inward (rt_engine rt)) →
  loro_doc (rt_engine rt1) = loro_doc (rt_engine rt) ∧
  (t ≠ TInbound → inbound (rt_engine rt1) = inbound (rt_engine rt)).
Proof.
  intros Ht Hne. destruct t.
  - split; [|done]. destruct rt as [e ti to tp ri ro rp rb]. cbn in *.
    unfold inbound_poll, inbound_take in Ht. cbn in Ht. repeat case_match; simplify_eq; done.
  - cbn in Ht. unfold batcher_poll in Ht. destruct (batcher_status (rt_engine rt)); [|done].
    destruct (rt_batcher_rx rt) as [rx|]; [|by simplify_eq].
    assert (Hd : ∀ br, loro_doc (batcher_branch cfg br (rt_engine rt)) = loro_doc (rt_engine rt) ∧
      inbound (batcher_branch cfg br (rt_engine rt)) = inbound (rt_engine rt)).
    { intros br. by destruct (batcher_branch_frame cfg br (rt_engine rt)) as ([= ? _ _ _ _ ?]&_). }
    destruct (mb_flight (batcher (rt_engine rt))).
    + destruct (flush_join cfg due (rt_engine rt)) eqn:He; [|done]. injection Ht as <-.
      by destruct (flush_join_frame _ _ _ _ He) as ([= ? _ _ _ _ ?]&_).
    + repeat case_match; simplify_eq; cbn; destruct (Hd BrShutdown), (Hd BrRecv), (Hd BrTick); done.
  - cbn in Ht. unfold flush_poll in Ht. destruct (flush_thread BkGo (rt_engine rt)) eqn:He; [|done]. injection Ht as <-.
    by destruct (flush_thread_frame _ _ _ He) as ([= ? _ _ _ _ ?]&_).
  - by injection (Hne eq_refl) as -> _ ->.
  - by destruct (poller_poll_frame metrics _ _ _ Ht) as (_&_&_&_&_&_&_&_&_&_&?&?&_).
Qed.

Lemma view_run_app evs1 evs2 v : view_run (evs1 ++ evs2) v = view_run evs2 (view_run evs1 v).
Proof. apply foldl_app. Qed.

Lemma view_run_same evs v1 v2 : same_view v1 v2 → same_view (view_run evs v1) (view_run evs v2).
Proof.
  revert v1 v2. induction evs as [|ev evs IH]; intros v1 v2 [Hv He]; [done|]. cbn. apply IH.
  split; intros k; unfold flip, view_apply; destruct (touched _ _ _); done.
Qed.

Lemma replica_run_view db doc evs (rt : RT) :
  replica_run db doc evs rt →
  Forall well_formed evs ∧ same_view (map_get (loro_doc (rt_engine rt))) (view_run evs (map_get doc)).
Proof.
  induction 1 as [|t due evs rt rt1 _ [IHw IHv] Ht Hne _|origin edit evs rt _ [IHw IHv] e e1 new Hw Hv Ha].
  - split; [constructor|done].
  - by destruct (task_poll_quiet _ _ _ _ Ht Hne) as [-> _].
  - split; [by apply Forall_app|]. rewrite view_run_app. cbn.
    destruct Hv as [Hv1 Hv2]. destruct (view_run_same new _ _ IHv) as [Hs1 Hs2].
    split; intros k; [rewrite Hv1; apply Hs1|rewrite Hv2; apply Hs2].
Qed.

Lemma history_ops_app evs1 evs2 : history_ops (evs1 ++ evs2) = history_ops evs1 ++ history_ops evs2.
Proof. apply bind_app. Qed.

Lemma replica_run_inbound db doc evs (rt : RT) :
  replica_run db doc evs rt → detached_run (history_ops evs) graph0 →
  inbound_run cfg metrics health db doc (history_ops evs) rt.
Proof.
  induction 1 as [|t due evs rt rt1 _ IH Ht Hne Hdue|origin edit evs rt _ IH e e1 new Hw Hv Ha]; intros Hdet.
  - constructor.
  - specialize (IH Hdet). destruct (inbound_run_pipe _ _ _ _ _ _ _ IH Hdet) as (Hok&_&Hg).
    assert (Hnil : arrivals (rt_engine rt) (rt_engine rt1) = []).
    { destruct (decide (t = TInbound)) as [->|Hti].
      - by destruct (inbound_poll_pipe metrics _ rt rt1 Ht Hok Hg) as (_&_&?&_).
      - destruct (task_poll_quiet t due rt rt1 Ht Hne) as [_ Hi].
        unfold arrivals. rewrite (Hi Hti). by apply drop_ge. }
    pose proof (ir_task cfg metrics health db doc t due _ rt rt1 IH Ht
      ltac:(intros Ho; by injection (Hne Ho)) Hdue) as Hr.
    by rewrite Hnil, app_nil_r in Hr.
  - rewrite history_ops_app in *. specialize (IH (proj1 (detached_run_app _ _ _ Hdet))).
    pose proof (ir_commit cfg metrics health db doc origin edit _ rt IH) as Hr.
    cbn zeta in Hr. fold e e1 in Hr. by rewrite Ha in Hr.
Qed.

Lemma pipe_round_replica db doc evs (rt : RT) :
  replica_run db doc evs rt → replica_run db doc evs (pipe_round cfg metrics rt).
Proof.
  assert (Hstep : ∀ t due (r : RT), t ≠ TOutbound → (t = TBatcher → mb_flight (batcher_of r) ≠ None → due = false) →
    replica_run db doc evs r → replica_run db doc evs (default r (task_poll cfg metrics health t BkGo due r))).
  { intros t due r Ht Hdue Hr. destruct (task_poll _ _ _ _ _ _ _) eqn:Hp; [|done]. by apply (rr_task _ _ t due _ r). }
  intros Hr. unfold pipe_round. apply (Hstep TInbound false) in Hr; [|done..]. cbn in Hr.
  apply (Hstep TBatcher (ticking (default rt (inbound_poll metrics rt)))) in Hr;
    [|done|intros _; unfold ticking; by destruct (mb_flight _)]. cbn in Hr.
  by apply (Hstep TFlush false) in Hr.
Qed.

Lemma pipe_rounds_replica db doc evs n (rt : RT) :
  replica_run db doc evs rt → replica_run db doc evs (Nat.iter n (pipe_round cfg metrics) rt).
Proof. intros Hr. induction n as [|n IH]; [done|]. by apply pipe_round_replica. Qed.

(** The document an engine without bindings starts from. *)
Definition blank (doc : L) : Prop :=
  ∀ k, map_get doc ROOT_VERTICES k = None ∧ map_get doc ROOT_EDGES k = None.

(** The history is one the graph accepts: a vertex goes after its edges, an
    edge comes after its vertices. *)
Definition admissible (evs : list DiffEvent) : Prop :=
  detached_run (history_ops evs) graph0 ∧ is_ok (spec_run (history_ops evs) graph0) = true.

Lemma blank_mirrors (doc : L) : blank doc → mirrors (map_get doc) graph0.
Proof.
  intros Hb. split; intros k; unfold node_props; cbn; rewrite lookup_empty.
  - by rewrite (proj1 (Hb k)).
  - rewrite (proj2 (Hb _)). by destruct (well_keyed k).
Qed.

(** A replica left to itself has committed the whole history, unless the
    database failed. *)
Lemma replica_drains db doc evs (rt : RT) :
  replica_run db doc evs rt → admissible evs →
  let rt' := Nat.iter (pipe_fuel rt) (pipe_round cfg metrics) rt in
  replica_run db doc evs rt' ∧
  match status_of rt' with
  | Running => in_flight rt' = [] ∧ spec_run (history_ops evs) graph0 = Ok (mb_abs (batcher_of rt'))
  | Finished r => ∃ msg, r = Err (EGrafeo msg)
  end.
Proof.
  intros Hrun [Hdet Hok] rt'. pose proof (replica_run_inbound _ _ _ _ Hrun Hdet) as Hin.
  assert (Hrun' : replica_run db doc evs rt') by by apply pipe_rounds_replica.
  split; [done|]. pose proof (replica_run_inbound _ _ _ _ Hrun' Hdet) as Hin'.
  destruct (inbound_run_pipe _ _ _ _ _ _ _ Hin' Hdet) as (_&_&Hg). unfold pipe_graph in Hg.
  destruct (status_of rt') as [|r] eqn:Hs.
  - assert (Hn : pipe_idle rt') by (eapply pipe_rounds_drain; [exact Hin|exact Hdet|by left|exact Hs]).
    destruct Hn as [Hn Hf]. rewrite Hf in Hg. split; [done|]. destruct Hg as (co&->&_&Hr). by rewrite Hn, app_nil_r.
  - destruct Hg as (e&co&f&lost&g&->&Heq&Hr&_&[Hf|Hf]); [|by destruct Hf as [msg ->]; exists msg].
    exfalso. rewrite Heq, !spec_run_app, Hr in Hok. cbn in Hok.
    unfold mbind, result_bind in Hok. by rewrite spec_run_app, Hf in Hok.
Qed.

(** C3: the bridge keeps the graph a mirror of the document.  The replica starts
    with a document without entries; its graph is written by the bridge alone, the
    outbound worker at most drops messages, no flush panics or outlives its
    timeout, every commit's operations find room in the inbound channel; and the
    history is admissible: no vertex goes before its edges, and no operation is
    refused (an edge comes after its vertices).  Under every interleaving of such
    a run, and however the operations are batched, the replica left to itself
    commits within [pipe_fuel] turns, unless the database fails, a graph that holds
    for every vertex and every edge exactly what the updates of its entry add up
    to: a plain map overwrites and adds properties, a removal deletes the entity,
    everything else changes nothing.  If the updates only ever add and overwrite
    properties, that graph is the mirror of the document; and the first event that
    is not of this kind breaks the mirror: the condition is exact. *)
Theorem bridge_mirrors_document (db : D) (doc : L) (evs : list DiffEvent) (rt : RT)
  (Hrun : replica_run db doc evs rt) (Hblank : blank doc) (Hadm : admissible evs) :
  let rt' := Nat.iter (pipe_fuel rt) (pipe_round cfg metrics) rt in
  match status_of rt' with
  | Running =>
      let doc' := map_get (loro_doc (rt_engine rt')) in
      let g := mb_abs (batcher_of rt') in
      in_flight rt' = [] ∧
      (∀ k, node_props g k = accumulated ROOT_VERTICES k evs) ∧
      (∀ key, kg_edges g !! key =
         if well_keyed key then accumulated ROOT_EDGES (encode_edge_key key) evs else None) ∧
      (grows_run evs (map_get doc) = true → mirrors doc' g) ∧
      (∀ before ev, evs = before ++ [ev] → grows_run before (map_get doc) = true →
         mirrors doc' g ↔ grows ev (view_run before (map_get doc)) = true)
  | Finished r => ∃ msg, r = Err (EGrafeo msg)
  end.
Proof.
  intros rt'. destruct (replica_drains _ _ _ _ Hrun Hadm) as [Hrun' Hd]. fold rt' in Hrun', Hd.
  destruct (status_of rt'); [|done]. destruct Hd as [Hnil Hr]. cbn zeta.
  destruct (replica_run_view _ _ _ _ Hrun') as [Hw Hv].
  destruct (history_absorbed _ _ _ Hw Hr) as [An Ae]. pose proof (blank_mirrors doc Hblank) as Hm0.
  assert (Hsym : same_view (view_run evs (map_get doc)) (map_get (loro_doc (rt_engine rt')))) by (destruct Hv; split; done).
  split; [done|]. split; [intros k; rewrite An; unfold node_props; cbn; by rewrite lookup_empty|].
  split; [intros key; rewrite Ae; cbn; by rewrite lookup_empty|]. split.
  - intros Hg. apply (mirrors_view _ _ _ Hsym). by eapply mirror_run_spec.
  - intros before ev -> Hg. apply Forall_app in Hw as [Hwb [Hwe _]%Forall_cons].
    rewrite history_ops_app, spec_run_app in Hr. unfold mbind, result_bind in Hr.
    destruct (spec_run (history_ops before) graph0) as [g1|] eqn:Hb; [|done].
    unfold history_ops in Hr. cbn in Hr. rewrite app_nil_r in Hr. rewrite view_run_app in Hv, Hsym. cbn in Hv, Hsym.
    rewrite <-(mirror_step ev _ g1 _ Hwe) by (by first [eapply mirror_run_spec|exact Hr]).
    split; by apply mirrors_view.
Qed.
End replica.

(** ** Replicas *)

(** C4: replicas converge.  Two replicas as in C3 (blank first documents,
    admissible histories, no panics, no timeouts, no dropped operations), with
    databases, batchers, schedules and histories of their own, each left to itself
    until its operations are committed; their documents are equal, however the
    edits were split into events and ordered, and the first history only adds and
    overwrites properties.  If the second one does so too, the two graphs hold the
    same vertices and edges with the same properties.  If it does not, they do so
    exactly if the second graph is the mirror of its document. *)
Theorem replicas_converge {D1 S1 D2 S2 L} `{GrafeoDBLaws D1 S1, !GrafeoCdc S1, GrafeoDBLaws D2 S2, !GrafeoCdc S2,
    !LoroDoc L, HashOrder} (cfg1 cfg2 : BatcherConfig) (m1 h1 m2 h2 : bool)
  (db1 : D1) (db2 : D2) (doc1 doc2 : L) (evs1 evs2 : list DiffEvent) (rt1 : Runtime D1 L) (rt2 : Runtime D2 L)
  (Hrun1 : replica_run cfg1 m1 h1 db1 doc1 evs1 rt1) (Hrun2 : replica_run cfg2 m2 h2 db2 doc2 evs2 rt2)
  (Hblank1 : blank doc1) (Hblank2 : blank doc2) (Hadm1 : admissible evs1) (Hadm2 : admissible evs2)
  (Hdoc : same_view (map_get (loro_doc (rt_engine rt1))) (map_get (loro_doc (rt_engine rt2))))
  (Hgrow1 : grows_run evs1 (map_get doc1) = true) :
  let rt1' := Nat.iter (pipe_fuel rt1) (pipe_round cfg1 m1) rt1 in
  let rt2' := Nat.iter (pipe_fuel rt2) (pipe_round cfg2 m2) rt2 in
  status_of rt1' = Running → status_of rt2' = Running →
  (grows_run evs2 (map_get doc2) = true →
     same_content (mb_abs (batcher_of rt1')) (mb_abs (batcher_of rt2'))) ∧
  (same_content (mb_abs (batcher_of rt1')) (mb_abs (batcher_of rt2')) ↔
     mirrors (map_get (loro_doc (rt_engine rt2'))) (mb_abs (batcher_of rt2'))).
Proof.
  intros rt1' rt2' Hs1 Hs2.
  destruct (replica_drains _ _ _ _ _ _ _ Hrun1 Hadm1) as [Hrun1' Hd1]. fold rt1' in Hrun1', Hd1.
  destruct (replica_drains _ _ _ _ _ _ _ Hrun2 Hadm2) as [Hrun2' Hd2]. fold rt2' in Hrun2', Hd2.
  rewrite Hs1 in Hd1. rewrite Hs2 in Hd2. destruct Hd1 as [_ Hr1], Hd2 as [_ Hr2].
  destruct (replica_run_view _ _ _ _ _ _ _ Hrun1) as [Hw1 Hv1], (replica_run_view _ _ _ _ _ _ _ Hrun2) as [Hw2 Hv2].
  destruct (replica_run_view _ _ _ _ _ _ _ Hrun2') as [_ Hv2'].
  pose proof (mirror_run_spec _ _ _ _ Hw1 (blank_mirrors _ Hblank1) Hr1 Hgrow1) as Hm1.
  assert (Heq : same_view (view_run evs1 (map_get doc1)) (view_run evs2 (map_get doc2))).
  { destruct Hv1 as [a1 b1], Hv2 as [a2 b2], Hdoc as [a b].
    split; intros k; by rewrite <-?a1, <-?b1, ?a, ?b. }
  split.
  - intros Hg2. eapply mirrors_agree; [exact Heq|exact Hm1|].
    by apply (mirror_run_spec _ _ _ _ Hw2 (blank_mirrors _ Hblank2) Hr2).
  - assert (Heq' : same_view (view_run evs1 (map_get doc1)) (map_get (loro_doc (rt_engine rt2')))).
    { destruct Heq as [a b], Hv2' as [c d]. split; intros k; by rewrite ?c, ?d. }
    split; [intros [Hn He]|intros Hm2; by eapply mirrors_agree; [exact Heq'|..]].
    apply (mirrors_view _ _ _ Heq'). destruct Hm1 as [N1 E1].
    split; intros k; by rewrite <-?Hn, <-?He.
Qed.

(** ** Live sync and hydration *)

Section live_and_cold.
  Context {D S L : Type} `{GrafeoSession S, !GrafeoDB D S, !LoroDoc L, !LoroHydrate L,
    !LoroMapLaws L, !LoroHydrateLaws L, HashOrder}.

(** Only a container hydrates, and only a plain map is synced. *)
Lemma hydrate_vertex_container (l : L) k :
  is_ok (hydrate_vertex l k) = true → map_get l ROOT_VERTICES k = Some VC_Container.
Proof.
  unfold hydrate_vertex, mbind, result_bind, ok_or.
  by destruct (map_get l ROOT_VERTICES k) as [[]|].
Qed.

Lemma synced_not_hydrated (l : L) k ps :
  entry_props (map_get l ROOT_VERTICES k) = Some ps →
  k ∈ map_keys l ROOT_VERTICES ∧ is_ok (hydrate_vertex l k) = false.
Proof.
  intros He. split.
  - apply map_keys_elem. destruct (map_get l ROOT_VERTICES k); [by eexists|done].
  - destruct (is_ok (hydrate_vertex l k)) eqn:Hok; [|done].
    apply hydrate_vertex_container in Hok. by rewrite Hok in He.
Qed.

(** C36: live sync and hydration read disjoint sets of vertices.  An entry that
    hydrates is a container, and an update to one becomes no operation: a vertex
    only hydration reads is never synced.  Conversely no document hydrates,
    serially or in parallel, once it has a vertex that came over live sync (its
    mirror has a vertex) or that the outbound worker wrote. *)
Theorem live_and_cold_disjoint `{ParOrder} (l : L) (st : HydrateState D) :
  (∀ k, is_ok (hydrate_vertex l k) = true → translate_vertex (k, map_get l ROOT_VERTICES k) = []) ∧
  (∀ g k, mirrors (map_get l) g → is_Some (kg_nodes g !! k) →
     is_ok (hydrate_grafeo l st).1 = false ∧ is_ok (parallel_hydrate_grafeo l st).1 = false) ∧
  (∀ ev maps l1 maps1 k, apply_change_event_to_loro ev (mkOutState l maps) = (Ok tt, mkOutState l1 maps1) →
     ev_kind ev ≠ Delete → event_target ev maps = Some (ROOT_VERTICES, k) →
     is_ok (hydrate_grafeo l1 st).1 = false ∧ is_ok (parallel_hydrate_grafeo l1 st).1 = false).
Proof.
  split; [|split].
  - intros k Hk. by rewrite (hydrate_vertex_container _ _ Hk).
  - intros g k [Mn _] [r Hr]. specialize (Mn k). unfold node_props in Mn. rewrite Hr in Mn. symmetry in Mn.
    destruct (synced_not_hydrated l k _ Mn) as [Hin Hno].
    split; [by apply (hydrate_fails l st k)|by apply (parallel_hydrate_fails l st k)].
  - intros ev maps l1 maps1 k Hev Hk Hkey.
    by destruct (outbound_vertex_blocks_hydration ev _ _ k st Hev Hk Hkey) as [_ ?].
Qed.
End live_and_cold.

(** ** Concrete replicas *)

(** A peer types one entry of the document in a commit of its own. *)
Definition type_in (root k : string) (v : LoroValue) (rt : Runtime MemDb MemLoro) : Runtime MemDb MemLoro :=
  set_eng (local_commit true "typing" (λ l, (map_insert root k v l).2) (rt_engine rt)) rt.
Definition typed (root k : string) (v : LoroValue) : DiffEvent :=
  mkDiffEvent "typing" [mkContainerDiff (CID_Root root) (Diff_Map [(k, Some (VC_Value v))])].

Definition typing_run (evs : list DiffEvent) (rt : Runtime MemDb MemLoro) : Prop :=
  replica_run pipe_cfg true true memdb_new MemLoro_new evs rt ∧ ml_pending (loro_doc (rt_engine rt)) = [].

Lemma type_in_run root k v evs rt :
  typing_run evs rt →
  arrivals (rt_engine rt) (rt_engine (type_in root k v rt)) = history_ops [typed root k v] →
  typing_run (evs ++ [typed root k v]) (type_in root k v rt).
Proof.
  intros [Hrun Hp] Ha.
  assert (Hnew : (loro_commit (loro_set_next_commit_origin "typing"
      ((map_insert root k v (loro_doc (rt_engine rt))).2))).1 = [typed root k v]) by (cbn; by rewrite Hp).
  assert (Hdoc : loro_doc (rt_engine (type_in root k v rt)) =
      mkMemLoro (<[(root, k) := v]> (ml_maps (loro_doc (rt_engine rt)))) [] "local").
  { unfold type_in. cbn [rt_engine set_eng]. unfold local_commit. rewrite commit_doc_doc. done. }
  assert (Hups : ∀ r, updates r (typed root k v) = if bool_decide (root = r) then [(k, Some (VC_Value v))] else []).
  { intros r. unfold updates, cd_updates. cbn. by rewrite app_nil_r. }
  split; [|by rewrite Hdoc].
  pose proof (rr_commit pipe_cfg true true memdb_new MemLoro_new "typing"
    (λ l, (map_insert root k v l).2) evs rt Hrun) as Hc.
  cbv beta zeta in Hc. rewrite Hnew in Hc. apply Hc; [| |exact Ha]; clear Hc.
  - constructor; [|constructor]. split; rewrite Hups; case_bool_decide; repeat constructor; by intros ?%elem_of_nil.
  - change (local_commit _ _ _ _) with (rt_engine (type_in root k v rt)). rewrite Hdoc.
    assert (Hv : ∀ r k', map_get (mkMemLoro (<[(root, k) := v]> (ml_maps (loro_doc (rt_engine rt)))) [] "local") r k' =
      view_run [typed root k v] (map_get (loro_doc (rt_engine rt))) r k'); [|split; intros k'; apply Hv].
    intros r k'. cbn. unfold flip, view_apply, touched. rewrite Hups, lookup_insert.
    case_bool_decide as Hr; cbn; [rewrite lookup_insert|rewrite lookup_empty]; repeat case_decide; naive_solver.
Qed.

Definition type_all (entries : list (string * string * LoroValue)) (rt : Runtime MemDb MemLoro) :=
  foldl (λ rt '(root, k, v), type_in root k v rt) rt entries.
Definition typed_all (entries : list (string * string * LoroValue)) : list DiffEvent :=
  (λ '(root, k, v), typed root k v) <$> entries.

(** Every operation finds room. *)
Fixpoint fits (entries : list (string * string * LoroValue)) (rt : Runtime MemDb MemLoro) : Prop :=
  match entries with
  | [] => True
  | (root, k, v) :: entries =>
      arrivals (rt_engine rt) (rt_engine (type_in root k v rt)) = history_ops [typed root k v] ∧
      fits entries (type_in root k v rt)
  end.

Lemma type_all_run entries evs rt :
  typing_run evs rt → fits entries rt → typing_run (evs ++ typed_all entries) (type_all entries rt).
Proof.
  revert evs rt. induction entries as [|[[root k] v] entries IH]; intros evs rt Hr; [by rewrite app_nil_r|].
  intros [Ha Hf]. cbn. rewrite cons_middle, (assoc_L (++)). apply IH; [by apply type_in_run|exact Hf].
Qed.

Definition edge_ab : string * string * LoroValue := (ROOT_EDGES, "a|b|KNOWS", LV_Map {["w" := LV_I64 1]})%string.
Definition vertex_b : string * string * LoroValue := (ROOT_VERTICES, "b", LV_Map ∅)%string.
Definition vertex_a (m : gmap string LoroValue) : string * string * LoroValue := (ROOT_VERTICES, "a"%string, LV_Map m).

(** One document, typed property by property, at once, and over a draft. *)
Definition final_a : gmap string LoroValue := {["p"%string := LV_I64 2; "q"%string := LV_I64 3]}.
Definition stepwise := [vertex_a {["p"%string := LV_I64 1]}; vertex_b; edge_ab; vertex_a final_a].
Definition at_once := [vertex_b; vertex_a final_a; edge_ab].
Definition redrafted := [vertex_a {["draft"%string := LV_I64 1]}; vertex_b; edge_ab; vertex_a final_a].

Definition prop_of (g : KeyedGraph) (k p : string) : option GrafeoValue := node_props g k ≫= lookup p.

Definition drained (entries : list (string * string * LoroValue)) : Runtime MemDb MemLoro :=
  Nat.iter (pipe_fuel (type_all entries rt0)) (pipe_round pipe_cfg true) (type_all entries rt0).

Lemma typed_replica entries :
  fits entries rt0 →
  replica_run pipe_cfg true true memdb_new MemLoro_new (typed_all entries) (type_all entries rt0).
Proof. intros Hf. apply (type_all_run entries [] rt0); [split; [constructor|done]|exact Hf]. Qed.

Lemma blank_new : blank MemLoro_new.
Proof. intros k. by split. Qed.

Definition replica_of (entries : list (string * string * LoroValue)) : Prop :=
  replica_run pipe_cfg true true memdb_new MemLoro_new (typed_all entries) (type_all entries rt0) ∧
  admissible (typed_all entries).

Ltac by_replay := first [by repeat (split; [vm_compute; reflexivity|])
  | split; [apply (bool_decide_unpack _); vm_compute; exact I|vm_compute; reflexivity]].

Lemma stepwise_replica : replica_of stepwise.
Proof. split; [apply typed_replica; by_replay|by_replay]. Qed.
Lemma at_once_replica : replica_of at_once.
Proof. split; [apply typed_replica; by_replay|by_replay]. Qed.

Lemma bridge_mirrors_document_witness :
  let rt := type_all stepwise rt0 in
  let rt' := Nat.iter (pipe_fuel rt) (pipe_round pipe_cfg true) rt in
  status_of rt' = Running ∧ mirrors (map_get (loro_doc (rt_engine rt'))) (mb_abs (batcher_of rt')) ∧
  prop_of (mb_abs (batcher_of rt')) "a" "p" = Some (GV_Int64 2).
Proof.
  intros rt rt'. destruct stepwise_replica as [Hrun Hadm].
  pose proof (bridge_mirrors_document pipe_cfg true true _ _ _ rt Hrun blank_new Hadm) as H.
  cbv zeta in H. fold rt' in H.
  assert (Hs : status_of rt' = Running) by (vm_compute; reflexivity).
  rewrite Hs in H. destruct H as (_&An&_&Hm&_).
  split; [exact Hs|]. split; [apply Hm; vm_compute; reflexivity|].
  unfold prop_of. rewrite An. vm_compute. reflexivity.
Defined.

Lemma same_maps (l1 l2 : MemLoro) :
  map_to_list (ml_maps l1) = map_to_list (ml_maps l2) → same_view (map_get l1) (map_get l2).
Proof.
  intros Heq. assert (Hm : ml_maps l1 = ml_maps l2) by (apply map_to_list_inj; by rewrite Heq).
  split; intros k; cbn; by rewrite Hm.
Qed.

Lemma replicas_converge_witness :
  let rt1 := type_all stepwise rt0 in
  let rt2 := type_all at_once rt0 in
  same_content (mb_abs (batcher_of (Nat.iter (pipe_fuel rt1) (pipe_round pipe_cfg true) rt1)))
    (mb_abs (batcher_of (Nat.iter (pipe_fuel rt2) (pipe_round pipe_cfg true) rt2))).
Proof.
  intros rt1 rt2. destruct stepwise_replica as [Hrun1 Hadm1], at_once_replica as [Hrun2 Hadm2].
  assert (Hdoc : same_view (map_get (loro_doc (rt_engine rt1))) (map_get (loro_doc (rt_engine rt2)))).
  { apply same_maps. vm_compute. reflexivity. }
  destruct (replicas_converge pipe_cfg pipe_cfg true true true true _ _ _ _ _ _ rt1 rt2 Hrun1 Hrun2 blank_new
    blank_new Hadm1 Hadm2 Hdoc) as [Hc _]; [vm_compute; reflexivity..|].
  apply Hc. vm_compute. reflexivity.
Defined.

(** A property that an update drops stays in the graph: two replicas whose
    documents are equal disagree for good when only one of them saw the draft. *)
Example draft_outlives_its_removal :
  same_view (map_get (loro_doc (rt_engine (drained redrafted)))) (map_get (loro_doc (rt_engine (drained at_once)))) ∧
  grows_run (typed_all redrafted) (map_get MemLoro_new) = false ∧
  prop_of (mb_abs (batcher_of (drained redrafted))) "a" "draft" = Some (GV_Int64 1) ∧
  prop_of (mb_abs (batcher_of (drained at_once))) "a" "draft" = None ∧
  prop_of (mb_abs (batcher_of (drained redrafted))) "a" "q" = prop_of (mb_abs (batcher_of (drained at_once))) "a" "q".
Proof.
  split; [apply same_maps; vm_compute; reflexivity|].
  do 3 (split; [vm_compute; reflexivity|]). vm_compute. reflexivity.
Qed.

(** A vertex typed by a peer as a plain map, and its mirror. *)
Definition typed_vdoc : VDoc := mkVDoc {[(ROOT_VERTICES, "c"%string) := inl (LV_Map ∅)]}.
Definition typed_graph : KeyedGraph := mkKeyedGraph {["c"%string := mkNodeRec [] ∅]} ∅.

Lemma typed_mirror : mirrors (map_get typed_vdoc) typed_graph.
Proof.
  split.
  - intros k. unfold node_props. cbn. rewrite !lookup_singleton. repeat case_decide; naive_solver.
  - intros key. cbn. rewrite lookup_empty, lookup_singleton_ne by done. by destruct (well_keyed key).
Qed.

Lemma live_and_cold_disjoint_witness :
  is_ok (hydrate_grafeo sample_vdoc cold).1 = true ∧ translate_vertex ("a", map_get sample_vdoc ROOT_VERTICES "a")%string = [] ∧
  is_ok (hydrate_grafeo typed_vdoc cold).1 = false.
Proof.
  split; [vm_compute; reflexivity|]. split.
  - apply (live_and_cold_disjoint (D := MemDb) sample_vdoc cold). vm_compute. reflexivity.
  - destruct (live_and_cold_disjoint (D := MemDb) typed_vdoc cold) as (_&Hm&_).
    destruct (Hm typed_graph "c"%string typed_mirror) as [Hs _]; [by eexists|exact Hs].
Defined.
