(* ===== verification/MirrorOut.v ===== *)
(** * The document as a mirror of the graph

    The other direction of [Mirror.v]: what a change of another writer to the
    graph, sent to the document by [apply_change_event_to_loro] of
    [src/bridge/sync_engine.rs], leaves of the mirror; and what becomes of it
    when both sides change at once. *)

From S2P Require Import Prelude Types Values BridgeMaps GrafeoTx GraphSpec MemGraph Batcher BatcherSpec EdgeKeys Translate SyncEngine EngineSpec Lifecycle Pipeline Outbound Settle Mirror.

(** ** Values that survive the way to the document and back *)

(** No vector and no value of an exotic type at any depth. *)
Inductive plain : GrafeoValue → Prop :=
| plain_null : plain GV_Null
| plain_bool b : plain (GV_Bool b)
| plain_int i : plain (GV_Int64 i)
| plain_float f : plain (GV_Float64 f)
| plain_string s : plain (GV_String s)
| plain_list l : Forall plain l → plain (GV_List l)
| plain_map m : map_Forall (λ _, plain) m → plain (GV_Map m).

Fixpoint gv_size (v : GrafeoValue) : nat :=
  match v with
  | GV_List l => S (sum_list_with id (gv_size <$> l))
  | GV_Map m => S (map_sum (gv_size <$> m))
  | _ => 1
  end.

Lemma GrafeoValue_nested_ind (P : GrafeoValue → Prop) :
  P GV_Null → (∀ b, P (GV_Bool b)) → (∀ i, P (GV_Int64 i)) → (∀ f, P (GV_Float64 f)) →
  (∀ s, P (GV_String s)) → (∀ v, P (GV_Vector v)) → (∀ ty, P (GV_Exotic ty)) →
  (∀ l, Forall P l → P (GV_List l)) →
  (∀ m, map_Forall (λ _, P) m → P (GV_Map m)) → ∀ v, P v.
Proof.
  intros ??????? Hl Hm v.
  induction v as [v IH] using (induction_ltof1 _ gv_size); unfold ltof in IH.
  destruct v as [| | | | | |l|m|]; eauto.
  - apply Hl, Forall_forall. intros x Hx. apply IH. cbn.
    pose proof (sum_list_elem (gv_size <$> l) (gv_size x) ltac:(by apply list_elem_of_fmap_2)). lia.
  - apply Hm. intros k x Hx. apply IH. cbn.
    pose proof (map_sum_elem (gv_size <$> m) k (gv_size x) ltac:(by rewrite lookup_fmap, Hx)). lia.
Qed.

Lemma written_list_read (l : list GrafeoValue) :
  Forall (λ v, ∃ g, lval_to_gval (grafeo_value_to_lval v) = Ok g ∧ (gval_to_grafeo_value g = v ↔ plain v)) l →
  ∃ out, collect_result (lval_to_gval <$> (grafeo_value_to_lval <$> l)) = Ok out ∧
    (gval_to_grafeo_value <$> out = l ↔ Forall plain l).
Proof.
  induction 1 as [|v l (g&Hg&Hp) _ (out&Ho&IH)]; [by exists []|].
  exists (g :: out). cbn. rewrite Hg, Ho. split; [done|]. rewrite Forall_cons, <-IH, <-Hp. naive_solver.
Qed.

(** The same for a map of values, through what [collect_map] makes of it. *)
Lemma written_map_read (m : gmap string GrafeoValue) :
  map_Forall (λ _ v, ∃ g, lval_to_gval (grafeo_value_to_lval v) = Ok g ∧ (gval_to_grafeo_value g = v ↔ plain v)) m →
  ∃ out, collect_map (lval_to_gval <$> (grafeo_value_to_lval <$> m)) = Ok out ∧
    (gval_to_grafeo_value <$> out = m ↔ map_Forall (λ _, plain) m).
Proof.
  intros Hm. destruct (proj2 (collect_map_is_ok lval_to_gval (grafeo_value_to_lval <$> m))) as [out Ho].
  { intros k x. rewrite lookup_fmap. intros (v&Hv&->)%fmap_Some. destruct (Hm k v Hv) as (g&Hg&_). eauto. }
  exists out. split; [done|]. apply collect_map_Ok in Ho.
  assert (Hk : ∀ k, match m !! k, out !! k with
    | Some v, Some g => gval_to_grafeo_value g = v ↔ plain v | None, None => True | _, _ => False end).
  { intros k. pose proof (f_equal (lookup k) Ho) as Hok. rewrite !lookup_fmap in Hok.
    destruct (m !! k) as [v|] eqn:Hv, (out !! k) as [g|]; try done.
    destruct (Hm k v Hv) as (g'&Hg&Hp). cbn in Hok. rewrite Hg in Hok. by injection Hok as <-. }
  split.
  - intros Heq k v Hv. specialize (Hk k). rewrite Hv in Hk. rewrite <-Heq, lookup_fmap in Hv.
    destruct (out !! k); [|done]. injection Hv as Hv. by apply Hk.
  - intros Hp. apply map_eq. intros k. specialize (Hk k). rewrite lookup_fmap.
    destruct (m !! k) as [v|] eqn:Hv, (out !! k); try done. cbn. f_equal. by apply Hk, (Hp k).
Qed.

(** Inbound reads whatever outbound wrote, and reads the same exactly for plain
    values. *)
Lemma written_value_read v : ∃ g, lval_to_gval (grafeo_value_to_lval v) = Ok g ∧ (gval_to_grafeo_value g = v ↔ plain v).
Proof.
  induction v as [| | | | |v|ty|l IH|m IH] using GrafeoValue_nested_ind; cbn;
    try (by eexists; split; [done|split; [intros; constructor|done]]).
  - assert (Hv : ∃ out, collect_result (lval_to_gval <$> ((λ f, LV_Double (f64_from_f32 f)) <$> v)) = Ok out).
    { apply collect_result_is_ok, Forall_fmap, Forall_forall. intros f _. by eexists. }
    destruct Hv as [out ->]. eexists. split; [done|]. split; [done|by inversion 1].
  - by eexists; split; [done|split; [done|inversion 1]].
  - destruct (written_list_read l IH) as (out&->&Hp). eexists. split; [done|]. cbn. split.
    + intros [= Heq]. by constructor; apply Hp.
    + inversion 1. f_equal. by apply Hp.
  - destruct (written_map_read m IH) as (out&->&Hp). eexists. split; [done|]. cbn. split.
    + intros [= Heq]. by constructor; apply Hp.
    + inversion 1. f_equal. by apply Hp.
Qed.

(** ** An entry after the outbound merge *)

(** An entry live sync reads, or none. *)
Definition legible (v : option ValueOrContainer) : Prop := v = None ∨ is_Some (entry_props v).

Definition entry_map (v : option ValueOrContainer) : gmap string LoroValue :=
  match v with Some (VC_Value (LV_Map m)) => m | _ => ∅ end.

Lemma legible_map v : legible v →
  ∃ ps, lval_to_gval <$> entry_map v = Ok <$> ps ∧ conv_props ps = default ∅ (entry_props v).
Proof.
  intros [->|[x Hx]].
  - exists ∅. split; [by rewrite !fmap_empty|]. unfold conv_props. by rewrite fmap_empty.
  - destruct v as [[[]|]|]; try done. unfold entry_props, translate_props in *.
    destruct (collect_map _) as [ps|] eqn:Hc; [|done]. exists ps. split; [by apply collect_map_Ok|done].
Qed.

Lemma merged_entry after v :
  legible v →
  ∃ ps, entry_props (Some (VC_Value (LV_Map (merge_after after (entry_map v))))) = Some ps ∧
    (ps = default ∅ after ∪ default ∅ (entry_props v) ↔ map_Forall (λ _, plain) (default ∅ after)).
Proof.
  intros (old&Hold&Hconv)%legible_map.
  destruct (proj2 (collect_map_is_ok lval_to_gval (merge_after after (entry_map v)))) as [ps Hps].
  { intros k x. rewrite merge_after_lookup. destruct (default ∅ after !! k) as [a|].
    - intros [= <-]. destruct (written_value_read a) as (g&Hg&_). eauto.
    - intros Hx. pose proof (f_equal (lookup k) Hold) as Hk. rewrite !lookup_fmap, Hx in Hk.
      destruct (old !! k) as [g|]; [|done]. injection Hk as Hk. eauto. }
  exists (conv_props ps). split; [unfold entry_props, translate_props; by rewrite Hps|].
  apply collect_map_Ok in Hps. rewrite <-Hconv. unfold conv_props.
  assert (Hk : ∀ k, match default ∅ after !! k with
    | Some a => ∃ g, ps !! k = Some g ∧ (gval_to_grafeo_value g = a ↔ plain a) | None => ps !! k = old !! k end).
  { intros k. pose proof (f_equal (lookup k) Hps) as H1. pose proof (f_equal (lookup k) Hold) as H2.
    rewrite !lookup_fmap in H1, H2. rewrite merge_after_lookup in H1. destruct (default ∅ after !! k) as [a|].
    - destruct (written_value_read a) as (g&Hg&Hp). cbn in H1. rewrite Hg in H1.
      destruct (ps !! k) as [g'|]; [|done]. injection H1 as ->. eauto.
    - rewrite H1 in H2. destruct (ps !! k), (old !! k); naive_solver. }
  split.
  - intros Heq k a Ha. specialize (Hk k). rewrite Ha in Hk. destruct Hk as (g&Hg&Hp). apply Hp.
    pose proof (f_equal (lookup k) Heq) as Hl. rewrite lookup_fmap, Hg in Hl. cbn in Hl.
    rewrite lookup_union, Ha in Hl. destruct ((gval_to_grafeo_value <$> old) !! k); by injection Hl.
  - intros Hp. apply map_eq. intros k. specialize (Hk k). rewrite lookup_union, !lookup_fmap.
    destruct (default ∅ after !! k) as [a|] eqn:Ha.
    + destruct Hk as (g&->&Hg). cbn. rewrite (proj2 Hg (Hp k a Ha)). by destruct (_ <$> old !! k).
    + rewrite Hk. by destruct (old !! k).
Qed.

(** ** A change of the graph, and its event *)

(** The vertex or edge of the keyed graph an event is about. *)
Definition event_entity (ev : ChangeEvent) (maps : BridgeMaps) : option (string + EdgeKey) :=
  match ev_entity_id ev, ev_kind ev with
  | Ent_Node id, Create | Ent_Node id, Update | Ent_Node id, Delete => inl <$> node_key_map maps !! id
  | Ent_Edge _, Create => inr <$> lookup_edge_endpoints ev maps
  | Ent_Edge id, Update | Ent_Edge id, Delete => inr <$> edge_key_map maps !! id
  | _, _ => None
  end.

Definition place (ent : string + EdgeKey) : string * string :=
  match ent with inl k => (ROOT_VERTICES, k) | inr key => (ROOT_EDGES, encode_edge_key key) end.

(** The keyed graph after the change: an update carries the changed properties. *)
Definition change_graph (ev : ChangeEvent) (maps : BridgeMaps) (g : KeyedGraph) : KeyedGraph :=
  let after := default ∅ (ev_after ev) in
  match event_entity ev maps, ev_kind ev with
  | None, _ => g
  | Some (inl k), Delete => mkKeyedGraph (delete k (kg_nodes g)) (kg_edges g)
  | Some (inl k), _ =>
      mkKeyedGraph (<[k := match kg_nodes g !! k with
                           | Some r => mkNodeRec (nr_labels r) (after ∪ nr_props r)
                           | None => mkNodeRec [] after
                           end]> (kg_nodes g)) (kg_edges g)
  | Some (inr key), Delete => mkKeyedGraph (kg_nodes g) (delete key (kg_edges g))
  | Some (inr key), _ =>
      mkKeyedGraph (kg_nodes g) (<[key := after ∪ default ∅ (kg_edges g !! key)]> (kg_edges g))
  end.

(** What the event leaves of the properties of its entity. *)
Definition change_props (ev : ChangeEvent) (old : option (gmap string GrafeoValue)) : option (gmap string GrafeoValue) :=
  match ev_kind ev with Delete => None | _ => Some (default ∅ (ev_after ev) ∪ default ∅ old) end.

Lemma event_entity_kind ev maps ent : event_entity ev maps = Some ent → ev_kind ev ≠ ChangeKind_Unknown.
Proof. unfold event_entity. by destruct (ev_entity_id ev), (ev_kind ev). Qed.

Lemma change_graph_props ev maps g :
  match event_entity ev maps with
  | None => change_graph ev maps g = g
  | Some ent =>
      (∀ k, node_props (change_graph ev maps g) k =
         if decide (ent = inl k) then change_props ev (node_props g k) else node_props g k) ∧
      (∀ key, kg_edges (change_graph ev maps g) !! key =
         if decide (ent = inr key) then change_props ev (kg_edges g !! key) else kg_edges g !! key)
  end.
Proof.
  unfold change_graph. destruct (event_entity ev maps) as [[k|key]|] eqn:He; [| |done];
    apply event_entity_kind in He; unfold change_props, node_props.
  - split; [intros k'|intros key; by destruct (ev_kind ev)].
    destruct (decide (inl k = inl k')) as [[= <-]|Hne].
    + destruct (ev_kind ev); try done; cbn; rewrite ?lookup_insert_eq, ?lookup_delete_eq; [..|done];
        destruct (kg_nodes g !! k); cbn; by rewrite ?(right_id_L ∅ (∪)).
    + assert (k ≠ k') by congruence.
      destruct (ev_kind ev); cbn; by rewrite ?lookup_insert_ne, ?lookup_delete_ne.
  - split; [intros k'; by destruct (ev_kind ev)|intros key'].
    destruct (decide (inr key = inr key')) as [[= <-]|Hne].
    + destruct (ev_kind ev); try done; cbn; by rewrite ?lookup_insert_eq, ?lookup_delete_eq.
    + assert (key ≠ key') by congruence.
      destruct (ev_kind ev); cbn; by rewrite ?lookup_insert_ne, ?lookup_delete_ne.
Qed.

Section outbound_mirror.
  Context {L : Type} `{LoroMapLaws L}.

Lemma current_entry_map (l : L) root key : current_props l root key = entry_map (map_get l root key).
Proof. unfold current_props. by destruct (map_get l root key) as [[[]|]|]. Qed.

(** What the event leaves of the document: one entry changes. *)
Lemma change_event_doc ev (st st' : OutState L) :
  apply_change_event_to_loro ev st = (Ok tt, st') →
  match event_entity ev (os_maps st) with
  | None => os_doc st' = os_doc st
  | Some ent =>
      ∀ r k, map_get (os_doc st') r k =
        if decide ((r, k) = place ent)
        then match ev_kind ev with
             | Delete => None
             | _ => Some (VC_Value (LV_Map (merge_after (ev_after ev) (entry_map (map_get (os_doc st) r k)))))
             end
        else map_get (os_doc st) r k
  end.
Proof.
  assert (Hup : ∀ root key st1, upsert_entity root key (ev_after ev) st = (Ok tt, st1) →
    ∀ r k, map_get (os_doc st1) r k = if decide ((r, k) = (root, key))
      then Some (VC_Value (LV_Map (merge_after (ev_after ev) (entry_map (map_get (os_doc st) r k)))))
      else map_get (os_doc st) r k).
  { intros root key st1 [_ Hg]%upsert_entity_spec r k. rewrite Hg, current_entry_map.
    repeat case_decide; naive_solver. }
  assert (Hdel : ∀ root key r k, map_get (map_delete root key (os_doc st)) r k =
    if decide ((r, k) = (root, key)) then None else map_get (os_doc st) r k).
  { intros root key r k. rewrite map_delete_law. repeat case_decide; naive_solver. }
  unfold apply_change_event_to_loro, event_entity, BridgeMaps_remove_edge_by_id.
  destruct (ev_entity_id ev) as [id|id|id|], (ev_kind ev); cbn; try (by intros [= <-]).
  - destruct (node_key_map _ !! id); cbn; [apply Hup|by intros [= <-]].
  - destruct (node_key_map _ !! id); cbn; [apply Hup|by intros [= <-]].
  - destruct (node_key_map _ !! id); cbn; [|by intros [= <-]]. intros [= <-]. apply Hdel.
  - destruct (lookup_edge_endpoints _ _) as [key|]; cbn; [|by intros [= <-]].
    unfold mbind, SE_bind, SE_modify.
    destruct (upsert_entity _ _ _ _) as [[[]|] st1] eqn:E; intros [= <-]. by apply (Hup _ _ st1).
  - destruct (edge_key_map _ !! id); cbn; [apply Hup|by intros [= <-]].
  - destruct (edge_key_map _ !! id); cbn; [|by intros [= <-]]. intros [= <-]. apply Hdel.
Qed.
(** The entry a worker writes and what the change leaves of its properties. *)
Lemma changed_entry ev v :
  legible v → ev_kind ev ≠ ChangeKind_Unknown →
  entry_props (match ev_kind ev with
               | Delete => None
               | _ => Some (VC_Value (LV_Map (merge_after (ev_after ev) (entry_map v))))
               end) = change_props ev (entry_props v) ↔
  ev_kind ev = Delete ∨ map_Forall (λ _, plain) (default ∅ (ev_after ev)).
Proof.
  intros Hl Hk. unfold change_props. destruct (merged_entry (ev_after ev) v Hl) as (ps&He&Hp).
  destruct (ev_kind ev); try done; [..|by split; [left|]]; rewrite He, <-Hp; split;
    first [by intros [= ->]; right|by intros [?| ->]].
Qed.

Lemma well_keyed_inj key key' :
  well_keyed key = true → well_keyed key' = true → encode_edge_key key = encode_edge_key key' → key = key'.
Proof. intros H1%bool_decide_eq_true H2%bool_decide_eq_true Heq. rewrite Heq in H1. congruence. Qed.

(** The entity of an event has an entry live sync reads, or none yet, and a key
    without separators. *)
Definition addressable (ev : ChangeEvent) (st : OutState L) : Prop :=
  match event_entity ev (os_maps st) with
  | None => True
  | Some ent =>
      legible (map_get (os_doc st) (place ent).1 (place ent).2) ∧
      match ent with inl _ => True | inr key => well_keyed key = true end
  end.

(** C5: the outbound worker keeps the document a mirror of the graph.  Document
    and graph mirror each other, another writer changes an entity of the graph, and
    the worker applies its change event without an error; the entity is
    addressable: its entry is absent or a plain map, and no part of an edge's key
    contains the separator (finding: for such an edge the statement fails).  Then
    the mirror is restored exactly if the event is a deletion or of an unbound
    entity, or the new properties hold no vector and no value of an exotic type;
    the worker writes those as lists of numbers and as nulls, which live sync reads
    back as something else. *)
Theorem outbound_keeps_mirror (ev : ChangeEvent) (st st' : OutState L) (g : KeyedGraph)
  (Hok : apply_change_event_to_loro ev st = (Ok tt, st')) (Hm : mirrors (map_get (os_doc st)) g)
  (Haddr : addressable ev st) :
  mirrors (map_get (os_doc st')) (change_graph ev (os_maps st) g) ↔
    event_entity ev (os_maps st) = None ∨ ev_kind ev = Delete ∨ map_Forall (λ _, plain) (default ∅ (ev_after ev)).
Proof.
  pose proof (change_event_doc _ _ _ Hok) as Hd. pose proof (change_graph_props ev (os_maps st) g) as Hg.
  unfold addressable in Haddr. destruct (event_entity ev (os_maps st)) as [ent|] eqn:He.
  2: { rewrite Hg, Hd. split; [by left|done]. }
  destruct Haddr as [Hl Hw], Hg as [Gn Ge], Hm as [Mn Me]. apply event_entity_kind in He.
  pose proof (changed_entry ev _ Hl He) as Hc. trans (ev_kind ev = Delete ∨ map_Forall (λ _, plain) (default ∅ (ev_after ev))).
  2: { split; [by right|by intros [?|]]. }
  rewrite <-Hc. clear Hc. destruct ent as [k|key]; cbn in Hl, Hd |- *.
  - split.
    + intros [Mn' _]. specialize (Mn' k). by rewrite Gn, Hd, !decide_True, Mn in Mn' by done.
    + intros Hc. split.
      * intros k'. rewrite Gn, Hd, Mn. destruct (decide (inl k = inl k')) as [[= <-]|Hne].
        { by rewrite decide_True. } { rewrite decide_False by congruence. done. }
      * intros key'. rewrite Ge, decide_False, Me by done. destruct (well_keyed key'); [|done].
        by rewrite Hd, decide_False.
  - split.
    + intros [_ Me']. specialize (Me' key). specialize (Me key). rewrite Hw in Me, Me'.
      by rewrite Ge, Hd, !decide_True, Me in Me' by done.
    + intros Hc. split.
      * intros k'. by rewrite Gn, decide_False, Mn, Hd, decide_False by done.
      * intros key'. rewrite Ge, Me. destruct (decide (inr key = inr key')) as [[= <-]|Hne].
        { by rewrite Hw, Hd, decide_True. }
        destruct (well_keyed key') eqn:Hw'; [|done]. rewrite Hd, decide_False; [done|].
        intros [= Heq]. by rewrite (well_keyed_inj key' key Hw' Hw Heq) in Hne.
Qed.
End outbound_mirror.

(** ** Concrete documents *)

Definition bound_a : BridgeMaps := BridgeMaps_insert_node BridgeMaps_new "a" (mkNodeId 7).
Definition doc_a : MemLoro := mkMemLoro {[(ROOT_VERTICES, "a"%string) := LV_Map {["p"%string := LV_I64 1]}]} [] "local".
Definition graph_a : KeyedGraph := mkKeyedGraph {["a"%string := mkNodeRec [] {["p"%string := GV_Int64 1]}]} ∅.
Definition change_a (p : string) (v : GrafeoValue) : ChangeEvent :=
  mkChangeEvent 3 (Ent_Node (mkNodeId 7)) Update (Some {[p := v]}) None None None.

Lemma graph_a_mirror : mirrors (map_get doc_a) graph_a.
Proof.
  split.
  - intros k. unfold node_props. cbn. rewrite !lookup_singleton. repeat case_decide; naive_solver.
  - intros key. cbn. rewrite lookup_empty, lookup_singleton_ne by done. by destruct (well_keyed key).
Qed.

Lemma outbound_keeps_mirror_witness :
  let ev := change_a "q" (GV_Int64 2) in
  let bad := change_a "q" (GV_Vector []) in
  let after ev := (apply_change_event_to_loro ev (mkOutState doc_a bound_a)).2 in
  mirrors (map_get (os_doc (after ev))) (change_graph ev bound_a graph_a) ∧
  ¬ mirrors (map_get (os_doc (after bad))) (change_graph bad bound_a graph_a).
Proof.
  intros ev bad after.
  assert (Haddr : ∀ e, event_entity e bound_a = Some (inl "a"%string) → addressable e (mkOutState doc_a bound_a)).
  { intros e He. unfold addressable. cbn [os_maps]. rewrite He. split; [right; by eexists|done]. }
  split.
  - apply (outbound_keeps_mirror ev (mkOutState doc_a bound_a) (after ev) graph_a);
      [vm_compute; reflexivity|exact graph_a_mirror|apply Haddr; vm_compute; reflexivity|].
    right. right. cbn. apply map_Forall_singleton. constructor.
  - intros Hm. apply (outbound_keeps_mirror bad (mkOutState doc_a bound_a) (after bad) graph_a) in Hm;
      [|vm_compute; reflexivity|exact graph_a_mirror|apply Haddr; vm_compute; reflexivity].
    destruct Hm as [Hm|[Hm|Hm]]; [done..|]. cbn in Hm. apply map_Forall_singleton in Hm. inversion Hm.
Defined.

(** ** Edits that cross *)

(** At rest with the vertex [v] on both sides, a peer edits its property [p] in
    the document while another writer sets it in the graph. *)
Definition rested : Runtime MemDb MemLoro :=
  let rt := Nat.iter 6 turn_round rt0 in
  Nat.iter 6 turn_round (set_eng (local_commit true "typing" edit_v (rt_engine rt)) rt).

Definition peer_edit (z : Z) (rt : Runtime MemDb MemLoro) : Runtime MemDb MemLoro :=
  type_in ROOT_VERTICES "v" (LV_Map {["p"%string := LV_I64 z]}) rt.
Definition graph_write (z : Z) (rt : Runtime MemDb MemLoro) : Runtime MemDb MemLoro :=
  let db := grafeo_db (rt_engine rt) in
  set_eng (set_db (commit (set_node_property (mkNodeId 1) "p" (GV_Int64 z) (session db)).2 db).2 (rt_engine rt)) rt.

(** The property on both sides. *)
Definition both_p (rt : Runtime MemDb MemLoro) : option LoroValue * option GrafeoValue :=
  (entry_map (map_get (loro_doc (rt_engine rt)) ROOT_VERTICES "v") !! "p"%string,
   prop_of (mb_abs (batcher_of rt)) "v" "p").

(** One after the other each edit reaches the other side; at the same time they
    cross: document and graph exchange their values, and since each side takes
    the other's write for its own echo they stay apart at rest. *)
Example crossing_edits_swap :
  let settle rt := Nat.iter 12 turn_round rt in
  both_p (settle (peer_edit 2 rested)) = (Some (LV_I64 2), Some (GV_Int64 2)) ∧
  both_p (settle (graph_write 3 rested)) = (Some (LV_I64 3), Some (GV_Int64 3)) ∧
  let crossed := settle (graph_write 3 (peer_edit 2 rested)) in
  both_p crossed = (Some (LV_I64 3), Some (GV_Int64 2)) ∧
  in_flight crossed = [] ∧ poll_pending (rt_engine crossed) = None ∧ nothing_to_ask (rt_engine crossed) = true ∧
  ch_queue (outbound (rt_engine crossed)) = [].
Proof. vm_compute. repeat split. Qed.
