(* ===== verification/Vector.v ===== *)
(** * Vector offload ([src/hydration/vector.rs])

    The deterministic embedding generator (a SplitMix64 stream seeded by the
    text) and the transaction that writes an embedding to a vertex. *)

From S2P Require Import Prelude Types Values BridgeMaps GrafeoTx GraphSpec EdgeKeys Translate MemGraph Batcher BatcherSpec Graph TreeMove.
From Stdlib Require Import SpecFloat.

(** ** The generator *)

Definition GOLDEN : Z := 0x9E3779B97F4A7C15.
Definition MIX1 : Z := 0xBF58476D1CE4E5B9.
Definition MIX2 : Z := 0x94D049BB133111EB.

(** The part of [next_u64] after the state's increment. *)
Definition splitmix_mix (z : Z) : Z :=
  let z := u64_mul (Z.lxor z (Z.shiftr z 30)) MIX1 in
  let z := u64_mul (Z.lxor z (Z.shiftr z 27)) MIX2 in
  Z.lxor z (Z.shiftr z 31).

(** [SplitMix64::next_u64]: the sample and the new state. *)
Definition next_u64 (state : Z) : Z * Z :=
  let state := u64_add state GOLDEN in (splitmix_mix state, state).

(** [x as f32], and the quotient by [2^24]. *)
Definition f32_of_Z (z : Z) : f32 := binary_normalize 24 128 z 0 false.
Definition u64_to_f01 (x : Z) : f32 :=
  SFdiv 24 128 (f32_of_Z (Z.shiftr x 40)) (f32_of_Z (Z.shiftl 1 24)).

Definition text_seed (text : string) : Z :=
  foldl (λ acc b, u64_add (u64_mul acc 31) (Z_of_byte b)) 0%Z (string_bytes text).

Fixpoint sample_loop (n : nat) (state : Z) : list f32 :=
  match n with
  | 0 => []
  | S n => let '(x, state) := next_u64 state in u64_to_f01 x :: sample_loop n state
  end.

Definition generate_local_embedding (text : string) : Result (list f32) :=
  Ok (sample_loop DEFAULT_EMBEDDING_DIM (text_seed text)).

(** ** The update *)

Section update.
  Context {D S : Type} `{GrafeoSession S, !GrafeoDB D S}.

(** An error drops the session, which rolls the transaction back. *)
Definition handle_text_update (node_id : NodeId) (text : string) : SE D GrafeoLoroError unit := λ db,
  match generate_local_embedding text with
  | Err e => (Err e, db)
  | Ok embedding =>
      match begin_transaction (session_with_cdc db false) with
      | (Err e, _) => (Err (EGrafeo e), db)
      | (Ok _, s) =>
          if negb (node_exists s node_id) then
            (Err (EBridge ("VectorOffloadManager: node " +:+ NodeId_debug node_id +:+ " not found")), db)
          else
            match set_node_property node_id EMBEDDING_PROPERTY (GV_Vector embedding) s with
            | (Err e, _) => (Err (EGrafeo e), db)
            | (Ok _, s) =>
                match prepare_commit s with
                | (Err e, _) => (Err (EGrafeo e), db)
                | (Ok _, s) =>
                    let '(c, db) := commit (set_metadata ORIGIN_LORO_BRIDGE ORIGIN_LORO_BRIDGE s) db in
                    ((λ _, tt) <$> map_err EGrafeo c, db)
                end
            end
      end
  end.
End update.

(** ** The stream *)

(** The [i]-th state after a seed. *)
Definition stream_word (seed : Z) (i : nat) : Z := splitmix_mix (u64_wrap (seed + (Z.of_nat i + 1) * GOLDEN)).

Lemma sample_loop_lookup n seed i :
  i < n → sample_loop n (u64_wrap seed) !! i = Some (u64_to_f01 (stream_word seed i)).
Proof.
  revert seed i. induction n as [|n IH]; intros seed i Hi; [lia|]. cbn [sample_loop next_u64].
  assert (Hst : ∀ k, u64_add (u64_wrap seed) k = u64_wrap (seed + k)).
  { intros k. unfold u64_add, u64_wrap. by rewrite Zplus_mod_idemp_l. }
  unfold next_u64. rewrite Hst. destruct i as [|i]; cbn [lookup list_lookup].
  - unfold stream_word. by rewrite Z.mul_1_l.
  - rewrite IH by lia. unfold stream_word. do 3 f_equal. unfold GOLDEN. f_equal. lia.
Qed.

Lemma length_sample_loop n seed : length (sample_loop n seed) = n.
Proof. revert seed. induction n as [|n IH]; intros seed; [done|]. cbn. by rewrite IH. Qed.

Lemma xorshift_inj k x y :
  (0 < k)%Z → (0 ≤ x < 2 ^ 64)%Z → (0 ≤ y < 2 ^ 64)%Z →
  Z.lxor x (Z.shiftr x k) = Z.lxor y (Z.shiftr y k) → x = y.
Proof.
  intros Hk Hx Hy He.
  assert (Hbit : ∀ n i, (64 - Z.of_nat n ≤ i)%Z → (0 ≤ i)%Z → Z.testbit x i = Z.testbit y i).
  { induction n as [|n IH]; intros i Hi H0.
    - rewrite !Z.bits_above_log2; [done|lia| |lia|].
      all: apply Z.le_lt_trans with 63%Z; [|lia].
      + destruct (decide (y = 0%Z)) as [->|]; [done|]. apply Z.lt_succ_r, Z.log2_lt_pow2; [lia|]. exact (proj2 Hy).
      + destruct (decide (x = 0%Z)) as [->|]; [done|]. apply Z.lt_succ_r, Z.log2_lt_pow2; [lia|]. exact (proj2 Hx).
    - assert (Hb := f_equal (λ z, Z.testbit z i) He). cbn in Hb.
      rewrite !Z.lxor_spec, !Z.shiftr_spec in Hb by done. rewrite (IH (i + k)%Z) in Hb by lia.
      by destruct (Z.testbit x i), (Z.testbit y i), (Z.testbit y (i + k)). }
  apply Z.bits_inj'. intros i Hi. apply (Hbit 64 i); lia.
Qed.

(** Multiplication by an odd constant, which has an inverse. *)
Lemma u64_mul_inj c c' x y :
  ((c * c') mod 2 ^ 64 = 1)%Z → (0 ≤ x < 2 ^ 64)%Z → (0 ≤ y < 2 ^ 64)%Z →
  u64_mul x c = u64_mul y c → x = y.
Proof.
  intros Hc Hx Hy. unfold u64_mul, u64_wrap. intros He.
  assert (Hinv : ∀ z, (0 ≤ z < 2 ^ 64)%Z → (((z * c) mod 2 ^ 64) * c' mod 2 ^ 64 = z)%Z).
  { intros z Hz. rewrite Zmult_mod_idemp_l, <-Z.mul_assoc, <-Zmult_mod_idemp_r, Hc, Z.mul_1_r.
    by apply Z.mod_small. }
  rewrite <-(Hinv x Hx), <-(Hinv y Hy). by rewrite He.
Qed.

Lemma xorshift_range k x : (0 ≤ k)%Z → (0 ≤ x < 2 ^ 64)%Z → (0 ≤ Z.lxor x (Z.shiftr x k) < 2 ^ 64)%Z.
Proof.
  intros Hk Hx. assert (H0 : (0 ≤ Z.lxor x (Z.shiftr x k))%Z).
  { apply Z.lxor_nonneg. rewrite Z.shiftr_nonneg. lia. }
  split; [done|]. destruct (decide (Z.lxor x (Z.shiftr x k) = 0)%Z) as [->|]; [lia|].
  apply Z.log2_lt_pow2; [lia|]. eapply Z.le_lt_trans; [apply Z.log2_lxor; [lia|rewrite Z.shiftr_nonneg; lia]|].
  assert (Hlog : (Z.log2 x < 64)%Z).
  { destruct (decide (x = 0%Z)) as [->|]; [done|]. apply Z.log2_lt_pow2; lia. }
  apply Z.max_lub_lt; [done|]. eapply Z.le_lt_trans; [apply Z.log2_le_mono|exact Hlog].
  rewrite Z.shiftr_div_pow2 by done. apply Z.div_le_upper_bound; [lia|].
  assert (1 ≤ 2 ^ k)%Z by (apply (Z.pow_le_mono_r 2 0 k); lia). nia.
Qed.

Lemma u64_mul_range x c : (0 ≤ u64_mul x c < 2 ^ 64)%Z.
Proof. unfold u64_mul, u64_wrap. apply Z.mod_pos_bound. lia. Qed.

Lemma splitmix_mix_inj x y :
  (0 ≤ x < 2 ^ 64)%Z → (0 ≤ y < 2 ^ 64)%Z → splitmix_mix x = splitmix_mix y → x = y.
Proof.
  intros Hx Hy He. unfold splitmix_mix in He.
  apply xorshift_inj in He; [|lia|apply u64_mul_range..].
  apply (u64_mul_inj MIX2 0x319642B2D24D8EC3) in He; [|reflexivity|apply xorshift_range; [lia|apply u64_mul_range]..].
  apply xorshift_inj in He; [|lia|apply u64_mul_range..].
  apply (u64_mul_inj MIX1 0x96DE1B173F119089) in He; [|reflexivity|apply xorshift_range; [lia|done]..].
  by apply xorshift_inj in He; [|lia..].
Qed.

Lemma text_seed_range text : (0 ≤ text_seed text < 2 ^ 64)%Z.
Proof.
  unfold text_seed. generalize (string_bytes text). intros l.
  destruct l as [|b l] using rev_ind; [done|]. rewrite foldl_snoc. unfold u64_add, u64_wrap.
  apply Z.mod_pos_bound. lia.
Qed.

Lemma stream_word_inj s t i :
  (0 ≤ s < 2 ^ 64)%Z → (0 ≤ t < 2 ^ 64)%Z → stream_word s i = stream_word t i → s = t.
Proof.
  unfold stream_word, u64_wrap. intros Hs Ht He%splitmix_mix_inj; [|apply Z.mod_pos_bound; lia..].
  set (k := ((Z.of_nat i + 1) * GOLDEN)%Z) in *. clearbody k.
  rewrite <-(Z.mod_small s (2 ^ 64)), <-(Z.mod_small t (2 ^ 64)) by done.
  replace s with (s + k - k)%Z by lia. replace t with (t + k - k)%Z by lia.
  by rewrite (Zminus_mod (s + k)), (Zminus_mod (t + k)), He.
Qed.

Lemma stream_word_index_inj s i j :
  (Z.of_nat i < 2 ^ 64)%Z → (Z.of_nat j < 2 ^ 64)%Z → stream_word s i = stream_word s j → i = j.
Proof.
  unfold stream_word, u64_wrap. intros Hi Hj He%splitmix_mix_inj; [|apply Z.mod_pos_bound; lia..].
  assert (Hk : (((Z.of_nat i + 1) * GOLDEN) mod 2 ^ 64 = ((Z.of_nat j + 1) * GOLDEN) mod 2 ^ 64)%Z).
  { replace ((Z.of_nat i + 1) * GOLDEN)%Z with (s + (Z.of_nat i + 1) * GOLDEN - s)%Z by lia.
    replace ((Z.of_nat j + 1) * GOLDEN)%Z with (s + (Z.of_nat j + 1) * GOLDEN - s)%Z by lia.
    by rewrite (Zminus_mod (s + (Z.of_nat i + 1) * GOLDEN)), He, <-Zminus_mod. }
  assert (Hinv : ∀ n, (((n * GOLDEN) mod 2 ^ 64) * 0xF1DE83E19937733D mod 2 ^ 64 = n mod 2 ^ 64)%Z).
  { intros n. rewrite Zmult_mod_idemp_l, <-Z.mul_assoc, <-Zmult_mod_idemp_r.
    change ((GOLDEN * 0xF1DE83E19937733D) mod 2 ^ 64)%Z with 1%Z. by rewrite Z.mul_1_r. }
  assert (Hn : ((Z.of_nat i + 1) mod 2 ^ 64 = (Z.of_nat j + 1) mod 2 ^ 64)%Z) by (rewrite <-(Hinv (Z.of_nat i + 1)%Z), <-(Hinv (Z.of_nat j + 1)%Z); by rewrite Hk).
  destruct (decide (Z.of_nat i + 1 = 2 ^ 64)%Z) as [Hi'|Hi'], (decide (Z.of_nat j + 1 = 2 ^ 64)%Z) as [Hj'|Hj'];
    [lia|rewrite Hi', Z.mod_same, Z.mod_small in Hn by lia; lia
    |rewrite Hj', Z.mod_same, Z.mod_small in Hn by lia; lia|].
  rewrite !Z.mod_small in Hn by lia. lia.
Qed.

(** The embedding of a text is total, has the configured dimension, and its
    entries are the scaled words of the SplitMix64 stream of the text's seed; the
    words of one stream are pairwise distinct, and the streams of texts with
    different seeds differ at every position. *)
Lemma embedding_stream_correct (text : string) :
  ∃ v, generate_local_embedding text = Ok v ∧ length v = DEFAULT_EMBEDDING_DIM ∧
    (∀ i, i < DEFAULT_EMBEDDING_DIM → v !! i = Some (u64_to_f01 (stream_word (text_seed text) i))) ∧
    (∀ i j, i < DEFAULT_EMBEDDING_DIM → j < DEFAULT_EMBEDDING_DIM →
       stream_word (text_seed text) i = stream_word (text_seed text) j → i = j) ∧
    ∀ text' i, stream_word (text_seed text') i = stream_word (text_seed text) i →
      text_seed text' = text_seed text.
Proof.
  eexists. split; [reflexivity|]. split; [apply length_sample_loop|].
  assert (Hw : text_seed text = u64_wrap (text_seed text)).
  { unfold u64_wrap. rewrite Z.mod_small; [done|apply text_seed_range]. }
  split; [|split].
  - intros i Hi. rewrite Hw at 1. by apply sample_loop_lookup.
  - unfold DEFAULT_EMBEDDING_DIM. intros i j Hi Hj. apply stream_word_index_inj; lia.
  - intros text' i. apply stream_word_inj; apply text_seed_range.
Qed.

(** ** The update *)

Section update_correct.
  Context {D S : Type} `{GrafeoDBLaws D S, !GrafeoNeighborLaws S}.

(** A text update writes the embedding of the text to the one property of the
    one vertex, which must exist, and changes nothing else; every failure
    leaves the graph as it was and is a missing vertex or one of the
    database. *)
Lemma text_update_correct (node_id : NodeId) (text : string) (db : D) :
  ∃ v, generate_local_embedding text = Ok v ∧
  match handle_text_update node_id text db with
  | (Ok _, db') => ∃ r, db_nodes db !! node_id = Some r ∧
      db_nodes db' = <[node_id := mkNodeRec (nr_labels r)
                         (<[EMBEDDING_PROPERTY := GV_Vector v]> (nr_props r))]> (db_nodes db) ∧
      db_edges db' = db_edges db
  | (Err e, db') => db_nodes db' = db_nodes db ∧ db_edges db' = db_edges db ∧
      ((∃ msg, e = EGrafeo msg) ∨ db_nodes db !! node_id = None ∧ ∃ msg, e = EBridge msg)
  end.
Proof.
  eexists. split; [reflexivity|]. unfold handle_text_update, generate_local_embedding.
  destruct (begin_transaction _) as [[[]|e] s] eqn:Hbeg; [|by eauto 10].
  pose proof (begin_law _ _ _ Hbeg) as [Hn He]. pose proof (so_begin db _ _ Hbeg) as Hso.
  rewrite node_exists_law, Hn. case_bool_decide as Hex; cbn [negb].
  2: { split; [done|]. split; [done|]. right. split; [by apply eq_None_not_Some|by eexists]. }
  set (v := GV_Vector _). pose proof (set_node_property_law node_id EMBEDDING_PROPERTY v s) as Hset.
  pose proof (so_set_node db node_id EMBEDDING_PROPERTY v s Hso) as Hso1.
  destruct (set_node_property _ _ _ _) as [[[]|e] s1]; [|by eauto 10].
  destruct Hset as (_&_&Hve&r&Hr&Hvn). cbn in Hso1.
  destruct (prepare_commit s1) as [[[]|e] s2] eqn:Hp; [|by eauto 10].
  pose proof (prepare_law _ _ Hp) as [Hpn Hpe].
  pose proof (set_metadata_law ORIGIN_LORO_BRIDGE ORIGIN_LORO_BRIDGE s2) as [Hmn Hme].
  pose proof (so_prepare _ _ Hso1) as Hso2. rewrite Hp in Hso2. cbn in Hso2.
  pose proof (commit_law _ _ (so_metadata _ ORIGIN_LORO_BRIDGE ORIGIN_LORO_BRIDGE _ Hso2)) as Hcom.
  destruct (commit _ _) as [[ep|e] d']; cbn.
  - destruct Hcom as (Hdn&Hde&_). exists r. rewrite Hn in Hr, Hvn. split; [done|].
    by rewrite Hdn, Hde, Hmn, Hme, Hpn, Hpe, Hvn, Hve, He.
  - destruct Hcom as (?&?&_). eauto 10.
Qed.
End update_correct.

(** ** A sample update *)

Definition one_vertex_db : MemDb :=
  fs_db (flush_closure [UpsertNode "a" ["L"] {["p" := GraphValue_Integer 1]}] (mb_fs mb0)).2.

Lemma text_update_correct_witness :
  let id := default (mkNodeId 0) (head (map fst (map_to_list (db_nodes one_vertex_db)))) in
  let db' := (handle_text_update id "hello" one_vertex_db).2 in
  is_ok (handle_text_update id "hello" one_vertex_db).1 = true ∧
  (∃ r, db_nodes one_vertex_db !! id = Some r ∧ ∃ v, length v = 384 ∧
    db_nodes db' = <[id := mkNodeRec (nr_labels r) (<[EMBEDDING_PROPERTY := GV_Vector v]> (nr_props r))]>
                     (db_nodes one_vertex_db)).
Proof.
  set (id := default (mkNodeId 0) (head (map fst (map_to_list (db_nodes one_vertex_db))))). cbv zeta.
  assert (Hok : (handle_text_update id "hello" one_vertex_db).1 = Ok tt) by (vm_compute; reflexivity).
  destruct (text_update_correct id "hello" one_vertex_db) as (v&Hv&H).
  revert Hok H. destruct (handle_text_update id "hello" one_vertex_db) as [res db']. cbn [fst snd].
  intros -> (r&Hr&Hn&_). split; [reflexivity|]. exists r. split; [exact Hr|]. exists v. split; [|exact Hn].
  apply Ok_inj in Hv. rewrite <-Hv. apply (length_sample_loop DEFAULT_EMBEDDING_DIM).
Defined.

(** The samples are exact multiples of [2^-24] below one. *)
Example sample_values :
  u64_to_f01 (2 ^ 63) = S754_finite false (2 ^ 23) (-24) ∧
  u64_to_f01 (2 ^ 64 - 1) = S754_finite false (2 ^ 24 - 1) (-24) ∧ u64_to_f01 (2 ^ 40 - 1) = S754_zero false.
Proof. vm_compute. done. Qed.
