(* ===== verification/App.v ===== *)
(** * The application ([src/app.rs])

    The builder with its checks, checkpointing the document to storage, and the
    cold boot from storage, on top of the engine, the compression envelope, the
    storage interface and hydration. *)

From S2P Require Import Prelude Types Values BridgeMaps GrafeoTx GraphSpec EdgeKeys Translate MemGraph Batcher BatcherSpec SyncEngine Storage Compression Hydration.

(** ** The document's snapshots *)

(** [LoroDoc::new], [export(shallow_snapshot(..))] and [import_with], which also
    yields the events its subscribers receive and whether changes are pending. *)
Class LoroSnapshot (L : Type) : Type := {
  doc_new : L;
  Frontiers : Type;
  oplog_frontiers : L → Frontiers;
  export_shallow_snapshot : Frontiers → L → result string bytes;
  import_with : bytes → string → L → result string bool * list DiffEvent * L
}.

(** [GrafeoDB::with_config(Config::persistent(..))] and [new_in_memory]. *)
Class GrafeoOpen (D : Type) : Type := {
  with_config_persistent : string → result string D;
  new_in_memory : D
}.

(** ** State *)

(** The telemetry handles are kept as whether they are set. *)
Record GrafeoLoroApp (D L B : Type) : Type := mkApp {
  sync_engine : SyncEngine D L;
  batch_config : BatcherConfig;
  app_ssot_mode : SsotMode;
  app_storage : option B;
  app_compression : CompressionType
}.
Arguments mkApp {D L B}.
Arguments sync_engine {D L B}.
Arguments batch_config {D L B}.
Arguments app_ssot_mode {D L B}.
Arguments app_storage {D L B}.
Arguments app_compression {D L B}.

Record GrafeoLoroAppBuilder (B : Type) : Type := mkBuilder {
  b_storage : option B;
  b_ssot_mode : SsotMode;
  b_compression : CompressionType;
  b_sync_compression : CompressionType;
  b_batch_interval_ms : Z;
  b_batch_max_size : Z;
  b_grafeo_dir : option string
}.
Arguments mkBuilder {B}.
Arguments b_storage {B}.
Arguments b_ssot_mode {B}.
Arguments b_compression {B}.
Arguments b_sync_compression {B}.
Arguments b_batch_interval_ms {B}.
Arguments b_batch_max_size {B}.
Arguments b_grafeo_dir {B}.

Definition GrafeoLoroAppBuilder_default {B} : GrafeoLoroAppBuilder B :=
  mkBuilder None SsotMode_default CompressionType_default Lz4 DEFAULT_BATCH_MS DEFAULT_BATCH_SIZE None.

Definition base_key (graph_id : string) : string := graph_id +:+ "/" +:+ STORAGE_KEY_BASE_LORO.
Definition delta_prefix (graph_id : string) : string := graph_id +:+ "/" +:+ STORAGE_KEY_DELTA_PREFIX.

Section app.
  Context {D S L B : Type} `{GrafeoSession S, !GrafeoDB D S, !GrafeoOpen D, !LoroDoc L, !LoroHydrate L,
    !LoroSnapshot L, !StorageBackend B, Codecs, HashOrder, ParOrder}.
  Notation E := (SyncEngine D L).
  Notation App := (GrafeoLoroApp D L B).

Definition set_engine (e : E) (app : App) : App :=
  mkApp e (batch_config app) (app_ssot_mode app) (app_storage app) (app_compression app).
Definition set_storage (s : B) (app : App) : App :=
  mkApp (sync_engine app) (batch_config app) (app_ssot_mode app) (Some s) (app_compression app).

(** ** [build] *)

(** The checks in their order, the database, an empty document, the engine with
    the configured batching and its telemetry. *)
Definition build (b : GrafeoLoroAppBuilder B) : Result App :=
  if (b_batch_interval_ms b =? 0)%Z then Err (EConfig "batch_interval_ms must be > 0")
  else if (b_batch_max_size b =? 0)%Z then Err (EConfig "batch_max_size must be > 0")
  else
    storage ← ok_or (b_storage b) (EConfig "storage backend not set");
    if bool_decide (b_ssot_mode b = SsotMode_Grafeo) && bool_decide (b_grafeo_dir b = None)
    then Err (EConfig "grafeo_dir required for SsotMode::Grafeo")
    else
      db ← match b_grafeo_dir b with
           | Some p => map_err EGrafeo (with_config_persistent p)
           | None => Ok new_in_memory
           end;
      Ok (mkApp (SyncEngine_new db doc_new)
            (mkBatcherConfig (b_batch_max_size b) (b_batch_interval_ms b) true true)
            (b_ssot_mode b) (Some storage) (b_compression b)).

(** ** [checkpoint] *)

(** A failed delete is logged and the loop goes on. *)
Definition delete_deltas (keys : list string) (s : B) : B :=
  foldl (λ s k, (delete_key k s).2) s keys.

Definition checkpoint (graph_id : string) : SE App GrafeoLoroError unit := λ app,
  match app_storage app with
  | None => (Err (EConfig "storage backend not set"), app)
  | Some storage =>
      match app_ssot_mode app with
      | SsotMode_Grafeo =>
          (Err (ENotYetImplemented
             "SsotMode::Grafeo checkpoint: requires wal feature + ArcSwap grafeo_db field"), app)
      | SsotMode_Loro =>
          let doc := loro_doc (sync_engine app) in
          match export_shallow_snapshot (oplog_frontiers doc) doc with
          | Err e => (Err (ELoro e), app)
          | Ok snapshot_bytes =>
              match CompressedPayload_compress_to_wire snapshot_bytes (app_compression app) with
              | Err e => (Err e, app)
              | Ok wire_bytes =>
                  let '(r, storage) := save (base_key graph_id) wire_bytes storage in
                  match r with
                  | Err e => (Err (EStorageIo e), set_storage storage app)
                  | Ok _ =>
                      match list_keys (delta_prefix graph_id) storage with
                      | Err e => (Err (EStorageIo e), set_storage storage app)
                      | Ok delta_keys => (Ok tt, set_storage (delete_deltas delta_keys storage) app)
                      end
                  end
              end
          end
      end
  end.

(** ** [hydrate] *)

(** [import_with] under the write lock: the subscriber receives its events. *)
Definition import_bridge (metrics : bool) (b : bytes) : SE E GrafeoLoroError bool := λ e,
  let '(r, events, doc) := import_with b ORIGIN_LORO_BRIDGE (loro_doc e) in
  (map_err ELoro r, foldl (λ e ev, subscriber_handler metrics ev e) (set_doc doc e) events).

(** One delta: a failed load is skipped, a failed decode or import ends the
    hydration. *)
Definition import_delta (metrics : bool) (storage : B) (key : string) : SE E GrafeoLoroError unit :=
  match load key storage with
  | Err _ => mret tt
  | Ok delta_bytes =>
      delta_loro_bytes ← SE_lift (CompressedPayload_decompress_from_wire delta_bytes);
      _ ← import_bridge metrics delta_loro_bytes;
      mret tt
  end.

(** Steps 2 to 4: the base snapshot and the deltas in key order. *)
Definition import_documents (metrics : bool) (storage : B) (graph_id : string) (base_bytes : bytes) :
    SE E GrafeoLoroError unit :=
  match base_bytes with
  | [] => mret tt
  | _ =>
      loro_bytes ← SE_lift (CompressedPayload_decompress_from_wire base_bytes);
      _ ← import_bridge metrics loro_bytes;
      delta_keys ← SE_lift (map_err EStorageIo (list_keys (delta_prefix graph_id) storage));
      SE_for (merge_sort String.le delta_keys) (import_delta metrics storage)
  end.

Definition load_base (storage : B) (graph_id : string) : Result bytes :=
  match load (base_key graph_id) storage with
  | Ok b => Ok b
  | Err e => if bool_decide (io_kind e = NotFound) then Ok [] else Err (EStorageIo e)
  end.

(** Step 5, on the engine's database and maps. *)
Definition hydrate_engine : SE E GrafeoLoroError unit := λ e,
  let '(r, hs) := parallel_hydrate_grafeo (loro_doc e) (mkHydrateState (grafeo_db e) (maps e)) in
  (r, set_fs (mkFlushState (hs_db hs) (hs_maps hs) (bridge_epochs e)) e).

Definition hydrate (metrics : bool) (graph_id : string) : SE App GrafeoLoroError unit := λ app,
  match app_storage app with
  | None => (Err (EConfig "storage backend not set"), app)
  | Some storage =>
      match app_ssot_mode app with
      | SsotMode_Grafeo =>
          (Err (ENotYetImplemented
             "SsotMode::Grafeo hydrate: requires wal feature + ArcSwap grafeo_db field"), app)
      | SsotMode_Loro =>
          let '(r, e) :=
            (base_bytes ← SE_lift (load_base storage graph_id);
             _ ← import_documents metrics storage graph_id base_bytes;
             hydrate_engine) (sync_engine app) in
          (r, set_engine e app)
      end
  end.
End app.

(** ** What the document's library promises of snapshots *)

(** Two documents with the same content. *)
Record same_doc {L} `{LoroDoc L, !LoroHydrate L} (l l' : L) : Prop := {
  sd_get root k : map_get l' root k = map_get l root k;
  sd_map root k : hydrate_map <$> into_map l' root k = hydrate_map <$> into_map l root k
}.

(** An export imported into an empty document restores its content with nothing
    pending; an import's events carry its origin. *)
Class LoroSnapshotLaws (L : Type) `{LoroDoc L, !LoroHydrate L, !LoroSnapshot L} : Prop := {
  import_export_law l b origin :
    export_shallow_snapshot (oplog_frontiers l) l = Ok b →
    let '(r, _, l') := import_with b origin doc_new in r = Ok false ∧ same_doc l l';
  import_origin_law b origin l :
    let '(_, events, _) := import_with b origin l in Forall (λ ev, de_origin ev = origin) events
}.

Section correct.
  Context {D S L B : Type} `{GrafeoDBLaws D S, !GrafeoOpen D, !LoroDoc L, !LoroHydrate L, !LoroHydrateLaws L,
    !LoroSnapshot L, !LoroSnapshotLaws L, !StorageBackend B, !StorageLaws B, Codecs, !CodecLaws,
    HashOrder, ParOrder}.
  Notation E := (SyncEngine D L).
  Notation App := (GrafeoLoroApp D L B).

(** ** Storage *)

Lemma prefix_app (s p q : string) : String.prefix (s +:+ p) (s +:+ q) = String.prefix p q.
Proof. induction s as [|c s IH]; [done|].
  change (String.prefix (String c (s +:+ p)) (String c (s +:+ q)) = String.prefix p q).
  cbn [String.prefix]. destruct (Ascii.ascii_dec c c) as [_|Hn]; [exact IH|by destruct Hn].
Qed.

Lemma base_not_delta graph_id : String.prefix (delta_prefix graph_id) (base_key graph_id) = false.
Proof. unfold delta_prefix, base_key. by rewrite prefix_app. Qed.

(** The keys whose deletion fails. *)
Fixpoint undeleted (keys : list string) (s : B) : list string :=
  match keys with
  | [] => []
  | k :: keys => (if is_ok (delete_key k s).1 then [] else [k]) ++ undeleted keys (delete_key k s).2
  end.

Lemma delete_deltas_contents keys (s : B) k :
  (k ∈ keys → k ∉ undeleted keys s → contents (delete_deltas keys s) !! k = None) ∧
  (k ∉ keys → contents (delete_deltas keys s) !! k = contents s !! k).
Proof.
  revert s. induction keys as [|k' keys IH]; intros s; [set_solver|].
  unfold delete_deltas. cbn. fold (delete_deltas keys (delete_key k' s).2).
  destruct (IH (delete_key k' s).2) as [Hin Hout], (delete_law k' s) as [Hne Hdel].
  rewrite elem_of_cons, elem_of_app. split.
  - intros Hk Hn. destruct (decide (k ∈ keys)) as [?|Hnk]; [apply Hin; tauto|].
    destruct Hk as [->|?]; [|done]. rewrite Hout by done. apply Hdel.
    destruct (is_ok (delete_key k' s).1); [done|]. destruct Hn. left. by left.
  - intros Hn. rewrite Hout by tauto. apply Hne. tauto.
Qed.

(** What a checkpoint leaves in storage. *)
Record checkpointed (graph_id : string) (wire : bytes) (failed : list string) (s s' : B) : Prop := {
  cp_base : contents s' !! base_key graph_id = Some wire;
  cp_deltas k : String.prefix (delta_prefix graph_id) k = true → k ∉ failed → contents s' !! k = None;
  cp_others k : k ≠ base_key graph_id → String.prefix (delta_prefix graph_id) k = false →
    contents s' !! k = contents s !! k;
  cp_absent k : k ≠ base_key graph_id → contents s !! k = None → contents s' !! k = None
}.

Lemma checkpointed_save graph_id wire ks (s : B) :
  let s1 := (save (base_key graph_id) wire s).2 in
  is_ok (save (base_key graph_id) wire s).1 = true → list_keys (delta_prefix graph_id) s1 = Ok ks →
  checkpointed graph_id wire (undeleted ks s1) s (delete_deltas ks s1).
Proof.
  intros s1 Hok Hks. destruct (save_law (base_key graph_id) wire s) as [Hne Hb]. specialize (Hb Hok). fold s1 in Hne, Hb.
  pose proof (list_law _ _ _ Hks) as Hin. split.
  - rewrite (proj2 (delete_deltas_contents ks s1 _)); [done|]. rewrite Hin, base_not_delta. by intros [].
  - intros k Hp Hn. destruct (delete_deltas_contents ks s1 k) as [Hdel Hkeep].
    destruct (decide (k ∈ ks)) as [Hk|Hk]; [by apply Hdel|]. rewrite Hkeep by done.
    apply eq_None_not_Some. intros Hsome. apply Hk. by apply Hin.
  - intros k Hk Hp. rewrite (proj2 (delete_deltas_contents ks s1 k)); [by apply Hne|]. rewrite Hin, Hp. by intros [].
  - intros k Hk Hl. rewrite <-(Hne k Hk) in Hl. rewrite (proj2 (delete_deltas_contents ks s1 k)); [done|].
    rewrite Hin, Hl. by intros [_ []].
Qed.

(** A failed checkpoint: the storage is untouched up to the save; afterwards at
    most the base snapshot differs. *)
Definition checkpoint_failed (graph_id : string) (app : App) (s s' : B) (e : GrafeoLoroError) : Prop :=
  let doc := loro_doc (sync_engine app) in
  match export_shallow_snapshot (oplog_frontiers doc) doc with
  | Err m => s' = s ∧ e = ELoro m
  | Ok snap =>
      match CompressedPayload_compress_to_wire snap (app_compression app) with
      | Err e' => s' = s ∧ e = e' ∧ ∃ m, e = ECompression m
      | Ok wire =>
          (∀ k, k ≠ base_key graph_id → contents s' !! k = contents s !! k) ∧
          ∃ io, e = EStorageIo io ∧
            ((save (base_key graph_id) wire s).1 = Err io ∨
             contents s' !! base_key graph_id = Some wire ∧ list_keys (delta_prefix graph_id) s' = Err io)
      end
  end.

Lemma checkpoint_cases graph_id (app : App) (s : B) :
  app_storage app = Some s → app_ssot_mode app = SsotMode_Loro →
  let doc := loro_doc (sync_engine app) in
  ∃ s', (checkpoint graph_id app).2 = set_storage s' app ∧
  match (checkpoint graph_id app).1 with
  | Ok _ => ∃ snap wire failed,
      export_shallow_snapshot (oplog_frontiers doc) doc = Ok snap ∧
      CompressedPayload_compress_to_wire snap (app_compression app) = Ok wire ∧
      checkpointed graph_id wire failed s s' ∧
      (∀ k, k ∈ failed → String.prefix (delta_prefix graph_id) k = true ∧ is_Some (contents s !! k))
  | Err e => checkpoint_failed graph_id app s s' e
  end.
Proof.
  intros Hs Hm. cbn zeta. assert (Hid : app = set_storage s app) by (destruct app; cbn in *; by subst).
  unfold checkpoint, checkpoint_failed. rewrite Hs, Hm. cbn zeta.
  destruct (export_shallow_snapshot _ _) as [snap|m]; [|by exists s].
  pose proof (compress_to_wire_cases snap (app_compression app)) as Hcc.
  destruct (CompressedPayload_compress_to_wire snap _) as [wire|e] eqn:Hw; [|by exists s].
  pose proof (save_law (base_key graph_id) wire s) as [Hne Hb].
  pose proof (λ ks, checkpointed_save graph_id wire ks s) as Hcp. cbv zeta in Hcp.
  destruct (save (base_key graph_id) wire s) as [[[]|io] s1]; cbn [fst snd] in *.
  2: { exists s1. split; [done|]. split; [done|]. exists io. by auto. }
  destruct (list_keys (delta_prefix graph_id) s1) as [ks|io] eqn:Hks; cbn [fst snd].
  2: { exists s1. split; [done|]. split; [done|]. exists io. auto. }
  exists (delete_deltas ks s1). split; [done|]. exists snap, wire, (undeleted ks s1). do 3 (split; [by auto|]).
  intros k Hk. assert (Hin : k ∈ ks).
  { clear - Hk. revert s1 Hk. induction ks as [|k' ks IH]; intros s1; cbn; [done|].
    rewrite elem_of_app. intros [Hk|Hk]; [destruct (is_ok _); set_solver|]. right. by eapply IH. }
  apply (list_law _ _ _ Hks) in Hin as [Hp Hin]. split; [done|]. rewrite <-Hne; [done|].
  intros ->. by rewrite base_not_delta in Hp.
Qed.

(** C33: a checkpoint in Loro mode, of a backend any of whose operations may fail.
    It never touches the engine, the configuration, or a stored key other than the
    base snapshot of the graph and the keys with the graph's delta prefix (which
    may be another graph's, finding).  When it returns Ok, the base snapshot is the
    compressed export of the document and every key with the prefix is gone, save
    for stored ones whose deletion failed, which it only logs; where none failed, a
    second checkpoint of the same document that returns Ok changes nothing more.
    When it returns an error of the document or the codec, the storage is as it
    was; after an error of the backend at most the base snapshot has changed, and
    if the error is that of the listing it already is the new one.  Without a
    storage, or in grafeo mode, it refuses. *)
Theorem checkpoint_correct (graph_id : string) (app : App) :
  match app_storage app, app_ssot_mode app with
  | None, _ => checkpoint graph_id app = (Err (EConfig "storage backend not set"), app)
  | Some _, SsotMode_Grafeo =>
      ∃ msg, checkpoint graph_id app = (Err (ENotYetImplemented msg), app)
  | Some s, SsotMode_Loro =>
      let doc := loro_doc (sync_engine app) in
      ∃ s', (checkpoint graph_id app).2 = set_storage s' app ∧
      match (checkpoint graph_id app).1 with
      | Ok _ => ∃ snap wire failed,
          export_shallow_snapshot (oplog_frontiers doc) doc = Ok snap ∧
          CompressedPayload_compress_to_wire snap (app_compression app) = Ok wire ∧
          checkpointed graph_id wire failed s s' ∧
          (∀ k, k ∈ failed → String.prefix (delta_prefix graph_id) k = true ∧ is_Some (contents s !! k)) ∧
          (failed = [] → (checkpoint graph_id (set_storage s' app)).1 = Ok tt →
             ∃ s'', (checkpoint graph_id (set_storage s' app)).2 = set_storage s'' app ∧ contents s'' = contents s')
      | Err e => checkpoint_failed graph_id app s s' e
      end
  end.
Proof.
  destruct (app_storage app) as [s|] eqn:Hs; [|by unfold checkpoint; rewrite Hs].
  destruct (app_ssot_mode app) eqn:Hm; [|unfold checkpoint; rewrite Hs, Hm; by eexists].
  destruct (checkpoint_cases graph_id app s Hs Hm) as (s'&Happ&Hc). cbn zeta in *. exists s'. split; [done|].
  destruct (checkpoint graph_id app).1; [|done].
  destruct Hc as (snap&wire&failed&Hx&Hw&Hcp&Hf). exists snap, wire, failed. do 4 (split; [done|]). intros -> Hagain.
  destruct (checkpoint_cases graph_id (set_storage s' app) s' eq_refl Hm) as (s''&Happ2&Hc).
  rewrite Hagain in Hc. destruct Hc as (snap2&wire2&failed2&Hx2&Hw2&Hcp2&Hf2).
  change (app_compression (set_storage s' app)) with (app_compression app) in Hw2. cbn in Hx2.
  rewrite Hx in Hx2. injection Hx2 as <-. rewrite Hw in Hw2. injection Hw2 as <-.
  exists s''. split; [done|]. apply map_eq. intros k.
  destruct (decide (k = base_key graph_id)) as [->|Hne]; [by rewrite (cp_base _ _ _ _ _ Hcp2), (cp_base _ _ _ _ _ Hcp)|].
  destruct (String.prefix (delta_prefix graph_id) k) eqn:Hp; [|by apply (cp_others _ _ _ _ _ Hcp2)].
  assert (Hk : contents s' !! k = None) by (apply (cp_deltas _ _ _ _ _ Hcp); [done|by intros ?%elem_of_nil]).
  rewrite Hk. by apply (cp_absent _ _ _ _ _ Hcp2).
Qed.

(** ** The cold boot *)

(** The part of the engine an import may not touch. *)
Definition quiet (e e' : E) : Prop :=
  loro_doc e' = loro_doc e ∧ batcher e' = batcher e ∧ inbound e' = inbound e ∧ outbound e' = outbound e.

Lemma subscriber_echoes metrics events (e : E) :
  Forall (λ ev, de_origin ev = ORIGIN_LORO_BRIDGE) events →
  quiet e (foldl (λ e ev, subscriber_handler metrics ev e) e events).
Proof.
  intros Hev. revert e. induction Hev as [|ev events Ho _ IH]; intros e; [done|]. cbn [foldl].
  assert (Hq : quiet e (subscriber_handler metrics ev e)).
  { unfold subscriber_handler, is_echo_origin. rewrite Ho, (bool_decide_true (ORIGIN_LORO_BRIDGE = ORIGIN_LORO_BRIDGE)) by done.
    by rewrite orb_true_r. }
  destruct (IH (subscriber_handler metrics ev e)) as (Hd&Hb&Hi&Hout), Hq as (?&?&?&?).
  unfold quiet. rewrite Hd, Hb, Hi, Hout. done.
Qed.

(** An import leaves everything but the document and the counters. *)
Lemma import_bridge_quiet metrics b (e : E) :
  let '(r, _, doc) := import_with b ORIGIN_LORO_BRIDGE (loro_doc e) in
  (import_bridge metrics b e).1 = map_err ELoro r ∧ quiet (set_doc doc e) (import_bridge metrics b e).2.
Proof.
  unfold import_bridge. pose proof (import_origin_law b ORIGIN_LORO_BRIDGE (loro_doc e)) as Ho.
  destruct (import_with _ _ _) as [[r evs] doc]. split; [done|]. by apply subscriber_echoes.
Qed.

(** Importing what a checkpoint left, into an empty document. *)
Lemma import_checkpointed metrics graph_id snap wire comp doc (s' : B) (e : E) :
  export_shallow_snapshot (oplog_frontiers doc) doc = Ok snap →
  CompressedPayload_compress_to_wire snap comp = Ok wire → loro_doc e = doc_new →
  (∀ k, String.prefix (delta_prefix graph_id) k = true → contents s' !! k = None) →
  ∃ e' doc', quiet (set_doc doc' e) e' ∧ same_doc doc doc' ∧
    import_documents metrics s' graph_id wire e =
      match list_keys (delta_prefix graph_id) s' with
      | Ok _ => (Ok tt, e')
      | Err io => (Err (EStorageIo io), e')
      end.
Proof.
  intros Hx Hw He Hdel. unfold import_documents.
  pose proof (compress_to_wire_cases snap comp) as Hne. rewrite Hw in Hne. destruct wire as [|w wire]; [done|].
  unfold SE_lift, mbind, SE_bind. rewrite (decompress_compress snap (w :: wire) comp Hw).
  pose proof (import_bridge_quiet metrics snap e) as Hq.
  pose proof (import_export_law doc snap ORIGIN_LORO_BRIDGE Hx) as Hlaw. rewrite He in Hq.
  destruct (import_with _ _ _) as [[r evs] doc']. destruct Hlaw as [-> Hsame], Hq as [Hr Hq].
  destruct (import_bridge metrics snap e) as [r' e'] eqn:Hib. cbn in Hr, Hq. subst r'.
  exists e', doc'. split; [done|]. split; [done|].
  destruct (list_keys (delta_prefix graph_id) s') as [ks|io] eqn:Hks; [|done].
  assert (ks = []) as ->; [|done].
  destruct ks as [|k ks]; [done|]. exfalso. destruct (proj1 (list_law _ _ _ Hks k) ltac:(left)) as [Hp Hok].
  rewrite (Hdel _ Hp) in Hok. by destruct Hok.
Qed.

Lemma same_doc_vertex (l l' : L) k : same_doc l l' → hydrate_vertex l' k = hydrate_vertex l k.
Proof.
  intros Hs. unfold hydrate_vertex. rewrite (sd_get _ _ Hs).
  destruct (map_get l ROOT_VERTICES k) as [[v|]|]; [done| |done].
  pose proof (sd_map _ _ Hs ROOT_VERTICES k) as Hm. unfold mbind, result_bind. cbn.
  destruct (into_map l' _ _), (into_map l _ _); cbn in Hm; [injection Hm as Hm|done..].
  cbn. by rewrite Hm.
Qed.

Lemma same_doc_keys (l l' : L) k : same_doc l l' → k ∈ map_keys l' ROOT_VERTICES ↔ k ∈ map_keys l ROOT_VERTICES.
Proof. intros Hs. by rewrite !map_keys_elem, (sd_get _ _ Hs). Qed.

Lemma same_doc_hydrates (l l' : L) g g' :
  same_doc l l' → hydrates l' (map_keys l' ROOT_VERTICES) g g' → hydrates l (map_keys l ROOT_VERTICES) g g'.
Proof.
  intros Hs Hh. apply (hydrates_perm l) with (l1 := map_keys l' ROOT_VERTICES).
  { intros k. by apply same_doc_keys. }
  split; [|intros k; rewrite (hy_nodes _ _ _ _ Hh)|apply Hh].
  - intros k Hk. rewrite <-(same_doc_vertex _ _ _ Hs). by apply (hy_ok _ _ _ _ Hh).
  - unfold hydrated_node. by rewrite (same_doc_vertex _ _ _ Hs).
Qed.

(** The graph of an application and its maps. *)
Definition app_graph (app : App) : HydrateState D :=
  mkHydrateState (grafeo_db (sync_engine app)) (maps (sync_engine app)).

Lemma hydrate_engine_cases (e : E) :
  hs_coupled (mkHydrateState (grafeo_db e) (maps e)) →
  let '(r, e') := hydrate_engine e in
  loro_doc e' = loro_doc e ∧ inbound e' = inbound e ∧ outbound e' = outbound e ∧
  match r with
  | Ok _ => hs_coupled (mkHydrateState (grafeo_db e') (maps e')) ∧
      hydrates (loro_doc e) (map_keys (loro_doc e) ROOT_VERTICES)
        (hs_abs (mkHydrateState (grafeo_db e) (maps e))) (hs_abs (mkHydrateState (grafeo_db e') (maps e')))
  | Err er => hydrate_error (loro_doc e) (map_keys (loro_doc e) ROOT_VERTICES) er
  end.
Proof.
  intros Hc. unfold hydrate_engine. pose proof (parallel_refines (loro_doc e) _ Hc) as Hp.
  destruct (parallel_hydrate_grafeo _ _) as [r [d m]]. by destruct r.
Qed.

(** A document whose vertices hydrate has no plain value among them. *)
Lemma hydrates_no_value doc g g' :
  hydrates doc (map_keys doc ROOT_VERTICES) g g' → ∀ k v, map_get doc ROOT_VERTICES k ≠ Some (VC_Value v).
Proof.
  intros Hh k v Hg. assert (Hk : k ∈ map_keys doc ROOT_VERTICES) by (apply map_keys_elem; rewrite Hg; by eexists).
  apply (hy_ok _ _ _ _ Hh) in Hk. unfold hydrate_vertex in Hk. by rewrite Hg in Hk.
Qed.

(** C13: a checkpointed document survives a cold boot.  A checkpoint returned Ok
    and left no key with the delta prefix; an application with an empty document
    hydrates from that storage, under whatever codec it is itself configured with.
    Then no event of the import reaches its channels.  If reading the base snapshot
    fails, the boot fails with that error and changes nothing of the engine.
    Otherwise the document is restored; if the listing of the deltas fails, so does
    the boot, before the graph is touched.  Otherwise the graph is the one the
    application had with every vertex of the document merged in and its edges
    unchanged, or the boot fails with the error of a vertex entry of the document
    or one of the database.  It is the document that is restored, not the graph
    that was live: only containers hydrate, and a document with a plain map among
    its vertices, as live sync reads them and the outbound worker writes them, does
    not boot (finding). *)
Theorem checkpoint_hydrate_roundtrip (metrics : bool) (graph_id : string) (app app' cold : App) (s' : B)
  (Hm : app_ssot_mode app = SsotMode_Loro) (Hcp : checkpoint graph_id app = (Ok tt, app'))
  (Hs : app_storage app' = Some s')
  (Hdel : ∀ k, String.prefix (delta_prefix graph_id) k = true → contents s' !! k = None)
  (Hcs : app_storage cold = Some s') (Hcm : app_ssot_mode cold = SsotMode_Loro)
  (Hcd : loro_doc (sync_engine cold) = doc_new) (Hcc : hs_coupled (app_graph cold)) :
  let doc := loro_doc (sync_engine app) in
  let '(r, booted) := hydrate metrics graph_id cold in
  inbound (sync_engine booted) = inbound (sync_engine cold) ∧
  outbound (sync_engine booted) = outbound (sync_engine cold) ∧
  app_storage booted = Some s' ∧
  match load (base_key graph_id) s', list_keys (delta_prefix graph_id) s' with
  | Err io, _ => r = Err (EStorageIo io) ∧ sync_engine booted = sync_engine cold
  | Ok _, Err io => r = Err (EStorageIo io) ∧ same_doc doc (loro_doc (sync_engine booted)) ∧
      app_graph booted = app_graph cold
  | Ok _, Ok _ => same_doc doc (loro_doc (sync_engine booted)) ∧
      match r with
      | Ok _ => hs_coupled (app_graph booted) ∧
          hydrates doc (map_keys doc ROOT_VERTICES) (hs_abs (app_graph cold)) (hs_abs (app_graph booted)) ∧
          ∀ k v, map_get doc ROOT_VERTICES k ≠ Some (VC_Value v)
      | Err e => hydrate_error doc (map_keys doc ROOT_VERTICES) e
      end
  end.
Proof.
  cbn zeta. assert (Hst : ∃ s, app_storage app = Some s).
  { unfold checkpoint in Hcp. destruct (app_storage app) as [s|]; [by exists s|done]. }
  destruct Hst as [s Hs0]. destruct (checkpoint_cases graph_id app s Hs0 Hm) as (s0&Happ&Hc). rewrite Hcp in Happ, Hc.
  cbn in Happ, Hc. subst app'. cbn in Hs. injection Hs as ->. destruct Hc as (snap&wire&failed&Hx&Hw&Hck&_).
  destruct (import_checkpointed metrics graph_id snap wire (app_compression app) (loro_doc (sync_engine app)) s'
    (sync_engine cold) Hx Hw Hcd Hdel)
    as (e'&doc'&(Hd&Hb&Hi&Ho)&Hsame&Himp). cbn in Hd, Hb, Hi, Ho.
  unfold hydrate. rewrite Hcs, Hcm. unfold load_base, SE_lift, mbind, SE_bind.
  pose proof (load_law (base_key graph_id) s') as Hl. rewrite (cp_base _ _ _ _ _ Hck) in Hl.
  destruct (load (base_key graph_id) s') as [base|io].
  2: { rewrite bool_decide_false by (intros Hnf; by specialize (Hl Hnf)). destruct cold. cbn in *. by subst. }
  injection Hl as <-. rewrite Himp. destruct (list_keys (delta_prefix graph_id) s') as [ks|io]; cbn.
  2: { rewrite Hi, Ho, Hd. unfold app_graph, grafeo_db, maps. cbn. by rewrite Hb. }
  assert (Hg : mkHydrateState (grafeo_db e') (maps e') = app_graph cold) by (unfold app_graph, grafeo_db, maps; by rewrite Hb).
  pose proof (hydrate_engine_cases e') as He. rewrite Hg in He. specialize (He Hcc).
  destruct (hydrate_engine e') as [r e1]. cbn in *. destruct He as (Hd1&Hi1&Ho1&Hr). rewrite Hd1, Hi1, Ho1, Hi, Ho, Hd in *.
  do 3 (split; [done|]). split; [done|]. destruct r as [[]|e].
  - destruct Hr as [Hc1 Hh]. apply (same_doc_hydrates (loro_doc (sync_engine app)) doc') in Hh; [|exact Hsame]. split; [exact Hc1|]. split; [exact Hh|].
    by apply (hydrates_no_value (loro_doc (sync_engine app)) _ _ Hh).
  - destruct Hr as [(k&Hk&He)|?]; [left; exists k|by right].
    rewrite <-(same_doc_keys (loro_doc (sync_engine app)) doc' k Hsame), <-(same_doc_vertex (loro_doc (sync_engine app)) doc' k Hsame). done.
Qed.
End correct.

(** ** A reference document that can be exported *)

(** Its vertices: labels and integer properties. *)
Record SnapDoc : Type := mkSnapDoc { sn_vertices : gmap string (list string * gmap string Z) }.

Definition snap_entity (v : list string * gmap string Z) : VertexEntity :=
  mkVertexEntity v.1 (LP_Integer <$> v.2) "".

Fixpoint bits (p : positive) : list byte :=
  match p with xH => [] | xO p => x00 :: bits p | xI p => x01 :: bits p end.
Fixpoint unbits (l : list byte) : positive :=
  match l with [] => xH | x00 :: l => xO (unbits l) | _ :: l => xI (unbits l) end.
Lemma unbits_bits p : unbits (bits p) = p.
Proof. induction p as [p IH|p IH|]; cbn; by rewrite ?IH. Qed.

#[export] Instance SnapDoc_doc : LoroDoc SnapDoc := {|
  map_get l root key :=
    if decide (root = ROOT_VERTICES) then (λ _, VC_Container) <$> sn_vertices l !! key else None;
  map_insert root key v := λ l, (Err "read-only", l);
  map_delete root key l :=
    if decide (root = ROOT_VERTICES) then mkSnapDoc (delete key (sn_vertices l)) else l;
  loro_set_next_commit_origin o l := l;
  loro_commit l := ([], l)
|}.

#[export] Instance SnapDoc_hydrate : LoroHydrate SnapDoc := {|
  LoroMap := VertexEntity;
  map_keys l root := if decide (root = ROOT_VERTICES) then (map_to_list (sn_vertices l)).*1 else [];
  into_map l root key := snap_entity <$> sn_vertices l !! key;
  hydrate_map m := Ok m
|}.

#[export] Instance SnapDoc_hydrate_laws : LoroHydrateLaws SnapDoc.
Proof.
  split; intros l root; cbn; intros *; destruct (decide (root = ROOT_VERTICES)).
  - apply NoDup_fst_map_to_list.
  - constructor.
  - rewrite list_elem_of_fmap, fmap_is_Some. split.
    + intros ([k' v]&->&Hel%elem_of_map_to_list). by eexists.
    + intros [v Hv]. exists (k, v). by rewrite elem_of_map_to_list.
  - split; [by intros ?%elem_of_nil|by intros []].
Qed.

#[export] Instance SnapDoc_snapshot : LoroSnapshot SnapDoc := {|
  doc_new := mkSnapDoc ∅;
  Frontiers := unit;
  oplog_frontiers _ := tt;
  export_shallow_snapshot _ l := Ok (bits (encode (sn_vertices l)));
  import_with b origin l :=
    match decode (unbits b) with
    | Some vs => (Ok false, [mkDiffEvent origin []], mkSnapDoc (vs ∪ sn_vertices l))
    | None => (Err "decode error", [], l)
    end
|}.

#[export] Instance SnapDoc_snapshot_laws : LoroSnapshotLaws SnapDoc.
Proof.
  split.
  - intros l b origin [= <-]. cbn [import_with SnapDoc_snapshot]. rewrite unbits_bits, decode_encode.
    split; [done|]. cbn. rewrite (right_id_L ∅ _). by destruct l.
  - intros b origin l. cbn. destruct (decode _); repeat constructor.
Qed.

#[export] Instance MemDb_open : GrafeoOpen MemDb := {|
  with_config_persistent _ := Err "no such directory";
  new_in_memory := memdb_new
|}.

Section sample.
  #[local] Existing Instance stored_codecs.
  #[local] Existing Instance stored_codecs_laws.

(** An application over in-memory storage that already holds a delta of its
    graph and a snapshot of another one. *)
Definition sample_storage : gmap string bytes :=
  <["g/delta-1.loro" := [x01]]> (<["h/base.loro" := [x02]]> ∅).

Definition sample_builder (c : CompressionType) (s : gmap string bytes) : GrafeoLoroAppBuilder (gmap string bytes) :=
  mkBuilder (Some s) SsotMode_Loro c Lz4 100 256 None.

Definition sample_doc : SnapDoc := mkSnapDoc {["a" := (["L"], {["p" := 1%Z]}); "b" := ([], ∅)]}.

Definition app_with (doc : SnapDoc) (c : CompressionType) (s : gmap string bytes) : GrafeoLoroApp MemDb SnapDoc (gmap string bytes) :=
  mkApp (SyncEngine_new memdb_new doc) (mkBatcherConfig 256 100 true true) SsotMode_Loro (Some s) c.

Definition sample_app : GrafeoLoroApp MemDb SnapDoc (gmap string bytes) := app_with sample_doc Zstd sample_storage.
Definition saved : gmap string bytes := default ∅ (app_storage (checkpoint "g" sample_app).2).
Definition cold_app : GrafeoLoroApp MemDb SnapDoc (gmap string bytes) := app_with doc_new Lz4 saved.

Example checkpoint_keeps_other_graphs :
  (checkpoint "g" sample_app).1 = Ok tt ∧ saved !! "h/base.loro" = Some [x02] ∧
  saved !! "g/delta-1.loro" = None ∧ is_Some (saved !! "g/base.loro").
Proof. vm_compute. split; [done|]. split; [done|]. split; [done|]. by eexists. Qed.

(** Graph identifiers may contain the separator: the base snapshot of the graph
    ["g/delta-1"] has the delta prefix of the graph ["g"], whose checkpoint
    deletes it. *)
Example checkpoint_deletes_another_base :
  let s := default ∅ (app_storage (checkpoint "g/delta-1" sample_app).2) in
  let s' := default ∅ (app_storage (checkpoint "g" (app_with sample_doc Zstd s)).2) in
  is_Some (s !! base_key "g/delta-1") ∧ s' !! base_key "g/delta-1" = None.
Proof. vm_compute. split; [by eexists|done]. Qed.

Lemma checkpoint_correct_witness :
  ∃ snap wire failed s', export_shallow_snapshot tt sample_doc = Ok snap ∧
    CompressedPayload_compress_to_wire snap Zstd = Ok wire ∧
    checkpointed "g" wire failed sample_storage s' ∧ load "h/base.loro" s' = Ok [x02].
Proof.
  pose proof (checkpoint_correct "g" sample_app) as H.
  assert (Hcp : (checkpoint "g" sample_app).1 = Ok tt) by (vm_compute; reflexivity).
  cbn [app_storage app_ssot_mode sample_app app_with] in H. cbv zeta in H.
  destruct H as (s'&_&H). rewrite Hcp in H.
  destruct H as (snap&wire&failed&Hx&Hw&Hck&_). exists snap, wire, failed, s'.
  split; [exact Hx|]. split; [exact Hw|]. split; [exact Hck|].
  pose proof (cp_others _ _ _ _ _ Hck "h/base.loro" ltac:(discriminate) eq_refl) as Ho. cbn in Ho |- *.
  unfold InMemoryStorage_load. by rewrite Ho.
Defined.

Lemma checkpoint_hydrate_roundtrip_witness :
  let '(r, booted) := hydrate true "g" cold_app in
  r = Ok tt ∧ same_doc sample_doc (loro_doc (sync_engine booted)) ∧
  inbound (sync_engine booted) = inbound (sync_engine cold_app).
Proof.
  assert (Hcp : checkpoint "g" sample_app = (Ok tt, (checkpoint "g" sample_app).2)) by (vm_compute; reflexivity).
  assert (Hst : app_storage (checkpoint "g" sample_app).2 = Some saved) by (vm_compute; reflexivity).
  assert (Hdel : ∀ k, String.prefix (delta_prefix "g") k = true → contents saved !! k = None).
  { intros k Hp. destruct (contents saved !! k) as [v|] eqn:Hk; [|done]. exfalso. revert Hp.
    assert (Hall : Forall (λ kv, String.prefix (delta_prefix "g") kv.1 = false) (map_to_list (contents saved)))
      by (vm_compute; repeat constructor).
    rewrite Forall_forall in Hall. apply elem_of_map_to_list, Hall in Hk. cbn [fst] in Hk. by rewrite Hk. }
  pose proof (checkpoint_hydrate_roundtrip true "g" sample_app _ cold_app saved eq_refl Hcp Hst Hdel
    eq_refl eq_refl eq_refl cold_coupled) as H.
  assert (Hok : (hydrate true "g" cold_app).1 = Ok tt) by (vm_compute; reflexivity).
  assert (Hl : is_ok (load (base_key "g") saved) = true) by (vm_compute; reflexivity).
  assert (Hk : is_ok (list_keys (delta_prefix "g") saved) = true) by (vm_compute; reflexivity).
  cbv zeta in H. revert H Hok. destruct (hydrate true "g" cold_app) as [r booted]. cbn [fst].
  intros (Hi&_&_&Hd) Hr. split; [exact Hr|].
  destruct (load (base_key "g") saved); [|discriminate Hl]. destruct (list_keys (delta_prefix "g") saved); [|discriminate Hk].
  split; [apply Hd|exact Hi].
Defined.

(** A backend whose listings fail: the error of the checkpoint comes after the
    save. *)
Record NoList : Type := mkNoList { nl_inner : gmap string bytes }.

#[local] Instance NoList_backend : StorageBackend NoList := {|
  load k b := InMemoryStorage_load k (nl_inner b);
  save k v b := (Ok tt, mkNoList (<[k := v]> (nl_inner b)));
  list_keys p b := Err (mkIoError NotFound "no listing");
  delete_key k b := (Ok tt, mkNoList (delete k (nl_inner b)))
|}.

#[local, refine] Instance NoList_laws : StorageLaws NoList := {| contents := nl_inner |}.
Proof.
  - intros k b. exact (load_law (B := gmap string bytes) k (nl_inner b)).
  - intros k v b. exact (save_law (B := gmap string bytes) k v (nl_inner b)).
  - intros k b. exact (delete_law (B := gmap string bytes) k (nl_inner b)).
  - intros p b ks. discriminate.
Defined.

Example failed_checkpoint_saves :
  let app := mkApp (SyncEngine_new memdb_new sample_doc) (mkBatcherConfig 256 100 true true) SsotMode_Loro
    (Some (mkNoList ∅)) Zstd : GrafeoLoroApp MemDb SnapDoc NoList in
  is_ok (checkpoint "g" app).1 = false ∧
  is_Some (option_map nl_inner (app_storage (checkpoint "g" app).2) ≫= λ m, m !! base_key "g").
Proof. vm_compute. split; [done|by eexists]. Qed.
End sample.
