(* ===== verification/AppRuntime.v ===== *)
(** * The running application ([src/app.rs], constructors of [src/bridge/sync_engine.rs])

    The setters of the builder, the constructors of the application and of the
    engine, the handles an application carries besides the engine, its accessors,
    and its shutdown over the tasks of [Lifecycle.v].  An [Arc] handle is a value
    of an abstract type; the engine, which the tasks share, is the one of the
    runtime. *)

From S2P Require Import Prelude Types Values BridgeMaps GrafeoTx GraphSpec EdgeKeys Translate MemGraph Batcher BatcherSpec SyncEngine EngineSpec Lifecycle Storage Compression Hydration App.

(** [M], [P] and [T]: handles of the metrics registry, the health probe and the
    tracer. *)
Record FullBuilder (B M P T : Type) : Type := mkFullBuilder {
  fb_core : GrafeoLoroAppBuilder B;
  fb_metrics : option M;
  fb_health : option P;
  fb_tracer : option T
}.
Arguments mkFullBuilder {B M P T}.
Arguments fb_core {B M P T}.
Arguments fb_metrics {B M P T}.
Arguments fb_health {B M P T}.
Arguments fb_tracer {B M P T}.

(** [AppTelemetryConfig], and the fields of [GrafeoLoroApp] but the engine. *)
Record AppTelemetryConfig (B M P T : Type) : Type := mkAppConfig {
  ac_ssot_mode : SsotMode;
  ac_storage : option B;
  ac_compression : CompressionType;
  ac_metrics : option M;
  ac_health : option P;
  ac_tracer : option T;
  ac_worker_handles : option (list Task)
}.
Arguments mkAppConfig {B M P T}.
Arguments ac_ssot_mode {B M P T}.
Arguments ac_storage {B M P T}.
Arguments ac_compression {B M P T}.
Arguments ac_metrics {B M P T}.
Arguments ac_health {B M P T}.
Arguments ac_tracer {B M P T}.
Arguments ac_worker_handles {B M P T}.

(** The application and the tasks it shares its engine with; before [spawn_all]
    no task is ever polled. *)
Record RunningApp (D L B M P T : Type) : Type := mkRunning {
  ra_fields : AppTelemetryConfig B M P T;
  ra_batch : BatcherConfig;
  ra_runtime : Runtime D L
}.
Arguments mkRunning {D L B M P T}.
Arguments ra_fields {D L B M P T}.
Arguments ra_batch {D L B M P T}.
Arguments ra_runtime {D L B M P T}.

(** [subscribe_root] registers a callback on the document. *)
Class LoroSubscribe (L W : Type) : Type := {
  Subscription : Type;
  subscribe_root : (DiffEvent → W → W) → L → Subscription * L
}.

(** ** The setters *)

Section setters.
  Context {B M P T : Type}.
  Notation FB := (FullBuilder B M P T).
  Implicit Types b : FB.

Definition builder : FB := mkFullBuilder GrafeoLoroAppBuilder_default None None None.

Definition with_core (c : GrafeoLoroAppBuilder B) b : FB :=
  mkFullBuilder c (fb_metrics b) (fb_health b) (fb_tracer b).

Definition set_storage_slot (s : B) b : FB :=
  let c := fb_core b in
  with_core (mkBuilder (Some s) (b_ssot_mode c) (b_compression c) (b_sync_compression c)
    (b_batch_interval_ms c) (b_batch_max_size c) (b_grafeo_dir c)) b.
Definition set_ssot_mode (mode : SsotMode) b : FB :=
  let c := fb_core b in
  with_core (mkBuilder (b_storage c) mode (b_compression c) (b_sync_compression c)
    (b_batch_interval_ms c) (b_batch_max_size c) (b_grafeo_dir c)) b.
Definition set_compression (comp : CompressionType) b : FB :=
  let c := fb_core b in
  with_core (mkBuilder (b_storage c) (b_ssot_mode c) comp (b_sync_compression c)
    (b_batch_interval_ms c) (b_batch_max_size c) (b_grafeo_dir c)) b.
Definition set_sync_compression (comp : CompressionType) b : FB :=
  let c := fb_core b in
  with_core (mkBuilder (b_storage c) (b_ssot_mode c) (b_compression c) comp
    (b_batch_interval_ms c) (b_batch_max_size c) (b_grafeo_dir c)) b.
Definition set_batch_interval_ms (ms : Z) b : FB :=
  let c := fb_core b in
  with_core (mkBuilder (b_storage c) (b_ssot_mode c) (b_compression c) (b_sync_compression c)
    ms (b_batch_max_size c) (b_grafeo_dir c)) b.
Definition set_batch_max_size (size : Z) b : FB :=
  let c := fb_core b in
  with_core (mkBuilder (b_storage c) (b_ssot_mode c) (b_compression c) (b_sync_compression c)
    (b_batch_interval_ms c) size (b_grafeo_dir c)) b.
Definition set_grafeo_dir (path : string) b : FB :=
  let c := fb_core b in
  with_core (mkBuilder (b_storage c) (b_ssot_mode c) (b_compression c) (b_sync_compression c)
    (b_batch_interval_ms c) (b_batch_max_size c) (Some path)) b.
Definition with_metrics (m : M) b : FB := mkFullBuilder (fb_core b) (Some m) (fb_health b) (fb_tracer b).
Definition with_health (p : P) b : FB := mkFullBuilder (fb_core b) (fb_metrics b) (Some p) (fb_tracer b).
Definition with_tracer (t : T) b : FB := mkFullBuilder (fb_core b) (fb_metrics b) (fb_health b) (Some t).

(** A chain of setter calls. *)
Inductive BuilderCall : Type :=
| CStorage (s : B) | CSsotMode (m : SsotMode) | CCompression (c : CompressionType)
| CSyncCompression (c : CompressionType) | CBatchIntervalMs (ms : Z) | CBatchMaxSize (n : Z)
| CGrafeoDir (p : string) | CMetrics (m : M) | CHealth (p : P) | CTracer (t : T).

Definition builder_call b (c : BuilderCall) : FB :=
  match c with
  | CStorage s => set_storage_slot s b
  | CSsotMode m => set_ssot_mode m b
  | CCompression c => set_compression c b
  | CSyncCompression c => set_sync_compression c b
  | CBatchIntervalMs ms => set_batch_interval_ms ms b
  | CBatchMaxSize n => set_batch_max_size n b
  | CGrafeoDir p => set_grafeo_dir p b
  | CMetrics m => with_metrics m b
  | CHealth p => with_health p b
  | CTracer t => with_tracer t b
  end.

Definition configured (cs : list BuilderCall) : FB := foldl builder_call builder cs.
End setters.
Arguments BuilderCall : clear implicits.

(** ** Constructors *)

Section runtime.
  Context {D S L B M P T : Type} `{GrafeoSession S, !GrafeoDB D S, !GrafeoOpen D, !LoroDoc L, !LoroHydrate L,
    !LoroSnapshot L, !StorageBackend B}.
  Notation E := (SyncEngine D L).
  Notation RA := (RunningApp D L B M P T).
  Implicit Types a : RA.

(** [SyncEngine::new], [with_batch_config] and [with_telemetry]: the engine and
    the configuration of its batcher. *)
Definition SyncEngine_with_telemetry (db : D) (doc : L) (batch_size batch_ms : Z)
    (metrics : option M) (health : option P) : E * BatcherConfig :=
  (SyncEngine_new db doc,
   mkBatcherConfig batch_size batch_ms (bool_decide (is_Some metrics)) (bool_decide (is_Some health))).
Definition SyncEngine_with_batch_config (db : D) (doc : L) (batch_size batch_ms : Z) : E * BatcherConfig :=
  SyncEngine_with_telemetry db doc batch_size batch_ms None None.
Definition SyncEngine_default (db : D) (doc : L) : E * BatcherConfig :=
  SyncEngine_with_batch_config db doc DEFAULT_BATCH_SIZE DEFAULT_BATCH_MS.

Definition from_sync_engine_with_telemetry (rt : Runtime D L) (cfg : BatcherConfig)
    (config : AppTelemetryConfig B M P T) : RA := mkRunning config cfg rt.

Definition from_sync_engine_with_config (rt : Runtime D L) (cfg : BatcherConfig) (ssot_mode : SsotMode)
    (storage : option B) (compression : CompressionType) : RA :=
  mkRunning (mkAppConfig ssot_mode storage compression None None None None) cfg rt.

Definition from_sync_engine (rt : Runtime D L) (cfg : BatcherConfig) : RA :=
  from_sync_engine_with_config rt cfg SsotMode_default None CompressionType_default.

(** The handles [spawn_all] returns, in its order. *)
Definition worker_tasks : list Task := [TInbound; TOutbound; TPoller].

(** [build] with its telemetry: a slot that was not set gets a handle made from
    the global provider, or from the new document and database. *)
Definition build_running (new_metrics : M) (new_tracer : T) (new_health : L → D → P)
    (b : FullBuilder B M P T) : Result RA :=
  let c := fb_core b in
  if (b_batch_interval_ms c =? 0)%Z then Err (EConfig "batch_interval_ms must be > 0")
  else if (b_batch_max_size c =? 0)%Z then Err (EConfig "batch_max_size must be > 0")
  else
    storage ← ok_or (b_storage c) (EConfig "storage backend not set");
    if bool_decide (b_ssot_mode c = SsotMode_Grafeo) && bool_decide (b_grafeo_dir c = None)
    then Err (EConfig "grafeo_dir required for SsotMode::Grafeo")
    else
      db ← match b_grafeo_dir c with
           | Some p => map_err EGrafeo (with_config_persistent p)
           | None => Ok new_in_memory
           end;
      let metrics := Some (default new_metrics (fb_metrics b)) in
      let tracer := Some (default new_tracer (fb_tracer b)) in
      let health := Some (default (new_health doc_new db) (fb_health b)) in
      let '(engine, cfg) :=
        SyncEngine_with_telemetry db doc_new (b_batch_max_size c) (b_batch_interval_ms c) metrics health in
      Ok (from_sync_engine_with_telemetry (spawn_all engine) cfg
            (mkAppConfig (b_ssot_mode c) (Some storage) (b_compression c) metrics health tracer
               (Some worker_tasks))).

(** ** Accessors *)

Definition app_engine a : E := rt_engine (ra_runtime a).
Definition app_maps a : BridgeMaps := maps (app_engine a).
Definition app_bridge_maps a : BridgeMaps := maps (app_engine a).
Definition app_grafeo_db a : D := grafeo_db (app_engine a).
Definition app_loro_doc a : L := loro_doc (app_engine a).
Definition app_doc a : L := loro_doc (app_engine a).
Definition ssot_mode a : SsotMode := ac_ssot_mode (ra_fields a).
Definition compression_of a : CompressionType := ac_compression (ra_fields a).
Definition metrics_of a : option M := ac_metrics (ra_fields a).
Definition health_of a : option P := ac_health (ra_fields a).
Definition tracer_of a : option T := ac_tracer (ra_fields a).
Definition worker_handles a : option (list Task) := ac_worker_handles (ra_fields a).

Definition subscribe {W : Type} `{!LoroSubscribe L W} (handler : DiffEvent → W → W) a :
    Subscription * RA :=
  let '(sub, doc) := subscribe_root handler (app_loro_doc a) in
  (sub, mkRunning (ra_fields a) (ra_batch a) (set_eng (set_doc doc (app_engine a)) (ra_runtime a))).

(** The application [checkpoint] and [hydrate] of [App.v] act on. *)
Definition app_view a : GrafeoLoroApp D L B :=
  mkApp (app_engine a) (ra_batch a) (ssot_mode a) (ac_storage (ra_fields a)) (compression_of a).

(** ** [shutdown] *)

(** The broadcast; the future then awaits the handles one after the other. *)
Definition app_shutdown a : RA := mkRunning (ra_fields a) (ra_batch a) (rt_shutdown (ra_runtime a)).

Definition task_done (t : Task) (rt : Runtime D L) : bool :=
  match t with
  | TInbound => match rt_inbound rt with InDone => true | _ => false end
  | TOutbound => match rt_outbound rt with OutDone => true | _ => false end
  | TPoller => match rt_poller rt with PollDone => true | _ => false end
  | TBatcher => match batcher_status (rt_engine rt) with Finished _ => true | Running => false end
  | TFlush => match mb_flight (batcher (rt_engine rt)) with
              | Some fl => thread_fuel (fl_task fl) =? 0
              | None => true
              end
  end.

(** Whether the loop over the handles has come to its end: [Ok(())]. *)
Definition shutdown_returns a : bool := forallb (λ t, task_done t (ra_runtime a)) (default [] (worker_handles a)).

(** The loop waits for what [Lifecycle.joined] says, or for nothing. *)
Lemma shutdown_returns_joined a :
  worker_handles a = Some worker_tasks → shutdown_returns a = joined (ra_runtime a).
Proof.
  unfold shutdown_returns, joined. intros ->. cbn.
  by destruct (rt_inbound _), (rt_outbound _), (rt_poller _).
Qed.
End runtime.

(** ** What a chain of setters builds *)

Section exact.
  Context {D S L B M P T : Type} `{GrafeoSession S, !GrafeoDB D S, !GrafeoOpen D, !LoroDoc L, !LoroHydrate L,
    !LoroSnapshot L, !StorageBackend B}.
  Notation FB := (FullBuilder B M P T).
  Notation Call := (BuilderCall B M P T).
  Implicit Types cs : list Call.

(** The value each call gives to each slot. *)
Definition of_storage (c : Call) : option B := match c with CStorage s => Some s | _ => None end.
Definition of_ssot_mode (c : Call) : option SsotMode := match c with CSsotMode m => Some m | _ => None end.
Definition of_compression (c : Call) : option CompressionType :=
  match c with CCompression x => Some x | _ => None end.
Definition of_interval (c : Call) : option Z := match c with CBatchIntervalMs n => Some n | _ => None end.
Definition of_size (c : Call) : option Z := match c with CBatchMaxSize n => Some n | _ => None end.
Definition of_dir (c : Call) : option string := match c with CGrafeoDir p => Some p | _ => None end.
Definition of_metrics (c : Call) : option M := match c with CMetrics m => Some m | _ => None end.
Definition of_health (c : Call) : option P := match c with CHealth p => Some p | _ => None end.
Definition of_tracer (c : Call) : option T := match c with CTracer t => Some t | _ => None end.
Definition is_sync_compression (c : Call) : bool := match c with CSyncCompression _ => true | _ => false end.

(** The value the last call gave to a slot. *)
Definition chosen {X} (slot : Call → option X) cs : option X := last (omap slot cs).

Lemma slot_last {X} (get : FB → X) (slot : Call → option X) cs b :
  (∀ c b, get (builder_call b c) = default (get b) (slot c)) →
  get (foldl builder_call b cs) = default (get b) (chosen slot cs).
Proof.
  intros Hget. unfold chosen. induction cs as [|c cs IH] using rev_ind; [done|].
  rewrite foldl_app, omap_app. cbn. rewrite Hget, IH. destruct (slot c); cbn; [by rewrite last_snoc|].
  by rewrite app_nil_r.
Qed.

Lemma slot_last_option {X} (get : FB → option X) (slot : Call → option X) cs :
  (∀ c b, get (builder_call b c) = match slot c with Some x => Some x | None => get b end) →
  get builder = None → get (configured cs) = chosen slot cs.
Proof.
  intros Hget Hnone. unfold configured, chosen. induction cs as [|c cs IH] using rev_ind; [done|].
  rewrite foldl_app, omap_app. cbn. rewrite Hget, IH. destruct (slot c); cbn; [by rewrite last_snoc|].
  by rewrite app_nil_r.
Qed.

Definition core_slots (b : FB) :=
  let c := fb_core b in
  (b_storage c, b_ssot_mode c, b_compression c, b_batch_interval_ms c, b_batch_max_size c, b_grafeo_dir c,
   fb_metrics b, fb_health b, fb_tracer b).

Lemma configured_slots cs :
  core_slots (configured cs) =
    (chosen of_storage cs, default SsotMode_default (chosen of_ssot_mode cs),
     default CompressionType_default (chosen of_compression cs),
     default DEFAULT_BATCH_MS (chosen of_interval cs), default DEFAULT_BATCH_SIZE (chosen of_size cs),
     chosen of_dir cs, chosen of_metrics cs, chosen of_health cs, chosen of_tracer cs).
Proof.
  assert (Hs : b_storage (fb_core (configured cs)) = chosen of_storage cs)
    by (apply (slot_last_option (λ b, b_storage (fb_core b))); [by intros [] ?|done]).
  assert (Hd : b_grafeo_dir (fb_core (configured cs)) = chosen of_dir cs)
    by (apply (slot_last_option (λ b, b_grafeo_dir (fb_core b))); [by intros [] ?|done]).
  assert (Hm : fb_metrics (configured cs) = chosen of_metrics cs)
    by (apply (slot_last_option fb_metrics); [by intros [] ?|done]).
  assert (Hh : fb_health (configured cs) = chosen of_health cs)
    by (apply (slot_last_option fb_health); [by intros [] ?|done]).
  assert (Ht : fb_tracer (configured cs) = chosen of_tracer cs)
    by (apply (slot_last_option fb_tracer); [by intros [] ?|done]).
  unfold core_slots. cbn zeta. rewrite Hs, Hd, Hm, Hh, Ht. repeat f_equal.
  - apply (slot_last (λ b, b_ssot_mode (fb_core b)) of_ssot_mode). by intros [] ?.
  - apply (slot_last (λ b, b_compression (fb_core b)) of_compression). by intros [] ?.
  - apply (slot_last (λ b, b_batch_interval_ms (fb_core b)) of_interval). by intros [] ?.
  - apply (slot_last (λ b, b_batch_max_size (fb_core b)) of_size). by intros [] ?.
Qed.

(** The first check that fails. *)
Definition config_error cs : option GrafeoLoroError :=
  if bool_decide (default DEFAULT_BATCH_MS (chosen of_interval cs) = 0%Z)
  then Some (EConfig "batch_interval_ms must be > 0")
  else if bool_decide (default DEFAULT_BATCH_SIZE (chosen of_size cs) = 0%Z)
  then Some (EConfig "batch_max_size must be > 0")
  else if bool_decide (chosen of_storage cs = None) then Some (EConfig "storage backend not set")
  else if bool_decide (chosen of_ssot_mode cs = Some SsotMode_Grafeo ∧ chosen of_dir cs = None)
  then Some (EConfig "grafeo_dir required for SsotMode::Grafeo")
  else None.

(** C29: whatever setters were called, in whatever order and however often, the
    builder refuses with the first of its four checks that the last values given
    to the slots fail, or with the error of opening the directory; otherwise the
    application has exactly those values, the defaults where a slot was never
    set, telemetry in every slot, the three worker handles of freshly spawned
    tasks, and the batcher runs with the configured size and interval.  The
    compression of sync packets changes nothing. *)
Theorem builder_exact (new_metrics : M) (new_tracer : T) (new_health : L → D → P) (cs : list Call) :
  let built := build_running new_metrics new_tracer new_health (configured cs) in
  built = build_running new_metrics new_tracer new_health
            (configured (filter (λ c, is_sync_compression c = false) cs)) ∧
  match config_error cs, match chosen of_dir cs with
                         | Some p => map_err EGrafeo (with_config_persistent p)
                         | None => Ok (new_in_memory : D)
                         end with
  | Some e, _ => built = Err e
  | None, Err e => built = Err e
  | None, Ok db => ∃ a, built = Ok a ∧ ac_storage (ra_fields a) = chosen of_storage cs ∧
      ssot_mode a = default SsotMode_default (chosen of_ssot_mode cs) ∧
      compression_of a = default CompressionType_default (chosen of_compression cs) ∧
      metrics_of a = Some (default new_metrics (chosen of_metrics cs)) ∧
      tracer_of a = Some (default new_tracer (chosen of_tracer cs)) ∧
      health_of a = Some (default (new_health doc_new db) (chosen of_health cs)) ∧
      worker_handles a = Some worker_tasks ∧ ra_runtime a = spawn_all (SyncEngine_new db doc_new) ∧
      ra_batch a = mkBatcherConfig (default DEFAULT_BATCH_SIZE (chosen of_size cs))
                     (default DEFAULT_BATCH_MS (chosen of_interval cs)) true true
  end.
Proof.
  assert (Hdep : ∀ b1 b2 : FB, core_slots b1 = core_slots b2 →
    build_running new_metrics new_tracer new_health b1 = build_running new_metrics new_tracer new_health b2).
  { intros b1 b2 [= H1 H2 H3 H4 H5 H6 H7 H8 H9]. unfold build_running.
    by rewrite H1, H2, H3, H4, H5, H6, H7, H8, H9. }
  split.
  - apply Hdep. rewrite !configured_slots.
    assert (Hf : ∀ X (slot : Call → option X), (∀ c, is_sync_compression c = true → slot c = None) →
      chosen slot (filter (λ c, is_sync_compression c = false) cs) = chosen slot cs).
    { intros X slot Hslot. unfold chosen. f_equal. induction cs as [|c cs' IH]; [done|].
      rewrite filter_cons. cbn. case_decide as Hc; cbn; [by rewrite IH|].
      by rewrite Hslot by (by destruct (is_sync_compression c)). }
    by rewrite !Hf by (by intros []).
  - pose proof (configured_slots cs) as Hslots. unfold core_slots in Hslots. cbn zeta in Hslots.
    injection Hslots as H1 H2 H3 H4 H5 H6 H7 H8 H9. unfold build_running, config_error.
    cbn zeta. rewrite H1, H2, H3, H4, H5, H6, H7, H8, H9.
    set (ms := default DEFAULT_BATCH_MS _). set (n := default DEFAULT_BATCH_SIZE _).
    destruct (Z.eqb_spec ms 0); [by rewrite bool_decide_eq_true_2|].
    rewrite (bool_decide_eq_false_2 (ms = 0%Z)) by done.
    destruct (Z.eqb_spec n 0); [by rewrite bool_decide_eq_true_2|].
    rewrite (bool_decide_eq_false_2 (n = 0%Z)) by done.
    destruct (chosen of_storage cs) as [s|]; cbn; [|done].
    destruct (chosen of_ssot_mode cs) as [[]|], (chosen of_dir cs) as [p|]; cbn; try done;
      try (destruct (with_config_persistent p) as [db|e]; cbn; [|done]); by eexists.
Qed.
End exact.
