(* ===== verification/Shadow.v ===== *)
(** * Shadow commits ([src/shadow/mod.rs])

    The per-writer undo stacks: commits named by a 256-bit digest, the tip of
    each writer, history, and resetting a tip.  The digest is computed with the
    standard library's [DefaultHasher], which is SipHash-1-3. *)

From S2P Require Import Prelude.

Notation bytes := (list byte) (only parsing).

#[export] Instance byte_countable : Countable byte :=
  inj_countable' Z_of_byte byte_of_Z byte_of_Z_of_byte.

(** ** [DefaultHasher]

    SipHash with one compression and three finalisation rounds under the zero
    key, on the concatenation of the bytes the [Hash] implementations write
    (the target's [usize] has 64 bits). *)

Definition rotl (x n : Z) : Z := u64_wrap (Z.lor (Z.shiftl x n) (Z.shiftr x (64 - n))).

Definition SipState : Type := Z * Z * Z * Z.

Definition sip_round (st : SipState) : SipState :=
  let '(v0, v1, v2, v3) := st in
  let v0 := u64_add v0 v1 in let v2 := u64_add v2 v3 in
  let v1 := Z.lxor (rotl v1 13) v0 in let v3 := Z.lxor (rotl v3 16) v2 in
  let v0 := rotl v0 32 in
  let v2 := u64_add v2 v1 in let v0 := u64_add v0 v3 in
  let v1 := Z.lxor (rotl v1 17) v2 in let v3 := Z.lxor (rotl v3 21) v0 in
  let v2 := rotl v2 32 in
  (v0, v1, v2, v3).

Definition sip_init (k0 k1 : Z) : SipState :=
  (Z.lxor k0 0x736f6d6570736575, Z.lxor k1 0x646f72616e646f6d,
   Z.lxor k0 0x6c7967656e657261, Z.lxor k1 0x7465646279746573).

Definition sip_word (st : SipState) (m : Z) : SipState :=
  let '(v0, v1, v2, v3) := st in
  let '(v0, v1, v2, v3) := sip_round (v0, v1, v2, Z.lxor v3 m) in
  (Z.lxor v0 m, v1, v2, v3).

(** Whole words, then the last one: the remaining bytes with the length on top. *)
Fixpoint sip_words (fuel : nat) (st : SipState) (len : Z) (l : bytes) : SipState :=
  match fuel with
  | 0 => st
  | S fuel =>
      if decide (length l < 8)
      then sip_word st (Z.lor (from_le_bytes l) (Z.shiftl (len mod 256) 56))
      else sip_words fuel (sip_word st (from_le_bytes (take 8 l))) len (drop 8 l)
  end.

Definition siphash13 (k0 k1 : Z) (l : bytes) : Z :=
  let '(v0, v1, v2, v3) := sip_words (S (length l)) (sip_init k0 k1) (Z.of_nat (length l)) l in
  let '(v0, v1, v2, v3) := sip_round (sip_round (sip_round (v0, v1, Z.lxor v2 0xff, v3))) in
  Z.lxor (Z.lxor v0 v1) (Z.lxor v2 v3).

Definition DefaultHasher_finish (written : bytes) : Z := siphash13 0 0 written.

(** What [hash] writes for a [u64], a [str], a byte slice and a slice of ids. *)
Definition hash_u64 (n : Z) : bytes := to_le_bytes 8 n.
Definition hash_str (s : string) : bytes := string_bytes s ++ [xff].
Definition hash_bytes (b : bytes) : bytes := to_le_bytes 8 (Z.of_nat (length b)) ++ b.
Definition hash_ids (ids : list bytes) : bytes :=
  to_le_bytes 8 (Z.of_nat (length ids)) ++ concat (hash_bytes <$> ids).

(** ** Commits *)

Notation CommitId := (list byte) (only parsing).

Record ShadowCommit : Type := mkShadowCommit {
  sc_id : CommitId;
  sc_parents : list CommitId;
  sc_peer_id : string;
  sc_timestamp_ms : Z;
  sc_state_vector : bytes
}.

#[export] Instance ShadowCommit_eq_dec : EqDecision ShadowCommit.
Proof. solve_decision. Defined.

Inductive ShadowError : Type :=
| CommitNotFound (commit_id : CommitId)
| NotInPeerHistory (commit_id : CommitId) (peer_id : string).

(** The hash as 64 lowercase hexadecimal digits. *)
Definition hex_32 (id : CommitId) : string :=
  foldr (λ b s, hex_digit (Z.shiftr (Z_of_byte b) 4) +:+ hex_digit (Z.land (Z_of_byte b) 0x0f) +:+ s) "" id.

Definition ShadowError_to_string (e : ShadowError) : string :=
  match e with
  | CommitNotFound commit_id => "commit not found: " +:+ hex_32 commit_id
  | NotInPeerHistory commit_id peer_id =>
      "commit " +:+ hex_32 commit_id +:+ " is not in peer " +:+ peer_id +:+ "'s history"
  end.

Definition salts : list Z :=
  [0x51736861646f7753; 0x6861646f77533147; 0x646f775332476861; 0x6f77533347686164]%Z.

(** What one lane writes to its hasher. *)
Definition lane_input (salt : Z) (peer_id : string) (parents : list CommitId) (timestamp_ms : Z)
    (state_vector : bytes) : bytes :=
  hash_u64 salt ++ hash_str peer_id ++ hash_ids parents ++ hash_u64 timestamp_ms ++ hash_bytes state_vector.

(** The four lanes, little-endian, one after the other. *)
Definition hash_commit (peer_id : string) (parents : list CommitId) (timestamp_ms : Z)
    (state_vector : bytes) : CommitId :=
  salts ≫= λ salt,
    to_le_bytes 8 (DefaultHasher_finish (lane_input salt peer_id parents timestamp_ms state_vector)).

#[global] Arguments hash_commit : simpl never.

(** The rendering of a hash names it. *)
Lemma hex_32_inj (a b : CommitId) : length a = length b → hex_32 a = hex_32 b → a = b.
Proof.
  assert (Hone : ∀ n, ∃ c, hex_digit n = String c "").
  { intros n. unfold hex_digit. repeat case_match; by eexists. }
  assert (nibble : ∀ z, (0 ≤ z < 256)%Z → (0 ≤ z / 16 < 16)%Z ∧ (0 ≤ z mod 16 < 16)%Z).
  { intros z Hz. pose proof (Z.mod_pos_bound z 16). split; [split|lia];
      [apply Z.div_pos|apply Z.div_lt_upper_bound]; lia. }
  revert b. induction a as [|x a IH]; intros [|y b] Hlen; cbn in Hlen; simplify_eq; [done|].
  unfold hex_32. cbn [foldr]. fold (hex_32 a) (hex_32 b). intros He.
  assert (Hx := Z_of_byte_range x). assert (Hy := Z_of_byte_range y).
  change 15%Z with (Z.ones 4) in He. rewrite !Z.land_ones, !Z.shiftr_div_pow2 in He by lia.
  change (2 ^ 4)%Z with 16%Z in He.
  destruct (Hone (Z_of_byte x / 16)%Z) as [c1 H1], (Hone (Z_of_byte y / 16)%Z) as [c2 H2],
    (Hone (Z_of_byte x mod 16)%Z) as [c3 H3], (Hone (Z_of_byte y mod 16)%Z) as [c4 H4].
  rewrite H1, H2, H3, H4 in He. cbn in He. injection He as -> -> He.
  assert (Hd : (Z_of_byte x / 16 = Z_of_byte y / 16)%Z) by (apply hex_digit_inj; [by apply nibble..|congruence]).
  assert (Hm : (Z_of_byte x mod 16 = Z_of_byte y mod 16)%Z) by (apply hex_digit_inj; [by apply nibble..|congruence]).
  f_equal; [|by apply IH; [lia|]].
  rewrite <-(byte_of_Z_of_byte x), <-(byte_of_Z_of_byte y). f_equal.
  rewrite (Z.div_mod (Z_of_byte x) 16), (Z.div_mod (Z_of_byte y) 16) by lia. by rewrite Hd, Hm.
Qed.

(** ** The store *)

Record ShadowRefStore : Type := mkShadowRefStore {
  refs : gmap string CommitId;
  commits : gmap CommitId ShadowCommit
}.

Definition ShadowRefStore_new : ShadowRefStore := mkShadowRefStore ∅ ∅.

(** The parents [commit] records: the tip when none are given. *)
Definition commit_parents (st : ShadowRefStore) (peer_id : string) (parents : list CommitId) :
    list CommitId :=
  match parents with
  | [] => match refs st !! peer_id with Some tip => [tip] | None => [] end
  | _ => parents
  end.

(** [now] is what the clock says. *)
Definition ShadowRefStore_commit (now : Z) (peer_id : string) (parents : list CommitId)
    (state_vector : bytes) (st : ShadowRefStore) : CommitId * ShadowRefStore :=
  let parents := commit_parents st peer_id parents in
  let id := hash_commit peer_id parents now state_vector in
  let commit := mkShadowCommit id parents peer_id now state_vector in
  (id, mkShadowRefStore (<[peer_id := id]> (refs st)) (<[id := commit]> (commits st))).

Definition ShadowRefStore_tip (st : ShadowRefStore) (peer_id : string) : option CommitId :=
  refs st !! peer_id.

Definition first_parent (c : ShadowCommit) : option CommitId := head (sc_parents c).

Fixpoint history_loop (commits : gmap CommitId ShadowCommit) (limit : nat) (cursor : CommitId) :
    list ShadowCommit :=
  match limit with
  | 0 => []
  | S limit =>
      match commits !! cursor with
      | Some commit =>
          commit :: match first_parent commit with
                    | Some p => history_loop commits limit p
                    | None => []
                    end
      | None => []
      end
  end.

(** [Vec::with_capacity(limit)] of 8-byte references panics above [isize::MAX]
    bytes: [None]. *)
Definition ShadowRefStore_history (st : ShadowRefStore) (peer_id : string) (limit : Z) :
    option (list ShadowCommit) :=
  if (2 ^ 63 - 1 <? 8 * limit)%Z then None
  else Some match refs st !! peer_id with
            | Some id => history_loop (commits st) (Z.to_nat limit) id
            | None => []
            end.

(** The [while !found] loop; the outer [None] is out of fuel. *)
Fixpoint find_ancestor (commits : gmap CommitId ShadowCommit) (fuel : nat) (cursor target : CommitId) :
    option bool :=
  match fuel with
  | 0 => None
  | S fuel =>
      match commits !! cursor with
      | Some c =>
          match first_parent c with
          | Some p => if decide (p = target) then Some true else find_ancestor commits fuel p target
          | None => Some false
          end
      | None => Some false
      end
  end.

(** The walk takes a step per commit of the store and one to end. *)
Definition reachable_from_tip (st : ShadowRefStore) (peer_id : string) (commit_id : CommitId) : option bool :=
  match refs st !! peer_id with
  | None => Some true
  | Some cursor =>
      if decide (cursor = commit_id) then Some true
      else find_ancestor (commits st) (S (size (commits st))) cursor commit_id
  end.

Definition ShadowRefStore_reset_to (peer_id : string) (commit_id : CommitId) (st : ShadowRefStore) :
    option (result ShadowError CommitId * ShadowRefStore) :=
  match commits st !! commit_id with
  | None => Some (Err (CommitNotFound commit_id), st)
  | Some _ =>
      found ← reachable_from_tip st peer_id commit_id;
      Some (if found : bool
            then (Ok (default commit_id (refs st !! peer_id)),
                  mkShadowRefStore (<[peer_id := commit_id]> (refs st)) (commits st))
            else (Err (NotInPeerHistory commit_id peer_id), st))
  end.

Definition ShadowRefStore_commit_count (st : ShadowRefStore) : nat := size (commits st).
Definition ShadowRefStore_peer_count (st : ShadowRefStore) : nat := size (refs st).
Definition ShadowRefStore_get_commit (st : ShadowRefStore) (id : CommitId) : option ShadowCommit :=
  commits st !! id.

(** ** Runs of a client *)

Inductive ShadowCmd : Type :=
| SCommit (now : Z) (peer_id : string) (parents : list CommitId) (state_vector : bytes)
| SReset (peer_id : string) (commit_id : CommitId).

Definition shadow_step (st : ShadowRefStore) (c : ShadowCmd) : option ShadowRefStore :=
  match c with
  | SCommit now p ps sv => Some (ShadowRefStore_commit now p ps sv st).2
  | SReset p id => snd <$> ShadowRefStore_reset_to p id st
  end.

Fixpoint shadow_run (st : ShadowRefStore) (cs : list ShadowCmd) : option ShadowRefStore :=
  match cs with
  | [] => Some st
  | c :: cs => st' ← shadow_step st c; shadow_run st' cs
  end.

(** Explicit parents exist, and the digest does not name another commit. *)
Definition legal (st : ShadowRefStore) (c : ShadowCmd) : Prop :=
  match c with
  | SCommit now p ps sv =>
      let parents := commit_parents st p ps in
      let id := hash_commit p parents now sv in
      Forall (λ q, is_Some (commits st !! q)) ps ∧
      (commits st !! id = None ∨ commits st !! id = Some (mkShadowCommit id parents p now sv))
  | SReset _ _ => True
  end.

Fixpoint legal_run (st : ShadowRefStore) (cs : list ShadowCmd) : Prop :=
  match cs with
  | [] => True
  | c :: cs => legal st c ∧ match shadow_step st c with Some st' => legal_run st' cs | None => True end
  end.

#[export] Instance legal_dec st c : Decision (legal st c).
Proof. destruct c; cbn; apply _. Defined.
#[export] Instance legal_run_dec st cs : Decision (legal_run st cs).
Proof.
  revert st. induction cs as [|c cs IH]; intros st; cbn; [apply _|].
  destruct (shadow_step st c); apply _.
Defined.

(** ** First-parent ancestry *)

Inductive ancestry (cm : gmap CommitId ShadowCommit) : CommitId → list ShadowCommit → Prop :=
| an_root id c : cm !! id = Some c → first_parent c = None → ancestry cm id [c]
| an_step id c p chain :
    cm !! id = Some c → first_parent c = Some p → ancestry cm p chain → ancestry cm id (c :: chain).

Record store_wf (st : ShadowRefStore) : Prop := {
  wf_id id c : commits st !! id = Some c → sc_id c = id;
  wf_refs p id : refs st !! p = Some id → is_Some (commits st !! id);
  wf_rank : ∃ rank : CommitId → nat, ∀ id c, commits st !! id = Some c →
    rank id < size (commits st) ∧
    ∀ q, q ∈ sc_parents c → is_Some (commits st !! q) ∧ rank q < rank id
}.

Lemma first_parent_elem c p : first_parent c = Some p → p ∈ sc_parents c.
Proof. unfold first_parent. destruct (sc_parents c); [done|]. intros [= ->]. left. Qed.

Lemma ancestry_fun cm id l1 l2 : ancestry cm id l1 → ancestry cm id l2 → l1 = l2.
Proof.
  intros H1. revert l2. induction H1 as [id c Hc Hp|id c p l Hc Hp _ IH]; intros l2 H2;
    destruct H2; simplify_eq; [done|]. f_equal. by apply IH.
Qed.

Lemma ancestry_exists st id :
  store_wf st → is_Some (commits st !! id) →
  ∃ chain, ancestry (commits st) id chain ∧ length chain ≤ size (commits st).
Proof.
  intros Hwf [c Hc]. destruct (wf_rank _ Hwf) as [rank Hr].
  assert (Hgen : ∀ n id c, rank id ≤ n → commits st !! id = Some c →
    ∃ chain, ancestry (commits st) id chain ∧ length chain ≤ S (rank id)).
  { induction n as [|n IH]; intros i d Hn Hd; destruct (Hr _ _ Hd) as [_ Hps].
    all: destruct (first_parent d) as [p|] eqn:Hp;
      [|exists [d]; split; [by constructor|cbn; lia]].
    all: destruct (Hps p (first_parent_elem _ _ Hp)) as [[pc Hpc] Hlt].
    { lia. }
    destruct (IH p pc ltac:(lia) Hpc) as (chain&Ha&Hl). exists (d :: chain).
    split; [by eapply an_step|]. cbn. lia. }
  destruct (Hgen _ id c (le_n _) Hc) as (chain&Ha&Hl). exists chain. split; [done|].
  destruct (Hr _ _ Hc). lia.
Qed.

Lemma ancestry_head cm id chain : ancestry cm id chain → ∃ c rest, chain = c :: rest ∧ cm !! id = Some c.
Proof. destruct 1; eauto. Qed.

Lemma history_loop_take cm id chain n : ancestry cm id chain → history_loop cm n id = take n chain.
Proof.
  intros Ha. revert n. induction Ha as [id c Hc Hp|id c p l Hc Hp _ IH]; intros [|n]; try done; cbn;
    rewrite Hc, Hp; [by destruct n|]. by rewrite IH.
Qed.

(** The ids of a chain, and the part of it below one of them. *)
Lemma ancestry_suffix st id chain target :
  store_wf st → ancestry (commits st) id chain → target ∈ sc_id <$> chain →
  ∃ pre post, chain = pre ++ post ∧ ancestry (commits st) target post.
Proof.
  intros Hwf Ha. induction Ha as [id c Hc Hp|id c p l Hc Hp Ha IH]; cbn; intros Hin.
  - apply list_elem_of_singleton in Hin as ->. rewrite (wf_id _ Hwf _ _ Hc).
    exists [], [c]. split; [done|]. by constructor.
  - apply elem_of_cons in Hin as [->|Hin].
    + rewrite (wf_id _ Hwf _ _ Hc). exists [], (c :: l). split; [done|]. by eapply an_step.
    + destruct (IH Hin) as (pre&post&->&Hpost). exists (c :: pre), post. done.
Qed.

Lemma find_ancestor_spec st fuel id chain target :
  store_wf st → ancestry (commits st) id chain → length chain ≤ fuel →
  find_ancestor (commits st) fuel id target = Some (bool_decide (target ∈ sc_id <$> tail chain)).
Proof.
  intros Hwf Ha. revert fuel. induction Ha as [id c Hc Hp|id c p l Hc Hp Ha IH]; intros fuel Hf;
    (destruct fuel as [|fuel]; [cbn in Hf; lia|]); cbn; rewrite Hc, Hp.
  - by rewrite bool_decide_eq_false_2 by (by intros ?%elem_of_nil).
  - destruct (ancestry_head _ _ _ Ha) as (pc&rest&->&Hpc). cbn in Hf. cbn [fmap list_fmap].
    rewrite (wf_id _ Hwf _ _ Hpc). destruct (decide (p = target)) as [->|Hne].
    + by rewrite bool_decide_eq_true_2 by left.
    + rewrite IH by (cbn; lia). cbn [tail]. f_equal. apply bool_decide_ext.
      rewrite elem_of_cons. naive_solver.
Qed.

Lemma commit_wf st now p ps sv :
  store_wf st → legal st (SCommit now p ps sv) → store_wf (ShadowRefStore_commit now p ps sv st).2.
Proof.
  intros Hwf [Hps Hfresh]. cbn.
  set (parents := commit_parents st p ps) in *. set (id := hash_commit p parents now sv) in *.
  clearbody id. set (c := mkShadowCommit id parents p now sv) in *.
  assert (Hpar : ∀ q, q ∈ parents → is_Some (commits st !! q)).
  { intros q. unfold parents, commit_parents. destruct ps as [|p0 ps].
    - destruct (refs st !! p) as [tip|] eqn:Ht; [|by intros ?%elem_of_nil].
      intros ->%list_elem_of_singleton. by apply (wf_refs _ Hwf p).
    - rewrite Forall_forall in Hps. apply Hps. }
  destruct (wf_rank _ Hwf) as [rank Hr]. split; cbn.
  - intros i d. rewrite lookup_insert_Some. intros [[<- <-]|[_ Hd]]; [done|]. by apply (wf_id _ Hwf).
  - intros q i. rewrite lookup_insert_Some, lookup_insert_is_Some.
    intros [[_ <-]|[_ Hq]]; [by left|]. destruct (decide (id = i)); [by left|right].
    split; [done|]. by apply (wf_refs _ Hwf q).
  - destruct Hfresh as [Hnone|Hsame].
    + exists (λ i, if decide (i = id) then size (commits st) else rank i). intros i d.
      rewrite map_size_insert_None by done. rewrite lookup_insert_Some. intros [[<- <-]|[Hne Hd]].
      * rewrite decide_True by done. split; [lia|]. intros q Hq. destruct (Hpar q Hq) as [qc Hqc].
        assert (q ≠ id) by congruence. rewrite decide_False by done. split.
        -- rewrite lookup_insert_ne by done. by eexists.
        -- by apply (Hr _ _ Hqc).
      * rewrite decide_False by done. destruct (Hr _ _ Hd) as [Hlt Hq]. split; [lia|].
        intros q Hqin. destruct (Hq q Hqin) as [Hqs Hql]. destruct (decide (q = id)) as [->|].
        { by destruct Hqs as [? ?]; congruence. }
        split; [|done]. by rewrite lookup_insert_ne.
    + rewrite insert_id by done. exists rank. exact Hr.
Qed.

Lemma reachable_from_tip_spec st p target :
  store_wf st →
  ∃ b, reachable_from_tip st p target = Some b ∧
    match refs st !! p with
    | None => b = true
    | Some tip => ∃ chain, ancestry (commits st) tip chain ∧ (b = true ↔ target ∈ sc_id <$> chain)
    end.
Proof.
  intros Hwf. unfold reachable_from_tip. destruct (refs st !! p) as [tip|] eqn:Ht; [|by exists true].
  destruct (ancestry_exists st tip Hwf (wf_refs _ Hwf _ _ Ht)) as (chain&Ha&Hlen).
  destruct (ancestry_head _ _ _ Ha) as (c&rest&Heq&Hc). subst chain. case_decide as Htip.
  - exists true. split; [done|]. exists (c :: rest). split; [done|]. split; [|done]. intros _. cbn.
    rewrite (wf_id _ Hwf _ _ Hc), Htip. left.
  - rewrite (find_ancestor_spec st _ _ _ _ Hwf Ha) by lia. eexists. split; [done|].
    exists (c :: rest). split; [done|]. rewrite bool_decide_eq_true. cbn.
    rewrite (wf_id _ Hwf _ _ Hc), elem_of_cons. split; [by right|].
    intros [Heq|?]; [by destruct Htip|done].
Qed.

(** What a reset does: the verdict, and on success only the writer's tip moves. *)
Definition reset_spec (st : ShadowRefStore) (p : string) (target : CommitId)
    (r : result ShadowError CommitId) (st' : ShadowRefStore) : Prop :=
  match r with
  | Ok prev =>
      is_Some (commits st !! target) ∧ prev = default target (refs st !! p) ∧
      commits st' = commits st ∧ refs st' = <[p := target]> (refs st) ∧
      ∀ tip, refs st !! p = Some tip → ∃ pre post, ancestry (commits st) tip (pre ++ post) ∧
        ancestry (commits st') target post
  | Err (CommitNotFound id) => id = target ∧ st' = st ∧ commits st !! target = None
  | Err (NotInPeerHistory id q) => id = target ∧ q = p ∧ st' = st ∧ is_Some (commits st !! target) ∧
      ∃ tip chain, refs st !! p = Some tip ∧ ancestry (commits st) tip chain ∧
        target ∉ sc_id <$> chain
  end.

Lemma reset_to_spec st p target :
  store_wf st → ∃ r st', ShadowRefStore_reset_to p target st = Some (r, st') ∧
    reset_spec st p target r st' ∧ store_wf st'.
Proof.
  intros Hwf. unfold ShadowRefStore_reset_to.
  destruct (commits st !! target) as [c|] eqn:Hc; [|by exists (Err (CommitNotFound target)), st].
  destruct (reachable_from_tip_spec st p target Hwf) as (b&->&Hb). cbn. destruct b.
  - eexists _, _. split; [done|]. cbn. split.
    + split; [by eexists|]. split; [done|]. split; [done|]. split; [done|]. intros tip Ht.
      rewrite Ht in Hb. destruct Hb as (chain&Ha&Hin).
      destruct (ancestry_suffix st tip chain target Hwf Ha) as (pre&post&->&Hpost); [by apply Hin|].
      by exists pre, post.
    + split; [apply Hwf| |apply Hwf]. cbn. intros q id. rewrite lookup_insert_Some.
      intros [[_ <-]|[_ Hq]]; [by eexists|by apply (wf_refs _ Hwf q)].
  - eexists _, _. split; [done|]. cbn. split; [|done].
    split; [done|]. split; [done|]. split; [done|]. split; [by eexists|].
    destruct (refs st !! p) as [tip|]; [|done]. destruct Hb as (chain&Ha&Hin).
    exists tip, chain. split; [done|]. split; [done|]. by intros ?%Hin.
Qed.

Lemma shadow_run_wf cs st :
  store_wf st → legal_run st cs → ∃ st', shadow_run st cs = Some st' ∧ store_wf st'.
Proof.
  revert st. induction cs as [|c cs IH]; intros st Hwf Hl; [by exists st|]. destruct Hl as [Hc Hl].
  assert (∃ st1, shadow_step st c = Some st1 ∧ store_wf st1) as (st1&Hs&Hwf1).
  { destruct c as [now p ps sv|p id].
    - eexists. split; [cbn [shadow_step]; reflexivity|]. by apply commit_wf.
    - destruct (reset_to_spec st p id Hwf) as (r&st1&Hr&_&Hw). exists st1. cbn. by rewrite Hr. }
  rewrite Hs in Hl. cbn [shadow_run]. rewrite Hs. by apply IH.
Qed.

Lemma store_new_wf : store_wf ShadowRefStore_new.
Proof. split; [done|done|]. by exists (λ _, 0). Qed.

Lemma ancestry_insert cm i c id chain :
  cm !! i = None ∨ cm !! i = Some c → ancestry cm id chain → ancestry (<[i := c]> cm) id chain.
Proof.
  intros Hi. induction 1 as [id d Hd Hp|id d p l Hd Hp _ IH].
  - apply an_root; [|done]. rewrite lookup_insert. case_decide; [|done]. subst. naive_solver.
  - eapply an_step; [|done..]. rewrite lookup_insert. case_decide; [|done]. subst. naive_solver.
Qed.

(** C19: the undo stacks are stacks.  In every run from an empty store whose
    explicit parents exist and whose digests do not collide, every operation
    returns, and at its end each writer's tip has a finite first-parent chain of
    stored commits of which [history] is the prefix asked for (or a panic, for a
    limit whose buffer no allocation can hold); a reset succeeds exactly for a
    stored commit of that chain, or for any stored commit when the writer has
    none, cuts the chain there and touches no other writer and no commit; and
    committing without explicit parents pushes one commit on the chain. *)
Theorem shadow_undo_correct (cs : list ShadowCmd) (Hl : legal_run ShadowRefStore_new cs) :
  ∃ st, shadow_run ShadowRefStore_new cs = Some st ∧
    (∀ p, ∃ chain,
       match refs st !! p with Some tip => ancestry (commits st) tip chain | None => chain = [] end ∧
       ∀ limit, ShadowRefStore_history st p limit =
         if (2 ^ 63 - 1 <? 8 * limit)%Z then None else Some (take (Z.to_nat limit) chain)) ∧
    (∀ p target, ∃ r st', ShadowRefStore_reset_to p target st = Some (r, st') ∧
       reset_spec st p target r st') ∧
    (∀ now p sv, legal st (SCommit now p [] sv) →
       let '(id, st') := ShadowRefStore_commit now p [] sv st in
       refs st' = <[p := id]> (refs st) ∧
       ∃ c, sc_state_vector c = sv ∧ sc_peer_id c = p ∧
         ∀ limit, (0 ≤ limit)%Z → (8 * (limit + 1) ≤ 2 ^ 63 - 1)%Z →
           ShadowRefStore_history st' p (limit + 1) = cons c <$> ShadowRefStore_history st p limit).
Proof.
  destruct (shadow_run_wf cs _ store_new_wf Hl) as (st&Hr&Hwf). exists st. split; [done|].
  split; [|split].
  - intros p. unfold ShadowRefStore_history. destruct (refs st !! p) as [tip|] eqn:Ht.
    + destruct (ancestry_exists st tip Hwf (wf_refs _ Hwf _ _ Ht)) as (chain&Ha&_).
      exists chain. split; [done|]. intros limit. by rewrite (history_loop_take _ _ _ _ Ha).
    + exists []. split; [done|]. intros limit. by rewrite take_nil.
  - intros p target. destruct (reset_to_spec st p target Hwf) as (r&st'&?&?&_). by exists r, st'.
  - intros now p sv [_ Hfresh]. revert Hfresh. unfold ShadowRefStore_commit. cbn zeta.
    generalize (hash_commit p (commit_parents st p []) now sv). intros id Hfresh.
    split; [done|]. exists (mkShadowCommit id (commit_parents st p []) p now sv).
    split; [|split]; [| |intros limit H0 Hmax].
    3: { unfold ShadowRefStore_history. rewrite !(proj2 (Z.ltb_ge _ _)) by lia. cbn [refs commits].
         rewrite lookup_insert_eq, Z2Nat.inj_add by lia. rewrite Nat.add_comm.
         change (Z.to_nat 1 + Z.to_nat limit) with (S (Z.to_nat limit)). cbn [history_loop].
         rewrite lookup_insert_eq. unfold first_parent at 1, commit_parents. cbn [sc_parents].
         destruct (refs st !! p) as [tip|] eqn:Ht; cbn [head fmap option_fmap option_map]; [|done].
         do 2 f_equal.
         destruct (ancestry_exists st tip Hwf (wf_refs _ Hwf _ _ Ht)) as (chain&Ha&_).
         rewrite (history_loop_take _ _ _ _ Ha). apply history_loop_take, ancestry_insert; [|done].
         unfold commit_parents in Hfresh. by rewrite Ht in Hfresh. }
    all: done.
Qed.

(** ** The digest's input *)

Lemma to_le_bytes_inj n a b : (0 ≤ a < 256 ^ Z.of_nat n)%Z → (0 ≤ b < 256 ^ Z.of_nat n)%Z →
  to_le_bytes n a = to_le_bytes n b → a = b.
Proof.
  intros Ha Hb He. rewrite <-(from_to_le_bytes_id n a), <-(from_to_le_bytes_id n b) by done. by rewrite He.
Qed.

(** Encodings of known length split off. *)
Lemma hash_bytes_app a b r r' :
  is_u64 (Z.of_nat (length a)) → is_u64 (Z.of_nat (length b)) →
  hash_bytes a ++ r = hash_bytes b ++ r' → a = b ∧ r = r'.
Proof.
  unfold hash_bytes, is_u64, U64_MAX. intros Ha Hb He. rewrite <-!(assoc_L (++)) in He.
  apply app_inj_1 in He as [Hlen He]; [|by rewrite !length_to_le_bytes].
  apply to_le_bytes_inj in Hlen; [|lia..]. apply app_inj_1 in He as [-> ->]; [done|lia].
Qed.

Lemma hash_ids_app l l' r r' :
  is_u64 (Z.of_nat (length l)) → is_u64 (Z.of_nat (length l')) →
  Forall (λ id, length id = 32) l → Forall (λ id, length id = 32) l' →
  hash_ids l ++ r = hash_ids l' ++ r' → l = l' ∧ r = r'.
Proof.
  unfold hash_ids, is_u64, U64_MAX. intros Hl Hl' Hf Hf' He. rewrite <-!(assoc_L (++)) in He.
  apply app_inj_1 in He as [Hlen He]; [|by rewrite !length_to_le_bytes].
  apply to_le_bytes_inj in Hlen; [|lia..]. clear Hl Hl'.
  revert l' Hlen Hf' He. induction Hf as [|id l Hid _ IH]; intros [|id' l'] Hlen Hf' He; cbn in *; [done|lia..|].
  apply Forall_cons in Hf' as [Hid' Hf']. rewrite <-!(assoc_L (++)) in He.
  apply hash_bytes_app in He as [-> He]; [|unfold is_u64, U64_MAX; lia..].
  destruct (IH l' ltac:(lia) Hf' He) as [-> ->]. done.
Qed.

(** A byte that does not occur ends a string. *)
Lemma terminated_inj (x : byte) (a b r r' : bytes) :
  x ∉ a → x ∉ b → a ++ x :: r = b ++ x :: r' → a = b ∧ r = r'.
Proof.
  revert b. induction a as [|c a IH]; intros [|d b] Ha Hb He; cbn in *; simplify_eq; [done|set_solver..|].
  destruct (IH b) as [-> ->]; [set_solver..|done|done].
Qed.

Lemma string_bytes_inj s s' : string_bytes s = string_bytes s' → s = s'.
Proof. intros He. by rewrite <-(string_of_string_bytes s), He, string_of_string_bytes. Qed.

(** What the digest hashes determines the commit: two commits write the same
    bytes to the hasher of a lane only if they have the same writer, parents,
    time and state, so they share an id only if all four SipHash lanes collide.
    (Writers' names are UTF-8, where the byte [0xff] does not occur.) *)
Lemma lane_input_injective (salt ts ts' : Z) (p p' : string) (ps ps' : list CommitId) (sv sv' : bytes)
  (Hp : xff ∉ string_bytes p) (Hp' : xff ∉ string_bytes p')
  (Hps : Forall (λ id, length id = 32) ps) (Hps' : Forall (λ id, length id = 32) ps')
  (Hts : is_u64 ts) (Hts' : is_u64 ts')
  (Hlen : Forall (λ n, is_u64 (Z.of_nat n)) [length ps; length ps'; length sv; length sv'])
  (He : lane_input salt p ps ts sv = lane_input salt p' ps' ts' sv') :
  p = p' ∧ ps = ps' ∧ ts = ts' ∧ sv = sv'.
Proof.
  rewrite !Forall_cons in Hlen. destruct Hlen as (H1&H2&H3&H4&_). unfold lane_input, hash_u64, hash_str in He.
  apply app_inv_head in He. rewrite <-!(assoc_L (++)) in He.
  apply terminated_inj in He as [Hpp He]; [|done..]. apply string_bytes_inj in Hpp.
  apply hash_ids_app in He as [Hpss He]; [|done..].
  apply app_inj_1 in He as [Htt He]; [|by rewrite !length_to_le_bytes].
  unfold is_u64, U64_MAX in Hts, Hts'. apply to_le_bytes_inj in Htt; [|lia..].
  rewrite <-(app_nil_r (hash_bytes sv)), <-(app_nil_r (hash_bytes sv')) in He.
  by apply hash_bytes_app in He as [-> _].
Qed.

(** ** A sample run *)

Definition sample_commands : list ShadowCmd :=
  [SCommit 1 "a" [] [x01]; SCommit 2 "a" [] [x02]; SCommit 3 "b" [] [x09];
   SReset "a" (hash_commit "a" [] 1 [x01]); SReset "a" (hash_commit "b" [] 3 [x09])].

Lemma sample_legal : legal_run ShadowRefStore_new sample_commands.
Proof. apply (bool_decide_unpack _). vm_compute. exact I. Qed.

Lemma shadow_undo_correct_witness :
  ∃ st chain, shadow_run ShadowRefStore_new sample_commands = Some st ∧
    ShadowRefStore_history st "a" 10 = Some (take 10 chain) ∧
    refs st !! "a"%string = Some (hash_commit "a" [] 1 [x01]).
Proof.
  destruct (shadow_undo_correct sample_commands sample_legal) as (st&Hr&Hh&_).
  destruct (Hh "a"%string) as (chain&_&Hhist). exists st, chain. split; [exact Hr|]. split; [exact (Hhist 10%Z)|].
  assert (Hv : (λ s, refs s !! "a"%string) <$> shadow_run ShadowRefStore_new sample_commands
    = Some (Some (hash_commit "a" [] 1 [x01]))) by (vm_compute; reflexivity).
  rewrite Hr in Hv. injection Hv as Hv. exact Hv.
Defined.

Lemma lane_input_injective_witness :
  lane_input 7 "a" [] 1 [x01] ≠ lane_input 7 "a" [] 2 [x01].
Proof.
  intros He. pose proof (lane_input_injective 7 1 2 "a" "a" [] [] [x01] [x01]) as H.
  destruct H as (_&_&H&_); try exact He; try discriminate H; try constructor;
    try (intros Hin; vm_compute in Hin; inversion Hin as [|? ? ? Hin']; inversion Hin'); repeat constructor; done.
Defined.

(** Undone commits cannot be reached again, and a limit that means "all of it"
    panics. *)
Example reset_has_no_redo :
  let st := (ShadowRefStore_commit 2 "a" [] [x02] (ShadowRefStore_commit 1 "a" [] [x01] ShadowRefStore_new).2).2 in
  let tip := default [] (refs st !! "a"%string) in
  (st' ← snd <$> ShadowRefStore_reset_to "a" (hash_commit "a" [] 1 [x01]) st;
   fst <$> ShadowRefStore_reset_to "a" tip st') = Some (Err (NotInPeerHistory tip "a")) ∧
  ShadowRefStore_history st "a" USIZE_MAX = None.
Proof. vm_compute. done. Qed.
