(* ===== verification/Fts.v ===== *)
(** * Full-text search ([src/fts/mod.rs])

    The tokenizer and the inverted index: sorted postings, document
    frequencies and the TF-IDF ranking.  A text is its list of characters (code
    points).  The natural logarithm of the platform is an interface. *)

From S2P Require Import Prelude Types.
From Stdlib Require Import SpecFloat.

(** A [&str] or [String] of this module, as its characters. *)
Notation str := (list Z) (only parsing).

(** [f64::ln], the only operation IEEE 754 does not fix. *)
Class FloatLn : Type := { f64_ln : f64 → f64 }.

(** ** Floating point *)

Definition f64_add : f64 → f64 → f64 := SFadd 53 1024.
Definition f64_div : f64 → f64 → f64 := SFdiv 53 1024.
Definition f64_mul : f64 → f64 → f64 := SFmul 53 1024.
(** [as f64] of an unsigned integer. *)
Definition f64_of_Z (z : Z) : f64 := binary_normalize 53 1024 z 0 false.
Definition f64_zero : f64 := S754_zero false.
Definition f64_one : f64 := f64_of_Z 1.
(** [1e-9]. *)
Definition f64_1e_9 : f64 := S754_finite false 0x112E0BE826D695 (-82).
(** [f64::max]: the other operand when one is a NaN. *)
Definition f64_max (a b : f64) : f64 :=
  match SFcompare a b with
  | Some Lt => b
  | Some _ => a
  | None => match a with S754_nan => b | _ => a end
  end.
Definition f64_gt (a b : f64) : bool :=
  match SFcompare a b with Some Gt => true | _ => false end.

(** ** [tokenize] *)

Definition is_whitespace (c : Z) : bool :=
  ((9 <=? c) && (c <=? 13) || (c =? 32) || (c =? 0x85) || (c =? 0xA0) || (c =? 0x1680) ||
   (0x2000 <=? c) && (c <=? 0x200A) || (c =? 0x2028) || (c =? 0x2029) || (c =? 0x202F) ||
   (c =? 0x205F) || (c =? 0x3000))%Z.
Definition is_ascii (c : Z) : bool := (c <? 128)%Z.
Definition is_ascii_alphanumeric (c : Z) : bool :=
  ((48 <=? c) && (c <=? 57) || (65 <=? c) && (c <=? 90) || (97 <=? c) && (c <=? 122))%Z.
Definition to_ascii_lowercase (c : Z) : Z :=
  if ((65 <=? c) && (c <=? 90))%Z then (c + 32)%Z else c.

Definition is_delimiter (c : Z) : bool :=
  is_whitespace c || is_ascii c && negb (is_ascii_alphanumeric c).

(** [str::split] on a predicate: the pieces between the delimiters. *)
Fixpoint split (p : Z → bool) (s : str) : list str :=
  match s with
  | [] => [[]]
  | c :: s =>
      if p c then [] :: split p s
      else match split p s with
           | piece :: pieces => (c :: piece) :: pieces
           | [] => [[c]]
           end
  end.

Definition tokenize (text : str) : list str :=
  map (λ s : str, map (λ c, if is_ascii c then to_ascii_lowercase c else c) s)
    (base.filter (λ s : str, s ≠ []) (split is_delimiter text)).

(** ** Sorted vectors *)

(** The order of strings; that of code points is that of the UTF-8 bytes. *)
Fixpoint str_leb (a b : str) : bool :=
  match a, b with
  | [], _ => true
  | _ :: _, [] => false
  | x :: a, y :: b => if (x =? y)%Z then str_leb a b else (x <? y)%Z
  end.
Definition str_le (a b : str) : Prop := str_leb a b = true.
#[export] Instance str_le_dec : RelDecision str_le := λ a b, bool_eq_dec (str_leb a b) true.

(** [Vec::dedup]. *)
Fixpoint dedup {A} `{EqDecision A} (l : list A) : list A :=
  match l with
  | [] => []
  | x :: l => match l with
              | y :: _ => if decide (x = y) then dedup l else x :: dedup l
              | [] => [x]
              end
  end.

(** [slice::binary_search]: on a sorted slice of distinct values, the position
    of the value or the one where it belongs. *)
Fixpoint binary_search (l : list Z) (x : Z) : nat + nat :=
  match l with
  | [] => inr 0
  | y :: l =>
      if (y =? x)%Z then inl 0
      else if (x <? y)%Z then inr 0
      else match binary_search l x with inl i => inl (S i) | inr i => inr (S i) end
  end.

(** ** The index *)

Record SearchHit : Type := mkSearchHit { sh_doc_id : Z; sh_score : f64 }.

Record InvertedIndex : Type := mkIndex {
  postings : gmap str (list Z);
  doc_freq : gmap str Z;
  doc_lengths : gmap Z Z;
  indexed_docs : gmap Z (list str);
  total_docs : Z;
  avg_doc_length : f64
}.

Definition InvertedIndex_new : InvertedIndex := mkIndex ∅ ∅ ∅ ∅ 0 f64_zero.

Definition recompute_avg (idx : InvertedIndex) : InvertedIndex :=
  mkIndex (postings idx) (doc_freq idx) (doc_lengths idx) (indexed_docs idx) (total_docs idx)
    (if (total_docs idx =? 0)%Z then f64_zero
     else f64_div (f64_of_Z (map_fold (λ _ l acc, u64_add acc l) 0%Z (doc_lengths idx)))
            (f64_of_Z (total_docs idx))).

(** The loop body of [remove_doc]. *)
Definition remove_term (doc_id : Z) (idx : InvertedIndex) (term : str) : InvertedIndex :=
  let postings' :=
    match postings idx !! term with
    | Some v =>
        let v' := match binary_search v doc_id with inl pos => delete pos v | inr _ => v end in
        match v' with [] => delete term (postings idx) | _ => <[term := v']> (postings idx) end
    | None => postings idx
    end in
  let doc_freq' :=
    match doc_freq idx !! term with
    | Some df =>
        let df := if (0 <? df)%Z then (df - 1)%Z else df in
        if (df =? 0)%Z then delete term (doc_freq idx) else <[term := df]> (doc_freq idx)
    | None => doc_freq idx
    end in
  mkIndex postings' doc_freq' (doc_lengths idx) (indexed_docs idx) (total_docs idx) (avg_doc_length idx).

Definition remove_doc (doc_id : Z) (idx : InvertedIndex) : InvertedIndex :=
  match indexed_docs idx !! doc_id with
  | None => idx
  | Some terms =>
      let idx := foldl (remove_term doc_id)
        (mkIndex (postings idx) (doc_freq idx) (doc_lengths idx) (delete doc_id (indexed_docs idx))
           (total_docs idx) (avg_doc_length idx)) terms in
      recompute_avg
        (mkIndex (postings idx) (doc_freq idx) (delete doc_id (doc_lengths idx)) (indexed_docs idx)
           (if (0 <? total_docs idx)%Z then (total_docs idx - 1)%Z else total_docs idx)
           (avg_doc_length idx))
  end.

(** The loop body of [index_doc]. *)
Definition index_term (doc_id : Z) (idx : InvertedIndex) (term : str) : InvertedIndex :=
  let v := default [] (postings idx !! term) in
  let pos := match binary_search v doc_id with inl i => i | inr i => i end in
  let v' := if bool_decide (pos = length v) || negb (bool_decide (v !! pos = Some doc_id))
            then take pos v ++ doc_id :: drop pos v else v in
  mkIndex (<[term := v']> (postings idx))
    (<[term := u32_wrap (default 0%Z (doc_freq idx !! term) + 1)]> (doc_freq idx))
    (doc_lengths idx) (indexed_docs idx) (total_docs idx) (avg_doc_length idx).

(** The keys of the term-frequency map, sorted. *)
Definition terms_of `{SetOrder} (tokens : list str) : list str :=
  let tf_map := foldl (λ m tok, <[tok := u32_wrap (default 0%Z (m !! tok) + 1)]> m) (∅ : gmap str Z) tokens in
  dedup (merge_sort str_le (set_iter (dom tf_map))).

Definition index_doc `{SetOrder} (doc_id : Z) (text : str) (idx : InvertedIndex) : InvertedIndex :=
  let idx := if bool_decide (is_Some (doc_lengths idx !! doc_id)) then remove_doc doc_id idx else idx in
  let tokens := tokenize text in
  let token_count := u32_wrap (Z.of_nat (length tokens)) in
  let terms := if (token_count =? 0)%Z then [] else terms_of tokens in
  let idx := foldl (index_term doc_id) idx terms in
  recompute_avg
    (mkIndex (postings idx) (doc_freq idx) (<[doc_id := token_count]> (doc_lengths idx))
       (<[doc_id := terms]> (indexed_docs idx)) (u32_wrap (total_docs idx + 1)) (avg_doc_length idx)).

(** ** [search] *)

Definition doc_count (idx : InvertedIndex) : Z := total_docs idx.
Definition avg_doc_length_of (idx : InvertedIndex) : f64 := avg_doc_length idx.
Definition term_count (idx : InvertedIndex) : nat := size (postings idx).

Section search.
  Context `{FloatLn, SetOrder}.

(** What a term of document frequency [df] adds to a document's score. *)
Definition contribution (idx : InvertedIndex) (df doc_id : Z) : f64 :=
  let n := f64_of_Z (total_docs idx) in
  let idf := f64_add (f64_ln (f64_div (f64_add n f64_one) (f64_add (f64_of_Z df) f64_one))) f64_one in
  let avg_dl := if f64_gt (avg_doc_length idx) f64_zero then avg_doc_length idx else f64_one in
  let dl := f64_of_Z (default 0%Z (doc_lengths idx !! doc_id)) in
  let length_norm :=
    f64_div f64_one (f64_add f64_one (f64_max (SFabs (f64_ln (f64_div dl avg_dl))) f64_1e_9)) in
  f64_mul (f64_mul f64_one idf) length_norm.

Definition score_term (idx : InvertedIndex) (scores : gmap Z f64) (term : str) : gmap Z f64 :=
  match doc_freq idx !! term with
  | None => scores
  | Some df =>
      match postings idx !! term with
      | None => scores
      | Some v =>
          foldl (λ scores doc_id,
            <[doc_id := f64_add (default f64_zero (scores !! doc_id)) (contribution idx df doc_id)]> scores)
            scores v
      end
  end.

(** The comparison of [sort_by]: score descending, then document ascending. *)
Definition hit_compare (a b : SearchHit) : comparison :=
  match match SFcompare (sh_score b) (sh_score a) with Some c => c | None => Eq end with
  | Eq => (sh_doc_id a ?= sh_doc_id b)%Z
  | c => c
  end.
Definition hit_le (a b : SearchHit) : Prop := hit_compare a b ≠ Gt.
#[local] Instance hit_le_dec : RelDecision hit_le.
Proof. intros a b. unfold hit_le. apply _. Defined.

Definition query_terms (query : str) : list str := dedup (merge_sort str_le (tokenize query)).

Definition search (idx : InvertedIndex) (query : str) (limit : nat) : list SearchHit :=
  if bool_decide (tokenize query = []) || (total_docs idx =? 0)%Z then []
  else
    let scores := foldl (score_term idx) ∅ (query_terms query) in
    take limit (merge_sort hit_le
      (map (λ d, mkSearchHit d (default f64_zero (scores !! d))) (set_iter (dom scores)))).
End search.

(** ** Sorted vectors: lemmas *)

Lemma dedup_elem {A} `{EqDecision A} (l : list A) x : x ∈ dedup l ↔ x ∈ l.
Proof.
  induction l as [|y l IH]; [done|]. cbn. destruct l as [|z l]; [done|].
  case_decide as Heq; rewrite ?elem_of_cons, IH, ?elem_of_cons; naive_solver.
Qed.

Lemma dedup_NoDup {A} `{EqDecision A} (l : list A) : NoDup l → dedup l = l.
Proof.
  induction 1 as [|x l Hx _ IH]; [done|]. cbn. destruct l as [|y l]; [done|].
  rewrite decide_False by (intros ->; apply Hx; left). by rewrite IH.
Qed.

Lemma binary_search_remove (v : list Z) x :
  StronglySorted Z.lt v → x ∈ v →
  ∃ i, binary_search v x = inl i ∧ StronglySorted Z.lt (delete i v) ∧
    (∀ y, y ∈ delete i v ↔ y ∈ v ∧ y ≠ x) ∧ length v = S (length (delete i v)).
Proof.
  intros Hs. induction Hs as [|y v Hs IH Hy]; [by intros ?%elem_of_nil|].
  rewrite Forall_forall in Hy. intros Hx. cbn. destruct (Z.eqb_spec y x) as [->|Hne].
  - exists 0. split; [done|]. split; [done|]. cbn. split; [|done]. intros z. rewrite elem_of_cons.
    split; [|naive_solver]. intros Hz. split; [by right|]. pose proof (Hy z Hz). lia.
  - apply elem_of_cons in Hx as [->|Hx]; [done|].
    rewrite (proj2 (Z.ltb_ge x y)) by (specialize (Hy x Hx); lia).
    destruct (IH Hx) as (i&->&Hd&Hel&Hlen). exists (S i). split; [done|]. cbn. split.
    + constructor; [done|]. apply Forall_forall. intros z Hz%Hel. apply Hy, Hz.
    + split; [|f_equal; exact Hlen]. intros z. rewrite !elem_of_cons, Hel.
      split; [|naive_solver]. intros [->|[??]]; [|auto]. split; [by left|done].
Qed.

Lemma binary_search_insert (v : list Z) x :
  StronglySorted Z.lt v → x ∉ v →
  ∃ i, binary_search v x = inr i ∧ v !! i ≠ Some x ∧ StronglySorted Z.lt (take i v ++ x :: drop i v).
Proof.
  intros Hs. induction Hs as [|y v Hs IH Hy]; intros Hx.
  { exists 0. split; [done|]. split; [done|]. repeat constructor. }
  apply not_elem_of_cons in Hx as [Hne Hx]. cbn. rewrite (proj2 (Z.eqb_neq y x)) by congruence.
  rewrite Forall_forall in Hy. destruct (Z.ltb_spec x y) as [Hlt|Hge].
  - exists 0. split; [done|]. split; [by intros [= ->]|]. cbn. constructor; [constructor; [done|]|].
    + by apply Forall_forall.
    + constructor; [done|]. apply Forall_forall. intros z Hz%Hy. lia.
  - destruct (IH Hx) as (i&->&Hi&Hsi). exists (S i). split; [done|]. split; [done|]. cbn.
    constructor; [done|]. apply Forall_forall. intros z [Hz|[->|Hz]%elem_of_cons]%elem_of_app.
    + apply Hy. by eapply subseteq_take.
    + lia.
    + apply Hy. by eapply subseteq_drop.
Qed.

Lemma StronglySorted_lt_NoDup (v : list Z) : StronglySorted Z.lt v → NoDup v.
Proof.
  induction 1 as [|x v _ IH Hx]; constructor; [|done]. intros Hin.
  rewrite Forall_forall in Hx. specialize (Hx x Hin). lia.
Qed.

(** ** What the index represents *)

(** Postings and frequencies of the pairs [has d t], whose documents are in [D]. *)
Record post_ok (P : gmap str (list Z)) (F : gmap str Z) (D : gset Z) (has : Z → str → Prop) : Prop := {
  po_dom d t : has d t → d ∈ D;
  po_post t : match P !! t with
              | Some v => v ≠ [] ∧ StronglySorted Z.lt v ∧ ∀ d, d ∈ v ↔ has d t
              | None => ∀ d, ¬ has d t
              end;
  po_freq t : F !! t = (λ v, Z.of_nat (length v)) <$> P !! t
}.

Lemma po_length P F D has t v : post_ok P F D has → P !! t = Some v → length v ≤ size D.
Proof.
  intros Hp Hv. pose proof (po_post _ _ _ _ Hp t) as Ht. rewrite Hv in Ht. destruct Ht as (_&Hs&Hel).
  rewrite <-(size_list_to_set (C:=gset Z) v) by by apply StronglySorted_lt_NoDup.
  apply subseteq_size. intros d Hd%elem_of_list_to_set%Hel. by eapply po_dom.
Qed.

Lemma post_ok_ext P F D has has' :
  (∀ d t, has d t ↔ has' d t) → post_ok P F D has → post_ok P F D has'.
Proof.
  intros He Hp. split; [intros d t Ht%He; by eapply po_dom|intros t|apply Hp].
  pose proof (po_post _ _ _ _ Hp t) as Ht. destruct (P !! t) as [v|].
  - destruct Ht as (?&?&Hel). split; [done|]. split; [done|]. intros d. by rewrite Hel.
  - intros d Hd%He. by apply (Ht d).
Qed.

Lemma remove_term_ok idx d t D has :
  post_ok (postings idx) (doc_freq idx) D has → has d t →
  let idx' := remove_term d idx t in
  post_ok (postings idx') (doc_freq idx') D (λ d' t', has d' t' ∧ ¬ (d' = d ∧ t' = t)).
Proof.
  intros Hp Hd. pose proof (po_post _ _ _ _ Hp t) as Ht. pose proof (po_freq _ _ _ _ Hp t) as Hf.
  unfold remove_term. cbn. destruct (postings idx !! t) as [v|] eqn:Hv; [|by apply Ht in Hd].
  cbn in Hf. rewrite Hf. destruct Ht as (Hne&Hs&Hel).
  destruct (binary_search_remove v d Hs) as (i&->&Hs'&Hel'&Hlen); [by apply Hel|].
  rewrite Hlen, (proj2 (Z.ltb_lt _ _)) by lia.
  replace (Z.of_nat (S (length (delete i v))) - 1)%Z with (Z.of_nat (length (delete i v))) by lia.
  split; [intros d' t' [? _]; by eapply po_dom|intros t'|intros t'].
  all: destruct (decide (t' = t)) as [->|Hne'].
  - destruct (delete i v) as [|y v'] eqn:Hdel.
    + rewrite lookup_delete_eq. intros d' [Hd' Hn]. apply Hel in Hd'. destruct (decide (d' = d)) as [->|?]; [tauto|].
      assert (Hin : d' ∈ @nil Z) by by apply Hel'. by apply elem_of_nil in Hin.
    + rewrite lookup_insert_eq. split; [done|]. split; [done|]. intros d'. rewrite Hel', Hel. tauto.
  - pose proof (po_post _ _ _ _ Hp t') as Ht'.
    assert (match delete i v with [] => delete t (postings idx) | _ => <[t:=delete i v]> (postings idx) end !! t'
      = postings idx !! t') as ->.
    { destruct (delete i v); [by rewrite lookup_delete_ne|by rewrite lookup_insert_ne]. }
    destruct (postings idx !! t') as [w|].
    + destruct Ht' as (?&?&Hw). split; [done|]. split; [done|]. intros d'. rewrite Hw. tauto.
    + intros d' [Hd' _]. by apply Ht' in Hd'.
  - destruct (delete i v) as [|y v'].
    + change (Z.of_nat (length (@nil Z)) =? 0)%Z with true. by rewrite !lookup_delete_eq.
    + rewrite (proj2 (Z.eqb_neq _ _)) by (cbn; lia). by rewrite !lookup_insert_eq.
  - destruct (delete i v) as [|y v'].
    + change (Z.of_nat (length (@nil Z)) =? 0)%Z with true. cbv iota. rewrite !lookup_delete_ne by done. apply Hp.
    + rewrite (proj2 (Z.eqb_neq _ _)) by (cbn; lia). rewrite !lookup_insert_ne by done. apply Hp.
Qed.

Lemma index_term_ok idx d t D has :
  post_ok (postings idx) (doc_freq idx) D has → ¬ has d t → d ∈ D → (Z.of_nat (size D) < 2 ^ 32)%Z →
  let idx' := index_term d idx t in
  post_ok (postings idx') (doc_freq idx') D (λ d' t', has d' t' ∨ d' = d ∧ t' = t).
Proof.
  intros Hp Hd HD Hsz. pose proof (po_post _ _ _ _ Hp t) as Ht. pose proof (po_freq _ _ _ _ Hp t) as Hf.
  unfold index_term. cbn. set (v := default [] (postings idx !! t)).
  assert (Hv : StronglySorted Z.lt v ∧ (∀ d, d ∈ v ↔ has d t) ∧
    default 0%Z (doc_freq idx !! t) = Z.of_nat (length v)).
  { unfold v. rewrite Hf. destruct (postings idx !! t) as [w|]; cbn; [naive_solver|].
    split; [constructor|]. split; [|done]. intros d'. split; [by intros ?%elem_of_nil|by intros ?%Ht]. }
  destruct Hv as (Hs&Hel&->). clear Ht Hf.
  destruct (binary_search_insert v d Hs) as (i&->&Hi&Hs'); [by rewrite Hel|].
  rewrite (bool_decide_eq_false_2 _ Hi), orb_true_r.
  assert (Hin : ∀ d', d' ∈ take i v ++ d :: drop i v ↔ has d' t ∨ d' = d).
  { intros d'. rewrite <-Hel. rewrite <-(take_drop i v) at 3. rewrite !elem_of_app, elem_of_cons. tauto. }
  assert (Hlen : length (take i v ++ d :: drop i v) = S (length v)).
  { rewrite <-(take_drop i v) at 3. rewrite !length_app. cbn. lia. }
  assert (Hle : S (length v) ≤ size D).
  { rewrite <-Hlen, <-(size_list_to_set (C:=gset Z)) by by apply StronglySorted_lt_NoDup.
    apply subseteq_size. intros d' [Hd'| ->]%elem_of_list_to_set%Hin; [by eapply po_dom|done]. }
  split; [intros d' t' [?|[-> _]]; [by eapply po_dom|done]|intros t'|intros t'].
  - rewrite lookup_insert. case_decide as Hc; [subst t'|].
    + split; [by destruct (take i v)|]. split; [done|]. intros d'. rewrite Hin. tauto.
    + pose proof (po_post _ _ _ _ Hp t') as Ht'. destruct (postings idx !! t') as [w|].
      * destruct Ht' as (?&?&Hw). split; [done|]. split; [done|]. intros d'. rewrite Hw.
        split; [by left|intros [?|[_ ?]]; [done|by subst]].
      * intros d' [Hd'|[_ ?]]; [by apply Ht' in Hd'|by subst].
  - rewrite !lookup_insert. case_decide; [|apply Hp]. cbn. rewrite Hlen. f_equal.
    rewrite u32_wrap_small; [lia|]. unfold is_u32, U32_MAX. lia.
Qed.

(** The fields the loops leave alone. *)
Definition same_docs (idx idx' : InvertedIndex) : Prop :=
  doc_lengths idx' = doc_lengths idx ∧ indexed_docs idx' = indexed_docs idx ∧
  total_docs idx' = total_docs idx.

Lemma remove_terms_ok d terms D idx has :
  post_ok (postings idx) (doc_freq idx) D has → NoDup terms → (∀ t, t ∈ terms → has d t) →
  let idx' := foldl (remove_term d) idx terms in
  post_ok (postings idx') (doc_freq idx') D (λ d' t', has d' t' ∧ ¬ (d' = d ∧ t' ∈ terms)) ∧
  same_docs idx idx'.
Proof.
  revert idx has. induction terms as [|t terms IH]; intros idx has Hp Hnd Hin.
  { cbn. split; [|done]. eapply post_ok_ext; [|done]. intros d' t'. split; [|tauto].
    intros ?. split; [done|]. by intros [_ ?%elem_of_nil]. }
  apply NoDup_cons in Hnd as [Ht Hnd]. cbn [foldl].
  pose proof (remove_term_ok idx d t D has Hp ltac:(apply Hin; left)) as Hp1.
  destruct (IH _ _ Hp1 Hnd) as [Hp2 Hsame].
  { intros t' Ht'. split; [apply Hin; by right|]. intros [_ ->]. done. }
  split; [|exact Hsame]. eapply post_ok_ext; [|exact Hp2]. intros d' t'. cbn. rewrite elem_of_cons. tauto.
Qed.

Lemma index_terms_ok d terms D idx has :
  post_ok (postings idx) (doc_freq idx) D has → NoDup terms → (∀ t, ¬ has d t) → d ∈ D →
  (Z.of_nat (size D) < 2 ^ 32)%Z →
  let idx' := foldl (index_term d) idx terms in
  post_ok (postings idx') (doc_freq idx') D (λ d' t', has d' t' ∨ d' = d ∧ t' ∈ terms) ∧
  same_docs idx idx'.
Proof.
  intros Hp Hnd Hno HD Hsz.
  assert (Hgen : ∀ idx has, post_ok (postings idx) (doc_freq idx) D has → (∀ t, t ∈ terms → ¬ has d t) →
    let idx' := foldl (index_term d) idx terms in
    post_ok (postings idx') (doc_freq idx') D (λ d' t', has d' t' ∨ d' = d ∧ t' ∈ terms) ∧ same_docs idx idx').
  { clear idx has Hp Hno. induction Hnd as [|t terms Ht _ IH]; intros idx has Hp Hno.
    { cbn. split; [|done]. eapply post_ok_ext; [|done]. intros d' t'. split; [by left|].
      by intros [?|[_ ?%elem_of_nil]]. }
    cbn [foldl]. pose proof (index_term_ok idx d t D has Hp ltac:(apply Hno; left) HD Hsz) as Hp1.
    destruct (IH _ _ Hp1) as [Hp2 Hsame].
    { intros t' Ht' [Hh|[_ ->]]; [|done]. revert Hh. apply Hno. by right. }
    split; [|exact Hsame]. eapply post_ok_ext; [|exact Hp2]. intros d' t'. cbn. rewrite elem_of_cons. tauto. }
  apply Hgen; auto.
Qed.

Lemma terms_of_spec `{SetOrder} tokens : NoDup (terms_of tokens) ∧ ∀ t, t ∈ terms_of tokens ↔ t ∈ tokens.
Proof.
  unfold terms_of. set (m := foldl _ _ _).
  assert (Hm : ∀ t, t ∈ dom m ↔ t ∈ tokens).
  { assert (Hgen : ∀ (m0 : gmap str Z) t, t ∈ dom (foldl
        (λ m tok, <[tok := u32_wrap (default 0%Z (m !! tok) + 1)]> m) m0 tokens) ↔ t ∈ dom m0 ∨ t ∈ tokens).
    { clear m. induction tokens as [|x l IH]; intros m0 t; cbn; [set_solver|].
      rewrite IH, dom_insert. set_solver. }
    intros t. unfold m. rewrite Hgen. set_solver. }
  assert (Hp : merge_sort str_le (set_iter (dom m)) ≡ₚ set_iter (dom m)) by apply merge_sort_Permutation.
  rewrite dedup_NoDup.
  - split; [rewrite Hp, set_iter_elements; apply NoDup_elements|].
    intros t. by rewrite Hp, set_iter_elem, Hm.
  - rewrite Hp, set_iter_elements. apply NoDup_elements.
Qed.

(** Document [d] has the term [t]. *)
Definition has_term (docs : gmap Z (list str)) (d : Z) (t : str) : Prop :=
  ∃ tokens, docs !! d = Some tokens ∧ t ∈ tokens.

(** The index of a collection of tokenized documents. *)
Record represents (idx : InvertedIndex) (docs : gmap Z (list str)) : Prop := {
  rp_post : post_ok (postings idx) (doc_freq idx) (dom docs) (has_term docs);
  rp_lengths : doc_lengths idx = (λ tokens, Z.of_nat (length tokens)) <$> docs;
  rp_indexed d : match docs !! d, indexed_docs idx !! d with
                 | Some tokens, Some terms => NoDup terms ∧ ∀ t, t ∈ terms ↔ t ∈ tokens
                 | None, None => True
                 | _, _ => False
                 end;
  rp_total : total_docs idx = Z.of_nat (size docs);
  rp_avg : recompute_avg idx = idx
}.

Lemma represents_new : represents InvertedIndex_new ∅.
Proof.
  split; [|by rewrite fmap_empty|done|done|done].
  split; [|intros t|done].
  - intros d t (?&Hd&_). by rewrite lookup_empty in Hd.
  - change (postings InvertedIndex_new !! t) with (@None (list Z)). cbn. intros d (?&Hd&_).
    by rewrite lookup_empty in Hd.
Qed.

Lemma recompute_avg_idemp idx : recompute_avg (recompute_avg idx) = recompute_avg idx.
Proof. done. Qed.

Lemma remove_doc_represents d idx docs :
  represents idx docs → represents (remove_doc d idx) (delete d docs).
Proof.
  intros Hr. unfold remove_doc. pose proof (rp_indexed _ _ Hr d) as Hd.
  destruct (indexed_docs idx !! d) as [terms|] eqn:Hi; destruct (docs !! d) as [tokens|] eqn:Hdoc; try done.
  2: { by rewrite delete_id. }
  destruct Hd as [Hnd Hin].
  match goal with |- context [foldl _ ?i terms] => set (idx0 := i) end.
  destruct (remove_terms_ok d terms (dom docs) idx0 (has_term docs)) as [Hp (Hl&Hx&Ht)]; [apply Hr|done| |].
  { intros t Ht%Hin. by exists tokens. }
  set (idx1 := foldl _ _ _) in *. cbn in Hl, Hx, Ht.
  assert (Hpos : 0 < size docs).
  { destruct (size docs) eqn:E; [|lia]. apply map_size_empty_iff in E. subst docs. by rewrite lookup_empty in Hdoc. }
  split; cbn [recompute_avg postings doc_freq doc_lengths indexed_docs total_docs].
  - assert (Hp' : post_ok (postings idx1) (doc_freq idx1) (dom docs) (has_term (delete d docs))).
    { eapply post_ok_ext; [|exact Hp]. intros d' t'. unfold has_term. split.
      - intros [(tk&Hd'&Ht') Hn]. exists tk. split; [|done]. rewrite lookup_delete_ne; [done|].
        intros <-. apply Hn. split; [done|]. apply Hin. by simplify_eq.
      - intros (tk&Hd'&Ht'). apply lookup_delete_Some in Hd' as [Hne Hd']. split; [by exists tk|].
        by intros [-> _]. }
    split; [|apply Hp'|apply Hp']. intros d' t' (tk&Hd'&_). apply elem_of_dom. by eexists.
  - by rewrite Hl, (rp_lengths _ _ Hr), fmap_delete.
  - intros d'. rewrite Hx. destruct (decide (d = d')) as [<-|Hne]; [by rewrite !lookup_delete_eq|].
    rewrite !lookup_delete_ne by done. apply (rp_indexed _ _ Hr d').
  - rewrite Ht, (rp_total _ _ Hr), (proj2 (Z.ltb_lt _ _)) by lia.
    rewrite map_size_delete, Hdoc. lia.
  - apply recompute_avg_idemp.
Qed.

Lemma index_doc_represents `{SetOrder} d text idx docs :
  represents idx docs → (Z.of_nat (S (size docs)) < 2 ^ 32)%Z →
  (Z.of_nat (length (tokenize text)) < 2 ^ 32)%Z →
  represents (index_doc d text idx) (<[d := tokenize text]> docs).
Proof.
  intros Hr Hsz Hlen. unfold index_doc.
  rewrite <-(insert_delete_eq docs d).
  assert (Hr1 : represents (if bool_decide (is_Some (doc_lengths idx !! d)) then remove_doc d idx else idx)
                  (delete d docs)).
  { case_bool_decide as Hd; [by apply remove_doc_represents|]. rewrite delete_id; [done|].
    rewrite (rp_lengths _ _ Hr), lookup_fmap, fmap_is_Some in Hd. by apply eq_None_not_Some. }
  assert (Hsz1 : (Z.of_nat (S (size (delete d docs))) < 2 ^ 32)%Z).
  { pose proof (map_size_delete d docs) as Hs. destruct (docs !! d); unfold id in Hs; lia. }
  assert (Hnone : delete d docs !! d = None) by apply lookup_delete_eq.
  revert Hr1 Hsz1 Hnone. generalize (delete d docs). clear Hr Hsz docs.
  match goal with |- context [represents ?i] => generalize i end. clear idx. intros idx docs Hr Hsz Hnone.
  set (tokens := tokenize text) in *. rewrite u32_wrap_small by (unfold is_u32, U32_MAX; lia).
  set (terms := if (Z.of_nat (length tokens) =? 0)%Z then [] else terms_of tokens).
  assert (Hterms : NoDup terms ∧ ∀ t, t ∈ terms ↔ t ∈ tokens).
  { unfold terms. destruct (Z.eqb_spec (Z.of_nat (length tokens)) 0) as [Hz|]; [|apply terms_of_spec].
    destruct tokens; [|cbn in Hz; lia]. split; [constructor|done]. }
  destruct Hterms as [Hnd Hin].
  assert (Hp0 : post_ok (postings idx) (doc_freq idx) ({[d]} ∪ dom docs) (has_term docs)).
  { destruct (rp_post _ _ Hr) as [Hdom Hpo Hfr]. split; [|done|done]. intros d' t Ht%Hdom. set_solver. }
  destruct (index_terms_ok d terms _ idx (has_term docs) Hp0 Hnd) as [Hp (Hl&Hx&Ht)].
  { intros t (tk&Hd&_). congruence. }
  { set_solver. }
  { rewrite size_union by (apply disjoint_singleton_l; by apply not_elem_of_dom).
    rewrite size_singleton, size_dom. lia. }
  set (idx1 := foldl _ _ _) in *.
  split; cbn [recompute_avg postings doc_freq doc_lengths indexed_docs total_docs].
  - eapply post_ok_ext in Hp as [Hdom Hpo Hfr]; [split; [|exact Hpo|exact Hfr]|].
    + intros d' t' Hd'. rewrite dom_insert. by eapply Hdom.
    + intros d' t'. unfold has_term. rewrite Hin. split.
      * intros [(tk&Hd'&?)|[-> ?]]; [exists tk; rewrite lookup_insert_ne by congruence; done|].
        exists tokens. by rewrite lookup_insert_eq.
      * intros (tk&Hd'&?). rewrite lookup_insert in Hd'. case_decide; simplify_eq; [by right|left; by exists tk].
  - by rewrite Hl, (rp_lengths _ _ Hr), fmap_insert.
  - intros d'. rewrite Hx, !lookup_insert. case_decide; [done|]. apply (rp_indexed _ _ Hr d').
  - rewrite Ht, (rp_total _ _ Hr), map_size_insert_None by done.
    rewrite u32_wrap_small; [lia|]. unfold is_u32, U32_MAX. lia.
  - apply recompute_avg_idemp.
Qed.

(** ** Runs of a client *)

Inductive FtsCmd : Type :=
| FIndex (doc_id : Z) (text : str)
| FRemove (doc_id : Z).

Definition fts_step `{SetOrder} (idx : InvertedIndex) (c : FtsCmd) : InvertedIndex :=
  match c with FIndex d text => index_doc d text idx | FRemove d => remove_doc d idx end.
Definition docs_step (docs : gmap Z (list str)) (c : FtsCmd) : gmap Z (list str) :=
  match c with FIndex d text => <[d := tokenize text]> docs | FRemove d => delete d docs end.

Definition fts_run `{SetOrder} (cs : list FtsCmd) : InvertedIndex := foldl fts_step InvertedIndex_new cs.
Definition docs_run (cs : list FtsCmd) : gmap Z (list str) := foldl docs_step ∅ cs.

(** No text has [2^32] tokens, and there are fewer commands than that. *)
Definition fts_bounded (cs : list FtsCmd) : Prop :=
  (Z.of_nat (length cs) < 2 ^ 32)%Z ∧
  Forall (λ c, match c with
               | FIndex _ text => (Z.of_nat (length (tokenize text)) < 2 ^ 32)%Z
               | FRemove _ => True
               end) cs.

Lemma fts_run_represents `{SetOrder} cs : fts_bounded cs → represents (fts_run cs) (docs_run cs).
Proof.
  intros [Hlen Hb]. unfold fts_run, docs_run.
  assert (Hgen : ∀ idx docs, represents idx docs → (Z.of_nat (size docs + length cs) < 2 ^ 32)%Z →
    represents (foldl fts_step idx cs) (foldl docs_step docs cs)).
  { clear Hlen. induction Hb as [|c cs Hc _ IH]; intros idx docs Hr Hsz; [done|]. cbn in *.
    destruct c as [d text|d]; cbn in *; apply IH.
    - apply index_doc_represents; [done|lia|done].
    - pose proof (map_size_insert d (tokenize text) docs) as Hs. destruct (docs !! d); unfold id in Hs; lia.
    - by apply remove_doc_represents.
    - pose proof (map_size_delete d docs) as Hs. destruct (docs !! d); unfold id in Hs; lia. }
  apply Hgen; [apply represents_new|]. rewrite map_size_empty. lia.
Qed.

(** C35: the inverted index is the index of its documents.  After any sequence of
    insertions, replacements and removals, the postings of a term are the sorted
    ids of exactly the current documents whose text has the token, terms no
    document has are gone, the document frequencies, the token counts and the
    number of documents are exact, and the average length is the quotient of
    the total by the number of documents. *)
Theorem fts_index_exact `{SetOrder} (cs : list FtsCmd) (Hb : fts_bounded cs) :
  let idx := fts_run cs in
  let docs := docs_run cs in
  (∀ t, match postings idx !! t with
        | Some v => StronglySorted Z.lt v ∧ v ≠ [] ∧ (∀ d, d ∈ v ↔ has_term docs d t) ∧
                    doc_freq idx !! t = Some (Z.of_nat (length v))
        | None => (∀ d, ¬ has_term docs d t) ∧ doc_freq idx !! t = None
        end) ∧
  (∀ d, doc_lengths idx !! d = (λ tokens, Z.of_nat (length tokens)) <$> docs !! d) ∧
  total_docs idx = Z.of_nat (size docs) ∧
  avg_doc_length idx =
    (if (total_docs idx =? 0)%Z then f64_zero
     else f64_div (f64_of_Z (map_fold (λ _ l acc, u64_add acc l) 0%Z (doc_lengths idx)))
            (f64_of_Z (total_docs idx))).
Proof.
  cbn zeta. pose proof (fts_run_represents cs Hb) as Hr.
  split; [|split; [|split; [apply Hr|]]].
  - intros t. pose proof (po_post _ _ _ _ (rp_post _ _ Hr) t) as Ht.
    pose proof (po_freq _ _ _ _ (rp_post _ _ Hr) t) as Hf.
    destruct (postings (fts_run cs) !! t) as [v|]; [|done]. destruct Ht as (?&?&?). done.
  - intros d. rewrite (rp_lengths _ _ Hr). apply lookup_fmap.
  - exact (eq_sym (f_equal avg_doc_length (rp_avg _ _ Hr))).
Qed.

(** ** Search *)

#[export] Instance has_term_dec docs d t : Decision (has_term docs d t).
Proof.
  unfold has_term. destruct (docs !! d) as [tokens|] eqn:Hd.
  - destruct (decide (t ∈ tokens)) as [Hin|Hn]; [left; by exists tokens|].
    right. intros (tk&Htk&Hin). apply Hn. injection Htk as <-. exact Hin.
  - right. by intros (tk&Htk&_).
Defined.

Section search_correct.
  Context `{FloatLn, SetOrder}.

(** The score of a document: the contributions of the query's terms it has, in
    their order. *)
Definition doc_score (idx : InvertedIndex) (docs : gmap Z (list str)) (query : str) (d : Z) : f64 :=
  foldl (λ acc t, f64_add acc (contribution idx (default 0%Z (doc_freq idx !! t)) d)) f64_zero
    (base.filter (λ t, has_term docs d t) (query_terms query)).

Definition matches (docs : gmap Z (list str)) (query : str) (d : Z) : Prop :=
  ∃ t, t ∈ tokenize query ∧ has_term docs d t.

Lemma score_fold_lookup (c : Z → f64) (v : list Z) (scores : gmap Z f64) d :
  NoDup v →
  foldl (λ s d, <[d := f64_add (default f64_zero (s !! d)) (c d)]> s) scores v !! d =
  if decide (d ∈ v) then Some (f64_add (default f64_zero (scores !! d)) (c d)) else scores !! d.
Proof.
  intros Hnd. revert scores. induction Hnd as [|x v Hx _ IH]; intros scores; [done|]. cbn.
  rewrite IH. destruct (decide (d = x)) as [->|Hne].
  - rewrite decide_False by done. rewrite lookup_insert_eq, decide_True by left. done.
  - rewrite lookup_insert_ne by done. destruct (decide (d ∈ v)), (decide (d ∈ x :: v)); try done; set_solver.
Qed.

Lemma score_term_lookup idx docs scores t d :
  represents idx docs →
  score_term idx scores t !! d =
  if decide (has_term docs d t)
  then Some (f64_add (default f64_zero (scores !! d)) (contribution idx (default 0%Z (doc_freq idx !! t)) d))
  else scores !! d.
Proof.
  intros Hr. pose proof (po_post _ _ _ _ (rp_post _ _ Hr) t) as Ht.
  pose proof (po_freq _ _ _ _ (rp_post _ _ Hr) t) as Hf. unfold score_term. rewrite Hf.
  destruct (postings idx !! t) as [v|]; cbn.
  - destruct Ht as (_&Hs&Hel). rewrite score_fold_lookup by by apply StronglySorted_lt_NoDup.
    destruct (decide (d ∈ v)), (decide (has_term docs d t)); naive_solver.
  - by rewrite decide_False.
Qed.

Lemma scores_lookup idx docs query d :
  represents idx docs →
  foldl (score_term idx) ∅ (query_terms query) !! d =
  if decide (Exists (λ t, has_term docs d t) (query_terms query))
  then Some (doc_score idx docs query d) else None.
Proof.
  intros Hr. unfold doc_score.
  assert (Hgen : ∀ ts (scores : gmap Z f64), foldl (score_term idx) scores ts !! d =
    if decide (Exists (λ t, has_term docs d t) ts)
    then Some (foldl (λ acc t, f64_add acc (contribution idx (default 0%Z (doc_freq idx !! t)) d))
                 (default f64_zero (scores !! d)) (base.filter (λ t, has_term docs d t) ts))
    else scores !! d).
  { intros ts. induction ts as [|t ts IH]; intros scores.
    { by destruct (decide _) as [He|]; [inversion He|]. }
    cbn [foldl].
    rewrite IH, (score_term_lookup _ docs) by done. rewrite filter_cons.
    destruct (decide (has_term docs d t)) as [Ht|Ht].
    - rewrite (decide_True (P := Exists _ (t :: ts))) by by left. cbn.
      destruct (decide (Exists _ ts)) as [|Hn]; [done|].
      replace (base.filter (λ t, has_term docs d t) ts) with (@nil str); [done|].
      symmetry. apply filter_none. intros t' Ht' Hh. apply Hn, Exists_exists. by exists t'.
    - destruct (decide (Exists _ ts)) as [He|Hn].
      + by rewrite decide_True by by right.
      + rewrite decide_False; [done|]. rewrite Exists_cons. tauto. }
  by rewrite Hgen.
Qed.

Lemma SFcompare_antisym a b : SFcompare b a = CompOpp <$> SFcompare a b.
Proof.
  destruct a as [[]|[]| |[] m e], b as [[]|[]| |[] m' e']; cbn; try done;
    rewrite (Z.compare_antisym e e'); destruct (e ?= e')%Z; cbn; try done;
    (change (Pos.compare_cont Eq m' m) with (m' ?= m)%positive;
     change (Pos.compare_cont Eq m m') with (m ?= m')%positive;
     rewrite (Pos.compare_antisym m m')); by destruct (m ?= m')%positive.
Qed.

#[local] Instance hit_le_dec' : RelDecision hit_le.
Proof. intros a b. unfold hit_le. apply _. Defined.

#[local] Instance hit_le_total : Total hit_le.
Proof.
  intros a b. unfold hit_le, hit_compare. rewrite (SFcompare_antisym (sh_score b) (sh_score a)).
  rewrite (Z.compare_antisym (sh_doc_id a) (sh_doc_id b)).
  destruct (SFcompare (sh_score b) (sh_score a)) as [[]|]; cbn;
    destruct (sh_doc_id a ?= sh_doc_id b)%Z; cbn; (by left) || (by right).
Qed.

(** The hits of a query on an index that represents the documents. *)
Lemma search_represents idx docs (query : str) (limit : nat) :
  represents idx docs →
  ∃ ranked, search idx query limit = take limit ranked ∧ Sorted hit_le ranked ∧
    NoDup (map sh_doc_id ranked) ∧
    ∀ h, h ∈ ranked ↔
      matches docs query (sh_doc_id h) ∧ sh_score h = doc_score idx docs query (sh_doc_id h).
Proof.
  intros Hr. unfold search.
  destruct (bool_decide (tokenize query = []) || (total_docs idx =? 0)%Z) eqn:Hempty.
  { exists []. rewrite take_nil. split; [done|]. split; [constructor|]. split; [constructor|].
    intros h. split; [by intros ?%elem_of_nil|]. intros [(t&Ht&tk&Hd&_) _]. exfalso.
    apply orb_true_iff in Hempty as [He|He].
    - apply bool_decide_eq_true in He. rewrite He in Ht. by apply elem_of_nil in Ht.
    - rewrite (rp_total _ _ Hr) in He. apply Z.eqb_eq in He.
      assert (Hz : size docs = 0) by lia. apply map_size_empty_iff in Hz. subst docs.
      by rewrite lookup_empty in Hd. }
  set (scores := foldl (score_term idx) ∅ (query_terms query)).
  set (l := map _ (set_iter (dom scores))).
  assert (Hp : merge_sort hit_le l ≡ₚ l) by apply merge_sort_Permutation.
  exists (merge_sort hit_le l). split; [done|]. split; [apply Sorted_merge_sort, _|].
  assert (Hmatch : ∀ d, d ∈ dom scores ↔ matches docs query d).
  { intros d. rewrite elem_of_dom. unfold scores. rewrite (scores_lookup idx docs) by done.
    unfold matches. case_decide as He; rewrite Exists_exists in He; unfold query_terms in He.
    - split; [intros _|by eexists]. destruct He as (t&Ht&?). exists t. split; [|done].
      rewrite dedup_elem, (merge_sort_Permutation str_le) in Ht. done.
    - split; [by intros []|]. intros (t&Ht&?). destruct He. exists t. split; [|done].
      by rewrite dedup_elem, (merge_sort_Permutation str_le). }
  split.
  - rewrite Hp. unfold l. rewrite map_map. cbn. rewrite map_id, set_iter_elements. apply NoDup_elements.
  - intros h. rewrite Hp. unfold l. rewrite list_elem_of_In, in_map_iff.
    assert (Hsc : ∀ d, d ∈ dom scores → default f64_zero (scores !! d) = doc_score idx docs query d).
    { intros d Hd. apply elem_of_dom in Hd as [s Hs]. rewrite Hs. unfold scores in Hs.
      rewrite (scores_lookup idx docs) in Hs by done. case_decide; by simplify_eq/=. }
    split.
    + intros (d&<-&Hd%list_elem_of_In). rewrite set_iter_elem in Hd. cbn.
      split; [by apply Hmatch|by apply Hsc].
    + intros [Hm Hs]. apply Hmatch in Hm. exists (sh_doc_id h). rewrite <-list_elem_of_In, set_iter_elem.
      split; [|done]. destruct h as [d s]. cbn in *. by rewrite Hs, Hsc.
Qed.

#[export] Instance matches_dec docs query d : Decision (matches docs query d).
Proof.
  destruct (decide (Exists (λ t, has_term docs d t) (tokenize query))) as [He|Hn]; [left|right].
  - apply Exists_exists in He. exact He.
  - intros Hm. apply Hn, Exists_exists, Hm.
Defined.

(** With room for all of them, the documents found are those that match. *)
Lemma search_ids idx docs (query : str) (limit : nat) :
  represents idx docs → size docs ≤ limit →
  map sh_doc_id (search idx query limit) ≡ₚ
    base.filter (λ d, matches docs query d) (elements (dom docs)).
Proof.
  intros Hr Hl. destruct (search_represents idx docs query limit Hr) as (ranked & -> & _ & Hnd & Hel).
  assert (Hids : map sh_doc_id ranked ≡ₚ base.filter (λ d, matches docs query d) (elements (dom docs))).
  { apply NoDup_Permutation; [done|apply NoDup_filter, NoDup_elements|]. intros d.
    rewrite list_elem_of_filter, elem_of_elements, elem_of_dom, list_elem_of_In, in_map_iff. split.
    - intros (h & <- & Hh%list_elem_of_In). apply Hel in Hh as [Hm _]. split; [done|].
      destruct Hm as (t & _ & tk & Htk & _). by exists tk.
    - intros [Hm _]. exists (mkSearchHit d (doc_score idx docs query d)). split; [done|].
      by apply list_elem_of_In, Hel. }
  rewrite take_ge; [done|]. rewrite <-(length_map sh_doc_id), Hids.
  transitivity (length (elements (dom docs))); [apply length_filter|].
  change (size (dom docs) ≤ limit). by rewrite size_dom.
Qed.

(** C20: search is exact.  After any sequence of insertions and removals, the
    hits for a query are the first [limit] of a list that holds, once each,
    exactly the current documents with at least one token of the query, each
    with the sum of the contributions of the distinct query terms it has,
    sorted by score and then by document. *)
Theorem fts_search_exact (cs : list FtsCmd) (query : str) (limit : nat) (Hb : fts_bounded cs) :
  let idx := fts_run cs in
  let docs := docs_run cs in
  ∃ ranked, search idx query limit = take limit ranked ∧ Sorted hit_le ranked ∧
    NoDup (map sh_doc_id ranked) ∧
    ∀ h, h ∈ ranked ↔
      matches docs query (sh_doc_id h) ∧ sh_score h = doc_score idx docs query (sh_doc_id h).
Proof. apply search_represents, fts_run_represents, Hb. Qed.
End search_correct.

(** ** A sample collection *)

Definition chars (s : string) : str := map Z_of_byte (string_bytes s).

(** The rational part of the score alone: a logarithm the platform could not
    have, but every statement above holds for. *)
Definition sample_ln : FloatLn := {| f64_ln x := x |}.

Definition sample_docs : list FtsCmd :=
  [FIndex 3 (chars "Quick foxes, are quick!"); FIndex 1 (chars "the quick_brown fox");
   FIndex 2 (chars "the lazy dog"); FIndex 2 (chars "lazy quick"); FRemove 3; FIndex 9 (chars "...")].

Lemma sample_bounded : fts_bounded sample_docs.
Proof. split; [vm_compute; reflexivity|]. repeat constructor. Qed.

Example tokenize_sample :
  tokenize (chars "foo_bar  Baz-QUX!") = [chars "foo"; chars "bar"; chars "baz"; chars "qux"].
Proof. vm_compute. reflexivity. Qed.

Lemma fts_index_exact_witness :
  postings (fts_run sample_docs) !! chars "quick" = Some [1; 2]%Z ∧
  postings (fts_run sample_docs) !! chars "dog" = None ∧
  total_docs (fts_run sample_docs) = Z.of_nat (size (docs_run sample_docs)).
Proof.
  destruct (fts_index_exact sample_docs sample_bounded) as (_&_&Ht&_).
  split; [vm_compute; reflexivity|]. split; [vm_compute; reflexivity|exact Ht].
Defined.

Lemma fts_search_exact_witness :
  map sh_doc_id (search (H := sample_ln) (fts_run sample_docs) (chars "QUICK lazy") 10) = [2; 1]%Z ∧
  ∀ h, h ∈ search (H := sample_ln) (fts_run sample_docs) (chars "QUICK lazy") 10 →
    matches (docs_run sample_docs) (chars "QUICK lazy") (sh_doc_id h).
Proof.
  split; [vm_compute; reflexivity|]. intros h Hh.
  destruct (fts_search_exact (H := sample_ln) sample_docs (chars "QUICK lazy") 10 sample_bounded)
    as (ranked&Hs&_&_&Hr).
  apply Hr. rewrite Hs in Hh. by eapply subseteq_take.
Defined.
