(* ===== verification/Sab.v ===== *)
(** * Shared layout buffer ([src/sab/mod.rs])

    [SabLayoutWriter], a packed buffer of 16-byte entries.  An [f32] is its
    32-bit pattern here, which is what the buffer holds; arithmetic goes through
    the value of the pattern, and the pattern of a NaN an addition gives is a
    parameter ([F32Nan]).  A panic is [None]. *)

From S2P Require Import Prelude.
From Stdlib Require Import SpecFloat.

Notation bytes := (list byte) (only parsing).

(** ** [f32] as a bit pattern *)

Definition f32_value (bits : Z) : spec_float :=
  let s := (2 ^ 31 <=? bits)%Z in
  let e := ((bits / 2 ^ 23) mod 256)%Z in
  let m := (bits mod 2 ^ 23)%Z in
  if (e =? 255)%Z then (if (m =? 0)%Z then S754_infinity s else S754_nan)
  else if (e =? 0)%Z then
    (if (m =? 0)%Z then S754_zero s else S754_finite s (Z.to_pos m) (-149))
  else S754_finite s (Z.to_pos (m + 2 ^ 23)) (e - 150).

Definition sign_bit (s : bool) : Z := if s then 2 ^ 31 else 0.

Definition is_f32 (x : Z) : Prop := (0 ≤ x < 2 ^ 32)%Z.

(** The pattern of the NaN an addition of two patterns returns: Rust and the
    hardware leave its sign and payload open. *)
Class F32Nan : Type := {
  nan_bits : Z → Z → Z;
  nan_bits_f32 a b : is_f32 (nan_bits a b);
  nan_bits_nan a b : f32_value (nan_bits a b) = S754_nan
}.

(** The pattern of a value that is not a NaN. *)
Definition f32_bits (nan : Z) (v : spec_float) : Z :=
  match v with
  | S754_zero s => sign_bit s
  | S754_infinity s => sign_bit s + 255 * 2 ^ 23
  | S754_nan => nan
  | S754_finite s m e =>
      if (Z.pos m <? 2 ^ 23)%Z then sign_bit s + Z.pos m
      else sign_bit s + (e + 150) * 2 ^ 23 + (Z.pos m - 2 ^ 23)
  end%Z.

Section sab.
  Context `{F32Nan}.

(** Addition; the wrap states the width of the pattern. *)
Definition f32_add (a b : Z) : Z :=
  u32_wrap (f32_bits (nan_bits a b) (SFadd 24 128 (f32_value a) (f32_value b))).
Definition f32_gt (a b : Z) : bool :=
  match SFcompare (f32_value a) (f32_value b) with Some Gt => true | _ => false end.
Definition f32_zero : Z := 0.

(** ** The writer *)

Definition LAYOUT_ENTRY_BYTES : nat := 16.

Record SabLayoutWriter : Type := mkSab { buffer : bytes; entry_count : nat }.

(** The multiplication is checked; a vector of more than [isize::MAX] bytes
    cannot be allocated. *)
Definition SabLayoutWriter_new (capacity_entries : Z) : option SabLayoutWriter :=
  if (USIZE_MAX <? capacity_entries * 16)%Z then None
  else if (2 ^ 63 - 1 <? capacity_entries * 16)%Z then None
  else Some (mkSab (replicate (Z.to_nat (capacity_entries * 16)) x00) 0).

(** [buffer[off..off + 4].copy_from_slice(..)] and the four reads. *)
Definition write4 (off : nat) (x : Z) (b : bytes) : option bytes :=
  if decide (off + 4 ≤ length b) then Some (take off b ++ to_le_bytes 4 x ++ drop (off + 4) b) else None.
Definition read4 (off : nat) (b : bytes) : option Z :=
  b0 ← b !! off; b1 ← b !! (off + 1); b2 ← b !! (off + 2); b3 ← b !! (off + 3);
  Some (from_le_bytes [b0; b1; b2; b3]).

Definition SabLayoutWriter_set_layout (index : nat) (y_offset height : Z) (w : SabLayoutWriter) :
    option SabLayoutWriter :=
  if decide (entry_count w < index) then None
  else
    let byte_off := index * LAYOUT_ENTRY_BYTES in
    if decide (length (buffer w) < byte_off + LAYOUT_ENTRY_BYTES) then None
    else
      b ← write4 byte_off y_offset (buffer w);
      b ← write4 (byte_off + 4) height b;
      Some (mkSab b (if decide (index = entry_count w) then S (entry_count w) else entry_count w)).

(** The [while] loop from [i], with the [n] iterations it has left. *)
Fixpoint recompute_loop (n i : nat) (b : bytes) : option bytes :=
  match n with
  | 0 => Some b
  | S n =>
      let prev_off := (i - 1) * LAYOUT_ENTRY_BYTES in
      let cur_off := i * LAYOUT_ENTRY_BYTES in
      prev_y ← read4 prev_off b;
      prev_h ← read4 (prev_off + 4) b;
      b ← write4 cur_off (f32_add prev_y prev_h) b;
      recompute_loop n (S i) b
  end.

Definition SabLayoutWriter_recompute_offsets (start_index : nat) (w : SabLayoutWriter) :
    option SabLayoutWriter :=
  if decide (entry_count w = 0 ∨ entry_count w ≤ start_index) then Some w
  else
    let i := if decide (start_index = 0) then 1 else start_index in
    b ← recompute_loop (entry_count w - i) i (buffer w);
    Some (mkSab b (entry_count w)).

(** The loop over [i..entry_count]. *)
Fixpoint height_loop (n i : nat) (b : bytes) (max : Z) : option Z :=
  match n with
  | 0 => Some max
  | S n =>
      let off := i * LAYOUT_ENTRY_BYTES in
      y ← read4 off b;
      h ← read4 (off + 4) b;
      let bottom := f32_add y h in
      height_loop n (S i) b (if f32_gt bottom max then bottom else max)
  end.

Definition SabLayoutWriter_total_height (w : SabLayoutWriter) : option Z :=
  height_loop (entry_count w) 0 (buffer w) f32_zero.

Definition SabLayoutWriter_as_bytes (w : SabLayoutWriter) : bytes := buffer w.
Definition SabLayoutWriter_capacity_entries (w : SabLayoutWriter) : nat :=
  length (buffer w) / LAYOUT_ENTRY_BYTES.

(** The inner option is the source's; the outer one the bounds checks. *)
Definition SabLayoutWriter_get_layout (index : nat) (w : SabLayoutWriter) : option (option (Z * Z)) :=
  if decide (entry_count w ≤ index) then Some None
  else
    let off := index * LAYOUT_ENTRY_BYTES in
    y ← read4 off (buffer w);
    h ← read4 (off + 4) (buffer w);
    Some (Some (y, h)).

(** ** The layout it holds *)

(** An entry on the wire: offset, height, eight zero bytes. *)
Definition encode_entry (e : Z * Z) : bytes := to_le_bytes 4 e.1 ++ to_le_bytes 4 e.2 ++ replicate 8 x00.

(** The writer of capacity [cap] that holds the entries [es]. *)
Record layout (cap : nat) (es : list (Z * Z)) (w : SabLayoutWriter) : Prop := {
  ly_buffer : buffer w = (es ≫= encode_entry) ++ replicate (16 * (cap - length es)) x00;
  ly_count : entry_count w = length es;
  ly_cap : length es ≤ cap;
  ly_f32 : Forall (λ e, is_f32 e.1 ∧ is_f32 e.2) es
}.

(** Every offset from [i] on is the bottom of the entry before it. *)
Fixpoint cascade (prev : Z * Z) (es : list (Z * Z)) : list (Z * Z) :=
  match es with
  | [] => []
  | e :: es => let e' := (f32_add prev.1 prev.2, e.2) in e' :: cascade e' es
  end.

Definition recomputed (start : nat) (es : list (Z * Z)) : list (Z * Z) :=
  let i := Nat.max 1 start in
  match es !! (i - 1) with
  | Some prev => take i es ++ cascade prev (drop i es)
  | None => es
  end.

Definition bottom_max (es : list (Z * Z)) : Z :=
  foldl (λ max e, let bottom := f32_add e.1 e.2 in if f32_gt bottom max then bottom else max) f32_zero es.

(** ** The order of patterns *)

Lemma pos_gt_trans a b c :
  Pos.compare_cont Eq a b = Gt → Pos.compare_cont Eq b c = Gt → Pos.compare_cont Eq a c = Gt.
Proof. change (Pos.compare a b = Gt → Pos.compare b c = Gt → Pos.compare a c = Gt). rewrite !Pos.compare_gt_iff. lia. Qed.
Lemma pos_lt_trans a b c :
  Pos.compare_cont Eq a b = Lt → Pos.compare_cont Eq b c = Lt → Pos.compare_cont Eq a c = Lt.
Proof. change (Pos.compare a b = Lt → Pos.compare b c = Lt → Pos.compare a c = Lt). rewrite !Pos.compare_lt_iff. lia. Qed.

Lemma SFgt_trans a b c : SFcompare a b = Some Gt → SFcompare b c = Some Gt → SFcompare a c = Some Gt.
Proof.
  destruct a as [sa|sa| |sa ma ea], b as [sb|sb| |sb mb eb], c as [sc|sc| |sc mc ec]; cbn; try done;
    try destruct sa; try destruct sb; try destruct sc; cbn; try done.
  all: destruct (Z.compare_spec ea eb), (Z.compare_spec eb ec), (Z.compare_spec ea ec); try done; try lia; subst.
  all: intros [= H1'] [= H2']; f_equal; rewrite CompOpp_iff in * || idtac; cbn in *;
    first [by eapply pos_gt_trans|by eapply pos_lt_trans].
Qed.

Lemma f32_gt_trans a b c : f32_gt a b = true → f32_gt b c = true → f32_gt a c = true.
Proof.
  unfold f32_gt. destruct (SFcompare (f32_value a) _) as [[]|] eqn:H1; try done.
  destruct (SFcompare (f32_value b) _) as [[]|] eqn:H2; try done. by rewrite (SFgt_trans _ _ _ H1 H2).
Qed.

(** The greatest of zero and the bottoms; a NaN is greater than nothing. *)
Lemma bottom_max_spec es :
  let m := bottom_max es in
  (m = f32_zero ∨ ∃ e, e ∈ es ∧ m = f32_add e.1 e.2) ∧
  (∀ e, e ∈ es → f32_gt (f32_add e.1 e.2) m = false) ∧ f32_gt f32_zero m = false.
Proof.
  unfold bottom_max. cbn zeta. induction es as [|e es IH] using rev_ind.
  { split; [by left|]. split; [by intros e ?%elem_of_nil|reflexivity]. }
  rewrite foldl_app. cbn. set (m := foldl _ _ _) in *. destruct IH as (Hm&Hall&Hz).
  assert (Hirr : f32_gt (f32_add e.1 e.2) (f32_add e.1 e.2) = false).
  { unfold f32_gt. destruct (f32_value _) as [[]|[]| |[] p z]; cbn; try done;
      rewrite Z.compare_refl; by change (Pos.compare_cont Eq p p) with (Pos.compare p p); rewrite Pos.compare_refl. }
  destruct (f32_gt (f32_add e.1 e.2) m) eqn:Hgt.
  - split; [right; exists e; split; [apply elem_of_app; right; by left|done]|].
    assert (Hkeep : ∀ x, f32_gt x m = false → f32_gt x (f32_add e.1 e.2) = false).
    { intros x Hx. destruct (f32_gt x (f32_add e.1 e.2)) eqn:Hx2; [|done]. by rewrite (f32_gt_trans _ _ _ Hx2 Hgt) in Hx. }
    split; [|by apply Hkeep]. intros e' [He|He%list_elem_of_singleton]%elem_of_app; [by apply Hkeep, Hall|by subst].
  - split; [destruct Hm as [?|(e'&He&?)]; [by left|right; exists e'; split; [apply elem_of_app; by left|done]]|].
    split; [|done]. intros e' [He|He%list_elem_of_singleton]%elem_of_app; [by apply Hall|by subst].
Qed.

(** ** Reads and writes *)

Lemma f32_add_f32 a b : is_f32 (f32_add a b).
Proof. unfold is_f32, f32_add, u32_wrap. apply Z.mod_pos_bound. lia. Qed.

Lemma read4_app (A X : bytes) k : read4 (length A + k) (A ++ X) = read4 k X.
Proof.
  assert (Hl : ∀ j, (A ++ X) !! (length A + j) = X !! j).
  { intros j. rewrite lookup_app_r by lia. f_equal. lia. }
  unfold read4. by rewrite <-!Nat.add_assoc, !Hl.
Qed.

Lemma read4_head x (R : bytes) : is_f32 x → read4 0 (to_le_bytes 4 x ++ R) = Some x.
Proof. intros Hx. change (Some (from_le_bytes (to_le_bytes 4 x)) = Some x). by rewrite from_to_le_bytes_id. Qed.

Lemma write4_app (A X Y : bytes) k x : write4 k x X = Some Y → write4 (length A + k) x (A ++ X) = Some (A ++ Y).
Proof.
  unfold write4. rewrite length_app. case_decide; [|done]. intros [= <-]. rewrite decide_True by lia.
  by rewrite take_app_add, <-Nat.add_assoc, drop_app_add, <-(assoc_L (++)).
Qed.

Lemma write4_head x y (R : bytes) : write4 0 x (to_le_bytes 4 y ++ R) = Some (to_le_bytes 4 x ++ R).
Proof.
  unfold write4. rewrite decide_True; [done|]. rewrite length_app, length_to_le_bytes. lia.
Qed.

Lemma length_encode es : length (es ≫= encode_entry) = 16 * length es.
Proof. induction es as [|e es IH]; [done|]. cbn [mbind list_bind]. rewrite length_app, IH. cbn [length]. change (length (encode_entry e)) with 16. lia. Qed.

(** The entry at the end of a prefix. *)
Section at_entry.
  Context (pre post : list (Z * Z)) (e : Z * Z) (R : bytes).
Let b := ((pre ++ e :: post) ≫= encode_entry) ++ R.

Lemma encode_split (e' : Z * Z) : ((pre ++ e' :: post) ≫= encode_entry) ++ R =
  (pre ≫= encode_entry) ++ to_le_bytes 4 e'.1 ++ to_le_bytes 4 e'.2 ++ replicate 8 x00 ++
  (post ≫= encode_entry) ++ R.
Proof. rewrite bind_app, bind_cons. unfold encode_entry at 2. by rewrite <-!(assoc_L (++)). Qed.

Lemma read_y : is_f32 e.1 → read4 (length pre * LAYOUT_ENTRY_BYTES) b = Some e.1.
Proof.
  intros He. unfold b. rewrite encode_split.
  replace (length pre * LAYOUT_ENTRY_BYTES) with (length (pre ≫= encode_entry) + 0)
    by (rewrite length_encode; unfold LAYOUT_ENTRY_BYTES; lia).
  rewrite read4_app. by apply read4_head.
Qed.

Lemma read_h : is_f32 e.2 → read4 (length pre * LAYOUT_ENTRY_BYTES + 4) b = Some e.2.
Proof.
  intros He. unfold b. rewrite encode_split.
  replace (length pre * LAYOUT_ENTRY_BYTES + 4) with (length (pre ≫= encode_entry) + (length (to_le_bytes 4 e.1) + 0))
    by (rewrite length_encode, length_to_le_bytes; unfold LAYOUT_ENTRY_BYTES; lia).
  rewrite read4_app, read4_app. by apply read4_head.
Qed.

Lemma write_y y : write4 (length pre * LAYOUT_ENTRY_BYTES) y b
  = Some (((pre ++ (y, e.2) :: post) ≫= encode_entry) ++ R).
Proof.
  unfold b. rewrite !encode_split.
  replace (length pre * LAYOUT_ENTRY_BYTES) with (length (pre ≫= encode_entry) + 0)
    by (rewrite length_encode; unfold LAYOUT_ENTRY_BYTES; lia).
  apply write4_app, write4_head.
Qed.

Lemma write_h h : write4 (length pre * LAYOUT_ENTRY_BYTES + 4) h b
  = Some (((pre ++ (e.1, h) :: post) ≫= encode_entry) ++ R).
Proof.
  unfold b. rewrite !encode_split.
  replace (length pre * LAYOUT_ENTRY_BYTES + 4) with (length (pre ≫= encode_entry) + (length (to_le_bytes 4 e.1) + 0))
    by (rewrite length_encode, length_to_le_bytes; unfold LAYOUT_ENTRY_BYTES; lia).
  apply write4_app, write4_app, write4_head.
Qed.
End at_entry.

(** ** Refinement *)

Lemma layout_new c w : (0 ≤ c)%Z → SabLayoutWriter_new c = Some w → layout (Z.to_nat c) [] w.
Proof.
  unfold SabLayoutWriter_new. intros Hc. destruct (_ <? _)%Z; [done|]. destruct (_ <? _)%Z; [done|].
  intros [= <-]. split; [|done|cbn; lia|constructor]. cbn [buffer mbind list_bind app]. f_equal. cbn. lia.
Qed.

Lemma layout_lookup cap es w i e :
  layout cap es w → es !! i = Some e →
  read4 (i * LAYOUT_ENTRY_BYTES) (buffer w) = Some e.1 ∧
  read4 (i * LAYOUT_ENTRY_BYTES + 4) (buffer w) = Some e.2.
Proof.
  intros Hl He. destruct (list_elem_of_split_length es i e He) as (pre&post&Hes&->).
  pose proof (ly_f32 _ _ _ Hl) as Hf. rewrite Forall_forall in Hf.
  destruct (Hf e) as [Hy Hh]; [by eapply list_elem_of_lookup_2|].
  rewrite (ly_buffer _ _ _ Hl), Hes. split; [by apply read_y|by apply read_h].
Qed.

Lemma get_layout_refines cap es w i : layout cap es w → SabLayoutWriter_get_layout i w = Some (es !! i).
Proof.
  intros Hl. unfold SabLayoutWriter_get_layout. rewrite (ly_count _ _ _ Hl). case_decide as Hi.
  - by rewrite lookup_ge_None_2.
  - destruct (lookup_lt_is_Some_2 es i) as [[y h] He]; [lia|].
    destruct (layout_lookup cap es w i _ Hl He) as [Hy Hh]. cbn zeta. rewrite Hy, He. cbn. by rewrite Hh.
Qed.

(** A fresh entry is written over sixteen zero bytes. *)
Lemma zero_entry : encode_entry (0, 0)%Z = replicate 16 x00.
Proof. reflexivity. Qed.

Definition spec_set (cap i : nat) (y h : Z) (es : list (Z * Z)) : option (list (Z * Z)) :=
  if decide (i ≤ length es ∧ i < cap)
  then Some (if decide (i = length es) then es ++ [(y, h)] else <[i := (y, h)]> es) else None.

Lemma set_layout_refines cap es w i y h :
  layout cap es w → is_f32 y → is_f32 h →
  match SabLayoutWriter_set_layout i y h w, spec_set cap i y h es with
  | Some w', Some es' => layout cap es' w'
  | None, None => True
  | _, _ => False
  end.
Proof.
  intros Hl Hy Hh. unfold SabLayoutWriter_set_layout, spec_set. rewrite (ly_count _ _ _ Hl).
  pose proof (ly_cap _ _ _ Hl) as Hcap.
  assert (Hlen : length (buffer w) = 16 * cap).
  { rewrite (ly_buffer _ _ _ Hl), length_app, length_encode, length_replicate. lia. }
  case_decide as H1; [rewrite decide_False by lia; done|]. cbn zeta. rewrite Hlen.
  case_decide as H2; unfold LAYOUT_ENTRY_BYTES in H2; [rewrite decide_False by lia; done|].
  rewrite (decide_True (P := i ≤ length es ∧ i < cap)) by lia.
  assert (Hsplit : ∃ pre e post R, i = length pre ∧ buffer w = ((pre ++ e :: post) ≫= encode_entry) ++ R ∧
    R = replicate (16 * (cap - length (pre ++ e :: post))) x00 ∧
    (if decide (i = length es) then es ++ [(y, h)] else <[i := (y, h)]> es) = pre ++ (y, h) :: post ∧
    (if decide (i = length es) then S (length es) else length es) = length (pre ++ e :: post) ∧
    length (pre ++ e :: post) ≤ cap ∧ Forall (λ e, is_f32 e.1 ∧ is_f32 e.2) (pre ++ post)).
  { pose proof (ly_f32 _ _ _ Hl) as Hf. case_decide as Hi.
    - exists es, (0, 0)%Z, [], (replicate (16 * (cap - S (length es))) x00).
      assert (Hlen1 : length (es ++ [(0, 0)%Z]) = S (length es)) by (rewrite length_app; cbn; lia).
      rewrite Hlen1, app_nil_r. split; [done|]. split; [|split; [done|]; split; [done|]; split; [done|]; split; [lia|done]].
      rewrite bind_app, (ly_buffer _ _ _ Hl), <-(assoc_L (++)). f_equal. cbn [mbind list_bind].
      rewrite app_nil_r, zero_entry, <-replicate_add. f_equal. lia.
    - destruct (lookup_lt_is_Some_2 es i) as [e He]; [lia|].
      destruct (list_elem_of_split_length es i e He) as (pre&post&Hes&->).
      exists pre, e, post, (replicate (16 * (cap - length es)) x00). rewrite <-Hes. split; [done|].
      split; [apply Hl|]. split; [done|]. split; [|split; [done|]; split; [done|]].
      + rewrite Hes. rewrite insert_app_r_alt by lia. by rewrite Nat.sub_diag.
      + rewrite Hes in Hf. apply Forall_app in Hf as [? [_ ?]%Forall_cons]. by apply Forall_app. }
  destruct Hsplit as (pre&e&post&R&->&Hb&HR&->&->&Hle&Hf). rewrite Hb.
  rewrite (write_y pre post e R y). cbn [mbind option_bind]. rewrite (write_h pre post (y, e.2) R h).
  cbn [mbind option_bind fst]. rewrite !length_app in *. split; cbn [buffer entry_count].
  - by rewrite HR, length_app.
  - by rewrite length_app.
  - by rewrite length_app.
  - apply Forall_app in Hf as [? ?]. apply Forall_app. split; [done|]. by constructor.
Qed.

Lemma recompute_loop_spec pre prev es (R : bytes) :
  Forall (λ e, is_f32 e.1 ∧ is_f32 e.2) (prev :: es) →
  recompute_loop (length es) (S (length pre)) (((pre ++ prev :: es) ≫= encode_entry) ++ R) =
  Some (((pre ++ prev :: cascade prev es) ≫= encode_entry) ++ R).
Proof.
  revert pre prev. induction es as [|e es IH]; intros pre prev Hf; [done|].
  apply Forall_cons in Hf as [[Hy Hh] Hf]. apply Forall_cons in Hf as [[Hy' Hh'] Hf].
  cbn [recompute_loop length cascade]. cbn zeta.
  replace (S (length pre) - 1) with (length pre) by lia.
  rewrite (read_y pre (e :: es) prev R Hy). cbn [mbind option_bind].
  rewrite (read_h pre (e :: es) prev R Hh). cbn [mbind option_bind].
  assert (Hassoc : ∀ x l, pre ++ prev :: x :: l = (pre ++ [prev]) ++ x :: l) by (intros; by rewrite <-(assoc_L (++))).
  rewrite !Hassoc. replace (S (length pre)) with (length (pre ++ [prev])) by (rewrite length_app; cbn; lia).
  rewrite (write_y (pre ++ [prev]) es e R). cbn [mbind option_bind].
  apply IH. constructor; [|done]. split; [apply f32_add_f32|done].
Qed.

Lemma length_cascade prev es : length (cascade prev es) = length es.
Proof. revert prev. induction es as [|e es IH]; intros prev; [done|]. cbn. by rewrite IH. Qed.

Lemma cascade_f32 prev es :
  Forall (λ e, is_f32 e.1 ∧ is_f32 e.2) es → Forall (λ e, is_f32 e.1 ∧ is_f32 e.2) (cascade prev es).
Proof.
  intros Hf. revert prev. induction Hf as [|e es [_ Hh] _ IH]; intros prev; cbn; constructor; [|apply IH].
  split; [apply f32_add_f32|done].
Qed.

Lemma recomputed_split start es :
  (es = [] ∨ length es ≤ start) ∧ recomputed start es = es ∨
  ∃ pre prev post, es = pre ++ prev :: post ∧ S (length pre) = Nat.max 1 start ∧
    recomputed start es = pre ++ prev :: cascade prev post.
Proof.
  unfold recomputed. destruct (es !! (Nat.max 1 start - 1)) as [prev|] eqn:He.
  - right. destruct (list_elem_of_split_length _ _ _ He) as (pre&post&->&Hlen).
    exists pre, prev, post. split; [done|]. split; [lia|]. replace (Nat.max 1 start) with (length (pre ++ [prev]))
      by (rewrite length_app; cbn; lia).
    replace (pre ++ prev :: post) with ((pre ++ [prev]) ++ post) by by rewrite <-(assoc_L (++)).
    rewrite take_app_length, drop_app_length. by rewrite <-(assoc_L (++)).
  - left. split; [|done]. apply lookup_ge_None in He. destruct es; [by left|]. cbn in *. right. lia.
Qed.

Lemma recompute_refines cap es w start :
  layout cap es w → ∃ w', SabLayoutWriter_recompute_offsets start w = Some w' ∧
    layout cap (recomputed start es) w'.
Proof.
  intros Hl. unfold SabLayoutWriter_recompute_offsets. rewrite (ly_count _ _ _ Hl).
  destruct (recomputed_split start es) as [[Hor ->]|(pre&prev&post&Hes&Hlen&->)].
  { rewrite decide_True; [by exists w|]. destruct Hor as [->|]; [by left|by right]. }
  pose proof (ly_f32 _ _ _ Hl) as Hf. pose proof (ly_cap _ _ _ Hl) as Hcap. rewrite Hes in Hf, Hcap.
  assert (Hlen' : length (pre ++ prev :: cascade prev post) = length es).
  { rewrite Hes, !length_app. cbn. by rewrite length_cascade. }
  assert (Hf' : Forall (λ e, is_f32 e.1 ∧ is_f32 e.2) (pre ++ prev :: cascade prev post)).
  { apply Forall_app in Hf as [? [? ?]%Forall_cons]. apply Forall_app. split; [done|].
    constructor; [done|]. by apply cascade_f32. }
  case_decide as Hd.
  { exists w. split; [done|].
    assert (post = []) as -> by (destruct post; [done|]; rewrite Hes, length_app in Hd; cbn in Hd; lia).
    cbn. by rewrite <-Hes. }
  replace (if decide (start = 0) then 1 else start) with (S (length pre)) by (case_decide; lia).
  replace (length es - S (length pre)) with (length post) by (rewrite Hes, length_app; cbn; lia).
  rewrite (ly_buffer _ _ _ Hl), Hes, recompute_loop_spec by by apply Forall_app in Hf as [_ ?].
  cbn. eexists. split; [done|]. rewrite <-Hes. split; cbn; [by rewrite Hlen'|done|by rewrite Hlen', Hes|done].
Qed.

Lemma height_loop_spec pre es (R : bytes) max :
  Forall (λ e, is_f32 e.1 ∧ is_f32 e.2) es →
  height_loop (length es) (length pre) (((pre ++ es) ≫= encode_entry) ++ R) max =
  Some (foldl (λ max e, let bottom := f32_add e.1 e.2 in if f32_gt bottom max then bottom else max) max es).
Proof.
  intros Hf. revert pre max. induction Hf as [|e es [Hy Hh] _ IH]; intros pre max; [done|].
  cbn [height_loop length foldl]. cbn zeta. rewrite (read_y pre es e R Hy). cbn [mbind option_bind].
  rewrite (read_h pre es e R Hh). cbn [mbind option_bind].
  replace (pre ++ e :: es) with ((pre ++ [e]) ++ es) by by rewrite <-(assoc_L (++)).
  replace (S (length pre)) with (length (pre ++ [e])) by (rewrite length_app; cbn; lia). apply IH.
Qed.

Lemma total_height_refines cap es w : layout cap es w → SabLayoutWriter_total_height w = Some (bottom_max es).
Proof.
  intros Hl. unfold SabLayoutWriter_total_height. rewrite (ly_count _ _ _ Hl), (ly_buffer _ _ _ Hl).
  apply (height_loop_spec []). apply Hl.
Qed.

(** ** Runs of a client *)

Inductive SabCmd : Type :=
| CSet (index : nat) (y_offset height : Z)
| CRecompute (start_index : nat).

Fixpoint sab_run (cs : list SabCmd) (w : SabLayoutWriter) : option SabLayoutWriter :=
  match cs with
  | [] => Some w
  | CSet i y h :: cs => SabLayoutWriter_set_layout i y h w ≫= sab_run cs
  | CRecompute start :: cs => SabLayoutWriter_recompute_offsets start w ≫= sab_run cs
  end.

Fixpoint sab_spec (cap : nat) (cs : list SabCmd) (es : list (Z * Z)) : option (list (Z * Z)) :=
  match cs with
  | [] => Some es
  | CSet i y h :: cs => spec_set cap i y h es ≫= sab_spec cap cs
  | CRecompute start :: cs => sab_spec cap cs (recomputed start es)
  end.

Definition sab_args (c : SabCmd) : Prop :=
  match c with CSet _ y h => is_f32 y ∧ is_f32 h | CRecompute _ => True end.

Lemma sab_run_refines cap cs es w :
  layout cap es w → Forall sab_args cs →
  match sab_run cs w, sab_spec cap cs es with
  | Some w', Some es' => layout cap es' w'
  | None, None => True
  | _, _ => False
  end.
Proof.
  intros Hl Hf. revert es w Hl. induction Hf as [|[i y h|start] cs Hc _ IH]; intros es w Hl; cbn.
  - done.
  - destruct Hc as [Hy Hh]. pose proof (set_layout_refines cap es w i y h Hl Hy Hh) as Hs.
    destruct (SabLayoutWriter_set_layout i y h w), (spec_set cap i y h es); cbn; [by apply IH|done..].
  - destruct (recompute_refines cap es w start Hl) as (w'&->&Hl'). by apply IH.
Qed.

Lemma cascade_rows prev es i e : cascade prev es !! i = Some e →
  ∃ p, (prev :: cascade prev es) !! i = Some p ∧ e.1 = f32_add p.1 p.2.
Proof.
  revert prev i. induction es as [|x es IH]; intros prev [|i]; [done|done|..]; cbn.
  - intros [= <-]. by exists prev.
  - intros He. destruct (IH _ _ He) as (p&Hp&?). by exists p.
Qed.

(** C34: the writer is a packed array of entries.  Any sequence of writes and
    recomputations on a writer of a given capacity panics exactly when a write
    leaves a gap or passes the capacity; otherwise the buffer is, byte for byte, the
    encoding of the entries the abstract array holds followed by zeros (whatever
    patterns the additions choose for their NaNs), every entry reads back, the
    total height is the greatest of zero and the bottoms of the entries, and a
    recomputation cannot panic and leaves every offset from its start on equal to
    the bottom of the entry before it.  (The comment of [total_height] names zero
    for the empty layout only, finding.) *)
Theorem sab_layout_exact (c : Z) (cs : list SabCmd) (w0 : SabLayoutWriter)
  (Hc : (0 ≤ c)%Z) (Hnew : SabLayoutWriter_new c = Some w0) (Hargs : Forall sab_args cs) :
  let cap := Z.to_nat c in
  match sab_run cs w0 with
  | None => sab_spec cap cs [] = None
  | Some w => ∃ es, sab_spec cap cs [] = Some es ∧ layout cap es w ∧
      SabLayoutWriter_capacity_entries w = cap ∧
      (∀ i, SabLayoutWriter_get_layout i w = Some (es !! i)) ∧
      (∃ m, SabLayoutWriter_total_height w = Some m ∧ (m = f32_zero ∨ ∃ e, e ∈ es ∧ m = f32_add e.1 e.2) ∧
         (∀ e, e ∈ es → f32_gt (f32_add e.1 e.2) m = false) ∧ f32_gt f32_zero m = false) ∧
      ∀ start, ∃ w', SabLayoutWriter_recompute_offsets start w = Some w' ∧
        ∀ i y h, Nat.max 1 start ≤ i → SabLayoutWriter_get_layout i w' = Some (Some (y, h)) →
          ∃ y' h', SabLayoutWriter_get_layout (i - 1) w' = Some (Some (y', h')) ∧ y = f32_add y' h'
  end.
Proof.
  cbn zeta. pose proof (layout_new c w0 Hc Hnew) as Hl0.
  pose proof (sab_run_refines _ cs [] w0 Hl0 Hargs) as Hr.
  destruct (sab_run cs w0) as [w|]; destruct (sab_spec _ cs []) as [es|]; [|done..].
  exists es. split; [done|]. split; [done|]. split; [|split; [|split; [exists (bottom_max es); split; [by eapply total_height_refines|apply bottom_max_spec]|]]].
  - unfold SabLayoutWriter_capacity_entries. pose proof (ly_cap _ _ _ Hr).
    rewrite (ly_buffer _ _ _ Hr), length_app, length_encode, length_replicate.
    replace (16 * length es + 16 * (Z.to_nat c - length es)) with (Z.to_nat c * LAYOUT_ENTRY_BYTES)
      by (unfold LAYOUT_ENTRY_BYTES; lia). by apply Nat.div_mul.
  - intros i. by eapply get_layout_refines.
  - intros start. destruct (recompute_refines _ es w start Hr) as (w'&Hw&Hl'). exists w'. split; [done|].
    intros i y h Hi. rewrite !(get_layout_refines _ _ _ _ Hl'). intros [= He].
    destruct (recomputed_split start es) as [[Hor Heq]|(pre&prev&post&Hes&Hlen&Heq)]; rewrite Heq in *.
    + apply lookup_lt_Some in He. destruct Hor as [->|]; [cbn in He|]; lia.
    + rewrite lookup_app_r in He by lia. destruct (i - length pre) as [|k] eqn:Ek; [lia|]. cbn in He.
      destruct (cascade_rows _ _ _ _ He) as ([y' h']&Hp&Hy). exists y', h'. split; [|done].
      rewrite lookup_app_r by lia. replace (i - 1 - length pre) with k by lia. by rewrite Hp.
Qed.

End sab.

(** Every pattern that is not a NaN is the pattern of its value. *)
Lemma f32_bits_value nan x : is_f32 x → f32_value x ≠ S754_nan → f32_bits nan (f32_value x) = x.
Proof.
  unfold is_f32, f32_value. intros Hx.
  assert (Hs : sign_bit (2 ^ 31 <=? x)%Z = (x / 2 ^ 31 * 2 ^ 31)%Z).
  { unfold sign_bit. destruct (Z.leb_spec (2 ^ 31) x) as [Hle|Hlt].
    - assert (Hd : (1 = x / 2 ^ 31)%Z) by (apply Z.div_unique with (x - 2 ^ 31)%Z; lia). lia.
    - rewrite Z.div_small by lia. done. }
  assert (Hsplit : x = (x / 2 ^ 31 * 2 ^ 31 + (x / 2 ^ 23) mod 256 * 2 ^ 23 + x mod 2 ^ 23)%Z).
  { pose proof (Z.div_mod x (2 ^ 23) ltac:(lia)). pose proof (Z.div_mod (x / 2 ^ 23) 256 ltac:(lia)).
    rewrite Z.div_div in * by lia. change (2 ^ 23 * 256)%Z with (2 ^ 31)%Z in *. lia. }
  pose proof (Z.mod_pos_bound x (2 ^ 23) ltac:(lia)).
  pose proof (Z.mod_pos_bound (x / 2 ^ 23) 256 ltac:(lia)).
  revert Hs Hsplit. generalize (2 ^ 31 <=? x)%Z. intros s.
  set (e := ((x / 2 ^ 23) mod 256)%Z) in *. set (m := (x mod 2 ^ 23)%Z) in *. intros Hs Hsplit Hnan.
  destruct (Z.eqb_spec e 255) as [He|He]; destruct (Z.eqb_spec m 0) as [Hm|Hm]; try done.
  - cbn [f32_bits]. lia.
  - destruct (Z.eqb_spec e 0); cbn [f32_bits]; [lia|]. rewrite Z2Pos.id by lia.
    destruct (Z.ltb_spec (m + 2 ^ 23) (2 ^ 23)); lia.
  - destruct (Z.eqb_spec e 0); cbn [f32_bits]; rewrite Z2Pos.id by lia.
    + destruct (Z.ltb_spec m (2 ^ 23)); lia.
    + destruct (Z.ltb_spec (m + 2 ^ 23) (2 ^ 23)); lia.
Qed.

(** ** A sample layout: offsets 0, 10, 30 and heights 10, 20, 5 *)

Definition f32_10 : Z := 0x41200000.
Definition f32_20 : Z := 0x41A00000.
Definition f32_5 : Z := 0x40A00000.

Definition sample_layout : list SabCmd :=
  [CSet 0 0 f32_10; CSet 1 f32_5 f32_20; CSet 2 f32_5 f32_5; CRecompute 1].

(** A processor that always returns the quiet NaN. *)
#[local, refine] Instance quiet_nan : F32Nan := {| nan_bits _ _ := 0x7fc00000%Z |}.
Proof. all: intros _ _; vm_compute; by split. Defined.

Lemma sab_layout_exact_witness :
  ∃ w0 w es, SabLayoutWriter_new 4 = Some w0 ∧ sab_run sample_layout w0 = Some w ∧ layout 4 es w ∧
    es = [(0, f32_10); (f32_10, f32_20); (0x41F00000, f32_5)]%Z ∧
    SabLayoutWriter_total_height w = Some 0x420C0000%Z.
Proof.
  destruct (SabLayoutWriter_new 4) as [w0|] eqn:Hnew; [|vm_compute in Hnew; discriminate Hnew].
  assert (Hargs : Forall sab_args sample_layout).
  { repeat (constructor; [first [exact I | vm_compute; intuition discriminate]|]). constructor. }
  pose proof (sab_layout_exact 4 sample_layout w0 ltac:(lia) Hnew Hargs) as H.
  assert (Hw0 : Some w0 = SabLayoutWriter_new 4) by (symmetry; exact Hnew).
  vm_compute in Hw0. injection Hw0 as Hw0. cbv zeta in H.
  destruct (sab_run sample_layout w0) as [w|] eqn:Hrun; [|rewrite Hw0 in Hrun; vm_compute in Hrun; discriminate Hrun].
  destruct H as (es&Hes&Hl&_&_&_&_). exists w0, w, es. vm_compute in Hes. injection Hes as <-.
  split; [reflexivity|]. split; [exact Hrun|]. split; [exact Hl|]. split; [reflexivity|].
  rewrite (total_height_refines _ _ _ Hl). vm_compute. reflexivity.
Defined.

(** One entry, ten above the top: its bottom is minus five. *)
Example negative_bottoms :
  (SabLayoutWriter_new 1 ≫= sab_run [CSet 0 0xC1200000%Z f32_5]) ≫= SabLayoutWriter_total_height = Some 0%Z ∧
  f32_add 0xC1200000 f32_5 = 0xC0A00000%Z.
Proof. vm_compute. by split. Qed.
