(* ===== verification/Merge.v ===== *)
(** * Three-way text merge ([src/ffi/mod.rs])

    [lcs_matches] and [semantic_text_merge].  A slice out of range panics in
    the source; here it is [None], and the theorems show it does not happen. *)

From S2P Require Import Prelude Types.

(** ** Lines: [str::split('\n')] and [join("\n")] *)

Definition newline : Ascii.ascii := Ascii.ascii_of_nat 10.

Fixpoint split_lines (s : string) : list string :=
  match s with
  | EmptyString => [EmptyString]
  | String c s' =>
      if Ascii.eqb c newline then EmptyString :: split_lines s'
      else match split_lines s' with
           | l :: ls => String c l :: ls
           | [] => [String c EmptyString]
           end
  end.

Fixpoint join_lines (ls : list string) : string :=
  match ls with
  | [] => EmptyString
  | [l] => l
  | l :: ls => (l +:+ String newline EmptyString +:+ join_lines ls)%string
  end.

(** ** Longest common subsequence *)

(** One row of the table, from the right, given the row below. *)
Fixpoint lcs_row (x : string) (b : list string) (below : list nat) : list nat :=
  match b with
  | [] => [0]
  | y :: b =>
      let right := lcs_row x b (tail below) in
      (if decide (x = y) then below !!! 1 + 1 else max (below !!! 0) (right !!! 0)) :: right
  end.

(** [dp], filled for [i] downwards from the row of zeros. *)
Fixpoint lcs_table (a b : list string) : list (list nat) :=
  match a with
  | [] => [replicate (S (length b)) 0]
  | x :: a => let t := lcs_table a b in lcs_row x b (t !!! 0) :: t
  end.

(** The [while i < m && j < n] walk; every turn moves [i] or [j]. *)
Fixpoint lcs_walk (fuel : nat) (a b : list string) (dp : list (list nat)) (i j : nat) : list (nat * nat) :=
  match fuel with
  | O => []
  | S fuel =>
      match a !! i, b !! j with
      | Some x, Some y =>
          if decide (x = y) then (i, j) :: lcs_walk fuel a b dp (S i) (S j)
          else if decide (dp !!! i !!! S j ≤ dp !!! S i !!! j) then lcs_walk fuel a b dp (S i) j
          else lcs_walk fuel a b dp i (S j)
      | _, _ => []
      end
  end.

Definition lcs_matches (a b : list string) : list (nat * nat) :=
  match a, b with
  | [], _ | _, [] => []
  | _, _ => lcs_walk (length a + length b) a b (lcs_table a b) 0 0
  end.

(** ** The merge *)

(** [let mut match_at = vec![None; n]; for (b, o) in matches { match_at[b] = Some(o) }]. *)
Definition match_at (n : nat) (matches : list (nat * nat)) : list (option nat) :=
  foldl (λ v bo, <[bo.1 := Some bo.2]> v) (replicate n None) matches.

(** The ranges of inserted lines before each base line and at the end. *)
Fixpoint insertions_before (ms : list (option nat)) (prev total : nat) : list (nat * nat) :=
  match ms with
  | [] => [(prev, total)]
  | Some o :: ms => (prev, o) :: insertions_before ms (S o) total
  | None :: ms => (0, 0) :: insertions_before ms prev total
  end.

(** [&lines[lo..hi]]. *)
Definition slice (lines : list string) (r : nat * nat) : option (list string) :=
  if decide (r.1 ≤ r.2 ∧ r.2 ≤ length lines) then Some (take (r.2 - r.1) (drop r.1 lines)) else None.

(** What one gap between base lines contributes, and whether it conflicts. *)
Definition merge_gap (our_ins their_ins : list string) : list string * bool :=
  match our_ins, their_ins with
  | [], _ => (their_ins, false)
  | _, [] => (our_ins, false)
  | _, _ =>
      if decide (our_ins = their_ins) then (our_ins, false)
      else (["<<<<<<< ours"%string] ++ our_ins ++ ["======="%string] ++ their_ins
              ++ [">>>>>>> theirs"%string], true)
  end.

(** The loop [for b_idx in 0..=base_lines.len()], walking the parallel arrays. *)
Fixpoint merge_loop (ours theirs base : list string) (om tm : list (option nat))
    (oi ti : list (nat * nat)) : option (list string * bool) :=
  match oi, ti with
  | our_r :: oi, their_r :: ti =>
      our_ins ← slice ours our_r;
      their_ins ← slice theirs their_r;
      let '(out, conflict) := merge_gap our_ins their_ins in
      match base, om, tm with
      | line :: base, our_match :: om, their_match :: tm =>
          let kept := match our_match, their_match with Some _, Some _ => [line] | _, _ => [] end in
          rest ← merge_loop ours theirs base om tm oi ti;
          Some (out ++ kept ++ rest.1, conflict || rest.2)
      | _, _, _ => Some (out, conflict)
      end
  | _, _ => None
  end.

(** The body up to the resolution, on the split lines. *)
Definition merge_lines (base_lines our_lines their_lines : list string) : option (list string * bool) :=
  let our_match_at := match_at (length base_lines) (lcs_matches base_lines our_lines) in
  let their_match_at := match_at (length base_lines) (lcs_matches base_lines their_lines) in
  let our_insertions := insertions_before our_match_at 0 (length our_lines) in
  let their_insertions := insertions_before their_match_at 0 (length their_lines) in
  merge_loop our_lines their_lines base_lines our_match_at their_match_at our_insertions their_insertions.

Definition semantic_text_merge (base ours theirs : string) : option (string * ConflictResolution) :=
  let base_lines := split_lines base in
  let our_lines := split_lines ours in
  let their_lines := split_lines theirs in
  merged ← merge_lines base_lines our_lines their_lines;
  let '(result, conflict) := merged in
  Some (join_lines result,
    if (conflict : bool) then ManualRequired
    else if decide (our_lines = their_lines) then Merged
    else if decide (base_lines = our_lines) then TheirsWins
    else if decide (base_lines = their_lines) then OursWins
    else Merged).

Example merge_clean :
  let nl := String newline EmptyString in
  semantic_text_merge ("a" +:+ nl +:+ "b" +:+ nl +:+ "c") ("a" +:+ nl +:+ "b2" +:+ nl +:+ "c")
    ("a" +:+ nl +:+ "b" +:+ nl +:+ "c" +:+ nl +:+ "d") =
  Some ("a" +:+ nl +:+ "b2" +:+ nl +:+ "c" +:+ nl +:+ "d", Merged)%string.
Proof. vm_compute. reflexivity. Qed.

(** An edit of a line the other side deleted is not reported: the line
    disappears, the edit stays, and the outcome is a clean merge. *)
Example edit_delete_is_clean :
  let nl := String newline EmptyString in
  semantic_text_merge ("a" +:+ nl +:+ "b" +:+ nl +:+ "c") ("a" +:+ nl +:+ "c")
    ("a" +:+ nl +:+ "b2" +:+ nl +:+ "c") = Some ("a" +:+ nl +:+ "b2" +:+ nl +:+ "c", Merged)%string.
Proof. vm_compute. reflexivity. Qed.

(** ** Lines *)

Lemma split_lines_cons s : ∃ l ls, split_lines s = l :: ls.
Proof.
  destruct s as [|c s]; cbn; [eauto|]. destruct (Ascii.eqb c newline); [eauto|].
  destruct (split_lines s); eauto.
Qed.

Lemma join_split_lines s : join_lines (split_lines s) = s.
Proof.
  induction s as [|c s IH]; [done|]. cbn.
  destruct (split_lines_cons s) as (l & ls & Hs). rewrite Hs in *.
  destruct (Ascii.eqb_spec c newline) as [->|_].
  - cbn in IH |- *. by rewrite IH.
  - rewrite <-IH. by destruct ls.
Qed.

#[export] Instance split_lines_inj : Inj (=) (=) split_lines.
Proof. intros s t Hst. by rewrite <-(join_split_lines s), Hst, join_split_lines. Qed.

(** ** The table *)

(** [lcs_from a b i j ps]: [ps] pairs equal lines, both sides going forward
    from [i] and [j]. *)
Fixpoint lcs_from (a b : list string) (i j : nat) (ps : list (nat * nat)) : Prop :=
  match ps with
  | [] => True
  | (x, y) :: ps =>
      i ≤ x ∧ j ≤ y ∧ (∃ l, a !! x = Some l ∧ b !! y = Some l) ∧ lcs_from a b (S x) (S y) ps
  end.

Lemma lcs_from_mono a b i j i' j' ps :
  i' ≤ i → j' ≤ j → lcs_from a b i j ps → lcs_from a b i' j' ps.
Proof. destruct ps as [|[x y] ps]; [done|]. cbn. intros ?? (?&?&?&?). repeat split; [lia..|done|done]. Qed.

Section table.
  Context (a b : list string).
Notation D i j := (lcs_table a b !!! i !!! j).

Lemma lcs_row_tail x y b' below : lcs_row x (y :: b') below !!! 0 =
    (if decide (x = y) then below !!! 1 + 1 else max (below !!! 0) (lcs_row x (y :: b') below !!! 1)).
Proof. done. Qed.

Lemma lcs_row_drop x l below j :
    j ≤ length l → drop j (lcs_row x l below) = lcs_row x (drop j l) (drop j below).
Proof.
    revert l below; induction j as [|j IH]; intros l below Hj; [by rewrite !drop_0|].
    destruct l as [|y l]; cbn in Hj; [lia|]. cbn [lcs_row drop skipn]. rewrite IH by lia.
    by destruct below; [destruct j|].
Qed.

Lemma lookup_total_drop {A} `{Inhabited A} (l : list A) i k : drop i l !!! k = l !!! (i + k).
Proof. by rewrite !list_lookup_total_alt, lookup_drop. Qed.

Lemma lcs_table_drop (l : list string) i :
    i ≤ length l → lcs_table (drop i l) b = drop i (lcs_table l b).
Proof.
    revert l; induction i as [|i IH]; intros l Hi; [by rewrite !drop_0|].
    destruct l as [|x l]; cbn in Hi; [lia|]. cbn. apply IH. lia.
Qed.

Lemma lcs_table_last j : D (length a) j = 0.
Proof.
    rewrite <-(Nat.add_0_r (length a)), <-lookup_total_drop, <-lcs_table_drop by lia.
    rewrite drop_all. cbn. change (0 :: replicate (length b) 0) with (replicate (S (length b)) 0).
    rewrite list_lookup_total_alt.
    destruct (replicate _ _ !! j) eqn:Hj; [|done]. by apply lookup_replicate in Hj as [-> _].
Qed.

Lemma lcs_table_row i x : a !! i = Some x → lcs_table a b !!! i = lcs_row x b (lcs_table a b !!! S i).
Proof.
    intros Hi. pose proof (lookup_lt_Some _ _ _ Hi).
    rewrite <-(Nat.add_0_r i) at 1. rewrite <-lookup_total_drop, <-lcs_table_drop by lia.
    rewrite (drop_S _ _ _ Hi). cbn -[drop]. f_equal.
    rewrite lcs_table_drop by lia. by rewrite lookup_total_drop, Nat.add_0_r.
Qed.

Lemma lcs_table_edge i : D i (length b) = 0.
Proof.
    destruct (a !! i) as [x|] eqn:Hi.
    - rewrite (lcs_table_row i x Hi), <-(Nat.add_0_r (length b)), <-lookup_total_drop, lcs_row_drop, drop_all by lia.
      done.
    - apply lookup_ge_None in Hi. destruct (decide (i = length a)) as [->|Hn]; [apply lcs_table_last|].
      assert (Hlen : length (lcs_table a b) = S (length a)).
      { clear. induction a as [|x l IH]; [done|]. cbn. by rewrite IH. }
      rewrite (list_lookup_total_alt (lcs_table a b)), lookup_ge_None_2 by lia. done.
Qed.

Lemma lcs_table_step i j x y :
    a !! i = Some x → b !! j = Some y →
    D i j = if decide (x = y) then D (S i) (S j) + 1 else max (D (S i) j) (D i (S j)).
Proof.
    intros Hi Hj. pose proof (lookup_lt_Some _ _ _ Hj).
    rewrite (lcs_table_row i x Hi). set (below := lcs_table a b !!! S i).
    assert (Hd : ∀ l : list nat, l !!! j = drop j l !!! 0 ∧ l !!! S j = drop j l !!! 1).
    { intros l. rewrite !lookup_total_drop. split; f_equal; lia. }
    destruct (Hd (lcs_row x b below)) as [-> ->], (Hd below) as [-> ->].
    rewrite !lcs_row_drop by lia. by rewrite (drop_S _ _ _ Hj), lcs_row_tail.
Qed.
End table.

Lemma lcs_from_bound a b i j ps :
  lcs_from a b i j ps → length ps ≤ lcs_table a b !!! i !!! j.
Proof.
  remember (length a - i + (length b - j)) as n eqn:Hn.
  revert i j ps Hn; induction n as [n IH] using lt_wf_ind; intros i j [|[x y] ps] Hn; cbn [lcs_from length]; [lia|].
  intros (Hx & Hy & (l & Hax & Hby) & Hps).
  pose proof (lookup_lt_Some _ _ _ Hax). pose proof (lookup_lt_Some _ _ _ Hby).
  destruct (lookup_lt_is_Some_2 a i) as [xi Hi]; [lia|].
  destruct (lookup_lt_is_Some_2 b j) as [yj Hj]; [lia|].
  rewrite (lcs_table_step a b i j xi yj Hi Hj). case_decide as Heq.
  - apply (lcs_from_mono _ _ _ _ (S i) (S j)) in Hps; [|lia..].
    apply (IH (length a - S i + (length b - S j))) in Hps; [lia|lia|done].
  - assert (lcs_from a b (S i) j ((x, y) :: ps) ∨ lcs_from a b i (S j) ((x, y) :: ps)) as [Hf|Hf].
    { destruct (decide (x = i)) as [->|]; [right|left]; cbn; repeat split; eauto; try lia.
      destruct (decide (y = j)) as [->|]; [|lia]. congruence. }
    + apply (IH (length a - S i + (length b - j))) in Hf; [cbn in Hf; lia|lia|done].
    + apply (IH (length a - i + (length b - S j))) in Hf; [cbn in Hf; lia|lia|done].
Qed.

Lemma lcs_walk_spec fuel a b i j :
  length a - i + (length b - j) ≤ fuel → i ≤ length a → j ≤ length b →
  lcs_from a b i j (lcs_walk fuel a b (lcs_table a b) i j) ∧
  length (lcs_walk fuel a b (lcs_table a b) i j) = lcs_table a b !!! i !!! j.
Proof.
  revert i j; induction fuel as [|fuel IH]; intros i j Hf Hi Hj; cbn [lcs_walk].
  - assert (i = length a) as -> by lia. by rewrite lcs_table_last.
  - destruct (a !! i) as [x|] eqn:Hx; [|apply lookup_ge_None in Hx].
    2:{ assert (i = length a) as -> by lia. by rewrite lcs_table_last. }
    destruct (b !! j) as [y|] eqn:Hy; [|apply lookup_ge_None in Hy].
    2:{ assert (j = length b) as -> by lia. by rewrite lcs_table_edge. }
    pose proof (lookup_lt_Some _ _ _ Hx). pose proof (lookup_lt_Some _ _ _ Hy).
    rewrite (lcs_table_step a b i j x y Hx Hy). case_decide as Heq; [|case_decide as Hle].
    + destruct (IH (S i) (S j)) as [? Hl]; [lia..|]. cbn. rewrite Hl.
      repeat split; [lia..| |done|lia]. exists x. by subst.
    + destruct (IH (S i) j) as [Hfr Hl]; [lia..|]. rewrite Hl. split; [|lia].
      by apply (lcs_from_mono _ _ (S i) j); [lia..|].
    + destruct (IH i (S j)) as [Hfr Hl]; [lia..|]. rewrite Hl. split; [|lia].
      by apply (lcs_from_mono _ _ i (S j)); [lia..|].
Qed.

Lemma lcs_matches_walk a b :
  lcs_matches a b = lcs_walk (length a + length b) a b (lcs_table a b) 0 0.
Proof. destruct a as [|x a], b as [|y b]; try done. Qed.

(** [lcs_matches] pairs equal lines, strictly forward on both sides, and no such
    pairing is longer: the table walk finds a longest common subsequence. *)
Lemma lcs_matches_spec (a b : list string) :
  lcs_from a b 0 0 (lcs_matches a b) ∧
  ∀ ps, lcs_from a b 0 0 ps → length ps ≤ length (lcs_matches a b).
Proof.
  rewrite lcs_matches_walk.
  destruct (lcs_walk_spec (length a + length b) a b 0 0) as [Hf Hl]; [lia..|].
  split; [done|]. intros ps Hps. rewrite Hl. by apply lcs_from_bound.
Qed.

(** ** Sides of the merge

    A match array is [aligned] when it sends base lines to equal lines of the
    side, strictly forward from [prev]. *)

Fixpoint aligned (lines base : list string) (ms : list (option nat)) (prev : nat) : Prop :=
  match base, ms with
  | [], [] => prev ≤ length lines
  | _ :: base, None :: ms => aligned lines base ms prev
  | l :: base, Some o :: ms => prev ≤ o ∧ lines !! o = Some l ∧ aligned lines base ms (S o)
  | _, _ => False
  end.

Lemma aligned_intro lines base ms prev :
  length ms = length base → prev ≤ length lines →
  (∀ x y, ms !! x = Some (Some y) → prev ≤ y ∧ ∃ l, base !! x = Some l ∧ lines !! y = Some l) →
  (∀ x y x' y', ms !! x = Some (Some y) → ms !! x' = Some (Some y') → x < x' → y < y') →
  aligned lines base ms prev.
Proof.
  revert base prev; induction ms as [|[o|] ms IH]; intros [|l base] prev Hlen Hprev Hm Hs; try done.
  - destruct (Hm 0 o eq_refl) as (Hp & l' & [= <-] & Hl). pose proof (lookup_lt_Some _ _ _ Hl).
    repeat split; [done..|]. apply IH; [by injection Hlen|lia| |].
    + intros x y Hxy. destruct (Hm (S x) y Hxy) as (_ & ?). split; [|done].
      apply (Hs 0 o (S x) y); [done|done|lia].
    + intros x y x' y' H1 H2 Hx. apply (Hs (S x) y (S x') y'); [done|done|lia].
  - cbn. apply IH; [by injection Hlen|done| |].
    + intros x y. apply (Hm (S x)).
    + intros x y x' y' H1 H2 Hx. apply (Hs (S x) y (S x') y'); [done|done|lia].
Qed.

Lemma lcs_from_elem a b i j ps x y :
  lcs_from a b i j ps → (x, y) ∈ ps → i ≤ x ∧ j ≤ y ∧ ∃ l, a !! x = Some l ∧ b !! y = Some l.
Proof.
  revert i j; induction ps as [|[x' y'] ps IH]; intros i j; [by intros _ ?%not_elem_of_nil|].
  intros (?&?&?&Hps) [[= -> ->]|Hin]%elem_of_cons; [done|].
  destruct (IH _ _ Hps Hin) as (?&?&?). repeat split; [lia..|done].
Qed.

Lemma lcs_from_increasing a b i j ps x y x' y' :
  lcs_from a b i j ps → (x, y) ∈ ps → (x', y') ∈ ps → x < x' → y < y'.
Proof.
  revert i j; induction ps as [|[p q] ps IH]; intros i j; [by intros _ ?%not_elem_of_nil|].
  intros (?&?&?&Hps) [[= -> ->]|Hin]%elem_of_cons [[= -> ->]|Hin']%elem_of_cons Hlt.
  - lia.
  - apply (lcs_from_elem _ _ _ _ _ _ _ Hps) in Hin'. lia.
  - apply (lcs_from_elem _ _ _ _ _ _ _ Hps) in Hin. lia.
  - by eapply IH.
Qed.

Lemma match_at_lookup n ps x y :
  match_at n ps !! x = Some (Some y) → (x, y) ∈ ps.
Proof.
  unfold match_at. induction ps as [|[p q] ps IH] using rev_ind; cbn.
  - by intros [? _]%lookup_replicate.
  - rewrite foldl_app. cbn. intros [(-> & [= ->] & _)|[_ ?%IH]]%list_lookup_insert_Some; set_solver.
Qed.

Lemma length_match_at n ps : length (match_at n ps) = n.
Proof.
  unfold match_at. induction ps as [|p ps IH] using rev_ind; cbn; [by rewrite length_replicate|].
  by rewrite foldl_app; cbn; rewrite length_insert.
Qed.

Lemma aligned_matches base lines :
  aligned lines base (match_at (length base) (lcs_matches base lines)) 0.
Proof.
  destruct (lcs_matches_spec base lines) as [Hf _].
  apply aligned_intro; [apply length_match_at|lia| |].
  - intros x y Hxy%match_at_lookup. by apply (lcs_from_elem _ _ _ _ _ _ _ Hf).
  - intros x y x' y' H1%match_at_lookup H2%match_at_lookup. by eapply lcs_from_increasing.
Qed.

(** The gaps and the matched lines of a side, in order, are the side. *)
Fixpoint side_of (lines base : list string) (ms : list (option nat)) (rs : list (nat * nat)) :
    option (list string) :=
  match rs with
  | [] => None
  | r :: rs =>
      ins ← slice lines r;
      match base, ms with
      | l :: base, m :: ms =>
          rest ← side_of lines base ms rs;
          Some (ins ++ match m with Some _ => [l] | None => [] end ++ rest)
      | _, _ => Some ins
      end
  end.

Lemma slice_Some lines lo hi :
  lo ≤ hi → hi ≤ length lines → slice lines (lo, hi) = Some (take (hi - lo) (drop lo lines)).
Proof. intros. unfold slice. by rewrite decide_True by (cbn; lia). Qed.

Lemma slice_empty lines n : n ≤ length lines → slice lines (n, n) = Some [].
Proof. intros. by rewrite slice_Some, Nat.sub_diag by lia. Qed.

Lemma side_of_aligned lines base ms prev :
  aligned lines base ms prev →
  side_of lines base ms (insertions_before ms prev (length lines)) = Some (drop prev lines).
Proof.
  revert ms prev; induction base as [|l base IH]; intros [|[o|] ms] prev; try done.
  - cbn. intros. rewrite slice_Some by lia. cbn. f_equal. apply take_ge. rewrite length_drop. lia.
  - intros (Hp & Hl & Ha). pose proof (lookup_lt_Some _ _ _ Hl). cbn [insertions_before side_of].
    rewrite slice_Some by lia. cbn. rewrite (IH _ _ Ha). cbn. f_equal.
    rewrite <-(take_drop (o - prev) (drop prev lines)) at 2. f_equal.
    rewrite drop_drop. replace (prev + (o - prev)) with o by lia. by rewrite (drop_S _ _ _ Hl).
  - intros Ha. cbn [insertions_before side_of]. rewrite slice_empty by lia. cbn. by rewrite (IH _ _ Ha).
Qed.

(** ** The merge of aligned sides *)

Lemma merge_gap_same ins : merge_gap ins ins = (ins, false).
Proof. destruct ins; [done|]. cbn [merge_gap]. by rewrite decide_True. Qed.

Lemma merge_gap_nil_r ins : merge_gap ins [] = (ins, false).
Proof. by destruct ins. Qed.

Lemma merge_gap_comm x y :
  (merge_gap y x).2 = (merge_gap x y).2 ∧
  ((merge_gap x y).2 = false → (merge_gap y x).1 = (merge_gap x y).1).
Proof. destruct x, y; cbn [merge_gap]; repeat case_decide; by simplify_eq. Qed.

Lemma slice_aligned lines base ms prev :
  aligned lines base ms prev →
  ∃ r rs ins, insertions_before ms prev (length lines) = r :: rs ∧ slice lines r = Some ins ∧
    match base, ms with
    | _ :: base, m :: ms => ∃ prev', rs = insertions_before ms prev' (length lines) ∧ aligned lines base ms prev'
    | _, _ => True
    end.
Proof.
  destruct base as [|l base], ms as [|[o|] ms]; try done.
  - cbn. intros. eexists _, _, _. split; [done|]. split; [apply slice_Some; lia|done].
  - intros (?&Hl&?). apply lookup_lt_Some in Hl. eexists _, _, _. split; [done|].
    split; [apply slice_Some; lia|eauto].
  - intros Ha. eexists _, _, _. split; [done|]. split; [apply slice_empty; lia|eauto].
Qed.

Lemma merge_loop_comm ours theirs base om tm p q :
  aligned ours base om p → aligned theirs base tm q →
  let oi := insertions_before om p (length ours) in
  let ti := insertions_before tm q (length theirs) in
  ∃ t t' c, merge_loop ours theirs base om tm oi ti = Some (t, c) ∧
    merge_loop theirs ours base tm om ti oi = Some (t', c) ∧ (c = false → t' = t).
Proof.
  revert om tm p q; induction base as [|l base IH]; intros om tm p q Ho Ht; cbn zeta.
  all: destruct (slice_aligned _ _ _ _ Ho) as (ro & ros & io & -> & Hso & Ho').
  all: destruct (slice_aligned _ _ _ _ Ht) as (rt & rts & it & -> & Hst & Ht').
  all: cbn [merge_loop]; rewrite Hso, Hst; cbn.
  all: destruct (merge_gap_comm io it) as [Hc Heq].
  all: destruct (merge_gap io it) as [g c], (merge_gap it io) as [g' c']; cbn in Hc, Heq; subst c'.
  - eexists _, _, _. done.
  - destruct om as [|mo om], tm as [|mt tm]; [by destruct Ho|by destruct Ho|by destruct Ht|].
    destruct Ho' as (p' & -> & Ho'), Ht' as (q' & -> & Ht').
    destruct (IH _ _ _ _ Ho' Ht') as (t & t' & c' & -> & -> & Hcc). cbn.
    eexists _, _, _. split; [done|]. split; [done|].
    intros [-> ->]%orb_false_iff. rewrite Heq, Hcc by done. by destruct mo, mt.
Qed.

Lemma merge_loop_same lines base ms rs :
  merge_loop lines lines base ms ms rs rs = option_map (λ t, (t, false)) (side_of lines base ms rs).
Proof.
  revert ms rs; induction base as [|l base IH]; intros ms [|r rs]; try done; cbn [merge_loop side_of].
  all: destruct (slice lines r) as [ins|]; [cbn|done].
  all: rewrite merge_gap_same; cbn.
  1: done.
  destruct ms as [|m ms]; [done|]. rewrite IH.
  destruct (side_of lines base ms rs); [cbn|done]. by destruct m.
Qed.

(** The other side is the base itself. *)
Lemma merge_loop_unchanged ours theirs base om k p :
  aligned ours base om p → drop k theirs = base → k ≤ length theirs →
  let oi := insertions_before om p (length ours) in
  let tm := Some <$> seq k (length base) in
  merge_loop ours theirs base om tm oi (insertions_before tm k (length theirs)) =
    option_map (λ t, (t, false)) (side_of ours base om oi).
Proof.
  revert om k p; induction base as [|l base IH]; intros om k p Ho Hk Hle; cbn zeta.
  all: pose proof (f_equal length Hk) as Hlen; rewrite length_drop in Hlen; cbn in Hlen.
  all: destruct (slice_aligned _ _ _ _ Ho) as (ro & ros & io & -> & Hso & Ho').
  all: cbn [length seq fmap list_fmap insertions_before merge_loop side_of].
  - replace (length theirs) with k by lia. rewrite Hso, slice_empty by lia. cbn.
    rewrite merge_gap_nil_r. cbn. by destruct om.
  - rewrite Hso, slice_empty by lia. cbn. rewrite merge_gap_nil_r. cbn.
    destruct om as [|m om]; [by destruct Ho|]. destruct Ho' as (p' & -> & Ho').
    pose proof (IH om (S k) p' Ho') as HI. cbn in HI. rewrite HI; [|by rewrite <-Nat.add_1_r, <-drop_drop, Hk|lia].
    destruct (side_of ours base om _); [|done]. by destruct m.
Qed.

Lemma lcs_walk_self a dp fuel i :
  length a - i ≤ fuel → lcs_walk fuel a a dp i i = (λ k, (k, k)) <$> seq i (length a - i).
Proof.
  revert i; induction fuel as [|fuel IH]; intros i Hf; cbn [lcs_walk].
  - by replace (length a - i) with 0 by lia.
  - destruct (a !! i) as [x|] eqn:Hx.
    + apply lookup_lt_Some in Hx. rewrite decide_True by done.
      replace (length a - i) with (S (length a - S i)) by lia. cbn. f_equal. apply IH. lia.
    + apply lookup_ge_None in Hx. by replace (length a - i) with 0 by lia.
Qed.

Lemma match_at_diagonal n m :
  m ≤ n → match_at n ((λ k, (k, k)) <$> seq 0 m) = (Some <$> seq 0 m) ++ replicate (n - m) None.
Proof.
  induction m as [|m IH]; intros Hm; [by rewrite Nat.sub_0_r|].
  rewrite seq_S, !fmap_app. unfold match_at in *. rewrite foldl_app, IH by lia. cbn.
  rewrite insert_app_r_alt; rewrite length_fmap, length_seq; [|lia].
  rewrite Nat.sub_diag. replace (n - m) with (S (n - S m)) by lia. cbn. by rewrite <-app_assoc.
Qed.

Lemma match_at_self a : match_at (length a) (lcs_matches a a) = Some <$> seq 0 (length a).
Proof.
  rewrite lcs_matches_walk, lcs_walk_self, Nat.sub_0_r, match_at_diagonal by lia.
  by rewrite Nat.sub_diag, app_nil_r.
Qed.

Lemma merge_lines_base b o : merge_lines b o b = Some (o, false).
Proof.
  unfold merge_lines. rewrite match_at_self.
  pose proof (aligned_matches b o) as Ha.
  pose proof (merge_loop_unchanged o b b _ 0 0 Ha eq_refl ltac:(lia)) as Hm. cbn zeta in Hm.
  by rewrite Hm, (side_of_aligned _ _ _ _ Ha).
Qed.

Lemma merge_lines_same b o : merge_lines b o o = Some (o, false).
Proof.
  unfold merge_lines. by rewrite merge_loop_same, (side_of_aligned _ _ _ _ (aligned_matches b o)).
Qed.

Lemma merge_lines_comm b o t :
  ∃ r r' c, merge_lines b o t = Some (r, c) ∧ merge_lines b t o = Some (r', c) ∧ (c = false → r' = r).
Proof. apply (merge_loop_comm _ _ _ _ _ _ _ (aligned_matches b o) (aligned_matches b t)). Qed.

(** The resolution seen from the other side. *)
Definition swap_resolution (r : ConflictResolution) : ConflictResolution :=
  match r with OursWins => TheirsWins | TheirsWins => OursWins | r => r end.

(** C21: the merge never panics; a side that did not change the base yields the
    other side's text, won by that side; two sides that agree yield their text;
    and exchanging the sides exchanges the winner and, unless a conflict was
    found, gives the same text. *)
Theorem semantic_text_merge_correct (base ours theirs : string) :
  semantic_text_merge base ours base = Some (ours, if decide (ours = base) then Merged else OursWins) ∧
  semantic_text_merge base base theirs = Some (theirs, if decide (theirs = base) then Merged else TheirsWins) ∧
  semantic_text_merge base ours ours = Some (ours, Merged) ∧
  ∃ t t' r, semantic_text_merge base ours theirs = Some (t, r) ∧
    semantic_text_merge base theirs ours = Some (t', swap_resolution r) ∧
    (t' = t ∨ r = ManualRequired).
Proof.
  assert (Hdec : ∀ s t {A} (x y : A), (if decide (split_lines s = split_lines t) then x else y) =
                                  if decide (s = t) then x else y).
  { intros s t A x y. by repeat case_decide; simplify_eq. }
  unfold semantic_text_merge.
  destruct (merge_lines_comm (split_lines base) (split_lines base) (split_lines theirs))
    as (r1 & r2 & c & H1 & H2 & Hc).
  rewrite merge_lines_base in H2. injection H2 as <- <-. rewrite <-Hc in H1 by done.
  destruct (merge_lines_comm (split_lines base) (split_lines ours) (split_lines theirs))
    as (x & y & c & Hx & Hy & Hxy).
  rewrite merge_lines_base, merge_lines_same, H1, Hx, Hy. cbn. rewrite !Hdec, !join_split_lines.
  repeat split.
  - by repeat case_decide.
  - by repeat case_decide; simplify_eq.
  - by rewrite decide_True.
  - eexists _, _, _. split; [done|]. split; [|destruct c; [by right|left; by rewrite Hxy]].
    destruct c; [done|]. repeat case_decide; by simplify_eq.
Qed.
