(* ===== verification/Ffi.v ===== *)
(** * FFI entry points ([src/ffi/mod.rs])

    Bulk application of borrowed node operations, the bincode entry point, and
    the global registry of batcher slots with its flush callbacks.  The text
    merge of the same file is in [Merge.v]. *)

From S2P Require Import Prelude Types Values Origin BridgeMaps GrafeoTx GraphSpec MemGraph.

Notation bytes := (list byte) (only parsing).

(** ** Node operations *)

Inductive NodeValue : Type :=
| NodeValue_Null
| NodeValue_Bool (b : bool)
| NodeValue_Integer (i : Z)
| NodeValue_Float (f : f64)
| NodeValue_Str (s : string).

Record NodeOp : Type := mkNodeOp {
  no_loro_key : string;
  no_labels : list string;
  no_property_count : Z;
  no_property_keys : list string;
  no_property_values : list NodeValue
}.

Definition GraphValue_from_NodeValue (v : NodeValue) : GraphValue :=
  match v with
  | NodeValue_Null => GraphValue_Null
  | NodeValue_Bool b => GraphValue_Bool b
  | NodeValue_Integer i => GraphValue_Integer i
  | NodeValue_Float f => GraphValue_Float f
  | NodeValue_Str s => GraphValue_String s
  end.

(** The loop that fills the [HashMap]; [property_count] only sizes it. *)
Definition NodeOp_properties (op : NodeOp) : gmap string GraphValue :=
  foldl (λ m kv, <[kv.1 := GraphValue_from_NodeValue kv.2]> m) ∅
    (zip (no_property_keys op) (no_property_values op)).

Definition LoroOp_from_NodeOp (op : NodeOp) : LoroOp :=
  UpsertNode (no_loro_key op) (no_labels op) (NodeOp_properties op).

(** ** Bulk application *)

(** The decoders of [bincode]. *)
Class Bincode : Type := {
  bincode_ops : bytes → result string (list LoroOp);
  bincode_op : bytes → result string LoroOp
}.

Section apply.
  Context {S : Type} `{GrafeoSession S} `{HashOrder} `{Bincode}.

Definition apply_node_batch (nodes : list NodeOp) : SE (TxState S) GrafeoLoroError unit :=
  SE_for nodes (λ node, apply_loro_op (LoroOp_from_NodeOp node)).

Definition apply_loro_op_bytes (b : bytes) : SE (TxState S) GrafeoLoroError unit :=
  ops ← SE_lift (map_err (λ e, EBridge ("bincode decode: " +:+ e)%string) (bincode_ops b));
  SE_for ops apply_loro_op.
End apply.

(** ** The batcher registry

    [W] is what the callbacks act on: everything outside the registry. *)

Notation BatcherHandle := Z (only parsing).
Definition BatcherHandle_unknown : BatcherHandle := USIZE_MAX.

Record FfiState (W : Type) : Type := mkFfiState {
  BATCHER_REGISTRY : option (gmap Z (list LoroOp));
  FLUSH_CALLBACKS : list (bytes → W → W);
  NEXT_HANDLE : Z;
  ffi_world : W
}.
Arguments mkFfiState {W}.
Arguments BATCHER_REGISTRY {W}.
Arguments FLUSH_CALLBACKS {W}.
Arguments NEXT_HANDLE {W}.
Arguments ffi_world {W}.

Section registry.
  Context {W : Type} `{Bincode}.
  Notation M := (SE (FfiState W) string).

Definition ffi_init (w : W) : FfiState W := mkFfiState None [] 0 w.

Definition batcher_register (st : FfiState W) : BatcherHandle * FfiState W :=
  let id := NEXT_HANDLE st in
  let map := default ∅ (BATCHER_REGISTRY st) in
  (id, mkFfiState (Some (<[id := []]> map)) (FLUSH_CALLBACKS st) (u64_add id 1) (ffi_world st)).

Definition find_slot (handle : BatcherHandle) (st : FfiState W) :
    result string (gmap Z (list LoroOp) * list LoroOp) :=
  map ← ok_or (BATCHER_REGISTRY st) "batcher registry not initialised"%string;
  slot ← ok_or (map !! handle) ("unknown BatcherHandle: " +:+ pretty handle)%string;
  Ok (map, slot).

Definition set_registry (map : gmap Z (list LoroOp)) (st : FfiState W) : FfiState W :=
  mkFfiState (Some map) (FLUSH_CALLBACKS st) (NEXT_HANDLE st) (ffi_world st).

Definition batcher_enqueue (handle : BatcherHandle) (op_bytes : bytes) : M unit := λ st,
  match map_err (λ e, "bincode decode LoroOp: " +:+ e)%string (bincode_op op_bytes) with
  | Err e => (Err e, st)
  | Ok op =>
      match find_slot handle st with
      | Err e => (Err e, st)
      | Ok (map, pending) => (Ok tt, set_registry (<[handle := pending ++ [op]]> map) st)
      end
  end.

Definition fire_callbacks (payload : bytes) (st : FfiState W) : FfiState W :=
  mkFfiState (BATCHER_REGISTRY st) (FLUSH_CALLBACKS st) (NEXT_HANDLE st)
    (foldl (λ w cb, cb payload w) (ffi_world st) (FLUSH_CALLBACKS st)).

Definition flush_payload (epoch op_count : Z) : bytes :=
  to_be_bytes 8 epoch ++ to_be_bytes 8 op_count.

Definition batcher_flush (handle : BatcherHandle) : M unit := λ st,
  match find_slot handle st with
  | Err e => (Err e, st)
  | Ok (map, drained) =>
      let st := set_registry (<[handle := []]> map) st in
      (Ok tt, fire_callbacks (flush_payload 0 (Z.of_nat (length drained))) st)
  end.

Definition batcher_on_flush (callback : bytes → W → W) (st : FfiState W) : FfiState W :=
  mkFfiState (BATCHER_REGISTRY st) (FLUSH_CALLBACKS st ++ [callback]) (NEXT_HANDLE st) (ffi_world st).

Definition dispatch_flush_callbacks (epoch op_count : Z) (st : FfiState W) : FfiState W :=
  fire_callbacks (flush_payload epoch op_count) st.

End registry.

(** [ffi::set_next_commit_origin]. *)
Definition ffi_set_next_commit_origin (origin_kind : OriginKind) (node_id : option string) :
    SE OriginCell string unit := λ cell, (Ok tt, set_next_commit_origin origin_kind node_id cell).

(** Conflict callbacks, fired in registration order. *)
Definition on_conflict_detected {W} (callback : ConflictDetected → W → W)
    (cbs : list (ConflictDetected → W → W)) : list (ConflictDetected → W → W) := cbs ++ [callback].
Definition dispatch_conflict_detected {W} (event : ConflictDetected)
    (cbs : list (ConflictDetected → W → W)) (w : W) : W := foldl (λ w cb, cb event w) w cbs.

(** ** Bulk application refines the keyed graph *)

Lemma NodeOp_properties_last op n k v :
  zip (no_property_keys op) (no_property_values op) !! n = Some (k, v) →
  (∀ m v', zip (no_property_keys op) (no_property_values op) !! m = Some (k, v') → m ≤ n) →
  NodeOp_properties op !! k = Some (GraphValue_from_NodeValue v).
Proof.
  unfold NodeOp_properties. generalize (zip (no_property_keys op) (no_property_values op)) as l.
  intros l. induction l as [|[k' v'] l IH] using rev_ind; [done|]. rewrite foldl_app. cbn.
  intros Hn Hlast. apply lookup_app_Some in Hn as [Hn|[Hle Hn]].
  - pose proof (lookup_lt_Some _ _ _ Hn). rewrite lookup_insert_ne.
    + apply IH; [done|]. intros m w Hm. apply (Hlast m w). by apply lookup_app_l_Some.
    + intros ->. specialize (Hlast (length l) v'). rewrite lookup_app_r, Nat.sub_diag in Hlast by lia.
      specialize (Hlast eq_refl). lia.
  - apply list_lookup_singleton_Some in Hn as [_ [= -> ->]]. apply lookup_insert_eq.
Qed.

(** What a node operation specifies. *)
Definition spec_node (g : KeyedGraph) (op : NodeOp) : KeyedGraph :=
  spec_upsert_node (no_loro_key op) (no_labels op) (NodeOp_properties op) g.

Lemma detached_run_nodes nodes g : detached_run (LoroOp_from_NodeOp <$> nodes) g.
Proof. revert g; induction nodes as [|op nodes IH]; intros g; [done|]. cbn. split; [done|apply IH]. Qed.

Lemma spec_run_nodes nodes g : spec_run (LoroOp_from_NodeOp <$> nodes) g = Ok (foldl spec_node g nodes).
Proof. revert g; induction nodes as [|op nodes IH]; intros g; [done|]. apply IH. Qed.

Lemma SE_for_fmap {St E A B} (f : A → B) (l : list A) (body : B → SE St E unit) s :
  SE_for (f <$> l) body s = SE_for l (λ x, body (f x)) s.
Proof.
  revert s; induction l as [|x l IH]; intros s; [done|]. cbn. unfold mbind, SE_bind.
  destruct (body (f x) s) as [[[]|e] s']; [apply IH|done].
Qed.

Section batch.
  Context {S : Type} `{GrafeoLaws S} `{HashOrder} `{Bincode}.

(** A batch of node operations of any size and content either yields
    exactly the graph of its upserts applied in order, or stops with an error of
    the session; bytes that do not decode change nothing, and bytes that decode
    are the operations they decode to. *)
Lemma apply_node_batch_refines (nodes : list NodeOp) (b : bytes) (st : TxState S) (Hc : st_coupled st) :
  (let '(r, st') := apply_node_batch nodes st in
   st_coupled st' ∧
   match r with
   | Ok _ => st_abs st' = foldl spec_node (st_abs st) nodes
   | Err e => ∃ msg, e = EGrafeo msg
   end) ∧
  match bincode_ops b with
  | Ok ops => apply_loro_op_bytes b st = apply_loro_ops ops st
  | Err e => apply_loro_op_bytes b st = (Err (EBridge ("bincode decode: " +:+ e)), st)
  end.
Proof.
  split.
  - pose proof (apply_loro_ops_refines_aux (LoroOp_from_NodeOp <$> nodes) st Hc (detached_run_nodes _ _)) as Hr.
    rewrite spec_run_nodes in Hr. unfold apply_loro_ops, refines in Hr. rewrite SE_for_fmap in Hr.
    unfold apply_node_batch. destruct (SE_for nodes _ st) as [[[]|e] st'].
    + destruct Hr as [? [= ->]]. done.
    + destruct Hr as [? [?|?]]; done.
  - unfold apply_loro_op_bytes, SE_lift, mbind, SE_bind. by destruct (bincode_ops b).
Qed.
End batch.

(** No byte string decodes. *)
Definition no_bincode : Bincode := {| bincode_ops _ := Err "eof"%string; bincode_op _ := Err "eof"%string |}.

Lemma apply_node_batch_refines_witness :
  let nodes := [mkNodeOp "a" ["L"] 9 ["p"; "p"] [NodeValue_Integer 1; NodeValue_Str "x"]; mkNodeOp "b" [] 0 [] []] in
  let out := apply_node_batch nodes st0 in
  out.1 = Ok tt ∧ st_coupled out.2 ∧ st_abs out.2 = foldl spec_node (st_abs st0) nodes.
Proof.
  set (nodes := [_; _]). pose proof (apply_node_batch_refines (H2 := no_bincode) nodes [] st0 st0_coupled) as [Hr _].
  cbn zeta. assert (Hok : (apply_node_batch nodes st0).1 = Ok tt) by (vm_compute; reflexivity).
  destruct (apply_node_batch nodes st0) as [r st']. cbn in Hok. subst r. destruct Hr. split; [done|split; done].
Defined.

(** ** The registry refines a list of buffers

    Abstractly, slot [i] is the [i]-th registered buffer. *)

Inductive FfiCmd (W : Type) : Type :=
| CmdRegister
| CmdEnqueue (handle : Z) (op_bytes : bytes)
| CmdFlush (handle : Z)
| CmdOnFlush (callback : bytes → W → W)
| CmdDispatch (epoch op_count : Z).
Arguments CmdRegister {W}.
Arguments CmdEnqueue {W}.
Arguments CmdFlush {W}.
Arguments CmdOnFlush {W}.
Arguments CmdDispatch {W}.

Section refinement.
  Context {W : Type} `{Bincode}.
  Implicit Types (st : FfiState W) (slots : list (list LoroOp)).

(** What a caller sees: the handle of a registration, the error of a call. *)
Definition ffi_step (c : FfiCmd W) st : result string Z * FfiState W :=
  match c with
  | CmdRegister => let '(h, st) := batcher_register st in (Ok h, st)
  | CmdEnqueue h b => let '(r, st) := batcher_enqueue h b st in ((λ _, 0%Z) <$> r, st)
  | CmdFlush h => let '(r, st) := batcher_flush h st in ((λ _, 0%Z) <$> r, st)
  | CmdOnFlush cb => (Ok 0%Z, batcher_on_flush cb st)
  | CmdDispatch e n => (Ok 0%Z, dispatch_flush_callbacks e n st)
  end.

Record SlotsSpec : Type := mkSlotsSpec {
  ss_slots : list (list LoroOp); ss_callbacks : list (bytes → W → W); ss_world : W
}.

Definition spec_slot (slots : list (list LoroOp)) (h : Z) : option (list LoroOp) :=
  if decide (0 ≤ h)%Z then slots !! Z.to_nat h else None.

Definition spec_unknown (slots : list (list LoroOp)) (h : Z) : string :=
  if decide (slots = []) then "batcher registry not initialised"
  else "unknown BatcherHandle: " +:+ pretty h.

Definition notify (payload : bytes) (s : SlotsSpec) : W :=
  foldl (λ w cb, cb payload w) (ss_world s) (ss_callbacks s).

Definition slots_step (c : FfiCmd W) (s : SlotsSpec) : result string Z * SlotsSpec :=
  let '(mkSlotsSpec slots cbs w) := s in
  match c with
  | CmdRegister => (Ok (Z.of_nat (length slots)), mkSlotsSpec (slots ++ [[]]) cbs w)
  | CmdEnqueue h b =>
      match bincode_op b, spec_slot slots h with
      | Err e, _ => (Err ("bincode decode LoroOp: " +:+ e), s)
      | Ok _, None => (Err (spec_unknown slots h), s)
      | Ok op, Some pending => (Ok 0%Z, mkSlotsSpec (<[Z.to_nat h := pending ++ [op]]> slots) cbs w)
      end
  | CmdFlush h =>
      match spec_slot slots h with
      | None => (Err (spec_unknown slots h), s)
      | Some pending =>
          (Ok 0%Z, mkSlotsSpec (<[Z.to_nat h := []]> slots) cbs
                     (notify (flush_payload 0 (Z.of_nat (length pending))) s))
      end
  | CmdOnFlush cb => (Ok 0%Z, mkSlotsSpec slots (cbs ++ [cb]) w)
  | CmdDispatch e n => (Ok 0%Z, mkSlotsSpec slots cbs (notify (flush_payload e n) s))
  end.

Fixpoint run_cmds {St} (step : FfiCmd W → St → result string Z * St) (cs : list (FfiCmd W)) (s : St) :
    list (result string Z) * St :=
  match cs with
  | [] => ([], s)
  | c :: cs => let '(r, s) := step c s in let '(rs, s) := run_cmds step cs s in (r :: rs, s)
  end.

Record slots_related (st : FfiState W) (s : SlotsSpec) : Prop := {
  sr_callbacks : FLUSH_CALLBACKS st = ss_callbacks s;
  sr_world : ffi_world st = ss_world s;
  sr_next : NEXT_HANDLE st = Z.of_nat (length (ss_slots s));
  sr_none : BATCHER_REGISTRY st = None ↔ ss_slots s = [];
  sr_slot h : default ∅ (BATCHER_REGISTRY st) !! h = spec_slot (ss_slots s) h
}.

Lemma find_slot_related st s h :
  slots_related st s →
  match spec_slot (ss_slots s) h with
  | Some pending => ∃ map, find_slot h st = Ok (map, pending) ∧ BATCHER_REGISTRY st = Some map
  | None => find_slot h st = Err (spec_unknown (ss_slots s) h)
  end.
Proof.
  intros Hr. unfold find_slot, spec_unknown. rewrite <-(sr_slot _ _ Hr).
  pose proof (sr_none _ _ Hr) as Hn. destruct (BATCHER_REGISTRY st) as [map|]; cbn.
  - destruct (map !! h); cbn; [by exists map|]. rewrite decide_False; [done|]. by intros ?%Hn.
  - rewrite lookup_empty, decide_True; [done|]. by apply Hn.
Qed.

Lemma spec_slot_lt slots h pending : spec_slot slots h = Some pending → (0 ≤ h < Z.of_nat (length slots))%Z.
Proof. unfold spec_slot. case_decide; [|done]. intros ?%lookup_lt_Some. lia. Qed.

Lemma spec_slot_insert slots h v h' :
  (0 ≤ h < Z.of_nat (length slots))%Z →
  spec_slot (<[Z.to_nat h := v]> slots) h' = if decide (h' = h) then Some v else spec_slot slots h'.
Proof.
  intros Hh. unfold spec_slot. case_decide; case_decide; subst; try lia; try done.
  - by rewrite list_lookup_insert_eq by lia.
  - by rewrite list_lookup_insert_ne by lia.
Qed.

Lemma set_registry_related st s map h pending v :
  slots_related st s → BATCHER_REGISTRY st = Some map → spec_slot (ss_slots s) h = Some pending →
  slots_related (set_registry (<[h := v]> map) st)
    (mkSlotsSpec (<[Z.to_nat h := v]> (ss_slots s)) (ss_callbacks s) (ss_world s)).
Proof.
  intros [Hc Hw Hn Hz Hs] Hm Hp. pose proof (spec_slot_lt _ _ _ Hp). split; cbn; try done.
  - by rewrite length_insert.
  - split; [done|]. intros Hnil%(f_equal length). rewrite length_insert in Hnil. cbn in Hnil. lia.
  - intros h'. rewrite spec_slot_insert by done. rewrite <-Hs, Hm. cbn. case_decide as Heq.
    + subst. apply lookup_insert_eq.
    + by apply lookup_insert_ne.
Qed.

Lemma ffi_step_related c st s :
  slots_related st s → (Z.of_nat (length (ss_slots s)) < U64_MAX)%Z →
  (ffi_step c st).1 = (slots_step c s).1 ∧ slots_related (ffi_step c st).2 (slots_step c s).2 ∧
  length (ss_slots (slots_step c s).2) ≤ S (length (ss_slots s)).
Proof.
  intros Hr Hlt. pose proof (find_slot_related st s) as Hf. destruct s as [slots cbs w].
  destruct c as [|h b|h|cb|e n]; cbn [ffi_step slots_step]; cbn in Hf, Hlt.
  - destruct Hr as [Hc Hw Hn Hz Hs]. cbn in *. unfold batcher_register.
    split; [by rewrite Hn|]. split; [|rewrite length_app; cbn; lia]. split; cbn; try done.
    + rewrite length_app, Hn, u64_add_small by (unfold is_u64, U64_MAX in *; lia). cbn. lia.
    + split; [done|]. intros [_ ?]%app_eq_nil. done.
    + intros h. unfold spec_slot. rewrite Hn. destruct (decide (h = Z.of_nat (length slots))) as [->|Hne].
      * rewrite lookup_insert_eq, decide_True, Nat2Z.id by lia. by rewrite lookup_app_r, Nat.sub_diag by lia.
      * rewrite lookup_insert_ne by done. rewrite Hs. unfold spec_slot. case_decide; [|done].
        destruct (decide (Z.to_nat h < length slots)); [by rewrite lookup_app_l by lia|].
        rewrite !lookup_ge_None_2; [done|rewrite length_app; cbn; lia|lia].
  - unfold batcher_enqueue. destruct (bincode_op b) as [op|err]; [|cbn; eauto]. cbn.
    specialize (Hf h Hr). destruct (spec_slot slots h) as [pending|] eqn:Hp.
    + destruct Hf as (map & -> & Hm). cbn. split; [done|]. rewrite length_insert. split; [|lia].
      by apply (set_registry_related _ _ _ _ _ _ Hr Hm Hp).
    + rewrite Hf. cbn. eauto.
  - unfold batcher_flush. specialize (Hf h Hr). destruct (spec_slot slots h) as [pending|] eqn:Hp.
    + destruct Hf as (map & -> & Hm). cbn. split; [done|]. rewrite length_insert. split; [|lia].
      destruct (set_registry_related _ _ _ _ _ [] Hr Hm Hp) as [Hc Hw Hn Hz Hs].
      split; try done. cbn in *. unfold notify. cbn. by rewrite Hc, Hw.
    + rewrite Hf. cbn. eauto.
  - split; [done|]. split; [|cbn; lia]. destruct Hr as [Hc Hw Hn Hz Hs]. split; try done. cbn in *. by rewrite Hc.
  - split; [done|]. split; [|cbn; lia]. destruct Hr as [Hc Hw Hn Hz Hs]. split; try done.
    cbn in *. unfold notify. cbn. by rewrite Hc, Hw.
Qed.

Lemma run_cmds_related cs st s :
  slots_related st s → (Z.of_nat (length (ss_slots s) + length cs) < U64_MAX)%Z →
  (run_cmds ffi_step cs st).1 = (run_cmds slots_step cs s).1 ∧
  slots_related (run_cmds ffi_step cs st).2 (run_cmds slots_step cs s).2.
Proof.
  revert st s; induction cs as [|c cs IH]; intros st s Hr Hlt; [done|]. cbn in *.
  destruct (ffi_step_related c st s Hr) as (H1 & H2 & H3); [lia|].
  destruct (ffi_step c st) as [r st1], (slots_step c s) as [r' s1]. cbn in *. subst r'.
  destruct (IH st1 s1 H2) as [H4 H5]; [lia|].
  destruct (run_cmds ffi_step cs st1), (run_cmds slots_step cs s1). cbn in *. split; [by subst|done].
Qed.

Lemma ffi_init_related (w : W) : slots_related (ffi_init w) (mkSlotsSpec [] [] w).
Proof.
  split; try done. intros h. cbn. unfold spec_slot. case_decide; [|done]. by destruct (Z.to_nat h).
Qed.

(** C38: under any sequence of fewer than [2^64 - 1] calls the registry behaves as a list of
    buffers: registrations get the handles 0, 1, 2, ..., every call answers
    (errors included) and every callback is notified as the list specifies, each
    buffer holds the operations enqueued since its last flush, and a payload
    carries the epoch and that number in big-endian. *)
Theorem batcher_registry_refines (cs : list (FfiCmd W)) (w : W) (epoch n h : Z)
  (Hcs : (Z.of_nat (length cs) < U64_MAX)%Z) (He : is_u64 epoch) (Hn : is_u64 n) :
  let '(rs, st) := run_cmds ffi_step cs (ffi_init w) in
  let '(rs', s) := run_cmds slots_step cs (mkSlotsSpec [] [] w) in
  rs = rs' ∧ ffi_world st = ss_world s ∧
  default ∅ (BATCHER_REGISTRY st) !! h = spec_slot (ss_slots s) h ∧
  length (flush_payload epoch n) = 16 ∧
  from_be_bytes (take 8 (flush_payload epoch n)) = epoch ∧
  from_be_bytes (drop 8 (flush_payload epoch n)) = n.
Proof.
  destruct (run_cmds_related cs (ffi_init w) (mkSlotsSpec [] [] w) (ffi_init_related w)) as [H1 H2]; [cbn; lia|].
  destruct (run_cmds ffi_step cs _) as [rs st], (run_cmds slots_step cs _) as [rs' s]. cbn in H1, H2.
  split; [done|]. split; [apply H2|]. split; [apply H2|].
  assert (Hlen : ∀ z, length (to_be_bytes 8 z) = 8).
  { intros z. unfold to_be_bytes. by rewrite length_reverse, length_to_le_bytes. }
  unfold flush_payload. rewrite length_app, take_app_length', drop_app_length', !Hlen by done.
  unfold is_u64, U64_MAX in *. by rewrite !from_be_to_be_bytes by lia.
Qed.
End refinement.

(** A decoder that reads a byte as a deletion. *)
Definition byte_bincode : Bincode := {|
  bincode_ops _ := Err "eof"%string;
  bincode_op b := match b with [_] => Ok (DeleteNode (string_of_bytes b)) | _ => Err "eof"%string end
|}.

Lemma batcher_registry_refines_witness :
  let log (b : bytes) (w : list Z) := w ++ [from_be_bytes (drop 8 b)] in
  let cs := [CmdEnqueue 0 [x61]; CmdRegister; CmdOnFlush log; CmdEnqueue 0 [x61]; CmdEnqueue 0 [];
             CmdEnqueue 0 [x62]; CmdRegister; CmdFlush 0; CmdFlush 0; CmdFlush 7] in
  ffi_world (run_cmds (ffi_step (H := byte_bincode)) cs (ffi_init [])).2 = [2; 0]%Z.
Proof.
  intros log cs.
  pose proof (batcher_registry_refines (H := byte_bincode) cs [] 3 4 0
    ltac:(vm_compute; reflexivity) ltac:(vm_compute; done) ltac:(vm_compute; done)) as Hr.
  destruct (run_cmds ffi_step cs (ffi_init [])) as [rs st].
  assert (Hs : ss_world (run_cmds (slots_step (H := byte_bincode)) cs (mkSlotsSpec [] [] [])).2 = [2; 0]%Z)
    by (vm_compute; reflexivity).
  destruct (run_cmds slots_step cs _) as [rs' s]. destruct Hr as (_ & Hw & _). cbn in *. congruence.
Defined.
