(* ===== verification/Memory.v ===== *)
(** * Memory ceiling ([src/runtime/mod.rs])

    [MemoryCeiling]: the allocation counter, the registry of idle documents and
    their eviction, oldest first.  The calls of one thread; the counter is a
    [usize] and wraps as the atomic operations do. *)

From S2P Require Import Prelude Types.
From Stdlib Require Import SpecFloat.

(** ** The clock *)

(** [f as u64]: towards zero, saturating, NaN to zero. *)
Definition f64_as_u64 (f : f64) : Z :=
  match f with
  | S754_finite false m e => Z.min U64_MAX (Z.shiftl (Zpos m) e)
  | S754_infinity false => U64_MAX
  | _ => 0
  end.

(** [since_epoch] is the native clock, in milliseconds, [None] before 1970;
    [date_now] is [Date.now()] of the page. *)
Definition now_ms (wasm_family feature_wasm : bool) (since_epoch : option Z) (date_now : f64) : Z :=
  if negb wasm_family then match since_epoch with Some d => u64_wrap d | None => 0 end
  else if feature_wasm then f64_as_u64 date_now
  else 0.

(** ** The ceiling *)

Record IdleDoc : Type := mkIdleDoc { doc_key : Z; size_bytes : Z; last_access_ms : Z }.

#[export] Instance IdleDoc_eq_dec : EqDecision IdleDoc.
Proof. solve_decision. Defined.

Record MemoryCeiling : Type := mkMemoryCeiling {
  budget_bytes : Z; current_bytes : Z; idle : list IdleDoc
}.

Definition DEFAULT_BUDGET : Z := 80 * 1024 * 1024.

Definition MemoryCeiling_new (budget : Z) : MemoryCeiling := mkMemoryCeiling budget 0 [].
Definition MemoryCeiling_default : MemoryCeiling := MemoryCeiling_new DEFAULT_BUDGET.

Definition current_usage (c : MemoryCeiling) : Z := current_bytes c.

(** [AtomicUsize::fetch_add], [fetch_sub] and [store]; the registry lives beside it. *)
Definition set_current (cur : Z) (c : MemoryCeiling) : MemoryCeiling :=
  mkMemoryCeiling (budget_bytes c) cur (idle c).
Definition set_idle (l : list IdleDoc) (c : MemoryCeiling) : MemoryCeiling :=
  mkMemoryCeiling (budget_bytes c) (current_bytes c) l.
Definition fetch_add (bytes : Z) (c : MemoryCeiling) : Z * MemoryCeiling :=
  (current_bytes c, set_current (u64_add (current_bytes c) bytes) c).
Definition fetch_sub (bytes : Z) (c : MemoryCeiling) : Z * MemoryCeiling :=
  (current_bytes c, set_current (u64_sub (current_bytes c) bytes) c).

(** [slice::sort_by_key], a stable sort. *)
Fixpoint insert_by_key (d : IdleDoc) (l : list IdleDoc) : list IdleDoc :=
  match l with
  | [] => [d]
  | e :: l' => if (last_access_ms d <=? last_access_ms e)%Z then d :: l else e :: insert_by_key d l'
  end.
Fixpoint sort_by_key (l : list IdleDoc) : list IdleDoc :=
  match l with [] => [] | d :: l => insert_by_key d (sort_by_key l) end.

Definition try_alloc_inner (bytes : Z) (c : MemoryCeiling) : bool * MemoryCeiling :=
  let current := current_bytes c in
  if (u64_add current bytes <=? budget_bytes c)%Z then (true, (fetch_add bytes c).2) else (false, c).

(** The [while] loop, which removes the head of the sorted registry. *)
Fixpoint evict_loop (bytes : Z) (l : list IdleDoc) (freed : Z) (c : MemoryCeiling) : Z * MemoryCeiling :=
  match l with
  | [] => (freed, set_idle [] c)
  | evicted :: l' =>
      if (budget_bytes c <? u64_add (current_bytes c) bytes)%Z then
        let '(prev, c) := fetch_sub (size_bytes evicted) c in
        evict_loop bytes l' (u64_add freed (Z.min prev (size_bytes evicted))) c
      else (freed, set_idle l c)
  end.

Definition evict_to_fit (bytes : Z) (c : MemoryCeiling) : Z * MemoryCeiling :=
  match idle c with
  | [] => (0%Z, c)
  | l => evict_loop bytes (sort_by_key l) 0 c
  end.

Definition try_alloc (bytes : Z) (c : MemoryCeiling) : bool * MemoryCeiling :=
  let '(ok, c) := try_alloc_inner bytes c in
  if ok then (true, c)
  else let '(_, c) := evict_to_fit bytes c in try_alloc_inner bytes c.

Definition release (bytes : Z) (c : MemoryCeiling) : MemoryCeiling :=
  let '(prev, c) := fetch_sub bytes c in
  if (prev <? bytes)%Z then set_current 0 c else c.

(** The slot of the key is overwritten in place, else a new one is pushed. *)
Fixpoint upsert_idle (d : IdleDoc) (l : list IdleDoc) : list IdleDoc :=
  match l with
  | [] => [d]
  | e :: l => if (doc_key e =? doc_key d)%Z then d :: l else e :: upsert_idle d l
  end.
Definition register_idle (key size last_access : Z) (c : MemoryCeiling) : MemoryCeiling :=
  set_idle (upsert_idle (mkIdleDoc key size last_access) (idle c)) c.

Definition evict_idle (c : MemoryCeiling) : Z * MemoryCeiling :=
  match sort_by_key (idle c) with
  | [] => (0%Z, c)
  | evicted :: rest =>
      let '(prev, c) := fetch_sub (size_bytes evicted) (set_idle rest c) in
      (Z.min prev (size_bytes evicted), c)
  end.

(** A registered document the counter does not cover makes the counter wrap:
    the clamp applies to the number returned, not to the counter. *)
Example evict_idle_wraps :
  let '(freed, c) := evict_idle (register_idle 1 300 0 (MemoryCeiling_new 1000)) in
  freed = 0%Z ∧ current_bytes c = (2 ^ 64 - 300)%Z ∧ (try_alloc 400 c).1 = true ∧ (try_alloc 200 c).1 = false.
Proof. vm_compute. done. Qed.

(** ** Sorting *)

Lemma insert_by_key_perm d l : insert_by_key d l ≡ₚ d :: l.
Proof.
  induction l as [|e l IH]; cbn; [done|]. case_match; [done|]. rewrite IH. constructor.
Qed.

Lemma sort_by_key_perm l : sort_by_key l ≡ₚ l.
Proof. induction l as [|d l IH]; cbn; [done|]. by rewrite insert_by_key_perm, IH. Qed.

Definition older (d e : IdleDoc) : Prop := (last_access_ms d ≤ last_access_ms e)%Z.

Lemma insert_by_key_sorted d l : StronglySorted older l → StronglySorted older (insert_by_key d l).
Proof.
  induction 1 as [|e l Hs IH He]; cbn; [by repeat constructor|].
  destruct (Z.leb_spec (last_access_ms d) (last_access_ms e)).
  - constructor; [by constructor|]. constructor; [done|]. eapply Forall_impl; [done|].
    unfold older in *. cbn. lia.
  - constructor; [done|]. rewrite insert_by_key_perm. constructor; [unfold older; lia|done].
Qed.

Lemma sort_by_key_sorted l : StronglySorted older (sort_by_key l).
Proof. induction l as [|d l IH]; cbn; [constructor|]. by apply insert_by_key_sorted. Qed.

(** ** Accounting *)

Fixpoint sum_sizes (l : list IdleDoc) : Z :=
  match l with [] => 0%Z | d :: l => (size_bytes d + sum_sizes l)%Z end.

Lemma sum_sizes_app l1 l2 : sum_sizes (l1 ++ l2) = (sum_sizes l1 + sum_sizes l2)%Z.
Proof. induction l1; cbn; lia. Qed.

Lemma sum_sizes_perm l1 l2 : l1 ≡ₚ l2 → sum_sizes l1 = sum_sizes l2.
Proof. induction 1; cbn; lia. Qed.

Lemma sum_sizes_nonneg l : Forall (λ d, 0 ≤ size_bytes d)%Z l → (0 ≤ sum_sizes l)%Z.
Proof. induction 1; cbn; lia. Qed.

(** Every registered document is part of what the counter counts. *)
Record accounted (c : MemoryCeiling) : Prop := {
  acc_budget : is_u64 (budget_bytes c);
  acc_sizes : Forall (λ d, 0 ≤ size_bytes d)%Z (idle c);
  acc_sum : (sum_sizes (idle c) ≤ current_bytes c)%Z;
  acc_current : (current_bytes c ≤ budget_bytes c)%Z
}.

Section accounted.
  Context (c : MemoryCeiling) (Hc : accounted c).

Lemma accounted_range : is_u64 (current_bytes c).
Proof.
    destruct Hc as [Hb Hs Hsum Hcur]. pose proof (sum_sizes_nonneg _ Hs). unfold is_u64 in *. lia.
Qed.

Lemma accounted_sorted :
    Forall (λ d, 0 ≤ size_bytes d)%Z (sort_by_key (idle c)) ∧
    sum_sizes (sort_by_key (idle c)) = sum_sizes (idle c).
Proof. split; [rewrite sort_by_key_perm; apply Hc|apply sum_sizes_perm, sort_by_key_perm]. Qed.
End accounted.

(** The loop evicts the shortest prefix that makes room, or everything. *)
Lemma evict_loop_spec bytes l freed c :
  is_u64 (budget_bytes c) → (0 ≤ bytes)%Z → (budget_bytes c + bytes ≤ U64_MAX)%Z →
  Forall (λ d, 0 ≤ size_bytes d)%Z l → (sum_sizes l ≤ current_bytes c ≤ budget_bytes c)%Z →
  ∃ evicted rest, l = evicted ++ rest ∧
    (evict_loop bytes l freed c).2 =
      mkMemoryCeiling (budget_bytes c) (current_bytes c - sum_sizes evicted) rest ∧
    (rest = [] ∨ current_bytes c - sum_sizes evicted + bytes ≤ budget_bytes c)%Z ∧
    ∀ ev d ev', evicted = ev ++ d :: ev' → (budget_bytes c < current_bytes c - sum_sizes ev + bytes)%Z.
Proof.
  revert freed c; induction l as [|d l IH]; intros freed c Hbu Hb Hmax Hs Hsum; cbn.
  - exists [], []. cbn. rewrite Z.sub_0_r. repeat split; [by left|]. by intros [].
  - apply Forall_cons in Hs as [Hd Hs]. cbn in Hsum. pose proof (sum_sizes_nonneg _ Hs).
    unfold is_u64, U64_MAX in *.
    rewrite (u64_add_small (current_bytes c) bytes) by (unfold is_u64, U64_MAX; lia).
    destruct (Z.ltb_spec (budget_bytes c) (current_bytes c + bytes)) as [Hlt|Hle].
    + set (f := u64_add _ _). set (c1 := set_current _ c).
      assert (Hc1 : current_bytes c1 = (current_bytes c - size_bytes d)%Z)
        by (unfold c1; cbn; rewrite u64_sub_small; [done|unfold is_u64, U64_MAX; lia]).
      destruct (IH f c1) as (ev & rest & -> & -> & Hor & Hmin); [done..|rewrite Hc1; cbn; lia|].
      exists (d :: ev), rest. rewrite Hc1 in *. cbn [budget_bytes c1 set_current sum_sizes] in *.
      rewrite !Z.sub_add_distr. repeat split; [done|].
      intros [|d' pre] e post; cbn; [intros; lia|]. intros [= <- ->].
      rewrite Z.sub_add_distr. by eapply Hmin.
    + exists [], (d :: l). cbn. rewrite Z.sub_0_r. split; [done|]. split; [done|].
      split; [right; lia|]. by intros [].
Qed.

Lemma try_alloc_inner_spec bytes c :
  is_u64 (current_bytes c + bytes) →
  try_alloc_inner bytes c =
    if decide (current_bytes c + bytes ≤ budget_bytes c)%Z
    then (true, set_current (current_bytes c + bytes) c) else (false, c).
Proof.
  intros Hr. unfold try_alloc_inner, fetch_add. cbn. rewrite u64_add_small by done.
  destruct (Z.leb_spec (current_bytes c + bytes) (budget_bytes c)); by case_decide; try lia.
Qed.

Lemma try_alloc_spec (bytes : Z) (c : MemoryCeiling)
  (Hc : accounted c) (Hb : (0 ≤ bytes)%Z) (Hmax : (budget_bytes c + bytes ≤ U64_MAX)%Z) :
  let '(ok, c') := try_alloc bytes c in
  accounted c' ∧ budget_bytes c' = budget_bytes c ∧
  ∃ evicted,
    current_bytes c' = (current_bytes c - sum_sizes evicted + if ok then bytes else 0)%Z ∧
    evicted ++ idle c' ≡ₚ idle c ∧
    Forall (λ d, Forall (older d) (idle c')) evicted ∧
    (∀ ev d ev', evicted = ev ++ d :: ev' →
       (budget_bytes c < current_bytes c - sum_sizes ev + bytes)%Z) ∧
    (ok = false → idle c' = [] ∧ (budget_bytes c < current_bytes c' + bytes)%Z).
Proof.
  pose proof (accounted_range c Hc) as Hr. destruct (accounted_sorted c Hc) as [Hss Hsum].
  pose proof Hc as [Hbu Hs Hle Hcur]. unfold is_u64 in *. unfold try_alloc.
  rewrite try_alloc_inner_spec by (unfold is_u64; lia). case_decide as Hfit.
  { split; [split; cbn; [done|done|lia|lia]|]. split; [done|]. exists []. cbn.
    split; [lia|]. split; [done|]. split; [constructor|]. split; [by intros []|done]. }
  unfold evict_to_fit.
  assert (∃ evicted rest, sort_by_key (idle c) = evicted ++ rest ∧
    (evict_to_fit bytes c).2 = mkMemoryCeiling (budget_bytes c) (current_bytes c - sum_sizes evicted) rest ∧
    (rest = [] ∨ current_bytes c - sum_sizes evicted + bytes ≤ budget_bytes c)%Z ∧
    ∀ ev d ev', evicted = ev ++ d :: ev' → (budget_bytes c < current_bytes c - sum_sizes ev + bytes)%Z)
    as (ev & rest & Hsort & Hev & Hor & Hmin).
  { unfold evict_to_fit. destruct (idle c) as [|d l] eqn:Hidle.
    - exists [], []. cbn. rewrite Z.sub_0_r. split; [done|]. split; [|split; [by left|by intros []]].
      destruct c; cbn in *. by subst.
    - rewrite <-Hidle in *. apply evict_loop_spec; [done..|lia]. }
  fold (evict_to_fit bytes c). destruct (evict_to_fit bytes c) as [freed c1]. cbn in Hev. subst c1.
  pose proof (sum_sizes_app ev rest) as Happ. rewrite <-Hsort in Happ.
  rewrite Hsort in Hss. apply Forall_app in Hss as [Hev Hrest].
  pose proof (sum_sizes_nonneg _ Hev). pose proof (sum_sizes_nonneg _ Hrest).
  rewrite try_alloc_inner_spec by (unfold is_u64; cbn; lia). cbn [current_bytes budget_bytes].
  assert (Hold : Forall (λ d, Forall (older d) rest) ev).
  { pose proof (sort_by_key_sorted (idle c)) as Hst. rewrite Hsort in Hst.
    clear -Hst. induction ev as [|d ev IH]; [constructor|]. inversion_clear Hst as [|?? Hst' Hd].
    constructor; [by apply Forall_app in Hd as [_ ?]|by apply IH]. }
  pose proof (sort_by_key_perm (idle c)) as Hperm. rewrite Hsort in Hperm.
  case_decide as Hfit'; cbn; (split; [split; cbn; [done|done|lia|lia]|]); (split; [done|]);
    exists ev; (split; [lia|]); (split; [done|]); (split; [done|]); (split; [done|]); [done|].
  intros _. split; [|lia]. by destruct Hor; [|lia].
Qed.

(** An allocation on an accounted ceiling never takes the counter over the
    budget and evicts only when it must: idle documents leave oldest first, each
    of them while the request still does not fit, their bytes and no others
    leave the counter, and the request is refused only when nothing is left to
    evict and it does not fit even then. *)
Lemma try_alloc_correct (bytes : Z) (c : MemoryCeiling)
  (Hc : accounted c) (Hb : (0 ≤ bytes)%Z) (Hmax : (budget_bytes c + bytes ≤ U64_MAX)%Z) :
  let '(ok, c') := try_alloc bytes c in
  accounted c' ∧ budget_bytes c' = budget_bytes c ∧
  ∃ evicted,
    current_bytes c' = (current_bytes c - sum_sizes evicted + if ok then bytes else 0)%Z ∧
    evicted ++ idle c' ≡ₚ idle c ∧
    Forall (λ d, Forall (older d) (idle c')) evicted ∧
    (∀ ev d ev', evicted = ev ++ d :: ev' →
       (budget_bytes c < current_bytes c - sum_sizes ev + bytes)%Z) ∧
    (ok = false → idle c' = [] ∧ (budget_bytes c < current_bytes c' + bytes)%Z).
Proof. by apply try_alloc_spec. Qed.

Lemma try_alloc_correct_witness :
  let c := mkMemoryCeiling 1000 900 [mkIdleDoc 3 300 3000; mkIdleDoc 1 300 1000; mkIdleDoc 2 300 2000] in
  try_alloc 700 c = (true, mkMemoryCeiling 1000 1000 [mkIdleDoc 3 300 3000]) ∧
  accounted (try_alloc 700 c).2.
Proof.
  intros c. assert (Hc : accounted c) by (split; cbn; repeat constructor; cbn; try lia; by vm_compute).
  pose proof (try_alloc_correct 700 c Hc ltac:(lia) ltac:(cbn; unfold U64_MAX; lia)) as H.
  assert (Ht : try_alloc 700 c = (true, mkMemoryCeiling 1000 1000 [mkIdleDoc 3 300 3000]))
    by (vm_compute; reflexivity).
  rewrite Ht in *. split; [done|apply H].
Defined.

(** ** Accounting over the life of a ceiling

    [active] is what the client holds: allocated, not released and not idle.
    Its duties are to release and to register only what it holds. *)

Inductive MemCmd : Type :=
| MemAlloc (bytes : Z)
| MemRelease (bytes : Z)
| MemRegister (key size last_access : Z)
| MemEvict.

Definition mem_step (c : MemoryCeiling) (cmd : MemCmd) : MemoryCeiling :=
  match cmd with
  | MemAlloc b => (try_alloc b c).2
  | MemRelease b => release b c
  | MemRegister k s t => register_idle k s t c
  | MemEvict => (evict_idle c).2
  end.

Definition registered_size (key : Z) (l : list IdleDoc) : Z :=
  match list_find (λ d, doc_key d = key) l with Some (_, d) => size_bytes d | None => 0%Z end.

Definition active_step (c : MemoryCeiling) (active : Z) (cmd : MemCmd) : Z :=
  match cmd with
  | MemAlloc b => if (try_alloc b c).1 then (active + b)%Z else active
  | MemRelease b => (active - b)%Z
  | MemRegister k s _ => (active + registered_size k (idle c) - s)%Z
  | MemEvict => active
  end.

Definition mem_duty (c : MemoryCeiling) (active : Z) (cmd : MemCmd) : Prop :=
  match cmd with
  | MemAlloc b => (0 ≤ b ∧ budget_bytes c + b ≤ U64_MAX)%Z
  | MemRelease b => (0 ≤ b ≤ active)%Z
  | MemRegister k s _ => (0 ≤ s ≤ active + registered_size k (idle c))%Z
  | MemEvict => True
  end.

Fixpoint mem_run (c : MemoryCeiling) (active : Z) (cs : list MemCmd) : MemoryCeiling * Z :=
  match cs with
  | [] => (c, active)
  | cmd :: cs => mem_run (mem_step c cmd) (active_step c active cmd) cs
  end.

Fixpoint mem_duties (c : MemoryCeiling) (active : Z) (cs : list MemCmd) : Prop :=
  match cs with
  | [] => True
  | cmd :: cs => mem_duty c active cmd ∧ mem_duties (mem_step c cmd) (active_step c active cmd) cs
  end.

Lemma upsert_idle_sum d l :
  sum_sizes (upsert_idle d l) = (sum_sizes l - registered_size (doc_key d) l + size_bytes d)%Z.
Proof.
  unfold registered_size. induction l as [|e l IH]; cbn; [lia|].
  destruct (Z.eqb_spec (doc_key e) (doc_key d)); case_decide; cbn; try done; [lia|].
  rewrite IH. destruct (list_find _ l) as [[? ?]|]; cbn; lia.
Qed.

Lemma upsert_idle_sizes d l :
  (0 ≤ size_bytes d)%Z → Forall (λ d, 0 ≤ size_bytes d)%Z l → Forall (λ d, 0 ≤ size_bytes d)%Z (upsert_idle d l).
Proof. intros Hd. induction 1; cbn; [by repeat constructor|]. by case_match; repeat constructor. Qed.

Definition balanced (c : MemoryCeiling) (active : Z) : Prop :=
  accounted c ∧ (0 ≤ active)%Z ∧ current_bytes c = (active + sum_sizes (idle c))%Z.

Lemma mem_step_balanced c active cmd :
  balanced c active → mem_duty c active cmd →
  balanced (mem_step c cmd) (active_step c active cmd) ∧ budget_bytes (mem_step c cmd) = budget_bytes c.
Proof.
  intros (Hc & Ha & Hcur) Hd. pose proof Hc as [Hbu Hs Hsum Hle].
  pose proof (accounted_range c Hc) as Hr. pose proof (sum_sizes_nonneg _ Hs) as Hnn.
  destruct cmd as [b|b|k s t|]; cbn in Hd |- *.
  - pose proof (try_alloc_spec b c Hc (proj1 Hd) (proj2 Hd)) as H.
    destruct (try_alloc b c) as [ok c']. destruct H as (Hc' & Hb' & ev & Hcur' & Hp & _). cbn.
    split; [|done]. split; [done|]. apply sum_sizes_perm in Hp. rewrite sum_sizes_app in Hp.
    destruct ok; lia.
  - unfold release, fetch_sub. cbn. unfold is_u64 in *.
    rewrite u64_sub_small by (unfold is_u64; lia).
    destruct (Z.ltb_spec (current_bytes c) b); [lia|]. split; [|done].
    split; [split; cbn; [done|done|lia|lia]|]. cbn. lia.
  - pose proof (upsert_idle_sum (mkIdleDoc k s t) (idle c)) as Hu. cbn in Hu. split; [|done].
    split; [split; cbn; [done|by apply upsert_idle_sizes; [cbn; lia|]|lia|lia]|]. cbn. lia.
  - unfold evict_idle. destruct (accounted_sorted c Hc) as [Hss Hse].
    destruct (sort_by_key (idle c)) as [|d l]; [done|]. cbn in Hse |- *.
    apply Forall_cons in Hss as [Hd0 Hl]. pose proof (sum_sizes_nonneg _ Hl). unfold is_u64 in *.
    rewrite u64_sub_small by (unfold is_u64; lia). split; [|done].
    split; [split; cbn; [done|done|lia|lia]|]. cbn. lia.
Qed.

Lemma mem_run_balanced c active cs :
  balanced c active → mem_duties c active cs →
  balanced (mem_run c active cs).1 (mem_run c active cs).2 ∧
  budget_bytes (mem_run c active cs).1 = budget_bytes c.
Proof.
  revert c active; induction cs as [|cmd cs IH]; intros c active Hbal Hd; [done|].
  destruct Hd as [Hd Hds]. destruct (mem_step_balanced _ _ _ Hbal Hd) as [Hb1 Hb2].
  destruct (IH _ _ Hb1 Hds) as [Hb3 Hb4]. cbn. split; [done|congruence].
Qed.

(** Over any sequence of calls in which the client releases and registers
    only bytes it holds, the counter is exactly the bytes the client holds plus
    the registered idle ones, and stays between zero and the budget: it never
    wraps and never overcommits. *)
Lemma MemoryCeiling_accounting (budget : Z) (cs : list MemCmd)
  (Hb : is_u64 budget) (Hd : mem_duties (MemoryCeiling_new budget) 0 cs) :
  let '(c, active) := mem_run (MemoryCeiling_new budget) 0 cs in
  current_bytes c = (active + sum_sizes (idle c))%Z ∧ (0 ≤ active)%Z ∧ (0 ≤ current_bytes c ≤ budget)%Z.
Proof.
  assert (Hbal : balanced (MemoryCeiling_new budget) 0).
  { unfold is_u64 in Hb. split; [split; cbn; [done|constructor|lia|lia]|done]. }
  destruct (mem_run_balanced _ _ cs Hbal Hd) as [(Hc & Ha & Hcur) Hbu].
  destruct (mem_run _ _ cs) as [c active]. cbn in *. pose proof (accounted_range c Hc) as Hr.
  destruct Hc. unfold is_u64 in *. lia.
Qed.

Lemma MemoryCeiling_accounting_witness :
  let cs := [MemAlloc 300; MemAlloc 300; MemRegister 1 300 10; MemAlloc 500; MemRelease 800] in
  mem_run (MemoryCeiling_new 900) 0 cs = (mkMemoryCeiling 900 0 [], 0%Z) ∧
  (0 ≤ current_bytes (mem_run (MemoryCeiling_new 900) 0 cs).1 ≤ 900)%Z.
Proof.
  intros cs. assert (He : mem_run (MemoryCeiling_new 900) 0 cs = (mkMemoryCeiling 900 0 [], 0%Z))
    by (vm_compute; reflexivity).
  pose proof (MemoryCeiling_accounting 900 cs) as H. rewrite He in *. split; [done|].
  apply H; vm_compute; repeat split; discriminate.
Defined.
