(* ===== verification/MemoryThreads.v ===== *)
(** * The memory ceiling under concurrent calls ([src/runtime/mod.rs])

    [MemoryCeiling] is shared by reference: its counter is atomic, its registry
    is behind a mutex, and no call holds both for its whole duration.  Here a
    call is a sequence of steps, one per atomic access or critical section, and
    the steps of any number of threads interleave.  Run without interruption
    the steps of a call are the definition of [Memory.v]. *)

From S2P Require Import Prelude Memory.

(** Where a thread stands inside a call.  [PLoad]: about to read the counter in
    [try_alloc_inner], for the second time after an eviction; [PAdd]: the check
    has passed; [PEvict]: about to lock the registry; [PLoop] and [PEvictSub]:
    inside the loop of [evict_to_fit], holding the lock; [PSub] and [PStore]:
    the two accesses of [release]. *)
Inductive Pc : Type :=
| PIdle
| PLoad (bytes : Z) (retry : bool)
| PAdd (bytes : Z)
| PEvict (bytes : Z)
| PLoop (bytes : Z)
| PEvictSub (bytes size : Z)
| PSub (bytes : Z)
| PStore
| PEvictOne
| PEvictOneSub (size : Z)
| PRegister (key size last_access : Z).

(** [sh_active] is what the clients hold, as in [Memory.v]; it is not part of
    the program. *)
Record Shared : Type := mkShared {
  sh_ceiling : MemoryCeiling;
  sh_lock : option nat;
  sh_threads : list Pc;
  sh_active : Z
}.

(** One step of a thread: its next position, the ceiling, the lock and what the
    clients hold; [None] while it waits for the lock. *)
Definition pc_step (i : nat) (pc : Pc) (c : MemoryCeiling) (lock : option nat) (active : Z) :
    option (Pc * MemoryCeiling * option nat * Z) :=
  match pc with
  | PIdle => None
  | PLoad b retry =>
      if (u64_add (current_bytes c) b <=? budget_bytes c)%Z then Some (PAdd b, c, lock, active)
      else Some (if retry then PIdle else PEvict b, c, lock, active)
  | PAdd b => Some (PIdle, (fetch_add b c).2, lock, (active + b)%Z)
  | PEvict b =>
      match lock, idle c with
      | Some _, _ => None
      | None, [] => Some (PLoad b true, c, None, active)
      | None, l => Some (PLoop b, set_idle (sort_by_key l) c, Some i, active)
      end
  | PLoop b =>
      match idle c with
      | [] => Some (PLoad b true, c, None, active)
      | d :: l =>
          if (budget_bytes c <? u64_add (current_bytes c) b)%Z
          then Some (PEvictSub b (size_bytes d), set_idle l c, lock, active)
          else Some (PLoad b true, c, None, active)
      end
  | PEvictSub b s => Some (PLoop b, (fetch_sub s c).2, lock, active)
  | PSub b =>
      let '(prev, c) := fetch_sub b c in
      Some (if (prev <? b)%Z then PStore else PIdle, c, lock, active)
  | PStore => Some (PIdle, set_current 0 c, lock, active)
  | PEvictOne =>
      match lock, sort_by_key (idle c) with
      | Some _, _ => None
      | None, [] => Some (PIdle, c, None, active)
      | None, d :: l => Some (PEvictOneSub (size_bytes d), set_idle l c, Some i, active)
      end
  | PEvictOneSub s => Some (PIdle, (fetch_sub s c).2, None, active)
  | PRegister k s t =>
      match lock with
      | Some _ => None
      | None => Some (PIdle, register_idle k s t c, None, (active + registered_size k (idle c))%Z)
      end
  end.

(** The start of a call, and what the client gives up with it. *)
Definition call_pc (cmd : MemCmd) : Pc :=
  match cmd with
  | MemAlloc b => PLoad b false
  | MemRelease b => PSub b
  | MemRegister k s t => PRegister k s t
  | MemEvict => PEvictOne
  end.

Definition call_gives (cmd : MemCmd) : Z :=
  match cmd with MemRelease b => b | MemRegister _ s _ => s | _ => 0 end.

(** The clients' duties: give up only what they hold, ask for at most [max]. *)
Definition call_duty (max active : Z) (cmd : MemCmd) : Prop :=
  match cmd with
  | MemAlloc b => (0 ≤ b ≤ max)%Z
  | _ => (0 ≤ call_gives cmd ≤ active)%Z
  end.

Inductive threads_step (max : Z) : Shared → Shared → Prop :=
| ts_call i cmd c lock ts active :
    ts !! i = Some PIdle → call_duty max active cmd →
    threads_step max (mkShared c lock ts active)
      (mkShared c lock (<[i := call_pc cmd]> ts) (active - call_gives cmd)%Z)
| ts_step i pc pc' c c' lock lock' ts active active' :
    ts !! i = Some pc → pc_step i pc c lock active = Some (pc', c', lock', active') →
    threads_step max (mkShared c lock ts active) (mkShared c' lock' (<[i := pc']> ts) active').

Definition threads_new (budget : Z) (n : nat) : Shared :=
  mkShared (MemoryCeiling_new budget) None (replicate n PIdle) 0.

(** ** Sums over the threads *)

Fixpoint Zsum {A} (f : A → Z) (l : list A) : Z :=
  match l with [] => 0%Z | x :: l => (f x + Zsum f l)%Z end.

Lemma Zsum_insert {A} (f : A → Z) (l : list A) i x y :
  l !! i = Some x → Zsum f (<[i := y]> l) = (Zsum f l - f x + f y)%Z.
Proof.
  revert i. induction l as [|z l IH]; intros [|i] Hi; simplify_eq/=; [lia|]. rewrite (IH i Hi). lia.
Qed.

Lemma Zsum_bounds {A} (f : A → Z) (l : list A) (m : Z) :
  Forall (λ x, 0 ≤ f x ≤ m)%Z l → (0 ≤ Zsum f l ≤ Z.of_nat (length l) * m)%Z.
Proof. induction 1; cbn [Zsum length]; lia. Qed.

Lemma Zsum_lookup {A} (f : A → Z) (l : list A) i x :
  Forall (λ x, 0 ≤ f x)%Z l → l !! i = Some x → (f x ≤ Zsum f l)%Z.
Proof.
  intros Hl. revert i. induction Hl as [|z l Hz Hl IH]; intros [|i] Hi; simplify_eq/=.
  - assert (0 ≤ Zsum f l)%Z by (clear -Hl; induction Hl; cbn; lia). lia.
  - specialize (IH i Hi). lia.
Qed.

(** The bytes a thread is about to add, and those it is about to subtract. *)
Definition adds (pc : Pc) : Z := match pc with PAdd b => b | _ => 0 end.
Definition subs (pc : Pc) : Z :=
  match pc with PEvictSub _ s | PEvictOneSub s | PSub s | PRegister _ s _ => s | _ => 0 end.

Definition pc_ok (max budget : Z) (pc : Pc) : Prop :=
  (0 ≤ adds pc ≤ budget)%Z ∧ (0 ≤ subs pc)%Z ∧
  match pc with
  | PStore => False
  | PLoad b _ | PEvict b | PLoop b | PEvictSub b _ => (0 ≤ b ≤ max)%Z
  | _ => True
  end.

(** Every byte the counter counts is a client's, an idle document's or about to
    be subtracted; what is counted or about to be is a budget per thread. *)
Record threads_ok (max budget : Z) (n : nat) (sh : Shared) : Prop := {
  to_budget : budget_bytes (sh_ceiling sh) = budget;
  to_length : length (sh_threads sh) = n;
  to_active : (0 ≤ sh_active sh)%Z;
  to_sizes : Forall (λ d, 0 ≤ size_bytes d)%Z (idle (sh_ceiling sh));
  to_pcs : Forall (pc_ok max budget) (sh_threads sh);
  to_sum : current_bytes (sh_ceiling sh) =
    (sh_active sh + sum_sizes (idle (sh_ceiling sh)) + Zsum subs (sh_threads sh))%Z;
  to_bound : (current_bytes (sh_ceiling sh) + Zsum adds (sh_threads sh) ≤ Z.of_nat n * budget)%Z
}.

Lemma Zsum_others {A} (f : A → Z) (l : list A) (m : Z) i x :
  Forall (λ x, 0 ≤ f x ≤ m)%Z l → l !! i = Some x →
  (Zsum f l ≤ (Z.of_nat (length l) - 1) * m + f x)%Z.
Proof.
  intros Hl. revert i. induction Hl as [|z l Hz Hl IH]; intros [|i] Hi; cbn in Hi; simplify_eq; cbn [Zsum length];
    replace (Z.of_nat (S (length l)) - 1)%Z with (Z.of_nat (length l)) by lia.
  - pose proof (Zsum_bounds f l m Hl). lia.
  - specialize (IH i Hi). nia.
Qed.

Lemma accounted_sort c :
  Forall (λ d, 0 ≤ size_bytes d)%Z (idle c) →
  Forall (λ d, 0 ≤ size_bytes d)%Z (sort_by_key (idle c)) ∧
  sum_sizes (sort_by_key (idle c)) = sum_sizes (idle c).
Proof. intros Hs. split; [by rewrite sort_by_key_perm|apply sum_sizes_perm, sort_by_key_perm]. Qed.

Lemma registered_size_nonneg k l :
  Forall (λ d, 0 ≤ size_bytes d)%Z l → (0 ≤ registered_size k l)%Z.
Proof.
  intros Hl. unfold registered_size. destruct (list_find _ l) as [[i d]|] eqn:Hf; [|done].
  apply list_find_Some in Hf as [Hi _]. by apply (proj1 (Forall_lookup _ _) Hl _ _ Hi).
Qed.

(** Closes an update of the state: frame conditions and sums. *)
Ltac update H := eapply H; cbn; try done; try lia; try (split; cbn; lia).

Section steps.
  Context (max budget : Z) (n : nat).
  Context (Hbudget : (0 ≤ budget)%Z) (Hmax0 : (0 ≤ max)%Z) (Hmax : (Z.of_nat n * budget + max ≤ U64_MAX)%Z).

Lemma threads_ok_update c lock ts active i pc pc' c' lock' active' :
  threads_ok max budget n (mkShared c lock ts active) → ts !! i = Some pc →
  budget_bytes c' = budget → (0 ≤ active')%Z → Forall (λ d, 0 ≤ size_bytes d)%Z (idle c') →
  pc_ok max budget pc' →
  current_bytes c' = (active' + sum_sizes (idle c') + Zsum subs ts - subs pc + subs pc')%Z →
  (current_bytes c' + Zsum adds ts - adds pc + adds pc' ≤ Z.of_nat n * budget)%Z →
  threads_ok max budget n (mkShared c' lock' (<[i := pc']> ts) active').
Proof.
  intros [Hb Hn Ha Hs Hp Hsum Hbd] Hi Hb' Ha' Hs' Hp' Hsum' Hbd'. cbn in *.
  split; cbn; rewrite ?(Zsum_insert _ _ _ _ _ Hi); try done.
  - by rewrite length_insert.
  - by apply Forall_insert.
  - lia.
  - lia.
Qed.

(** What a well-formed state gives about a thread in it. *)
Lemma threads_ok_range c lock ts active i pc :
  threads_ok max budget n (mkShared c lock ts active) → ts !! i = Some pc →
  pc_ok max budget pc ∧ (0 ≤ subs pc ≤ Zsum subs ts)%Z ∧ (0 ≤ sum_sizes (idle c))%Z ∧
  (0 ≤ current_bytes c ≤ Z.of_nat n * budget)%Z ∧
  (Zsum adds ts ≤ (Z.of_nat n - 1) * budget + adds pc)%Z ∧
  (current_bytes c + adds pc ≤ Z.of_nat n * budget)%Z.
Proof.
  intros [Hb Hn Ha Hs Hp Hsum Hbd] Hi. cbn in *.
  assert (Hsub : Forall (λ p, 0 ≤ subs p)%Z ts) by (eapply Forall_impl; [exact Hp|]; by intros p (_&?&_)).
  assert (Hadd : Forall (λ p, 0 ≤ adds p ≤ budget)%Z ts) by (eapply Forall_impl; [exact Hp|]; by intros p (?&_&_)).
  pose proof (Zsum_lookup subs ts i pc Hsub Hi). pose proof (Zsum_others adds ts budget i pc Hadd Hi).
  assert (Hadd' : Forall (λ p, 0 ≤ adds p)%Z ts) by (eapply Forall_impl; [exact Hadd|]; cbn; lia).
  pose proof (Zsum_lookup adds ts i pc Hadd' Hi). pose proof (sum_sizes_nonneg _ Hs).
  pose proof (proj1 (Forall_lookup _ _) Hp _ _ Hi) as Hpc. pose proof Hpc as (?&?&_).
  split; [done|]. lia.
Qed.

Lemma pc_step_ok c lock ts active i pc pc' c' lock' active' :
  threads_ok max budget n (mkShared c lock ts active) → ts !! i = Some pc →
  pc_step i pc c lock active = Some (pc', c', lock', active') →
  threads_ok max budget n (mkShared c' lock' (<[i := pc']> ts) active').
Proof.
  intros Hok Hi Hst. pose proof (threads_ok_range _ _ _ _ _ _ Hok Hi) as (Hpc&Hsub&Hidle&Hcur&Hadd&Hca).
  pose proof (threads_ok_update c lock ts active i pc) as Hup.
  pose proof Hok as [Hb Hn Ha Hs Hp Hsum Hbd]. cbn in Hb, Hn, Ha, Hs, Hp, Hsum, Hbd.
  assert (Hu : ∀ b, (0 ≤ b ≤ max)%Z → u64_add (current_bytes c) b = (current_bytes c + b)%Z).
  { intros b Hbr. apply u64_add_small. unfold is_u64. lia. }
  destruct (accounted_sort c Hs) as [Hss Hse].
  destruct pc as [|b retry|b|b|b|b s|b| | |s|k s t]; cbn in Hst, Hpc, Hsub, Hadd, Hca;
    destruct Hpc as (Hpa&Hps&Hpx); cbn in Hpa, Hps, Hpx; [done| | | | | | |done| | |].
  - rewrite (Hu b Hpx) in Hst. destruct (Z.leb_spec (current_bytes c + b) (budget_bytes c)).
    + simplify_eq. update Hup.
    + destruct retry; simplify_eq; update Hup.
  - simplify_eq. cbn. rewrite u64_add_small by (unfold is_u64; unfold U64_MAX in *; lia).
    update Hup.
  - destruct lock; [done|]. assert (Hcase : pc' = PLoad b true ∧ c' = c ∨
      pc' = PLoop b ∧ c' = set_idle (sort_by_key (idle c)) c).
    { destruct (idle c); simplify_eq; auto. }
    assert (active' = active) as -> by (destruct (idle c); by simplify_eq).
    destruct Hcase as [[-> ->]|[-> ->]]; update Hup.
  - destruct (idle c) as [|d l] eqn:Hid; simplify_eq.
    { cbn in Hsum. update Hup; rewrite ?Hid; cbn; try done; lia. }
    apply Forall_cons in Hs as [Hd Hl]. cbn in Hsum, Hidle. pose proof (sum_sizes_nonneg _ Hl).
    destruct (_ <? _)%Z; simplify_eq; (eapply Hup; [done|done|done|done| | | |]); cbn; rewrite ?Hid;
      cbn; repeat split; cbn; try lia; try done; by constructor.
  - simplify_eq. cbn. rewrite u64_sub_small by (unfold is_u64; unfold U64_MAX in *; lia).
    update Hup.
  - simplify_eq. cbn. rewrite u64_sub_small by (unfold is_u64; unfold U64_MAX in *; lia).
    destruct (Z.ltb_spec (current_bytes c) b); [lia|].
    update Hup.
  - destruct lock; [done|]. destruct (sort_by_key (idle c)) as [|d l]; simplify_eq.
    { update Hup. }
    apply Forall_cons in Hss as [Hd Hl]. cbn in Hse. pose proof (sum_sizes_nonneg _ Hl).
    update Hup.
  - simplify_eq. cbn. rewrite u64_sub_small by (unfold is_u64; unfold U64_MAX in *; lia).
    update Hup.
  - destruct lock; simplify_eq. pose proof (upsert_idle_sum (mkIdleDoc k s t) (idle c)) as Hup'. cbn in Hup'.
    pose proof (registered_size_nonneg k _ Hs).
    update Hup. by apply upsert_idle_sizes.
Qed.

Lemma threads_step_ok sh sh' :
  threads_ok max budget n sh → threads_step max sh sh' → threads_ok max budget n sh'.
Proof.
  intros Hok Hst. destruct Hst as [i cmd c lock ts active Hi Hd|i pc pc' c c' lock lock' ts active active' Hi Hst].
  - pose proof (threads_ok_range _ _ _ _ _ _ Hok Hi) as (_&_&_&Hcur&_&_). cbn in Hcur.
    pose proof Hok as [Hb Hn Ha Hs Hp Hsum Hbd]. cbn in Hb, Ha, Hs, Hsum, Hbd.
    eapply threads_ok_update; [done..| | | | |]; destruct cmd; cbn in *; try done; try lia; repeat split; cbn; lia.
  - by eapply pc_step_ok.
Qed.

Lemma threads_new_ok : threads_ok max budget n (threads_new budget n).
Proof.
  assert (∀ f : Pc → Z, f PIdle = 0%Z → Zsum f (replicate n PIdle) = 0%Z) as Hz.
  { intros f Hf. clear -Hf. induction n; cbn; lia. }
  split; cbn; try done; [by rewrite length_replicate| | |].
  - apply Forall_replicate. repeat split; cbn; lia.
  - by rewrite Hz.
  - rewrite Hz by done. lia.
Qed.

Lemma threads_reachable_ok sh :
  rtc (threads_step max) (threads_new budget n) sh → threads_ok max budget n sh.
Proof.
  intros Hr. pose proof threads_new_ok as Hok. induction Hr as [|x y z Hst Hr IH]; [done|].
  by apply IH, (threads_step_ok x).
Qed.
End steps.

(** ** A call that is not interrupted *)

Fixpoint solo (k i : nat) (pc : Pc) (c : MemoryCeiling) (lock : option nat) (active : Z) :
    option (MemoryCeiling * option nat * Z) :=
  match pc, k with
  | PIdle, _ => Some (c, lock, active)
  | _, O => None
  | _, S k =>
      match pc_step i pc c lock active with
      | Some (pc, c, lock, active) => solo k i pc c lock active
      | None => None
      end
  end.

Lemma solo_step k i pc c lock active pc' c' lock' active' r :
  pc_step i pc c lock active = Some (pc', c', lock', active') →
  solo k i pc' c' lock' active' = Some r → solo (S k) i pc c lock active = Some r.
Proof. intros Hs Hr. destruct pc; try done; cbn [solo]; by rewrite Hs. Qed.

Lemma solo_load i b retry c active :
  (try_alloc_inner b c).1 = true ∨ retry = true →
  solo 2 i (PLoad b retry) c None active =
    Some ((try_alloc_inner b c).2, None, if (try_alloc_inner b c).1 then active + b else active)%Z.
Proof.
  unfold try_alloc_inner. cbn. destruct (_ <=? _)%Z; [done|]. by intros [Hr|Hr]; subst.
Qed.

Lemma solo_loop i b active l freed c :
  let c' := (evict_loop b l freed c).2 in
  ∃ k, solo k i (PLoop b) (set_idle l c) (Some i) active = solo 2 i (PLoad b true) c' None active ∧
    is_Some (solo k i (PLoop b) (set_idle l c) (Some i) active).
Proof.
  assert (Hl : ∀ c, is_Some (solo 2 i (PLoad b true) c None active)).
  { intros c0. rewrite solo_load by auto. eauto. }
  revert freed c. induction l as [|d l IH]; intros freed c; cbn [evict_loop].
  - exists 3. assert (∀ x, solo 3 i (PLoop b) (set_idle [] c) (Some i) active = x →
      solo 2 i (PLoad b true) (set_idle [] c) None active = x) as Hx by done.
    rewrite <-(Hx _ eq_refl). split; [done|]. apply Hl.
  - destruct (budget_bytes c <? u64_add (current_bytes c) b)%Z eqn:Hlt; cbn [fetch_sub].
    + set (c1 := set_current (u64_sub (current_bytes c) (size_bytes d)) c).
      destruct (IH (u64_add freed (current_bytes c `min` size_bytes d)) c1) as (k & Hk & Hs).
      exists (S (S k)). rewrite <-Hk. cbn [solo pc_step idle set_idle current_bytes budget_bytes].
      rewrite Hlt. by split.
    + exists 3. cbn [solo pc_step idle set_idle current_bytes budget_bytes]. rewrite Hlt.
      split; [done|]. apply Hl.
Qed.

(** A call that no other thread interrupts is the call of the sequential
    model: it always ends, with the lock free again, the ceiling of [mem_step]
    and the accounting of [active_step]. *)
Lemma uninterrupted_call (i : nat) (cmd : MemCmd) (c : MemoryCeiling) (active : Z) :
  ∃ k, solo k i (call_pc cmd) c None (active - call_gives cmd) =
    Some (mem_step c cmd, None, active_step c active cmd).
Proof.
  destruct cmd as [b|b|key s t|]; cbn [call_pc call_gives mem_step active_step]; rewrite ?Z.sub_0_r.
  - unfold try_alloc. destruct (try_alloc_inner b c) as [ok c1] eqn:Hi.
    destruct ok; [exists 2; rewrite solo_load; rewrite Hi; auto|].
    unfold try_alloc_inner in Hi. destruct (u64_add (current_bytes c) b <=? budget_bytes c)%Z eqn:Hle;
      [done|]. injection Hi as <-.
    unfold evict_to_fit. destruct (idle c) as [|d l] eqn:Hid.
    + exists 4. cbn [solo pc_step]. rewrite Hle. cbn. rewrite Hid. cbn. unfold try_alloc_inner.
      by rewrite Hle.
    + destruct (solo_loop i b active (sort_by_key (idle c)) 0 c) as (k & Hk & _).
      rewrite solo_load in Hk by auto. rewrite Hid in Hk. exists (S (S k)). cbn [solo pc_step].
      rewrite Hle. cbn [pc_step]. rewrite Hid, Hk. destruct (evict_loop _ _ _ _) as [f c2]. cbn.
      by destruct (try_alloc_inner b c2) as [[] ?].
  - exists 2. unfold release. cbn. by destruct (_ <? _)%Z.
  - exists 1. cbn. by replace (active - s + _)%Z with (active + registered_size key (idle c) - s)%Z by lia.
  - unfold evict_idle. exists 2. cbn. by destruct (sort_by_key (idle c)).
Qed.

(** C26: however the calls of [n] threads interleave, if each gives up only what
    the clients hold and asks for at most [max], the counter never wraps and is
    never clamped, it is what the clients hold, plus the idle documents, plus
    what is about to be subtracted, and it stays within [n] budgets: the check
    and the increment of [try_alloc] are two accesses, and each other thread can
    be between them. *)
Theorem overcommit_bounded (max budget : Z) (n : nat) (sh : Shared)
  (Hbudget : (0 ≤ budget)%Z) (Hmax0 : (0 ≤ max)%Z) (Hmax : (Z.of_nat n * budget + max ≤ U64_MAX)%Z)
  (Hr : rtc (threads_step max) (threads_new budget n) sh) :
  current_bytes (sh_ceiling sh) =
    (sh_active sh + sum_sizes (idle (sh_ceiling sh)) + Zsum subs (sh_threads sh))%Z ∧
  (0 ≤ sh_active sh)%Z ∧ (0 ≤ current_bytes (sh_ceiling sh) ≤ Z.of_nat n * budget)%Z ∧
  ∀ i, sh_threads sh !! i ≠ Some PStore.
Proof.
  pose proof (threads_reachable_ok max budget n Hbudget Hmax0 Hmax sh Hr) as Hok.
  destruct sh as [c lock ts active]. pose proof Hok as [_ Hn Ha Hs Hp Hsum Hbd]. cbn in *.
  assert (0 ≤ Zsum subs ts ∧ 0 ≤ Zsum adds ts)%Z as [??].
  { clear -Hp. induction Hp as [|p ts (?&?&_) Hp IH]; cbn; lia. }
  pose proof (sum_sizes_nonneg _ Hs). repeat split; try lia.
  intros i Hi. by destruct (proj1 (Forall_lookup _ _) Hp _ _ Hi) as (_&_&?).
Qed.

(** Two threads on a ceiling of 10 bytes each get all of it. *)
Definition two_allocs : list (nat + nat * MemCmd) :=
  [inr (0, MemAlloc 10); inr (1, MemAlloc 10); inl 0; inl 1; inl 0; inl 1].

(** The schedule: a call of a thread, or its next step. *)
Fixpoint play (sh : Shared) (l : list (nat + nat * MemCmd)) : Shared :=
  match l with
  | [] => sh
  | inr (i, cmd) :: l =>
      play (mkShared (sh_ceiling sh) (sh_lock sh) (<[i := call_pc cmd]> (sh_threads sh))
              (sh_active sh - call_gives cmd)%Z) l
  | inl i :: l =>
      match sh_threads sh !! i ≫= λ pc, pc_step i pc (sh_ceiling sh) (sh_lock sh) (sh_active sh) with
      | Some (pc, c, lock, active) => play (mkShared c lock (<[i := pc]> (sh_threads sh)) active) l
      | None => play sh l
      end
  end.

Lemma overcommit_bounded_witness :
  let sh := play (threads_new 10 2) two_allocs in
  current_bytes (sh_ceiling sh) = 20%Z ∧ (0 ≤ current_bytes (sh_ceiling sh) ≤ Z.of_nat 2 * 10)%Z.
Proof.
  intros sh. assert (Hr : rtc (threads_step 10) (threads_new 10 2) sh).
  { eapply rtc_l; [apply (ts_call _ 0 (MemAlloc 10)); cbn; [reflexivity|lia]|].
    eapply rtc_l; [apply (ts_call _ 1 (MemAlloc 10)); cbn; [reflexivity|lia]|].
    do 2 (eapply rtc_l; [eapply (ts_step _ 0); [reflexivity|vm_compute; reflexivity]|];
      eapply rtc_l; [eapply (ts_step _ 1); [reflexivity|vm_compute; reflexivity]|]).
    eapply rtc_refl. }
  split; [by vm_compute|]. apply (overcommit_bounded 10 10 2 sh); [lia|lia|unfold U64_MAX; lia|exact Hr].
Defined.
