(* ===== verification/Mailbox.v ===== *)
(** * The tokio mailbox ([src/runtime/mod.rs])

    [TokioMailbox] hands out two handles on one pair of channel halves kept
    behind a mutex.  [send] clones the sender out of the mutex and awaits on the
    clone; [recv] takes the receiver out, and a drop guard puts it back when the
    future completes or is cancelled.  Futures in flight are part of the state,
    each step is one critical section or one poll of a future, and steps of
    different futures interleave freely. *)

From S2P Require Import Prelude.

(** ** The channel of tokio

    What a bounded [tokio::sync::mpsc] channel is seen to hold: the messages
    waiting, its capacity, the number of senders and whether the receiver lives. *)
Record MpscView (T : Type) : Type := mkView {
  vw_queue : list T; vw_capacity : nat; vw_senders : nat; vw_receiver : bool
}.
Arguments mkView {T}.
Arguments vw_queue {T}.
Arguments vw_capacity {T}.
Arguments vw_senders {T}.
Arguments vw_receiver {T}.

(** [send_poll] and [recv_poll] poll the futures of [send] and [recv]: [None]
    is pending, [Err] a send on a channel without a receiver.  [mpsc_channel]
    panics on a capacity of zero, and on one beyond its semaphore's. *)
Class TokioMpsc : Type := {
  MpscChan : Type → Type;
  mpsc_channel {T} : nat → option (MpscChan T);
  send_poll {T} : T → MpscChan T → option (result unit unit * MpscChan T);
  recv_poll {T} : MpscChan T → option (option T * MpscChan T);
  clone_sender {T} : MpscChan T → MpscChan T;
  drop_sender {T} : MpscChan T → MpscChan T;
  drop_receiver {T} : MpscChan T → MpscChan T
}.

Class TokioMpscLaws `{TokioMpsc} : Type := {
  mpsc_view {T} : MpscChan T → MpscView T;
  channel_law {T} n : match mpsc_channel (T:=T) n with
    | Some c => 0 < n ∧ mpsc_view c = mkView [] n 1 true
    | None => n = 0 ∨ (2 ^ 61 <= Z.of_nat n)%Z
    end;
  clone_sender_law {T} (c : MpscChan T) : let v := mpsc_view c in
    mpsc_view (clone_sender c) = mkView (vw_queue v) (vw_capacity v) (S (vw_senders v)) (vw_receiver v);
  drop_sender_law {T} (c : MpscChan T) : let v := mpsc_view c in
    mpsc_view (drop_sender c) = mkView (vw_queue v) (vw_capacity v) (pred (vw_senders v)) (vw_receiver v);
  drop_receiver_law {T} (c : MpscChan T) : let v := mpsc_view (drop_receiver c) in
    vw_receiver v = false ∧ vw_senders v = vw_senders (mpsc_view c) ∧
    vw_capacity v = vw_capacity (mpsc_view c) ∧ length (vw_queue v) ≤ length (vw_queue (mpsc_view c));
  send_poll_law {T} (m : T) c : let v := mpsc_view c in
    match send_poll m c with
    | None => vw_receiver v = true
    | Some (Ok _, c') => vw_receiver v = true ∧ length (vw_queue v) < vw_capacity v ∧
        mpsc_view c' = mkView (vw_queue v ++ [m]) (vw_capacity v) (vw_senders v) true
    | Some (Err _, c') => vw_receiver v = false ∧ mpsc_view c' = v
    end;
  recv_poll_law {T} (c : MpscChan T) : let v := mpsc_view c in
    match recv_poll c with
    | None => vw_queue v = [] ∧ 0 < vw_senders v
    | Some (Some m, c') => ∃ q, vw_queue v = m :: q ∧
        mpsc_view c' = mkView q (vw_capacity v) (vw_senders v) (vw_receiver v)
    | Some (None, c') => vw_queue v = [] ∧ vw_senders v = 0 ∧ mpsc_view c' = v
    end
}.

(** ** State *)

Inductive MailboxClosed : Type := mailbox_closed.

Inductive MailboxRole : Type := RoleTx | RoleRx.

#[export] Instance MailboxRole_eq_dec : EqDecision MailboxRole.
Proof. solve_decision. Defined.

Section mailbox.
  Context `{TokioMpsc} {T : Type}.

(** [inner_tx] and [inner_rx]: whether the mutex holds its half.  [tx_side] and
    [rx_side]: whether the handle lives.  [sends]: the futures awaiting on a
    cloned sender, with the handle they borrow.  [recvs]: the futures of [recv]
    and whether their guard got hold of the receiver. *)
Record Mailbox : Type := mkMailbox {
  mx_chan : MpscChan T;
  inner_tx : bool;
  inner_rx : bool;
  tx_side : bool;
  rx_side : bool;
  sends : list (MailboxRole * T);
  recvs : list (MailboxRole * bool)
}.

Definition TokioMailbox_new (capacity : nat) : option Mailbox :=
  c ← mpsc_channel capacity; Some (mkMailbox c true true true true [] []).

Inductive Action : Type :=
| ASend (h : MailboxRole) (msg : T)
| ASendPoll (i : nat)
| ASendCancel (i : nat)
| ARecv (h : MailboxRole)
| ARecvPoll (i : nat)
| ARecvCancel (i : nat)
| ADrop (h : MailboxRole).

(** What a step returns to its caller, if it completes a call. *)
Inductive Outcome : Type :=
| OSent (msg : T)
| OSendErr (e : MailboxClosed)
| OReceived (r : option T)
| ONothing.

Definition side (h : MailboxRole) (b : Mailbox) : bool :=
  match h with RoleTx => tx_side b | RoleRx => rx_side b end.

(** ** [send] *)

(** The critical section: the sender is cloned, or the send fails. *)
Definition send_begin (h : MailboxRole) (msg : T) (b : Mailbox) : Outcome * Mailbox :=
  if inner_tx b
  then (ONothing, mkMailbox (clone_sender (mx_chan b)) (inner_tx b) (inner_rx b) (tx_side b) (rx_side b)
                    (sends b ++ [(h, msg)]) (recvs b))
  else (OSendErr mailbox_closed, b).

(** The future completes or is cancelled: its sender clone is dropped. *)
Definition send_end (i : nat) (c : MpscChan T) (b : Mailbox) : Mailbox :=
  mkMailbox (drop_sender c) (inner_tx b) (inner_rx b) (tx_side b) (rx_side b) (delete i (sends b)) (recvs b).

Definition send_step (i : nat) (b : Mailbox) : option (Outcome * Mailbox) :=
  '(h, msg) ← sends b !! i;
  '(r, c) ← send_poll msg (mx_chan b);
  Some (match r with Ok _ => OSent msg | Err _ => OSendErr mailbox_closed end, send_end i c b).

(** ** [recv] *)

(** The critical section: the receiver moves into the guard, if it is there. *)
Definition recv_begin (h : MailboxRole) (b : Mailbox) : Mailbox :=
  mkMailbox (mx_chan b) (inner_tx b) false (tx_side b) (rx_side b) (sends b) (recvs b ++ [(h, inner_rx b)]).

(** [ReceiverGuard::drop]: a receiver the guard holds goes back. *)
Definition guard_drop (i : nat) (holds : bool) (c : MpscChan T) (b : Mailbox) : Mailbox :=
  mkMailbox c (inner_tx b) (if holds then true else inner_rx b) (tx_side b) (rx_side b) (sends b)
    (delete i (recvs b)).

(** [ReceiverGuard::recv], and the guard's drop once it completes. *)
Definition recv_step (i : nat) (b : Mailbox) : option (Outcome * Mailbox) :=
  '(h, holds) ← recvs b !! i;
  if holds : bool then
    '(r, c) ← recv_poll (mx_chan b); Some (OReceived r, guard_drop i true c b)
  else Some (OReceived None, guard_drop i false (mx_chan b) b).

(** ** Dropping a handle *)

(** The role's half is taken out; with the last handle the inner state goes, and
    whatever half is still in it. *)
Definition drop_half (h : MailboxRole) (b : Mailbox) : Mailbox :=
  match h with
  | RoleTx => mkMailbox (if inner_tx b then drop_sender (mx_chan b) else mx_chan b) false (inner_rx b)
                (tx_side b) (rx_side b) (sends b) (recvs b)
  | RoleRx => mkMailbox (if inner_rx b then drop_receiver (mx_chan b) else mx_chan b) (inner_tx b) false
                (tx_side b) (rx_side b) (sends b) (recvs b)
  end.

Definition drop_handle (h : MailboxRole) (b : Mailbox) : Mailbox :=
  let b1 := drop_half h b in
  let b2 := mkMailbox (mx_chan b1) (inner_tx b1) (inner_rx b1)
              (match h with RoleTx => false | RoleRx => tx_side b1 end)
              (match h with RoleRx => false | RoleTx => rx_side b1 end) (sends b1) (recvs b1) in
  if tx_side b2 || rx_side b2 then b2 else drop_half RoleTx (drop_half RoleRx b2).

(** A future borrows its handle, which cannot be dropped before it. *)
Definition borrowed (h : MailboxRole) (b : Mailbox) : bool :=
  bool_decide (Exists (λ p, p.1 = h) (sends b)) || bool_decide (Exists (λ p, p.1 = h) (recvs b)).

(** One step; [None] when it cannot be taken. *)
Definition mailbox_step (a : Action) (b : Mailbox) : option (Outcome * Mailbox) :=
  match a with
  | ASend h msg => if side h b then Some (send_begin h msg b) else None
  | ASendPoll i => send_step i b
  | ASendCancel i => _ ← sends b !! i; Some (ONothing, send_end i (mx_chan b) b)
  | ARecv h => if side h b then Some (ONothing, recv_begin h b) else None
  | ARecvPoll i => recv_step i b
  | ARecvCancel i => '(_, holds) ← recvs b !! i; Some (ONothing, guard_drop i holds (mx_chan b) b)
  | ADrop h => if side h b && negb (borrowed h b) then Some (ONothing, drop_handle h b) else None
  end.

(** A run of actions that satisfy [P], with the messages accepted and received. *)
Inductive mailbox_run (P : Action → Prop) : Mailbox → list T → list T → Prop :=
| run_new n b : TokioMailbox_new n = Some b → mailbox_run P b [] []
| run_step a o b b' acc rcv :
    mailbox_run P b acc rcv → P a → mailbox_step a b = Some (o, b') →
    mailbox_run P b' (match o with OSent m => acc ++ [m] | _ => acc end)
      (match o with OReceived (Some m) => rcv ++ [m] | _ => rcv end).

(** ** The invariant *)

Context `{!TokioMpscLaws}.

Definition one (b : bool) : nat := if b then 1 else 0.

(** The guards that hold the receiver. *)
Definition guards (l : list (MailboxRole * bool)) : nat := sum_list_with (λ p, one p.2) l.

Lemma guards_app l1 l2 : guards (l1 ++ l2) = guards l1 + guards l2.
Proof. apply sum_list_with_app. Qed.

Lemma guards_delete l i h holds :
  l !! i = Some (h, holds) → guards l = one holds + guards (delete i l).
Proof.
  intros Hi. rewrite <-(take_drop_middle l i _ Hi) at 1. rewrite delete_take_drop, !guards_app. cbn.
  fold (guards (drop (S i) l)). lia.
Qed.

Lemma Forall_delete {A} (P : A → Prop) (l : list A) i : Forall P l → Forall P (delete i l).
Proof. rewrite delete_take_drop. intros. by apply Forall_app; split; [apply Forall_take|apply Forall_drop]. Qed.

Lemma length_delete_lookup {A} (l : list A) i x : l !! i = Some x → length l = S (length (delete i l)).
Proof. intros Hi. rewrite length_delete by done. apply lookup_lt_Some in Hi. lia. Qed.

(** There is one receiver, in the mutex or in one guard, for as long as it
    lives; every sender is the mutex's or that of a send in flight; futures
    borrow live handles; the messages received are the first ones accepted, and
    while the receiver lives the others are waiting. *)
Record chan_wf (b : Mailbox) (acc rcv : list T) : Prop := {
  mw_receiver : one (inner_rx b) + guards (recvs b) = one (vw_receiver (mpsc_view (mx_chan b)));
  mw_senders : vw_senders (mpsc_view (mx_chan b)) = one (inner_tx b) + length (sends b);
  mw_fifo : vw_receiver (mpsc_view (mx_chan b)) = true → acc = rcv ++ vw_queue (mpsc_view (mx_chan b));
  mw_prefix : rcv `prefix_of` acc;
  mw_bound : length (vw_queue (mpsc_view (mx_chan b))) ≤ vw_capacity (mpsc_view (mx_chan b))
}.

Record mailbox_wf (b : Mailbox) (acc rcv : list T) : Prop := {
  mw_chan : chan_wf b acc rcv;
  mw_sends : Forall (λ p, side p.1 b = true) (sends b);
  mw_recvs : Forall (λ p, side p.1 b = true) (recvs b);
  mw_tx : inner_tx b = tx_side b;
  mw_rx : rx_side b = true → vw_receiver (mpsc_view (mx_chan b)) = true
}.

Lemma wf_new n b : TokioMailbox_new n = Some b → mailbox_wf b [] [].
Proof.
  unfold TokioMailbox_new. pose proof (channel_law (T:=T) n) as Hl.
  destruct (mpsc_channel n) as [c|]; cbn; [|done]. destruct Hl as [Hn Hv]. intros [= <-].
  split; [split|..]; cbn; rewrite ?Hv; try done; cbn; lia.
Qed.

Lemma wf_send_begin h msg b acc rcv :
  side h b = true → mailbox_wf b acc rcv → mailbox_wf (send_begin h msg b).2 acc rcv.
Proof.
  intros Hh Hw. unfold send_begin. destruct (inner_tx b) eqn:Htx; [|done].
  destruct Hw as [[Hr Hs Hf Hp Hb] Hss Hrs Ht Hx]. rewrite Htx in Hs, Ht.
  split; [split|..]; cbn; rewrite ?clone_sender_law; cbn; try done.
  - rewrite Hs, length_app. cbn. lia.
  - apply Forall_app. by split; [|constructor].
Qed.

Lemma wf_send_end i c p b acc rcv acc' :
  sends b !! i = Some p → mailbox_wf b acc rcv →
  let v := mpsc_view (mx_chan b) in
  (acc' = acc ∧ mpsc_view c = v ∨
   (∃ m, acc' = acc ++ [m] ∧ mpsc_view c = mkView (vw_queue v ++ [m]) (vw_capacity v) (vw_senders v) true ∧
         vw_receiver v = true ∧ length (vw_queue v) < vw_capacity v)) →
  mailbox_wf (send_end i c b) acc' rcv.
Proof.
  intros Hi [[Hr Hs Hf Hp Hb] Hss Hrs Ht Hx] v Hc. pose proof (length_delete_lookup _ _ _ Hi) as Hlen.
  destruct Hc as [[-> Hv]|(m&->&Hv&Hrc&Hlt)]; (split; [split|..]); cbn -[one guards]; rewrite ?drop_sender_law; cbn -[one guards]; rewrite ?Hv; cbn -[one guards];
    fold v; subst v; try done; try (by apply Forall_delete); try lia.
  - by rewrite Hr, Hrc.
  - intros _. by rewrite (Hf Hrc), (assoc_L (++)).
  - by apply prefix_app_r.
  - rewrite length_app. cbn. lia.
Qed.

Lemma wf_recv_begin h b acc rcv :
  side h b = true → mailbox_wf b acc rcv → mailbox_wf (recv_begin h b) acc rcv.
Proof.
  intros Hh [[Hr Hs Hf Hp Hb] Hss Hrs Ht Hx]. split; [split|..]; cbn -[guards]; try done.
  - rewrite guards_app. cbn. lia.
  - apply Forall_app. by split; [|constructor].
Qed.

Lemma wf_guard_drop i h holds c b acc rcv rcv' :
  recvs b !! i = Some (h, holds) → mailbox_wf b acc rcv →
  let v := mpsc_view (mx_chan b) in
  (rcv' = rcv ∧ mpsc_view c = v ∨
   holds = true ∧ ∃ m q, rcv' = rcv ++ [m] ∧ vw_queue v = m :: q ∧
     mpsc_view c = mkView q (vw_capacity v) (vw_senders v) (vw_receiver v)) →
  mailbox_wf (guard_drop i holds c b) acc rcv'.
Proof.
  intros Hi [[Hr Hs Hf Hp Hb] Hss Hrs Ht Hx] v Hc. pose proof (guards_delete _ _ _ _ Hi) as Hg.
  assert (Hle : one (vw_receiver (mpsc_view (mx_chan b))) ≤ 1) by (destruct (vw_receiver _); cbn; lia).
  assert (Hone : one (if holds then true else inner_rx b) = one holds + one (inner_rx b)).
  { destruct holds, (inner_rx b); cbn in *; lia. }
  destruct Hc as [[-> Hv]|(->&m&q&->&Hq&Hv)]; (split; [split|..]); cbn -[one guards]; rewrite ?Hv; cbn -[one guards];
    fold v; subst v; try done; try (by apply Forall_delete); try lia.
  - intros Hrc. by rewrite (Hf Hrc), Hq, <-(assoc_L (++)).
  - assert (Hrc : vw_receiver (mpsc_view (mx_chan b)) = true).
    { destruct (vw_receiver _); [done|]. cbn in *. lia. }
    rewrite (Hf Hrc), Hq. by exists q; rewrite <-(assoc_L (++)).
  - rewrite Hq in Hb. cbn in Hb. lia.
Qed.

Lemma chan_wf_drop_half h b acc rcv : chan_wf b acc rcv → chan_wf (drop_half h b) acc rcv.
Proof.
  intros [Hr Hs Hf Hp Hb]. destruct h; cbn -[one guards].
  - destruct (inner_tx b); split; cbn -[one guards]; rewrite ?drop_sender_law; cbn -[one guards]; try done.
    rewrite Hs. cbn. lia.
  - destruct (inner_rx b); [|by split].
    destruct (drop_receiver_law (mx_chan b)) as (Hr'&Hs'&Hc'&Hq').
    split; cbn -[one guards]; rewrite ?Hr', ?Hs', ?Hc'; try done; [|lia].
    destruct (vw_receiver (mpsc_view (mx_chan b))); cbn -[guards] in *; lia.
Qed.

Lemma not_borrowed {A} h b (l : list (MailboxRole * A)) :
  ¬ Exists (λ p, p.1 = h) l → Forall (λ p, side p.1 b = true) l →
  Forall (λ p, p.1 ≠ h ∧ side p.1 b = true) l.
Proof.
  rewrite <-Forall_Exists_neg, !Forall_forall. intros Hn Hs x Hx. split; [by apply Hn|by apply Hs].
Qed.

Lemma wf_drop_handle h b acc rcv :
  side h b = true → borrowed h b = false → mailbox_wf b acc rcv → mailbox_wf (drop_handle h b) acc rcv.
Proof.
  intros Hh [Hbs Hbr]%orb_false_iff [Hc Hss Hrs Ht Hx].
  apply bool_decide_eq_false in Hbs, Hbr.
  pose proof (not_borrowed h b _ Hbs Hss) as Hs. pose proof (not_borrowed h b _ Hbr Hrs) as Hr.
  pose proof (chan_wf_drop_half h b acc rcv Hc) as Hc1.
  assert (Hnil : ∀ A (l : list (MailboxRole * A)), Forall (λ p, p.1 ≠ h ∧ side p.1 b = true) l →
    side (match h with RoleTx => RoleRx | RoleRx => RoleTx end) b = false → l = []).
  { intros A [|[r x] l] Hl Ho; [done|]. apply Forall_cons in Hl as [[Hn Hd] _].
    destruct r, h; cbn in *; congruence. }
  unfold drop_handle. destruct h; cbn -[drop_half] in *.
  - change (rx_side (drop_half RoleTx b)) with (rx_side b).
    destruct (rx_side b) eqn:Hrx; cbn -[drop_half].
    + split; [by destruct Hc1; split|..]; cbn; try done.
      * eapply Forall_impl; [exact Hs|]. by intros [[] x] [? ?].
      * eapply Forall_impl; [exact Hr|]. by intros [[] x] [? ?].
      * intros _. rewrite <-(Hx eq_refl). destruct (inner_tx b); [|done]. by rewrite drop_sender_law.
    + split; [do 2 apply chan_wf_drop_half; by destruct Hc1; split|..]; cbn.
      * by rewrite (Hnil _ _ Hs eq_refl).
      * by rewrite (Hnil _ _ Hr eq_refl).
      * done.
      * by rewrite ?Hrx.
  - change (tx_side (drop_half RoleRx b)) with (tx_side b). rewrite orb_false_r.
    destruct (tx_side b) eqn:Htx; cbn -[drop_half].
    + split; [by destruct Hc1; split|..]; cbn; try done.
      * eapply Forall_impl; [exact Hs|]. by intros [[] x] [? ?].
      * eapply Forall_impl; [exact Hr|]. by intros [[] x] [? ?].
    + split; [do 2 apply chan_wf_drop_half; by destruct Hc1; split|..]; cbn; rewrite ?Htx; try done.
      * by rewrite (Hnil _ _ Hs eq_refl).
      * by rewrite (Hnil _ _ Hr eq_refl).
Qed.

Lemma mailbox_step_wf a b o b' acc rcv :
  mailbox_step a b = Some (o, b') → mailbox_wf b acc rcv →
  mailbox_wf b' (match o with OSent m => acc ++ [m] | _ => acc end)
    (match o with OReceived (Some m) => rcv ++ [m] | _ => rcv end).
Proof.
  intros Hst Hw. destruct a as [h msg|i|i|h|i|i|h]; cbn in Hst.
  - destruct (side h b) eqn:Hh; simplify_eq. pose proof (wf_send_begin h msg b acc rcv Hh Hw) as Hb.
    unfold send_begin in *. by destruct (inner_tx b); simplify_eq.
  - unfold send_step in Hst. destruct (sends b !! i) as [[h m]|] eqn:Hi; [|done]. cbn in Hst.
    pose proof (send_poll_law m (mx_chan b)) as Hl. cbn zeta in Hl.
    destruct (send_poll m (mx_chan b)) as [[[u|u] c]|]; [| |done]; cbn in Hst; simplify_eq.
    + destruct Hl as (?&?&?). eapply wf_send_end; [done..|]. right. by exists m.
    + destruct Hl as (?&?). eapply wf_send_end; [done..|]. by left.
  - destruct (sends b !! i) as [p|] eqn:Hi; simplify_eq. cbn in Hst. simplify_eq.
    eapply wf_send_end; [done..|]. by left.
  - destruct (side h b) eqn:Hh; simplify_eq. by apply wf_recv_begin.
  - unfold recv_step in Hst. destruct (recvs b !! i) as [[h holds]|] eqn:Hi; [|done]. cbn in Hst.
    destruct holds; simplify_eq; [|eapply wf_guard_drop; [done..|by left]].
    pose proof (recv_poll_law (mx_chan b)) as Hl. cbn zeta in Hl.
    destruct (recv_poll (mx_chan b)) as [[[m|] c]|]; [| |done]; cbn in Hst; simplify_eq.
    + destruct Hl as (q&Hq&Hv). eapply wf_guard_drop; [done..|]. right. split; [done|]. by exists m, q.
    + destruct Hl as (?&?&?). eapply wf_guard_drop; [done..|]. by left.
  - destruct (recvs b !! i) as [[h holds]|] eqn:Hi; [|done]. cbn in Hst. simplify_eq.
    eapply wf_guard_drop; [done..|]. by left.
  - destruct (side h b) eqn:Hh; [|done]. destruct (borrowed h b) eqn:Hb; cbn in Hst; simplify_eq.
    by apply wf_drop_handle.
Qed.

Lemma mailbox_run_wf P b acc rcv : mailbox_run P b acc rcv → mailbox_wf b acc rcv.
Proof. induction 1; [by eapply wf_new|by eapply mailbox_step_wf]. Qed.

(** ** What the mailbox promises *)

(** C25: the mailbox is a bounded FIFO whose receiver is never lost.  However
    sends, receives, cancellations and drops of either handle interleave, the
    messages received are the first ones accepted, in order and once each; while
    the receiver lives nothing accepted is missing from what was received and
    what waits, and at most the capacity waits; and the receiver is held in
    exactly one place, by the mutex or by one [recv] in flight, so cancelling a
    [recv] gives it back. *)
Theorem mailbox_fifo (b : Mailbox) (acc rcv : list T)
  (Hrun : mailbox_run (λ _, True) b acc rcv) :
  let v := mpsc_view (mx_chan b) in
  rcv `prefix_of` acc ∧ length (vw_queue v) ≤ vw_capacity v ∧
  vw_senders v = one (inner_tx b) + length (sends b) ∧
  if vw_receiver v
  then acc = rcv ++ vw_queue v ∧ one (inner_rx b) + guards (recvs b) = 1 ∧
       ∀ i h b', mailbox_step (ARecvCancel i) b = Some (ONothing, b') →
         recvs b !! i = Some (h, true) → inner_rx b' = true ∧ mx_chan b' = mx_chan b
  else one (inner_rx b) + guards (recvs b) = 0.
Proof.
  destruct (mailbox_run_wf _ _ _ _ Hrun) as [[Hr Hs Hf Hp Hb] _ _ _ _].
  cbn zeta. do 3 (split; [done|]). destruct (vw_receiver _); [|done].
  split; [by apply Hf|]. split; [done|]. intros i h b' Hst Hi. cbn in Hst. rewrite Hi in Hst.
  by cbn in Hst; simplify_eq.
Qed.

(** The intended use: send through the first handle, receive through the second. *)
Definition proper (a : Action) : Prop :=
  match a with ASend h _ => h = RoleTx | ARecv h => h = RoleRx | _ => True end.

Record proper_wf (b : Mailbox) : Prop := {
  pw_sends : Forall (λ p, p.1 = RoleTx) (sends b);
  pw_recvs : Forall (λ p, p.1 = RoleRx) (recvs b);
  pw_rx : rx_side b = false → inner_rx b = false
}.

Lemma proper_step_wf a b o b' acc rcv :
  mailbox_step a b = Some (o, b') → proper a → mailbox_wf b acc rcv → proper_wf b → proper_wf b'.
Proof.
  intros Hst Ha [_ _ Hrs _ _] [Hs Hr Hx].
  assert (Hrx : ∀ i h x, recvs b !! i = Some (h, x) → rx_side b = true).
  { intros i h x Hi. rewrite Forall_lookup in Hr, Hrs.
    specialize (Hr _ _ Hi). specialize (Hrs _ _ Hi). cbn in *. by subst h. }
  destruct a as [h msg|i|i|h|i|i|h]; cbn in Hst, Ha; subst.
  - destruct (side RoleTx b); simplify_eq. unfold send_begin in Hst. destruct (inner_tx b); simplify_eq; [|done].
    split; cbn; try done. apply Forall_app. by split; [|constructor].
  - unfold send_step in Hst. destruct (sends b !! i) as [[h m]|]; [|done]. cbn in Hst.
    destruct (send_poll m _) as [[r c]|]; [|done]. cbn in Hst. simplify_eq.
    split; cbn; try done. by apply Forall_delete.
  - destruct (sends b !! i); [|done]. cbn in Hst. simplify_eq. split; cbn; try done. by apply Forall_delete.
  - destruct (side RoleRx b); simplify_eq. split; cbn; try done. apply Forall_app. by split; [|constructor].
  - unfold recv_step in Hst. destruct (recvs b !! i) as [[h holds]|] eqn:Hi; [|done]. cbn in Hst.
    specialize (Hrx _ _ _ Hi).
    destruct holds; simplify_eq; [destruct (recv_poll _) as [[r c]|]; [|done]; cbn in Hst; simplify_eq|].
    all: split; cbn; rewrite ?Hrx; try done; by apply Forall_delete.
  - destruct (recvs b !! i) as [[h holds]|] eqn:Hi; [|done]. cbn in Hst. specialize (Hrx _ _ _ Hi).
    simplify_eq. split; cbn; rewrite ?Hrx; try done. by apply Forall_delete.
  - destruct (side h b); [|done]. destruct (borrowed h b); cbn in Hst; simplify_eq.
    unfold drop_handle. destruct h; cbn -[drop_half].
    + change (rx_side (drop_half RoleTx b)) with (rx_side b).
      destruct (rx_side b) eqn:Hd; split; cbn; rewrite ?Hd; done.
    + change (tx_side (drop_half RoleRx b)) with (tx_side b). rewrite orb_false_r.
      destruct (tx_side b); split; cbn; done.
Qed.

Lemma proper_run_wf b acc rcv : mailbox_run proper b acc rcv → proper_wf b.
Proof.
  induction 1 as [n b Hn|a o b b' acc rcv Hrun IH Ha Hst].
  { unfold TokioMailbox_new in Hn. destruct (mpsc_channel n); cbn in Hn; simplify_eq. by split. }
  eapply proper_step_wf; [exact Hst|exact Ha|by eapply mailbox_run_wf|exact IH].
Qed.

(** C31: used as intended, the mailbox closes like the channel under it.  Once
    the receiving handle is dropped every send in flight completes with
    [MailboxClosed]; once the sending handle is dropped the receiver that holds
    the channel gets what still waits and then [None], without waiting; while
    both live no send fails, and [None] is only returned to a [recv] that found
    another one in flight. *)
Theorem mailbox_close (b : Mailbox) (acc rcv : list T) (Hrun : mailbox_run proper b acc rcv) :
  (rx_side b = false → ∀ i p, sends b !! i = Some p →
     ∃ b', mailbox_step (ASendPoll i) b = Some (OSendErr mailbox_closed, b')) ∧
  (tx_side b = false → ∀ i h, recvs b !! i = Some (h, true) →
     ∃ b', mailbox_step (ARecvPoll i) b =
           Some (OReceived (head (vw_queue (mpsc_view (mx_chan b)))), b')) ∧
  (tx_side b = true → rx_side b = true → ∀ a o b', mailbox_step a b = Some (o, b') →
     o ≠ OSendErr mailbox_closed ∧
     (o = OReceived None → ∃ i h, a = ARecvPoll i ∧ recvs b !! i = Some (h, false))).
Proof.
  destruct (mailbox_run_wf _ _ _ _ Hrun) as [[Hr Hs Hf Hp Hb] Hss Hrs Ht Hx].
  destruct (proper_run_wf _ _ _ Hrun) as [Hps Hpr Hpx]. split; [|split].
  - intros Hd i [h m] Hi.
    assert (Hnil : recvs b = []).
    { destruct (recvs b) as [|[r x] l]; [done|]. apply Forall_cons in Hrs as [Hrd _].
      apply Forall_cons in Hpr as [Hrole _]. cbn in *. subst r. cbn in Hrd. congruence. }
    rewrite Hnil, (Hpx Hd) in Hr. cbn in *. unfold send_step. rewrite Hi. cbn.
    pose proof (send_poll_law m (mx_chan b)) as Hl. cbn zeta in Hl.
    destruct (send_poll m (mx_chan b)) as [[[u|u] c]|]; cbn.
    + destruct Hl as [Hl _]. by rewrite Hl in Hr.
    + by eexists.
    + by rewrite Hl in Hr.
  - intros Hd i h Hi.
    assert (Hnil : sends b = []).
    { destruct (sends b) as [|[r x] l]; [done|]. apply Forall_cons in Hss as [Hrd _].
      apply Forall_cons in Hps as [Hrole _]. cbn in *. subst r. cbn in Hrd. congruence. }
    rewrite Hnil, Ht, Hd in Hs. cbn in *. unfold recv_step. rewrite Hi. cbn.
    pose proof (recv_poll_law (mx_chan b)) as Hl. cbn zeta in Hl.
    destruct (recv_poll (mx_chan b)) as [[[m|] c]|]; cbn.
    + destruct Hl as (q&->&_). by eexists.
    + destruct Hl as (->&_). by eexists.
    + destruct Hl as [_ Hl]. lia.
  - intros Htx Hrx a o b' Hst. rewrite Htx in Ht. rewrite Ht in Hs. specialize (Hx Hrx).
    destruct a as [h msg|i|i|h|i|i|h]; cbn in Hst.
    + destruct (side h b); simplify_eq. unfold send_begin in Hst. rewrite Ht in Hst. by simplify_eq.
    + unfold send_step in Hst. destruct (sends b !! i) as [[h m]|]; [|done]. cbn in Hst.
      pose proof (send_poll_law m (mx_chan b)) as Hl. cbn zeta in Hl.
      destruct (send_poll m (mx_chan b)) as [[[u|u] c]|]; cbn in Hst; simplify_eq; [done|].
      destruct Hl as [Hl _]. congruence.
    + by destruct (sends b !! i); cbn in Hst; simplify_eq.
    + by destruct (side h b); simplify_eq.
    + unfold recv_step in Hst. destruct (recvs b !! i) as [[h holds]|] eqn:Hi; [|done]. cbn in Hst.
      destruct holds; simplify_eq; [|split; [done|intros _; by exists i, h]].
      pose proof (recv_poll_law (mx_chan b)) as Hl. cbn zeta in Hl.
      destruct (recv_poll (mx_chan b)) as [[[m|] c]|]; cbn in Hst; simplify_eq; [done|].
      destruct Hl as (_&Hl&_). cbn in Hs. lia.
    + by destruct (recvs b !! i) as [[h holds]|]; cbn in Hst; simplify_eq.
    + by destruct (side h b && _); simplify_eq.
Qed.

End mailbox.
Arguments Mailbox {_} T.
Arguments Action T : clear implicits.
Arguments Outcome T : clear implicits.

(** ** Concrete runs *)

#[export] Instance MemMpsc : TokioMpsc := {|
  MpscChan := MpscView;
  mpsc_channel T n := if bool_decide (n = 0) then None else Some (mkView [] n 1 true);
  send_poll T m v :=
    if vw_receiver v
    then if bool_decide (length (vw_queue v) < vw_capacity v)
         then Some (Ok tt, mkView (vw_queue v ++ [m]) (vw_capacity v) (vw_senders v) true) else None
    else Some (Err tt, v);
  recv_poll T v :=
    match vw_queue v, vw_senders v with
    | m :: q, _ => Some (Some m, mkView q (vw_capacity v) (vw_senders v) (vw_receiver v))
    | [], O => Some (None, v)
    | [], S _ => None
    end;
  clone_sender T v := mkView (vw_queue v) (vw_capacity v) (S (vw_senders v)) (vw_receiver v);
  drop_sender T v := mkView (vw_queue v) (vw_capacity v) (pred (vw_senders v)) (vw_receiver v);
  drop_receiver T v := mkView [] (vw_capacity v) (vw_senders v) false
|}.

#[export, refine] Instance MemMpsc_laws : TokioMpscLaws := {| mpsc_view T v := v |}.
Proof.
  - intros T n. cbn. case_bool_decide; [by left|]. split; [lia|done].
  - done.
  - done.
  - intros T c. cbn. do 3 (split; [done|]). lia.
  - intros T m v. cbn. destruct (vw_receiver v); [|done]. by case_bool_decide.
  - intros T v. cbn. destruct (vw_queue v) as [|m q] eqn:Hq; [|by exists q].
    destruct (vw_senders v) eqn:Hs; [done|]. split; [done|lia].
Defined.

(** What [TokioMailbox_new n] is, [n] being positive. *)
Definition opened (n : nat) : Mailbox nat := mkMailbox (mkView [] n 1 true) true true true true [] [].

(** Takes the actions that can be taken, collecting the outcomes. *)
Fixpoint play (as_ : list (Action nat)) (b : Mailbox nat) : list (Outcome nat) * Mailbox nat :=
  match as_ with
  | [] => ([], b)
  | a :: as_ =>
      match mailbox_step a b with
      | Some (o, b1) => let '(os, b2) := play as_ b1 in (o :: os, b2)
      | None => play as_ b
      end
  end.

Definition accepted (os : list (Outcome nat)) : list nat :=
  omap (λ o, match o with OSent m => Some m | _ => None end) os.
Definition received (os : list (Outcome nat)) : list nat :=
  omap (λ o, match o with OReceived r => r | _ => None end) os.

Lemma play_run P as_ b acc rcv :
  Forall P as_ → mailbox_run P b acc rcv →
  let '(os, b') := play as_ b in mailbox_run P b' (acc ++ accepted os) (rcv ++ received os).
Proof.
  intros Hp. revert b acc rcv. induction Hp as [|a as_ Ha _ IH]; intros b acc rcv Hrun; cbn.
  { by rewrite !app_nil_r. }
  destruct (mailbox_step a b) as [[o b1]|] eqn:Hst; [|by apply IH].
  specialize (IH b1 _ _ (run_step _ _ _ _ _ _ _ Hrun Ha Hst)).
  destruct (play as_ b1) as [os b2]. unfold accepted, received in *. cbn.
  destruct o as [m|e|[m|]|]; cbn; rewrite ?app_nil_r, <-?(assoc_L (++)) in IH; exact IH.
Qed.

(** A [recv] cancelled while it waits loses neither the receiver nor a message. *)
Lemma mailbox_fifo_witness :
  let '(os, b) := play [ARecv RoleRx; ARecvCancel 0; ASend RoleTx 8; ASend RoleTx 7; ASendPoll 1;
                        ASendPoll 0; ARecv RoleRx; ARecvPoll 0] (opened 2) in
  accepted os = [7; 8] ∧ received os = [7] ∧ inner_rx b = true ∧
  received os `prefix_of` accepted os ∧ vw_queue (mpsc_view (mx_chan b)) = [8].
Proof.
  pose proof (play_run (λ _, True) [ARecv RoleRx; ARecvCancel 0; ASend RoleTx 8; ASend RoleTx 7; ASendPoll 1;
    ASendPoll 0; ARecv RoleRx; ARecvPoll 0] _ _ _ ltac:(by repeat constructor) (run_new _ 2 (opened 2) eq_refl)) as Hrun.
  destruct (play _ _) as [os b] eqn:Hplay. vm_compute in Hplay. injection Hplay as <- <-.
  split; [reflexivity|]. split; [reflexivity|]. split; [reflexivity|]. split; [|reflexivity].
  apply (mailbox_fifo _ _ _ Hrun).
Defined.

Lemma mailbox_close_witness :
  let b := (play [ASend RoleTx 7; ADrop RoleRx] (opened 2)).2 in
  rx_side b = false ∧ ∃ b', mailbox_step (ASendPoll 0) b = Some (OSendErr mailbox_closed, b').
Proof.
  pose proof (play_run proper [ASend RoleTx 7; ADrop RoleRx] _ _ _ ltac:(by repeat constructor)
    (run_new _ 2 (opened 2) eq_refl)) as Hrun.
  destruct (play _ _) as [os b] eqn:Hplay. vm_compute in Hplay. injection Hplay as <- <-.
  split; [reflexivity|].
  destruct (mailbox_close _ _ _ Hrun) as [Hc _]. apply (Hc eq_refl 0 (RoleTx, 7) eq_refl).
Defined.

(** Both handles implement both halves of the trait.  A [recv] through the
    sending handle that is in flight while the receiving handle is dropped puts
    the receiver back afterwards: the channel stays open and a send succeeds. *)
Example recv_through_the_sender_reopens :
  (play [ARecv RoleTx; ADrop RoleRx; ARecvCancel 0; ASend RoleTx 5; ASendPoll 0]
     (opened 1)).1 = [ONothing; ONothing; ONothing; ONothing; OSent 5].
Proof. reflexivity. Qed.

(** A send that waits for room keeps the channel open after its handle would be
    closed: the half dropped is the mutex's, the clone in flight is its own. *)
Example waiting_send_keeps_the_channel_open :
  (play [ASend RoleRx 5; ADrop RoleTx; ARecv RoleRx; ARecvPoll 0; ASendPoll 0; ARecvPoll 0; ARecv RoleRx; ARecvPoll 0]
     (opened 1)).1 =
  [ONothing; ONothing; ONothing; OSent 5; OReceived (Some 5); ONothing; OReceived None].
Proof. reflexivity. Qed.
