(* ===== verification/Presence.v ===== *)
(** * Presence ([src/presence/])

    The [%EPH] envelope of [socket.rs] and the node presence registry of
    [mod.rs].  [serde_json] is an interface. *)

From S2P Require Import Prelude Types Compression.
From Stdlib Require Import SpecFloat.

(** ** UTF-8 ([std::str::from_utf8])

    The validator of the standard library, with the position and the length of
    the error its message reports. *)

Inductive Utf8Error : Type := mkUtf8Error (valid_up_to : nat) (error_len : option nat).

Definition between (lo hi : Z) (b : byte) : bool := ((lo <=? Z_of_byte b) && (Z_of_byte b <=? hi))%Z.
Definition is_continuation : byte → bool := between 128 191.

(** The second byte the first one allows, in sequences of three and four. *)
Definition second_of_3 (b0 b1 : byte) : bool :=
  (between 224 224 b0 && between 160 191 b1) || (between 225 236 b0 && between 128 191 b1)
  || (between 237 237 b0 && between 128 159 b1) || (between 238 239 b0 && between 128 191 b1).
Definition second_of_4 (b0 b1 : byte) : bool :=
  (between 240 240 b0 && between 144 191 b1) || (between 241 243 b0 && between 128 191 b1)
  || (between 244 244 b0 && between 128 143 b1).

Fixpoint run_utf8_validation (i : nat) (l : list byte) : option Utf8Error :=
  let err n := Some (mkUtf8Error i (Some n)) in
  let truncated := Some (mkUtf8Error i None) in
  match l with
  | [] => None
  | b0 :: r0 =>
      if between 0 127 b0 then run_utf8_validation (S i) r0
      else match r0 with
      | [] => if between 194 244 b0 then truncated else err 1
      | b1 :: r1 =>
          if between 194 223 b0 then
            if is_continuation b1 then run_utf8_validation (i + 2) r1 else err 1
          else if between 224 244 b0 then
            if negb (if between 224 239 b0 then second_of_3 b0 b1 else second_of_4 b0 b1) then err 1
            else match r1 with
            | [] => truncated
            | b2 :: r2 =>
                if negb (is_continuation b2) then err 2
                else if between 224 239 b0 then run_utf8_validation (i + 3) r2
                else match r2 with
                | [] => truncated
                | b3 :: r3 => if is_continuation b3 then run_utf8_validation (i + 4) r3 else err 3
                end
            end
          else err 1
      end
  end.

Definition from_utf8 (b : bytes) : result Utf8Error string :=
  match run_utf8_validation 0 b with
  | None => Ok (string_of_bytes b)
  | Some e => Err e
  end.

Definition Utf8Error_to_string (e : Utf8Error) : string :=
  match e with
  | mkUtf8Error i (Some n) =>
      "invalid utf-8 sequence of " +:+ pretty n +:+ " bytes from index " +:+ pretty i
  | mkUtf8Error i None => "incomplete utf-8 byte sequence from index " +:+ pretty i
  end.

(** The content of a [str]. *)
Definition is_str (s : string) : Prop := run_utf8_validation 0 (string_bytes s) = None.

(** ** The envelope ([socket.rs]) *)

(** Indexing; the guards keep every index in range. *)
#[local] Instance byte_inhabited : Inhabited byte := populate x00.

Class SerdeJson : Type := {
  json_to_vec : PresencePayload → result string bytes;
  json_from_slice : bytes → result string PresencePayload
}.

Definition EPH_MSG_TYPE_PRESENCE : byte := x01.
Definition U16_MAX : Z := 65535.

Record EphEnvelope : Type := mkEphEnvelope { room_id : string; payload : PresencePayload }.

Definition u16_from_le_bytes (b0 b1 : byte) : Z := from_le_bytes [b0; b1].

(** [{:?}] of a byte slice. *)
Definition bytes_debug (b : bytes) : string :=
  "[" +:+ String.concat ", " ((λ c, pretty (Z_of_byte c)) <$> b) +:+ "]".

Section envelope.
  Context `{SerdeJson}.

Definition parse_eph_envelope (b : bytes) : Result EphEnvelope :=
  let magic_len := length EPH_MAGIC in
  if decide (length b < magic_len) then
    Err (EInvalidEnvelope ("buffer too short: " +:+ pretty (length b) +:+ " bytes"))
  else if decide (take magic_len b ≠ EPH_MAGIC) then
    Err (EInvalidEnvelope ("bad magic: " +:+ bytes_debug (take magic_len b)))
  else if decide (length b < magic_len + 2) then
    Err (EInvalidEnvelope "truncated: missing room_id_len")
  else
    let room_id_len := Z.to_nat (u16_from_le_bytes (b !!! magic_len) (b !!! (magic_len + 1))) in
    let room_id_start := magic_len + 2 in
    let room_id_end := room_id_start + room_id_len in
    if decide (length b < room_id_end + 1) then
      Err (EInvalidEnvelope ("room_id segment truncated: need " +:+ pretty (room_id_end + 1)
             +:+ " bytes, have " +:+ pretty (length b)))
    else
      room_id ← map_err (λ e, EInvalidEnvelope ("bad room_id utf8: " +:+ Utf8Error_to_string e))
                  (from_utf8 (take (room_id_end - room_id_start) (drop room_id_start b)));
      let msg_type := b !!! room_id_end in
      if decide (msg_type ≠ EPH_MSG_TYPE_PRESENCE) then
        Err (EInvalidEnvelope ("unsupported msg_type: " +:+ hex_byte msg_type))
      else
        payload ← map_err (λ e, EInvalidEnvelope ("serde: " +:+ e))
                    (json_from_slice (drop (room_id_end + 1) b));
        Ok (mkEphEnvelope room_id payload).

Definition build_eph_envelope (room_id : string) (payload : PresencePayload) : Result bytes :=
  let room_id_bytes := string_bytes room_id in
  if (U16_MAX <? Z.of_nat (length room_id_bytes))%Z then
    Err (EInvalidEnvelope ("room_id too long: " +:+ pretty (length room_id_bytes)
           +:+ " bytes (max " +:+ pretty U16_MAX +:+ ")"))
  else
    json ← map_err (λ e, EInvalidEnvelope ("serde_json encode: " +:+ e)) (json_to_vec payload);
    Ok (EPH_MAGIC ++ to_le_bytes 2 (Z.of_nat (length room_id_bytes)) ++ room_id_bytes
          ++ [EPH_MSG_TYPE_PRESENCE] ++ json).
End envelope.

(** [PresenceManager]: no transport is wired. *)
Record PresenceManager : Type := PresenceManager_new { pm_room_id : string }.
Definition broadcast (m : PresenceManager) (payload : PresencePayload) : Result unit :=
  Err (ENotYetImplemented ("PresenceManager::broadcast: no WebSocket transport wired for room "
         +:+ pm_room_id m)).

(** ** The registry ([mod.rs]) *)

Definition DEFAULT_NODE_PRESENCE_STALE_TIMEOUT_MS : Z := 30000.

(** [W] is what the callback acts on. *)
Record NodePresenceRegistry (W : Type) : Type := mkNodePresenceRegistry {
  states : gmap (string * string) NodePresence;
  stale_timeout_ms : Z;
  on_change_cb : option (NodePresence → W → W)
}.
Arguments mkNodePresenceRegistry {W}.
Arguments states {W}.
Arguments stale_timeout_ms {W}.
Arguments on_change_cb {W}.

Section registry.
  Context {W : Type}.
  Implicit Types (reg : NodePresenceRegistry W).

Definition NodePresenceRegistry_new (stale_timeout : Z) : NodePresenceRegistry W :=
  mkNodePresenceRegistry ∅ stale_timeout None.

Definition set_states (m : gmap (string * string) NodePresence) reg : NodePresenceRegistry W :=
  mkNodePresenceRegistry m (stale_timeout_ms reg) (on_change_cb reg).

Definition upsert (presence : NodePresence) (rw : NodePresenceRegistry W * W) : NodePresenceRegistry W * W :=
  let '(reg, w) := rw in
  let key := (np_peer_id presence, np_vertex_id presence) in
  let reg := set_states (<[key := presence]> (states reg)) reg in
  (reg, match on_change_cb reg with Some cb => cb presence w | None => w end).

Definition remove (peer_id vertex_id : string) reg : NodePresenceRegistry W :=
  set_states (delete (peer_id, vertex_id) (states reg)) reg.

(** [values] lists the entries in the order of the hash map. *)
Definition for_node (vertex_id : string) (values : list ((string * string) * NodePresence)) : list NodePresence :=
  filter (λ p, np_vertex_id p = vertex_id) values.*2.

Definition gc_stale (now_ms : Z) reg : nat * NodePresenceRegistry W :=
  let cutoff := u64_saturating_sub now_ms (stale_timeout_ms reg) in
  let before := size (states reg) in
  let reg := set_states (filter (λ kp, cutoff ≤ np_last_seen_ms kp.2)%Z (states reg)) reg in
  (before - size (states reg), reg).

Definition on_change (callback : NodePresence → W → W) reg : NodePresenceRegistry W :=
  mkNodePresenceRegistry (states reg) (stale_timeout_ms reg) (Some callback).

Definition presence_register_callback (reg : NodePresenceRegistry W) (cb : NodePresence → W → W) :
    NodePresenceRegistry W := on_change cb reg.

Definition NodePresenceRegistry_len reg : nat := size (states reg).
Definition NodePresenceRegistry_is_empty reg : bool := bool_decide (states reg = ∅).
End registry.

(** ** The envelope is exact *)

Definition eph_frame (room_id_bytes : bytes) (json : bytes) : bytes :=
  EPH_MAGIC ++ to_le_bytes 2 (Z.of_nat (length room_id_bytes)) ++ room_id_bytes
    ++ [EPH_MSG_TYPE_PRESENCE] ++ json.

Definition is_invalid_envelope (e : GrafeoLoroError) : Prop := ∃ msg, e = EInvalidEnvelope msg.

Lemma from_utf8_Ok b s : from_utf8 b = Ok s ↔ b = string_bytes s ∧ is_str s.
Proof.
  unfold from_utf8, is_str. destruct (run_utf8_validation 0 b) as [e|] eqn:E.
  - split; [done|]. intros [-> ?]. congruence.
  - split; [intros [= <-]; by rewrite string_bytes_of_bytes|].
    intros [-> _]. by rewrite string_of_string_bytes.
Qed.

Section exact.
  Context `{SerdeJson}.

(** Past the magic and the length. *)
Definition parse_body (n : nat) (r : bytes) : option (Result EphEnvelope) :=
  if decide (length r < n + 1) then None
  else Some (room_id ← map_err (λ e, EInvalidEnvelope ("bad room_id utf8: " +:+ Utf8Error_to_string e))
                         (from_utf8 (take n r));
    if decide (r !!! n ≠ EPH_MSG_TYPE_PRESENCE) then
      Err (EInvalidEnvelope ("unsupported msg_type: " +:+ hex_byte (r !!! n)))
    else
      payload ← map_err (λ e, EInvalidEnvelope ("serde: " +:+ e)) (json_from_slice (drop (n + 1) r));
      Ok (mkEphEnvelope room_id payload)).

Lemma parse_magic l0 l1 r :
  match parse_body (Z.to_nat (u16_from_le_bytes l0 l1)) r with
  | Some res => parse_eph_envelope (EPH_MAGIC ++ l0 :: l1 :: r) = res
  | None => ∃ e, parse_eph_envelope (EPH_MAGIC ++ l0 :: l1 :: r) = Err e ∧ is_invalid_envelope e
  end.
Proof.
  unfold parse_eph_envelope, parse_body. change (length EPH_MAGIC) with 4.
  assert (Hlen : length (EPH_MAGIC ++ l0 :: l1 :: r) = 6 + length r) by done.
  change ((EPH_MAGIC ++ l0 :: l1 :: r) !!! 4) with l0.
  change ((EPH_MAGIC ++ l0 :: l1 :: r) !!! (4 + 1)) with l1.
  change (take 4 (EPH_MAGIC ++ l0 :: l1 :: r)) with EPH_MAGIC.
  set (n := Z.to_nat _). rewrite Hlen. cbn zeta.
  rewrite (decide_False (P := 6 + length r < 4)), (decide_False (P := EPH_MAGIC ≠ EPH_MAGIC)),
    (decide_False (P := 6 + length r < 4 + 2)) by (lia || tauto).
  destruct (decide (length r < n + 1)) as [Hlt|Hge].
  - rewrite decide_True by lia. eexists. split; [done|]. by eexists.
  - rewrite decide_False by lia. change (4 + 2) with 6.
    rewrite Nat.add_comm, Nat.add_sub.
    change (drop 6 (EPH_MAGIC ++ l0 :: l1 :: r)) with r.
    assert (Hd : drop (n + 6 + 1) (EPH_MAGIC ++ l0 :: l1 :: r) = drop (n + 1) r).
    { replace (n + 6 + 1) with (6 + (n + 1)) by lia. done. }
    assert (Hn : (EPH_MAGIC ++ l0 :: l1 :: r) !!! (n + 6) = r !!! n).
    { by replace (n + 6) with (6 + n) by lia. }
    by rewrite Hd, Hn.
Qed.

Lemma parse_body_Ok n r env :
  parse_body n r = Some (Ok env) ↔
  ∃ json, r = string_bytes (room_id env) ++ EPH_MSG_TYPE_PRESENCE :: json ∧
    length (string_bytes (room_id env)) = n ∧ is_str (room_id env) ∧ json_from_slice json = Ok (payload env).
Proof.
  unfold parse_body. split.
  - case_decide as Hlen; [done|]. unfold mbind, result_bind.
    destruct (from_utf8 (take n r)) as [s|e] eqn:Hs; cbn [map_err]; [|done].
    apply from_utf8_Ok in Hs as [Hs Hstr]. case_decide as Ht; [done|].
    destruct (json_from_slice _) as [p|e] eqn:Hj; cbn [map_err]; intros [= <-]. cbn [room_id payload].
    exists (drop (n + 1) r). rewrite <-Hs. split; [|split; [rewrite length_take; lia|done]].
    destruct (decide (r !!! n = EPH_MSG_TYPE_PRESENCE)) as [Heq|]; [|done].
    rewrite <-(take_drop n r) at 1. f_equal.
    destruct (lookup_lt_is_Some_2 r n) as [x Hx]; [lia|].
    rewrite (drop_S _ _ _ Hx), Nat.add_1_r. f_equal.
    by rewrite (list_lookup_total_correct _ _ _ Hx) in Heq.
  - intros (json & -> & Hn & Hstr & Hj). destruct env as [s p]; cbn [room_id payload] in *. subst n.
    rewrite decide_False by (rewrite length_app; cbn; lia). unfold mbind, result_bind.
    rewrite take_app_length. rewrite (proj2 (from_utf8_Ok _ s)) by done. cbn [map_err].
    rewrite list_lookup_total_middle by done. rewrite decide_False by tauto.
    rewrite drop_app_add. change (drop 1 (EPH_MSG_TYPE_PRESENCE :: json)) with json. by rewrite Hj.
Qed.

Lemma parse_body_Err n r e : parse_body n r = Some (Err e) → is_invalid_envelope e.
Proof.
  unfold parse_body, mbind, result_bind, is_invalid_envelope. case_decide; [done|].
  destruct (from_utf8 _); cbn [map_err]; [|intros [= <-]; eauto].
  case_decide; [intros [= <-]; eauto|].
  destruct (json_from_slice _); cbn [map_err]; intros [= <-]; eauto.
Qed.

Lemma parse_Err b e : parse_eph_envelope b = Err e → is_invalid_envelope e.
Proof.
  intros He.
  destruct (decide (length b < 6 ∨ take 4 b ≠ EPH_MAGIC)) as [Hbad|Hok].
  - revert He. unfold parse_eph_envelope, is_invalid_envelope. change (length EPH_MAGIC) with 4. cbn zeta.
    destruct (decide (length b < 4)); [intros [= <-]; eauto|].
    destruct (decide (take 4 b ≠ EPH_MAGIC)); [intros [= <-]; eauto|].
    destruct (decide (length b < 4 + 2)); [intros [= <-]; eauto|]. tauto || (destruct Hbad; [lia|done]).
  - destruct b as [|m0 [|m1 [|m2 [|m3 [|l0 [|l1 r]]]]]]; try (cbn in Hok; lia).
    assert (Hm : [m0; m1; m2; m3] = EPH_MAGIC).
    { destruct (decide ([m0; m1; m2; m3] = EPH_MAGIC)); [done|]. exfalso. apply Hok. by right. }
    change (parse_eph_envelope ([m0; m1; m2; m3] ++ l0 :: l1 :: r) = Err e) in He. rewrite Hm in He.
    pose proof (parse_magic l0 l1 r) as Hp. destruct (parse_body _ r) as [res|] eqn:Hb.
    + rewrite Hp in He. subst. by eapply parse_body_Err.
    + destruct Hp as (e' & He' & ?). congruence.
Qed.

Lemma u16_le_bytes_length (rb : bytes) :
  (Z.of_nat (length rb) ≤ U16_MAX)%Z →
  ∃ l0 l1, to_le_bytes 2 (Z.of_nat (length rb)) = [l0; l1] ∧ Z.to_nat (u16_from_le_bytes l0 l1) = length rb.
Proof.
  unfold U16_MAX. intros Hle. pose proof (length_to_le_bytes 2 (Z.of_nat (length rb))) as Hlen.
  pose proof (from_to_le_bytes_id 2 (Z.of_nat (length rb)) ltac:(lia)) as Hid.
  destruct (to_le_bytes 2 (Z.of_nat (length rb))) as [|l0 [|l1 [|]]]; try done.
  exists l0, l1. split; [done|]. unfold u16_from_le_bytes. rewrite Hid. lia.
Qed.

Lemma parse_eph_frame_iff b env :
  parse_eph_envelope b = Ok env ↔
  ∃ json, b = eph_frame (string_bytes (room_id env)) json ∧
    (Z.of_nat (length (string_bytes (room_id env))) ≤ U16_MAX)%Z ∧
    is_str (room_id env) ∧ json_from_slice json = Ok (payload env).
Proof.
  split.
  - intros Hp.
    destruct (decide (6 ≤ length b ∧ take 4 b = EPH_MAGIC)) as [Hok|Hbad].
    + destruct b as [|m0 [|m1 [|m2 [|m3 [|l0 [|l1 r]]]]]]; try (cbn in Hok; lia).
      destruct Hok as [_ Hm]. change ([m0; m1; m2; m3] = EPH_MAGIC) in Hm.
      change (parse_eph_envelope ([m0; m1; m2; m3] ++ l0 :: l1 :: r) = Ok env) in Hp.
      change (m0 :: m1 :: m2 :: m3 :: l0 :: l1 :: r) with ([m0; m1; m2; m3] ++ l0 :: l1 :: r).
      rewrite Hm in *. pose proof (parse_magic l0 l1 r) as Hr. destruct (parse_body _ r) as [res|] eqn:Hb.
      * rewrite Hr in Hp. subst res. apply parse_body_Ok in Hb as (json & -> & Hn & Hstr & Hj).
        pose proof (to_from_le_bytes [l0; l1]) as Hle. change (length [l0; l1]) with 2 in Hle.
        pose proof (Z_of_byte_range l0). pose proof (Z_of_byte_range l1).
        assert (Hu : u16_from_le_bytes l0 l1 = (Z_of_byte l0 + 256 * Z_of_byte l1)%Z).
        { unfold u16_from_le_bytes. cbn [from_le_bytes]. lia. }
        assert (Hz : Z.of_nat (length (string_bytes (room_id env))) = u16_from_le_bytes l0 l1) by lia.
        exists json. unfold U16_MAX. split; [|split; [lia|done]].
        unfold eph_frame. rewrite Hz. unfold u16_from_le_bytes. by rewrite Hle.
      * destruct Hr as (e & He & _). congruence.
    + exfalso. apply Hbad. revert Hp. unfold parse_eph_envelope. change (length EPH_MAGIC) with 4. cbn zeta.
      destruct (decide (length b < 4)); [done|]. destruct (decide (take 4 b ≠ EPH_MAGIC)) as [|Hm]; [done|].
      destruct (decide (length b < 4 + 2)); [done|]. intros _. split; [lia|]. by apply dec_stable.
  - intros (json & -> & Hle & Hstr & Hj). unfold eph_frame.
    destruct (u16_le_bytes_length _ Hle) as (l0 & l1 & -> & Hn).
    set (r := string_bytes (room_id env) ++ [EPH_MSG_TYPE_PRESENCE] ++ json).
    change ([l0; l1] ++ r) with (l0 :: l1 :: r). pose proof (parse_magic l0 l1 r) as Hr. rewrite Hn in Hr.
    rewrite (proj2 (parse_body_Ok _ r env)) in Hr; [done|]. by exists json.
Qed.
End exact.

(** JSON has no infinities and no NaN. *)
Definition is_finite (f : f32) : bool :=
  match f with S754_zero _ | S754_finite _ _ _ => true | S754_infinity _ | S754_nan => false end.
Definition finite_payload (p : PresencePayload) : Prop :=
  is_finite (pp_cursor_x p) = true ∧ is_finite (pp_cursor_y p) = true.

Definition with_cursors (f : f32 → f32) (p : PresencePayload) : PresencePayload :=
  mkPresencePayload (pp_peer_id p) (pp_active_node p) (f (pp_cursor_x p)) (f (pp_cursor_y p)) (pp_last_active_ts p).

(** A payload with finite cursors is printed and read back: integers and strings
    as they were, a number as [json_reread] says.  Without its feature
    [float_roundtrip], which the crate does not enable, [serde_json] does not
    promise that this is the number printed. *)
Class SerdeJsonLaws `{SerdeJson} : Type := {
  json_reread : f32 → f32;
  json_law p : finite_payload p →
    ∃ json, json_to_vec p = Ok json ∧ json_from_slice json = Ok (with_cursors json_reread p)
}.

(** C32: the envelope format is exact: a byte string parses exactly when it is
    the magic, the length, the room id as valid UTF-8, the message type and a
    JSON payload, to that room and payload, and every other byte string is an
    invalid envelope.  For a payload with finite cursors (JSON has no others),
    building fails exactly on a room id over [u16::MAX] bytes, and what it builds
    parses back to the same room, peer, node and time, with each cursor as the JSON
    library reads the number it printed. *)
Theorem eph_envelope_exact `{SerdeJsonLaws} (b : bytes) (env : EphEnvelope)
  (Hroom : is_str (room_id env)) (Hp : finite_payload (payload env)) :
  (∀ env', parse_eph_envelope b = Ok env' ↔
    ∃ json, b = eph_frame (string_bytes (room_id env')) json ∧
      (Z.of_nat (length (string_bytes (room_id env'))) ≤ U16_MAX)%Z ∧
      is_str (room_id env') ∧ json_from_slice json = Ok (payload env')) ∧
  (∀ e, parse_eph_envelope b = Err e → is_invalid_envelope e) ∧
  match build_eph_envelope (room_id env) (payload env) with
  | Ok out => parse_eph_envelope out = Ok (mkEphEnvelope (room_id env) (with_cursors json_reread (payload env)))
  | Err e => is_invalid_envelope e ∧ (U16_MAX < Z.of_nat (length (string_bytes (room_id env))))%Z
  end.
Proof.
  split; [intros; apply parse_eph_frame_iff|]. split; [intros e; apply parse_Err|].
  unfold build_eph_envelope.
  destruct (Z.ltb_spec U16_MAX (Z.of_nat (length (string_bytes (room_id env))))) as [Hlt|Hle].
  - split; [by eexists|done].
  - destruct (json_law _ Hp) as (json & Hto & Hfrom). rewrite Hto. cbn [map_err mbind result_bind].
    apply parse_eph_frame_iff. by exists json.
Qed.

(** A codec that keeps the law: the bits of the payload's countable encoding. *)
Definition float_sum (f : f32) : bool + bool + unit + (bool * positive * Z) :=
  match f with
  | S754_zero s => inl (inl (inl s))
  | S754_infinity s => inl (inl (inr s))
  | S754_nan => inl (inr tt)
  | S754_finite s m e => inr (s, m, e)
  end.
Definition sum_float (x : bool + bool + unit + (bool * positive * Z)) : f32 :=
  match x with
  | inl (inl (inl s)) => S754_zero s
  | inl (inl (inr s)) => S754_infinity s
  | inl (inr tt) => S754_nan
  | inr (s, m, e) => S754_finite s m e
  end.
#[local] Instance float_countable : Countable spec_float.
Proof. apply (inj_countable' float_sum sum_float). by intros []. Defined.
#[local] Instance payload_countable : Countable PresencePayload.
Proof.
  apply (inj_countable'
    (λ p, (PeerId_0 (pp_peer_id p), pp_active_node p, pp_cursor_x p, pp_cursor_y p, pp_last_active_ts p))
    (λ '(i, n, x, y, t), mkPresencePayload (mkPeerId i) n x y t)).
  by intros [[]].
Defined.

Fixpoint bits_of_pos (p : positive) : bytes :=
  match p with xH => [] | xO p => x00 :: bits_of_pos p | xI p => x01 :: bits_of_pos p end.
Fixpoint pos_of_bits (b : bytes) : positive :=
  match b with [] => xH | x00 :: b => xO (pos_of_bits b) | _ :: b => xI (pos_of_bits b) end.

Definition bit_json : SerdeJson := {|
  json_to_vec p := Ok (bits_of_pos (encode p));
  json_from_slice b := ok_or (decode (pos_of_bits b)) "expected value"%string
|}.

#[local, refine] Instance bit_json_laws : SerdeJsonLaws (H := bit_json) := {| json_reread f := f |}.
Proof.
  intros p _. eexists. split; [done|]. cbn.
  assert (Hb : ∀ q, pos_of_bits (bits_of_pos q) = q) by (induction q; cbn; congruence).
  rewrite Hb, decode_encode. by destruct p.
Defined.

Lemma eph_envelope_exact_witness :
  let p := mkPresencePayload (mkPeerId 1) (Some "a") (S754_zero false) (S754_finite true 3 (-1)) 5 in
  match build_eph_envelope (H := bit_json) "room" p with
  | Ok out => parse_eph_envelope (H := bit_json) out = Ok (mkEphEnvelope "room" p)
  | Err _ => False
  end.
Proof.
  intros p.
  pose proof (eph_envelope_exact (H := bit_json) (H0 := bit_json_laws) [] (mkEphEnvelope "room" p)
    ltac:(vm_compute; reflexivity) ltac:(vm_compute; by split)) as (_ & _ & Hr).
  cbn [room_id payload] in Hr. destruct (build_eph_envelope _ p); [done|].
  destruct Hr as [_ Hr]. by vm_compute in Hr.
Defined.

(** ** The registry *)

Inductive PresenceCmd (W : Type) : Type :=
| PUpsert (p : NodePresence)
| PRemove (peer vertex : string)
| PGc (now_ms : Z)
| POnChange (cb : NodePresence → W → W).
Arguments PUpsert {W}.
Arguments PRemove {W}.
Arguments PGc {W}.
Arguments POnChange {W}.

Section registry.
  Context {W : Type}.
  Implicit Types (reg : NodePresenceRegistry W).

Definition presence_step (rw : NodePresenceRegistry W * W) (c : PresenceCmd W) : NodePresenceRegistry W * W :=
  match c with
  | PUpsert p => upsert p rw
  | PRemove p v => (remove p v rw.1, rw.2)
  | PGc now => ((gc_stale now rw.1).2, rw.2)
  | POnChange cb => (on_change cb rw.1, rw.2)
  end.

(** An entry is filed under its own peer and vertex. *)
Definition keyed (m : gmap (string * string) NodePresence) : Prop :=
  map_Forall (λ k p, k = (np_peer_id p, np_vertex_id p)) m.

Lemma presence_step_keyed rw c : keyed (states rw.1) → keyed (states (presence_step rw c).1).
Proof.
  destruct rw as [reg w]. unfold keyed. destruct c as [p|p v|now|cb]; cbn; intros Hk.
  - by apply map_Forall_insert_2.
  - by apply map_Forall_delete.
  - by apply map_Forall_filter_2 || (intros k q [? _]%map_lookup_filter_Some; by apply Hk).
  - done.
Qed.

(** Whatever was done to a registry, an upsert is the presence of its peer at its
    vertex until it is replaced, removed or collected, and is announced once; a
    vertex lists exactly its presences, once each, in whatever order the map is
    iterated; a collection drops exactly the entries last seen before the cutoff
    and returns how many those were. *)
Lemma NodePresenceRegistry_correct (timeout now : Z) (cs : list (PresenceCmd W)) (w : W)
  (p : NodePresence) (vertex : string) (values : list ((string * string) * NodePresence))
  (Hv : enumerates values (states (foldl presence_step (NodePresenceRegistry_new timeout, w) cs).1)) :
  let '(reg, w') := foldl presence_step (NodePresenceRegistry_new timeout, w) cs in
  let key := (np_peer_id p, np_vertex_id p) in
  states (upsert p (reg, w')).1 = <[key := p]> (states reg) ∧
  (upsert p (reg, w')).2 = match on_change_cb reg with Some cb => cb p w' | None => w' end ∧
  states (remove key.1 key.2 reg) = delete key (states reg) ∧
  NoDup (for_node vertex values) ∧
  (p ∈ for_node vertex values ↔ np_vertex_id p = vertex ∧ states reg !! (np_peer_id p, vertex) = Some p) ∧
  let '(removed, reg') := gc_stale now reg in
  removed = size (filter (λ kp, np_last_seen_ms kp.2 < Z.max (now - stale_timeout_ms reg) 0)%Z (states reg)) ∧
  (∀ k q, states reg' !! k = Some q ↔
     states reg !! k = Some q ∧ (now - stale_timeout_ms reg ≤ np_last_seen_ms q ∧ 0 ≤ np_last_seen_ms q)%Z).
Proof.
  assert (Hk : keyed (states (foldl presence_step (NodePresenceRegistry_new timeout, w) cs).1)).
  { assert (H0 : keyed (states (NodePresenceRegistry_new (W := W) timeout, w).1)) by apply map_Forall_empty.
    clear Hv. revert H0. generalize (NodePresenceRegistry_new (W := W) timeout, w) as rw.
    induction cs as [|c cs IH]; intros rw H0; [done|]. cbn. apply IH. by apply presence_step_keyed. }
  destruct (foldl presence_step _ cs) as [reg w']. cbn in Hk, Hv. cbn zeta.
  split; [done|]. split; [done|]. split; [done|].
  assert (Hin : ∀ q, q ∈ values.*2 ↔ states reg !! (np_peer_id q, np_vertex_id q) = Some q).
  { intros q. split.
    - intros ([k q'] & -> & Hq)%list_elem_of_fmap. apply (enumerates_lookup _ _ _ _ Hv) in Hq. cbn.
      by rewrite (Hk _ _ Hq) in Hq.
    - intros Hq. apply list_elem_of_fmap. exists ((np_peer_id q, np_vertex_id q), q).
      split; [done|]. by apply (enumerates_lookup _ _ _ _ Hv). }
  split; [|split].
  - unfold for_node. apply NoDup_filter. pose proof (enumerates_NoDup _ _ Hv) as Hnd.
    apply NoDup_fmap_2_strong; [|by eapply NoDup_fmap_1].
    intros [k1 q1] [k2 q2] H1%(enumerates_lookup _ _ _ _ Hv) H2%(enumerates_lookup _ _ _ _ Hv). cbn.
    intros ->. f_equal. by rewrite (Hk _ _ H1), (Hk _ _ H2).
  - unfold for_node. rewrite list_elem_of_filter, Hin. split; [by intros [<- ?]|by intros [<- ?]].
  - unfold gc_stale. cbn. unfold u64_saturating_sub. split.
    + set (P := λ kp : (string * string) * NodePresence, _ : Prop).
      rewrite <-(map_filter_union_complement P (states reg)) at 1.
      rewrite map_size_disj_union by apply map_disjoint_filter_complement.
      rewrite Nat.add_comm, Nat.add_sub. f_equal. apply map_filter_ext. intros k q _. unfold P. cbn. lia.
    + intros k q. rewrite map_lookup_filter_Some. cbn. split; intros [? ?]; (split; [done|lia]).
Qed.
End registry.

Lemma NodePresenceRegistry_correct_witness :
  let np peer t := mkNodePresence peer "v" None None t in
  let cs := [POnChange (λ p (w : list string), (w ++ [np_peer_id p])%list); PUpsert (np "fresh" 1000);
             PUpsert (np "stale" 100); PRemove "x" "v"]%string%Z in
  let '(reg, w) := foldl presence_step (NodePresenceRegistry_new 500, []) cs in
  w = ["fresh"; "stale"]%string ∧ (gc_stale 1200 reg).1 = 1 ∧
  (np "fresh" 1000 ∈ for_node "v" (map_to_list (states reg)))%string%Z.
Proof.
  intros np cs.
  pose proof (NodePresenceRegistry_correct 500 1200 cs [] (np "fresh" 1000%Z) "v" _ (reflexivity _)) as H.
  destruct (foldl presence_step (NodePresenceRegistry_new 500, []) cs) as [reg w] eqn:E.
  assert (Hw : w = ["fresh"; "stale"]%string) by (apply (f_equal snd) in E; vm_compute in E; congruence).
  assert (Hreg : states reg !! ("fresh", "v")%string = Some (np "fresh" 1000%Z) ∧ (gc_stale 1200 reg).1 = 1).
  { apply (f_equal fst) in E. cbn [fst] in E. rewrite <-E. by vm_compute. }
  destruct H as (_ & _ & _ & _ & Hin & _). split; [done|]. split; [apply Hreg|].
  apply Hin. split; [done|]. apply Hreg.
Defined.
