(* ===== verification/TreeAdapter.v ===== *)
(** * Tree adapter ([src/tree_adapter/mod.rs])

    The tree view over the bridge maps: parents, children, the two traversals
    and the operation constructors.  The order of the edge map's keys is a
    [SetOrder]. *)

From S2P Require Import Prelude Types Values BridgeMaps Graph.

Record TreeNode : Type := mkTreeNode {
  tn_id : NodeId; tn_parent : option NodeId; tn_children : list NodeId
}.

Record TreeCycleError : Type := mkTreeCycleError { tce_node : NodeId; tce_new_parent : NodeId }.

(** ** The loops of the traversals, over any neighbour function *)

Section loops.
  Context {A : Type} `{Countable A}.

(** The stack of [descendants], its top first. *)
Fixpoint preorder_loop (children : A → list A) (fuel : nat) (stack : list A) (visited : gset A)
    (out : list A) : option (list A) :=
  match fuel with
  | O => None
  | S fuel =>
      match stack with
      | [] => Some out
      | n :: stack =>
          if bool_decide (n ∈ visited) then preorder_loop children fuel stack visited out
          else preorder_loop children fuel (children n ++ stack) ({[n]} ∪ visited) (out ++ [n])
      end
  end.

(** The [loop] of [ancestors]. *)
Fixpoint chain_loop (next : A → option A) (fuel : nat) (current : A) (visited : gset A)
    (out : list A) : option (list A) :=
  match fuel with
  | O => None
  | S fuel =>
      match next current with
      | None => Some out
      | Some parent =>
          if bool_decide (parent ∈ visited) then Some out
          else chain_loop next fuel parent ({[parent]} ∪ visited) (out ++ [parent])
      end
  end.
End loops.

Section adapter.
  Context `{SetOrder} (maps : BridgeMaps).

Definition adapter_node_key (node : NodeId) : Result string :=
  ok_or (node_key_map maps !! node) (EBridge ("unknown node id: " +:+ NodeId_debug node)).

Definition adapter_node_id (loro_key : string) : Result NodeId :=
  ok_or (node_id_map maps !! loro_key) (EBridge ("unknown node key: " +:+ dquote loro_key)).

(** [edge_id_map.keys()]. *)
Definition edge_keys : list EdgeKey := set_iter (dom (edge_id_map maps)).

Definition is_tree_edge_to (node_key : string) (k : EdgeKey) : Prop :=
  k.2 = TREE_EDGE_LABEL ∧ k.1.2 = node_key.
Definition is_tree_edge_from (node_key : string) (k : EdgeKey) : Prop :=
  k.2 = TREE_EDGE_LABEL ∧ k.1.1 = node_key.
#[export] Instance is_tree_edge_to_dec node_key k : Decision (is_tree_edge_to node_key k).
Proof. unfold is_tree_edge_to. apply _. Defined.
#[export] Instance is_tree_edge_from_dec node_key k : Decision (is_tree_edge_from node_key k).
Proof. unfold is_tree_edge_from. apply _. Defined.

Definition adapter_parent (node : NodeId) : Result (option NodeId) :=
  node_key ← adapter_node_key node;
  match list_find (is_tree_edge_to node_key) edge_keys with
  | Some (_, k) => id ← adapter_node_id k.1.1; Ok (Some id)
  | None => Ok None
  end.

Definition adapter_children (node : NodeId) : Result (list NodeId) :=
  node_key ← adapter_node_key node;
  let child_keys := (λ k : EdgeKey, k.1.2) <$> filter (is_tree_edge_from node_key) edge_keys in
  Ok (omap (λ ck, match adapter_node_id ck with Ok id => Some id | Err _ => None end) child_keys).

Definition adapter_view (node : NodeId) : Result TreeNode :=
  parent ← adapter_parent node;
  children ← adapter_children node;
  Ok (mkTreeNode node parent children).

(** Errors end a branch of the traversals. *)
Definition children_or_nil (node : NodeId) : list NodeId :=
  match adapter_children node with Ok cs => cs | Err _ => [] end.
Definition parent_or_none (node : NodeId) : option NodeId :=
  match adapter_parent node with Ok (Some p) => Some p | _ => None end.

(** The ids a traversal can meet, which bound its number of turns. *)
Definition known_ids (node : NodeId) : list NodeId :=
  remove_dups (node :: (map_to_list (node_id_map maps)).*2).

Definition descendants (node : NodeId) : option (list NodeId) :=
  match adapter_children node with
  | Err _ => Some []
  | Ok cs => preorder_loop children_or_nil (dfs_fuel children_or_nil (known_ids node)) cs {[node]} []
  end.

Definition ancestors (node : NodeId) : option (list NodeId) :=
  chain_loop parent_or_none (S (length (known_ids node))) node {[node]} [].

Definition create_child_op (_parent : NodeId) (child_loro_key label : string) : LoroOp :=
  UpsertNode child_loro_key [label] ∅.
Definition move_op (node_loro_key old_parent_loro_key new_parent_loro_key : string) : LoroOp :=
  TreeMove node_loro_key old_parent_loro_key new_parent_loro_key.
Definition indent_op (node_loro_key parent_loro_key previous_sibling_loro_key : string) : LoroOp :=
  move_op node_loro_key parent_loro_key previous_sibling_loro_key.
Definition outdent_op (node_loro_key parent_loro_key grandparent_loro_key : string) : LoroOp :=
  move_op node_loro_key parent_loro_key grandparent_loro_key.
End adapter.

(** ** The traversal loops are right *)

(** The recursive depth-first walk, the reference the loop is compared with:
    [dfs children seen l out seen'] walks the nodes of [l] from left to right,
    skips those already seen, and lists every other one followed by the whole
    walk of its own children before the next node of [l] is looked at. *)
Inductive dfs {A : Type} `{Countable A} (children : A → list A) :
    gset A → list A → list A → gset A → Prop :=
  | dfs_nil seen : dfs children seen [] [] seen
  | dfs_skip seen x l out seen' :
      x ∈ seen → dfs children seen l out seen' → dfs children seen (x :: l) out seen'
  | dfs_visit seen x l below seen1 rest seen2 :
      x ∉ seen → dfs children ({[x]} ∪ seen) (children x) below seen1 →
      dfs children seen1 l rest seen2 →
      dfs children seen (x :: l) (x :: below ++ rest) seen2.

Section walk.
  Context {A : Type} `{Countable A} (children : A → list A).

(** The walk of a concatenation is the walk of its first part, then of its
    second part with what the first one saw. *)
Lemma dfs_app l1 l2 seen out seen2 :
  dfs children seen (l1 ++ l2) out seen2 →
  ∃ o1 seen1 o2, dfs children seen l1 o1 seen1 ∧ dfs children seen1 l2 o2 seen2 ∧ out = o1 ++ o2.
Proof.
  revert seen out; induction l1 as [|x l1 IH]; intros seen out; cbn.
  - intros Hd. exists [], seen, out. by repeat constructor.
  - inversion 1 as [|? ? ? ? ? Hx Hd|? ? ? below s1 rest ? Hx Hb Hd]; subst.
    + destruct (IH _ _ Hd) as (o1 & s1 & o2 & H1 & H2 & ->). exists o1, s1, o2. by repeat constructor.
    + destruct (IH _ _ Hd) as (o1 & s2 & o2 & H1 & H2 & ->). exists (x :: below ++ o1), s2, o2.
      split; [by eapply dfs_visit|]. split; [done|]. cbn. by rewrite <-app_assoc.
Qed.

Lemma dfs_functional seen l out seen' out2 seen2 :
  dfs children seen l out seen' → dfs children seen l out2 seen2 → out = out2 ∧ seen' = seen2.
Proof.
  intros Hd; revert out2 seen2; induction Hd as [|? ? ? ? ? Hx _ IH|? ? ? ? ? ? ? Hx _ IH1 _ IH2];
    intros out2 s2 Hd2; inversion Hd2 as [|? ? ? ? ? Hx2 Hl|? ? ? ? ? ? ? Hx2 Hb Hl]; subst; try done.
  - by apply IH.
  - apply IH1 in Hb as [-> ->]. by apply IH2 in Hl as [-> ->].
Qed.

(** The stack loop computes the recursive walk. *)
Lemma preorder_loop_dfs fuel stack visited out r :
  preorder_loop children fuel stack visited out = Some r →
  ∃ o seen, dfs children visited stack o seen ∧ r = out ++ o.
Proof.
  revert stack visited out; induction fuel as [|fuel IH]; intros stack visited out; cbn; [done|].
  destruct stack as [|n stack].
  - intros [= <-]. exists [], visited. by rewrite app_nil_r; repeat constructor.
  - case_bool_decide as Hn; intros (o & seen & Hd & ->)%IH; [by exists o, seen; repeat constructor|].
    apply dfs_app in Hd as (o1 & s1 & o2 & H1 & H2 & ->). exists (n :: o1 ++ o2), seen.
    split; [by eapply dfs_visit|]. by rewrite <-app_assoc.
Qed.
End walk.

Section preorder.
  Context {A : Type} `{Countable A} (children : A → list A) (start : A).

Record preorder_inv (stack : list A) (visited : gset A) (out : list A) : Prop := {
  pi_visited : visited = {[start]} ∪ list_to_set out;
  pi_nodup : NoDup (start :: out);
  pi_stack x : x ∈ stack → ∃ p, p ∈ start :: out ∧ child_rel children p x;
  pi_closed p x : p ∈ start :: out → child_rel children p x → x ∈ visited ∨ x ∈ stack;
  pi_order i x : out !! i = Some x → ∃ p, p ∈ start :: take i out ∧ child_rel children p x
}.

Lemma preorder_loop_inv fuel stack visited out r :
  preorder_inv stack visited out → preorder_loop children fuel stack visited out = Some r →
  ∃ visited', preorder_inv [] visited' r.
Proof.
  revert stack visited out; induction fuel as [|fuel IH]; intros stack visited out Hinv; cbn; [done|].
  destruct stack as [|n stack]; [intros [= <-]; eauto|].
  destruct Hinv as [Hv Hnd Hs Hc Ho]. case_bool_decide as Hn; apply IH; split; try done.
  - intros x Hx. apply Hs. by right.
  - intros p x Hp Hpx. destruct (Hc p x Hp Hpx) as [?|[->|?]%elem_of_cons]; auto.
  - subst visited. rewrite list_to_set_app_L. set_solver.
  - assert (n ∉ start :: out) by (subst visited; set_solver).
    rewrite app_comm_cons. apply NoDup_app. split; [done|]. split; [set_solver|apply NoDup_singleton].
  - intros x [Hx|Hx]%elem_of_app.
    + exists n. split; [set_solver|done].
    + destruct (Hs x) as (p & Hp & ?); [by right|]. exists p. split; [set_solver|done].
  - intros p x Hp Hpx. rewrite elem_of_cons, elem_of_app, list_elem_of_singleton in Hp.
    rewrite elem_of_union, elem_of_app, elem_of_singleton.
    destruct (decide (p = n)) as [->|Hne]; [right; by left|].
    destruct (Hc p x) as [?|[->|?]%elem_of_cons]; [set_solver|done|auto..].
  - intros i x [Hi|[Hi Hx]]%lookup_app_Some.
    + destruct (Ho i x Hi) as (p & Hp & ?). exists p. split; [|done].
      apply lookup_lt_Some in Hi. by rewrite take_app_le by lia.
    + apply list_lookup_singleton_Some in Hx as [Hi0 ->].
      destruct (Hs x) as (p & Hp & ?); [by left|]. exists p. split; [|done].
      replace i with (length out) by lia. by rewrite take_app_length.
Qed.

Lemma preorder_start : preorder_inv (children start) {[start]} [].
Proof.
  split; [set_solver|repeat constructor; set_solver| | |done].
  - intros x Hx. exists start. split; [by left|done].
  - intros p x ->%list_elem_of_singleton Hpx. by right.
Qed.

Lemma preorder_result visited out :
  preorder_inv [] visited out →
  NoDup out ∧ (∀ x, x ∈ out ↔ x ≠ start ∧ tc (child_rel children) start x).
Proof.
  intros [Hv Hnd _ Hc Ho]. apply NoDup_cons in Hnd as [Hs Hnd]. split; [done|].
  assert (Hr : ∀ i x, out !! i = Some x → tc (child_rel children) start x).
  { intros i. induction i as [i IH] using lt_wf_ind. intros x Hx. destruct (Ho i x Hx) as (p & Hp & Hpx).
    apply elem_of_cons in Hp as [->|Hp]; [by apply tc_once|].
    apply elem_of_take in Hp as (j & Hj & Hlt). eapply tc_r; [by apply (IH j)|done]. }
  assert (Hcl : ∀ p x, p ∈ start :: out → child_rel children p x → x ∈ start :: out).
  { intros p x Hp Hpx. destruct (Hc p x Hp Hpx) as [Hx|?%not_elem_of_nil]; [|done]. set_solver. }
  intros x. split.
  - intros Hx. split; [by intros ->|]. apply list_elem_of_lookup in Hx as [i Hi]. by apply (Hr i).
  - intros [Hne (y & Hsy & Hyx)%tc_rtc_iff].
    assert (Hx : x ∈ start :: out); [|by apply elem_of_cons in Hx as [|]].
    eapply (rtc_closed (child_rel children) (λ u, u ∈ start :: out) y); [done| |done].
    eapply Hcl; [by left|done].
Qed.

Lemma preorder_loop_total univ fuel stack visited out :
  NoDup univ → (∀ x, x ∈ stack → x ∈ univ) → (∀ x y, child_rel children x y → y ∈ univ) →
  white_work children univ (gset_to_gmap Black visited) + length stack < fuel →
  is_Some (preorder_loop children fuel stack visited out).
Proof.
  intros Hnd Hst Hun. revert stack visited out Hst. induction fuel as [|fuel IH]; intros stack visited out Hst Hf; [lia|].
  cbn. destruct stack as [|n stack]; [by eexists|]. cbn in Hf. case_bool_decide as Hn.
  - apply IH; [|lia]. intros x Hx. apply Hst. by right.
  - apply IH.
    + intros x [Hx|Hx]%elem_of_app; [by apply (Hun n)|apply Hst; by right].
    + rewrite gset_to_gmap_union_singleton, length_app.
      rewrite (white_work_insert children univ _ n Black) in Hf; [lia|done|apply Hst; by left| |done].
      unfold color_of. by rewrite (proj2 (lookup_gset_to_gmap_None _ _ _)).
Qed.
End preorder.

Section chain.
  Context {A : Type} `{Countable A} (next : A → option A) (start : A).

Definition next_rel : relation A := λ x y, next x = Some y.

Record chain_inv (current : A) (visited : gset A) (out : list A) : Prop := {
  ci_visited : visited = {[start]} ∪ list_to_set out;
  ci_nodup : NoDup (start :: out);
  ci_last : last (start :: out) = Some current;
  ci_step i x : out !! i = Some x → ∃ p, (start :: out) !! i = Some p ∧ next p = Some x
}.

Lemma chain_loop_inv fuel current visited out r :
  chain_inv current visited out → chain_loop next fuel current visited out = Some r →
  ∃ current' visited', chain_inv current' visited' r ∧
    match next current' with Some p => p ∈ visited' | None => True end.
Proof.
  revert current visited out; induction fuel as [|fuel IH]; intros current visited out Hinv; cbn; [done|].
  destruct (next current) as [p|] eqn:Hp.
  2:{ intros [= <-]. exists current, visited. by rewrite Hp. }
  case_bool_decide as Hv.
  { intros [= <-]. exists current, visited. by rewrite Hp. }
  apply IH. destruct Hinv as [Hvis Hnd Hl Hs]. split.
  - subst visited. rewrite list_to_set_app_L. set_solver.
  - rewrite app_comm_cons. apply NoDup_app. split; [done|]. split; [set_solver|apply NoDup_singleton].
  - by rewrite app_comm_cons, last_snoc.
  - intros i x. rewrite app_comm_cons. intros [Hi|[Hi Hx]]%lookup_app_Some.
    + destruct (Hs i x Hi) as (q & ? & ?). exists q. split; [by apply lookup_app_l_Some|done].
    + apply list_lookup_singleton_Some in Hx as [? ->]. exists current. split; [|done].
      rewrite last_lookup in Hl. cbn [length pred] in Hl. replace i with (length out) by lia.
      by apply lookup_app_l_Some.
Qed.

Lemma chain_result current visited out :
  chain_inv current visited out → match next current with Some p => p ∈ visited | None => True end →
  ∀ x, x ∈ out ↔ x ≠ start ∧ tc next_rel start x.
Proof.
  intros [Hv Hnd Hl Hs] Hend. apply NoDup_cons in Hnd as [Hst _].
  assert (Hr : ∀ i x, out !! i = Some x → tc next_rel start x).
  { intros i; induction i as [|i IH]; intros x Hx; destruct (Hs _ x Hx) as (p & Hp & Hn).
    - injection Hp as <-. by apply tc_once.
    - eapply tc_r; [by apply (IH p)|done]. }
  assert (Hcl : ∀ p x, p ∈ start :: out → next p = Some x → x ∈ start :: out).
  { intros p x [i Hi]%list_elem_of_lookup Hn. destruct (decide (i = length out)) as [->|Hne].
    - rewrite last_lookup in Hl. cbn [length pred] in Hl. rewrite Hi in Hl. injection Hl as ->.
      rewrite Hn in Hend. set_solver.
    - pose proof (lookup_lt_Some _ _ _ Hi) as Hlt. cbn in Hlt.
      destruct (lookup_lt_is_Some_2 out i) as [y Hy]; [lia|].
      destruct (Hs i y Hy) as (q & Hq & Hnq). rewrite Hi in Hq. injection Hq as <-.
      rewrite Hn in Hnq. injection Hnq as ->. right. by apply list_elem_of_lookup_2 in Hy. }
  intros x. split.
  - intros Hx. split; [by intros ->|]. apply list_elem_of_lookup in Hx as [i Hi]. by apply (Hr i).
  - intros [Hne (y & Hsy & Hyx)%tc_rtc_iff].
    assert (Hx : x ∈ start :: out); [|by apply elem_of_cons in Hx as [|]].
    eapply (rtc_closed next_rel (λ u, u ∈ start :: out) y); [done| |done].
    eapply Hcl; [by left|done].
Qed.

Lemma chain_loop_total (univ : gset A) fuel current visited out :
  (∀ x y, next x = Some y → y ∈ univ) → size (univ ∖ visited) < fuel →
  is_Some (chain_loop next fuel current visited out).
Proof.
  intros Hun. revert current visited out; induction fuel as [|fuel IH]; intros current visited out Hf; [lia|].
  cbn. destruct (next current) as [p|] eqn:Hp; [|by eexists]. case_bool_decide as Hv; [by eexists|].
  apply IH. assert (size (univ ∖ ({[p]} ∪ visited)) < size (univ ∖ visited)); [|lia].
  apply subset_size. pose proof (Hun _ _ Hp). split; [set_solver|]. intros Hsub.
  assert (p ∈ univ ∖ visited) as Hpin by set_solver. apply Hsub in Hpin. set_solver.
Qed.
End chain.

(** ** The adapter *)

Section properties.
  Context `{SetOrder}.
  Implicit Types (maps : BridgeMaps) (node x p : NodeId).

Definition child_of maps p x : Prop := ∃ cs, adapter_children maps p = Ok cs ∧ x ∈ cs.
Definition parent_of maps x p : Prop := adapter_parent maps x = Ok (Some p).

Lemma child_rel_of maps p x : child_rel (children_or_nil maps) p x ↔ child_of maps p x.
Proof.
  unfold child_rel, child_of, children_or_nil. destruct (adapter_children maps p) as [cs|e].
  - split; [eauto|]. by intros (? & [= <-] & ?).
  - split; [by intros ?%not_elem_of_nil|]. by intros (? & ? & ?).
Qed.

Lemma next_rel_of maps x p : next_rel (parent_or_none maps) x p ↔ parent_of maps x p.
Proof.
  unfold next_rel, parent_of, parent_or_none.
  destruct (adapter_parent maps x) as [[q|]|e]; split; by intros [= ->].
Qed.

Lemma adapter_node_id_known maps node k x : adapter_node_id maps k = Ok x → x ∈ known_ids maps node.
Proof.
  unfold adapter_node_id, known_ids. destruct (node_id_map maps !! k) as [i|] eqn:Hk; cbn [ok_or]; [|done].
  intros [= <-]. apply (proj2 (elem_of_remove_dups _ _)). right. apply list_elem_of_fmap. exists (k, i).
  split; [done|]. by apply elem_of_map_to_list.
Qed.

Lemma child_of_spec maps p x :
  child_of maps p x ↔ ∃ kp kx, node_key_map maps !! p = Some kp ∧ node_id_map maps !! kx = Some x ∧
    is_Some (edge_id_map maps !! (kp, kx, TREE_EDGE_LABEL)).
Proof.
  unfold child_of, adapter_children, adapter_node_key, mbind, result_bind.
  destruct (node_key_map maps !! p) as [kp|]; cbn [ok_or]; [|split; [by intros (? & ? & _)|by intros (? & ? & ? & _)]].
  assert (Hin : ∀ l : list string, x ∈ omap (λ ck, match adapter_node_id maps ck with Ok id => Some id | Err _ => None end) l ↔
    ∃ kx, kx ∈ l ∧ node_id_map maps !! kx = Some x).
  { intros l. rewrite list_elem_of_omap. unfold adapter_node_id.
    split; intros (kx & Hkx & Hx); exists kx; (split; [done|]).
    - destruct (node_id_map maps !! kx); cbn in *; congruence.
    - by rewrite Hx. }
  split.
  - intros (cs & [= <-] & (kx & Hkx & Hx)%Hin). exists kp, kx. split; [done|]. split; [done|].
    apply list_elem_of_fmap in Hkx as ([[s d] l] & -> & Hf). apply list_elem_of_filter in Hf as [[Hl Hs] Hk].
    cbn in *. subst. by apply elem_of_dom, set_iter_elem.
  - intros (? & kx & [= <-] & Hx & He). eexists. split; [done|]. apply Hin. exists kx. split; [|done].
    apply list_elem_of_fmap. exists (kp, kx, TREE_EDGE_LABEL). split; [done|].
    apply list_elem_of_filter. split; [done|]. by apply set_iter_elem, elem_of_dom.
Qed.

Lemma child_of_known maps node p x : child_of maps p x → x ∈ known_ids maps node.
Proof.
  intros (kp & kx & _ & Hx & _)%child_of_spec. apply (adapter_node_id_known maps node kx).
  unfold adapter_node_id. by rewrite Hx.
Qed.

Lemma parent_of_known maps node x p : parent_of maps x p → p ∈ known_ids maps node.
Proof.
  unfold parent_of, adapter_parent, mbind, result_bind. destruct (adapter_node_key maps x); [|done].
  destruct (list_find _ _) as [[i k]|]; [|done].
  destruct (adapter_node_id maps k.1.1) eqn:Hi; [|done]. intros [= <-]. by eapply adapter_node_id_known.
Qed.

Lemma descendants_spec maps node :
  ∃ ds, descendants maps node = Some ds ∧ NoDup ds ∧
    (∀ x, x ∈ ds ↔ x ≠ node ∧ tc (child_of maps) node x) ∧
    (∀ i x, ds !! i = Some x → ∃ p, p ∈ node :: take i ds ∧ child_of maps p x) ∧
    ∃ seen, dfs (children_or_nil maps) {[node]} (children_or_nil maps node) ds seen.
Proof.
  unfold descendants. destruct (adapter_children maps node) as [cs|e] eqn:Hcs.
  - assert (Hcn : children_or_nil maps node = cs) by (unfold children_or_nil; by rewrite Hcs).
    destruct (preorder_loop_total (children_or_nil maps) (known_ids maps node)
      (dfs_fuel (children_or_nil maps) (known_ids maps node)) cs {[node]} []) as [ds Hds].
    + apply NoDup_remove_dups.
    + intros x Hx. apply (child_of_known maps node node). exists cs. done.
    + intros x y Hxy%child_rel_of. by apply (child_of_known maps node x).
    + unfold dfs_fuel. rewrite (white_work_insert _ _ ∅ node Black).
      * rewrite Hcn. rewrite gset_to_gmap_singleton, insert_empty. lia.
      * apply NoDup_remove_dups.
      * apply (proj2 (elem_of_remove_dups _ _)). by left.
      * done.
      * done.
    + exists ds. split; [done|]. rewrite <-Hcn in Hds.
      destruct (preorder_loop_dfs _ _ _ _ _ _ Hds) as (o & seen & Hdfs & Ho). cbn in Ho. subst o.
      destruct (preorder_loop_inv _ _ _ _ _ _ _ (preorder_start _ node) Hds) as [v Hinv].
      destruct (preorder_result _ _ _ _ Hinv) as [Hnd Hel]. split; [done|]. split.
      * intros x. rewrite Hel. split; intros [? Ht]; (split; [done|]);
          (eapply tc_congruence with (f := id); [|exact Ht]); intros ??; apply child_rel_of.
      * split; [|eauto]. intros i x Hx.
        destruct (pi_order _ _ _ _ _ Hinv i x Hx) as (p & ? & ?%child_rel_of). eauto.
  - exists []. split; [done|]. split; [constructor|].
    split; [|split; [done|exists {[node]}; unfold children_or_nil; rewrite Hcs; constructor]].
    intros x. split; [by intros ?%not_elem_of_nil|]. intros [_ (y & (cs & Hc & _) & _)%tc_rtc_iff]. congruence.
Qed.

Lemma ancestors_spec maps node :
  ∃ as_, ancestors maps node = Some as_ ∧ NoDup as_ ∧
    (∀ x, x ∈ as_ ↔ x ≠ node ∧ tc (parent_of maps) node x) ∧
    ∀ i x, as_ !! i = Some x → ∃ p, (node :: as_) !! i = Some p ∧ parent_of maps p x.
Proof.
  unfold ancestors.
  destruct (chain_loop_total (parent_or_none maps) (list_to_set (known_ids maps node))
    (S (length (known_ids maps node))) node {[node]} []) as [r Hr].
  - intros x y Hxy. apply elem_of_list_to_set. apply (parent_of_known maps node x). by apply next_rel_of.
  - apply Nat.lt_succ_r. rewrite <-(size_list_to_set (C := gset NodeId)) by apply NoDup_remove_dups.
    apply subseteq_size. set_solver.
  - exists r. split; [done|].
    assert (Hst : chain_inv (parent_or_none maps) node node {[node]} []).
    { split; [set_solver|apply NoDup_singleton|done|done]. }
    destruct (chain_loop_inv _ _ _ _ _ _ _ Hst Hr) as (cur & v & Hinv & Hend).
    split; [by apply (ci_nodup _ _ _ _ _ Hinv) || (pose proof (ci_nodup _ _ _ _ _ Hinv) as [_ ?]%NoDup_cons; done)|].
    split.
    + intros x. rewrite (chain_result _ _ _ _ _ Hinv Hend). split; intros [? Ht]; (split; [done|]);
        (eapply tc_congruence with (f := id); [|exact Ht]); intros ??; apply next_rel_of.
    + intros i x Hx. destruct (ci_step _ _ _ _ _ Hinv i x Hx) as (p & ? & ?). exists p.
      split; [done|]. by apply next_rel_of.
Qed.

(** The children met by a walk: the children of a node, none where the lookup
    fails. *)
Definition child_dfs maps := dfs (children_or_nil maps).

(** C37: both traversals return on any maps, corrupted ones included.
    [descendants] is the depth-first pre-order of the node: exactly the list of
    the recursive walk [dfs] of its children (in the order [children] gives
    them), in which every node is followed by the walk of its own children
    before its next sibling; it lists, once each, exactly the other nodes
    reachable along child edges.  [ancestors] lists, once each and each the
    parent of the one before, exactly the other nodes up the parent chain. *)
Theorem tree_traversals_correct maps node :
  ∃ ds as_, descendants maps node = Some ds ∧ ancestors maps node = Some as_ ∧
    NoDup ds ∧ NoDup as_ ∧
    (∃ seen, child_dfs maps {[node]} (children_or_nil maps node) ds seen) ∧
    (∀ out seen, child_dfs maps {[node]} (children_or_nil maps node) out seen → out = ds) ∧
    (∀ x, x ∈ ds ↔ x ≠ node ∧ tc (child_of maps) node x) ∧
    (∀ i x, ds !! i = Some x → ∃ p, p ∈ node :: take i ds ∧ child_of maps p x) ∧
    (∀ x, x ∈ as_ ↔ x ≠ node ∧ tc (parent_of maps) node x) ∧
    (∀ i x, as_ !! i = Some x → ∃ p, (node :: as_) !! i = Some p ∧ parent_of maps p x).
Proof.
  destruct (descendants_spec maps node) as (ds & ?&?&?&?& seen & Hd).
  destruct (ancestors_spec maps node) as (as_ & ?&?&?&?). exists ds, as_.
  do 4 (split; [done|]). split; [by exists seen|].
  split; [intros out s2 Hd2; by apply (dfs_functional _ _ _ _ _ _ _ Hd2 Hd)|]. done.
Qed.

(** Maps that hold a forest: bijective, tree edges between known nodes, one
    parent at most. *)
Record forest maps : Prop := {
  fo_nodes : nodes_bijective maps;
  fo_known s d : is_Some (edge_id_map maps !! (s, d, TREE_EDGE_LABEL)) →
    is_Some (node_id_map maps !! s) ∧ is_Some (node_id_map maps !! d);
  fo_unique s s' d : is_Some (edge_id_map maps !! (s, d, TREE_EDGE_LABEL)) →
    is_Some (edge_id_map maps !! (s', d, TREE_EDGE_LABEL)) → s = s'
}.

(** The tree edges between the ids the maps name. *)
Definition tree_edge maps p x : Prop :=
  ∃ kp kx, node_id_map maps !! kp = Some p ∧ node_id_map maps !! kx = Some x ∧
    is_Some (edge_id_map maps !! (kp, kx, TREE_EDGE_LABEL)).

Lemma child_of_tree_edge maps p x : forest maps → child_of maps p x ↔ tree_edge maps p x.
Proof.
  intros [Hb _ _]. rewrite child_of_spec. unfold tree_edge.
  split; intros (kp & kx & Hp & ? & ?); exists kp, kx; (split; [by apply Hb|done]).
Qed.

Lemma parent_of_tree_edge maps p x : forest maps → parent_of maps x p ↔ tree_edge maps p x.
Proof.
  intros [Hb Hk Hu]. unfold parent_of, adapter_parent, adapter_node_key, adapter_node_id, mbind, result_bind.
  split.
  - destruct (node_key_map maps !! x) as [kx|] eqn:Hx; cbn [ok_or]; [|done].
    destruct (list_find _ _) as [[i [[s d] l]]|] eqn:Hf; [|done].
    apply list_find_Some in Hf as (Hi & [Hl Hd] & _). cbn in *. subst.
    destruct (node_id_map maps !! s) eqn:Hs; cbn [ok_or]; [|done]. intros [= <-].
    exists s, kx. split; [done|]. split; [by apply Hb|]. apply list_elem_of_lookup_2 in Hi.
    by apply elem_of_dom, set_iter_elem.
  - intros (kp & kx & Hp & Hx & He). rewrite (proj1 (Hb _ _) Hx). cbn [ok_or].
    destruct (list_find (is_tree_edge_to kx) (edge_keys maps)) as [[i [[s d] l]]|] eqn:Hf.
    + apply list_find_Some in Hf as (Hi & [Hl Hd] & _). cbn in Hl, Hd. subst.
      apply list_elem_of_lookup_2, set_iter_elem, elem_of_dom in Hi.
      rewrite (Hu _ _ _ Hi He). cbn. by rewrite Hp.
    + apply list_find_None in Hf. rewrite Forall_forall in Hf. exfalso.
      apply (Hf (kp, kx, TREE_EDGE_LABEL)); [|done]. by apply set_iter_elem, elem_of_dom.
Qed.

(** On maps that hold a forest, parent and children are the two ends of the
    same edges and the two traversals are dual: one node is an ancestor of
    another exactly when that one is a descendant of it, which is a path of tree
    edges; the view of a node shows its parent and its children. *)
Lemma ancestors_descendants_dual maps x y (Hf : forest maps) :
  (parent_of maps x y ↔ tree_edge maps y x) ∧ (child_of maps y x ↔ tree_edge maps y x) ∧
  (∀ v, adapter_view maps x = Ok v →
     tn_id v = x ∧ (∀ p, tn_parent v = Some p ↔ tree_edge maps p x) ∧
     (∀ c, c ∈ tn_children v ↔ tree_edge maps x c)) ∧
  ∃ ds as_, descendants maps y = Some ds ∧ ancestors maps x = Some as_ ∧
    (y ∈ as_ ↔ x ∈ ds) ∧ (x ∈ ds ↔ x ≠ y ∧ tc (tree_edge maps) y x).
Proof.
  split; [by apply parent_of_tree_edge|]. split; [by apply child_of_tree_edge|]. split.
  - intros v. unfold adapter_view, mbind, result_bind.
    destruct (adapter_parent maps x) as [q|] eqn:Hq; [|done].
    destruct (adapter_children maps x) as [cs|] eqn:Hcs; [|done]. intros [= <-]. cbn.
    split; [done|]. split.
    + intros p. rewrite <-parent_of_tree_edge by done. unfold parent_of. rewrite Hq. naive_solver.
    + intros c. rewrite <-child_of_tree_edge by done. unfold child_of. rewrite Hcs.
      split; [eauto|]. by intros (? & [= <-] & ?).
  - destruct (descendants_spec maps y) as (ds & Hds & _ & Hd & _).
    destruct (ancestors_spec maps x) as (as_ & Has & _ & Ha & _).
    exists ds, as_. split; [done|]. split; [done|].
    assert (Htc : tc (child_of maps) y x ↔ tc (tree_edge maps) y x).
    { split; intros Ht; (eapply tc_congruence with (f := id); [|exact Ht]); intros ??; by apply child_of_tree_edge. }
    assert (Htp : tc (parent_of maps) x y ↔ tc (tree_edge maps) y x).
    { rewrite <-(tc_flip_iff (parent_of maps)).
      split; intros Ht; (eapply tc_congruence with (f := id); [|exact Ht]); intros ??; by apply parent_of_tree_edge. }
    rewrite Hd, Ha, Htc, Htp. split; [|done]. split; intros [? ?]; by split.
Qed.
End properties.

(** root - a - b, with an unrelated edge. *)
Definition sample_tree : BridgeMaps :=
  let m := BridgeMaps_insert_node BridgeMaps_new "root" (mkNodeId 1) in
  let m := BridgeMaps_insert_node m "a" (mkNodeId 2) in
  let m := BridgeMaps_insert_node m "b" (mkNodeId 3) in
  let m := BridgeMaps_insert_edge m ("root", "a", TREE_EDGE_LABEL)%string (mkEdgeId 1) in
  let m := BridgeMaps_insert_edge m ("a", "b", TREE_EDGE_LABEL)%string (mkEdgeId 2) in
  BridgeMaps_insert_edge m ("root", "b", "LINK")%string (mkEdgeId 3).

Lemma sample_tree_edges s d :
  is_Some (edge_id_map sample_tree !! (s, d, TREE_EDGE_LABEL)) →
  (s, d) = ("root", "a")%string ∨ (s, d) = ("a", "b")%string.
Proof.
  unfold sample_tree. cbn [edge_id_map BridgeMaps_insert_edge BridgeMaps_insert_node BridgeMaps_new].
  rewrite !lookup_insert_is_Some, lookup_empty. intros [He|[_ [He|[_ [He|[_ [? ?]]]]]]]; simplify_eq; auto.
Qed.

Lemma sample_tree_forest : forest sample_tree.
Proof.
  split.
  - unfold nodes_bijective, sample_tree. cbn [node_id_map node_key_map BridgeMaps_insert_edge BridgeMaps_insert_node].
    repeat (apply inverse_maps_insert; [|reflexivity|reflexivity]). apply inverse_maps_empty.
  - intros s d [?|?]%sample_tree_edges; simplify_eq; split; eexists; vm_compute; reflexivity.
  - intros s s' d [?|?]%sample_tree_edges [?|?]%sample_tree_edges; by simplify_eq.
Qed.

Lemma ancestors_descendants_dual_witness :
  descendants sample_tree (mkNodeId 1) = Some [mkNodeId 2; mkNodeId 3] ∧
  ancestors sample_tree (mkNodeId 3) = Some [mkNodeId 2; mkNodeId 1] ∧
  tc (tree_edge sample_tree) (mkNodeId 1) (mkNodeId 3).
Proof.
  destruct (ancestors_descendants_dual sample_tree (mkNodeId 3) (mkNodeId 1) sample_tree_forest)
    as (_ & _ & _ & ds & as_ & Hds & Has & _ & Htc).
  assert (Hd : descendants sample_tree (mkNodeId 1) = Some [mkNodeId 2; mkNodeId 3]) by (vm_compute; reflexivity).
  assert (Ha : ancestors sample_tree (mkNodeId 3) = Some [mkNodeId 2; mkNodeId 1]) by (vm_compute; reflexivity).
  split; [done|]. split; [done|]. apply Htc. rewrite Hd in Hds. injection Hds as <-.
  right. by left.
Defined.
