(* ===== verification/FuzzOracles.v ===== *)
(** * The fuzzer's oracles that run a component ([fuzz/fuzz_targets/consistency.rs])

    Beside the oracles of [Fuzz.v], which look at what the loop left, these run
    a component again: hydration (I3c, I9), an engine (I5), a write that is read
    back (I6, I10), the snapshot of a checkpoint (I7), the presence envelope
    (I15).  Their [expect]s are panics like their assertions.  Each theorem says
    under which behaviour of the foreign code the oracle stays silent. *)

From S2P Require Import Prelude Types Values BridgeMaps GrafeoTx GraphSpec MemGraph Batcher BatcherSpec EdgeKeys Translate Queue SyncEngine EngineSpec FuzzCorpus Fuzz TreeMove Compression Hydration Vector App Presence.
From Stdlib Require Import SpecFloat.

(** What the oracles read of a session and of a database. *)
Class GrafeoRead (D S : Type) : Type := {
  get_node_property : S → NodeId → string → option GrafeoValue;
  node_count : D → nat;
  edge_count : D → nat
}.

Class GrafeoReadLaws (D S : Type) `{GrafeoLaws S, !GrafeoRead D S} : Prop :=
  get_node_property_law s id k :
    get_node_property s id k = (view_nodes s !! id) ≫= λ r, nr_props r !! k.

(** Reads of a session pinned to an epoch: what the database had committed then. *)
Class GrafeoTimeTravel (D : Type) : Type := {
  get_node_property_at : D → EpochId → NodeId → string → option GrafeoValue
}.

Class GrafeoTimeTravelLaws (D S : Type) `{GrafeoDBLaws D S, !GrafeoTimeTravel D} : Prop :=
  commit_at_law s d e d' :
    session_of d s → commit s d = (Ok e, d') →
    (∀ id k, get_node_property_at d' e id k = view_nodes s !! id ≫= λ r, nr_props r !! k) ∧
    ∀ e0 id k, (e0 < e)%Z → get_node_property_at d' e0 id k = get_node_property_at d e0 id k.

(** [Result::expect] and [Option::expect]. *)
Definition expect {E A} (r : result E A) (msg : string) : Run A := map_err (λ _, msg) r.

Section oracles.
  Context {D S L : Type} `{GrafeoSession S, !GrafeoDB D S, !GrafeoOpen D, !GrafeoRead D S, !GrafeoCdc S,
    !LoroDoc L, !MergeableDoc L, !LoroHydrate L, !LoroSnapshot L, HashOrder}.

(** ** Hydration: I3c and I9 *)

Definition check_i3c_no_panic_in_parallel_hydrate `{ParOrder} (f : FuzzRun D L) : Run unit :=
  let '(result, st) := parallel_hydrate_grafeo (fz_doc f) (mkHydrateState (new_in_memory : D) BridgeMaps_new) in
  _ ← assert (is_ok result) "I3c: parallel_hydrate_grafeo returned Err (non-panic failure)";
  assert (bool_decide (node_count (hs_db st) = size (live_node_keys f))) "I3c: hydration node count mismatch".

(** The two runs have schedules of their own. *)
Definition check_i9_hydration_determinism (p1 p2 : ParOrder) (doc : L) : Run unit :=
  let '(r1, st1) := parallel_hydrate_grafeo (H1 := p1) doc (mkHydrateState (new_in_memory : D) BridgeMaps_new) in
  _ ← expect r1 "I9: first parallel_hydrate_grafeo failed";
  let '(r2, st2) := parallel_hydrate_grafeo (H1 := p2) doc (mkHydrateState (new_in_memory : D) BridgeMaps_new) in
  _ ← expect r2 "I9: second parallel_hydrate_grafeo failed";
  _ ← assert (bool_decide (node_count (hs_db st1) = node_count (hs_db st2)))
        "I9: hydration determinism violated - node_count";
  _ ← assert (bool_decide (edge_count (hs_db st1) = edge_count (hs_db st2)))
        "I9: hydration determinism violated - edge_count";
  assert (bool_decide (size (node_id_map (hs_maps st1)) = size (node_id_map (hs_maps st2))))
    "I9: hydration determinism violated - BridgeMaps node_id_map len differs".

(** ** The origin filter: I5 *)

Definition check_i5_origin_filter_symmetry : Run unit :=
  let engine := SyncEngine_new (new_in_memory : D) (doc_new : L) in
  let filtered_before := inbound_filtered_count engine in
  let events_before := inbound_event_count engine in
  let doc := loro_set_next_commit_origin ORIGIN_GRAFEO_BRIDGE (loro_doc engine) in
  let doc := (ensure_mergeable_map ROOT_VERTICES "V/i5-test" doc).2 in
  let engine := commit_doc false (set_doc doc engine) in
  _ ← assert (inbound_filtered_count engine =? u64_add filtered_before 1)%Z "I5: origin filter did not fire";
  assert (inbound_event_count engine =? events_before)%Z "I5: origin-filtered op was forwarded to batcher".

(** ** Writes that are read back: I6, I10 and I12 *)

(** The write the three begin with. *)
Definition write_node (tag key prop : string) (value : GraphValue) (db : D) (maps : BridgeMaps) :
    Run (EpochId * D * BridgeMaps) :=
  let '(r, s) := begin_transaction (session_with_cdc db false) in
  _ ← expect r (tag +:+ ": begin_transaction failed");
  let '(r, tx) := apply_loro_op (UpsertNode key ["Test"] {[prop := value]}) (mkTxState s maps) in
  _ ← expect r (tag +:+ ": apply_loro_op failed");
  let '(r, s) := prepare_commit (tx_session tx) in
  _ ← expect r (tag +:+ ": prepare_commit failed");
  let '(r, db) := commit s db in
  epoch ← expect r (tag +:+ ": commit failed");
  Ok (epoch, db, tx_maps tx).

Definition check_i6_ryow (db : D) (maps : BridgeMaps) : Run (D * BridgeMaps) :=
  '(_, db, maps) ← write_node "I6" "V/i6-ryow-test" "text" (GraphValue_String "hello-ryow") db maps;
  node_id ← ok_or (node_id_map maps !! "V/i6-ryow-test") "I6: BridgeMaps missing node after commit";
  prop ← ok_or (get_node_property (session db) node_id "text") "I6: get_node_property returned None after commit";
  _ ← assert (match prop with GV_String s => bool_decide (s = "hello-ryow"%string) | _ => false end) "I6: RYOW violated";
  Ok (db, maps).

Definition check_i10_vector_offload_bypass (db : D) (maps : BridgeMaps) : Run (D * BridgeMaps) :=
  '(_, db, maps) ← write_node "I10" "V/i10-vec-test" "text" (GraphValue_String "sample text for embedding") db maps;
  node_id ← ok_or (node_id_map maps !! "V/i10-vec-test") "I10: BridgeMaps missing node";
  let '(r, db) := handle_text_update node_id "sample text for embedding" db in
  _ ← expect r "I10: handle_text_update failed";
  let embedding := get_node_property (session db) node_id EMBEDDING_PROPERTY in
  _ ← assert (bool_decide (is_Some embedding)) "I10: VectorOffloadManager did not write embedding to Grafeo";
  _ ← assert (match embedding with Some (GV_Vector _) => true | _ => false end) "I10: embedding property is not a Vector";
  Ok (db, maps).

(** The session that reads is pinned to the first epoch, then released. *)
Definition check_i12_mvcc_snapshot_isolation `{!GrafeoTimeTravel D} (db : D) (maps : BridgeMaps) :
    Run (D * BridgeMaps) :=
  '(e1, db, maps) ← write_node "I12" "V/i12-snap-test" "v" (GraphValue_Integer 1) db maps;
  let '(r, w2) := begin_transaction (session_with_cdc db false) in
  _ ← expect r "I12: begin_transaction (write 2) failed";
  node_id ← ok_or (node_id_map maps !! "V/i12-snap-test") "I12: BridgeMaps missing node after write 1";
  let '(r, w2) := set_node_property node_id "v" (GV_Int64 2) w2 in
  _ ← expect r "I12: set_node_property (write 2) failed";
  let '(r, w2) := prepare_commit w2 in
  _ ← expect r "I12: prepare_commit (write 2) failed";
  let '(r, db) := commit w2 db in
  e2 ← expect r "I12: commit (write 2) failed";
  _ ← assert (e1 <? e2)%Z "I12: epoch did not advance";
  let v_at_e1 := get_node_property_at db e1 node_id "v" in
  _ ← assert (match v_at_e1 with Some (GV_Int64 n) => (n =? 1)%Z | _ => false end) "I12: snapshot isolation violated";
  let v_now := get_node_property (session db) node_id "v" in
  _ ← assert (match v_now with Some (GV_Int64 n) => (n =? 2)%Z | _ => false end) "I12: post-clear read";
  Ok (db, maps).

(** ** The snapshot: I7 *)

Definition check_i7_snapshot_idempotency `{Codecs} (doc : L) (compression : CompressionType) : Run unit :=
  snapshot_bytes ← expect (export_shallow_snapshot (oplog_frontiers doc) doc) "I7: LoroDoc::export failed";
  wire1 ← expect (CompressedPayload_compress_to_wire snapshot_bytes compression) "I7: compress_to_wire (1st call) failed";
  wire2 ← expect (CompressedPayload_compress_to_wire snapshot_bytes compression) "I7: compress_to_wire (2nd call) failed";
  assert (bool_decide (wire1 = wire2)) "I7: snapshot idempotency violated".
End oracles.

(** ** The presence envelope: I15 *)

Definition payload_eqb (p q : PresencePayload) : bool :=
  bool_decide (pp_peer_id p = pp_peer_id q) && bool_decide (pp_active_node p = pp_active_node q) &&
  SFeqb (pp_cursor_x p) (pp_cursor_x q) && SFeqb (pp_cursor_y p) (pp_cursor_y q) &&
  (pp_last_active_ts p =? pp_last_active_ts q)%Z.

(** [expect_err] and the match on the variant. *)
Definition expect_invalid {A} (r : Result A) (accepted wrong : string) : Run unit :=
  match r with
  | Ok _ => Err accepted
  | Err (EInvalidEnvelope _) => Ok tt
  | Err _ => Err wrong
  end.

Definition bad_json : string := "not valid json {{{".

Definition check_i15_presence_envelope_integrity `{SerdeJson} (payload : PresencePayload) : Run unit :=
  let room := "V/i15-roundtrip-test"%string in
  envelope_bytes ← expect (build_eph_envelope room payload) "I15: build_eph_envelope failed";
  decoded ← expect (parse_eph_envelope envelope_bytes) "I15: parse_eph_envelope failed";
  _ ← assert (bool_decide (room_id decoded = room)) "I15: room_id round-trip mismatch";
  _ ← assert (payload_eqb (Presence.payload decoded) payload) "I15: payload round-trip mismatch";
  let bad_magic := string_bytes "XXXX" ++ drop (length EPH_MAGIC) envelope_bytes in
  _ ← expect_invalid (parse_eph_envelope bad_magic) "I15: parse_eph_envelope accepted bad magic"
        "I15: bad-magic rejection returned wrong error variant";
  _ ← expect_invalid (parse_eph_envelope EPH_MAGIC) "I15: parse_eph_envelope accepted magic-only buffer"
        "I15: truncation rejection returned wrong error variant";
  let bad_serde := EPH_MAGIC ++ to_le_bytes 2 (Z.of_nat (length (string_bytes room))) ++ string_bytes room
                     ++ [x01] ++ string_bytes bad_json in
  expect_invalid (parse_eph_envelope bad_serde) "I15: parse_eph_envelope accepted invalid JSON payload"
    "I15: bad-serde rejection returned wrong error variant".

(** A parse that does not succeed is the error the oracle expects. *)
Lemma expect_invalid_silent `{SerdeJson} b m1 m2 :
  (∀ env, parse_eph_envelope b ≠ Ok env) → expect_invalid (parse_eph_envelope b) m1 m2 = Ok tt.
Proof.
  intros Hno. unfold expect_invalid. destruct (parse_eph_envelope b) as [env|e] eqn:Hp; [by destruct (Hno env)|].
  by destruct (parse_Err _ _ Hp) as [msg ->].
Qed.

(** Cursors the JSON library reads back equal. *)
Definition cursors_reread `{SerdeJsonLaws} (p : PresencePayload) : bool :=
  SFeqb (json_reread (pp_cursor_x p)) (pp_cursor_x p) && SFeqb (json_reread (pp_cursor_y p)) (pp_cursor_y p).

(** I15 never fires on a payload whose cursors are finite and read back equal, if
    the JSON parser rejects what is not JSON. *)
Lemma presence_oracle_sound `{SerdeJsonLaws} (payload : PresencePayload) :
  finite_payload payload → cursors_reread payload = true → is_ok (json_from_slice (string_bytes bad_json)) = false →
  check_i15_presence_envelope_integrity payload = Ok tt.
Proof.
  intros Hp [Hx Hy]%andb_true_iff Hbad. unfold check_i15_presence_envelope_integrity. cbv zeta.
  set (room := "V/i15-roundtrip-test"%string).
  destruct (json_law _ Hp) as (json & Hto & Hfrom).
  assert (Hbuild : build_eph_envelope room payload = Ok (eph_frame (string_bytes room) json)).
  { unfold build_eph_envelope. rewrite Hto. reflexivity. }
  rewrite Hbuild. cbn [expect map_err mbind result_bind].
  assert (Hparse : parse_eph_envelope (eph_frame (string_bytes room) json) =
    Ok (mkEphEnvelope room (with_cursors json_reread payload))).
  { apply parse_eph_frame_iff. exists json. split; [done|]. split; [done|]. split; [vm_compute; reflexivity|done]. }
  rewrite Hparse. cbn [expect map_err mbind result_bind room_id Presence.payload].
  rewrite bool_decide_true by done. cbn [assert mbind result_bind].
  assert (He : payload_eqb (with_cursors json_reread payload) payload = true).
  { unfold payload_eqb. cbn. by rewrite !bool_decide_true, Hx, Hy, Z.eqb_refl by done. }
  rewrite He. cbn [assert mbind result_bind].
  rewrite (expect_invalid_silent (string_bytes "XXXX" ++ _)); cbn [mbind result_bind].
  2: { intros env (j & Hb & _)%parse_eph_frame_iff. apply (f_equal (take 4)) in Hb. by vm_compute in Hb. }
  rewrite (expect_invalid_silent EPH_MAGIC); cbn [mbind result_bind].
  2: { intros env (j & Hb & _)%parse_eph_frame_iff. apply (f_equal length) in Hb. unfold eph_frame in Hb.
       rewrite !length_app in Hb. cbn in Hb. lia. }
  apply expect_invalid_silent. intros env. revert Hbad.
  clear. destruct H as [to from]. vm_compute. by destruct (from _).
Qed.

(** ** I5 fires exactly when the filter does not *)

Lemma origin_oracle_sound {D S L : Type} `{GrafeoSession S, !GrafeoDB D S, !GrafeoOpen D, !GrafeoCdc S,
    !LoroDoc L, !MergeableDoc L, !LoroSnapshot L, HashOrder} (ev : DiffEvent) (doc' : L) :
  loro_commit (ensure_mergeable_map ROOT_VERTICES "V/i5-test"
                 (loro_set_next_commit_origin ORIGIN_GRAFEO_BRIDGE doc_new)).2 = ([ev], doc') →
  de_origin ev = ORIGIN_GRAFEO_BRIDGE →
  check_i5_origin_filter_symmetry (D := D) (L := L) = Ok tt.
Proof.
  intros Hc Ho. unfold check_i5_origin_filter_symmetry, commit_doc. cbn -[loro_commit]. rewrite Hc.
  cbn. unfold subscriber_handler. by rewrite Ho.
Qed.

(** ** I6, I10 and I12 read what they wrote *)

Section write_sound.
  Context {D S : Type} `{GrafeoDBLaws D S, !GrafeoNeighborLaws S, !GrafeoRead D S, !GrafeoReadLaws D S, HashOrder}.
  Notation coupled_db maps db := (coupled maps (db_nodes db) (db_edges db)).

(** The calls of the oracles are not refused. *)
Context (Hbegin : ∀ d : D, is_ok (begin_transaction (session_with_cdc d false)).1 = true).
Context (Happly : ∀ k ls ps (tx : TxState S), st_coupled tx → is_ok (apply_loro_op (UpsertNode k ls ps) tx).1 = true).
Context (Hprepare : ∀ s : S, is_ok (prepare_commit s).1 = true).
Context (Hcommit : ∀ (s : S) (d : D), session_of d s → is_ok (commit s d).1 = true).

(** A write binds its key to a live vertex that has the property, in the commit
    of its epoch. *)
Lemma write_node_sound tag key prop value (db : D) maps :
  coupled_db maps db →
  ∃ s e db' maps' id r, write_node tag key prop value db maps = Ok (e, db', maps') ∧ coupled_db maps' db' ∧
    session_of db s ∧ commit s db = (Ok e, db') ∧ view_nodes s !! id = Some r ∧
    node_id_map maps' !! key = Some id ∧ db_nodes db' !! id = Some r ∧
    nr_props r !! prop = Some (gval_to_grafeo_value value).
Proof.
  intros Hc. unfold write_node. pose proof (Hbegin db) as Hb.
  destruct (begin_transaction _) as [[[]|e] s] eqn:Hbeg; [|done]. clear Hb.
  pose proof (begin_law _ _ _ Hbeg) as [Hn He]. pose proof (so_begin db _ _ Hbeg) as Hso.
  set (op := UpsertNode key ["Test"] {[prop := value]}).
  assert (Hst : st_coupled (mkTxState s maps)) by (unfold st_coupled; cbn; by rewrite Hn, He).
  pose proof (apply_loro_op_refines op _ Hst I) as Hr. pose proof (Happly key ["Test"] {[prop := value]} _ Hst) as Ha.
  pose proof (apply_loro_op_session_of db op (mkTxState s maps) Hso) as Hso1. fold op in Ha.
  cbn -[apply_loro_op op]. fold op. destruct (apply_loro_op op _) as [[[]|e] tx]; [|done]. clear Ha.
  destruct Hr as [Hc1 Habs]. cbn -[prepare_commit commit] in *.
  pose proof (Hprepare (tx_session tx)) as Hp. destruct (prepare_commit _) as [[[]|e] s2] eqn:Hp2; [|done].
  pose proof (prepare_law _ _ Hp2) as [Hpn Hpe]. pose proof (so_prepare _ _ Hso1) as Hso2. rewrite Hp2 in Hso2.
  cbn -[commit] in *. pose proof (commit_law _ _ Hso2) as Hcl. pose proof (Hcommit _ _ Hso2) as Hok.
  destruct (commit s2 db) as [[ep|e] db'] eqn:Hcom; [|done]. cbn. destruct Hcl as (Hdn&Hde&_).
  assert (Hc' : coupled_db (tx_maps tx) db') by by rewrite Hdn, Hde, Hpn, Hpe.
  apply Ok_inj in Habs as Hab. unfold st_abs in Hab. rewrite <-Hpn, <-Hpe, <-Hdn, <-Hde in Hab.
  assert (Hk : ∃ r, abs_nodes (tx_maps tx) (db_nodes db') !! key = Some r ∧ nr_props r !! prop = Some (gval_to_grafeo_value value)).
  { apply (f_equal kg_nodes) in Hab. cbn in Hab. rewrite <-Hab, lookup_insert_eq. eexists. split; [done|].
    destruct (_ !! key); cbn; unfold conv_props; rewrite ?map_fmap_singleton.
    - by erewrite lookup_union_Some_l; [|apply lookup_singleton_eq].
    - by rewrite lookup_singleton_eq. }
  destruct Hk as (r & Hk & Ht). rewrite abs_nodes_lookup in Hk.
  destruct (node_id_map (tx_maps tx) !! key) as [id|] eqn:Hid; [|done]. cbn in Hk.
  exists s2, ep, db', (tx_maps tx), id, r. repeat (split; [done|]). split; [by rewrite <-Hk, Hdn|done].
Qed.

Lemma ryow_oracle_sound (db : D) maps :
  coupled_db maps db → ∃ db' maps', check_i6_ryow db maps = Ok (db', maps') ∧ coupled_db maps' db'.
Proof.
  intros Hc. unfold check_i6_ryow.
  destruct (write_node_sound "I6" "V/i6-ryow-test" "text" (GraphValue_String "hello-ryow") db maps Hc)
    as (s&e&db'&maps'&id&r&->&Hc'&_&_&_&Hid&Hr&Ht).
  exists db', maps'. split; [|done]. cbn. rewrite Hid. cbn.
  rewrite get_node_property_law, (proj1 (session_law db')), Hr. cbn. by rewrite Ht.
Qed.

Lemma vector_oracle_sound (db : D) maps :
  coupled_db maps db →
  (∀ id text (d d' : D) msg, handle_text_update id text d ≠ (Err (EGrafeo msg), d')) →
  ∃ db' maps', check_i10_vector_offload_bypass db maps = Ok (db', maps').
Proof.
  intros Hc Hno. unfold check_i10_vector_offload_bypass.
  destruct (write_node_sound "I10" "V/i10-vec-test" "text" (GraphValue_String "sample text for embedding") db maps Hc)
    as (s&e0&db'&maps'&id&r&->&Hc'&_&_&_&Hid&Hr&Ht).
  cbn -[handle_text_update]. rewrite Hid. cbn -[handle_text_update].
  destruct (text_update_correct id "sample text for embedding" db') as (v&_&Hu).
  destruct (handle_text_update _ _ db') as [[[]|e] d'] eqn:Hh.
  - destruct Hu as (r'&_&Hn&_). exists d', maps'. cbn.
    rewrite get_node_property_law, (proj1 (session_law d')), Hn, lookup_insert_eq. cbn. by rewrite lookup_insert_eq.
  - destruct Hu as (_&_&[[msg ->]|[Hx _]]); [by destruct (Hno _ _ _ _ _ Hh)|congruence].
Qed.

Lemma snapshot_oracle_sound `{!GrafeoTimeTravel D, !GrafeoTimeTravelLaws D S} (db : D) maps :
  coupled_db maps db →
  (∀ id k v (s : S), is_Some (view_nodes s !! id) → is_ok (set_node_property id k v s).1 = true) →
  ∃ db' maps', check_i12_mvcc_snapshot_isolation db maps = Ok (db', maps').
Proof.
  intros Hc Hset. unfold check_i12_mvcc_snapshot_isolation.
  destruct (write_node_sound "I12" "V/i12-snap-test" "v" (GraphValue_Integer 1) db maps Hc)
    as (s1&e1&db1&maps1&id&r&->&Hc1&Hso1&Hcom1&Hr1&Hid&Hr&Hv).
  cbn -[begin_transaction set_node_property prepare_commit commit]. rewrite Hid.
  pose proof (Hbegin db1) as Hb. destruct (begin_transaction _) as [[[]|e] w1] eqn:Hbeg; [|done].
  pose proof (begin_law _ _ _ Hbeg) as [Hn _]. pose proof (so_begin db1 _ _ Hbeg) as Hw.
  cbn -[set_node_property prepare_commit commit].
  pose proof (Hset id "v" (GV_Int64 2) w1 ltac:(rewrite Hn; eauto)) as Hs.
  pose proof (set_node_property_law id "v" (GV_Int64 2) w1) as Hsl.
  pose proof (so_set_node db1 id "v" (GV_Int64 2) w1 Hw) as Hw2.
  destruct (set_node_property _ _ _ _) as [[[]|e] w2]; [|done]. cbn -[prepare_commit commit] in *.
  destruct Hsl as (_&_&_&r'&_&Hvn).
  pose proof (Hprepare w2) as Hp. destruct (prepare_commit w2) as [[[]|e] w3] eqn:Hp2; [|done].
  pose proof (prepare_law _ _ Hp2) as [Hpn _]. pose proof (so_prepare _ _ Hw2) as Hw3. rewrite Hp2 in Hw3.
  cbn -[commit] in *. pose proof (commit_law _ _ Hw3) as Hcl. pose proof (Hcommit _ _ Hw3) as Hok.
  destruct (commit w3 db1) as [[e2|e] db2] eqn:Hcom2; [|done]. cbn. destruct Hcl as (Hdn&_&Hlt&_).
  pose proof (commit_law _ _ Hso1) as Hcl1. rewrite Hcom1 in Hcl1. destruct Hcl1 as (_&_&_&Hcur).
  rewrite Hcur in Hlt. rewrite (proj2 (Z.ltb_lt _ _) Hlt). cbn.
  destruct (commit_at_law _ _ _ _ Hso1 Hcom1) as [Hat _]. destruct (commit_at_law _ _ _ _ Hw3 Hcom2) as [_ Hold].
  rewrite (Hold _ _ _ Hlt), Hat, Hr1. cbn. rewrite Hv. cbn.
  rewrite get_node_property_law, (proj1 (session_law db2)), Hdn, Hpn, Hvn, lookup_insert_eq. cbn.
  rewrite lookup_insert_eq. cbn. by exists db2, maps1.
Qed.
End write_sound.
