(* ===== verification/FuzzTarget.v ===== *)
(** * The fuzzer's entry point ([fuzz/fuzz_targets/consistency.rs])

    [fuzz_target!] as a whole: the input is decoded, its operations are applied
    ([Fuzz.v]) and the oracles run, in the order and under the conditions of the
    code; the oracle I3b, which runs the batcher, is here.  The oracles from I3b
    on share the database and the id maps, which each of them changes. *)

From S2P Require Import Prelude Types Values BridgeMaps GrafeoTx GraphSpec MemGraph Batcher BatcherSpec EdgeKeys Translate Queue SyncEngine EngineSpec FuzzCorpus Fuzz TreeMove Graph Compression Hydration Vector App Presence FuzzOracles.
From Stdlib Require Import SpecFloat Ascii.

(** A run that may not return and may panic. *)
Notation Out A := (option (Run A)).

Definition out_bind {A B} (m : Out A) (k : A → Out B) : Out B :=
  match m with
  | Some (Ok a) => k a
  | Some (Err msg) => Some (Err msg)
  | None => None
  end.
Notation "x ←! m ; k" := (out_bind m (λ x, k))
  (at level 20, m at level 100, k at level 200, right associativity).
Notation "' x ←! m ; k" := (out_bind m (λ x, k))
  (at level 20, x pattern, m at level 100, k at level 200, right associativity, only parsing).

Definition when {A} (b : bool) (m : Out A) (otherwise : A) : Out A := if b then m else Some (Ok otherwise).

(** [seed as f32 / 100.0]. *)
Definition f32_of_u64 (z : Z) : f32 := binary_normalize 24 128 z 0 false.
Definition f32_hundred : f32 := f32_of_u64 100.

Definition fuzz_payload (seed : Z) : PresencePayload :=
  mkPresencePayload (mkPeerId seed)
    (if (seed mod 2 =? 0)%Z then Some ("V/" +:+ pretty (seed mod 100)%Z) else None)
    (SFdiv 24 128 (f32_of_u64 seed) f32_hundred)
    (SFdiv 24 128 (f32_of_u64 (Z.shiftr seed 32)) f32_hundred)
    seed.

Definition i3b_config : BatcherConfig := mkBatcherConfig 256 100 false false.

Section entry.
  Context {D S L : Type} `{GrafeoSession S, !GrafeoDB D S, !GrafeoOpen D, !GrafeoRead D S, !GrafeoCdc S,
    !LoroDoc L, !MergeableDoc L, !LoroHydrate L, !LoroSnapshot L, !HashOrder, !GrafeoTimeTravel D, !Codecs, !SerdeJson}.
  (** The derived decoder of [FuzzInput]; whether tokio builds the runtime of I3b;
      the branches of the batcher's loop that become ready when these operations
      wait in its channel, with the ends of its flushes; the schedules of the three
      parallel hydrations. *)
  Context (arbitrary : list byte → option FuzzInput).
  Context (i3b_runtime : result string unit).
  Context (i3b_sched : list LoroOp → list (BatcherEvent * result string JoinOutcome)).
  Context (p0 p1 p2 : ParOrder).

(** The batcher's task on a runtime of its own.  Joining a task that does not end
    does not return; of what the handle gives only a [JoinError] matters.  Dropping
    the runtime waits for the closures that are still running. *)
Definition check_i3b_no_panic_in_batcher_run (db : D) (maps : BridgeMaps) (ops : list FuzzOp) :
    Out (D * BridgeMaps) :=
  match i3b_runtime with
  | Err e => Some (Err ("I3b: tokio runtime construction failed: " +:+ e))
  | Ok _ =>
      match spawn_run i3b_config (i3b_sched (convert_fuzz_op <$> ops)) (MutationBatcher_new (mkFlushState db maps ∅)) with
      | (None, _) => None
      | (Some result, b) =>
          let fs := mb_fs (background_finish b) in
          match result with
          | Ok _ => Some (Ok (fs_db fs, fs_maps fs))
          | Err join_err => Some (Err ("I3b: MutationBatcher::run panicked — JoinError: " +:+ join_err))
          end
      end
  end.

Definition i7_compression (seed : Z) : CompressionType :=
  match (seed mod 3)%Z with 0%Z => CompressionType_None | 1%Z => Lz4 | _ => Zstd end.

Definition periodic (input : FuzzInput) (f : FuzzRun D L) : bool :=
  (0 <? op_count f)%Z && ((op_count f mod 1000 =? 0)%Z || (op_count f =? requested_ops input)%Z).

Definition is_multiple_of (z n : Z) : bool := (z mod n =? 0)%Z.

(** The oracles that only look at what the loop left. *)
Definition fuzz_looks (input : FuzzInput) (f : FuzzRun D L) : Run unit :=
  _ ← cheap_checks input f;
  _ ← check_i3c_no_panic_in_parallel_hydrate (H1 := p0) f;
  _ ← check_i15_presence_envelope_integrity (fuzz_payload (fi_seed input));
  if periodic input f then
    _ ← check_i7_snapshot_idempotency (fz_doc f) (i7_compression (fi_seed input));
    check_i9_hydration_determinism (D := D) p1 p2 (fz_doc f)
  else Ok tt.

(** The oracles that go on working on the database and the maps. *)
Definition fuzz_works (fuel : nat) (input : FuzzInput) (f : FuzzRun D L) : Out unit :=
  let seed := fi_seed input in
  '(db, maps) ←! when (op_count f <=? 100)%Z
    (check_i3b_no_panic_in_batcher_run (fz_db f) (fz_maps f) (take (Z.to_nat (op_count f)) (fi_ops input)))
    (fz_db f, fz_maps f);
  _ ←! when (is_multiple_of seed 8) (Some (check_i5_origin_filter_symmetry (D := D) (L := L))) tt;
  '(db, maps) ←! when (is_multiple_of seed 4) (Some (check_i6_ryow db maps)) (db, maps);
  _ ←! Some (check_i8_compression_round_trip seed);
  '(db, maps) ←! when (is_multiple_of seed 8) (Some (check_i10_vector_offload_bypass db maps)) (db, maps);
  '(db, maps) ←! Some (check_i12_mvcc_snapshot_isolation db maps);
  match last_tree_move f with
  | Some _ => check_i14_tree_move_serializability fuel db (hash_iter (node_id_map maps)).*2
  | None => Some (Ok tt)
  end.

Definition fuzz_run (fuel : nat) (input : FuzzInput) : Out unit :=
  f ←! Some (fuzz_apply (new_in_memory : D) (doc_new : L) input);
  _ ←! Some (fuzz_looks input f);
  fuzz_works fuel input f.

Definition fuzz_target (fuel : nat) (data : list byte) : Out unit :=
  match arbitrary data with
  | None => Some (Ok tt)
  | Some input => fuzz_run fuel input
  end.
End entry.

(** ** Which oracles can fire *)

(** The name a message starts with. *)
Fixpoint msg_tag (m : string) : string :=
  match m with
  | EmptyString => ""
  | String c m => if bool_decide (c = ":"%char) then "" else String c (msg_tag m)
  end.

Definition may_fire : list string := ["I2"; "I3c"; "I5"; "I6"; "I7"; "I9"; "I10"; "I12"; "I14"]%string.

(** A panic of [r] is one of these. *)
Definition only {A} (r : Run A) : Prop :=
  match r with Ok _ => True | Err msg => msg_tag msg ∈ may_fire end.

Lemma only_bind {A B} (r : Run A) (k : A → Run B) : only r → (∀ a, only (k a)) → only (r ≫= k).
Proof. destruct r; cbn; auto. Qed.

Lemma only_assert b msg : msg_tag msg ∈ may_fire → only (assert b msg).
Proof. by destruct b. Qed.

Lemma only_expect {E A} (r : result E A) msg : msg_tag msg ∈ may_fire → only (expect r msg).
Proof. by destruct r. Qed.

Lemma only_ok_or {A} (o : option A) msg : msg_tag msg ∈ may_fire → only (ok_or o msg).
Proof. by destruct o. Qed.

(** Walks down the binds of an oracle to its messages. *)
Ltac only_leaf := apply (bool_decide_unpack _); vm_compute; exact I.
Ltac only_tac :=
  repeat match goal with
  | |- only (Ok _) => exact I
  | |- only (_ ≫= _) => apply only_bind; [|intros ?]
  | |- only (assert _ _) => apply only_assert; only_leaf
  | |- only (expect _ _) => apply only_expect; only_leaf
  | |- only (ok_or _ _) => apply only_ok_or; only_leaf
  | |- only (match ?x with pair _ _ => _ end) => destruct x
  end.

Section sound.
  Context {D S L : Type} `{GrafeoDBLaws D S, !GrafeoNeighborLaws S, !GrafeoFreshIds D S, !GrafeoOpen D,
    !GrafeoRead D S, !GrafeoCdc S, !LoroDoc L, !MergeableDoc L, !LoroHydrate L, !LoroSnapshot L, !HashOrder,
    !GrafeoTimeTravel D, !Codecs, !CodecLaws, !SerdeJson, !SerdeJsonLaws}.
  Context (arbitrary : list byte → option FuzzInput).
  Context (i3b_runtime : result string unit).
  Context (i3b_sched : list LoroOp → list (BatcherEvent * result string JoinOutcome)).
  Context (p0 p1 p2 : ParOrder).

(** The database opens and prepares transactions and creates vertices, the
    codecs compress, the parser rejects what is not JSON, and tokio builds the
    runtime of I3b, starts its threads and delivers the broadcast in the end. *)
Context (Hbegin : ∀ d : D, is_ok (begin_transaction (session_with_cdc d false)).1 = true).
Context (Hcreate : ∀ labels props (s : S), is_ok (create_node_with_props labels props s).1 = true).
Context (Hprepare : ∀ s : S, is_ok (prepare_commit s).1 = true).
Context (Hcompress : ∀ b strategy, is_ok (CompressedPayload_compress b strategy) = true).
Context (Hjson : is_ok (json_from_slice (string_bytes bad_json)) = false).
Context (Hruntime : is_ok i3b_runtime = true).
Context (Hsched : ∀ ops, ∃ evs o, i3b_sched ops = prod_map id Ok <$> (evs ++ [(EvShutdown, o)])).

Lemma fuzz_apply_ok (input : FuzzInput) : ∃ f, fuzz_apply (new_in_memory : D) (doc_new : L) input = Ok f.
Proof.
  unfold fuzz_apply. generalize (fuzz_start (new_in_memory : D) (doc_new : L)) as f.
  induction (take _ _) as [|op ops IH]; intros f; [by eexists|]. cbn. unfold fuzz_step, fuzz_transaction.
  pose proof (Hbegin (fz_db f)) as Hb. destruct (begin_transaction _) as [[[]|e] s1]; [|done].
  destruct (apply_loro_op _ _) as [r tx]. destruct (prepare_commit _) as [[[]|e] s2];
    [destruct (commit _ _) as [[ep|e] d]|]; apply IH.
Qed.

Lemma i8_silent seed : check_i8_compression_round_trip seed = Ok tt.
Proof.
  assert (Hs : ∀ sample strategy, check_i8_strategy sample strategy = Ok tt).
  { intros sample strategy. unfold check_i8_strategy. pose proof (Hcompress sample strategy) as Hc.
    destruct (CompressedPayload_compress sample strategy) as [p|e] eqn:Hp; [|done]. cbn.
    assert (Hw : CompressedPayload_compress_to_wire sample strategy = Ok (CompressedPayload_to_wire p)).
    { unfold CompressedPayload_compress_to_wire. by rewrite Hp. }
    apply decompress_compress in Hw. unfold CompressedPayload_decompress_from_wire in Hw.
    rewrite (proj2 (proj1 (wire_format_exact _ p)) eq_refl) in Hw. cbn in Hw. rewrite Hw. cbn.
    by rewrite bool_decide_true. }
  unfold check_i8_compression_round_trip. cbn zeta. by rewrite !Hs.
Qed.

(** I3b always returns: the last branch leaves the loop. *)
Lemma run_shutdown cfg evs o (b : MutationBatcher D) :
  ∃ r, (run cfg (evs ++ [(EvShutdown, o)]) b).1 = Finished r.
Proof.
  revert b. induction evs as [|[ev o'] evs IH]; intros b; cbn -[run_iteration].
  - cbn. destruct (mb_buffer b); [by eexists|]. destruct (flush_inner _ _ _ _). by eexists.
  - destruct (run_iteration cfg o' ev b) as [[|r] b1]; [apply IH|by eexists].
Qed.

(** The panics of the closures end in an error of [run], its own code has none. *)
Lemma i3b_returns (db : D) maps ops :
  ∃ x, check_i3b_no_panic_in_batcher_run i3b_runtime i3b_sched db maps ops = Some (Ok x).
Proof.
  unfold check_i3b_no_panic_in_batcher_run. destruct i3b_runtime; [|done].
  destruct (Hsched (convert_fuzz_op <$> ops)) as (evs&o&->). unfold spawn_run. cbn [batch_ms i3b_config Z.eqb].
  rewrite run_task_run.
  destruct (run_shutdown i3b_config evs o (MutationBatcher_new (mkFlushState db maps ∅))) as [r Hr].
  destruct (run _ _ _) as [s b]. cbn in Hr. subst s. by eexists.
Qed.

Lemma write_node_only tag key prop value (db : D) maps :
  (∀ m, msg_tag (tag +:+ String ":" m) ∈ may_fire) → only (write_node tag key prop value db maps).
Proof.
  intros Ht. unfold write_node. cbv zeta.
  repeat match goal with
  | |- only (Ok _) => exact I
  | |- only (_ ≫= _) => apply only_bind; [|intros ?]
  | |- only (expect _ _) => apply only_expect, Ht
  | |- only (match ?x with pair _ _ => _ end) => destruct x
  end.
Qed.

Lemma tag_cut (t m : string) : t ∈ ["I6"; "I10"; "I12"]%string → msg_tag (t +:+ String ":" m) ∈ may_fire.
Proof.
  intros Ht. assert (Hm : msg_tag (t +:+ String ":" m) = t).
  { repeat (apply elem_of_cons in Ht as [->|Ht]; [reflexivity|]). by apply elem_of_nil in Ht. }
  rewrite Hm. clear m Hm. revert t Ht. apply (Forall_forall (λ t, t ∈ may_fire)).
  repeat constructor; only_leaf.
Qed.

Lemma i6_only (db : D) maps : only (check_i6_ryow db maps).
Proof.
  unfold check_i6_ryow. apply only_bind; [apply write_node_only; intros m; apply tag_cut; only_leaf|].
  intros [[e db1] maps1]. only_tac.
Qed.

Lemma i10_only (db : D) maps : only (check_i10_vector_offload_bypass db maps).
Proof.
  unfold check_i10_vector_offload_bypass.
  apply only_bind; [apply write_node_only; intros m; apply tag_cut; only_leaf|].
  intros [[e db1] maps1]. cbv zeta. only_tac.
Qed.

Lemma i12_only (db : D) maps : only (check_i12_mvcc_snapshot_isolation db maps).
Proof.
  unfold check_i12_mvcc_snapshot_isolation.
  apply only_bind; [apply write_node_only; intros m; apply tag_cut; only_leaf|].
  intros [[e db1] maps1]. cbv zeta. only_tac.
Qed.

Lemma i5_only : only (check_i5_origin_filter_symmetry (D := D) (L := L)).
Proof. unfold check_i5_origin_filter_symmetry. cbv zeta. only_tac. Qed.

(** The cursors made from the seed are finite, and the JSON library reads back the
    numbers it prints for them. *)
Definition i15_readable (input : FuzzInput) : Prop :=
  finite_payload (fuzz_payload (fi_seed input)) ∧ cursors_reread (fuzz_payload (fi_seed input)) = true.

(** The oracles that look: with the cheap ones settled, four are left. *)
Lemma looks_only (input : FuzzInput) (f : FuzzRun D L) :
  i15_readable input → fuzz_apply (new_in_memory : D) doc_new input = Ok f →
  only (fuzz_looks p0 p1 p2 input f).
Proof.
  intros [Hfin Hre] Hf. unfold fuzz_looks, cheap_checks.
  destruct (fuzz_oracles_sound Hcreate Hprepare _ _ _ _ Hf) as (->&->&->&->). cbn [mbind result_bind].
  unfold check_i2_edge_state_parity, check_i3c_no_panic_in_parallel_hydrate. only_tac.
  - by rewrite (presence_oracle_sound _ Hfin Hre Hjson).
  - destruct (periodic input f); [|exact I].
    unfold check_i7_snapshot_idempotency, check_i9_hydration_determinism. only_tac.
Qed.

(** ** Termination *)

Lemma i14_bfs_mono {A} `{Countable A} (children : A → list A) n m visited queue r :
  i14_bfs children n visited queue = Some r → n ≤ m → i14_bfs children m visited queue = Some r.
Proof.
  revert m visited queue. induction n as [|n IH]; intros m visited queue; cbn.
  { destruct queue; [|done]. by destruct m. }
  destruct m as [|m]; [lia|]. destruct queue as [|x queue]; cbn; [done|].
  case_bool_decide; [done|]. intros Hr Hle. apply IH; [done|lia].
Qed.

Lemma i14_roots_mono {A} `{Countable A} (children : A → list A) n m roots r :
  i14_roots children n roots = Some r → n ≤ m → i14_roots children m roots = Some r.
Proof.
  intros Hr Hle. induction roots as [|x roots IH]; cbn in *; [done|].
  destruct (i14_bfs children n ∅ [x]) as [b|] eqn:Hb; [|done].
  rewrite (i14_bfs_mono _ _ m _ _ _ Hb Hle). destruct b; [by apply IH|done].
Qed.

Lemma i14_roots_only {A} `{Countable A} (children : A → list A) n roots r :
  i14_roots children n roots = Some r → only r.
Proof.
  assert (Hb : ∀ v q m, i14_bfs children n v q = Some (Err m) → m = "I14: tree move serializability violated"%string).
  { induction n as [|n IH]; intros v q m; cbn; [by destruct q|]. destruct q; [done|].
    case_bool_decide; [congruence|]. apply IH. }
  induction roots as [|x roots IH]; cbn; [by intros [= <-]|].
  destruct (i14_bfs children n ∅ [x]) as [[|m]|] eqn:Hx; [done|intros [= <-]|done].
  cbn. rewrite (Hb _ _ _ Hx). only_leaf.
Qed.

Lemma i14_returns (db : D) ids :
  ∃ r, only r ∧ ∀ fuel, i14_fuel db ids ≤ fuel → check_i14_tree_move_serializability fuel db ids = Some r.
Proof.
  unfold check_i14_tree_move_serializability.
  set (children := λ node, (get_neighbors_outgoing_by_type (session db) node TREE_EDGE_LABEL).*1).
  set (univ := list_to_set ids ∪ map_to_set (λ _, er_dst) (view_edges (session db)) : gset NodeId).
  destruct (i14_roots_spec children univ (i14_fuel db ids) ids) as (r & Hr & _).
  - intros x y Hxy. unfold child_rel, children in Hxy.
    apply list_elem_of_fmap in Hxy as ([d e] & -> & (er & He & _ & _ & <-)%outgoing_law).
    unfold univ. apply elem_of_union. right. apply elem_of_map_to_set. by exists e, er.
  - intros x Hx. unfold univ. set_solver.
  - unfold i14_fuel. fold univ. lia.
  - exists r. split; [by eapply i14_roots_only|intros fuel Hle; by eapply i14_roots_mono].
Qed.

(** With enough fuel the run has one outcome. *)
Definition settles {A} (m : nat → Out A) : Prop :=
  ∃ n r, only r ∧ ∀ fuel, n ≤ fuel → m fuel = Some r.

Lemma settles_const {A} (r : Run A) : only r → settles (λ _, Some r).
Proof. by exists 0, r. Qed.

Lemma settles_bind {A B} (r : Run A) (k : A → nat → Out B) :
  only r → (∀ a, settles (k a)) → settles (λ fuel, x ←! Some r; k x fuel).
Proof. intros Hr Hk. destruct r as [a|msg]; [apply Hk|by apply settles_const]. Qed.

Lemma settles_when {A B} (b : bool) (r : Run A) (other : A) (k : A → nat → Out B) :
  only r → (∀ a, settles (k a)) → settles (λ fuel, x ←! when b (Some r) other; k x fuel).
Proof. intros Hr Hk. destruct b; [by apply settles_bind|apply Hk]. Qed.

Lemma works_settle (input : FuzzInput) (f : FuzzRun D L) :
  settles (λ fuel, fuzz_works i3b_runtime i3b_sched fuel input f).
Proof.
  unfold fuzz_works. cbv zeta.
  destruct (i3b_returns (fz_db f) (fz_maps f) (take (Z.to_nat (op_count f)) (fi_ops input))) as [x ->].
  apply settles_when; [exact I|]. intros [db1 maps1].
  apply settles_when; [apply i5_only|]. intros _.
  apply settles_when; [apply i6_only|]. intros [db2 maps2].
  apply settles_bind; [by rewrite i8_silent|]. intros _.
  apply settles_when; [apply i10_only|]. intros [db3 maps3].
  apply settles_bind; [apply i12_only|]. intros [db4 maps4].
  destruct (last_tree_move f); [|by apply settles_const].
  destruct (i14_returns db4 (hash_iter (node_id_map maps4)).*2) as (r&Hr&Hf). by exists (i14_fuel db4 (hash_iter (node_id_map maps4)).*2), r.
Qed.

(** Every run counts all requested operations, so the periodic oracles run
    whenever there is one. *)
Lemma periodic_always (input : FuzzInput) (f : FuzzRun D L) :
  check_i3a_no_panic_in_apply_loro_op f (requested_ops input) = Ok tt →
  periodic input f = (0 <? op_count f)%Z.
Proof.
  unfold check_i3a_no_panic_in_apply_loro_op, periodic. destruct (op_count f =? requested_ops input)%Z; [|done].
  intros _. by rewrite orb_true_r, andb_true_r.
Qed.

(** C27: the fuzzer's entry point returns, and seven of its oracles never decide.
    The assumptions are on the code around the bridge: the database opens and
    prepares transactions and creates vertices whenever asked, the codecs
    compress, the JSON parser rejects the sample of I15 that is not JSON, tokio
    builds the runtime of I3b, starts the threads of its flushes and delivers its
    broadcast, and the presence cursors made from the seed are finite numbers that
    the JSON library reads back as it printed them (I15 asserts so; [serde_json]
    does not promise it without its feature [float_roundtrip]).
    Then, on any bytes, whatever operations they decode to, however the batcher of
    I3b is scheduled and its flushes end (panics and timeouts included) and
    whatever order the parallel hydrations run in, the run ends, with enough fuel
    for the search of I14 in one and the same outcome; if it panics, the message
    is not one of I1, I3a, I3b, I4, I8, I11 or I15.  (Of the others, I2, I6 and I14
    do fire, see below; I3b does where a thread cannot be started.) *)
Theorem fuzz_target_sound (data : list byte)
  (Hcursors : ∀ input, arbitrary data = Some input → i15_readable input) :
  ∃ n r, (∀ fuel, n ≤ fuel → fuzz_target (D := D) (L := L) arbitrary i3b_runtime i3b_sched p0 p1 p2 fuel data = Some r) ∧
    match r with
    | Ok _ => True
    | Err msg => msg_tag msg ∈ may_fire ∧
        Forall (λ tag, msg_tag msg ≠ tag) ["I1"; "I3a"; "I3b"; "I4"; "I8"; "I11"; "I15"]%string
    end.
Proof.
  assert (Hs : settles (λ fuel, fuzz_target (D := D) (L := L) arbitrary i3b_runtime i3b_sched p0 p1 p2 fuel data)).
  { unfold fuzz_target. destruct (arbitrary data) as [input|] eqn:Ha; [|by apply settles_const].
    unfold fuzz_run. destruct (fuzz_apply_ok input) as [f Hf]. rewrite Hf. cbn [out_bind].
    apply settles_bind; [by apply looks_only; [apply Hcursors|]|]. intros _. apply works_settle. }
  destruct Hs as (n&r&Hr&Hf). exists n, r. split; [exact Hf|]. destruct r as [|msg]; [done|].
  split; [exact Hr|]. cbn in Hr. revert Hr. generalize (msg_tag msg). intros tag.
  apply (Forall_forall (λ tag, Forall (λ t, tag ≠ t) _)). by repeat (constructor; [repeat (constructor; [discriminate|]); constructor|]).
Qed.
End sound.

(** ** Concrete runs *)

(** The reference database with the graphs it had. *)
Record HistDb : Type := mkHistDb { hd_db : MemDb; hd_past : gmap Z MemGraph }.

#[export] Instance HistDb_db : GrafeoDB HistDb MemGraph := {|
  session d := session (hd_db d);
  session_with_cdc d c := session_with_cdc (hd_db d) c;
  begin_transaction := begin_transaction (D := MemDb);
  begin_transaction_serializable := begin_transaction_serializable (D := MemDb);
  prepare_commit := prepare_commit (D := MemDb);
  set_metadata := set_metadata (D := MemDb);
  commit s d :=
    let '(r, db) := commit s (hd_db d) in
    (r, mkHistDb db (<[current_epoch db := md_graph db]> (hd_past d)));
  current_epoch d := current_epoch (hd_db d)
|}.

#[export, refine] Instance HistDb_laws : GrafeoDBLaws HistDb MemGraph := {|
  db_nodes d := db_nodes (hd_db d);
  db_edges d := db_edges (hd_db d)
|}.
Proof.
  - by intros d c s [= <-].
  - done.
  - by intros d c s [= <-].
  - by intros s s' [= <-].
  - done.
  - intros d s _. cbn -[Z.of_nat]. split; [done|]. split; [done|]. lia.
  - intros d. apply (current_epoch_range (D := MemDb) (hd_db d)).
Defined.

#[export, refine] Instance HistDb_fresh : GrafeoFreshIds HistDb MemGraph := {|
  db_used_nodes d := db_used_nodes (hd_db d);
  db_used_edges d := db_used_edges (hd_db d)
|}.
Proof.
  - by intros d c s [= <-].
  - by intros s s' [= <-].
  - intros s d. cbn. split; set_solver.
Defined.

#[export] Instance HistDb_open : GrafeoOpen HistDb := {|
  with_config_persistent _ := Err "no such directory"%string;
  new_in_memory := mkHistDb memdb_new ∅
|}.

#[export] Instance HistDb_read : GrafeoRead HistDb MemGraph := {|
  get_node_property s id k := (view_nodes s !! id) ≫= λ r, nr_props r !! k;
  node_count d := size (db_nodes (hd_db d));
  edge_count d := size (db_edges (hd_db d))
|}.

#[export] Instance HistDb_read_laws : GrafeoReadLaws HistDb MemGraph.
Proof. done. Qed.

#[export] Instance HistDb_time_travel : GrafeoTimeTravel HistDb := {|
  get_node_property_at d e id k :=
    hd_past d !! e ≫= λ s, view_nodes s !! id ≫= λ r, nr_props r !! k
|}.

#[export] Instance HistDb_time_travel_laws : GrafeoTimeTravelLaws HistDb MemGraph.
Proof.
  intros s d e d' _. cbn -[Z.of_nat view_nodes]. intros [= <- <-]. cbn -[Z.of_nat view_nodes]. split.
  - intros id k. by rewrite lookup_insert_eq.
  - intros e0 id k Hlt. by rewrite lookup_insert_ne by lia.
Qed.

#[export] Instance SnapDoc_mergeable : MergeableDoc SnapDoc := {|
  ensure_mergeable_map root key l :=
    if decide (root = ROOT_VERTICES) then
      match sn_vertices l !! key with
      | Some _ => (Ok tt, l)
      | None => (Ok tt, mkSnapDoc (<[key := ([], ∅)]> (sn_vertices l)))
      end
    else (Ok tt, l)
|}.

Section samples.
  #[local] Existing Instance stored_codecs.
  #[local] Existing Instance stored_codecs_laws.
  #[local] Existing Instance bit_json.
  #[local] Existing Instance bit_json_laws.

(** Inputs as the corpus writes them; the batcher receives everything, then the
    broadcast. *)
Definition sample_arbitrary (data : list byte) : option FuzzInput :=
  (λ '(seed, ops, peers, bail), mkFuzzInput seed ops peers bail) <$> dec_input data.
Definition sample_sched (ops : list LoroOp) : list (BatcherEvent * result string JoinOutcome) :=
  prod_map id Ok <$> ((λ op, (EvRecv op, Joined)) <$> ops) ++ [(EvShutdown, Joined)].
Definition sample_target : list byte → Out unit :=
  fuzz_target (D := HistDb) (L := SnapDoc) sample_arbitrary (Ok tt) sample_sched reverse_order reverse_order reverse_order 100.

Lemma fuzz_target_sound_witness :
  ∃ n r, (∀ fuel, n ≤ fuel → fuzz_target (D := HistDb) (L := SnapDoc) sample_arbitrary (Ok tt) sample_sched
      reverse_order reverse_order reverse_order fuel seed_single_upsert = Some r) ∧
    sample_target seed_single_upsert = Some (Ok tt) ∧
    match r with Ok _ => True | Err msg => msg_tag msg ∈ may_fire end.
Proof.
  destruct (fuzz_target_sound (D := HistDb) (L := SnapDoc) sample_arbitrary (Ok tt) sample_sched
    reverse_order reverse_order reverse_order) with (data := seed_single_upsert) as (n&r&Hr&Hm).
  - intros d. reflexivity.
  - intros labels props s. reflexivity.
  - intros s. reflexivity.
  - intros b strategy. by destruct strategy.
  - vm_compute. reflexivity.
  - reflexivity.
  - intros ops. by eexists _, _.
  - intros input Hi. vm_compute in Hi. injection Hi as <-. vm_compute. by repeat split.
  - exists n, r. split; [exact Hr|]. split; [vm_compute; reflexivity|]. destruct r; [exact I|apply Hm].
Defined.

(** A panic of a flush closure is an error of the batcher, no panic of its task;
    a thread that cannot be started is. *)
Example i3b_fires :
  let check sched := check_i3b_no_panic_in_batcher_run (D := HistDb) (Ok tt) sched
    (mkHistDb memdb_new ∅) BridgeMaps_new [FuzzOp_UpsertNode "a" [] []] in
  is_ok (default (Err ""%string) (check (λ ops, ((λ op, (EvRecv op, Ok Joined)) <$> ops) ++ [(EvShutdown, Ok (Panicked 0 "boom"))]))) = true ∧
  msg_tag (match check (λ ops, ((λ op, (EvRecv op, Ok Joined)) <$> ops) ++ [(EvShutdown, Err "no thread"%string)]) with
           | Some (Err msg) => msg | _ => "" end) = "I3b"%string.
Proof. vm_compute. by split. Qed.

(** The seed [cycle_attempt] gets as far as I14. *)
Example target_fires_i14 :
  sample_target seed_cycle_attempt = Some (Err "I14: tree move serializability violated"%string).
Proof. vm_compute. reflexivity. Qed.

(** I6 fires on the bridge's rolled-back bindings.  The batcher of I3b, given the
    operations once more, binds the oracle's own key to a vertex of a batch that
    then fails on the stale binding of an edge; the oracle's write finds the
    binding and no vertex. *)
Example target_fires_i6 :
  let k := "V/i6-ryow-test"%string in
  let ops := [FuzzOp_UpsertNode k [] []; FuzzOp_UpsertNode "a" [] [];
              FuzzOp_UpsertEdge k "a" "L" [("p"%string, FuzzValue_I64 1)]; FuzzOp_DeleteNode k] in
  sample_target (enc_fuzz_input 4 ops 1 100) = Some (Err "I6: apply_loro_op failed"%string).
Proof. vm_compute. reflexivity. Qed.
End samples.
