(* ===== verification/Demo.v ===== *)
(** * The examples ([examples/wasm-offline-queue], [examples/minimal_outliner.rs])

    The demo page of the WASM classes, line by line into its log, and the edit
    of the outliner. *)

From S2P Require Import Prelude Types Values Queue Wasm EdgeKeys Translate MemGraph Batcher BatcherSpec SyncEngine EngineSpec Lifecycle.

Local Open Scope string_scope.

(** ** The offline queue in the browser *)

(** [JsValue::dyn_ref::<Object>], [as_string] and the [Debug] of a value. *)
Class JsText (J : JsSys) : Type := {
  is_object : JsValue → bool;
  as_string : JsValue → option string;
  JsValue_debug : JsValue → string
}.

Class JsTextLaws (J : JsSys) `{!JsSysLaws J, !JsText J} : Prop := {
  extensible_object o : extensible o → is_object o = true;
  as_string_string s : as_string (js_string s) = Some s
}.

(** Strings with [format!]'s placeholders filled in. *)
Definition show_bool (b : bool) : string := if b then "true" else "false".
Definition lf : string := String (Ascii.ascii_of_nat 10) "".

Section demo.
  Context `{J : JsSys, !JsText J}.

Definition js_error_to_string (e : JsValue) : string :=
  match (if is_object e then message ← Reflect_get e "message"; as_string message else None) with
  | Some s => s
  | None => JsValue_debug e
  end.

(** The body of the two arms of a handshake. *)
Definition handshake (epoch : EpochTracker) (remote : Z) (matched : string) (mismatched : JsValue → string) :
    option string :=
  match WasmEpochTracker_check_match epoch remote with
  | Some (Ok _) => Some matched
  | Some (Err e) => Some (mismatched e)
  | None => None
  end.

(** [None]: a panic.  The results of the three [enqueue]s are ignored. *)
Definition run_demo : option string :=
  let log := "=== grafeo-loro issue #4 demo ===" +:+ lf +:+ lf in
  let log := log +:+ "[1] Constructing WasmOfflineOpQueue with default 10 MB cap..." +:+ lf in
  let queue := WasmOfflineOpQueue_new in
  let log := log +:+ "    depth=" +:+ pretty (WasmOfflineOpQueue_depth queue) +:+
    ", bytesUsed=" +:+ pretty (WasmOfflineOpQueue_bytes_used queue) +:+
    ", capBytes=" +:+ pretty (WasmOfflineOpQueue_cap_bytes queue) +:+
    ", isEmpty=" +:+ show_bool (WasmOfflineOpQueue_is_empty queue) +:+ lf in
  let log := log +:+ "[2] Enqueueing 3 serialized LoroOps (simulated)..." +:+ lf in
  '(_, queue) ← WasmOfflineOpQueue_enqueue queue [x01; x02; x03];
  '(_, queue) ← WasmOfflineOpQueue_enqueue queue [x04; x05; x06];
  '(_, queue) ← WasmOfflineOpQueue_enqueue queue [x07; x08; x09; x0a];
  let log := log +:+ "    depth=" +:+ pretty (WasmOfflineOpQueue_depth queue) +:+
    ", bytesUsed=" +:+ pretty (WasmOfflineOpQueue_bytes_used queue) +:+
    ", isEmpty=" +:+ show_bool (WasmOfflineOpQueue_is_empty queue) +:+ lf in
  let log := log +:+ "[3] Bumping retry counter (simulating failed flush)..." +:+ lf in
  let '(r1, queue) := WasmOfflineOpQueue_retry_bump queue in
  let '(r2, queue) := WasmOfflineOpQueue_retry_bump queue in
  let log := log +:+ "    retryBump()=" +:+ pretty r1 +:+ ", retryBump()=" +:+ pretty r2 +:+
    ", retryCount=" +:+ pretty (WasmOfflineOpQueue_retry_count queue) +:+ lf in
  let log := log +:+ "[4] On reconnect: drain + flush (simulated)..." +:+ lf in
  let '(drained, queue) := WasmOfflineOpQueue_drain queue in
  let drained_len := length drained in
  let log := log +:+ "    drained " +:+ pretty drained_len +:+ " ops, depth=" +:+
    pretty (WasmOfflineOpQueue_depth queue) +:+
    ", bytesUsed=" +:+ pretty (WasmOfflineOpQueue_bytes_used queue) +:+ lf in
  let queue := WasmOfflineOpQueue_reset_retry queue in
  let log := log +:+ "    resetRetry(), retryCount=" +:+ pretty (WasmOfflineOpQueue_retry_count queue) +:+ lf in
  let log := log +:+ lf +:+ "[5] Constructing WasmEpochTracker..." +:+ lf in
  let epoch := WasmEpochTracker_new in
  let log := log +:+ "    current=" +:+ pretty (WasmEpochTracker_current epoch) +:+ lf in
  let log := log +:+ "[6] First sync handshake — remote advertises epoch 0..." +:+ lf in
  line ← handshake epoch 0 ("    ✅ match — proceed with sync" +:+ lf) (λ _, "    ❌ unexpected mismatch" +:+ lf);
  let log := log +:+ line in
  let log := log +:+ "[7] Server reset detected — remote now advertises epoch 1..." +:+ lf in
  line ← handshake epoch 1 ("    ❌ unexpected match" +:+ lf)
    (λ e, "    ✅ mismatch (expected): " +:+ js_error_to_string e +:+ lf);
  let log := log +:+ line in
  let log := log +:+ "[8] Wipe local cache + bump epoch..." +:+ lf in
  let '(new_epoch, epoch) := WasmEpochTracker_wipe epoch in
  let log := log +:+ "    wipe()=" +:+ pretty new_epoch +:+
    ", current=" +:+ pretty (WasmEpochTracker_current epoch) +:+ lf in
  let log := log +:+ "[9] Re-handshake — remote advertises epoch 1..." +:+ lf in
  line ← handshake epoch 1 ("    ✅ match — proceed with sync" +:+ lf) (λ _, "    ❌ unexpected mismatch" +:+ lf);
  let log := log +:+ line in
  Some (log +:+ lf +:+ "=== demo complete ===" +:+ lf).

(** The log on a page that works. *)
Definition demo_log : string :=
  "=== grafeo-loro issue #4 demo ===" +:+ lf +:+ lf +:+
  "[1] Constructing WasmOfflineOpQueue with default 10 MB cap..." +:+ lf +:+
  "    depth=0, bytesUsed=0, capBytes=10485760, isEmpty=true" +:+ lf +:+
  "[2] Enqueueing 3 serialized LoroOps (simulated)..." +:+ lf +:+
  "    depth=3, bytesUsed=10, isEmpty=false" +:+ lf +:+
  "[3] Bumping retry counter (simulating failed flush)..." +:+ lf +:+
  "    retryBump()=1, retryBump()=2, retryCount=2" +:+ lf +:+
  "[4] On reconnect: drain + flush (simulated)..." +:+ lf +:+
  "    drained 3 ops, depth=0, bytesUsed=0" +:+ lf +:+
  "    resetRetry(), retryCount=0" +:+ lf +:+ lf +:+
  "[5] Constructing WasmEpochTracker..." +:+ lf +:+
  "    current=0" +:+ lf +:+
  "[6] First sync handshake — remote advertises epoch 0..." +:+ lf +:+
  "    ✅ match — proceed with sync" +:+ lf +:+
  "[7] Server reset detected — remote now advertises epoch 1..." +:+ lf +:+
  "    ✅ mismatch (expected): lineage epoch mismatch: local=0 remote=1; client cache wipe required" +:+ lf +:+
  "[8] Wipe local cache + bump epoch..." +:+ lf +:+
  "    wipe()=1, current=1" +:+ lf +:+
  "[9] Re-handshake — remote advertises epoch 1..." +:+ lf +:+
  "    ✅ match — proceed with sync" +:+ lf +:+ lf +:+
  "=== demo complete ===" +:+ lf.

(** The mismatch is an object whose message the helper reads. *)
Lemma mismatch_text `{!JsSysLaws J, !JsTextLaws J} (e : EpochMismatchError) :
  ∃ v, epoch_mismatch_to_jsvalue e = Some v ∧ js_error_to_string v = EpochMismatchError_to_string e.
Proof.
  unfold epoch_mismatch_to_jsvalue. destruct (Reflect_set_new "code" (js_number EPOCH_MISMATCH_CODE)) as (o&->&Hx&_). cbn.
  destruct (Reflect_set_next o "message" (js_string (EpochMismatchError_to_string e)) Hx) as (o1&->&Hx1&Hm&_). cbn.
  destruct (Reflect_set_next o1 "local" (js_bigint (em_local e)) Hx1) as (o2&->&Hx2&_&Hk2). cbn.
  destruct (Reflect_set_next o2 "remote" (js_bigint (em_remote e)) Hx2) as (o3&->&Hx3&_&Hk3).
  exists o3. split; [done|]. unfold js_error_to_string.
  rewrite extensible_object, Hk3, Hk2, Hm by done. cbn. by rewrite as_string_string.
Qed.

(** The demo runs to its end, every handshake goes the way its text expects, and
    the page shows this log, on any lawful JavaScript engine. *)
Lemma run_demo_log `{!JsSysLaws J, !JsTextLaws J} : run_demo = Some demo_log.
Proof.
  destruct (mismatch_text (mkEpochMismatchError 0 1)) as (v&Hv&Ht).
  assert (Hm : WasmEpochTracker_check_match 0 1 = Some (Err v)) by (unfold WasmEpochTracker_check_match; cbn; by rewrite Hv).
  unfold run_demo, handshake, WasmEpochTracker_new, EpochTracker_new. cbv zeta.
  rewrite Hm, Ht. vm_compute. reflexivity.
Qed.
End demo.

#[export] Instance ModelText : JsText ModelJs := {|
  is_object v := match v with JObj _ => true | _ => false end;
  as_string v := match v with JStr s => Some s | _ => None end;
  JsValue_debug _ := "JsValue"
|}.

#[export] Instance ModelTextLaws : JsTextLaws ModelJs.
Proof. split; [by intros o [l ->]|done]. Qed.

Example demo_on_model_page : run_demo (J := ModelJs) = Some demo_log.
Proof. apply run_demo_log. Qed.

(** ** The outliner *)

Section outliner.
  Context {L : Type} `{LoroDoc L}.

(** The edit of step 4, before its commit. *)
Definition outliner_edit : SE L string unit :=
  _ ← map_insert "V/child-1" "text" (LV_String "First bullet");
  _ ← map_insert "V/child-2" "text" (LV_String "Second bullet");
  _ ← map_insert "outliner" "child-1" (LV_String "V/child-1");
  map_insert "outliner" "child-2" (LV_String "V/child-2").

(** An event of the bullets' maps or of the outline is no operation of the
    graph, whatever it carries: they are root maps of their own, not entries of
    the map of vertices. *)
Lemma outliner_not_synced (ev : DiffEvent) :
  Forall (λ cd, cd_target cd ∈ CID_Root <$> ["V/child-1"; "V/child-2"; "outliner"]) (de_events ev) →
  translate_diff_event ev = [].
Proof.
  unfold translate_diff_event. induction 1 as [|cd cds Hcd _ IH]; [done|]. cbn. rewrite IH, app_nil_r.
  unfold translate_container_diff. cbn in Hcd. rewrite !elem_of_cons, elem_of_nil in Hcd.
  by destruct Hcd as [->|[->|[->|[]]]].
Qed.
End outliner.

(** The whole edit on the reference document: it commits, the subscriber sees
    one event, and nothing is sent to the graph. *)
Example outliner_edit_sends_nothing :
  let e := local_commit true "local" (λ l, (outliner_edit l).2) (rt_engine rt0) in
  (outliner_edit MemLoro_new).1 = Ok tt ∧
  (length (loro_commit (outliner_edit MemLoro_new).2).1) = 1 ∧
  map_get (loro_doc e) "V/child-1" "text" = Some (VC_Value (LV_String "First bullet")) ∧
  map_get (loro_doc e) ROOT_VERTICES "child-1" = None ∧
  ch_queue (inbound e) = [] ∧ inbound_event_count e = 0%Z ∧ inbound_filtered_count e = 0%Z.
Proof. vm_compute. repeat split. Qed.
