(* ===== verification/Features.v ===== *)
(** * Features and module gates ([src/lib.rs], [Cargo.toml])

    Which features imply which, which modules a selection of features compiles on
    which family of targets, and what the modules refer to: other modules, items
    of other modules that have a gate of their own, optional dependencies, and the
    features of [tokio], whose defaults are switched off.  The
    references are those of the [use] declarations and of the paths in the code,
    with the [cfg] they stand under; always-on dependencies and modules that are
    always there are left out.  The theorem says which selections leave no
    reference dangling. *)

From S2P Require Import Prelude.

(** ** Cargo.toml *)

Inductive Feature : Type :=
| bridge | batcher | compression | tree | storage | grafeo | onnx | webrtc | telemetry | wasm | parallel
| serde | fts | sab | shadow | observability | merge | awareness | persistence | full.

#[export] Instance Feature_eq_dec : EqDecision Feature.
Proof. solve_decision. Defined.

Definition all_features : list Feature :=
  [bridge; batcher; compression; tree; storage; grafeo; onnx; webrtc; telemetry; wasm; parallel;
   serde; fts; sab; shadow; observability; merge; awareness; persistence; full].

Inductive Dep : Type :=
| dep_bincode | dep_tokio | dep_lz4_flex | dep_brotli | dep_flate2 | dep_grafeo | dep_grafeo_common
| dep_grafeo_engine | dep_ort | dep_webrtc_rs | dep_opentelemetry | dep_wasm_bindgen | dep_js_sys
| dep_web_sys | dep_console_error_panic_hook | dep_rayon | dep_serde | dep_serde_json.

#[export] Instance Dep_eq_dec : EqDecision Dep.
Proof. solve_decision. Defined.

(** The features of the right-hand sides. *)
Definition feature_features (f : Feature) : list Feature :=
  match f with
  | batcher | tree | grafeo | fts | sab | shadow | observability => [bridge]
  | onnx => [grafeo]
  | full => [grafeo; batcher; webrtc; tree; telemetry; parallel; compression; storage; serde; fts; sab;
             shadow; observability]
  | _ => []
  end.

(** The features of [tokio] the code needs: [sync] (channels), [time] (interval,
    timeout, sleep), [rt] (spawn, spawn_blocking, JoinHandle), [macros] (select!). *)
Inductive Tokio : Type := tokio_sync | tokio_time | tokio_rt | tokio_macros.

#[export] Instance Tokio_eq_dec : EqDecision Tokio.
Proof. solve_decision. Defined.

(** [tokio/sync] and the like: they also enable [tokio]. *)
Definition feature_tokio (f : Feature) : list Tokio :=
  match f with batcher => [tokio_sync; tokio_time] | _ => [] end.

(** The dependencies of the right-hand sides. *)
Definition feature_deps (f : Feature) : list Dep :=
  match f with
  | bridge => [dep_bincode]
  | batcher => [dep_tokio]
  | compression => [dep_lz4_flex; dep_brotli; dep_flate2]
  | grafeo => [dep_grafeo; dep_grafeo_common; dep_grafeo_engine]
  | onnx => [dep_ort]
  | webrtc => [dep_webrtc_rs]
  | telemetry => [dep_opentelemetry]
  | wasm => [dep_wasm_bindgen; dep_js_sys; dep_web_sys; dep_console_error_panic_hook]
  | parallel => [dep_rayon]
  | serde => [dep_serde; dep_serde_json]
  | sab => [dep_js_sys; dep_wasm_bindgen]
  | _ => []
  end.

(** What picking a feature enables. *)
Definition enables (f : Feature) : list Feature :=
  f :: feature_features f ++ (feature_features f ≫= feature_features).

Definition enabled (picked : Feature → bool) (f : Feature) : bool :=
  existsb (λ g, picked g && bool_decide (f ∈ enables g)) all_features.

(** ** Conditional compilation *)

Inductive Cfg : Type :=
| cfg_feature (f : Feature)
| cfg_wasm_family
| cfg_not (c : Cfg)
| cfg_all (l : list Cfg).

(** A build: the features, whether [target_family = "wasm"], and the features of
    [tokio] the other packages of the build enable, which Cargo unifies. *)
Record Build : Type := mkBuild {
  features : Feature → bool; wasm_family : bool; tokio_others : Tokio → bool
}.

Fixpoint cfg_holds (b : Build) (c : Cfg) : bool :=
  match c with
  | cfg_feature f => features b f
  | cfg_wasm_family => wasm_family b
  | cfg_not c => negb (cfg_holds b c)
  | cfg_all l => forallb (cfg_holds b) l
  end.

Notation always := (cfg_all []).
Notation native := (cfg_not cfg_wasm_family).

(** [compile_error!] of [lib.rs], [runtime/mod.rs] and [wasm/mod.rs]. *)
Definition lib_errors : list Cfg := [cfg_feature merge; cfg_feature awareness; cfg_feature persistence].
Definition runtime_error : Cfg :=
  cfg_all [cfg_feature batcher; cfg_wasm_family; cfg_not (cfg_feature wasm)].
Definition wasm_error : Cfg := cfg_all [cfg_feature batcher; cfg_wasm_family].

(** ** Modules *)

Inductive Module_ : Type :=
| m_types_events | m_bridge | m_bridge_batcher | m_bridge_sync_engine | m_compression | m_hydration
| m_hydration_parallel | m_presence | m_schema | m_storage | m_telemetry | m_tree_adapter | m_ffi | m_wasm
| m_wasm_queue | m_runtime | m_shadow | m_fts | m_sab | m_observability | m_app.

Definition all_modules : list Module_ :=
  [m_types_events; m_bridge; m_bridge_batcher; m_bridge_sync_engine; m_compression; m_hydration;
   m_hydration_parallel; m_presence; m_schema; m_storage; m_telemetry; m_tree_adapter; m_ffi; m_wasm;
   m_wasm_queue; m_runtime; m_shadow; m_fts; m_sab; m_observability; m_app].

(** The attribute of the [mod] declaration, with that of the enclosing module. *)
Definition gate (m : Module_) : Cfg :=
  match m with
  | m_types_events | m_bridge | m_presence | m_schema | m_ffi | m_runtime => cfg_feature bridge
  | m_bridge_batcher | m_bridge_sync_engine =>
      cfg_all [cfg_feature bridge; cfg_feature batcher; cfg_feature grafeo; cfg_feature telemetry]
  | m_compression => cfg_feature compression
  | m_hydration => cfg_all [cfg_feature grafeo; native]
  | m_hydration_parallel => cfg_all [cfg_feature grafeo; native; cfg_feature parallel]
  | m_storage => cfg_feature storage
  | m_telemetry => cfg_feature telemetry
  | m_tree_adapter => cfg_feature tree
  | m_wasm => cfg_feature wasm
  | m_wasm_queue => cfg_all [cfg_feature wasm; cfg_wasm_family]
  | m_shadow => cfg_feature shadow
  | m_fts => cfg_feature fts
  | m_sab => cfg_feature sab
  | m_observability => cfg_feature observability
  | m_app => cfg_all [cfg_feature bridge; cfg_feature storage; cfg_feature grafeo; cfg_feature batcher]
  end.

Definition compiled (b : Build) (m : Module_) : bool := cfg_holds b (gate m).

(** What a path names: a module, an item of a module under a gate of its own, an
    optional dependency. *)
Inductive Target : Type :=
| to_module (m : Module_)
| to_item (m : Module_) (c : Cfg)
| to_dep (d : Dep)
| to_tokio (t : Tokio).

Definition resolves (b : Build) (t : Target) : bool :=
  match t with
  | to_module m => compiled b m
  | to_item m c => compiled b m && cfg_holds b c
  | to_dep d => existsb (λ f, features b f && bool_decide (d ∈ feature_deps f)) all_features
  | to_tokio t =>
      existsb (λ f, features b f && bool_decide (dep_tokio ∈ feature_deps f)) all_features &&
      (tokio_others b t || existsb (λ f, features b f && bool_decide (t ∈ feature_tokio f)) all_features)
  end.

(** [apply_loro_op] of [bridge/grafeo_tx.rs]. *)
Definition item_apply_loro_op : Target := to_item m_bridge (cfg_feature grafeo).

(** The references of the modules that are always there: [error.rs],
    [types/*.rs]. *)
Definition root_refs : list (Cfg * Target) :=
  [(cfg_feature grafeo, to_dep dep_grafeo); (cfg_feature grafeo, to_dep dep_grafeo_common);
   (cfg_feature serde, to_dep dep_serde)].

Definition refs (m : Module_) : list (Cfg * Target) :=
  match m with
  | m_types_events =>
      [(cfg_feature grafeo, to_dep dep_grafeo); (cfg_feature grafeo, to_dep dep_grafeo_common);
       (cfg_feature serde, to_dep dep_serde)]
  | m_bridge =>
      [(cfg_feature grafeo, to_module m_types_events); (cfg_feature grafeo, to_dep dep_grafeo)]
  | m_bridge_batcher =>
      [(always, to_dep dep_grafeo); (always, to_dep dep_grafeo_common); (always, to_dep dep_opentelemetry);
       (always, to_tokio tokio_sync); (always, to_tokio tokio_time); (always, to_tokio tokio_macros);
       (always, to_tokio tokio_rt); (always, to_module m_bridge); (always, item_apply_loro_op);
       (always, to_module m_telemetry); (always, to_module m_types_events)]
  | m_bridge_sync_engine =>
      [(always, to_dep dep_grafeo); (always, to_dep dep_grafeo_common); (always, to_dep dep_opentelemetry);
       (always, to_tokio tokio_sync); (always, to_tokio tokio_time); (always, to_tokio tokio_macros);
       (always, to_tokio tokio_rt); (always, to_module m_bridge_batcher); (always, to_module m_bridge);
       (always, to_module m_telemetry); (always, to_module m_types_events)]
  | m_compression =>
      [(always, to_dep dep_lz4_flex); (always, to_dep dep_brotli); (always, to_dep dep_flate2)]
  | m_hydration =>
      [(always, to_dep dep_grafeo); (cfg_feature telemetry, to_dep dep_opentelemetry);
       (always, item_apply_loro_op); (always, to_module m_bridge); (always, to_module m_schema);
       (cfg_feature telemetry, to_module m_telemetry); (always, to_module m_types_events)]
  | m_hydration_parallel =>
      [(always, to_dep dep_grafeo); (always, to_dep dep_opentelemetry); (always, to_dep dep_rayon);
       (always, item_apply_loro_op); (always, to_module m_bridge); (always, to_module m_schema);
       (always, to_module m_telemetry); (always, to_module m_types_events)]
  | m_presence => [(cfg_feature serde, to_dep dep_serde_json)]
  | m_schema => [(cfg_feature grafeo, to_dep dep_grafeo); (cfg_feature grafeo, to_dep dep_grafeo_engine)]
  | m_storage | m_fts | m_sab | m_observability => []
  | m_telemetry => [(always, to_dep dep_opentelemetry); (always, to_dep dep_grafeo)]
  | m_tree_adapter => [(always, to_module m_bridge); (always, to_module m_types_events)]
  | m_ffi =>
      [(always, to_module m_bridge); (always, to_module m_types_events);
       (cfg_feature grafeo, item_apply_loro_op); (cfg_feature grafeo, to_dep dep_grafeo);
       (cfg_feature grafeo, to_dep dep_grafeo_common); (cfg_feature serde, to_dep dep_bincode)]
  | m_wasm =>
      [(cfg_wasm_family, to_dep dep_js_sys); (cfg_wasm_family, to_dep dep_wasm_bindgen);
       (cfg_wasm_family, to_dep dep_console_error_panic_hook)]
  | m_wasm_queue =>
      [(always, to_module m_bridge); (always, to_dep dep_js_sys); (always, to_dep dep_wasm_bindgen);
       (always, to_module m_wasm)]
  | m_runtime =>
      [(cfg_feature batcher, to_tokio tokio_sync);
       (cfg_all [cfg_wasm_family; cfg_feature wasm], to_dep dep_js_sys)]
  | m_shadow => [(always, to_module m_runtime)]
  | m_app =>
      [(always, to_tokio tokio_rt); (always, to_dep dep_grafeo); (always, to_dep dep_opentelemetry);
       (always, to_module m_bridge); (always, to_module m_bridge_sync_engine); (always, to_module m_compression);
       (always, to_item m_hydration (cfg_feature parallel)); (always, to_module m_storage);
       (always, to_module m_telemetry)]
  end.

(** The [pub use] declarations of [lib.rs]. *)
Definition reexports : list (Cfg * Target) :=
  [(cfg_all [cfg_feature bridge; cfg_feature storage; cfg_feature grafeo; cfg_feature batcher], to_module m_app);
   (cfg_all [cfg_feature batcher; cfg_feature grafeo; cfg_feature telemetry], to_module m_bridge_sync_engine);
   (cfg_feature bridge, to_module m_bridge);
   (cfg_all [cfg_feature wasm; cfg_wasm_family], to_module m_wasm_queue);
   (cfg_feature compression, to_module m_compression);
   (cfg_all [cfg_feature grafeo; native], to_module m_hydration);
   (cfg_all [cfg_feature grafeo; cfg_feature parallel; native], to_item m_hydration (cfg_feature parallel));
   (cfg_feature storage, to_module m_storage);
   (cfg_feature batcher, to_item m_runtime (cfg_feature batcher));
   (cfg_feature bridge, to_module m_runtime);
   (cfg_feature tree, to_module m_tree_adapter);
   (cfg_all [cfg_feature bridge; cfg_feature grafeo; cfg_feature serde],
     to_item m_ffi (cfg_all [cfg_feature grafeo; cfg_feature serde]));
   (cfg_all [cfg_feature bridge; cfg_feature grafeo], to_item m_ffi (cfg_feature grafeo));
   (cfg_feature bridge, to_module m_ffi);
   (cfg_feature wasm, to_module m_wasm);
   (cfg_all [cfg_feature wasm; cfg_wasm_family], to_item m_wasm cfg_wasm_family);
   (cfg_feature grafeo, to_dep dep_grafeo)].

Definition ref_ok (b : Build) (r : Cfg * Target) : bool := implb (cfg_holds b r.1) (resolves b r.2).

Definition module_ok (b : Build) (m : Module_) : bool :=
  implb (compiled b m) (forallb (ref_ok b) (refs m)).

(** No [compile_error!] fires and every path of what is compiled resolves. *)
Definition build_resolves (b : Build) : bool :=
  forallb (λ c, negb (cfg_holds b c)) lib_errors &&
  negb (compiled b m_runtime && cfg_holds b runtime_error) &&
  negb (compiled b m_wasm && cfg_holds b wasm_error) &&
  forallb (ref_ok b) root_refs && forallb (module_ok b) all_modules && forallb (ref_ok b) reexports.

(** ** Selections *)

(** A selection that has what its members imply. *)
Definition closed (sel : Feature → bool) : Prop :=
  ∀ f g, sel f = true → g ∈ feature_features f → sel g = true.

Lemma all_features_complete f : f ∈ all_features.
Proof. destruct f; apply (bool_decide_unpack _); vm_compute; exact I. Qed.

(** Two rounds are enough: nothing is implied at a greater distance. *)
Lemma enables_closed f g h : g ∈ enables f → h ∈ feature_features g → h ∈ enables f.
Proof.
  revert f g h. assert (Hall : forallb (λ f, forallb (λ g, forallb (λ h, bool_decide (h ∈ enables f))
    (feature_features g)) (enables f)) all_features = true) by (vm_compute; reflexivity).
  intros f g h Hg Hh. rewrite forallb_forall in Hall.
  specialize (Hall f (proj1 (list_elem_of_In _ _) (all_features_complete f))).
  rewrite forallb_forall in Hall. specialize (Hall g (proj1 (list_elem_of_In _ _) Hg)).
  rewrite forallb_forall in Hall. specialize (Hall h (proj1 (list_elem_of_In _ _) Hh)).
  by apply bool_decide_eq_true in Hall.
Qed.

Lemma enabled_spec picked f : enabled picked f = true ↔ ∃ g, picked g = true ∧ f ∈ enables g.
Proof.
  unfold enabled. rewrite existsb_exists. split.
  - intros (g & _ & [Hp Hf]%andb_prop). exists g. by apply bool_decide_eq_true in Hf.
  - intros (g & Hp & Hf). exists g. split; [apply list_elem_of_In, all_features_complete|].
    by rewrite Hp, bool_decide_true.
Qed.

(** The least closed selection with the picked features. *)
Lemma enabled_least picked :
  (∀ f, picked f = true → enabled picked f = true) ∧ closed (enabled picked) ∧
  ∀ sel, closed sel → (∀ f, picked f = true → sel f = true) → ∀ f, enabled picked f = true → sel f = true.
Proof.
  split; [|split].
  - intros f Hf. apply enabled_spec. exists f. split; [done|left].
  - intros f g (p & Hp & Hf)%enabled_spec Hg. apply enabled_spec. exists p. split; [done|by eapply enables_closed].
  - intros sel Hcl Hp f (p & Hpp & Hf)%enabled_spec. apply elem_of_cons in Hf as [->|Hf]; [by apply Hp|].
    apply elem_of_app in Hf as [Hf|(g & Hf & Hg)%list_elem_of_bind]; [by eapply Hcl; [apply Hp|]|].
    eapply Hcl; [|exact Hf]. by eapply Hcl; [apply Hp|].
Qed.

(** What a selection has to satisfy. *)
Definition consistent (b : Build) : bool :=
  let on := features b in
  negb (on merge) && negb (on awareness) && negb (on persistence) &&
  negb (on batcher && wasm_family b) &&
  implb (on telemetry) (on grafeo) &&
  implb (on grafeo && on parallel && negb (wasm_family b)) (on telemetry) &&
  implb (on storage && on grafeo && on batcher) (on compression && on telemetry && on parallel) &&
  implb (on wasm && wasm_family b) (on bridge) &&
  implb (on batcher && on grafeo && on telemetry) (tokio_others b tokio_rt && tokio_others b tokio_macros).

(** What a module asks for beyond what its gate gives. *)
Definition module_needs (b : Build) (m : Module_) : bool :=
  let on := features b in
  match m with
  | m_telemetry => on grafeo
  | m_hydration_parallel => on telemetry
  | m_wasm_queue => on bridge
  | m_bridge_batcher | m_bridge_sync_engine => tokio_others b tokio_rt && tokio_others b tokio_macros
  | m_app => on compression && on telemetry && on parallel && negb (wasm_family b) &&
      tokio_others b tokio_rt
  | _ => true
  end.

(** The features that bring a dependency. *)
Definition dep_features (d : Dep) : list Feature :=
  base.filter (λ f, d ∈ feature_deps f) all_features.

Lemma resolves_dep b d : resolves b (to_dep d) = existsb (features b) (dep_features d).
Proof.
  unfold resolves, dep_features. induction all_features as [|f l IH]; [done|].
  rewrite filter_cons. cbn. rewrite IH. case_decide as Hd.
  - by rewrite bool_decide_true, andb_true_r.
  - by rewrite bool_decide_false, andb_false_r.
Qed.

Definition tokio_features (t : Tokio) : list Feature :=
  base.filter (λ f, t ∈ feature_tokio f) all_features.

Lemma resolves_tokio b t :
  resolves b (to_tokio t) = existsb (features b) (dep_features dep_tokio) &&
    (tokio_others b t || existsb (features b) (tokio_features t)).
Proof.
  rewrite <-resolves_dep. cbn [resolves]. f_equal. f_equal. unfold tokio_features.
  induction all_features as [|f l IH]; [done|].
  rewrite filter_cons. cbn [existsb]. rewrite IH. case_decide as Hd.
  - by rewrite bool_decide_true, andb_true_r.
  - by rewrite bool_decide_false, andb_false_r.
Qed.

(** Decides a statement about a closed selection by the features it names. *)
Ltac by_features Hcl :=
  let on := match type of Hcl with closed ?f => f end in
  assert (on batcher = true → on bridge = true) by (intros; apply (Hcl batcher); [done|left]);
  assert (on tree = true → on bridge = true) by (intros; apply (Hcl tree); [done|left]);
  assert (on grafeo = true → on bridge = true) by (intros; apply (Hcl grafeo); [done|left]);
  assert (on shadow = true → on bridge = true) by (intros; apply (Hcl shadow); [done|left]);
  clear Hcl;
  repeat match goal with
  | |- context [on ?x] => let E := fresh in destruct (on x) eqn:E; cbn
  | |- context [?o tokio_rt] => is_var o; destruct (o tokio_rt); cbn
  | |- context [?o tokio_macros] => is_var o; destruct (o tokio_macros); cbn
  | |- context [?o tokio_sync] => is_var o; destruct (o tokio_sync); cbn
  | |- context [?o tokio_time] => is_var o; destruct (o tokio_time); cbn
  | H : ?b = ?b → _ |- _ => specialize (H eq_refl)
  end;
  congruence.

Ltac refs_cbn :=
  unfold ref_ok, item_apply_loro_op; cbn -[resolves compiled]; rewrite ?resolves_tokio, ?resolves_dep;
  repeat match goal with
  | |- context [dep_features ?d] =>
      let l := eval vm_compute in (dep_features d) in change (dep_features d) with l
  | |- context [tokio_features ?t] =>
      let l := eval vm_compute in (tokio_features t) in change (tokio_features t) with l
  end;
  unfold resolves, compiled; cbn.

Lemma module_ok_needs on w o m :
  closed on → module_ok (mkBuild on w o) m = implb (compiled (mkBuild on w o) m) (module_needs (mkBuild on w o) m).
Proof. intros Hcl. unfold module_ok. destruct m, w; refs_cbn; by_features Hcl. Qed.

Lemma root_refs_ok on w o : closed on → forallb (ref_ok (mkBuild on w o)) root_refs = true.
Proof. intros Hcl. refs_cbn. by_features Hcl. Qed.

Lemma reexports_ok on w o : closed on → forallb (ref_ok (mkBuild on w o)) reexports = true.
Proof.
  intros Hcl. unfold reexports, forallb. rewrite !andb_true_iff. repeat split; destruct w; refs_cbn; by_features Hcl.
Qed.

(** Six modules ask for more than their gate gives. *)
Lemma modules_ok on w o :
  closed on →
  forallb (module_ok (mkBuild on w o)) all_modules =
  implb (on telemetry) (on grafeo) &&
  implb (on grafeo && on parallel && negb w) (on telemetry) &&
  implb (on wasm && w) (on bridge) &&
  implb (on bridge && on storage && on grafeo && on batcher)
    (on compression && on telemetry && on parallel && negb w) &&
  implb (on bridge && on batcher && on grafeo && on telemetry) (o tokio_rt && o tokio_macros).
Proof.
  intros Hcl. unfold all_modules, forallb. rewrite !(module_ok_needs on w o) by done. clear Hcl.
  unfold module_needs, compiled. cbn -[implb]. rewrite !Bool.implb_true_r. cbn -[implb].
  destruct w, (on telemetry), (on grafeo), (on parallel), (on wasm), (on bridge), (on storage), (on batcher),
    (on compression), (o tokio_rt), (o tokio_macros); reflexivity.
Qed.

(** C40: a build of the crate has no dangling reference and no [compile_error!]
    exactly when its selection is consistent.  Whatever features are picked and
    whatever the target, with everything they imply: none of the three reserved
    names; no batcher on a wasm target; with telemetry grafeo; with parallel
    hydration on a native target telemetry; with storage, grafeo and the batcher,
    which bring the application, compression, telemetry and parallel hydration
    too; with the wasm surface on a wasm target the bridge; and with the batcher,
    grafeo and telemetry, which bring the engine, another package of the build that
    enables the features [rt] and [macros] of tokio, because the crate's own
    features do not (finding). *)
Theorem build_resolves_iff (picked : Feature → bool) (w : bool) (o : Tokio → bool) :
  build_resolves (mkBuild (enabled picked) w o) = consistent (mkBuild (enabled picked) w o).
Proof.
  pose proof (enabled_least picked) as (_ & Hcl & _). revert Hcl. generalize (enabled picked). intros on Hcl.
  unfold build_resolves, consistent. rewrite modules_ok, root_refs_ok, reexports_ok by done. cbn -[implb].
  rewrite !andb_true_r. unfold compiled. cbn -[implb].
  assert (Hb : on batcher = true → on bridge = true) by (intros; apply (Hcl batcher); [done|left]). clear Hcl.
  destruct (on batcher); [rewrite Hb by done|]; destruct w, (on merge), (on awareness), (on persistence),
    (on telemetry), (on grafeo), (on parallel), (on wasm), (on storage), (on compression),
    (o tokio_rt), (o tokio_macros); try reflexivity; by destruct (on bridge).
Qed.

(** ** Selections of the documentation *)

Definition pick (l : list Feature) : Feature → bool := λ f, bool_decide (f ∈ l).
Definition builds (l : list Feature) (w : bool) (tokio : list Tokio) : bool :=
  build_resolves (mkBuild (enabled (pick l)) w (λ t, bool_decide (t ∈ tokio))).

(** What resolves: nothing picked, and [full] on a native target next to a package
    that enables the runtime and the macros of tokio.  What does not: [full] by
    itself, [telemetry] alone, parallel hydration without telemetry, the
    application's four features alone, and the selection of [Cargo.toml]'s
    comment for a wasm bundle, which has the batcher. *)
Example documented_selections :
  builds [] false [] = true ∧ builds [] true [] = true ∧ builds [full] false [tokio_rt; tokio_macros] = true ∧
  builds [full] false [] = false ∧ builds [full] true [tokio_rt; tokio_macros] = false ∧
  builds [telemetry] false [] = false ∧ builds [grafeo; parallel] false [] = false ∧
  builds [storage; grafeo; batcher] false [] = false ∧ builds [wasm] true [] = false ∧
  builds [bridge; batcher; compression; tree] true [] = false.
Proof. vm_compute. repeat split. Qed.
