(* ===== verification/SuiteTree.v ===== *)
(** * Unit tests of the tree modules

    The [#[cfg(test)]] modules of [src/tree_adapter/mod.rs], [src/schema/tree.rs],
    [src/schema/mod.rs] and [src/schema/edge.rs], run on the model.  A test is a
    boolean: the conjunction of its assertions, [false] where it would panic.
    Those that iterate a hash map or set take the order as an argument and are
    shown to pass for every order. *)

From S2P Require Import Prelude Types Values BridgeMaps Graph CycleGuard Acyclic TreeAdapter.

(** ** Tree adapter *)

Definition add_node (loro_key : string) (id : Z) (maps : BridgeMaps) : BridgeMaps :=
  BridgeMaps_insert_node maps loro_key (mkNodeId id).

Definition add_child_edge (parent_key child_key : string) (edge_id : Z) (maps : BridgeMaps) : BridgeMaps :=
  BridgeMaps_insert_edge maps (parent_key, child_key, TREE_EDGE_LABEL) (mkEdgeId edge_id).

Definition contains (l : list NodeId) (n : NodeId) : bool := bool_decide (n ∈ l).
Definition position (l : list NodeId) (n : NodeId) : option nat := fst <$> list_find (eq n) l.

(** [position(a) < position(b)], both present. *)
Definition precedes (l : list NodeId) (a b : NodeId) : bool :=
  match position l a, position l b with Some i, Some j => bool_decide (i < j) | _, _ => false end.

Section adapter_tests.
  Context `{SetOrder}.
  Local Open Scope string_scope.

Definition maps_root : BridgeMaps := add_node "root" 1 BridgeMaps_new.

Definition parent_returns_none_for_root : bool := returns (adapter_parent maps_root (mkNodeId 1)) None.

Definition maps_root_child : BridgeMaps := add_child_edge "root" "child" 100 (add_node "child" 2 maps_root).

Definition parent_returns_parent_for_child : bool :=
  returns (adapter_parent maps_root_child (mkNodeId 2)) (Some (mkNodeId 1)).

Definition parent_ignores_non_child_edges : bool :=
  let maps := BridgeMaps_insert_edge (add_node "child" 2 maps_root) ("root", "child", "OTHER") (mkEdgeId 100) in
  returns (adapter_parent maps (mkNodeId 2)) None &&
  returns (adapter_parent (add_child_edge "root" "child" 101 maps) (mkNodeId 2)) (Some (mkNodeId 1)).

Definition parent_errors_for_unknown_node : bool := is_err (adapter_parent BridgeMaps_new (mkNodeId 999)).

Definition maps_three_children : BridgeMaps :=
  BridgeMaps_insert_edge
    (add_child_edge "root" "c3" 102 (add_child_edge "root" "c2" 101 (add_child_edge "root" "c1" 100
      (add_node "c3" 4 (add_node "c2" 3 (add_node "c1" 2 maps_root))))))
    ("root", "x", "OTHER") (mkEdgeId 200).

Definition children_returns_all_children : bool :=
  match adapter_children maps_three_children (mkNodeId 1) with
  | Ok children =>
      bool_decide (length children = 3) && contains children (mkNodeId 2) && contains children (mkNodeId 3) &&
      contains children (mkNodeId 4)
  | Err _ => false
  end.

Definition children_returns_empty_for_leaf : bool :=
  returns (adapter_children (add_node "leaf" 1 BridgeMaps_new) (mkNodeId 1)) [].

Definition children_errors_for_unknown_node : bool := is_err (adapter_children BridgeMaps_new (mkNodeId 999)).

Definition maps_chain : BridgeMaps :=
  add_child_edge "b" "c" 102 (add_child_edge "a" "b" 101 (add_child_edge "root" "a" 100
    (add_node "c" 4 (add_node "b" 3 (add_node "a" 2 maps_root))))).

Definition descendants_linear_chain_dfs_pre_order : bool :=
  bool_decide (descendants maps_chain (mkNodeId 1) = Some [mkNodeId 2; mkNodeId 3; mkNodeId 4]).

(** root above a and b, a above a1 and a2, b above b1. *)
Definition maps_branched : BridgeMaps :=
  add_child_edge "b" "b1" 104 (add_child_edge "a" "a2" 103 (add_child_edge "a" "a1" 102
    (add_child_edge "root" "b" 101 (add_child_edge "root" "a" 100
      (add_node "b1" 6 (add_node "a2" 5 (add_node "a1" 4 (add_node "b" 3 (add_node "a" 2 maps_root))))))))).

Definition descendants_branched_tree_set_membership : bool :=
  match descendants maps_branched (mkNodeId 1) with
  | Some desc =>
      bool_decide (length desc = 5) &&
      forallb (contains desc) [mkNodeId 2; mkNodeId 3; mkNodeId 4; mkNodeId 5; mkNodeId 6] &&
      negb (contains desc (mkNodeId 1)) &&
      precedes desc (mkNodeId 2) (mkNodeId 4) && precedes desc (mkNodeId 2) (mkNodeId 5) &&
      precedes desc (mkNodeId 3) (mkNodeId 6)
  | None => false
  end.

Definition descendants_empty_for_leaf : bool :=
  bool_decide (descendants (add_node "leaf" 1 BridgeMaps_new) (mkNodeId 1) = Some []).

(** a above b above a. *)
Definition maps_cycle : BridgeMaps :=
  add_child_edge "b" "a" 101 (add_child_edge "a" "b" 100 (add_node "b" 2 (add_node "a" 1 BridgeMaps_new))).

Definition descendants_cycle_safe : bool :=
  match descendants maps_cycle (mkNodeId 1) with
  | Some desc => bool_decide (length desc = 1) && contains desc (mkNodeId 2)
  | None => false
  end.

Definition maps_root_mid_leaf : BridgeMaps :=
  add_child_edge "mid" "leaf" 101 (add_child_edge "root" "mid" 100 (add_node "leaf" 3 (add_node "mid" 2 maps_root))).

Definition ancestors_immediate_parent_first_root_last : bool :=
  bool_decide (ancestors maps_root_mid_leaf (mkNodeId 3) = Some [mkNodeId 2; mkNodeId 1]).

Definition ancestors_empty_for_root : bool := bool_decide (ancestors maps_root (mkNodeId 1) = Some []).

Definition ancestors_cycle_safe : bool :=
  match ancestors maps_cycle (mkNodeId 1) with
  | Some anc => bool_decide (length anc = 1) && bool_decide (anc !! 0 = Some (mkNodeId 2))
  | None => false
  end.

Definition maps_two_children : BridgeMaps :=
  add_child_edge "root" "c2" 101 (add_child_edge "root" "c1" 100 (add_node "c2" 3 (add_node "c1" 2 maps_root))).

Definition view_captures_parent_and_children : bool :=
  match adapter_view maps_two_children (mkNodeId 1) with
  | Ok view =>
      bool_decide (tn_id view = mkNodeId 1) && bool_decide (tn_parent view = None) &&
      bool_decide (length (tn_children view) = 2) && contains (tn_children view) (mkNodeId 2) &&
      contains (tn_children view) (mkNodeId 3)
  | Err _ => false
  end.

Definition end_to_end_traversal_of_three_level_tree : bool :=
  let parent_is n p := returns (adapter_parent maps_branched (mkNodeId n)) p in
  let ancestors_are n l := bool_decide (ancestors maps_branched (mkNodeId n) = Some l) in
  parent_is 2%Z (Some (mkNodeId 1)) && parent_is 4%Z (Some (mkNodeId 2)) && parent_is 6%Z (Some (mkNodeId 3)) &&
  parent_is 1%Z None && ancestors_are 6%Z [mkNodeId 3; mkNodeId 1] && ancestors_are 4%Z [mkNodeId 2; mkNodeId 1] &&
  match descendants maps_branched (mkNodeId 2), descendants maps_branched (mkNodeId 1) with
  | Some desc_a, Some desc_root =>
      bool_decide (length desc_a = 2) && contains desc_a (mkNodeId 4) && contains desc_a (mkNodeId 5) &&
      bool_decide (length desc_root = 5)
  | _, _ => false
  end.
End adapter_tests.

(** *** Operation constructors *)

Definition is_tree_move (op : LoroOp) (node_key old_parent_key new_parent_key : string) : bool :=
  match op with
  | TreeMove n o p => bool_decide (n = node_key) && bool_decide (o = old_parent_key) && bool_decide (p = new_parent_key)
  | _ => false
  end.

Definition move_op_produces_tree_move_variant : bool :=
  is_tree_move (move_op "leaf" "mid" "root") "leaf" "mid" "root".

Definition create_child_op_produces_upsert_node : bool :=
  match create_child_op (mkNodeId 1) "child-key" "Item" with
  | UpsertNode loro_key labels properties =>
      bool_decide (loro_key = "child-key"%string) && bool_decide (labels = ["Item"%string]) &&
      bool_decide (size properties = 0)
  | _ => false
  end.

Definition indent_op_targets_previous_sibling : bool :=
  is_tree_move (indent_op "leaf" "parent" "prev_sibling") "leaf" "parent" "prev_sibling".

Definition outdent_op_targets_grandparent : bool :=
  is_tree_move (outdent_op "leaf" "parent" "grandparent") "leaf" "parent" "grandparent".

(** The renderings are compared; here the fields they render. *)
Definition same_tree_move (a b : LoroOp) : bool :=
  match b with TreeMove n o p => is_tree_move a n o p | _ => false end.

Definition indent_op_equals_move_op_with_previous_sibling : bool :=
  same_tree_move (indent_op "n" "p" "ps") (move_op "n" "p" "ps").

Definition outdent_op_equals_move_op_with_grandparent : bool :=
  same_tree_move (outdent_op "n" "p" "gp") (move_op "n" "p" "gp").

Example op_constructor_tests_pass :
  move_op_produces_tree_move_variant && create_child_op_produces_upsert_node &&
  indent_op_targets_previous_sibling && outdent_op_targets_grandparent &&
  indent_op_equals_move_op_with_previous_sibling && outdent_op_equals_move_op_with_grandparent = true.
Proof. vm_compute. reflexivity. Qed.

(** *** Every order of the edge map *)

(** The tests meet the order only in the keys of one or two fixed edge maps. *)
Lemma edge_order `{SetOrder} (maps : BridgeMaps) (P : list EdgeKey → bool) :
  forallb P (permutations (elements (dom (edge_id_map maps)))) = true → P (edge_keys maps) = true.
Proof. apply all_orders. Qed.

Ltac by_edge_order m := by_order (edge_keys m) (edge_order m).

Lemma parent_tests_pass `{SetOrder} :
  parent_returns_none_for_root = true ∧ parent_returns_parent_for_child = true ∧
  parent_errors_for_unknown_node = true ∧ children_returns_empty_for_leaf = true ∧
  children_errors_for_unknown_node = true.
Proof.
  split; [|split; [|split; [|split]]].
  - unfold parent_returns_none_for_root, adapter_parent. by_edge_order maps_root.
  - unfold parent_returns_parent_for_child, adapter_parent. by_edge_order maps_root_child.
  - unfold parent_errors_for_unknown_node, adapter_parent. by_edge_order BridgeMaps_new.
  - unfold children_returns_empty_for_leaf, adapter_children. by_edge_order (add_node "leaf" 1 BridgeMaps_new).
  - unfold children_errors_for_unknown_node, adapter_children. by_edge_order BridgeMaps_new.
Qed.

Lemma parent_ignores_non_child_edges_passes `{SetOrder} : parent_ignores_non_child_edges = true.
Proof.
  unfold parent_ignores_non_child_edges. cbv zeta. unfold adapter_parent. apply andb_true_intro. split.
  - by_edge_order (BridgeMaps_insert_edge (add_node "child" 2 maps_root) ("root", "child", "OTHER")%string (mkEdgeId 100)).
  - by_edge_order (add_child_edge "root" "child" 101
      (BridgeMaps_insert_edge (add_node "child" 2 maps_root) ("root", "child", "OTHER")%string (mkEdgeId 100))).
Qed.

Lemma children_tests_pass `{SetOrder} :
  children_returns_all_children = true ∧ view_captures_parent_and_children = true.
Proof.
  split.
  - unfold children_returns_all_children, adapter_children. by_edge_order maps_three_children.
  - unfold view_captures_parent_and_children, adapter_view, adapter_parent, adapter_children.
    by_edge_order maps_two_children.
Qed.

Lemma descendants_tests_pass `{SetOrder} :
  descendants_linear_chain_dfs_pre_order = true ∧ descendants_branched_tree_set_membership = true ∧
  descendants_empty_for_leaf = true ∧ descendants_cycle_safe = true.
Proof.
  split; [|split; [|split]].
  - unfold descendants_linear_chain_dfs_pre_order, descendants, children_or_nil, adapter_children.
    by_edge_order maps_chain.
  - unfold descendants_branched_tree_set_membership, descendants, children_or_nil, adapter_children.
    by_edge_order maps_branched.
  - unfold descendants_empty_for_leaf, descendants, children_or_nil, adapter_children.
    by_edge_order (add_node "leaf" 1 BridgeMaps_new).
  - unfold descendants_cycle_safe, descendants, children_or_nil, adapter_children. by_edge_order maps_cycle.
Qed.

Lemma ancestors_tests_pass `{SetOrder} :
  ancestors_immediate_parent_first_root_last = true ∧ ancestors_empty_for_root = true ∧
  ancestors_cycle_safe = true ∧ end_to_end_traversal_of_three_level_tree = true.
Proof.
  split; [|split; [|split]].
  - unfold ancestors_immediate_parent_first_root_last, ancestors, parent_or_none, adapter_parent.
    by_edge_order maps_root_mid_leaf.
  - unfold ancestors_empty_for_root, ancestors, parent_or_none, adapter_parent. by_edge_order maps_root.
  - unfold ancestors_cycle_safe, ancestors, parent_or_none, adapter_parent. by_edge_order maps_cycle.
  - unfold end_to_end_traversal_of_three_level_tree, descendants, children_or_nil, adapter_children, ancestors,
      parent_or_none, adapter_parent. by_edge_order maps_branched.
Qed.

(** ** Cycle guard *)

(** The moves, all of them [unwrap]ped. *)
Definition guard_moves (moves : list (string * string)) : option CycleGuard :=
  foldl (λ og '(node, new_parent),
    match og with
    | Some g => match CycleGuard_apply_move g node new_parent with Some (Ok _, g') => Some g' | _ => None end
    | None => None
    end) (Some CycleGuard_new) moves.

(** Whether the move after them returns an error. *)
Definition move_rejected (moves : list (string * string)) (node new_parent : string) : bool :=
  match guard_moves moves with
  | Some g => match CycleGuard_apply_move g node new_parent with Some (r, _) => is_err r | None => false end
  | None => false
  end.

Section guard_tests.
  Local Open Scope string_scope.

Definition guard_self_loop_rejected : bool := move_rejected [] "a" "a".
Definition guard_direct_cycle_rejected : bool := move_rejected [("b", "a")] "a" "b".
Definition guard_deep_cycle_rejected : bool := move_rejected [("b", "a"); ("c", "b")] "a" "c".

Definition non_cycle_move_accepted : bool :=
  match guard_moves [("b", "a"); ("c", "a")] with
  | Some g => bool_decide (CycleGuard_parent_of g "c" = Some "a")
  | None => false
  end.

Definition guard_chain : option CycleGuard := guard_moves [("b", "a"); ("c", "b")].

(** One root, so sorting changes nothing. *)
Definition roots_correct_after_moves `{SetOrder} : bool :=
  match guard_chain with Some g => bool_decide (CycleGuard_roots g = ["a"]) | None => false end.

Definition detach_makes_root_again : bool :=
  match guard_moves [("b", "a")] with
  | Some g => bool_decide (CycleGuard_parent_of (CycleGuard_detach g "b") "b" = None)
  | None => false
  end.
End guard_tests.

Example guard_tests_pass :
  guard_self_loop_rejected && guard_direct_cycle_rejected && guard_deep_cycle_rejected &&
  non_cycle_move_accepted && detach_makes_root_again = true.
Proof. vm_compute. reflexivity. Qed.

Lemma roots_correct_after_moves_passes `{SetOrder} : roots_correct_after_moves = true.
Proof.
  unfold roots_correct_after_moves. destruct guard_chain as [g|] eqn:Hg; [|by vm_compute in Hg].
  assert (Hgc : g = <["c" := "b"]> (<["b" := "a"]> CycleGuard_new)%string) by (by vm_compute in Hg |- *; congruence).
  subst g. unfold CycleGuard_roots. cbv zeta.
  match goal with |- context [set_iter ?X] => by_order (set_iter X) (all_orders X) end.
Qed.

(** ** Root tracker *)

Section tracker_tests.
  Local Open Scope string_scope.
  Notation reg n t := (RootTracker_register_node t n).
  Notation ins c p t := (RootTracker_on_edge_inserted t c p).
  Notation rem c p t := (RootTracker_on_edge_removed t c p).
  Notation root t n := (RootTracker_is_root t n).
  Notation count t k := (bool_decide (RootTracker_root_count t = k)).

Definition registered_node_starts_as_root : bool :=
  let t := reg "a" RootTracker_new in root t "a" && count t 1.

Definition tracked_pair : RootTracker := ins "b" "a" (reg "b" (reg "a" RootTracker_new)).

Definition edge_insert_unroots_child : bool := root tracked_pair "a" && negb (root tracked_pair "b").

Definition edge_remove_reroots_child : bool := root (rem "b" "a" tracked_pair) "b".

Definition incremental_chain_maintains_roots : bool :=
  let t := foldl (λ t n, reg n t) RootTracker_new ["a"; "b"; "c"; "d"] in
  let t := ins "d" "c" (ins "c" "b" (ins "b" "a" t)) in
  let t1 := rem "c" "b" t in
  let t2 := rem "d" "c" t1 in
  root t "a" && negb (root t "b") && negb (root t "c") && negb (root t "d") && count t 1 &&
  (root t1 "c" && negb (root t1 "d") && root t1 "a") && (root t2 "d" && count t2 3).

Definition unregister_removes_from_both_sets : bool :=
  let t := RootTracker_unregister_node tracked_pair "b" in negb (root t "b") && count t 1.
End tracker_tests.

Example tracker_tests_pass :
  registered_node_starts_as_root && edge_insert_unroots_child && edge_remove_reroots_child &&
  incremental_chain_maintains_roots && unregister_removes_from_both_sets = true.
Proof. vm_compute. reflexivity. Qed.

(** ** Batch acyclicity *)

Definition child_edge (e : string * string) : EdgeSpec := mkEdgeSpec e.1 e.2 "CHILD".

Section edge_tests.
  Context `{SetOrder}.
  Local Open Scope string_scope.

Definition acyclic_ok (edges : list (string * string)) : bool :=
  match validate_acyclic (child_edge <$> edges) with Some r => is_ok r | None => false end.
Definition acyclic_err (edges : list (string * string)) : bool :=
  match validate_acyclic (child_edge <$> edges) with Some r => is_err r | None => false end.

Definition empty_batch_ok : bool := acyclic_ok [].

Definition edge_self_loop_rejected : bool :=
  match validate_acyclic (child_edge <$> [("a", "a")]) with
  | Some (Err e) => bool_decide (ce_node e = "a") && bool_decide (ce_new_parent e = "a")
  | _ => false
  end.

Definition edge_direct_cycle_rejected : bool := acyclic_err [("a", "b"); ("b", "a")].
Definition edge_deep_cycle_rejected : bool := acyclic_err [("a", "b"); ("b", "c"); ("c", "a")].
Definition diamond_acyclic_ok : bool := acyclic_ok [("a", "b"); ("a", "c"); ("b", "d"); ("c", "d")].
Definition linear_chain_ok : bool := acyclic_ok [("a", "b"); ("b", "c"); ("c", "d")].
End edge_tests.

(** The order of the sets decides which edge is reported, not whether one is. *)
Lemma validate_acyclic_order (o1 o2 : SetOrder) (edges : list EdgeSpec) :
  is_ok <$> @validate_acyclic o1 edges = is_ok <$> @validate_acyclic o2 edges.
Proof.
  assert (Hd : ∀ o : SetOrder, ∃ b, is_ok <$> @validate_acyclic o edges = Some b ∧
    (b = true ↔ acyclic (spec_rel (EdgeSpec_pair <$> edges)))).
  { intros o. destruct (@validate_acyclic_spec o edges) as (r & -> & Hr). exists (is_ok r). split; [done|].
    destruct r as [[]|e]; [done|]. split; [done|]. intros Hac. destruct Hr as [Hp Hc].
    destruct (Hac (ce_new_parent e)). by eapply tc_rtc_r; [apply tc_once|]. }
  destruct (Hd o1) as (b1 & -> & H1), (Hd o2) as (b2 & -> & H2). f_equal.
  apply eq_bool_prop_intro. rewrite !Is_true_true. by rewrite H1, H2.
Qed.

Lemma acyclic_ok_order `{o : SetOrder} edges : acyclic_ok edges = @acyclic_ok elements_order edges.
Proof.
  pose proof (validate_acyclic_order o elements_order (child_edge <$> edges)) as Heq. unfold acyclic_ok.
  destruct (@validate_acyclic o _), (@validate_acyclic elements_order _); cbn in Heq; congruence.
Qed.

Lemma acyclic_err_order `{o : SetOrder} edges : acyclic_err edges = @acyclic_err elements_order edges.
Proof.
  pose proof (validate_acyclic_order o elements_order (child_edge <$> edges)) as Heq. unfold acyclic_err, is_err.
  destruct (@validate_acyclic o _), (@validate_acyclic elements_order _); cbn in Heq; congruence.
Qed.

Lemma edge_tests_pass `{SetOrder} :
  empty_batch_ok && edge_self_loop_rejected && edge_direct_cycle_rejected && edge_deep_cycle_rejected &&
  diamond_acyclic_ok && linear_chain_ok = true.
Proof.
  unfold empty_batch_ok, edge_direct_cycle_rejected, edge_deep_cycle_rejected, diamond_acyclic_ok, linear_chain_ok.
  pose proof (λ l, @acyclic_ok_order H l) as Hok. pose proof (λ l, @acyclic_err_order H l) as Herr.
  rewrite !Hok, !Herr. vm_compute. reflexivity.
Qed.
