(* ===== verification/SuiteBridge.v ===== *)
(** * Unit tests of the bridge and the shared types

    The [#[cfg(test)]] modules of [src/bridge/queue.rs], [src/bridge/origin.rs],
    [src/bridge/grafeo_tx.rs], [src/bridge/sync_engine.rs], [src/types/ids.rs] and
    [src/types/values.rs], run on the model.  A test is a boolean, [false] where
    it would panic; where it compares property values, which are only compared
    structurally, it is a proposition. *)

From S2P Require Import Prelude Types Values Ids Origin Queue BridgeMaps EdgeKeys.
From Stdlib Require Import SpecFloat.

(** ** Offline queue *)

Definition op_bytes (s : string) : list byte := string_bytes s.

(** [q.enqueue(..).unwrap()], one after the other. *)
Definition enqueue_all (q : OfflineOpQueue) (l : list string) : option OfflineOpQueue :=
  foldl (λ oq s, q ← oq; let '(r, q') := OfflineOpQueue_enqueue q (op_bytes s) in if is_ok r then Some q' else None)
    (Some q) l.

Definition queue_default_cap_is_10mb : bool :=
  (OfflineOpQueue_DEFAULT_CAP =? 10 * 1024 * 1024)%Z &&
  (OfflineOpQueue_cap_bytes OfflineOpQueue_new =? 10 * 1024 * 1024)%Z.

Definition queue_enqueue_drain_fifo : bool :=
  match enqueue_all OfflineOpQueue_new ["op1"; "op2"; "op3"]%string with
  | Some q =>
      let '(drained, q') := OfflineOpQueue_drain q in
      bool_decide (OfflineOpQueue_depth q = 3) && (OfflineOpQueue_bytes_used q =? 9)%Z &&
      bool_decide (drained = op_bytes <$> ["op1"; "op2"; "op3"]%string) &&
      bool_decide (OfflineOpQueue_depth q' = 0) && (OfflineOpQueue_bytes_used q' =? 0)%Z &&
      OfflineOpQueue_is_empty q'
  | None => false
  end.

Definition queue_cap_enforced : bool :=
  match enqueue_all (OfflineOpQueue_with_cap 10) ["12345"; "12345"]%string with
  | Some q =>
      let '(r, q') := OfflineOpQueue_enqueue q (op_bytes "x") in
      is_err r && bool_decide (OfflineOpQueue_depth q' = 2)
  | None => false
  end.

Definition queue_retry_hooks : bool :=
  let q := OfflineOpQueue_new in
  let '(r1, q1) := OfflineOpQueue_retry_bump q in
  let '(r2, q2) := OfflineOpQueue_retry_bump q1 in
  let '(r3, q3) := OfflineOpQueue_retry_bump q2 in
  (OfflineOpQueue_retry_count q =? 0)%Z && (r1 =? 1)%Z && (r2 =? 2)%Z && (r3 =? 3)%Z &&
  (OfflineOpQueue_retry_count q3 =? 3)%Z && (OfflineOpQueue_retry_count (OfflineOpQueue_reset_retry q3) =? 0)%Z.

Definition queue_retry_saturates : bool :=
  let q := mkQueue [] 0 OfflineOpQueue_DEFAULT_CAP U32_MAX in
  (fst (OfflineOpQueue_retry_bump q) =? U32_MAX)%Z.

(** ** Lineage epoch *)

Definition epoch_tracker_basic : bool :=
  let t := EpochTracker_new in
  (EpochTracker_current t =? 0)%Z && is_ok (EpochTracker_check_match t 0) && is_err (EpochTracker_check_match t 1).

Definition epoch_tracker_bump_and_wipe : bool :=
  let '(b, t1) := EpochTracker_bump EpochTracker_new in
  let '(w, t2) := EpochTracker_wipe t1 in
  (b =? 1)%Z && (EpochTracker_current t1 =? 1)%Z && (w =? 2)%Z && (EpochTracker_current t2 =? 2)%Z.

Definition epoch_tracker_check_match_after_bump : bool :=
  let t := snd (EpochTracker_bump (snd (EpochTracker_bump EpochTracker_new))) in
  is_ok (EpochTracker_check_match t 2) &&
  match EpochTracker_check_match t 3 with
  | Err err => (em_local err =? 2)%Z && (em_remote err =? 3)%Z
  | Ok _ => false
  end.

(** A clone is the same atomic: one state. *)
Definition epoch_tracker_clone_shares_state : bool :=
  let t := EpochTracker_new in let t2_after := snd (EpochTracker_bump t) in (EpochTracker_current t2_after =? 1)%Z.

Example queue_tests_pass :
  queue_default_cap_is_10mb && queue_enqueue_drain_fifo && queue_cap_enforced && queue_retry_hooks &&
  queue_retry_saturates && epoch_tracker_basic && epoch_tracker_bump_and_wipe &&
  epoch_tracker_check_match_after_bump && epoch_tracker_clone_shares_state = true.
Proof. vm_compute. reflexivity. Qed.

(** ** Commit origins *)

Definition composes (k : OriginKind) (node_id : option string) (s : string) : bool :=
  bool_decide (compose_origin k node_id = s).

Definition origin_kind_compose_structural : bool :=
  composes Structural None "structural" && composes Structural (Some "n1"%string) "structural:n1".
Definition origin_kind_compose_typing : bool :=
  composes Typing None "typing" && composes Typing (Some "node-42"%string) "typing:node-42".
Definition origin_kind_compose_other : bool :=
  composes Other None "other" && composes Other (Some "x"%string) "other:x".

Definition origin_kind_discriminants_are_stable : bool :=
  (OriginKind_discriminant Structural =? 0)%Z && (OriginKind_discriminant Typing =? 1)%Z &&
  (OriginKind_discriminant Other =? 2)%Z.

(** Whatever an earlier test left in the cell of the thread. *)
Definition set_then_take_round_trips_composed_origin (cell : option string) : bool :=
  let '(_, cell) := take_next_commit_origin cell in
  let '(taken, cell) := take_next_commit_origin (set_next_commit_origin Typing (Some "node-7"%string) cell) in
  let '(taken2, _) := take_next_commit_origin cell in
  bool_decide (taken = Some "typing:node-7"%string) && bool_decide (taken2 = None).

Definition set_with_no_node_id_composes_bare_origin (cell : option string) : bool :=
  let '(_, cell) := take_next_commit_origin cell in
  bool_decide (fst (take_next_commit_origin (set_next_commit_origin Structural None cell)) = Some "structural"%string).

Example origin_tests_pass :
  origin_kind_compose_structural && origin_kind_compose_typing && origin_kind_compose_other &&
  origin_kind_discriminants_are_stable = true.
Proof. vm_compute. reflexivity. Qed.

Lemma origin_cell_tests_pass cell :
  set_then_take_round_trips_composed_origin cell = true ∧ set_with_no_node_id_composes_bare_origin cell = true.
Proof. by split; vm_compute. Qed.

(** ** Id interning *)

Definition node_id_table_intern_is_idempotent : bool :=
  let '(a, t) := NodeIdTable_intern NodeIdTable_new "alpha" in
  let '(b, t) := NodeIdTable_intern t "alpha" in
  (a =? b)%Z && bool_decide (NodeIdTable_len t = 1).

Definition node_id_table_lookup_both_directions : bool :=
  let '(id, t) := NodeIdTable_intern NodeIdTable_new "beta" in
  bool_decide (NodeIdTable_lookup t id = Some "beta"%string) &&
  bool_decide (NodeIdTable_lookup_by_str t "beta" = Some id) &&
  bool_decide (NodeIdTable_lookup t 999 = None) && bool_decide (NodeIdTable_lookup_by_str t "missing" = None).

(** The table, the ids seen and whether no assertion failed, after a key. *)
Definition intern_seen (st : NodeIdTable * gmap Z unit * bool) (i : Z) : NodeIdTable * gmap Z unit * bool :=
  let '(t, seen, ok) := st in
  let '(id, t') := NodeIdTable_intern t ("node-" +:+ pretty i) in
  (t', <[id:=tt]> seen, ok && bool_decide (seen !! id = None) && (id <? 10000)%Z).

Definition intern_keys (n : Z) : NodeIdTable * gmap Z unit * bool :=
  foldl intern_seen (NodeIdTable_new, ∅, true) (seqZ 0 n).

Definition no_collisions (n : Z) : bool :=
  let '(t, _, ok) := intern_keys n in ok && (Z.of_nat (NodeIdTable_len t) =? n)%Z.

Definition node_id_table_no_collisions_for_10k_keys : bool := no_collisions 10000.

Example ids_tests_pass :
  node_id_table_intern_is_idempotent && node_id_table_lookup_both_directions &&
  node_id_table_no_collisions_for_10k_keys = true.
Proof. vm_compute. reflexivity. Qed.

(** ** Property values *)

Definition f64_3_5 : f64 := S754_finite false (7 * 2 ^ 50) (-51).

Definition lval_to_gval_scalars : Prop :=
  lval_to_gval LV_Null = Ok GraphValue_Null ∧ lval_to_gval (LV_Bool true) = Ok (GraphValue_Bool true) ∧
  lval_to_gval (LV_I64 42) = Ok (GraphValue_Integer 42) ∧
  lval_to_gval (LV_Double f64_3_5) = Ok (GraphValue_Float f64_3_5) ∧
  lval_to_gval (LV_String "hi") = Ok (GraphValue_String "hi").

Definition lval_to_gval_recursive : Prop :=
  match lval_to_gval (LV_Map {["a"%string := LV_I64 1]}) with
  | Ok (GraphValue_Map m) => m !! "a"%string = Some (GraphValue_Integer 1)
  | _ => False
  end ∧
  match lval_to_gval (LV_List [LV_Bool false]) with
  | Ok (GraphValue_List v) => v = [GraphValue_Bool false]
  | _ => False
  end.

Definition is_unsupported (r : Result GraphValue) : bool :=
  match r with Err (EUnsupportedLoroType _) => true | _ => false end.

Definition lval_to_gval_rejects_binary_and_container : bool :=
  is_unsupported (lval_to_gval (LV_Binary (byte_of_Z <$> [1; 2; 3]%Z))) &&
  is_unsupported (lval_to_gval (LV_Container (CID_Root "test_container"))).

Definition gval_to_grafeo_maps_all_variants (vec : list f32) : Prop :=
  gval_to_grafeo_value GraphValue_Null = GV_Null ∧
  gval_to_grafeo_value (GraphValue_Bool true) = GV_Bool true ∧
  gval_to_grafeo_value (GraphValue_Integer 7) = GV_Int64 7 ∧
  gval_to_grafeo_value (GraphValue_Float f64_3_5) = GV_Float64 f64_3_5 ∧
  gval_to_grafeo_value (GraphValue_String "hi") = GV_String "hi" ∧
  gval_to_grafeo_value (GraphValue_Vector vec) = GV_Vector vec ∧
  gval_to_grafeo_value (GraphValue_List [GraphValue_Bool false; GraphValue_Integer 11]) =
    GV_List [GV_Bool false; GV_Int64 11] ∧
  gval_to_grafeo_value (GraphValue_Map {["k"%string := GraphValue_Bool true]}) =
    GV_Map {["k"%string := GV_Bool true]}.

Lemma value_tests_pass vec :
  lval_to_gval_scalars ∧ lval_to_gval_recursive ∧ lval_to_gval_rejects_binary_and_container = true ∧
  gval_to_grafeo_maps_all_variants vec.
Proof. vm_compute. repeat split. Qed.

(** ** Edge keys *)

Definition edge_key_roundtrip : bool :=
  let key := ("a", "b", "KNOWS")%string in
  bool_decide (encode_edge_key key = "a|b|KNOWS"%string) &&
  bool_decide (parse_edge_key (encode_edge_key key) = Some key).

Definition edge_key_parse_rejects_missing_separator : bool :=
  bool_decide (parse_edge_key "only-one-segment" = None) && bool_decide (parse_edge_key "a|b|" = None).

Example edge_key_tests_pass : edge_key_roundtrip && edge_key_parse_rejects_missing_separator = true.
Proof. vm_compute. reflexivity. Qed.

(** ** Bijection check *)

(** The check on maps iterated in the orders [fwd] and [inv]. *)
Definition bijection_test (maps : BridgeMaps) (expected : result BijectionError unit → bool) : bool :=
  forallb (λ fwd, forallb (λ inv, expected (validate_text_bijection fwd inv maps))
    (permutations (map_to_list (node_key_map maps)))) (permutations (map_to_list (node_id_map maps))).

(** A boolean that is true for every order of the two maps. *)
Lemma bijection_test_spec maps expected fwd inv :
  bijection_test maps expected = true → fwd ≡ₚ map_to_list (node_id_map maps) →
  inv ≡ₚ map_to_list (node_key_map maps) → expected (validate_text_bijection fwd inv maps) = true.
Proof.
  unfold bijection_test. rewrite forallb_forall. intros Hall Hf Hi. specialize (Hall fwd).
  rewrite forallb_forall in Hall. apply Hall; by apply list_elem_of_In, permutations_Permutation.
Qed.

Definition maps_k1 : BridgeMaps := BridgeMaps_insert_node BridgeMaps_new "k1" (mkNodeId 1).

Definition empty_maps_pass : bool := bijection_test BridgeMaps_new is_ok.
Definition single_pair_passes : bool := bijection_test maps_k1 is_ok.

(** The entry is removed behind the operations' back. *)
Definition missing_inverse_detected : bool :=
  bijection_test
    (mkBridgeMaps (node_id_map maps_k1) (delete (mkNodeId 1) (node_key_map maps_k1)) ∅ ∅)
    (λ r, match r with
          | Err (MissingInverse loro_key id) => bool_decide (loro_key = "k1"%string) && bool_decide (id = mkNodeId 1)
          | _ => false
          end).

Definition missing_forward_detected : bool :=
  bijection_test
    (mkBridgeMaps (delete "k1"%string (node_id_map maps_k1)) (node_key_map maps_k1) ∅ ∅)
    (λ r, match r with
          | Err (MissingForward loro_key id) => bool_decide (loro_key = "k1"%string) && bool_decide (id = mkNodeId 1)
          | _ => false
          end).

Definition duplicate_id_detected : bool :=
  bijection_test (BridgeMaps_insert_node maps_k1 "k2" (mkNodeId 1))
    (λ r, match r with Err (DuplicateId id _ _) => bool_decide (id = mkNodeId 1) | _ => false end).

Example bijection_tests_pass :
  empty_maps_pass && single_pair_passes && missing_inverse_detected && missing_forward_detected &&
  duplicate_id_detected = true.
Proof. vm_compute. reflexivity. Qed.
