(* ===== verification/SuiteRuntime.v ===== *)
(** * Unit tests of the runtime, the checks, presence and the error codes

    The [#[cfg(test)]] modules of [src/runtime/mod.rs], [src/observability/mod.rs],
    [src/presence/mod.rs] and [src/wasm/mod.rs], run on the model.  A test is a
    boolean, [false] where it would panic.  The mailbox runs on the list channel
    [MemMpsc].  The two tests of [RefCell] exercise the standard library alone. *)

From S2P Require Import Prelude Types Queue Wasm CycleGuard Acyclic Observability Memory Mailbox Presence.

(** ** Mailbox *)

Section mailbox_tests.
  Context {T : Type} `{EqDecision T}.

(** A call awaited to its end with nothing else in between; [None] is a future
    that stays pending. *)
Definition send_await (msg : T) (b : Mailbox T) : option (result MailboxClosed unit * Mailbox T) :=
  match mailbox_step (ASend RoleTx msg) b with
  | Some (OSendErr e, b1) => Some (Err e, b1)
  | Some (_, b1) =>
      match mailbox_step (ASendPoll (length (sends b))) b1 with
      | Some (OSent _, b2) => Some (Ok tt, b2)
      | Some (OSendErr e, b2) => Some (Err e, b2)
      | _ => None
      end
  | None => None
  end.

Definition recv_await (b : Mailbox T) : option (option T * Mailbox T) :=
  '(_, b1) ← mailbox_step (ARecv RoleRx) b;
  match mailbox_step (ARecvPoll (length (recvs b))) b1 with
  | Some (OReceived r, b2) => Some (r, b2)
  | _ => None
  end.

Definition send_unwrap (msg : T) (b : Mailbox T) : option (Mailbox T) :=
  '(r, b) ← send_await msg b; if is_ok r then Some b else None.

Definition drop_side (h : MailboxRole) (b : Mailbox T) : option (Mailbox T) :=
  snd <$> mailbox_step (ADrop h) b.

Definition recv_is (expected : option T) (b : Mailbox T) : bool :=
  match recv_await b with Some (r, _) => bool_decide (r = expected) | None => false end.
End mailbox_tests.

Definition tokio_mailbox_send_recv_roundtrip : bool :=
  match b ← TokioMailbox_new (T:=Z) 8; send_unwrap 42%Z b with
  | Some b => recv_is (Some 42%Z) b
  | None => false
  end.

Definition tokio_mailbox_closed_returns_none : bool :=
  match b ← TokioMailbox_new (T:=Z) 8; drop_side RoleTx b with
  | Some b => recv_is None b
  | None => false
  end.

Definition tokio_mailbox_send_after_rx_dropped_returns_err : bool :=
  match b ← TokioMailbox_new (T:=Z) 8; b ← drop_side RoleRx b; send_await 99%Z b with
  | Some (r, _) => is_err r
  | None => false
  end.

Definition tokio_mailbox_fifo_order : bool :=
  match
    b ← TokioMailbox_new (T:=string) 8;
    b ← send_unwrap "first"%string b; b ← send_unwrap "second"%string b; b ← send_unwrap "third"%string b;
    '(r1, b) ← recv_await b; '(r2, b) ← recv_await b; '(r3, _) ← recv_await b; Some [r1; r2; r3]
  with
  | Some rs => bool_decide (rs = [Some "first"; Some "second"; Some "third"]%string)
  | None => false
  end.

Example mailbox_tests_pass :
  tokio_mailbox_send_recv_roundtrip && tokio_mailbox_closed_returns_none &&
  tokio_mailbox_send_after_rx_dropped_returns_err && tokio_mailbox_fifo_order = true.
Proof. vm_compute. reflexivity. Qed.

(** ** Clock *)

(** Both assertions on the time read. *)
Definition now_ms_returns_nonzero_on_native (since_epoch : option Z) : bool :=
  let t := now_ms false false since_epoch (SpecFloat.S754_zero false) in
  (0 <? t)%Z && (1704067200000 <=? t)%Z.

(** It passes when the system clock shows 2024 or later (and before the
    milliseconds leave 64 bits). *)
Lemma now_ms_test_passes d :
  (1704067200000 ≤ d < 2 ^ 64)%Z → now_ms_returns_nonzero_on_native (Some d) = true.
Proof.
  intros Hd. unfold now_ms_returns_nonzero_on_native, now_ms. cbn. rewrite u64_wrap_small by (unfold is_u64, U64_MAX; lia).
  rewrite (proj2 (Z.ltb_lt _ _)), (proj2 (Z.leb_le _ _)) by lia. done.
Qed.

(** ** Memory ceiling *)

(** [assert!(ceiling.try_alloc(..))], one after the other. *)
Definition alloc_all (c : MemoryCeiling) (l : list Z) : option MemoryCeiling :=
  foldl (λ oc n, c ← oc; let '(ok, c') := try_alloc n c in if ok then Some c' else None) (Some c) l.

Definition usage_is (c : MemoryCeiling) (n : Z) : bool := (current_usage c =? n)%Z.

Definition memory_ceiling_alloc_release_cycle : bool :=
  let c := MemoryCeiling_new 1024 in
  match alloc_all c [512%Z], alloc_all c [512; 512]%Z with
  | Some c1, Some c2 =>
      let '(ok, c3) := try_alloc 1 c2 in
      let c4 := release 512 c3 in
      (budget_bytes c =? 1024)%Z && usage_is c 0 && usage_is c1 512 && usage_is c2 1024 &&
      negb ok && usage_is c3 1024 && usage_is c4 512 && usage_is (release 512 c4) 0
  | _, _ => false
  end.

Definition register_all (docs : list (Z * Z * Z)) (c : MemoryCeiling) : MemoryCeiling :=
  foldl (λ c '(key, size, last_access), register_idle key size last_access c) c docs.

Definition memory_ceiling_evicts_idle_under_pressure_lru : bool :=
  match alloc_all (MemoryCeiling_new 1000) [300; 300; 300]%Z with
  | Some c =>
      let '(ok, c') := try_alloc 200 (register_all [(1, 300, 1000); (2, 300, 2000); (3, 300, 3000)]%Z c) in
      usage_is c 900 && ok && usage_is c' 800
  | None => false
  end.

Definition memory_ceiling_evict_idle_returns_zero_when_empty : bool :=
  let '(freed, c) := evict_idle (snd (try_alloc 500 (MemoryCeiling_new 1000))) in
  (freed =? 0)%Z && usage_is c 500.

Definition three_idle (c : MemoryCeiling) : MemoryCeiling :=
  register_all [(10, 300, 5000); (20, 300, 6000); (30, 300, 7000)]%Z c.

Definition memory_ceiling_evict_idle_single_lru : bool :=
  let c := snd (try_alloc 300 (snd (try_alloc 300 (snd (try_alloc 300 (MemoryCeiling_new 1000)))))) in
  let '(f1, c1) := evict_idle (three_idle c) in
  let '(f2, c2) := evict_idle c1 in
  let '(f3, c3) := evict_idle c2 in
  let '(f4, _) := evict_idle c3 in
  usage_is c 900 && (f1 =? 300)%Z && usage_is c1 600 && (f2 =? 300)%Z && usage_is c2 300 && (f3 =? 300)%Z &&
  usage_is c3 0 && (f4 =? 0)%Z.

Definition memory_ceiling_try_alloc_evicts_multiple_to_fit : bool :=
  match alloc_all (MemoryCeiling_new 1000) [300; 300; 300]%Z with
  | Some c => let '(ok, c') := try_alloc 700 (three_idle c) in usage_is c 900 && ok && usage_is c' 1000
  | None => false
  end.

Definition memory_ceiling_try_alloc_fails_when_eviction_insufficient : bool :=
  let c := register_idle 99 500 1000 (snd (try_alloc 500 (MemoryCeiling_new 1000))) in
  let '(ok1, c1) := try_alloc 600 c in
  let '(ok2, c2) := try_alloc 1100 c1 in
  ok1 && negb ok2 && usage_is c2 600.

Example memory_tests_pass :
  memory_ceiling_alloc_release_cycle && memory_ceiling_evicts_idle_under_pressure_lru &&
  memory_ceiling_evict_idle_returns_zero_when_empty && memory_ceiling_evict_idle_single_lru &&
  memory_ceiling_try_alloc_evicts_multiple_to_fit &&
  memory_ceiling_try_alloc_fails_when_eviction_insufficient = true.
Proof. vm_compute. reflexivity. Qed.

(** ** Queue probe and fault injection *)

Definition queue_state_probe_round_trip : bool :=
  let p := QueueStateProbe_set_depth QueueStateProbe_new 42 in
  let p := QueueStateProbe_set_oldest_age_ms p 1234 in
  let s := QueueStateProbe_snapshot (QueueStateProbe_set_locked_nodes p 3) in
  (qs_depth s =? 42)%Z && (qs_oldest_age_ms s =? 1234)%Z && (qs_locked_nodes s =? 3)%Z.

Definition fault_injector_enable_disable : bool :=
  let f0 := FaultInjector_new in
  let f1 := FaultInjector_enable f0 NetworkTimeout in
  let f2 := FaultInjector_disable f1 NetworkTimeout in
  negb (FaultInjector_is_enabled f0 NetworkTimeout) && FaultInjector_is_enabled f1 NetworkTimeout &&
  is_err (FaultInjector_trigger f1 NetworkTimeout) && is_ok (FaultInjector_trigger f1 DiskFull) &&
  negb (FaultInjector_is_enabled f2 NetworkTimeout) && is_ok (FaultInjector_trigger f2 NetworkTimeout).

Example probe_tests_pass : queue_state_probe_round_trip && fault_injector_enable_disable = true.
Proof. vm_compute. reflexivity. Qed.

(** ** Invariant checks *)

(** [..Default::default()]. *)
Definition default_input : InvariantCheckInput := mkInvariantCheckInput [] [] [] [] [] [].

Definition reports `{SetOrder} (input : InvariantCheckInput) (v : InvariantViolation) : bool :=
  match check_invariants input with
  | Some (Err v') => bool_decide (InvariantViolation_rank v' = InvariantViolation_rank v)
  | _ => false
  end.

Section invariant_tests.
  Context `{SetOrder}.
  Local Open Scope string_scope.

Definition invariant_i4_dup_detected : bool :=
  reports (mkInvariantCheckInput ["a"; "b"; "a"] [] [] [] [] []) I4Uniqueness.

Definition invariant_i14_cycle_detected : bool :=
  reports (mkInvariantCheckInput [] [] [("a", "b"); ("b", "c"); ("c", "a")] [] [] []) I14TreeAcyclicity.

Definition invariant_i14_dag_passes : bool :=
  match check_invariants (mkInvariantCheckInput [] [] [("a", "b"); ("a", "c"); ("b", "d")] [] [] []) with
  | Some r => is_ok r
  | None => false
  end.

Definition invariant_i5_non_monotonic_detected : bool :=
  reports (mkInvariantCheckInput [] [("a", 1%Z); ("b", 5%Z); ("c", 2%Z)] [] [] [] []) I5Monotonicity.

Definition invariant_i11_length_mismatch_detected : bool :=
  reports (mkInvariantCheckInput [] [] [] ["a"; "b"] ["x"] []) I11BridgeBijection.

Definition invariant_i12_parent_after_child_detected : bool :=
  reports (mkInvariantCheckInput [] [] [] [] [] [(10, 5)%Z]) I12EpochOrdering.
End invariant_tests.

(** The order of the colour map does not decide whether there is a cycle. *)
Lemma has_cycle_order (o1 o2 : SetOrder) edges : @has_cycle o1 edges = @has_cycle o2 edges.
Proof.
  destruct (@has_cycle_spec o1 edges) as (b1 & -> & H1), (@has_cycle_spec o2 edges) as (b2 & -> & H2).
  f_equal. apply eq_bool_prop_intro. rewrite !Is_true_true. by rewrite H1, H2.
Qed.

Lemma check_invariants_order (o1 o2 : SetOrder) input :
  @check_invariants o1 input = @check_invariants o2 input.
Proof. unfold check_invariants. by rewrite (has_cycle_order o1 o2). Qed.

Lemma invariant_tests_pass `{o : SetOrder} :
  invariant_i4_dup_detected && invariant_i14_cycle_detected && invariant_i14_dag_passes &&
  invariant_i5_non_monotonic_detected && invariant_i11_length_mismatch_detected &&
  invariant_i12_parent_after_child_detected = true.
Proof.
  unfold invariant_i4_dup_detected, invariant_i14_cycle_detected, invariant_i14_dag_passes,
    invariant_i5_non_monotonic_detected, invariant_i11_length_mismatch_detected,
    invariant_i12_parent_after_child_detected, reports.
  pose proof (λ i, check_invariants_order o elements_order i) as Ho. rewrite !Ho. vm_compute. reflexivity.
Qed.

(** ** Presence registry *)

Definition presence (peer vertex : string) (last_seen_ms : Z) : NodePresence :=
  mkNodePresence peer vertex None None last_seen_ms.

(** The entries [for_node] finds, with the hash map in any order: their number
    does not depend on it. *)
Definition for_node_len {W} (reg : NodePresenceRegistry W) (vertex : string) : nat :=
  length (for_node vertex (map_to_list (states reg))).

Lemma for_node_len_order {W} (reg : NodePresenceRegistry W) vertex values :
  values ≡ₚ map_to_list (states reg) → length (for_node vertex values) = for_node_len reg vertex.
Proof. intros Hv. unfold for_node_len, for_node. by rewrite Hv. Qed.

Section presence_tests.
  Local Open Scope string_scope.

Definition smoke_upsert_query_remove : bool :=
  let p1 := mkNodePresence "p1" "v1" (Some (mkCursorPos 1 0 1)) None 100 in
  let p2 := mkNodePresence "p2" "v1" None (Some (mkSelectionRange 0 5)) 100 in
  let '(reg, _) := upsert p2 (upsert p1 (NodePresenceRegistry_new (W:=unit) 1000, tt)) in
  bool_decide (for_node_len reg "v1" = 2) && bool_decide (for_node_len reg "v2" = 0) &&
  bool_decide (for_node_len (remove "p1" "v1" reg) "v1" = 1).

Definition smoke_gc_stale : bool :=
  let '(reg, _) := upsert (presence "stale" "v" 100)
                     (upsert (presence "fresh" "v" 1000) (NodePresenceRegistry_new (W:=unit) 500, tt)) in
  let '(removed, reg) := gc_stale 1200 reg in
  bool_decide (removed = 1) && bool_decide (for_node_len reg "v" = 1).

(** The callback counts its calls. *)
Definition smoke_change_callback_fires : bool :=
  let reg := on_change (λ _, S) (NodePresenceRegistry_new 1000) in
  bool_decide (snd (upsert (presence "p" "v" 0) (reg, 0)) = 1).

Definition smoke_ffi_callback_fires : bool :=
  let reg := presence_register_callback (NodePresenceRegistry_new 1000) (λ _, S) in
  bool_decide (snd (upsert (presence "p" "v" 0) (reg, 0)) = 1).
End presence_tests.

Example presence_tests_pass :
  smoke_upsert_query_remove && smoke_gc_stale && smoke_change_callback_fires && smoke_ffi_callback_fires = true.
Proof. vm_compute. reflexivity. Qed.

(** ** Error codes *)

Section error_code_tests.
  Local Open Scope string_scope.
  Notation code_is err n := (Z.eqb (error_code err) n).

Definition error_codes_always_available_are_stable : bool :=
  code_is (EStorageIo (mkIoError OtherIo "x")) 1003 && code_is (EChannelClosed "x") 1005 &&
  code_is (EConfig "x") 1006 && code_is (EUnsupportedLoroType "x") 1007 && code_is (EBridge "x") 1008 &&
  code_is (ETreeMoveCreatesCycle (mkNodeId 1) (mkNodeId 2)) 1010 && code_is (ENotYetImplemented "x") 1011 &&
  code_is (EInvalidEnvelope "x") 1012.

Definition error_code_compression_is_1004 : bool := code_is (ECompression "lz4 fail") 1004.

(** Whatever the two libraries' errors say. *)
Definition error_code_loro_is_1001 (loro_err : string) : bool := code_is (ELoro loro_err) 1001.
Definition error_code_hydrate_is_1009 (hydrate_err : string) : bool := code_is (EHydrate hydrate_err) 1009.
End error_code_tests.

Lemma error_code_tests_pass e :
  error_codes_always_available_are_stable && error_code_compression_is_1004 &&
  error_code_loro_is_1001 e && error_code_hydrate_is_1009 e = true.
Proof. vm_compute. reflexivity. Qed.
