(* ===== verification/SuiteServices.v ===== *)
(** * Unit tests of search, layout, shadow commits, storage and the FFI

    The [#[cfg(test)]] modules of [src/fts/mod.rs], [src/sab/mod.rs],
    [src/shadow/mod.rs], [src/storage/mod.rs], [src/storage/memory.rs] and
    [src/ffi/mod.rs], run on the model.  A test is a boolean, [false] where it
    would panic; those whose outcome could depend on the logarithm or on the
    order of a hash map are shown to pass for every one. *)

From S2P Require Import Prelude Types Values Storage Shadow Fts Sab Ffi SuiteBridge.

(** ** Full-text search *)

Definition tokenize_basic : bool :=
  bool_decide (tokenize (chars "Hello, world!") = chars <$> ["hello"; "world"]%string).

Definition tokenize_punct_and_underscore : bool :=
  bool_decide (tokenize (chars "foo_bar baz-qux") = chars <$> ["foo"; "bar"; "baz"; "qux"]%string).

Example tokenize_tests_pass : tokenize_basic && tokenize_punct_and_underscore = true.
Proof. vm_compute. reflexivity. Qed.

Section fts_tests.
  Context `{FloatLn, SetOrder}.

Definition hit_ids (idx : InvertedIndex) (query : string) (limit : nat) : list Z :=
  map sh_doc_id (search idx (chars query) limit).

Definition basic_docs : list FtsCmd :=
  [FIndex 1 (chars "the quick brown fox"); FIndex 2 (chars "the lazy dog"); FIndex 3 (chars "quick foxes are quick")].

Definition index_and_search_basic : bool :=
  let ids := hit_ids (fts_run basic_docs) "quick" 10 in
  negb (bool_decide (ids = [])) && bool_decide (1%Z ∈ ids) && bool_decide (3%Z ∈ ids) && negb (bool_decide (2%Z ∈ ids)).

Definition beta_docs : list FtsCmd := [FIndex 1 (chars "alpha beta"); FIndex 2 (chars "beta gamma")].

Definition remove_doc_drops_postings : bool :=
  let idx := fts_run beta_docs in
  let idx' := remove_doc 1 idx in
  (doc_count idx =? 2)%Z && (doc_count idx' =? 1)%Z && bool_decide (hit_ids idx' "alpha" 10 = []) &&
  bool_decide (hit_ids idx' "beta" 10 = [2%Z]).

Definition reindexed_docs : list FtsCmd := [FIndex 1 (chars "alpha beta"); FIndex 1 (chars "gamma delta")].

Definition reindex_replaces_content : bool :=
  let idx := fts_run reindexed_docs in
  (doc_count idx =? 1)%Z && bool_decide (hit_ids idx "alpha" 10 = []) &&
  bool_decide (length (search idx (chars "gamma") 10) = 1).

(** The ids found after a run, from its documents alone. *)
Lemma hit_ids_run cs query limit :
  fts_bounded cs → size (docs_run cs) ≤ limit →
  hit_ids (fts_run cs) query limit ≡ₚ
    base.filter (λ d, matches (docs_run cs) (chars query) d) (elements (dom (docs_run cs))).
Proof. intros Hb Hs. apply search_ids; [by apply fts_run_represents|done]. Qed.

Lemma doc_count_run cs : fts_bounded cs → doc_count (fts_run cs) = Z.of_nat (size (docs_run cs)).
Proof. intros Hb. apply (fts_run_represents cs Hb). Qed.

(** Reads what the run found off the documents. *)
Ltac run_ids cs query l :=
  let Hp := fresh "Hp" in
  assert (Hp : hit_ids (fts_run cs) query 10 ≡ₚ l)
    by (rewrite hit_ids_run; [vm_compute; reflexivity|split; [vm_compute; reflexivity|repeat constructor]|vm_compute; lia]).

Lemma index_and_search_basic_passes : index_and_search_basic = true.
Proof.
  unfold index_and_search_basic. cbv zeta. run_ids basic_docs "quick"%string [3; 1]%Z.
  symmetry in Hp. apply Permutation_length_2_inv in Hp as [->| ->]; vm_compute; reflexivity.
Qed.

Lemma remove_doc_drops_postings_passes : remove_doc_drops_postings = true.
Proof.
  unfold remove_doc_drops_postings. cbv zeta.
  change (remove_doc 1 (fts_run beta_docs)) with (fts_run (beta_docs ++ [FRemove 1])).
  run_ids (beta_docs ++ [FRemove 1]) "alpha"%string (@nil Z).
  run_ids (beta_docs ++ [FRemove 1]) "beta"%string [2%Z].
  apply Permutation_nil_r in Hp. apply Permutation_singleton_r in Hp0. rewrite Hp, Hp0.
  rewrite !doc_count_run by (split; [vm_compute; reflexivity|repeat constructor]). vm_compute. reflexivity.
Qed.

Lemma reindex_replaces_content_passes : reindex_replaces_content = true.
Proof.
  unfold reindex_replaces_content. cbv zeta.
  run_ids reindexed_docs "alpha"%string (@nil Z). run_ids reindexed_docs "gamma"%string [1%Z].
  apply Permutation_nil_r in Hp. apply Permutation_length in Hp0. unfold hit_ids in Hp0. rewrite length_map in Hp0.
  rewrite Hp, Hp0. rewrite doc_count_run by (split; [vm_compute; reflexivity|repeat constructor]).
  vm_compute. reflexivity.
Qed.
End fts_tests.

(** ** Layout buffer *)

Definition f32_30 : Z := 0x41F00000.
Definition f32_35 : Z := 0x420C0000.
Definition f32_40 : Z := 0x42200000.
Definition f32_999 : Z := 0x4479C000.

#[local] Existing Instance quiet_nan.

(** A writer after calls of [set_layout]; [None] is a panic. *)
Definition layouts (capacity : Z) (entries : list (nat * Z * Z)) : option SabLayoutWriter :=
  foldl (λ ow '(index, y, h), w ← ow; SabLayoutWriter_set_layout index y h w) (SabLayoutWriter_new capacity) entries.

Definition count_is (ow : option SabLayoutWriter) (n : nat) : bool :=
  match ow with Some w => bool_decide (entry_count w = n) | None => false end.

Definition entry_count_grows_sequentially : bool :=
  count_is (layouts 8 []) 0 && count_is (layouts 8 [(0, f32_zero, f32_10)]) 1 &&
  count_is (layouts 8 [(0, f32_zero, f32_10); (1, f32_10, f32_20)]) 2.

(** [#[should_panic]]; that it is the last call that panics is the first conjunct. *)
Definition set_layout_panics_on_gap : bool :=
  count_is (layouts 8 []) 0 && bool_decide (layouts 8 [(5, f32_zero, f32_10)] = None).

Definition set_layout_panics_on_overflow : bool :=
  count_is (layouts 2 [(0, f32_zero, f32_10); (1, f32_10, f32_20)]) 2 &&
  bool_decide (layouts 2 [(0, f32_zero, f32_10); (1, f32_10, f32_20); (2, f32_30, f32_40)] = None).

Definition recompute_cascades_y_offsets : bool :=
  match layouts 4 [(0, f32_zero, f32_10); (1, f32_999, f32_20); (2, f32_999, f32_5)] ≫=
        SabLayoutWriter_recompute_offsets 1 with
  | Some w =>
      bool_decide (SabLayoutWriter_get_layout 0 w = Some (Some (f32_zero, f32_10))) &&
      bool_decide (SabLayoutWriter_get_layout 1 w = Some (Some (f32_10, f32_20))) &&
      bool_decide (SabLayoutWriter_get_layout 2 w = Some (Some (f32_30, f32_5)))
  | None => false
  end.

Definition total_height_returns_max_bottom : bool :=
  match layouts 4 [(0, f32_zero, f32_10); (1, f32_10, f32_20); (2, f32_30, f32_5)] with
  | Some w => bool_decide (SabLayoutWriter_total_height w = Some f32_35)
  | None => false
  end.

Definition as_bytes_length_is_capacity_times_entry_size : bool :=
  match SabLayoutWriter_new 7 with
  | Some w => bool_decide (length (SabLayoutWriter_as_bytes w) = 7 * LAYOUT_ENTRY_BYTES)
  | None => false
  end.

#[local] Instance SabLayoutWriter_eq_dec : EqDecision SabLayoutWriter.
Proof. solve_decision. Defined.

Example sab_tests_pass :
  entry_count_grows_sequentially && set_layout_panics_on_gap && set_layout_panics_on_overflow &&
  recompute_cascades_y_offsets && total_height_returns_max_bottom &&
  as_bytes_length_is_capacity_times_entry_size = true.
Proof. vm_compute. reflexivity. Qed.

(** ** Shadow commits *)

Definition state_vector (l : list Z) : list Byte.byte := byte_of_Z <$> l.

Definition hash_commit_is_deterministic : bool :=
  bool_decide (hash_commit "peer-a" [] 1234 (state_vector [1; 2; 3]%Z) =
               hash_commit "peer-a" [] 1234 (state_vector [1; 2; 3]%Z)).
Definition hash_commit_differs_on_peer : bool :=
  negb (bool_decide (hash_commit "peer-a" [] 1234 (state_vector [1; 2; 3]%Z) =
                     hash_commit "peer-b" [] 1234 (state_vector [1; 2; 3]%Z))).
Definition hash_commit_differs_on_state_vector : bool :=
  negb (bool_decide (hash_commit "peer-a" [] 1234 (state_vector [1; 2; 3]%Z) =
                     hash_commit "peer-a" [] 1234 (state_vector [1; 2; 4]%Z))).

Example hash_tests_pass :
  hash_commit_is_deterministic && hash_commit_differs_on_peer && hash_commit_differs_on_state_vector = true.
Proof. vm_compute. reflexivity. Qed.

(** ** Chunked streaming *)

(** The sinks: one counts its calls, one collects the sizes, one fails. *)
Definition count_calls (_ : list Byte.byte) : SE nat GrafeoLoroError unit := λ calls, (Ok tt, S calls).
Definition collect_sizes (c : list Byte.byte) : SE (list nat) GrafeoLoroError unit := λ sizes, (Ok tt, sizes ++ [length c]).
Definition failing_sink (_ : list Byte.byte) : SE unit GrafeoLoroError unit := λ st, (Err (EConfig "x"), st).

Definition zeroes (n : nat) : list Byte.byte := replicate n (byte_of_Z 0).

Definition stream_empty_input_no_calls : bool :=
  let '(r, calls) := SnapshotStreamer_stream (SnapshotStreamer_new 64) [] count_calls 0 in
  returns r 0 && bool_decide (calls = 0).

Definition stream_exact_multiple : bool :=
  let '(n, sizes) := SnapshotStreamer_stream (SnapshotStreamer_new 4) (zeroes 16) collect_sizes [] in
  returns n 4 && bool_decide (sizes = [4; 4; 4; 4]).

Definition stream_partial_last_chunk : bool :=
  let '(n, sizes) := SnapshotStreamer_stream (SnapshotStreamer_new 8) (zeroes 20) collect_sizes [] in
  returns n 3 && bool_decide (sizes = [8; 8; 4]).

Definition stream_propagates_error : bool :=
  is_err (fst (SnapshotStreamer_stream (SnapshotStreamer_new 4) (zeroes 16) failing_sink tt)).

Definition zero_chunk_size_clamped_to_one : bool :=
  let s := SnapshotStreamer_new 0 in
  bool_decide (chunk_size s = 1) && returns (fst (SnapshotStreamer_stream s (zeroes 3) collect_sizes [])) 3.

Example stream_tests_pass :
  stream_empty_input_no_calls && stream_exact_multiple && stream_partial_last_chunk && stream_propagates_error &&
  zero_chunk_size_clamped_to_one = true.
Proof. vm_compute. reflexivity. Qed.

(** ** In-memory storage *)

Definition not_found (r : result IoError (list Byte.byte)) : bool :=
  match r with Err e => bool_decide (io_kind e = NotFound) | Ok _ => false end.

Definition storage_roundtrip : bool :=
  let '(r1, s1) := InMemoryStorage_save "k" (state_vector [1; 2; 3]%Z) ∅ in
  let '(r2, s2) := InMemoryStorage_delete "k" s1 in
  is_ok r1 && returns (InMemoryStorage_load "k" s1) (state_vector [1; 2; 3]%Z) &&
  not_found (InMemoryStorage_load "missing" s1) && is_ok r2 && not_found (InMemoryStorage_load "k" s2).

Definition saved_keys (keys : list string) : gmap string (list Byte.byte) :=
  foldl (λ s k, snd (InMemoryStorage_save k [] s)) ∅ keys.

Definition list_prefix `{SetOrder} : bool :=
  match InMemoryStorage_list "graph_1/"
          (saved_keys ["graph_1/base.loro"; "graph_1/delta-1.loro"; "graph_2/base.loro"]%string) with
  | Ok keys => bool_decide (length keys = 2)
  | Err _ => false
  end.

Definition snap : list Byte.byte := string_bytes "hello-snapshot".
Definition with_snapshot : gmap string (list Byte.byte) := snd (InMemoryStorage_save SNAPSHOT_KEY snap ∅).

Definition incremental_snapshot_no_changes_returns_empty : bool :=
  returns (InMemoryStorage_export_incremental_snapshot with_snapshot snap) [].
Definition incremental_snapshot_no_snapshot_returns_empty : bool :=
  returns (InMemoryStorage_export_incremental_snapshot ∅ (string_bytes "whatever")) [].
Definition incremental_snapshot_changed_returns_full : bool :=
  returns (InMemoryStorage_export_incremental_snapshot with_snapshot (string_bytes "stale-sv")) snap.

Definition diff_snapshots_identical_is_empty : bool :=
  let b := replicate 16 (byte_of_Z 1) in
  match InMemoryStorage_diff_snapshots b b with Ok d => SnapshotDiff_is_empty d && bool_decide (state_vector_delta d = []) | Err _ => false end.

Definition diff_snapshots_growth : bool :=
  match InMemoryStorage_diff_snapshots (zeroes 8) (zeroes 24) with
  | Ok diff => (added_ops diff =? 2)%Z && (removed_ops diff =? 0)%Z
  | Err _ => false
  end.

Example storage_tests_pass :
  storage_roundtrip && incremental_snapshot_no_changes_returns_empty &&
  incremental_snapshot_no_snapshot_returns_empty && incremental_snapshot_changed_returns_full &&
  diff_snapshots_identical_is_empty && diff_snapshots_growth = true.
Proof. vm_compute. reflexivity. Qed.

Lemma list_prefix_passes `{SetOrder} : list_prefix = true.
Proof.
  unfold list_prefix, InMemoryStorage_list.
  match goal with |- context [set_iter ?X] => by_order (set_iter X) (all_orders X) end.
Qed.

(** ** FFI node operations *)

Definition node_value_to_graph_value_scalars : Prop :=
  GraphValue_from_NodeValue NodeValue_Null = GraphValue_Null ∧
  GraphValue_from_NodeValue (NodeValue_Bool true) = GraphValue_Bool true ∧
  GraphValue_from_NodeValue (NodeValue_Integer 42) = GraphValue_Integer 42 ∧
  GraphValue_from_NodeValue (NodeValue_Float f64_3_5) = GraphValue_Float f64_3_5 ∧
  GraphValue_from_NodeValue (NodeValue_Str "hi") = GraphValue_String "hi".

Definition node_op_empty_props_to_loro_op : Prop :=
  match LoroOp_from_NodeOp (mkNodeOp "V/abc-123" ["Person"%string] 0 [] []) with
  | UpsertNode loro_key labels properties =>
      loro_key = "V/abc-123"%string ∧ labels = ["Person"%string] ∧ size properties = 0
  | _ => False
  end.

Definition node_op_with_props_to_loro_op : Prop :=
  match LoroOp_from_NodeOp (mkNodeOp "V/node-1" ["Person"; "User"]%string 3 ["name"; "age"; "active"]%string
          [NodeValue_Str "alice"; NodeValue_Integer 30; NodeValue_Bool true]) with
  | UpsertNode loro_key labels properties =>
      loro_key = "V/node-1"%string ∧ labels = ["Person"; "User"]%string ∧ size properties = 3 ∧
      properties !! "name"%string = Some (GraphValue_String "alice") ∧
      properties !! "age"%string = Some (GraphValue_Integer 30) ∧
      properties !! "active"%string = Some (GraphValue_Bool true) ∧ properties !! "missing"%string = None
  | _ => False
  end.

(** A hundred properties are announced, two are there. *)
Definition node_op_property_count_mismatch_uses_actual_arrays : Prop :=
  match LoroOp_from_NodeOp (mkNodeOp "V/x" [] 100 ["k1"; "k2"]%string [NodeValue_Integer 1; NodeValue_Integer 2]) with
  | UpsertNode _ _ properties => size properties = 2
  | _ => False
  end.

Example node_op_tests_pass :
  node_value_to_graph_value_scalars ∧ node_op_empty_props_to_loro_op ∧ node_op_with_props_to_loro_op ∧
  node_op_property_count_mismatch_uses_actual_arrays.
Proof. vm_compute. repeat split. Qed.
